(* ===== verification/_CoqProject ===== *)
-Q . S2P
Prelude.v
Ordered.v
Storage.v
Scan.v
CellTypes.v
CellValue.v
CellName.v
MerkleNode.v
MerkleTrie.v
Groups.v
Frame.v
MerkleTree.v
MerkleEdit.v
MerkleBatch.v
MerkleSpec.v
MerkleWalk.v
Samples.v
Hasher.v
MerkleClaims.v
BranchTypes.v
CellScan.v
Overlay.v
Cells.v
Buffer.v
Mdbx.v
MdbxClaims.v
Term.v
Bitmap.v
BitmapSpec.v
Index.v
IndexSpec.v
IndexReads.v
IndexClaims.v
Seal.v
CellIndex.v
SealSpec.v
SealClaims.v
Branches.v
Records.v
Query.v
RecordsSpec.v
CommittedSpec.v
QuerySpec.v
Genesis.v
GenesisSpec.v
OpenSpec.v
Limits.v
KeyedStore.v
History.v
Selection.v
SampleStore.v
SampleCommit.v
OpenClaims.v
RecordClaims.v
QueryClaims.v
CommitSpec.v
Api.v
ApiSpec.v
DatabaseSpec.v
DatabaseSim.v
ApiClaims.v
DatabaseClaims.v
