(* ===== verification/Prelude.v ===== *)
(** * A verification of GolemDB

    GolemDB is a transactional record store written in Rust (src/crates). A
    record is a set of named, typed cells under a 32-byte key. Cells live in a
    byte-ordered transactional store; every commit also commits to them with a
    Merkle trie, and to the postings of indexed cells with a second one. Work
    happens on branches, which stage cells in memory over a snapshot, are sealed
    into buffered storage rows, and are published one after another. This
    library translates the crates bottom up and proves what each promises to
    the next.

    ** How the program is modelled

    A function that returns [Result] is a function into [res] ([Ok], [Err],
    [Panic] for an unwinding, [Diverge] for a model that ran out of fuel); one
    that mutates an object is a [stres S E A], a function from the object to an
    outcome and the object after it. A [BTreeMap] is a [gmap] read through
    [entries] and [range] in its key order; bytes are [list byte], machine
    integers [Z] with their ranges and wrap-around written out. Traits are type
    classes with a second class of laws; the layers above use the laws only, so
    what is proved of them holds over every backend that keeps them.

    ** Parts

    - Storage (crates/storage): [Storage.v] has the traits, their laws and the
      in-memory backend with its readers and single writer; [Scan.v] the range
      and prefix iterator. [Mdbx.v] has the adapter of crates/storage-mdbx over
      the calls of libmdbx, and [MdbxClaims.v] its contract.
    - Cells (crates/cells): [CellTypes.v], [CellValue.v] (types, stored forms,
      typed constructors and accessors), [CellName.v] (names, addresses, limits,
      reserved records), [Cells.v] (the cell table and its trie).
    - Merkle trie (crates/merkle): [MerkleNode.v] (compact branches, paths),
      [Hasher.v] (the two digest providers over an incremental digest),
      [MerkleTrie.v] (lookup, single and batch edits, walks), [MerkleTree.v],
      [MerkleEdit.v], [MerkleBatch.v], [MerkleWalk.v], [MerkleSpec.v] (the trie
      as a finite map), [Frame.v] (what an update leaves alone).
    - Branches (crates/branch): [Overlay.v] (staged cells, undo journal,
      frames), [CellScan.v] (merged scans), [Buffer.v] (the write buffer, again
      a transaction), [Seal.v] (head row, seal, publication), [SealSpec.v] and
      [CellIndex.v] (what a publication leaves in the store), [Branches.v] (the
      manager and the interleavings of its calls).
    - Index (crates/index): [Term.v] (terms and ranges), [Bitmap.v] and
      [BitmapSpec.v] (containers and the bitmap trie), [Index.v], [IndexSpec.v]
      and [IndexReads.v] (the term trie, updates and reads). [Groups.v] has the
      runs of a sorted batch.
    - Records (crates/record): [Records.v] (the operations, as programs over a
      branch's cells), [RecordsSpec.v] and [CommittedSpec.v] (the invariant,
      committed reads), [KeyedStore.v] (the map machine that the operations
      refine), [History.v] (that machine through checkpoints and rollbacks of one
      branch), [Limits.v] (what admission bounds).
    - Queries (crates/query): [Query.v] (requests, plans, evaluation),
      [QuerySpec.v] and [Selection.v] (filters as selections of records).
    - Opening (crates/api/src/{genesis,open,config}.rs): [Genesis.v],
      [GenesisSpec.v], [OpenSpec.v].
    - The facade (crates/api): [Api.v] (requests and their builders, errors, the
      adapter and the database handle) and [ApiSpec.v]; [CommitSpec.v] joins the
      manager, sealing and records.
    - The whole database: [DatabaseSpec.v] is the abstract machine, a head over a
      map of records with branches that edit copies of it, and the requests as
      the facade runs them; [DatabaseSim.v] relates the two, request by request.
    - [Ordered.v] has orders and ordered maps, this file outcomes and bytes;
      [Samples.v], [SampleStore.v] and [SampleCommit.v] the concrete stores on
      which the properties are exercised; the files ending in [Claims] hold
      properties that need several parts, with an instance of each.

    ** What is proved

    - The database: every schedule of requests on any number of branches, with
      commits split at the seal, gets the replies of the abstract machine and
      leaves a store that serves its records ([DatabaseClaims]). The parts below
      carry this one.
    - Sessions: through the facade over the memory store, begin, any requests and
      commit return, answer as a key-to-record map does, and leave a valid store
      that shows the map ([ApiClaims]). Opening a fresh store establishes such a
      store, opening it again accepts it, committing keeps it valid
      ([OpenClaims]).
    - Commitment: trie, index, bitmap and cell updates refine maps and sets, roots
      are canonical, old roots survive; sealing and publishing change head,
      cells, tries and index in step.
    - Branches: commits form one chain in every interleaving, frames are whole
      copies, write groups are atomic, sealed branches frozen, retired handles
      refused.
    - Records and queries: the operations refine a keyed store, committed reads
      and queries answer from the published cells.
    - Storage: the memory store is serialisable; the write buffer and the MDBX
      adapter keep the contract; scans yield ranges.
    - Codecs and bounds: stored forms are canonical, ordered and invertible; what
      the limits admit fits a backend that passed the check of its sizes.
    - Errors: a full store is reported as such however deep it is wrapped;
      builders fail at the first step at fault.

    ** Digests

    Hash functions are third-party code and a parameter ([HashProvider]); only
    the width of a digest is assumed, and for the two providers of the code, which
    [Hasher.v] builds from incremental digests, that updates concatenate. No theorem takes the digest to be
    injective, which no digest is: each asks that the digests of the addresses,
    terms or rows at hand be distinct ([distinct_paths], [distinct_index],
    [clash]), or has the reported conflict as an outcome. A conflict is always
    one of the rows that the operation is to make: [conflict] names a branch of
    the trie of the very leaves that the result stands for whose digest is taken
    by another row, [cell_conflict], [bitmap_conflict], [index_conflict] and
    [seal_conflict] the tries and containers of the resulting cells, sets and
    postings, and [grown] says that a trie operation adds no other rows. The
    instances use a small polynomial digest for which the conditions are
    computed; there the operations succeed.

    ** Fuel

    Trie recursion is bounded by the route's nibbles ([DEPTH]); the theorems show
    that it is never exhausted. Loops over cursors take the rows they may step
    through as fuel: a theorem about one asks for more than the table holds, or
    shows that enough exists, and then the outcome is the code's, never
    [Diverge].

    ** Not modelled

    The digests, the roaring codec and libmdbx themselves (parameters with
    their documented laws); the YAML parser behind the genesis and hash
    configurations (a parameter of their loaders, in [Genesis.v]) and the
    file system; texts of errors, kept as data; mutex poisoning of the branch registry,
    although a panic that unwinds through an operation is; immutable data
    beyond its [NotImplemented] answers, which is all the code has. *)
From Stdlib Require Import ZArith Lia.
From Stdlib Require Export Strings.Byte.
From stdpp Require Export sorting.
From stdpp Require Export numbers prelude strings gmap.
From stdpp Require Export list_basics list_relations list.

#[local] Open Scope Z_scope.

(** * Outcomes of fallible code

    A Rust function that returns [Result<A, E>] is modelled by [res E A]. Two
    more outcomes exist at run time: a panic (an [unwrap] on [None], an index
    out of range) and, in this model only, running out of fuel. *)
Inductive res (E A : Type) : Type :=
  | Ok (a : A)
  | Err (e : E)
  | Panic
  | Diverge.
Arguments Ok {E A} _.
Arguments Err {E A} _.
Arguments Panic {E A}.
Arguments Diverge {E A}.

#[global] Instance res_mret E : MRet (res E) := fun A a => Ok a.
#[global] Instance res_mbind E : MBind (res E) := fun A B f c =>
  match c with
  | Ok a => f a
  | Err e => Err e
  | Panic => Panic
  | Diverge => Diverge
  end.

(** [Result::map_err], which is also what [?] does through [From]. *)
Definition map_err {E F A} (f : E -> F) (c : res E A) : res F A :=
  match c with
  | Ok a => Ok a
  | Err e => Err (f e)
  | Panic => Panic
  | Diverge => Diverge
  end.

(** [Option::ok_or] *)
Definition ok_or {E A} (o : option A) (e : E) : res E A :=
  match o with Some a => Ok a | None => Err e end.

(** [Option::unwrap] and [expect]: [None] panics. *)
Definition unwrap {E A} (o : option A) : res E A :=
  match o with Some a => Ok a | None => Panic end.

(** Code that threads a mutable object of type [S]. The object is returned on
    errors too: a failed operation may leave partial changes behind. *)
Definition stres (S E A : Type) : Type := S -> res E A * S.

#[global] Instance stres_mret S E : MRet (stres S E) := fun A a s => (Ok a, s).
#[global] Instance stres_mbind S E : MBind (stres S E) := fun A B f c s =>
  match c s with
  | (Ok a, s') => f a s'
  | (Err e, s') => (Err e, s')
  | (Panic, s') => (Panic, s')
  | (Diverge, s') => (Diverge, s')
  end.

(** A computation that only reads the object. *)
Definition reading {S E A} (f : S -> res E A) : stres S E A := fun s => (f s, s).

Definition lift_res {S E A} (c : res E A) : stres S E A := fun s => (c, s).

Definition st_map_err {S E F A} (f : E -> F) (c : stres S E A) : stres S F A :=
  fun s => let '(r, s') := c s in (map_err f r, s').

Lemma res_bind_ok {E A B} (c : res E A) (f : A -> res E B) b :
  c ≫= f = Ok b <-> exists a, c = Ok a /\ f a = Ok b.
Proof. destruct c; naive_solver. Qed.

Lemma map_err_ok {E F A} (f : E -> F) (c : res E A) a :
  map_err f c = Ok a <-> c = Ok a.
Proof. destruct c; naive_solver. Qed.

Lemma stres_bind_ok {S E A B} (c : stres S E A) (f : A -> stres S E B) s b s' :
  (c ≫= f) s = (Ok b, s') <->
  exists a s1, c s = (Ok a, s1) /\ f a s1 = (Ok b, s').
Proof.
  unfold mbind, stres_mbind. destruct (c s) as [[] ?]; naive_solver.
Qed.

Lemma stres_bind_step {S E A B} (c : stres S E A) (f : A -> stres S E B) s a s' :
  c s = (Ok a, s') -> (c ≫= f) s = f a s'.
Proof. unfold mbind, stres_mbind. by intros ->. Qed.

(** Does an outcome carry a value? *)
Definition is_ok {E A} (c : res E A) : bool :=
  match c with Ok _ => true | _ => false end.

(** Tactics: split every bind of a successful computation in a hypothesis. *)
Ltac inv_ok :=
  repeat match goal with
  | H : (_ ≫= _) _ = (Ok _, _) |- _ =>
      apply stres_bind_ok in H as (? & ? & ? & ?)
  | H : (_ ≫= _) = Ok _ |- _ => apply res_bind_ok in H as (? & ? & ?)
  | H : map_err _ _ = Ok _ |- _ => apply map_err_ok in H
  | H : Ok _ = Ok _ |- _ => injection H as H
  | H : (Ok _, _) = (Ok _, _) |- _ => injection H as H
  | H : mret _ = Ok _ |- _ => injection H as H
  end.

(** Case analysis on the innermost scrutinee of the goal or of a hypothesis. *)
Ltac case_eqs := repeat (case_match; simplify_eq/=).

(** * Bytes *)

Abbreviation bytes := (list byte).

(** The value of a byte, and the byte of an integer modulo 256. *)
Definition u8 (b : byte) : Z := Z.of_N (Byte.to_N b).

Definition byte_of (z : Z) : byte :=
  match Byte.of_N (Z.to_N (z mod 256)) with Some b => b | None => x00 end.

Lemma u8_range b : 0 <= u8 b < 256.
Proof. unfold u8. pose proof (Byte.to_N_bounded b). lia. Qed.

Lemma u8_byte_of z : u8 (byte_of z) = z mod 256.
Proof.
  unfold u8, byte_of. pose proof (Z.mod_pos_bound z 256 eq_refl) as Hz.
  destruct (Byte.of_N _) eqn:E.
  - apply Byte.to_of_N in E. lia.
  - apply Byte.of_N_None_iff in E. lia.
Qed.

Lemma byte_of_u8 b : byte_of (u8 b) = b.
Proof.
  unfold byte_of, u8. pose proof (u8_range b). rewrite Z.mod_small by done.
  by rewrite N2Z.id, Byte.of_to_N.
Qed.

#[global] Instance u8_inj : Inj (=) (=) u8.
Proof. intros a b H. by rewrite <- (byte_of_u8 a), H, byte_of_u8. Qed.

#[global] Instance byte_eq_dec : EqDecision byte.
Proof. intros a b. destruct (Byte.byte_eq_dec a b); [left|right]; done. Defined.

#[global] Program Instance byte_countable : Countable byte :=
  inj_countable Byte.to_N Byte.of_N _.
Next Obligation. apply Byte.of_to_N. Qed.

(** Fixed-width big-endian integers: [to_be_bytes] and [from_be_bytes]. *)
Fixpoint be_encode (n : nat) (z : Z) : bytes :=
  match n with
  | O => []
  | S n' => byte_of (z / 256 ^ Z.of_nat n') :: be_encode n' z
  end.

Definition be_decode (l : bytes) : Z :=
  fold_left (fun acc b => acc * 256 + u8 b) l 0.

Lemma length_be_encode n z : length (be_encode n z) = n.
Proof. induction n; simpl; congruence. Qed.

Lemma be_fold_acc l a :
  fold_left (fun acc b => acc * 256 + u8 b) l a = a * 256 ^ Z.of_nat (length l) + be_decode l.
Proof.
  unfold be_decode. revert a. induction l as [|b l IH]; intros a; [simpl; lia|].
  cbn [fold_left length]. rewrite IH, (IH (0 * 256 + u8 b)).
  rewrite Nat2Z.inj_succ, Z.pow_succ_r by lia. lia.
Qed.

Lemma be_decode_cons b l :
  be_decode (b :: l) = u8 b * 256 ^ Z.of_nat (length l) + be_decode l.
Proof. unfold be_decode at 1. simpl. rewrite be_fold_acc. lia. Qed.

Lemma be_decode_range l : 0 <= be_decode l < 256 ^ Z.of_nat (length l).
Proof.
  induction l as [|b l IH]; [done|].
  rewrite be_decode_cons. cbn [length]. rewrite Nat2Z.inj_succ, Z.pow_succ_r by lia.
  pose proof (u8_range b). nia.
Qed.

Lemma be_encode_mod n z : be_encode n (z mod 256 ^ Z.of_nat n) = be_encode n z.
Proof.
  enough (forall m, (n <= m)%nat -> be_encode n (z mod 256 ^ Z.of_nat m) = be_encode n z) by auto.
  induction n as [|n IH]; intros m Hm; [done|]. simpl. rewrite IH by lia. f_equal.
  apply (inj u8). rewrite !u8_byte_of.
  replace (Z.of_nat m) with (Z.of_nat n + Z.succ (Z.of_nat (m - n - 1))) by lia.
  rewrite Z.pow_add_r, Z.pow_succ_r by lia.
  set (p := 256 ^ Z.of_nat n). set (q := 256 ^ Z.of_nat (m - n - 1)).
  assert (0 < p) by (apply Z.pow_pos_nonneg; lia).
  assert (0 < q) by (apply Z.pow_pos_nonneg; lia).
  rewrite (Z.rem_mul_r z p (256 * q)) by lia.
  rewrite Z.mul_comm, Z.div_add by lia. rewrite Z.div_small with (b := p)
    by (apply Z.mod_pos_bound; lia).
  rewrite Z.add_0_l. apply Z.mod_mod_divide. exists q. lia.
Qed.

Lemma be_decode_encode n z : 0 <= z < 256 ^ Z.of_nat n -> be_decode (be_encode n z) = z.
Proof.
  revert z. induction n as [|n IH]; intros z Hz.
  { simpl in *. unfold be_decode. simpl. change (256 ^ 0) with 1 in Hz. lia. }
  rewrite Nat2Z.inj_succ, Z.pow_succ_r in Hz by lia.
  cbn [be_encode]. rewrite be_decode_cons, length_be_encode, u8_byte_of.
  assert (0 < 256 ^ Z.of_nat n) by (apply Z.pow_pos_nonneg; lia).
  rewrite <- be_encode_mod, IH by (apply Z.mod_pos_bound; lia).
  rewrite (Z.mod_small (z / _)).
  2:{ split; [apply Z.div_pos; lia|]. apply Z.div_lt_upper_bound; lia. }
  rewrite Z.mul_comm. symmetry. apply Z.div_mod. lia.
Qed.

Lemma be_encode_decode l : be_encode (length l) (be_decode l) = l.
Proof.
  induction l as [|b l IH]; [done|]. cbn [length be_encode].
  rewrite be_decode_cons. pose proof (be_decode_range l).
  set (p := 256 ^ Z.of_nat (length l)) in *. f_equal.
  - rewrite Z.add_comm, Z.div_add, Z.div_small by lia. rewrite Z.add_0_l. apply byte_of_u8.
  - rewrite <- be_encode_mod. fold p.
    rewrite Z.add_comm, Z.mod_add, Z.mod_small by lia. done.
Qed.

Lemma be_decode_inj l1 l2 :
  length l1 = length l2 -> be_decode l1 = be_decode l2 -> l1 = l2.
Proof. intros Hl H. by rewrite <- (be_encode_decode l1), H, Hl, be_encode_decode. Qed.

Arguments byte_of : simpl never.
Arguments u8 : simpl never.
Arguments be_encode : simpl never.
Arguments be_decode : simpl never.

(** * Searching a list *)

(** [iter().position(p)], [iter().rposition(p)] *)
Definition position {A} (p : A -> bool) (l : list A) : option nat :=
  head (filter (fun i => (p <$> l !! i) = Some true) (seq 0 (length l))).
Definition rposition {A} (p : A -> bool) (l : list A) : option nat :=
  last (filter (fun i => (p <$> l !! i) = Some true) (seq 0 (length l))).

Lemma filter_ext_in {A} (P Q : A -> Prop) `{forall x, Decision (P x), forall x, Decision (Q x)} (l : list A) :
  (forall x, x ∈ l -> P x <-> Q x) -> filter P l = filter Q l.
Proof.
  intros HPQ. induction l as [|x l IH]; [done|]. rewrite !filter_cons. rewrite IH by (intros; apply HPQ; set_solver).
  assert (P x <-> Q x) as Hx by (apply HPQ; set_solver). destruct (decide (P x)), (decide (Q x)); tauto.
Qed.
