(* ===== verification/Ordered.v ===== *)
(** Total orders and the ordered view of finite maps.

    The program keeps its state in [BTreeMap]s and reads it back in key order:
    cursors, scans, merges and the batch normalisations all depend on that
    order. A [BTreeMap<K, V>] is a [gmap K V] here; [entries] is its iteration
    order, [range] its [range] method, and [normalize] the program's
    sort-and-dedup of a batch (a stable sort by key after which the last
    operation on a key wins). *)
From Stdlib Require Import ZArith Lia.
From S2P Require Import Prelude.

#[local] Open Scope Z_scope.

(** * The interface: Rust's [Ord] *)

Class Ordered (K : Type) := cmp : K -> K -> comparison.

Class OrderedLaws (K : Type) `{Ordered K} : Prop := {
  cmp_eq (a b : K) : cmp a b = Eq <-> a = b;
  cmp_sym (a b : K) : cmp b a = CompOpp (cmp a b);
  cmp_lt_trans (a b c : K) : cmp a b = Lt -> cmp b c = Lt -> cmp a c = Lt
}.

Definition ltb {K} `{Ordered K} (a b : K) : bool :=
  match cmp a b with Lt => true | _ => false end.
Definition leb {K} `{Ordered K} (a b : K) : bool :=
  match cmp a b with Gt => false | _ => true end.
Definition klt {K} `{Ordered K} (a b : K) : Prop := cmp a b = Lt.
Definition kle {K} `{Ordered K} (a b : K) : Prop := cmp a b <> Gt.

Section Order.
Context {K : Type} `{OrderedLaws K}.

Lemma cmp_refl (a : K) : cmp a a = Eq.
Proof. by apply cmp_eq. Qed.

Lemma klt_irrefl (a : K) : ~ klt a a.
Proof. unfold klt. rewrite cmp_refl. done. Qed.

#[global] Instance klt_trans : Transitive (@klt K _).
Proof. intros a b c. apply cmp_lt_trans. Qed.

Lemma kle_iff (a b : K) : kle a b <-> klt a b \/ a = b.
Proof. unfold kle, klt. rewrite <- cmp_eq. destruct (cmp a b); naive_solver. Qed.

Lemma kle_refl (a : K) : kle a a.
Proof. apply kle_iff. auto. Qed.

Lemma klt_cases (a b : K) : klt a b \/ a = b \/ klt b a.
Proof.
  unfold klt. rewrite (cmp_sym a b), <- cmp_eq.
  destruct (cmp a b); naive_solver.
Qed.

Lemma not_klt (a b : K) : ~ klt a b <-> kle b a.
Proof. unfold klt, kle. rewrite (cmp_sym a b). destruct (cmp a b); naive_solver. Qed.

Lemma not_kle (a b : K) : ~ kle a b <-> klt b a.
Proof. unfold klt, kle. rewrite (cmp_sym a b). destruct (cmp a b); naive_solver. Qed.

Lemma klt_kle (a b : K) : klt a b -> kle a b.
Proof. rewrite kle_iff. auto. Qed.

Lemma klt_kle_trans (a b c : K) : klt a b -> kle b c -> klt a c.
Proof. rewrite kle_iff. intros Hab [Hbc | <-]; [by etrans|done]. Qed.

Lemma kle_klt_trans (a b c : K) : kle a b -> klt b c -> klt a c.
Proof. rewrite kle_iff. intros [Hab | <-] Hbc; [by etrans|done]. Qed.

#[global] Instance kle_preorder : PreOrder (@kle K _).
Proof.
  split; [intros a; apply kle_refl|].
  intros a b c. rewrite !kle_iff. intros [?|<-] [?|<-]; eauto. left. by etrans.
Qed.

#[global] Instance kle_antisymm : AntiSymm (=) (@kle K _).
Proof.
  intros a b. rewrite !kle_iff. intros [?|<-] [?|?]; auto.
  exfalso. eapply klt_irrefl. by etrans.
Qed.

#[global] Instance kle_total : Total (@kle K _).
Proof. intros a b. rewrite !kle_iff. destruct (klt_cases a b) as [?|[?|?]]; auto. Qed.

Lemma ltb_klt (a b : K) : ltb a b = true <-> klt a b.
Proof. unfold ltb, klt. destruct (cmp a b); naive_solver. Qed.

Lemma leb_kle (a b : K) : leb a b = true <-> kle a b.
Proof. unfold leb, kle. destruct (cmp a b); naive_solver. Qed.

Lemma ltb_false (a b : K) : ltb a b = false <-> kle b a.
Proof. rewrite <- not_true_iff_false, ltb_klt. apply not_klt. Qed.

Lemma leb_false (a b : K) : leb a b = false <-> klt b a.
Proof. rewrite <- not_true_iff_false, leb_kle. apply not_kle. Qed.

#[global] Instance klt_dec (a b : K) : Decision (klt a b) := comparison_eq_dec _ _.

#[global] Instance kle_dec (a b : K) : Decision (kle a b).
Proof. unfold kle. destruct (cmp a b); [left|left|right]; naive_solver. Defined.
End Order.

(** * Orders of the key types *)

#[global] Instance Z_ordered : Ordered Z := Z.compare.
#[global] Instance Z_ordered_laws : OrderedLaws Z.
Proof.
  split; unfold cmp, Z_ordered; intros.
  - apply Z.compare_eq_iff.
  - apply Z.compare_antisym.
  - rewrite Z.compare_lt_iff in *. lia.
Qed.

#[global] Instance byte_ordered : Ordered byte := fun a b => Z.compare (u8 a) (u8 b).
#[global] Instance byte_ordered_laws : OrderedLaws byte.
Proof.
  split; unfold cmp, byte_ordered; intros.
  - rewrite Z.compare_eq_iff. split; [apply (inj u8)|by intros ->].
  - apply Z.compare_antisym.
  - rewrite Z.compare_lt_iff in *. lia.
Qed.

(** Slices compare lexicographically, a proper prefix first. *)
Fixpoint list_cmp {A} `{Ordered A} (l1 l2 : list A) : comparison :=
  match l1, l2 with
  | [], [] => Eq
  | [], _ :: _ => Lt
  | _ :: _, [] => Gt
  | a :: l1', b :: l2' =>
      match cmp a b with Eq => list_cmp l1' l2' | c => c end
  end.
#[global] Instance list_ordered {A} `{Ordered A} : Ordered (list A) := list_cmp.

#[global] Instance list_ordered_laws {A} `{OrderedLaws A} : OrderedLaws (list A).
Proof.
  split; unfold cmp at 1, list_ordered.
  - induction a as [|x a IH]; intros [|y b]; simpl; try naive_solver.
    destruct (cmp x y) eqn:E.
    + apply cmp_eq in E as ->. rewrite IH. naive_solver.
    + split; [done|]. intros [= -> ->]. by rewrite cmp_refl in E.
    + split; [done|]. intros [= -> ->]. by rewrite cmp_refl in E.
  - unfold cmp, list_ordered.
    induction a as [|x a IH]; intros [|y b]; simpl; try naive_solver.
    rewrite (cmp_sym x y), IH. by destruct (cmp x y).
  - unfold cmp, list_ordered.
    induction a as [|x a IH]; intros [|y b] [|z c]; simpl; try naive_solver.
    destruct (cmp x y) eqn:E1, (cmp y z) eqn:E2; try done.
    + apply cmp_eq in E1 as ->. rewrite E2. apply IH.
    + apply cmp_eq in E1 as ->. by rewrite E2.
    + apply cmp_eq in E2 as ->. by rewrite E1.
    + by rewrite (cmp_lt_trans _ _ _ E1 E2).
Qed.

#[global] Instance prod_ordered {A B} `{Ordered A, Ordered B} : Ordered (A * B) :=
  fun p q => match cmp p.1 q.1 with Eq => cmp p.2 q.2 | c => c end.

#[global] Instance prod_ordered_laws {A B} `{OrderedLaws A, OrderedLaws B} :
  OrderedLaws (A * B).
Proof.
  split; unfold cmp, prod_ordered.
  - intros [a1 b1] [a2 b2]; simpl. destruct (cmp a1 a2) eqn:E.
    + apply cmp_eq in E as ->. rewrite cmp_eq. naive_solver.
    + split; [done|]. intros [= -> ->]. by rewrite cmp_refl in E.
    + split; [done|]. intros [= -> ->]. by rewrite cmp_refl in E.
  - intros [a1 b1] [a2 b2]; simpl. rewrite (cmp_sym a1 a2), (cmp_sym b1 b2).
    by destruct (cmp a1 a2).
  - intros [a1 b1] [a2 b2] [a3 b3]; simpl.
    destruct (cmp a1 a2) eqn:E1, (cmp a2 a3) eqn:E2; try done.
    + apply cmp_eq in E1 as ->. rewrite E2. apply cmp_lt_trans.
    + apply cmp_eq in E1 as ->. by rewrite E2.
    + apply cmp_eq in E2 as ->. by rewrite E1.
    + by rewrite (cmp_lt_trans _ _ _ E1 E2).
Qed.

(** Keys ordered through an injection, as derived [Ord]s are. *)
Definition cmp_via {A B} `{Ordered B} (f : A -> B) (a1 a2 : A) : comparison := cmp (f a1) (f a2).

Lemma cmp_via_laws {A B} `{OrderedLaws B} (f : A -> B) `{!Inj (=) (=) f} :
  @OrderedLaws A (cmp_via f).
Proof.
  split; unfold cmp, cmp_via; intros *.
  - change (cmp (f a) (f b) = Eq <-> a = b). rewrite cmp_eq. split; [apply (inj f)|by intros ->].
  - apply cmp_sym.
  - apply cmp_lt_trans.
Qed.

(** * Iteration order of a [BTreeMap] *)

(** Order two rows by key. *)
Definition row_le {K V} `{Ordered K} (x y : K * V) : Prop := kle x.1 y.1.

#[global] Instance row_le_dec {K V} `{OrderedLaws K} (x y : K * V) : Decision (row_le x y) :=
  kle_dec _ _.

(** [BTreeMap::iter]: the rows in ascending key order. *)
Definition entries {K V} `{OrderedLaws K, EqDecision K, !Countable K}
    (m : gmap K V) : list (K * V) :=
  merge_sort row_le (map_to_list m).

(** [std::ops::Bound] *)
Inductive Bound (A : Type) : Type :=
  | Included (a : A)
  | Excluded (a : A)
  | Unbounded.
Arguments Included {A} _.
Arguments Excluded {A} _.
Arguments Unbounded {A}.

#[global] Instance Bound_eq_dec {A} `{EqDecision A} : EqDecision (Bound A).
Proof. solve_decision. Defined.

(** A key against a lower and an upper bound. *)
Definition above {K} `{Ordered K} (lo : Bound K) (k : K) : bool :=
  match lo with Included a => leb a k | Excluded a => ltb a k | Unbounded => true end.
Definition below {K} `{Ordered K} (hi : Bound K) (k : K) : bool :=
  match hi with Included a => leb k a | Excluded a => ltb k a | Unbounded => true end.

(** The rows [BTreeMap::range] iterates over, in order. *)
Definition range {K V} `{OrderedLaws K, EqDecision K, !Countable K}
    (lo hi : Bound K) (m : gmap K V) : list (K * V) :=
  filter (fun kv => above lo kv.1 && below hi kv.1 = true) (entries m).

Section Entries.
Context {K V : Type} `{OrderedLaws K, EqDecision K, !Countable K}.
Implicit Types m : gmap K V.

#[local] Instance row_le_preorder : PreOrder (@row_le K V _).
Proof. split; [intros x; unfold row_le; reflexivity|intros x y z; unfold row_le; apply transitivity]. Qed.
#[local] Instance row_le_total : Total (@row_le K V _).
Proof. intros x y. unfold row_le. apply kle_total. Qed.

Lemma entries_perm m : entries m ≡ₚ map_to_list m.
Proof. apply merge_sort_Permutation. Qed.

Lemma elem_of_entries m k v : (k, v) ∈ entries m <-> m !! k = Some v.
Proof. rewrite entries_perm. apply elem_of_map_to_list. Qed.

Lemma NoDup_fst_entries m : NoDup (entries m).*1.
Proof. rewrite entries_perm. apply NoDup_fst_map_to_list. Qed.

Lemma list_to_map_entries m : list_to_map (entries m) = m.
Proof.
  rewrite <- (list_to_map_to_list m) at 2. apply list_to_map_proper; [|apply entries_perm].
  apply NoDup_fst_entries.
Qed.

Lemma sorted_rows_cons (x : K * V) (l : list (K * V)) :
  StronglySorted klt (x :: l).*1 <->
  StronglySorted klt l.*1 /\ Forall (fun y => klt x.1 y.1) l.
Proof. rewrite fmap_cons, StronglySorted_cons, Forall_fmap. naive_solver. Qed.

Lemma StronglySorted_strict (l : list (K * V)) :
  StronglySorted row_le l -> NoDup l.*1 -> StronglySorted klt l.*1.
Proof.
  induction 1 as [|x l Hs IH Hx]; simpl; [constructor|].
  intros [Hnin Hnd]%NoDup_cons. constructor; [auto|].
  apply Forall_fmap. rewrite Forall_forall in Hx |- *. intros y Hy. simpl.
  pose proof (Hx y Hy) as Hle. apply kle_iff in Hle as [?|Heq]; [done|].
  exfalso. apply Hnin. rewrite Heq. apply list_elem_of_fmap. by exists y.
Qed.

Lemma entries_sorted m : StronglySorted klt (entries m).*1.
Proof.
  apply StronglySorted_strict; [|apply NoDup_fst_entries].
  apply StronglySorted_merge_sort; apply _.
Qed.

Lemma StronglySorted_klt_NoDup (l : list K) : StronglySorted klt l -> NoDup l.
Proof.
  induction 1 as [|x l Hs IH Hx]; constructor; [|done].
  intros Hin. rewrite Forall_forall in Hx. by eapply klt_irrefl, Hx.
Qed.

(** Strictly sorted row lists with the same rows are equal. *)
Lemma sorted_rows_unique (l1 l2 : list (K * V)) :
  StronglySorted klt l1.*1 -> StronglySorted klt l2.*1 ->
  (forall k v, (k, v) ∈ l1 <-> (k, v) ∈ l2) -> l1 = l2.
Proof.
  intros H1 H2 Hin.
  assert (forall l, StronglySorted klt l.*1 -> StronglySorted (fun x y : K * V => klt x.1 y.1) l) as Hss.
  { clear. induction l as [|x l IH]; intros Hs; [constructor|].
    apply sorted_rows_cons in Hs as [Hs Hx]. constructor; auto. }
  eapply (StronglySorted_unique_strong (fun x y : K * V => klt x.1 y.1)); [|by apply Hss..|].
  - intros x1 x2 _ _ ? ?. exfalso. eapply klt_irrefl. by etrans.
  - apply NoDup_Permutation.
    + eapply NoDup_fmap_1, StronglySorted_klt_NoDup, H1.
    + eapply NoDup_fmap_1, StronglySorted_klt_NoDup, H2.
    + intros [k v]. apply Hin.
Qed.

Lemma entries_list_to_map (l : list (K * V)) :
  StronglySorted klt l.*1 -> entries (list_to_map l : gmap K V) = l.
Proof.
  intros Hl. apply sorted_rows_unique; [apply entries_sorted|done|].
  intros k v. rewrite elem_of_entries, <- elem_of_list_to_map; [done|].
  by apply StronglySorted_klt_NoDup.
Qed.

Lemma entries_empty : entries (∅ : gmap K V) = [].
Proof. unfold entries. by rewrite map_to_list_empty. Qed.

Lemma entries_nil_inv m : entries m = [] <-> m = ∅.
Proof.
  split; [|intros ->; apply entries_empty]. intros Hm.
  trans (list_to_map (entries m) : gmap K V); [by rewrite list_to_map_entries|by rewrite Hm].
Qed.

Lemma filter_rows_sorted (P : K * V -> Prop) `{!forall x, Decision (P x)} (l : list (K * V)) :
  StronglySorted klt l.*1 -> StronglySorted klt (filter P l).*1.
Proof.
  induction l as [|x l IH]; [done|]. intros Hs.
  apply sorted_rows_cons in Hs as [Hs Hx]. rewrite filter_cons. case_decide; [|auto].
  apply sorted_rows_cons. split; [auto|]. rewrite Forall_forall in Hx |- *.
  intros y [_ Hy]%list_elem_of_filter. by apply Hx.
Qed.

Lemma elem_of_range lo hi m k v :
  (k, v) ∈ range lo hi m <->
  m !! k = Some v /\ above lo k = true /\ below hi k = true.
Proof.
  unfold range. rewrite list_elem_of_filter, elem_of_entries. simpl.
  rewrite andb_true_iff. naive_solver.
Qed.

Lemma range_sorted lo hi m : StronglySorted klt (range lo hi m).*1.
Proof. apply filter_rows_sorted, entries_sorted. Qed.

(** First row of a sorted list: the least key. *)
Lemma sorted_head (l : list (K * V)) k v :
  StronglySorted klt l.*1 -> head l = Some (k, v) ->
  (k, v) ∈ l /\ forall k' v', (k', v') ∈ l -> kle k k'.
Proof.
  destruct l as [|[k0 v0] l]; [done|]. intros Hs [= -> ->].
  split; [left|]. intros k' v' [[= -> ->]|Hin]%elem_of_cons; [reflexivity|].
  apply sorted_rows_cons in Hs as [_ Hx]. rewrite Forall_forall in Hx.
  apply klt_kle. by apply (Hx (k', v')).
Qed.

(** Last row of a sorted list: the greatest key. *)
Lemma sorted_last (l : list (K * V)) k v :
  StronglySorted klt l.*1 -> last l = Some (k, v) ->
  (k, v) ∈ l /\ forall k' v', (k', v') ∈ l -> kle k' k.
Proof.
  intros Hs Hl. apply last_Some in Hl as [l' ->].
  split; [set_solver|]. intros k' v' Hin. rewrite fmap_app in Hs.
  apply elem_of_app in Hin as [Hin|Hin]; [|set_unfold; naive_solver].
  apply klt_kle. eapply (StronglySorted_app_1_elem_of _ _ _ _ _ Hs); [|set_solver].
  apply list_elem_of_fmap. by exists (k', v').
Qed.
End Entries.

(** * Batch normalisation: stable sort by key, last operation wins *)

(** Stable insertion: before the first row whose key is not smaller. *)
Fixpoint insert_row {K V} `{Ordered K} (x : K * V) (l : list (K * V)) : list (K * V) :=
  match l with
  | [] => [x]
  | y :: l' => if leb x.1 y.1 then x :: l else y :: insert_row x l'
  end.

(** [slice::sort_by] on the keys. *)
Definition sort_rows {K V} `{Ordered K} (l : list (K * V)) : list (K * V) :=
  foldr insert_row [] l.

(** [Vec::dedup_by] with the closure that moves the later value into the kept
    row: [cur] is the row kept so far. *)
Fixpoint dedup_from {K V} `{EqDecision K} (cur : K * V) (l : list (K * V)) : list (K * V) :=
  match l with
  | [] => [cur]
  | y :: l' =>
      if decide (y.1 = cur.1) then dedup_from (cur.1, y.2) l' else cur :: dedup_from y l'
  end.

Definition dedup_rows {K V} `{EqDecision K} (l : list (K * V)) : list (K * V) :=
  match l with [] => [] | x :: l' => dedup_from x l' end.

Definition normalize {K V} `{Ordered K, EqDecision K} (l : list (K * V)) : list (K * V) :=
  dedup_rows (sort_rows l).

(** The map a batch denotes: each operation in turn, so that the last one on a
    key wins. *)
Definition batch_map {K V} `{EqDecision K, !Countable K} (l : list (K * V)) : gmap K V :=
  foldl (fun m kv => <[kv.1 := kv.2]> m) ∅ l.

Section Normalize.
Context {K V : Type} `{OrderedLaws K, EqDecision K, !Countable K}.
Implicit Types l : list (K * V).

(** The last value written for a key. *)
Definition last_write (k : K) l : option V :=
  last (snd <$> filter (fun kv => kv.1 = k) l).

Lemma last_write_cons k x l :
  last_write k (x :: l) =
  match last_write k l with
  | Some v => Some v
  | None => if decide (x.1 = k) then Some x.2 else None
  end.
Proof.
  unfold last_write. rewrite filter_cons. case_decide as Hx; [|by case_match].
  rewrite fmap_cons, last_cons. by destruct (last _).
Qed.

Lemma batch_map_lookup l k : batch_map l !! k = last_write k l.
Proof.
  unfold batch_map.
  enough (forall m, foldl (fun m kv => <[kv.1 := kv.2]> m) m l !! k =
    match last_write k l with Some v => Some v | None => (m : gmap K V) !! k end) as ->.
  { rewrite lookup_empty. by destruct (last_write k l). }
  induction l as [|x l IH]; intros m; [done|].
  simpl. rewrite IH, last_write_cons.
  destruct (last_write k l); [done|]. rewrite lookup_insert. by case_decide.
Qed.

Lemma insert_row_last_write k x l :
  last_write k (insert_row x l) = last_write k (x :: l).
Proof.
  induction l as [|y l IH]; simpl; [done|]. destruct (leb x.1 y.1) eqn:E; [done|].
  rewrite !last_write_cons, IH, !last_write_cons.
  destruct (last_write k l); [done|].
  destruct (decide (x.1 = k)) as [Hx|], (decide (y.1 = k)) as [Hy|]; try done.
  exfalso. rewrite Hx, Hy in E. apply leb_false in E. by eapply klt_irrefl.
Qed.

Lemma sort_rows_last_write k l : last_write k (sort_rows l) = last_write k l.
Proof.
  induction l as [|x l IH]; [done|]. simpl.
  by rewrite insert_row_last_write, !last_write_cons, IH.
Qed.

Lemma insert_row_sorted x l : StronglySorted row_le l -> StronglySorted row_le (insert_row x l).
Proof.
  induction 1 as [|y l Hs IH Hy]; simpl; [repeat constructor|].
  destruct (leb x.1 y.1) eqn:E.
  - apply leb_kle in E. constructor; [by constructor|]. constructor; [done|].
    eapply Forall_impl; [exact Hy|]. intros z. unfold row_le. intros ?. by etrans.
  - apply leb_false, klt_kle in E. constructor; [done|].
    clear -Hy E. induction l as [|z l IH]; simpl; [repeat constructor; done|].
    apply Forall_cons in Hy as [? ?]. destruct (leb x.1 z.1); repeat constructor; auto.
Qed.

Lemma sort_rows_sorted l : StronglySorted row_le (sort_rows l).
Proof. induction l; simpl; [constructor|]. by apply insert_row_sorted. Qed.

Lemma sort_rows_perm l : sort_rows l ≡ₚ l.
Proof.
  induction l as [|x l IH]; [done|]. cbn [sort_rows foldr]. fold (sort_rows l). rewrite <- IH at 2. clear IH.
  induction (sort_rows l) as [|y l' IH]; [done|]. cbn [insert_row]. destruct (leb x.1 y.1); [done|].
  rewrite IH. apply Permutation_swap.
Qed.

(** Sorting rows with distinct keys orders them strictly. *)
Lemma sort_rows_strict l : NoDup l.*1 -> StronglySorted klt (sort_rows l).*1.
Proof. intros Hl. apply StronglySorted_strict; [apply sort_rows_sorted|]. by rewrite sort_rows_perm. Qed.

Lemma dedup_from_keys x l k :
  k ∈ (dedup_from x l).*1 -> k = x.1 \/ k ∈ l.*1.
Proof.
  revert x. induction l as [|y l IH]; intros x; simpl; [set_solver|].
  case_decide as E; [intros ?%IH; set_solver|].
  rewrite fmap_cons, elem_of_cons. intros [?|?%IH]; set_solver.
Qed.

Lemma dedup_from_spec x l :
  StronglySorted row_le (x :: l) ->
  StronglySorted klt (dedup_from x l).*1 /\ (forall k, last_write k (dedup_from x l) = last_write k (x :: l)).
Proof.
  revert x. induction l as [|y l IH]; intros x Hs; simpl.
  { split; [repeat constructor|done]. }
  apply StronglySorted_inv in Hs as [Hs Hx]. case_decide as E.
  - destruct (IH (x.1, y.2)) as [Hs' Hw].
    { destruct y as [ky vy]. simpl in *. subst ky.
      apply StronglySorted_inv in Hs as [? ?]. by constructor. }
    split; [done|]. intros k. rewrite Hw, !last_write_cons. simpl. rewrite E.
    destruct (last_write k l); [done|]. by case_decide.
  - destruct (IH y Hs) as [Hs' Hw]. split.
    + rewrite fmap_cons. constructor; [done|]. rewrite Forall_forall.
      intros k Hk%dedup_from_keys. apply Forall_cons in Hx as [Hxy Hxl].
      assert (klt x.1 y.1) as Hlt.
      { apply kle_iff in Hxy as [?|?]; [done|]. congruence. }
      destruct Hk as [->|Hk]; [done|].
      apply list_elem_of_fmap in Hk as (z & -> & Hz).
      apply StronglySorted_inv in Hs as [_ Hy]. rewrite Forall_forall in Hy.
      eapply klt_kle_trans; [exact Hlt|]. by apply Hy.
    + intros k. rewrite last_write_cons, Hw, (last_write_cons k x). done.
Qed.

Lemma sorted_elem_last_write l k v :
  NoDup l.*1 -> (k, v) ∈ l <-> last_write k l = Some v.
Proof.
  induction l as [|[k' v'] l IH].
  { intros _. unfold last_write. simpl. split; [intros []%not_elem_of_nil|done]. }
  rewrite fmap_cons. intros [Hn Hd]%NoDup_cons.
  rewrite last_write_cons, elem_of_cons, (IH Hd). simpl.
  destruct (last_write k l) as [w|] eqn:E; [|case_decide; naive_solver].
  assert (k ∈ l.*1).
  { unfold last_write in E. apply last_Some_elem_of in E.
    apply list_elem_of_fmap in E as ([k1 v1] & _ & [? ?]%list_elem_of_filter).
    simpl in *. subst. apply list_elem_of_fmap. by exists (k, v1). }
  naive_solver.
Qed.

Lemma last_write_app k l1 l2 :
  last_write k (l1 ++ l2) = match last_write k l2 with Some v => Some v | None => last_write k l1 end.
Proof.
  induction l1 as [|x l1 IH]; cbn [app]; [by destruct (last_write k l2)|]. rewrite !last_write_cons, IH.
  by destruct (last_write k l2).
Qed.

Lemma last_write_elem l p o : last_write p l = Some o -> (p, o) ∈ l.
Proof.
  unfold last_write. intros Hl. apply last_Some_elem_of in Hl.
  apply list_elem_of_fmap in Hl as ([p' o'] & -> & [Hp Hin]%list_elem_of_filter). cbn in *. by subst.
Qed.

Lemma last_write_none l p : last_write p l = None -> p ∉ l.*1.
Proof.
  unfold last_write. intros Hl Hin. apply list_elem_of_fmap in Hin as ([p' o] & -> & Hin). cbn in *.
  apply last_None, fmap_nil_inv in Hl.
  assert ((p', o) ∈ filter (fun kv : K * V => kv.1 = p') l) as Hf by (by apply list_elem_of_filter).
  rewrite Hl in Hf. by apply not_elem_of_nil in Hf.
Qed.

Lemma last_write_unique l p o : (p, o) ∈ l -> (forall o', (p, o') ∈ l -> o' = o) ->
  last_write p l = Some o.
Proof.
  intros Hin Hu. destruct (last_write p l) as [o'|] eqn:E; [by f_equal; apply Hu, last_write_elem|].
  apply last_write_none in E. destruct E. apply list_elem_of_fmap. by exists (p, o).
Qed.

(** Normalising a batch lists, in key order, exactly the map it denotes. *)
Lemma last_write_entries (m : gmap K V) k : last_write k (entries m) = m !! k.
Proof.
  apply option_eq. intros v. rewrite <- sorted_elem_last_write by apply NoDup_fst_entries. by rewrite elem_of_entries.
Qed.

Lemma normalize_entries l : normalize l = entries (batch_map l).
Proof.
  unfold normalize, dedup_rows. pose proof (sort_rows_sorted l) as Hs.
  pose proof (fun k => sort_rows_last_write k l) as Hw.
  destruct (sort_rows l) as [|x l'].
  - replace (batch_map l) with (∅ : gmap K V); [by rewrite entries_empty|].
    apply map_eq. intros k. rewrite batch_map_lookup, <- Hw. done.
  - destruct (dedup_from_spec x l' Hs) as [Hs' Hw'].
    apply sorted_rows_unique; [done|apply entries_sorted|].
    intros k v. rewrite elem_of_entries, batch_map_lookup, <- Hw, <- Hw'.
    by apply sorted_elem_last_write, StronglySorted_klt_NoDup.
Qed.
End Normalize.

(** Fixed-width big-endian integers sort as their values do. *)
Lemma be_cmp (l1 l2 : bytes) :
  length l1 = length l2 -> cmp l1 l2 = Z.compare (be_decode l1) (be_decode l2).
Proof.
  revert l2. induction l1 as [|a l1 IH]; intros [|b l2] Hl; try done.
  simpl in Hl. injection Hl as Hl. rewrite !be_decode_cons, <- Hl.
  pose proof (be_decode_range l1) as H1. pose proof (be_decode_range l2) as H2. rewrite <- Hl in H2.
  unfold cmp, list_ordered. simpl. unfold cmp at 1, byte_ordered.
  destruct (Z.compare_spec (u8 a) (u8 b)) as [E|E|E].
  - rewrite E. change (list_cmp l1 l2) with (cmp l1 l2). rewrite IH by done.
    symmetry. apply Z.add_compare_mono_l.
  - symmetry. apply Z.compare_lt_iff. nia.
  - symmetry. apply Z.compare_gt_iff. nia.
Qed.

(** A common prefix does not change the order. *)
Lemma cmp_app_l {A} `{OrderedLaws A} (p l1 l2 : list A) : cmp (p ++ l1) (p ++ l2) = cmp l1 l2.
Proof. induction p as [|a p IH]; [done|]. unfold cmp, list_ordered in *. simpl. by rewrite cmp_refl. Qed.
