(* ===== verification/Storage.v ===== *)
(** Transactional byte-ordered storage: crates/storage.

    [ReadTransaction] and [WriteTransaction] are the crate's traits as classes;
    [ReadLaws] and [WriteLaws] state what a backend promises to its clients,
    against an abstract [view] of a transaction (a map of rows for each table).
    The in-memory backend ([MemoryTx], [MemoryCursor], [MemoryStore]) is
    translated from memory.rs and shown to satisfy both; the layers above are
    proved against the classes only. *)
From Stdlib Require Import ZArith Lia.
From S2P Require Import Prelude Ordered.

#[local] Open Scope Z_scope.

(** * Tables, errors, rows *)

(** [Table(&'static str)] *)
Abbreviation Table := string.

Inductive StorageError : Type :=
  | AlreadyExists
  | Full
  | InvalidTableName (table : Table)
  | InvalidRange
  | KeyTooLarge (actual max : nat)
  | ValueTooLarge (actual max : nat)
  | Poisoned (lock : string)
  | Backend (source : string).

#[global] Instance StorageError_eq_dec : EqDecision StorageError.
Proof. solve_decision. Defined.

Abbreviation Entry := (bytes * bytes)%type.
Abbreviation Rows := (gmap bytes bytes).

(** [str::contains('\0')] *)
Fixpoint contains_nul (s : string) : bool :=
  match s with
  | EmptyString => false
  | String c s' => bool_decide (c = Ascii.zero) || contains_nul s'
  end.

(** [Table::validate] *)
Definition Table_validate (table : Table) : res StorageError unit :=
  if bool_decide (table = EmptyString) || contains_nul table
  then Err (InvalidTableName table)
  else Ok ().

(** A table name the shared contract accepts. *)
Definition table_ok (table : Table) : Prop := Table_validate table = Ok ().

(** * Cursors, abstractly *)

(** Where a cursor stands: at its starting key, on a row it returned, or past
    one end. *)
Inductive Position : Type :=
  | Key (k : bytes)
  | Before
  | At (k : bytes)
  | After.

(** The row a forward move returns. *)
Definition next_row (rows : Rows) (p : Position) : option Entry :=
  match p with
  | Before => head (entries rows)
  | Key k => head (range (Included k) Unbounded rows)
  | At k => head (range (Excluded k) Unbounded rows)
  | After => None
  end.

(** The row a backward move returns. *)
Definition prev_row (rows : Rows) (p : Position) : option Entry :=
  match p with
  | After => last (entries rows)
  | Key k => last (range Unbounded (Included k) rows)
  | At k => last (range Unbounded (Excluded k) rows)
  | Before => None
  end.

(** [MemoryCursor::position]: where a move that returned [row] ends. *)
Definition moved_to (row : option Entry) (end_ : Position) : Position :=
  match row with Some (k, _) => At k | None => end_ end.

(** * The traits *)

Class ReadTransaction (T : Type) : Type := {
  Cursor : Type;
  tx_get : T -> Table -> bytes -> res StorageError (option bytes);
  tx_cursor : T -> Table -> bytes -> res StorageError Cursor;
  cur_next : stres Cursor StorageError (option Entry);
  cur_prev : stres Cursor StorageError (option Entry)
}.
Arguments Cursor T {_}.

Class WriteTransaction (T : Type) `{ReadTransaction T} : Type := {
  tx_is_empty : T -> res StorageError bool;
  tx_put : Table -> bytes -> bytes -> stres T StorageError unit;
  tx_insert : Table -> bytes -> bytes -> stres T StorageError unit;
  tx_delete : Table -> bytes -> stres T StorageError bool
}.

(** Rows of every table; an absent table reads as an empty one. *)
Abbreviation View := (Table -> Rows).

Definition upd_view (f : View) (table : Table) (rows : Rows) : View :=
  fun table' => if decide (table' = table) then rows else f table'.

(** What a readable transaction promises. [cursor_at c rows p] says that the
    cursor [c] stands at [p] over [rows]. *)
Class ReadLaws (T : Type) `{ReadTransaction T} : Type := {
  view : T -> View;
  cursor_at : Cursor T -> Rows -> Position -> Prop;
  get_spec t table k : table_ok table -> tx_get t table k = Ok (view t table !! k);
  cursor_spec t table k : table_ok table ->
    exists c, tx_cursor t table k = Ok c /\ cursor_at c (view t table) (Key k);
  next_spec c rows p : cursor_at c rows p ->
    exists c', cur_next c = (Ok (next_row rows p), c') /\
      cursor_at c' rows (moved_to (next_row rows p) After);
  prev_spec c rows p : cursor_at c rows p ->
    exists c', cur_prev c = (Ok (prev_row rows p), c') /\
      cursor_at c' rows (moved_to (prev_row rows p) Before)
}.

(** What a writable transaction promises: its own view changes as a map does,
    other tables are untouched, and a refused insertion changes nothing. *)
Class WriteLaws (T : Type) `{WriteTransaction T, !ReadLaws T} : Prop := {
  put_spec t table k v : table_ok table ->
    exists t', tx_put table k v t = (Ok (), t') /\
      forall tb, view t' tb = upd_view (view t) table (<[k := v]> (view t table)) tb;
  insert_spec t table k v : table_ok table ->
    exists t', tx_insert table k v t =
        (match view t table !! k with Some _ => Err AlreadyExists | None => Ok () end, t') /\
      forall tb, view t' tb =
        upd_view (view t) table
          (match view t table !! k with Some _ => view t table | None => <[k := v]> (view t table) end) tb;
  delete_spec t table k : table_ok table ->
    exists t', tx_delete table k t = (Ok (bool_decide (is_Some (view t table !! k))), t') /\
      forall tb, view t' tb = upd_view (view t) table (delete k (view t table)) tb
}.

(** The [Store] trait: snapshots, one writer at a time, and publication. A
    transaction dropped without a commit is aborted. *)
Class Store (S T : Type) : Type := {
  begin_read : S -> res StorageError T;
  begin_write : stres S StorageError T;
  tx_commit : T -> stres S StorageError unit;
  tx_abort : T -> S -> S
}.

(** [StoreStats], and [stats] of a backend without physical storage *)
Record StoreStats := { db_size : Z; session_bytes_written : Z; session_syncs : Z }.
Definition default_stats : res StorageError (option StoreStats) := Ok None.

(** What a store promises: a transaction starts from the published rows, only a
    successful commit publishes, and it publishes the writer's rows. *)
Class StoreLaws (S T : Type) `{Store S T, ReadLaws T} : Type := {
  published : S -> View;
  begin_read_spec s t : begin_read s = Ok t -> forall tb, view t tb = published s tb;
  begin_write_spec s r s' : begin_write s = (r, s') ->
    (forall t, r = Ok t -> forall tb, view t tb = published s tb) /\ (forall tb, published s' tb = published s tb);
  commit_spec s t r s' : tx_commit t s = (r, s') ->
    forall tb, published s' tb = match r with Ok _ => view t tb | _ => published s tb end;
  abort_spec s t tb : published (tx_abort t s) tb = published s tb
}.

(** * The in-memory backend: memory.rs *)

(** [State = BTreeMap<Table, Rows>] *)
Abbreviation State := (gmap Table Rows).

(** [MemoryReadTransaction] and [MemoryWriteTransaction] hold a state: the
    reader a shared snapshot, the writer its private copy. *)
Record MemoryTx := { mt_state : State }.

(** [rows] *)
Definition mem_rows (state : State) (table : Table) : res StorageError (option Rows) :=
  _ ← Table_validate table;
  Ok (state !! table).

Record MemoryCursor := { mc_rows : option Rows; mc_position : Position }.

Definition MemoryCursor_new (rows : option Rows) (key : bytes) : MemoryCursor :=
  {| mc_rows := rows; mc_position := Key key |}.

(** [MemoryCursor::position] *)
Definition MemoryCursor_position (row : option Entry) (end_ : Position) (c : MemoryCursor)
    : option Entry * MemoryCursor :=
  match row with
  | Some (key, value) => (Some (key, value), {| mc_rows := mc_rows c; mc_position := At key |})
  | None => (None, {| mc_rows := mc_rows c; mc_position := end_ |})
  end.

Definition MemoryCursor_next : stres MemoryCursor StorageError (option Entry) := fun c =>
  match mc_rows c with
  | None => (Ok None, c)
  | Some rows =>
      let row :=
        match mc_position c with
        | Before => head (entries rows)
        | Key key => head (range (Included key) Unbounded rows)
        | At key => head (range (Excluded key) Unbounded rows)
        | After => None
        end in
      let '(r, c') := MemoryCursor_position row After c in (Ok r, c')
  end.

Definition MemoryCursor_prev : stres MemoryCursor StorageError (option Entry) := fun c =>
  match mc_rows c with
  | None => (Ok None, c)
  | Some rows =>
      let row :=
        match mc_position c with
        | After => last (entries rows)
        | Key key => last (range Unbounded (Included key) rows)
        | At key => last (range Unbounded (Excluded key) rows)
        | Before => None
        end in
      let '(r, c') := MemoryCursor_position row Before c in (Ok r, c')
  end.

Definition MemoryTx_get (tx : MemoryTx) (table : Table) (key : bytes)
    : res StorageError (option bytes) :=
  rows ← mem_rows (mt_state tx) table;
  Ok (rows ≫= fun rows => rows !! key).

Definition MemoryTx_cursor (tx : MemoryTx) (table : Table) (key : bytes)
    : res StorageError MemoryCursor :=
  rows ← mem_rows (mt_state tx) table;
  Ok (MemoryCursor_new rows key).

Definition MemoryTx_is_empty (tx : MemoryTx) : res StorageError bool :=
  Ok (bool_decide (mt_state tx = ∅)).

(** [self.state.entry(table).or_default()] *)
Definition table_or_default (state : State) (table : Table) : Rows := default ∅ (state !! table).

Definition MemoryTx_put (table : Table) (key value : bytes) : stres MemoryTx StorageError unit :=
  fun tx =>
  match Table_validate table with
  | Ok _ =>
      let rows := <[key := value]> (table_or_default (mt_state tx) table) in
      (Ok (), {| mt_state := <[table := rows]> (mt_state tx) |})
  | Err e => (Err e, tx)
  | Panic => (Panic, tx)
  | Diverge => (Diverge, tx)
  end.

(** The table entry is created before the row's entry is inspected. *)
Definition MemoryTx_insert (table : Table) (key value : bytes) : stres MemoryTx StorageError unit :=
  fun tx =>
  match Table_validate table with
  | Ok _ =>
      let rows := table_or_default (mt_state tx) table in
      match rows !! key with
      | Some _ => (Err AlreadyExists, {| mt_state := <[table := rows]> (mt_state tx) |})
      | None => (Ok (), {| mt_state := <[table := <[key := value]> rows]> (mt_state tx) |})
      end
  | Err e => (Err e, tx)
  | Panic => (Panic, tx)
  | Diverge => (Diverge, tx)
  end.

Definition MemoryTx_delete (table : Table) (key : bytes) : stres MemoryTx StorageError bool :=
  fun tx =>
  match Table_validate table with
  | Ok _ =>
      match mt_state tx !! table with
      | None => (Ok false, tx)
      | Some rows =>
          (Ok (bool_decide (is_Some (rows !! key))),
           {| mt_state := <[table := delete key rows]> (mt_state tx) |})
      end
  | Err e => (Err e, tx)
  | Panic => (Panic, tx)
  | Diverge => (Diverge, tx)
  end.

#[global] Instance MemoryTx_read : ReadTransaction MemoryTx := {|
  Cursor := MemoryCursor;
  tx_get := MemoryTx_get;
  tx_cursor := MemoryTx_cursor;
  cur_next := MemoryCursor_next;
  cur_prev := MemoryCursor_prev
|}.

#[global] Instance MemoryTx_write : WriteTransaction MemoryTx := {|
  tx_is_empty := MemoryTx_is_empty;
  tx_put := MemoryTx_put;
  tx_insert := MemoryTx_insert;
  tx_delete := MemoryTx_delete
|}.

(** ** The store: one published state, one writer at a time *)

(** [Inner]: the published state behind its mutex, and the writer mutex. A
    mutex records whether it is held and whether a holder panicked. *)
Record MemoryStore := {
  committed : State;
  publication_poisoned : bool;
  writer_locked : bool;
  writer_poisoned : bool
}.

Definition MemoryStore_new : MemoryStore :=
  {| committed := ∅; publication_poisoned := false; writer_locked := false; writer_poisoned := false |}.

Definition set_writer_locked (b : bool) (s : MemoryStore) : MemoryStore :=
  {| committed := committed s; publication_poisoned := publication_poisoned s;
     writer_locked := b; writer_poisoned := writer_poisoned s |}.

Definition MemoryStore_begin_read (s : MemoryStore) : res StorageError MemoryTx :=
  if publication_poisoned s then Err (Poisoned "publication")
  else Ok {| mt_state := committed s |}.

(** Waiting for a held writer mutex is [Diverge]: the call does not return
    while the holder keeps it. The snapshot is read after the lock is taken. A
    guard dropped on an error path releases the lock. *)
Definition MemoryStore_begin_write : stres MemoryStore StorageError MemoryTx := fun s =>
  if writer_locked s then (Diverge, s)
  else if writer_poisoned s then (Err (Poisoned "writer"), s)
  else match MemoryStore_begin_read s with
  | Ok snapshot => (Ok snapshot, set_writer_locked true s)
  | Err e => (Err e, s)
  | Panic => (Panic, s)
  | Diverge => (Diverge, s)
  end.

(** [commit] consumes the transaction: publish, then drop the writer guard. *)
Definition MemoryStore_commit (tx : MemoryTx) : stres MemoryStore StorageError unit := fun s =>
  let s := set_writer_locked false s in
  if publication_poisoned s then (Err (Poisoned "publication"), s)
  else (Ok (), {| committed := mt_state tx; publication_poisoned := publication_poisoned s;
                  writer_locked := writer_locked s; writer_poisoned := writer_poisoned s |}).

(** [abort], and dropping an uncommitted writer: only the guard is released. *)
Definition MemoryStore_abort (s : MemoryStore) : MemoryStore := set_writer_locked false s.

(** A panic that unwinds through a live writer drops its guard while panicking. *)
Definition MemoryStore_unwind (s : MemoryStore) : MemoryStore :=
  {| committed := committed s; publication_poisoned := publication_poisoned s;
     writer_locked := false; writer_poisoned := true |}.

(** * The backend keeps its promises *)

Definition mem_view (tx : MemoryTx) : View := fun table => default ∅ (mt_state tx !! table).

(** A cursor over an absent table never moves; it reads as any position over
    no rows. *)
Definition mem_cursor_at (c : MemoryCursor) (rows : Rows) (p : Position) : Prop :=
  match mc_rows c with
  | None => rows = ∅
  | Some rows' => rows' = rows /\ mc_position c = p
  end.

Lemma next_row_empty p : next_row ∅ p = None.
Proof. destruct p; try done; unfold next_row, range; by rewrite entries_empty. Qed.

Lemma prev_row_empty p : prev_row ∅ p = None.
Proof. destruct p; try done; unfold prev_row, range; by rewrite entries_empty. Qed.

Lemma mem_get_spec t table k : table_ok table -> MemoryTx_get t table k = Ok (mem_view t table !! k).
Proof.
  unfold MemoryTx_get, mem_rows, mem_view. intros ->. simpl.
  destruct (mt_state t !! table); done.
Qed.

Lemma mem_cursor_spec t table k : table_ok table ->
  exists c, MemoryTx_cursor t table k = Ok c /\ mem_cursor_at c (mem_view t table) (Key k).
Proof.
  unfold MemoryTx_cursor, mem_rows, mem_view. intros ->. simpl. eexists. split; [done|].
  unfold mem_cursor_at. simpl. by destruct (mt_state t !! table).
Qed.

Lemma mem_next_spec c rows p : mem_cursor_at c rows p ->
  exists c', MemoryCursor_next c = (Ok (next_row rows p), c') /\
    mem_cursor_at c' rows (moved_to (next_row rows p) After).
Proof.
  unfold mem_cursor_at, MemoryCursor_next. destruct (mc_rows c) as [rows'|] eqn:E.
  - intros [-> ->]. unfold next_row.
    destruct p; simpl; try destruct (head _) as [[? ?]|]; simpl; rewrite ?E; eexists; done.
  - intros ->. rewrite next_row_empty. eexists. split; [done|]. by rewrite E.
Qed.

Lemma mem_prev_spec c rows p : mem_cursor_at c rows p ->
  exists c', MemoryCursor_prev c = (Ok (prev_row rows p), c') /\
    mem_cursor_at c' rows (moved_to (prev_row rows p) Before).
Proof.
  unfold mem_cursor_at, MemoryCursor_prev. destruct (mc_rows c) as [rows'|] eqn:E.
  - intros [-> ->]. unfold prev_row.
    destruct p; simpl; try destruct (last _) as [[? ?]|]; simpl; rewrite ?E; eexists; done.
  - intros ->. rewrite prev_row_empty. eexists. split; [done|]. by rewrite E.
Qed.

#[global] Instance MemoryTx_read_laws : ReadLaws MemoryTx := {|
  view := mem_view;
  cursor_at := mem_cursor_at;
  get_spec := mem_get_spec;
  cursor_spec := mem_cursor_spec;
  next_spec := mem_next_spec;
  prev_spec := mem_prev_spec
|}.

Lemma mem_view_insert s table rows tb :
  mem_view {| mt_state := <[table := rows]> s |} tb =
  upd_view (mem_view {| mt_state := s |}) table rows tb.
Proof. unfold mem_view, upd_view. simpl. rewrite lookup_insert. by repeat case_decide; simplify_eq. Qed.

#[global] Instance MemoryTx_write_laws : WriteLaws MemoryTx.
Proof.
  split; intros [s] table k v.
  all: cbn [tx_put tx_insert tx_delete MemoryTx_write view MemoryTx_read_laws].
  all: unfold MemoryTx_put, MemoryTx_insert, MemoryTx_delete.
  - intros ->. eexists. split; [done|]. intros tb. by rewrite mem_view_insert.
  - intros ->. cbn [mt_state].
    change (table_or_default s table) with (mem_view {| mt_state := s |} table).
    destruct (mem_view {| mt_state := s |} table !! k) eqn:E; eexists; (split; [done|]); intros tb.
    all: by rewrite mem_view_insert.
  - rename v into Ht. red in Ht. rewrite Ht.
    destruct (s !! table) as [rows|] eqn:E; simpl.
    + eexists. split; [|intros tb; by rewrite mem_view_insert; unfold mem_view; simpl; rewrite E].
      unfold mem_view. simpl. by rewrite E.
    + eexists. split; [unfold mem_view; simpl; by rewrite E|].
      intros tb. unfold mem_view, upd_view. simpl. case_decide; subst; rewrite ?E; simpl; [|done].
      by rewrite delete_empty.
Qed.

(** The memory store is a store. *)
#[global] Instance Memory_store : Store MemoryStore MemoryTx := {|
  begin_read := MemoryStore_begin_read;
  begin_write := MemoryStore_begin_write;
  tx_commit := MemoryStore_commit;
  tx_abort := fun _ => MemoryStore_abort
|}.

#[global] Instance Memory_store_laws : StoreLaws MemoryStore MemoryTx.
Proof.
  refine {| published := fun s => mem_view {| mt_state := committed s |} |}.
  - intros s t. cbn. unfold MemoryStore_begin_read. destruct (publication_poisoned s); [done|]. by intros [= <-].
  - intros s r s'. cbn. unfold MemoryStore_begin_write, MemoryStore_begin_read.
    destruct (writer_locked s), (writer_poisoned s), (publication_poisoned s); intros [= <- <-]; split; try done; by intros t [= <-].
  - intros s t r s'. cbn. unfold MemoryStore_commit. cbn. destruct (publication_poisoned s); by intros [= <- <-].
  - done.
Defined.

(** * Snapshots and the single writer

    Any number of readers and one writer run against one store. [Sys] is the
    store with the live transactions; [published] is the history of committed
    states, newest first, and [base] the state the live writer copied. *)
Record Sys := {
  sys_store : MemoryStore;
  sys_writer : option MemoryTx;
  sys_base : State;
  sys_readers : list MemoryTx;
  sys_published : list State
}.

Definition Sys_init : Sys :=
  {| sys_store := MemoryStore_new; sys_writer := None; sys_base := ∅; sys_readers := [];
     sys_published := [∅] |}.

(** A mutation of the live writer. *)
Inductive WriteOp : Type :=
  | OpPut (table : Table) (key value : bytes)
  | OpInsert (table : Table) (key value : bytes)
  | OpDelete (table : Table) (key : bytes).

Definition run_op (op : WriteOp) (tx : MemoryTx) : MemoryTx :=
  match op with
  | OpPut tb k v => (MemoryTx_put tb k v tx).2
  | OpInsert tb k v => (MemoryTx_insert tb k v tx).2
  | OpDelete tb k => (MemoryTx_delete tb k tx).2
  end.

Inductive sys_step : Sys -> Sys -> Prop :=
  | step_begin_read s tx :
      MemoryStore_begin_read (sys_store s) = Ok tx ->
      sys_step s {| sys_store := sys_store s; sys_writer := sys_writer s; sys_base := sys_base s;
                    sys_readers := tx :: sys_readers s; sys_published := sys_published s |}
  | step_begin_write s tx store' :
      MemoryStore_begin_write (sys_store s) = (Ok tx, store') ->
      sys_step s {| sys_store := store'; sys_writer := Some tx; sys_base := mt_state tx;
                    sys_readers := sys_readers s; sys_published := sys_published s |}
  | step_write s tx op :
      sys_writer s = Some tx ->
      sys_step s {| sys_store := sys_store s; sys_writer := Some (run_op op tx);
                    sys_base := sys_base s; sys_readers := sys_readers s;
                    sys_published := sys_published s |}
  | step_commit s tx store' :
      sys_writer s = Some tx -> MemoryStore_commit tx (sys_store s) = (Ok (), store') ->
      sys_step s {| sys_store := store'; sys_writer := None; sys_base := sys_base s;
                    sys_readers := sys_readers s;
                    sys_published := mt_state tx :: sys_published s |}
  | step_commit_failed s tx e store' :
      sys_writer s = Some tx -> MemoryStore_commit tx (sys_store s) = (Err e, store') ->
      sys_step s {| sys_store := store'; sys_writer := None; sys_base := sys_base s;
                    sys_readers := sys_readers s; sys_published := sys_published s |}
  | step_abort s tx :
      sys_writer s = Some tx ->
      sys_step s {| sys_store := MemoryStore_abort (sys_store s); sys_writer := None;
                    sys_base := sys_base s; sys_readers := sys_readers s;
                    sys_published := sys_published s |}
  | step_unwind s tx :
      sys_writer s = Some tx ->
      sys_step s {| sys_store := MemoryStore_unwind (sys_store s); sys_writer := None;
                    sys_base := sys_base s; sys_readers := sys_readers s;
                    sys_published := sys_published s |}.

(** The state some sequence of mutations makes of another. *)
Definition run_ops (ops : list WriteOp) (tx : MemoryTx) : MemoryTx := foldl (fun tx op => run_op op tx) tx ops.
Definition derives (older newer : State) : Prop :=
  exists ops, newer = mt_state (run_ops ops {| mt_state := older |}).

(** Newest first, each published state derives from its predecessor alone. *)
Fixpoint serial (l : list State) : Prop :=
  match l with
  | newer :: (older :: _) as l' => derives older newer /\ serial l'
  | _ => True
  end.

(** The writer mutex is held exactly while a writer lives, the live writer's
    state derives from the published one, every reader holds a published state,
    the store's state is the newest published one, and the history is serial. *)
Definition sys_inv (s : Sys) : Prop :=
  (writer_locked (sys_store s) = true <-> is_Some (sys_writer s)) /\
  (forall tx, sys_writer s = Some tx ->
     sys_base s = committed (sys_store s) /\ derives (sys_base s) (mt_state tx)) /\
  Forall (fun r => mt_state r ∈ sys_published s) (sys_readers s) /\
  head (sys_published s) = Some (committed (sys_store s)) /\
  serial (sys_published s).

Lemma derives_refl s : derives s s.
Proof. by exists []. Qed.

Lemma derives_op s tx op : derives s (mt_state tx) -> derives s (mt_state (run_op op tx)).
Proof.
  intros [ops Hops]. exists (ops ++ [op]). unfold run_ops in *. rewrite foldl_app. simpl.
  destruct tx. simpl in *. subst. by destruct (foldl _ _ ops).
Qed.

Lemma serial_cons newer older l :
  head l = Some older -> derives older newer -> serial l -> serial (newer :: l).
Proof. destruct l; simpl; naive_solver. Qed.

Lemma sys_inv_init : sys_inv Sys_init.
Proof. split_and!; try done; simpl; split; [done|by intros [? ?]]. Qed.

Lemma sys_inv_step s s' : sys_inv s -> sys_step s s' -> sys_inv s'.
Proof.
  intros (Hlock & Hbase & Hread & Hhead & Hser) Hstep.
  assert (committed (sys_store s) ∈ sys_published s) as Hcom.
  { destruct (sys_published s); [done|]. simpl in Hhead. simplify_eq. left. }
  destruct Hstep; unfold sys_inv; simpl in *.
  - unfold MemoryStore_begin_read in *. case_match; simplify_eq.
    split_and!; eauto; apply Hlock.
  - unfold MemoryStore_begin_write, MemoryStore_begin_read in *.
    repeat (case_match; simplify_eq/=). split_and!; eauto; try done.
    intros tx' [= <-]. eauto using derives_refl.
  - split_and!; eauto; [rewrite Hlock; naive_solver|].
    intros tx' [= <-]. destruct (Hbase _ ltac:(done)). eauto using derives_op.
  - match goal with H : MemoryStore_commit _ _ = _ |- _ => revert H end.
    unfold MemoryStore_commit. simpl. destruct (publication_poisoned _) eqn:?; intros [= <-].
    destruct (Hbase _ ltac:(done)) as [Hb Hd]. rewrite Hb in Hd.
    split_and!; try done; [naive_solver..| |by eapply serial_cons].
    eapply Forall_impl; [exact Hread|]. intros ?. simpl. by right.
  - match goal with H : MemoryStore_commit _ _ = _ |- _ => revert H end.
    unfold MemoryStore_commit. simpl. destruct (publication_poisoned _) eqn:?; intros [= <-].
    split_and!; naive_solver.
  - split_and!; naive_solver.
  - split_and!; naive_solver.
Qed.

Lemma sys_inv_reachable s : rtc sys_step Sys_init s -> sys_inv s.
Proof.
  assert (forall a b, rtc sys_step a b -> sys_inv a -> sys_inv b) as Hind.
  { induction 1; eauto using sys_inv_step. }
  eauto using sys_inv_init.
Qed.

(** * Properties *)

(** C17. The memory store is serialisable with stable snapshots: in every
    interleaving of readers and writers, each published state derives from its
    predecessor by one writer's mutations, the newest published state is the
    one new transactions see, every live reader still holds a published state
    unchanged, and at most one writer is live, over the newest state. *)
Theorem store_history_is_serial (s : Sys) :
  rtc sys_step Sys_init s ->
  serial (sys_published s) /\
  head (sys_published s) = Some (committed (sys_store s)) /\
  Forall (fun r => mt_state r ∈ sys_published s) (sys_readers s) /\
  (is_Some (sys_writer s) <-> writer_locked (sys_store s) = true) /\
  (forall tx, sys_writer s = Some tx -> derives (committed (sys_store s)) (mt_state tx)).
Proof.
  intros (Hlock & Hbase & Hread & Hhead & Hser)%sys_inv_reachable. split_and!; [done..| |].
  - by rewrite Hlock.
  - intros tx Htx. by destruct (Hbase tx Htx) as [<- ?].
Qed.

(** A reader begins, then a writer begins, writes and commits. *)
Definition sample_tx : MemoryTx := run_op (OpPut "t" [x01] [x02]) {| mt_state := ∅ |}.
Definition sample_sys : Sys :=
  {| sys_store := (MemoryStore_commit sample_tx (set_writer_locked true MemoryStore_new)).2;
     sys_writer := None; sys_base := ∅; sys_readers := [{| mt_state := ∅ |}];
     sys_published := [mt_state sample_tx; ∅] |}.

Lemma store_history_is_serial_witness :
  rtc sys_step Sys_init sample_sys /\ serial [mt_state sample_tx; ∅].
Proof.
  assert (rtc sys_step Sys_init sample_sys) as Hr.
  { eapply rtc_l; [by apply (step_begin_read Sys_init {| mt_state := ∅ |})|].
    eapply rtc_l; [by apply (step_begin_write _ {| mt_state := ∅ |} (set_writer_locked true MemoryStore_new))|].
    eapply rtc_l; [by apply (step_write _ {| mt_state := ∅ |} (OpPut "t" [x01] [x02]))|].
    eapply rtc_l; [by apply (step_commit _ sample_tx (MemoryStore_commit sample_tx (set_writer_locked true MemoryStore_new)).2)|].
    apply rtc_refl. }
  split; [exact Hr|]. exact (proj1 (store_history_is_serial sample_sys Hr)).
Defined.
