(* ===== verification/Scan.v ===== *)
(** Range and prefix scans over a storage transaction: crates/storage/src/scan.rs.

    [Scan] is the lazy iterator, [Scan_next] one step of it, and [Scan_collect]
    the [collect] its clients run. The lemmas [scan_collect_range] and
    [scan_prefix_collect] identify what a whole scan yields with the ordered
    rows of the transaction's view, for any backend that keeps [ReadLaws]. *)
From Stdlib Require Import ZArith Lia.
From S2P Require Import Prelude Ordered Storage.

(** [starts_with] *)
Definition starts_with (key prefix : bytes) : bool := bool_decide (prefix `prefix_of` key).

Section Scan.
Context {T : Type} `{ReadTransaction T}.

(** [Scan<C>] *)
Record Scan := {
  sc_cursor : Cursor T;
  sc_excluded_start : option bytes;
  sc_upper : Bound bytes;
  sc_prefix : option bytes;
  sc_done : bool
}.

(** The key of a bounded side. *)
Definition bound_key (b : Bound bytes) : option bytes :=
  match b with Included k | Excluded k => Some k | Unbounded => None end.

Definition is_included {A} (b : Bound A) : bool :=
  match b with Included _ => true | _ => false end.

(** [scan] *)
Definition scan (tx : T) (table : Table) (lower upper : Bound bytes) : res StorageError Scan :=
  empty ←
    match bound_key lower, bound_key upper with
    | Some a, Some b =>
        if ltb b a then Err InvalidRange
        else Ok (bool_decide (a = b) && (negb (is_included lower) || negb (is_included upper)))
    | _, _ => Ok false
    end;
  let start := match lower with Unbounded => [] | Included key | Excluded key => key end in
  cursor ← tx_cursor tx table start;
  Ok {| sc_cursor := cursor;
        sc_excluded_start := match lower with Excluded key => Some key | _ => None end;
        sc_upper := upper;
        sc_prefix := None;
        sc_done := empty |}.

(** [scan_prefix] *)
Definition scan_prefix (tx : T) (table : Table) (prefix : bytes) : res StorageError Scan :=
  cursor ← tx_cursor tx table prefix;
  Ok {| sc_cursor := cursor; sc_excluded_start := None; sc_upper := Unbounded;
        sc_prefix := Some prefix; sc_done := false |}.

Definition sc_set_cursor (s : Scan) (c : Cursor T) (x : option bytes) : Scan :=
  {| sc_cursor := c; sc_excluded_start := x; sc_upper := sc_upper s;
     sc_prefix := sc_prefix s; sc_done := sc_done s |}.

Definition sc_finish (s : Scan) : Scan :=
  {| sc_cursor := sc_cursor s; sc_excluded_start := sc_excluded_start s; sc_upper := sc_upper s;
     sc_prefix := sc_prefix s; sc_done := true |}.

(** [Scan::advance]: the excluded start is taken by the first call that
    reaches it, which a failing first move does not. *)
Definition Scan_advance : stres Scan StorageError (option Entry) := fun s =>
  match cur_next (sc_cursor s) with
  | (Ok row, c) =>
      match sc_excluded_start s with
      | Some excluded =>
          if match row with Some (key, _) => bool_decide (key = excluded) | None => false end
          then let '(r, c') := cur_next c in (r, sc_set_cursor s c' None)
          else (Ok row, sc_set_cursor s c None)
      | None => (Ok row, sc_set_cursor s c None)
      end
  | (Err e, c) => (Err e, sc_set_cursor s c (sc_excluded_start s))
  | (Panic, c) => (Panic, sc_set_cursor s c (sc_excluded_start s))
  | (Diverge, c) => (Diverge, sc_set_cursor s c (sc_excluded_start s))
  end.

(** Is a row inside the scan's upper bound and prefix? *)
Definition within (upper : Bound bytes) (prefix : option bytes) (key : bytes) : bool :=
  below upper key &&
  match prefix with Some p => starts_with key p | None => true end.

(** [Iterator::next]: [None] ends the iteration, an error is yielded once. *)
Definition Scan_next (s : Scan) : option (res StorageError Entry) * Scan :=
  if sc_done s then (None, s)
  else match Scan_advance s with
  | (Ok (Some (key, value)), s') =>
      if within (sc_upper s') (sc_prefix s') key
      then (Some (Ok (key, value)), s')
      else (None, sc_finish s')
  | (Ok None, s') => (None, sc_finish s')
  | (Err e, s') => (Some (Err e), sc_finish s')
  | (Panic, s') => (Some Panic, s')
  | (Diverge, s') => (Some Diverge, s')
  end.

(** [collect::<Result<Vec<_>>>]: stops at the first error. *)
Fixpoint Scan_collect (fuel : nat) (s : Scan) : res StorageError (list Entry) :=
  match fuel with
  | O => Diverge
  | S fuel' =>
      match Scan_next s with
      | (None, _) => Ok []
      | (Some (Ok row), s') => rows ← Scan_collect fuel' s'; Ok (row :: rows)
      | (Some (Err e), _) => Err e
      | (Some Panic, _) => Panic
      | (Some Diverge, _) => Diverge
      end
  end.
End Scan.
Arguments Scan T {_}.

(** * Order facts *)

Lemma bytes_le_cons (a b : byte) (l1 l2 : bytes) :
  kle (a :: l1) (b :: l2) <-> klt a b \/ a = b /\ kle l1 l2.
Proof.
  unfold kle at 1, cmp, list_ordered. simpl. destruct (cmp a b) eqn:E.
  - apply cmp_eq in E as ->. split; [auto|]. intros [Hlt|[_ ?]]; [|done].
    by apply klt_irrefl in Hlt.
  - split; [|done]. intros _. by left.
  - split; [done|]. intros [Hlt|[-> _]]; [unfold klt in Hlt; congruence|].
    by rewrite cmp_refl in E.
Qed.

Lemma bytes_le_nil (l : bytes) : kle [] l.
Proof. by destruct l. Qed.

(** Between a prefix and a key that has it, every key has it. *)
Lemma prefix_between (p x y : bytes) :
  kle p x -> kle x y -> p `prefix_of` y -> p `prefix_of` x.
Proof.
  revert x y. induction p as [|a p IH]; intros x y Hpx Hxy Hpy; [apply prefix_nil|].
  destruct y as [|b y]; [by apply prefix_nil_inv in Hpy|].
  apply prefix_cons_inv_1 in Hpy as Hab. subst b.
  apply prefix_cons_inv_2 in Hpy.
  destruct x as [|c x]; [done|].
  apply bytes_le_cons in Hpx as [Hac|[<- Hpx]], Hxy as [Hca|[Heq Hxy]].
  - exfalso. eapply klt_irrefl. by etrans.
  - subst. by apply klt_irrefl in Hac.
  - by apply klt_irrefl in Hca.
  - apply prefix_cons. eauto.
Qed.

Lemma prefix_kle (p x : bytes) : p `prefix_of` x -> kle p x.
Proof.
  revert x. induction p as [|a p IH]; intros x Hp; [apply bytes_le_nil|].
  destruct x as [|b x]; [by apply prefix_nil_inv in Hp|].
  apply prefix_cons_inv_1 in Hp as Hab. subst b. apply prefix_cons_inv_2 in Hp.
  apply bytes_le_cons. auto.
Qed.

(** * The rows ahead of a cursor *)

(** The next key after every key with a prefix that ends below 255. *)
Lemma byte_succ_between b c : (u8 b < 255)%Z -> klt b c \/ b = c -> klt c (byte_of (u8 b + 1)%Z) \/ c = byte_of (u8 b + 1)%Z /\ False -> b = c.
Proof.
  intros Hb [Hlt|?] [Hc|[_ []]]; [|done]. unfold klt, cmp, byte_ordered in *. rewrite Z.compare_lt_iff in *.
  rewrite u8_byte_of, Z.mod_small in Hc by (pose proof (u8_range b); lia). lia.
Qed.

Lemma bytes_lt_cons (a b : byte) (l1 l2 : bytes) : klt (a :: l1) (b :: l2) <-> klt a b \/ a = b /\ klt l1 l2.
Proof.
  unfold klt at 1, cmp, list_ordered. cbn [list_cmp]. destruct (cmp a b) eqn:E.
  - apply cmp_eq in E as ->. split; [auto|]. intros [Hlt|[_ ?]]; [by apply klt_irrefl in Hlt|done].
  - split; [auto|done].
  - split; [done|]. intros [Hlt|[-> _]]; [unfold klt in Hlt; congruence|by rewrite cmp_refl in E].
Qed.

Lemma next_after q b k : (u8 b < 255)%Z -> kle (q ++ [b]) k ->
  klt k (q ++ [byte_of (u8 b + 1)%Z]) <-> q ++ [b] `prefix_of` k.
Proof.
  intros Hb. revert k. induction q as [|a q IH]; intros k Hle; (destruct k as [|c k]; [done|]); cbn [app] in *;
    rewrite bytes_le_cons in Hle; rewrite bytes_lt_cons.
  - split.
    + intros Hc. assert (b = c) as <-; [|apply prefix_cons, prefix_nil]. apply byte_succ_between; [done| |].
      * destruct Hle as [?|[-> _]]; auto.
      * destruct Hc as [?|[_ Hk]]; [by left|]. exfalso. destruct k; discriminate Hk.
    + intros Hp. apply prefix_cons_inv_1 in Hp as <-. left. unfold klt, cmp, byte_ordered. rewrite Z.compare_lt_iff.
      rewrite u8_byte_of, Z.mod_small by (pose proof (u8_range b); lia). lia.
  - destruct Hle as [Hac|[-> Hle]].
    + split.
      * intros [Hca|[-> _]]; exfalso; [apply (klt_irrefl a); by transitivity c|by apply (klt_irrefl a)].
      * intros Hp. apply prefix_cons_inv_1 in Hp as ->. by apply klt_irrefl in Hac.
    + split.
      * intros [Hcc|[_ Hk]]; [by apply klt_irrefl in Hcc|]. apply prefix_cons. by apply IH.
      * intros Hp. apply prefix_cons_inv_2 in Hp. right. split; [done|]. by apply IH.
Qed.

(** Above a prefix that ends with byte 255, having the rest is having it all. *)
Lemma last_byte_max (q k : bytes) (b : byte) : (255 <= u8 b)%Z -> kle (q ++ [b]) k ->
  q `prefix_of` k <-> q ++ [b] `prefix_of` k.
Proof.
  intros Hb Hle. split; [|intros Hp; etrans; [|exact Hp]; by apply prefix_app_r].
  intros [r ->]. apply prefix_app. assert (cmp [b] r <> Gt) as Hr.
  { intros E. apply Hle. by rewrite cmp_app_l. }
  destruct r as [|c r]; [done|]. assert (b = c) as <-; [|apply prefix_cons, prefix_nil].
  apply (inj u8). pose proof (u8_range b). pose proof (u8_range c). cbn in Hr. unfold cmp, byte_ordered in Hr.
  destruct (Z.compare_spec (u8 b) (u8 c)); [done|lia|done].
Qed.

Definition ahead (rows : Rows) (p : Position) : list Entry :=
  match p with
  | Before => entries rows
  | Key k => range (Included k) Unbounded rows
  | At k => range (Excluded k) Unbounded rows
  | After => []
  end.

Lemma next_row_ahead rows p : next_row rows p = head (ahead rows p).
Proof. by destruct p. Qed.

Lemma ahead_sorted rows p : StronglySorted klt (ahead rows p).*1.
Proof. destruct p; [apply range_sorted|apply entries_sorted|apply range_sorted|constructor]. Qed.

Lemma elem_of_ahead rows p k v :
  (k, v) ∈ ahead rows p -> rows !! k = Some v.
Proof.
  destruct p; simpl; rewrite ?elem_of_range, ?elem_of_entries; [tauto..|set_solver].
Qed.

(** After the head of the rows ahead is returned, its tail is ahead. *)
Lemma ahead_step rows p k v l :
  ahead rows p = (k, v) :: l -> ahead rows (At k) = l.
Proof.
  intros Ha. pose proof (ahead_sorted rows p) as Hs. rewrite Ha in Hs.
  apply sorted_rows_cons in Hs as [Hs Hk]. rewrite Forall_forall in Hk.
  apply sorted_rows_unique; [apply range_sorted|done|].
  intros k' v'. simpl. rewrite elem_of_range. simpl. rewrite ltb_klt. split.
  - intros (Hrow & Hlt & _).
    assert ((k', v') ∈ ahead rows p) as Hin.
    { assert ((k, v) ∈ ahead rows p) as Hk0 by (rewrite Ha; left).
      destruct p; simpl in *; rewrite ?elem_of_range, ?elem_of_entries in *; simpl in *.
      - split_and!; try done. destruct Hk0 as (_ & Hle%leb_kle & _).
        apply leb_kle, klt_kle. by eapply kle_klt_trans.
      - done.
      - split_and!; try done. destruct Hk0 as (_ & Hle%ltb_klt & _).
        apply ltb_klt. by etrans.
      - done. }
    rewrite Ha in Hin. apply elem_of_cons in Hin as [[= -> ->]|?]; [|done].
    by apply klt_irrefl in Hlt.
  - intros Hin. split_and!; [|by apply (Hk (k', v'))|done].
    eapply (elem_of_ahead rows p). rewrite Ha. by right.
Qed.

Arguments ahead : simpl never.

(** Keep the longest initial segment of rows that satisfy a test. *)
Fixpoint take_while {A} (f : A -> bool) (l : list A) : list A :=
  match l with
  | [] => []
  | x :: l' => if f x then x :: take_while f l' else []
  end.

(** On a sorted list, an initial segment test keeps what a filter keeps. *)
Lemma take_while_filter (f : bytes -> bool) (l : list Entry) :
  StronglySorted klt l.*1 ->
  (forall x y, x ∈ l.*1 -> kle x y -> f y = true -> f x = true) ->
  take_while (fun kv => f kv.1) l = filter (fun kv => f kv.1 = true) l.
Proof.
  induction l as [|x l IH]; intros Hs Hdown; [done|].
  apply sorted_rows_cons in Hs as [Hs Hx]. cbn [take_while]. rewrite filter_cons.
  destruct (f x.1) eqn:E; (case_decide; [|try congruence]); [|congruence|].
  - f_equal. apply IH; [done|].
    intros y z Hy. apply Hdown. rewrite fmap_cons. by right.
  - destruct (filter _ l) as [|y l'] eqn:Ef; [done|]. exfalso.
    assert (y ∈ filter (fun kv => f kv.1 = true) l) as Hy by (rewrite Ef; left).
    apply list_elem_of_filter in Hy as [Hfy Hy]. rewrite Forall_forall in Hx.
    enough (f x.1 = true) by congruence.
    eapply (Hdown x.1 y.1); [rewrite fmap_cons; left|apply klt_kle; by apply Hx|done].
Qed.

(** * What a scan yields *)

Section Spec.
Context {T : Type} `{ReadLaws T}.

(** A scan that has started: no excluded start is pending. *)
Lemma Scan_collect_started (s : Scan T) rows p fuel :
  sc_done s = false -> sc_excluded_start s = None ->
  cursor_at (sc_cursor s) rows p ->
  length (ahead rows p) < fuel ->
  Scan_collect fuel s =
    Ok (take_while (fun kv => within (sc_upper s) (sc_prefix s) kv.1) (ahead rows p)).
Proof.
  revert s p. induction fuel as [|fuel IH]; intros s p Hd Hx Hc Hf; [lia|].
  cbn [Scan_collect]. unfold Scan_next, Scan_advance. rewrite Hd.
  destruct (next_spec _ _ _ Hc) as (c' & -> & Hc'). rewrite Hx.
  rewrite next_row_ahead in *. destruct (ahead rows p) as [|[k v] l] eqn:Ha; [done|].
  simpl in *. destruct (within _ _ k) eqn:Hw; [|done].
  rewrite (IH _ (At k)); simpl; try done; rewrite (ahead_step _ _ _ _ _ Ha); [done|lia].
Qed.

(** The first step of a scan with an excluded start. *)
Lemma Scan_collect_excluded (s : Scan T) rows k fuel :
  sc_done s = false -> sc_excluded_start s = Some k ->
  cursor_at (sc_cursor s) rows (Key k) ->
  length (ahead rows (Key k)) < fuel ->
  Scan_collect fuel s =
    Ok (take_while (fun kv => within (sc_upper s) (sc_prefix s) kv.1) (ahead rows (At k))).
Proof.
  intros Hd Hx Hc Hf. destruct fuel as [|fuel]; [lia|].
  cbn [Scan_collect]. unfold Scan_next, Scan_advance. rewrite Hd.
  destruct (next_spec _ _ _ Hc) as (c' & -> & Hc'). rewrite Hx.
  rewrite next_row_ahead in *. destruct (ahead rows (Key k)) as [|[k0 v0] l] eqn:Ha.
  { simpl. replace (ahead rows (At k)) with ([] : list Entry); [done|].
    symmetry. apply elem_of_nil_inv. intros [k' v'] Hin. unfold ahead in Ha, Hin.
    rewrite elem_of_range in Hin. destruct Hin as (Hrow & Hlt & _). simpl in Hlt.
    apply (not_elem_of_nil (k', v')). rewrite <- Ha. apply elem_of_range.
    split_and!; try done. simpl. rewrite leb_kle. apply klt_kle. by apply ltb_klt. }
  simpl in Hc'. simpl. simpl in Hf. case_bool_decide as Ek.
  - subst k0. destruct (next_spec _ _ _ Hc') as (c2 & -> & Hc2).
    rewrite next_row_ahead in *. pose proof (ahead_step _ _ _ _ _ Ha) as Hl.
    destruct (ahead rows (At k)) as [|[k1 v1] l1] eqn:Ha1; [done|].
    simpl in *. subst l. destruct (within _ _ k1) eqn:Hw; [|done].
    rewrite (Scan_collect_started _ rows (At k1)); simpl; try done;
      rewrite (ahead_step _ _ _ _ _ Ha1); [done|simpl in *; lia].
  - assert (ahead rows (At k) = (k0, v0) :: l) as ->.
    { rewrite <- Ha. apply sorted_rows_unique; [apply ahead_sorted..|].
      assert ((k0, v0) ∈ ahead rows (Key k)) as Hin0 by (rewrite Ha; left).
      pose proof (ahead_sorted rows (Key k)) as Hs.
      assert (klt k k0) as Hkk.
      { unfold ahead in Hin0. apply elem_of_range in Hin0 as (_ & Hle%leb_kle & _).
        apply kle_iff in Hle as [?|?]; [done|congruence]. }
      rewrite Ha in Hs. eapply sorted_head in Hs as [_ Hmin]; [|done].
      rewrite <- Ha in Hmin.
      intros k' v'. split; unfold ahead; rewrite !elem_of_range; simpl; intros (? & Hb & ?);
        split_and!; try done.
      - apply leb_kle, klt_kle. by apply ltb_klt.
      - apply ltb_klt. eapply klt_kle_trans; [done|]. apply (Hmin k' v').
        unfold ahead. by rewrite elem_of_range. }
    simpl. destruct (within _ _ k0) eqn:Hw; [|done].
    rewrite (Scan_collect_started _ rows (At k0)); simpl; try done;
      rewrite (ahead_step _ _ _ _ _ Ha); [done|lia].
Qed.

Lemma length_ahead rows p : length (ahead rows p) <= size rows.
Proof.
  rewrite <- length_map_to_list, <- (entries_perm rows).
  destruct p; unfold ahead, range; rewrite ?length_filter; simpl; try lia.
  all: apply length_filter.
Qed.

(** Lower and upper bounds that [scan] rejects. *)
Definition reversed (lower upper : Bound bytes) : bool :=
  match bound_key lower, bound_key upper with
  | Some a, Some b => ltb b a
  | _, _ => false
  end.

Lemma ahead_lower (rows : Rows) (lower : Bound bytes) :
  match lower with Excluded k => ahead rows (At k) | Included k => ahead rows (Key k) | Unbounded => ahead rows (Key []) end
  = range lower Unbounded rows.
Proof.
  destruct lower; try done. apply sorted_rows_unique; [apply range_sorted..|].
  intros k v. unfold ahead. rewrite !elem_of_range. simpl. rewrite leb_kle.
  pose proof (bytes_le_nil k). tauto.
Qed.

Lemma take_while_range (lower upper : Bound bytes) (rows : Rows) :
  take_while (fun kv => within upper None kv.1) (range lower Unbounded rows) = range lower upper rows.
Proof.
  rewrite (take_while_filter (within upper None)); [|apply range_sorted|].
  - apply sorted_rows_unique; [apply filter_rows_sorted, range_sorted|apply range_sorted|].
    intros k v. rewrite list_elem_of_filter, !elem_of_range. unfold within. simpl.
    rewrite andb_true_r. tauto.
  - intros x y _ Hle. unfold within. rewrite !andb_true_r. destruct upper; simpl.
    + rewrite !leb_kle. intros ?. by etrans.
    + rewrite !ltb_klt. intros ?. by eapply kle_klt_trans.
    + done.
Qed.

Lemma scan_collect tx table lower upper : table_ok table ->
  if reversed lower upper then scan tx table lower upper = Err InvalidRange
  else exists s, scan tx table lower upper = Ok s /\
    forall fuel, size (view tx table) < fuel ->
      Scan_collect fuel s = Ok (range lower upper (view tx table)).
Proof.
  intros Ht. unfold scan, reversed. set (rows := view tx table).
  destruct (cursor_spec tx table (match lower with Unbounded => [] | Included key | Excluded key => key end) Ht)
    as (c & Hc & Hat). fold rows in Hat. simpl.
  assert (forall emp, exists s : Scan T,
    (cursor ← tx_cursor tx table (match lower with Unbounded => [] | Included key | Excluded key => key end);
     Ok {| sc_cursor := cursor;
        sc_excluded_start := match lower with Excluded key => Some key | _ => None end;
        sc_upper := upper; sc_prefix := None; sc_done := emp |}) = Ok s /\
    forall fuel, size rows < fuel ->
      Scan_collect fuel s = Ok (if emp then [] else range lower upper rows)) as Hgo.
  { intros emp. rewrite Hc. simpl. eexists. split; [done|]. intros fuel Hf.
    destruct emp; [by destruct fuel; [lia|]|].
    rewrite <- take_while_range, <- ahead_lower.
    pose proof (fun p => length_ahead rows p) as Hlen.
    destruct lower as [k|k|].
    - rewrite (Scan_collect_started _ rows (Key k)); try done. specialize (Hlen (Key k)). lia.
    - rewrite (Scan_collect_excluded _ rows k); try done. specialize (Hlen (Key k)). lia.
    - rewrite (Scan_collect_started _ rows (Key [])); try done. specialize (Hlen (Key [])). lia. }
  assert (forall a, bound_key lower = Some a -> bound_key upper = Some a ->
    is_included lower = false \/ is_included upper = false -> range lower upper rows = []) as Hemp.
  { intros a Hl Hu Hi. apply elem_of_nil_inv. intros [k v] (_ & Ha & Hb)%elem_of_range.
    destruct lower, upper; simplify_eq/=; rewrite ?leb_kle, ?ltb_klt in *; [naive_solver|..];
      apply (klt_irrefl a); [by eapply kle_klt_trans|by eapply klt_kle_trans|by etrans]. }
  destruct (bound_key lower) as [a|] eqn:El, (bound_key upper) as [b|] eqn:Eu; simpl;
    try exact (Hgo false).
  destruct (ltb b a) eqn:Eab; [done|]. simpl.
  destruct (bool_decide (a = b) && _) eqn:Eemp; [|exact (Hgo false)].
  apply andb_true_iff in Eemp as [<-%bool_decide_eq_true Hinc].
  destruct (Hgo true) as (s & Hs & Hcol). exists s. split; [done|].
  intros fuel Hf. rewrite Hcol by done. f_equal. symmetry. apply (Hemp a); try done.
  rewrite orb_true_iff, !negb_true_iff in Hinc. done.
Qed.

(** The rows whose key has a prefix, in order. *)
Definition prefix_rows (prefix : bytes) (rows : Rows) : list Entry :=
  filter (fun kv => starts_with kv.1 prefix = true) (entries rows).

Lemma scan_prefix_collect tx table prefix : table_ok table ->
  exists s, scan_prefix tx table prefix = Ok s /\
    forall fuel, size (view tx table) < fuel ->
      Scan_collect fuel s = Ok (prefix_rows prefix (view tx table)).
Proof.
  intros Ht. unfold scan_prefix. destruct (cursor_spec tx table prefix Ht) as (c & -> & Hat).
  eexists. split; [done|]. intros fuel Hf.
  pose proof (length_ahead (view tx table) (Key prefix)).
  rewrite (Scan_collect_started _ (view tx table) (Key prefix)); try done; [|lia]. simpl. f_equal.
  rewrite (take_while_filter (within Unbounded (Some prefix))).
  - apply sorted_rows_unique; [apply filter_rows_sorted, ahead_sorted| |].
    + apply filter_rows_sorted, entries_sorted.
    + intros k v. unfold ahead, prefix_rows, within. rewrite !list_elem_of_filter, elem_of_range, elem_of_entries.
      simpl. unfold starts_with. rewrite bool_decide_eq_true, leb_kle.
      pose proof (prefix_kle prefix k). tauto.
  - apply ahead_sorted.
  - intros x y Hx Hle. unfold within, starts_with. simpl. rewrite !bool_decide_eq_true.
    intros Hp. apply list_elem_of_fmap in Hx as ([x' v] & -> & Hx). unfold ahead in Hx.
    apply elem_of_range in Hx as (_ & Hlow & _). simpl in *. apply leb_kle in Hlow.
    by eapply prefix_between.
Qed.
End Spec.

(** ** Tables of one row and of none *)

Lemma entries_singleton {V} (k : bytes) (v : V) : entries ({[k := v]} : gmap bytes V) = [(k, v)].
Proof.
  apply sorted_rows_unique; [apply entries_sorted|repeat constructor|]. intros k' v'.
  rewrite elem_of_entries, lookup_singleton_Some, list_elem_of_singleton. naive_solver.
Qed.

Lemma singleton_rows (k v : bytes) :
  next_row {[k := v]} (Key []) = Some (k, v) /\ next_row {[k := v]} (At k) = None.
Proof.
  unfold next_row, range. rewrite entries_singleton. rewrite !filter_cons, !filter_nil. cbn [fst above below].
  rewrite (proj2 (leb_kle [] k) (bytes_le_nil k)), (proj2 (ltb_false k k) (kle_refl k)). done.
Qed.

Lemma empty_rows : next_row (∅ : Rows) (Key []) = None.
Proof. unfold next_row, range. by rewrite entries_empty. Qed.

(** * Properties *)

(** C34. A range scan yields exactly the rows between its bounds, in key order,
    for every bound kind; bounds that are reversed are refused instead. *)
Theorem scan_yields_range {T : Type} `{ReadLaws T} (tx : T) (table : Table) (lower upper : Bound bytes) :
  table_ok table ->
  if reversed lower upper then scan tx table lower upper = Err InvalidRange
  else exists s, scan tx table lower upper = Ok s /\
    forall fuel, size (view tx table) < fuel ->
      Scan_collect fuel s = Ok (range lower upper (view tx table)).
Proof. apply scan_collect. Qed.

(** Three rows of one table. *)
Definition sample_rows : MemoryTx :=
  {| mt_state := {[ "t" := list_to_map [([x01], [xa1]); ([x02; xff], [xa2]); ([x03], [xa3])] ]} |}.

Lemma scan_yields_range_witness :
  exists s, scan sample_rows "t" (Excluded [x01]) (Included [x03]) = Ok s /\
    Scan_collect 4 s = Ok [([x02; xff], [xa2]); ([x03], [xa3])].
Proof.
  destruct (scan_yields_range sample_rows "t" (Excluded [x01]) (Included [x03]) eq_refl) as (s & Hs & Hc).
  exists s. split; [exact Hs|]. exact (Hc 4 ltac:(by vm_compute; repeat constructor)).
Defined.

(** A prefix scan yields exactly the rows whose keys have the prefix, in key
    order, and stops at the first row past them. *)
Theorem prefix_scan_yields_prefix {T : Type} `{ReadLaws T} (tx : T) (table : Table) (prefix : bytes) :
  table_ok table ->
  exists s, scan_prefix tx table prefix = Ok s /\
    forall fuel, size (view tx table) < fuel ->
      Scan_collect fuel s = Ok (prefix_rows prefix (view tx table)).
Proof. apply scan_prefix_collect. Qed.

Lemma prefix_scan_yields_prefix_witness :
  exists s, scan_prefix sample_rows "t" [x02] = Ok s /\ Scan_collect 4 s = Ok [([x02; xff], [xa2])].
Proof.
  destruct (prefix_scan_yields_prefix sample_rows "t" [x02] eq_refl) as (s & Hs & Hc).
  exists s. split; [exact Hs|]. exact (Hc 4 ltac:(by vm_compute; repeat constructor)).
Defined.
