(* ===== verification/CellTypes.v ===== *)
(** Cell types and the order-preserving stored forms of their values:
    crates/cells/src/{types,order,error}.rs.

    A cell value is stored in a form whose byte order is the order of the
    values. [flip_sign] is that form for signed integers, [encode_float] for
    floats; unsigned integers are big-endian as they are. A 32- or 64-bit float
    is represented by its IEEE-754 bits. *)
From Stdlib Require Import ZArith Lia SpecFloat.
From S2P Require Import Prelude Ordered.

#[local] Open Scope Z_scope.

(** * Types *)

Inductive CellKind : Type := Field | Attribute.

Inductive Width : Type := W4 | W8 | W16 | W32.

(** [self as u8] on the fieldless enum. *)
Definition Width_w (w : Width) : Z :=
  match w with W4 => 0 | W8 => 1 | W16 => 2 | W32 => 3 end.

Definition Width_from_w (w : Z) : Width :=
  if w =? 0 then W4 else if w =? 1 then W8 else if w =? 2 then W16 else W32.

Definition Width_bytes (w : Width) : nat := Z.to_nat (Z.shiftl 4 (Width_w w)).

Definition Width_decimal_scale (w : Width) : Z :=
  match w with W4 => 4 | W8 => 6 | W16 | W32 => 18 end.

Inductive FloatWidth : Type := F32 | F64.

Inductive CellType : Type :=
  | Bool
  | Str
  | Bytes
  | Bytes20
  | FixedBytes (w : Width)
  | Uint (w : Width)
  | Int (w : Width)
  | Decimal (w : Width)
  | Float (w : FloatWidth)
  | Date32
  | Timestamp64.

#[global] Instance CellKind_eq_dec : EqDecision CellKind.
Proof. solve_decision. Defined.
#[global] Instance Width_eq_dec : EqDecision Width.
Proof. solve_decision. Defined.
#[global] Instance FloatWidth_eq_dec : EqDecision FloatWidth.
Proof. solve_decision. Defined.
#[global] Instance CellType_eq_dec : EqDecision CellType.
Proof. solve_decision. Defined.

Inductive CellValueParseError : Type :=
  | Empty
  | AbsentTag
  | ReservedType (id : Z)
  | LengthMismatch (ty : CellType) (expected actual : nat)
  | InvalidBool (b : byte)
  | InvalidUtf8 (valid_up_to : nat)
  | FloatNaN
  | NegativeZero
  | NotIndexable.

#[global] Instance CellValueParseError_eq_dec : EqDecision CellValueParseError.
Proof. solve_decision. Defined.

(** [CellType::id] *)
Definition CellType_id (ty : CellType) : Z :=
  match ty with
  | Bool => 1
  | Str => 2
  | Bytes => 3
  | Bytes20 => 4
  | FixedBytes w => 8 + Width_w w
  | Uint w => 12 + Width_w w
  | Int w => 16 + Width_w w
  | Decimal w => 20 + Width_w w
  | Float F32 => 24
  | Float F64 => 25
  | Date32 => 28
  | Timestamp64 => 29
  end.

(** [lo..=hi] as a pattern. *)
Definition in_range (lo hi z : Z) : bool := (lo <=? z) && (z <=? hi).

(** [CellType::from_id] *)
Definition CellType_from_id (id : Z) : res CellValueParseError CellType :=
  if id =? 0 then Err AbsentTag
  else if id =? 1 then Ok Bool
  else if id =? 2 then Ok Str
  else if id =? 3 then Ok Bytes
  else if id =? 4 then Ok Bytes20
  else if in_range 8 11 id then Ok (FixedBytes (Width_from_w (id - 8)))
  else if in_range 12 15 id then Ok (Uint (Width_from_w (id - 12)))
  else if in_range 16 19 id then Ok (Int (Width_from_w (id - 16)))
  else if in_range 20 23 id then Ok (Decimal (Width_from_w (id - 20)))
  else if id =? 24 then Ok (Float F32)
  else if id =? 25 then Ok (Float F64)
  else if id =? 28 then Ok Date32
  else if id =? 29 then Ok Timestamp64
  else Err (ReservedType id).

(** [CellType::width] *)
Definition CellType_width (ty : CellType) : option nat :=
  match ty with
  | Str | Bytes => None
  | Bool => Some 1%nat
  | Bytes20 => Some 20%nat
  | FixedBytes w | Uint w | Int w | Decimal w => Some (Width_bytes w)
  | Float F32 | Date32 => Some 4%nat
  | Float F64 | Timestamp64 => Some 8%nat
  end.

(** * Stored forms: order.rs *)

(** [bytes[0] ^= 0x80]; the arrays are never empty. *)
Definition flip_sign (l : bytes) : bytes :=
  match l with
  | [] => []
  | b :: l' => byte_of (Z.lxor (u8 b) 128) :: l'
  end.

(** [be.map(|b| !b)] *)
Definition complement (l : bytes) : bytes := (fun b => byte_of (255 - u8 b)) <$> l.

Definition encode_float (be : bytes) : bytes :=
  match be with
  | [] => []
  | b :: l =>
      if (u8 b =? 128) && forallb (fun b => u8 b =? 0) l
      then flip_sign (replicate (length be) x00)
      else if Z.land (u8 b) 128 =? 0 then flip_sign be
      else complement be
  end.

Definition decode_float (stored : bytes) : bytes :=
  match stored with
  | [] => []
  | b :: _ => if negb (Z.land (u8 b) 128 =? 0) then flip_sign stored else complement stored
  end.

(** * Standard-library predicates the validation uses *)

(** UTF-8 continuation byte in [lo, hi]. *)
Definition byte_in (lo hi : Z) (b : byte) : bool := (lo <=? u8 b) && (u8 b <=? hi).

(** [core::str::from_utf8]: [None] for valid text, otherwise the length of the
    longest valid prefix ([Utf8Error::valid_up_to]). *)
Fixpoint utf8_error_from (pos : nat) (l : bytes) : option nat :=
  match l with
  | [] => None
  | b0 :: l1 =>
      if byte_in 0x00 0x7F b0 then utf8_error_from (S pos) l1
      else if byte_in 0xC2 0xDF b0 then
        match l1 with
        | b1 :: l2 => if byte_in 0x80 0xBF b1 then utf8_error_from (2 + pos) l2 else Some pos
        | [] => Some pos
        end
      else if byte_in 0xE0 0xEF b0 then
        match l1 with
        | b1 :: b2 :: l3 =>
            let lo := if u8 b0 =? 0xE0 then 0xA0 else 0x80 in
            let hi := if u8 b0 =? 0xED then 0x9F else 0xBF in
            if byte_in lo hi b1 && byte_in 0x80 0xBF b2
            then utf8_error_from (3 + pos) l3 else Some pos
        | _ => Some pos
        end
      else if byte_in 0xF0 0xF4 b0 then
        match l1 with
        | b1 :: b2 :: b3 :: l4 =>
            let lo := if u8 b0 =? 0xF0 then 0x90 else 0x80 in
            let hi := if u8 b0 =? 0xF4 then 0x8F else 0xBF in
            if byte_in lo hi b1 && byte_in 0x80 0xBF b2 && byte_in 0x80 0xBF b3
            then utf8_error_from (4 + pos) l4 else Some pos
        | _ => Some pos
        end
      else Some pos
  end.
Definition utf8_error (l : bytes) : option nat := utf8_error_from 0 l.
Definition is_utf8 (l : bytes) : bool := match utf8_error l with None => true | Some _ => false end.

(** Bits of a float type: width in bytes, and the bits of positive infinity. *)
Definition FloatWidth_bytes (w : FloatWidth) : nat := match w with F32 => 4 | F64 => 8 end.
Definition infinity_bits (w : FloatWidth) : Z :=
  match w with F32 => 0x7f800000 | F64 => 0x7ff0000000000000 end.
Definition sign_bit (w : FloatWidth) : Z := 2 ^ (8 * Z.of_nat (FloatWidth_bytes w) - 1).

(** [is_nan], and [x == 0.0 && x.is_sign_negative()], on IEEE-754 bits. *)
Definition is_nan (w : FloatWidth) (bits : Z) : bool := infinity_bits w <? bits mod sign_bit w.
Definition is_negative_zero (w : FloatWidth) (bits : Z) : bool := bits =? sign_bit w.

(** [CellType::validate] *)
Definition CellType_validate (ty : CellType) (value : bytes) : res CellValueParseError unit :=
  match CellType_width ty with
  | Some n =>
      if negb (length value =? n)%nat
      then Err (LengthMismatch ty n (length value))
      else
        match ty with
        | Bool =>
            match value with
            | [] => Panic
            | b :: _ => if 1 <? u8 b then Err (InvalidBool b) else Ok ()
            end
        | Float w =>
            let x := be_decode (decode_float value) in
            if is_nan w x then Err FloatNaN
            else if is_negative_zero w x then Err NegativeZero
            else Ok ()
        | _ => Ok ()
        end
  | None =>
      match ty with
      | Str =>
          match utf8_error value with
          | None => Ok ()
          | Some valid_up_to => Err (InvalidUtf8 valid_up_to)
          end
      | _ => Ok ()
      end
  end.

(** * Lemmas *)

Lemma Width_bytes_pos w : (0 < Width_bytes w)%nat.
Proof. destruct w; vm_compute; lia. Qed.

Lemma CellType_id_range ty : 1 <= CellType_id ty <= 29.
Proof. destruct ty as [| | | |[]|[]|[]|[]|[]| |]; vm_compute; split; discriminate. Qed.

Lemma CellType_from_id_id ty : CellType_from_id (CellType_id ty) = Ok ty.
Proof. by destruct ty as [| | | |[]|[]|[]|[]|[]| |]. Qed.

Lemma in_range_cases lo z : in_range lo (lo + 3) z = true ->
  z = lo \/ z = lo + 1 \/ z = lo + 2 \/ z = lo + 3.
Proof. unfold in_range. rewrite andb_true_iff, !Z.leb_le. lia. Qed.

Lemma CellType_id_from_id id ty : CellType_from_id id = Ok ty -> CellType_id ty = id.
Proof.
  unfold CellType_from_id. repeat case_match; intros; simplify_eq; rewrite ?Z.eqb_eq in *; try done.
  all: match goal with H : in_range ?a _ _ = true |- _ =>
    apply (in_range_cases a) in H as [-> | [-> | [-> | ->]]]; reflexivity end.
Qed.

#[global] Instance CellType_id_inj : Inj (=) (=) CellType_id.
Proof.
  intros a b E. pose proof (CellType_from_id_id a) as Ha. rewrite E, CellType_from_id_id in Ha. congruence.
Qed.

(** ** Stored forms as integers *)

Lemma length_flip_sign l : length (flip_sign l) = length l.
Proof. by destruct l. Qed.

Lemma u8_flip b : u8 (byte_of (Z.lxor (u8 b) 128)) = (u8 b + 128) mod 256.
Proof. by destruct b. Qed.

Lemma u8_complement b : u8 (byte_of (255 - u8 b)) = 255 - u8 b.
Proof. rewrite u8_byte_of. apply Z.mod_small. pose proof (u8_range b). lia. Qed.

Lemma u8_top_bit b : Z.land (u8 b) 128 = 0 <-> u8 b < 128.
Proof. destruct b; vm_compute; split; congruence. Qed.

(** [256 ^ n], and the sign bit at [n] bytes. *)
Definition pow256 (n : nat) : Z := 256 ^ Z.of_nat n.
Definition half256 (n : nat) : Z := 128 * pow256 (n - 1).

Lemma pow256_pos n : 0 < pow256 n.
Proof. apply Z.pow_pos_nonneg; lia. Qed.

Lemma pow256_S n : pow256 (S n) = 256 * pow256 n.
Proof. unfold pow256. rewrite Nat2Z.inj_succ, Z.pow_succ_r by lia. done. Qed.

Lemma half256_double n : (0 < n)%nat -> 2 * half256 n = pow256 n.
Proof.
  destruct n as [|n]; [lia|]. intros _. rewrite pow256_S. unfold half256.
  replace (S n - 1)%nat with n by lia. lia.
Qed.

Lemma be_decode_flip_sign l : (0 < length l)%nat ->
  be_decode (flip_sign l) = (be_decode l + half256 (length l)) mod pow256 (length l).
Proof.
  destruct l as [|b l]; simpl; [lia|]. intros _.
  rewrite !be_decode_cons, u8_flip. rewrite pow256_S. unfold half256.
  replace (S (length l) - 1)%nat with (length l) by lia. fold (pow256 (length l)).
  pose proof (be_decode_range l) as Hr. fold (pow256 (length l)) in Hr.
  pose proof (u8_range b). set (p := pow256 (length l)) in *.
  destruct (Z.ltb_spec (u8 b) 128).
  - rewrite (Z.mod_small (u8 b + 128)) by lia. rewrite Z.mod_small by nia. lia.
  - replace (u8 b + 128) with (u8 b - 128 + 1 * 256) by lia.
    rewrite Z.mod_add, (Z.mod_small (u8 b - 128)) by lia.
    replace (u8 b * p + be_decode l + 128 * p)
      with ((u8 b - 128) * p + be_decode l + 1 * (256 * p)) by lia.
    rewrite Z.mod_add, Z.mod_small by nia. lia.
Qed.

Lemma flip_sign_involutive l : flip_sign (flip_sign l) = l.
Proof.
  destruct l as [|b l]; [done|]. simpl. f_equal. apply (inj u8). rewrite !u8_byte_of.
  destruct b; reflexivity.
Qed.

Lemma length_complement l : length (complement l) = length l.
Proof. apply length_fmap. Qed.

Lemma be_decode_complement l : be_decode (complement l) = pow256 (length l) - 1 - be_decode l.
Proof.
  induction l as [|b l IH]; [done|]. unfold complement in *. rewrite fmap_cons, !be_decode_cons, IH.
  rewrite length_fmap, u8_complement. cbn [length]. rewrite pow256_S.
  fold (pow256 (length l)). lia.
Qed.

Lemma be_decode_top b l : Z.land (u8 b) 128 = 0 <-> be_decode (b :: l) < half256 (length (b :: l)).
Proof.
  rewrite u8_top_bit, be_decode_cons. unfold half256. cbn [length].
  replace (S (length l) - 1)%nat with (length l) by lia.
  pose proof (be_decode_range l) as Hr. fold (pow256 (length l)) in *. nia.
Qed.

Lemma be_decode_zeros n : be_decode (replicate n x00) = 0.
Proof. induction n as [|n IH]; [done|]. cbn [replicate]. rewrite be_decode_cons, IH. done. Qed.

Lemma forallb_zero l : forallb (fun b => u8 b =? 0) l = true <-> be_decode l = 0.
Proof.
  induction l as [|b l IH]; [done|]. simpl. rewrite andb_true_iff, IH, Z.eqb_eq, be_decode_cons.
  pose proof (be_decode_range l). pose proof (u8_range b). nia.
Qed.

(** The signed magnitude of a float's bits: IEEE-754 order on non-NaN values is
    the integer order of this key, and both zeros have key 0. *)
Definition float_key (n : nat) (bits : Z) : Z :=
  if bits <? half256 n then bits else half256 n - bits.

(** The stored form of a key. *)
Definition stored_key (n : nat) (k : Z) : Z :=
  if 0 <=? k then half256 n + k else half256 n - 1 + k.

Lemma length_encode_float l : length (encode_float l) = length l.
Proof.
  destruct l as [|b l]; [done|]. unfold encode_float. repeat case_match; simpl;
    rewrite ?length_replicate, ?length_complement; done.
Qed.

Lemma be_decode_encode_float l : (0 < length l)%nat ->
  be_decode (encode_float l) = stored_key (length l) (float_key (length l) (be_decode l)).
Proof.
  destruct l as [|b l]; cbn [length]; [lia|]. intros _. unfold encode_float.
  pose proof (be_decode_top b l) as Htop.
  pose proof (be_decode_range (b :: l)) as Hr. fold (pow256 (length (b :: l))) in Hr.
  pose proof (half256_double (length (b :: l)) ltac:(simpl; lia)) as Hd.
  cbn [length] in Htop, Hr, Hd. unfold stored_key, float_key.
  set (h := half256 (S (length l))) in *.
  destruct (_ && _) eqn:E1.
  - apply andb_true_iff in E1 as [E1%Z.eqb_eq E2%forallb_zero].
    assert (be_decode (b :: l) = h) as ->.
    { rewrite be_decode_cons, E1, E2. unfold h, half256, pow256.
      replace (S (length l) - 1)%nat with (length l) by lia. lia. }
    rewrite be_decode_flip_sign by (rewrite length_replicate; simpl; lia).
    rewrite length_replicate. cbn [length]. rewrite be_decode_zeros. fold h.
    rewrite Z.ltb_irrefl, Z.sub_diag. simpl. rewrite Z.mod_small; lia.
  - destruct (Z.land (u8 b) 128 =? 0) eqn:E2.
    + apply Z.eqb_eq, Htop in E2.
      rewrite be_decode_flip_sign by (simpl; lia). cbn [length]. fold h.
      rewrite Z.mod_small by lia. rewrite (proj2 (Z.ltb_lt _ _) E2).
      rewrite (proj2 (Z.leb_le _ _)) by lia. lia.
    + apply Z.eqb_neq in E2. rewrite Htop in E2.
      rewrite be_decode_complement. cbn [length].
      rewrite (proj2 (Z.ltb_ge _ _)) by lia.
      assert (be_decode (b :: l) <> h) as Hne.
      { intros Heq. apply not_true_iff_false in E1. apply E1.
        rewrite be_decode_cons in Heq. unfold h, half256 in Heq.
        replace (S (length l) - 1)%nat with (length l) in Heq by lia.
        pose proof (be_decode_range l). fold (pow256 (length l)) in *.
        rewrite andb_true_iff, Z.eqb_eq, forallb_zero.
        assert (u8 b = 128) as Hb by (destruct (Z.lt_trichotomy (u8 b) 128) as [?|[?|?]]; nia).
        rewrite Hb in Heq. lia. }
      rewrite (proj2 (Z.leb_gt _ _)) by lia. lia.
Qed.

(** [decode_float] undoes [encode_float], up to the sign of zero. *)
Lemma decode_encode_float l : (0 < length l)%nat ->
  decode_float (encode_float l) =
  if be_decode l =? half256 (length l) then replicate (length l) x00 else l.
Proof.
  intros Hl. pose proof (be_decode_encode_float l Hl) as He.
  pose proof (length_encode_float l) as Hn.
  pose proof (half256_double _ Hl) as Hd.
  pose proof (be_decode_range l) as Hr. fold (pow256 (length l)) in Hr.
  assert (0 < half256 (length l)) as Hh by lia.
  destruct (encode_float l) as [|b e] eqn:E; [simpl in Hn; lia|]. rewrite <- E in *.
  assert (decode_float (encode_float l) =
    if be_decode (encode_float l) <? half256 (length l)
    then complement (encode_float l) else flip_sign (encode_float l)) as ->.
  { rewrite E. unfold decode_float. pose proof (be_decode_top b e) as Ht.
    rewrite <- E, Hn in Ht. rewrite <- E.
    destruct (Z.ltb_spec (be_decode (encode_float l)) (half256 (length l))) as [Hlt|Hge].
    - by rewrite (proj2 Ht Hlt).
    - rewrite (proj2 (Z.eqb_neq _ _)); [done|]. rewrite Ht. lia. }
  rewrite He. unfold stored_key, float_key.
  apply be_decode_inj.
  { repeat case_match; rewrite ?length_complement, ?length_flip_sign, ?length_replicate; done. }
  destruct (Z.ltb_spec (be_decode l) (half256 (length l))) as [Hlt|Hge].
  - rewrite (proj2 (Z.leb_le _ _)) by lia. rewrite (proj2 (Z.ltb_ge _ _)) by lia.
    rewrite be_decode_flip_sign, Hn, He by lia. unfold stored_key, float_key.
    rewrite (proj2 (Z.ltb_lt _ _) Hlt), (proj2 (Z.leb_le _ _)) by lia.
    rewrite (proj2 (Z.eqb_neq _ _)) by lia.
    replace (_ + _ + _) with (be_decode l + 1 * pow256 (length l)) by lia.
    rewrite Z.mod_add, Z.mod_small; lia.
  - destruct (Z.eqb_spec (be_decode l) (half256 (length l))) as [Heq|Hne].
    + rewrite Heq, Z.sub_diag. simpl. rewrite (proj2 (Z.ltb_ge _ _)) by lia.
      rewrite be_decode_flip_sign, Hn, He, be_decode_zeros by lia. unfold stored_key, float_key.
      rewrite Heq, Z.ltb_irrefl, Z.sub_diag. simpl.
      replace (_ + _ + _) with (0 + 1 * pow256 (length l)) by lia. by rewrite Z.mod_add, Z.mod_0_l by lia.
    + rewrite (proj2 (Z.leb_gt _ _)) by lia. rewrite (proj2 (Z.ltb_lt _ _)) by lia.
      rewrite be_decode_complement, Hn, He. unfold stored_key, float_key.
      rewrite (proj2 (Z.ltb_ge _ _)), (proj2 (Z.leb_gt _ _)) by lia. lia.
Qed.

(** ** Two's complement *)

(** [iN::from_be_bytes]; [to_be_bytes] is [be_encode], which wraps. *)
Definition int_from_be (l : bytes) : Z :=
  let z := be_decode l in
  if z <? half256 (length l) then z else z - pow256 (length l).

(** The range of an [n]-byte signed and unsigned integer. *)
Definition int_range (n : nat) (x : Z) : Prop := - half256 n <= x < half256 n.
Definition uint_range (n : nat) (x : Z) : Prop := 0 <= x < pow256 n.

Lemma be_decode_encode_mod n x : be_decode (be_encode n x) = x mod pow256 n.
Proof.
  rewrite <- be_encode_mod. apply be_decode_encode. apply Z.mod_pos_bound, pow256_pos.
Qed.

Lemma int_from_be_encode n x : (0 < n)%nat -> int_range n x -> int_from_be (be_encode n x) = x.
Proof.
  intros Hn Hx. unfold int_from_be, int_range in *. rewrite be_decode_encode_mod, length_be_encode.
  pose proof (half256_double n Hn). destruct (Z.ltb_spec x 0).
  - assert (x mod pow256 n = x + pow256 n) as ->.
    { replace x with (x + pow256 n + (-1) * pow256 n) at 1 by lia.
      rewrite Z.mod_add, Z.mod_small; lia. }
    rewrite (proj2 (Z.ltb_ge _ _)); lia.
  - rewrite Z.mod_small by lia. rewrite (proj2 (Z.ltb_lt _ _)); lia.
Qed.

(** The stored form of a signed integer is its offset from the least one. *)
Lemma be_decode_flip_int n x : (0 < n)%nat -> int_range n x ->
  be_decode (flip_sign (be_encode n x)) = x + half256 n.
Proof.
  intros Hn Hx. unfold int_range in Hx. pose proof (half256_double n Hn).
  rewrite be_decode_flip_sign by (rewrite length_be_encode; lia).
  rewrite length_be_encode, be_decode_encode_mod, Z.add_mod_idemp_l by lia.
  apply Z.mod_small. lia.
Qed.

Lemma cmp_flip_int n x y : (0 < n)%nat -> int_range n x -> int_range n y ->
  cmp (flip_sign (be_encode n x)) (flip_sign (be_encode n y)) = Z.compare x y.
Proof.
  intros Hn Hx Hy. rewrite be_cmp by (rewrite !length_flip_sign, !length_be_encode; done).
  rewrite !be_decode_flip_int, !(Z.add_comm _ (half256 n)) by done. apply Z.add_compare_mono_l.
Qed.

Lemma cmp_be_encode n x y : uint_range n x -> uint_range n y ->
  cmp (be_encode n x) (be_encode n y) = Z.compare x y.
Proof.
  intros Hx Hy. rewrite be_cmp by (rewrite !length_be_encode; done).
  by rewrite !be_decode_encode.
Qed.

Lemma cmp_encode_float (a b : bytes) : (0 < length a)%nat -> length a = length b ->
  cmp (encode_float a) (encode_float b) =
  Z.compare (float_key (length a) (be_decode a)) (float_key (length b) (be_decode b)).
Proof.
  intros Ha Hab. rewrite be_cmp by (rewrite !length_encode_float; done).
  rewrite !be_decode_encode_float, <- Hab by lia.
  generalize (float_key (length a) (be_decode a)) (float_key (length a) (be_decode b)).
  intros x y. unfold stored_key.
  destruct (Z.leb_spec 0 x), (Z.leb_spec 0 y);
    destruct (Z.compare_spec x y); rewrite ?Z.compare_eq_iff, ?Z.compare_lt_iff, ?Z.compare_gt_iff; lia.
Qed.

(** What [CellType_validate] accepts: the exact width of a fixed-width type. *)
Lemma validate_length ty value n :
  CellType_validate ty value = Ok () -> CellType_width ty = Some n -> length value = n.
Proof.
  unfold CellType_validate. intros Hv Hw. rewrite Hw in Hv.
  destruct (length value =? n)%nat eqn:E; [by apply Nat.eqb_eq|done].
Qed.

Lemma validate_fixed ty value n :
  CellType_width ty = Some n -> length value = n -> ty <> Bool -> (forall w, ty <> Float w) ->
  CellType_validate ty value = Ok ().
Proof.
  unfold CellType_validate. intros -> <- Hb Hf. rewrite Nat.eqb_refl. simpl.
  destruct ty; naive_solver.
Qed.

(** Validation never panics: the width check precedes the indexing. *)
Lemma validate_no_panic ty value :
  CellType_validate ty value <> Panic /\ CellType_validate ty value <> Diverge.
Proof.
  unfold CellType_validate. destruct (CellType_width ty) as [n|] eqn:E; [|repeat case_match; done].
  destruct (length value =? n)%nat eqn:El; [|done]. simpl.
  destruct ty; try done; simpl in *; simplify_eq; [destruct value; [done|]|]; repeat case_match; done.
Qed.

(** Every 4- or 8-byte float that is no NaN has a valid stored form. *)
Lemma validate_encode_float w l :
  length l = FloatWidth_bytes w -> is_nan w (be_decode l) = false ->
  CellType_validate (Float w) (encode_float l) = Ok ().
Proof.
  intros Hl Hn. assert (0 < length l)%nat as Hpos by (rewrite Hl; destruct w; simpl; lia).
  assert (sign_bit w = half256 (length l)) as Hs by (rewrite Hl; by destruct w).
  unfold CellType_validate.
  replace (CellType_width (Float w)) with (Some (length l)) by (rewrite Hl; by destruct w).
  rewrite length_encode_float, Nat.eqb_refl. simpl. rewrite decode_encode_float by done.
  unfold is_negative_zero. rewrite Hs.
  destruct (Z.eqb_spec (be_decode l) (half256 (length l))) as [E|E].
  - rewrite be_decode_zeros.
    assert (is_nan w 0 = false) as -> by (by destruct w).
    rewrite (proj2 (Z.eqb_neq _ _)); [done|]. pose proof (half256_double _ Hpos).
    pose proof (pow256_pos (length l)). lia.
  - rewrite Hn. by rewrite (proj2 (Z.eqb_neq _ _) E).
Qed.

(** ** IEEE-754 comparison *)

(** Bits of the fraction field, and the exponent of the least subnormal. *)
Definition fraction_bits (w : FloatWidth) : Z := match w with F32 => 23 | F64 => 52 end.
Definition least_exponent (w : FloatWidth) : Z := match w with F32 => -149 | F64 => -1074 end.

(** The number that the bits of a float stand for: sign, exponent field and
    fraction field, with the hidden bit of a normal number. *)
Definition float_of_bits (w : FloatWidth) (bits : Z) : spec_float :=
  let s := sign_bit w <=? bits in
  let m := bits mod sign_bit w in
  let exponent := m / 2 ^ fraction_bits w in
  let fraction := m mod 2 ^ fraction_bits w in
  if infinity_bits w <? m then S754_nan
  else if m =? infinity_bits w then S754_infinity s
  else if m =? 0 then S754_zero s
  else if exponent =? 0 then S754_finite s (Z.to_pos fraction) (least_exponent w)
  else S754_finite s (Z.to_pos (2 ^ fraction_bits w + fraction)) (least_exponent w + exponent - 1).

Definition ieee_compare (w : FloatWidth) (x y : Z) : option comparison := SFcompare (float_of_bits w x) (float_of_bits w y).

(** The exponent and significand of a magnitude compare as the magnitude. *)
Lemma magnitude_compare (w : FloatWidth) (a b : Z) : 0 < a -> 0 < b ->
  let P := 2 ^ fraction_bits w in
  let exp m := if m / P =? 0 then least_exponent w else least_exponent w + m / P - 1 in
  let sig m := if m / P =? 0 then m mod P else P + m mod P in
  0 < sig a /\ match Z.compare (exp a) (exp b) with Eq => Z.compare (sig a) (sig b) | c => c end = Z.compare a b.
Proof.
  intros Ha Hb P exp sig. assert (0 < P) as HP by (by destruct w).
  pose proof (Z.div_mod a P ltac:(lia)) as Ea. pose proof (Z.div_mod b P ltac:(lia)) as Eb.
  pose proof (Z.mod_pos_bound a P HP). pose proof (Z.mod_pos_bound b P HP).
  pose proof (Z.div_pos a P ltac:(lia) HP). pose proof (Z.div_pos b P ltac:(lia) HP).
  unfold exp, sig. clearbody P. set (qa := a / P) in *. set (qb := b / P) in *. set (ra := a mod P) in *. set (rb := b mod P) in *.
  clearbody qa qb ra rb. clear exp sig. subst a b. assert (qa < qb -> P * qa + ra < P * qb + rb) by nia. assert (qb < qa -> P * qb + rb < P * qa + ra) by nia.
  split; [destruct (Z.eqb_spec qa 0); nia|].
  destruct (Z.eqb_spec qa 0) as [->|], (Z.eqb_spec qb 0) as [->|];
    repeat match goal with |- context [Z.compare ?u ?v] => destruct (Z.compare_spec u v) end; try done; nia.
Qed.

(** What the bits of a magnitude stand for. *)
Lemma float_of_magnitude (w : FloatWidth) (s : bool) (m : Z) : 0 <= m <= infinity_bits w ->
  float_of_bits w (if s then sign_bit w + m else m) =
  (let P := 2 ^ fraction_bits w in
   if m =? infinity_bits w then S754_infinity s
   else if m =? 0 then S754_zero s
   else S754_finite s (Z.to_pos (if m / P =? 0 then m mod P else P + m mod P)) (if m / P =? 0 then least_exponent w else least_exponent w + m / P - 1)).
Proof.
  intros Hm. assert (0 < infinity_bits w < sign_bit w) as Hw by (destruct w; vm_compute; split; reflexivity). unfold float_of_bits.
  assert ((if s then sign_bit w + m else m) mod sign_bit w = m) as ->.
  { destruct s; [|apply Z.mod_small; lia]. replace (sign_bit w + m) with (m + 1 * sign_bit w) by lia. rewrite Z.mod_add by lia. apply Z.mod_small. lia. }
  assert ((sign_bit w <=? (if s then sign_bit w + m else m)) = s) as -> by (destruct s; [apply Z.leb_le|apply Z.leb_gt]; lia).
  rewrite (proj2 (Z.ltb_ge _ _)) by lia. cbv zeta. destruct (m =? infinity_bits w), (m =? 0), (m / 2 ^ fraction_bits w =? 0); done.
Qed.

Lemma infinity_magnitude w : 0 < infinity_bits w /\ infinity_bits w =? 0 = false.
Proof. by destruct w. Qed.

(** Two numbers given by sign and magnitude. *)
Lemma signed_compare (w : FloatWidth) (s t : bool) (a b : Z) : 0 <= a <= infinity_bits w -> 0 <= b <= infinity_bits w ->
  ieee_compare w (if s then sign_bit w + a else a) (if t then sign_bit w + b else b) =
  Some (Z.compare (if s then - a else a) (if t then - b else b)).
Proof.
  intros Ha Hb. unfold ieee_compare. rewrite !float_of_magnitude by done. cbv zeta. pose proof (proj1 (infinity_magnitude w)) as Hi.
  destruct (Z.eqb_spec a (infinity_bits w)) as [Ea|Ea], (Z.eqb_spec b (infinity_bits w)) as [Eb|Eb];
    [|destruct (Z.eqb_spec b 0) as [Zb|Zb]|destruct (Z.eqb_spec a 0) as [Za|Za]|destruct (Z.eqb_spec a 0) as [Za|Za], (Z.eqb_spec b 0) as [Zb|Zb]];
    cbn [SFcompare]; f_equal.
  9: { pose proof (magnitude_compare w a b ltac:(lia) ltac:(lia)) as [Sa Hc]. pose proof (magnitude_compare w b a ltac:(lia) ltac:(lia)) as [Sb _].
    cbv zeta in *. change (Pos.compare_cont Eq) with Pos.compare. rewrite Pos2Z.inj_compare, !Z2Pos.id by done.
    destruct s, t; [| | |exact Hc].
    - rewrite Z.compare_opp, (Z.compare_antisym a b), <- Hc. by destruct (Z.compare _ _).
    - symmetry. apply Z.compare_lt_iff. lia.
    - symmetry. apply Z.compare_gt_iff. lia. }
  all: destruct s, t; symmetry; rewrite ?Z.compare_eq_iff, ?Z.compare_lt_iff, ?Z.compare_gt_iff; lia.
Qed.

(** Numbers compare as the signed magnitudes of their bits. *)
Lemma ieee_compare_key w x y : uint_range (FloatWidth_bytes w) x -> uint_range (FloatWidth_bytes w) y -> is_nan w x = false -> is_nan w y = false ->
  ieee_compare w x y = Some (Z.compare (float_key (FloatWidth_bytes w) x) (float_key (FloatWidth_bytes w) y)).
Proof.
  assert (sign_bit w = half256 (FloatWidth_bytes w)) as Es by (by destruct w).
  pose proof (half256_double (FloatWidth_bytes w) ltac:(destruct w; cbn; lia)) as Hd.
  assert (forall z, uint_range (FloatWidth_bytes w) z -> is_nan w z = false ->
    exists (s : bool) m, 0 <= m <= infinity_bits w /\ z = (if s then sign_bit w + m else m) /\ float_key (FloatWidth_bytes w) z = if s then - m else m) as Hz.
  { intros z Hr Hn. unfold uint_range in Hr. unfold is_nan in Hn. apply Z.ltb_ge in Hn. unfold float_key. rewrite <- Es in *.
    pose proof (Z.mod_pos_bound z (sign_bit w) ltac:(lia)). destruct (Z.ltb_spec z (sign_bit w)) as [Hlt|Hge].
    - exists false, z. rewrite Z.mod_small in Hn by lia. split; [lia|done].
    - exists true, (z - sign_bit w). replace z with (z - sign_bit w + 1 * sign_bit w) in Hn by lia.
      rewrite Z.mod_add, Z.mod_small in Hn by lia. split; [lia|]. split; lia. }
  intros Hx Hy Nx Ny. destruct (Hz x Hx Nx) as (s & a & Ha & -> & ->), (Hz y Hy Ny) as (t & b & Hb & -> & ->). by apply signed_compare.
Qed.

(** Sign-flipped bytes compare as the integers they stand for. *)
Lemma cmp_flip_be (a b : bytes) : (0 < length a)%nat -> length a = length b ->
  cmp (flip_sign a) (flip_sign b) = Z.compare (int_from_be a) (int_from_be b).
Proof.
  intros Ha Hab. assert (forall l, length l = length a -> be_decode (flip_sign l) = half256 (length a) + int_from_be l) as Hl.
  { intros l El. rewrite be_decode_flip_sign, El by lia. unfold int_from_be. rewrite El. pose proof (half256_double _ Ha) as Hd.
    pose proof (be_decode_range l) as Hr. rewrite El in Hr. fold (pow256 (length a)) in Hr. destruct (Z.ltb_spec (be_decode l) (half256 (length a))).
    - rewrite Z.mod_small; lia.
    - replace (be_decode l + half256 (length a)) with (be_decode l - half256 (length a) + 1 * pow256 (length a)) by lia.
      rewrite Z.mod_add, Z.mod_small; lia. }
  rewrite be_cmp by (by rewrite !length_flip_sign). rewrite !Hl by congruence. apply Z.add_compare_mono_l.
Qed.
