(* ===== verification/CellValue.v ===== *)
(** Cell values: crates/cells/src/value.rs.

    [CellValueRef] borrows a payload, [CellValue] owns the complete encoding
    [typeTag ‖ value]. Both carry the decoded type. The private fields of the
    source are only filled by [parse], [new] and the typed constructors; that
    they always hold a valid encoding is [CellValue_wf], kept by every
    operation below. Under it the byte at index 0 exists, so the source's
    [bytes[0]] and [bytes[1..]] do not panic; they are [hd] and [tail] here. *)
From Stdlib Require Import ZArith Lia.
From S2P Require Import Prelude Ordered CellTypes.

#[local] Open Scope Z_scope.

(** [INDEXABLE_BIT] and [TYPE_MASK] (lib.rs) *)
Definition INDEXABLE_BIT : Z := 0x80.
Definition TYPE_MASK : Z := 0x7F.

(** * Borrowed values *)

Record CellValueRef := {
  cr_ty : CellType;
  cr_value : bytes;
  cr_indexable : bool
}.

#[global] Instance CellValueRef_eq_dec : EqDecision CellValueRef.
Proof. solve_decision. Defined.

(** [CellValueRef::new] *)
Definition CellValueRef_new (ty : CellType) (value : bytes) (indexable : bool)
    : res CellValueParseError CellValueRef :=
  if indexable && bool_decide (ty = Bytes) then Err NotIndexable
  else
    _ ← CellType_validate ty value;
    Ok {| cr_ty := ty; cr_value := value; cr_indexable := indexable |}.

(** [CellValueRef::parse] *)
Definition CellValueRef_parse (l : bytes) : res CellValueParseError CellValueRef :=
  match l with
  | [] => Err Empty
  | metadata :: value =>
      ty ← CellType_from_id (Z.land (u8 metadata) TYPE_MASK);
      CellValueRef_new ty value (negb (Z.land (u8 metadata) INDEXABLE_BIT =? 0))
  end.

(** [CellValueRef::metadata] *)
Definition CellValueRef_metadata (v : CellValueRef) : byte :=
  byte_of (Z.lor (CellType_id (cr_ty v)) (if cr_indexable v then INDEXABLE_BIT else 0)).

(** [encode] and [encode_into] *)
Definition CellValueRef_encode_into (v : CellValueRef) (out : bytes) : bytes :=
  out ++ [CellValueRef_metadata v] ++ cr_value v.
Definition CellValueRef_encode (v : CellValueRef) : bytes := CellValueRef_encode_into v [].

Definition CellValueRef_kind (v : CellValueRef) : CellKind :=
  if cr_indexable v then Attribute else Field.

(** [exact]: the value if the cell has the wanted type. *)
Definition exact (v : CellValueRef) (want : CellType) : option bytes :=
  if decide (cr_ty v = want) then Some (cr_value v) else None.

Definition ref_as_bool (v : CellValueRef) : option bool :=
  (fun l => match l with b :: _ => u8 b =? 1 | [] => false end) <$> exact v Bool.

Definition ref_as_str (v : CellValueRef) : option bytes :=
  match cr_ty v with
  | Str => if is_utf8 (cr_value v) then Some (cr_value v) else None
  | _ => None
  end.

Definition ref_as_bytes (v : CellValueRef) : option bytes := exact v Bytes.
Definition ref_as_bytes4 (v : CellValueRef) : option bytes := exact v (FixedBytes W4).
Definition ref_as_bytes8 (v : CellValueRef) : option bytes := exact v (FixedBytes W8).
Definition ref_as_bytes16 (v : CellValueRef) : option bytes := exact v (FixedBytes W16).
Definition ref_as_bytes20 (v : CellValueRef) : option bytes := exact v (Bytes20).
Definition ref_as_bytes32 (v : CellValueRef) : option bytes := exact v (FixedBytes W32).

Definition ref_as_u32 (v : CellValueRef) : option Z := be_decode <$> exact v (Uint W4).
Definition ref_as_u64 (v : CellValueRef) : option Z := be_decode <$> exact v (Uint W8).
Definition ref_as_u128 (v : CellValueRef) : option Z := be_decode <$> exact v (Uint W16).
(** Big-endian; there is no [u256]. *)
Definition ref_as_u256_be (v : CellValueRef) : option bytes := exact v (Uint W32).

(** Signed types are stored sign-flipped; these flip back. *)
Definition ref_as_i32 (v : CellValueRef) : option Z :=
  (fun l => int_from_be (flip_sign l)) <$> exact v (Int W4).
Definition ref_as_i64 (v : CellValueRef) : option Z :=
  (fun l => int_from_be (flip_sign l)) <$> exact v (Int W8).
Definition ref_as_i128 (v : CellValueRef) : option Z :=
  (fun l => int_from_be (flip_sign l)) <$> exact v (Int W16).
Definition ref_as_i256_be (v : CellValueRef) : option bytes := flip_sign <$> exact v (Int W32).

Definition ref_as_dec32_unscaled (v : CellValueRef) : option Z :=
  (fun l => int_from_be (flip_sign l)) <$> exact v (Decimal W4).
Definition ref_as_dec64_unscaled (v : CellValueRef) : option Z :=
  (fun l => int_from_be (flip_sign l)) <$> exact v (Decimal W8).
Definition ref_as_dec128_unscaled (v : CellValueRef) : option Z :=
  (fun l => int_from_be (flip_sign l)) <$> exact v (Decimal W16).
Definition ref_as_dec256_unscaled_be (v : CellValueRef) : option bytes :=
  flip_sign <$> exact v (Decimal W32).

(** Floats are their IEEE-754 bits. *)
Definition ref_as_f32 (v : CellValueRef) : option Z :=
  (fun l => be_decode (decode_float l)) <$> exact v (Float F32).
Definition ref_as_f64 (v : CellValueRef) : option Z :=
  (fun l => be_decode (decode_float l)) <$> exact v (Float F64).

Definition ref_as_date32 (v : CellValueRef) : option Z :=
  (fun l => int_from_be (flip_sign l)) <$> exact v Date32.
Definition ref_as_timestamp64 (v : CellValueRef) : option Z :=
  (fun l => int_from_be (flip_sign l)) <$> exact v Timestamp64.

(** * Owned values *)

Record CellValue := {
  cv_bytes : bytes;
  cv_ty : CellType
}.

#[global] Instance CellValue_eq_dec : EqDecision CellValue.
Proof. solve_decision. Defined.

(** [CellValue::parse] *)
Definition CellValue_parse (l : bytes) : res CellValueParseError CellValue :=
  v ← CellValueRef_parse l;
  Ok {| cv_bytes := l; cv_ty := cr_ty v |}.

Definition CellValue_metadata (v : CellValue) : byte := hd x00 (cv_bytes v).

Definition CellValue_is_indexable (v : CellValue) : bool :=
  negb (Z.land (u8 (hd x00 (cv_bytes v))) INDEXABLE_BIT =? 0).

Definition CellValue_value (v : CellValue) : bytes := tail (cv_bytes v).

(** [CellValue::as_view] *)
Definition as_view (v : CellValue) : CellValueRef :=
  {| cr_ty := cv_ty v;
     cr_value := tail (cv_bytes v);
     cr_indexable := negb (Z.land (u8 (hd x00 (cv_bytes v))) INDEXABLE_BIT =? 0) |}.

Definition CellValue_kind (v : CellValue) : CellKind := CellValueRef_kind (as_view v).

(** [CellValue::with_kind]: only the metadata byte is replaced. *)
Definition with_kind (v : CellValue) (kind : CellKind) : res CellValueParseError CellValue :=
  if bool_decide (kind = Attribute) && bool_decide (cv_ty v = Bytes) then Err NotIndexable
  else
    let tag := Z.lor (CellType_id (cv_ty v)) (match kind with Field => 0 | Attribute => INDEXABLE_BIT end) in
    Ok {| cv_bytes := byte_of tag :: tail (cv_bytes v); cv_ty := cv_ty v |}.

(** [From<CellValueRef> for CellValue] *)
Definition to_owned (v : CellValueRef) : CellValue :=
  {| cv_bytes := CellValueRef_encode v; cv_ty := cr_ty v |}.

(** ** Typed accessors *)

Definition as_bool (v : CellValue) : option bool := ref_as_bool (as_view v).
Definition as_str (v : CellValue) : option bytes := ref_as_str (as_view v).
Definition as_bytes (v : CellValue) : option bytes := ref_as_bytes (as_view v).
Definition as_bytes4 (v : CellValue) : option bytes := ref_as_bytes4 (as_view v).
Definition as_bytes8 (v : CellValue) : option bytes := ref_as_bytes8 (as_view v).
Definition as_bytes16 (v : CellValue) : option bytes := ref_as_bytes16 (as_view v).
Definition as_bytes20 (v : CellValue) : option bytes := ref_as_bytes20 (as_view v).
Definition as_bytes32 (v : CellValue) : option bytes := ref_as_bytes32 (as_view v).
Definition as_u32 (v : CellValue) : option Z := ref_as_u32 (as_view v).
Definition as_u64 (v : CellValue) : option Z := ref_as_u64 (as_view v).
Definition as_u128 (v : CellValue) : option Z := ref_as_u128 (as_view v).
Definition as_u256_be (v : CellValue) : option bytes := ref_as_u256_be (as_view v).
Definition as_i32 (v : CellValue) : option Z := ref_as_i32 (as_view v).
Definition as_i64 (v : CellValue) : option Z := ref_as_i64 (as_view v).
Definition as_i128 (v : CellValue) : option Z := ref_as_i128 (as_view v).
Definition as_i256_be (v : CellValue) : option bytes := ref_as_i256_be (as_view v).
Definition as_dec32_unscaled (v : CellValue) : option Z := ref_as_dec32_unscaled (as_view v).
Definition as_dec64_unscaled (v : CellValue) : option Z := ref_as_dec64_unscaled (as_view v).
Definition as_dec128_unscaled (v : CellValue) : option Z := ref_as_dec128_unscaled (as_view v).
Definition as_dec256_unscaled_be (v : CellValue) : option bytes := ref_as_dec256_unscaled_be (as_view v).
Definition as_f32 (v : CellValue) : option Z := ref_as_f32 (as_view v).
Definition as_f64 (v : CellValue) : option Z := ref_as_f64 (as_view v).
Definition as_date32 (v : CellValue) : option Z := ref_as_date32 (as_view v).
Definition as_timestamp64 (v : CellValue) : option Z := ref_as_timestamp64 (as_view v).

(** ** Typed constructors *)

(** [field_from_typed] *)
Definition field_from_typed (ty : CellType) (value : bytes) : CellValue :=
  to_owned {| cr_ty := ty; cr_value := value; cr_indexable := false |}.

Definition from_bool (value : bool) : CellValue :=
  field_from_typed Bool [if value then x01 else x00].
(** The argument is the UTF-8 text of a [&str]. *)
Definition from_str (value : bytes) : CellValue := field_from_typed Str value.
Definition from_bytes (value : bytes) : CellValue := field_from_typed Bytes value.
Definition from_bytes4 (value : bytes) : CellValue := field_from_typed (FixedBytes W4) value.
Definition from_bytes8 (value : bytes) : CellValue := field_from_typed (FixedBytes W8) value.
Definition from_bytes16 (value : bytes) : CellValue := field_from_typed (FixedBytes W16) value.
Definition from_bytes20 (value : bytes) : CellValue := field_from_typed (Bytes20) value.
Definition from_bytes32 (value : bytes) : CellValue := field_from_typed (FixedBytes W32) value.
Definition from_u32 (value : Z) : CellValue := field_from_typed (Uint W4) (be_encode 4 value).
Definition from_u64 (value : Z) : CellValue := field_from_typed (Uint W8) (be_encode 8 value).
Definition from_u128 (value : Z) : CellValue := field_from_typed (Uint W16) (be_encode 16 value).
Definition from_u256_be (value : bytes) : CellValue := field_from_typed (Uint W32) value.
Definition from_i32 (value : Z) : CellValue := field_from_typed (Int W4) (flip_sign (be_encode 4 value)).
Definition from_i64 (value : Z) : CellValue := field_from_typed (Int W8) (flip_sign (be_encode 8 value)).
Definition from_i128 (value : Z) : CellValue := field_from_typed (Int W16) (flip_sign (be_encode 16 value)).
Definition from_i256_be (value : bytes) : CellValue := field_from_typed (Int W32) (flip_sign value).
Definition from_dec32_unscaled (value : Z) : CellValue :=
  field_from_typed (Decimal W4) (flip_sign (be_encode 4 value)).
Definition from_dec64_unscaled (value : Z) : CellValue :=
  field_from_typed (Decimal W8) (flip_sign (be_encode 8 value)).
Definition from_dec128_unscaled (value : Z) : CellValue :=
  field_from_typed (Decimal W16) (flip_sign (be_encode 16 value)).
Definition from_dec256_unscaled_be (value : bytes) : CellValue :=
  field_from_typed (Decimal W32) (flip_sign value).
Definition from_f32 (bits : Z) : res CellValueParseError CellValue :=
  if is_nan F32 bits then Err FloatNaN
  else Ok (field_from_typed (Float F32) (encode_float (be_encode 4 bits))).
Definition from_f64 (bits : Z) : res CellValueParseError CellValue :=
  if is_nan F64 bits then Err FloatNaN
  else Ok (field_from_typed (Float F64) (encode_float (be_encode 8 bits))).
Definition from_date32 (days : Z) : CellValue := field_from_typed Date32 (flip_sign (be_encode 4 days)).
Definition from_timestamp64 (us : Z) : CellValue :=
  field_from_typed Timestamp64 (flip_sign (be_encode 8 us)).

(** * Well-formed values *)

(** A view that [new] accepts. *)
Definition CellValueRef_wf (v : CellValueRef) : Prop :=
  CellValueRef_new (cr_ty v) (cr_value v) (cr_indexable v) = Ok v.

(** An owned value whose bytes parse, to the type it carries. *)
Definition CellValue_wf (v : CellValue) : Prop := CellValue_parse (cv_bytes v) = Ok v.

Lemma metadata_type ty i :
  Z.land (u8 (byte_of (Z.lor (CellType_id ty) (if i : bool then INDEXABLE_BIT else 0)))) TYPE_MASK
  = CellType_id ty.
Proof. by destruct ty as [| | | |[]|[]|[]|[]|[]| |], i. Qed.

Lemma metadata_indexable ty i :
  negb (Z.land (u8 (byte_of (Z.lor (CellType_id ty) (if i : bool then INDEXABLE_BIT else 0)))) INDEXABLE_BIT =? 0)
  = i.
Proof. by destruct ty as [| | | |[]|[]|[]|[]|[]| |], i. Qed.

(** A metadata byte is its type id and its indexable bit. *)
Lemma metadata_split b :
  byte_of (Z.lor (Z.land (u8 b) TYPE_MASK)
             (if negb (Z.land (u8 b) INDEXABLE_BIT =? 0) then INDEXABLE_BIT else 0)) = b.
Proof. by destruct b. Qed.

Lemma CellValueRef_new_eq ty value i v :
  CellValueRef_new ty value i = Ok v -> v = {| cr_ty := ty; cr_value := value; cr_indexable := i |}.
Proof.
  unfold CellValueRef_new. destruct (_ && _); [done|]. intros. inv_ok. done.
Qed.

Lemma CellValueRef_parse_new l v :
  CellValueRef_parse l = Ok v -> CellValueRef_wf v /\ CellValueRef_encode v = l.
Proof.
  destruct l as [|b value]; [done|]. unfold CellValueRef_parse. intros Hp. inv_ok.
  match goal with H : CellType_from_id _ = Ok ?t |- _ => rename t into ty; pose proof H as Hid end.
  match goal with H : CellValueRef_new _ _ _ = Ok _ |- _ => pose proof (CellValueRef_new_eq _ _ _ _ H); subst v; rename H into Hn end.
  split; [exact Hn|]. unfold CellValueRef_encode, CellValueRef_encode_into, CellValueRef_metadata. simpl.
  apply CellType_id_from_id in Hid. by rewrite Hid, metadata_split.
Qed.

Lemma CellValueRef_parse_encode v : CellValueRef_wf v -> CellValueRef_parse (CellValueRef_encode v) = Ok v.
Proof.
  destruct v as [ty value i]. unfold CellValueRef_wf, CellValueRef_encode, CellValueRef_encode_into, CellValueRef_metadata.
  simpl. intros Hn. by rewrite metadata_type, CellType_from_id_id, metadata_indexable.
Qed.

Lemma as_view_to_owned v : as_view (to_owned v) = v.
Proof.
  destruct v as [ty value i]. unfold as_view, to_owned, CellValueRef_encode, CellValueRef_encode_into, CellValueRef_metadata.
  simpl. by rewrite metadata_indexable.
Qed.

Lemma to_owned_wf v : CellValueRef_wf v -> CellValue_wf (to_owned v).
Proof.
  intros Hv. unfold CellValue_wf, CellValue_parse, to_owned. cbn [cv_bytes]. rewrite CellValueRef_parse_encode by done.
  done.
Qed.

Lemma as_view_wf v : CellValue_wf v -> CellValueRef_wf (as_view v) /\ to_owned (as_view v) = v.
Proof.
  destruct v as [l ty]. unfold CellValue_wf, CellValue_parse. simpl. intros Hp. inv_ok.
  match goal with H : CellValueRef_parse _ = Ok ?r |- _ => rename r into v; rename H into Hr end.
  simplify_eq. pose proof (CellValueRef_parse_new _ _ Hr) as [Hwf Henc].
  assert (as_view {| cv_bytes := l; cv_ty := cr_ty v |} = v) as Hv.
  { rewrite <- Henc. apply as_view_to_owned. }
  rewrite Hv. split; [done|]. unfold to_owned. by rewrite Henc.
Qed.

Lemma field_wf ty value : CellType_validate ty value = Ok () -> CellValue_wf (field_from_typed ty value).
Proof. intros Hv. apply to_owned_wf. unfold CellValueRef_wf, CellValueRef_new. simpl. by rewrite Hv. Qed.

Lemma exact_field ty value : exact (as_view (field_from_typed ty value)) ty = Some value.
Proof. unfold field_from_typed. rewrite as_view_to_owned. unfold exact. simpl. by rewrite decide_True. Qed.

Lemma value_field ty value : CellValue_value (field_from_typed ty value) = value.
Proof. done. Qed.

Lemma exact_wf v ty n :
  CellValueRef_wf v -> CellType_width ty = Some n -> forall l, exact v ty = Some l -> length l = n.
Proof.
  unfold CellValueRef_wf, CellValueRef_new, exact. intros Hw Hn l Hl. case_decide; simplify_eq.
  destruct (_ && _); [done|]. inv_ok. destruct x. by eapply validate_length.
Qed.

(** [with_kind] keeps the type and payload and sets exactly the kind. *)
Lemma with_kind_spec v kind v' : CellValue_wf v -> with_kind v kind = Ok v' ->
  CellValue_wf v' /\ cv_ty v' = cv_ty v /\ CellValue_value v' = CellValue_value v /\
  CellValue_kind v' = kind.
Proof.
  intros Hwf. unfold with_kind. destruct (_ && _) eqn:Eb; [done|]. intros [= <-].
  assert (match kind with Field => 0 | Attribute => INDEXABLE_BIT end
          = if bool_decide (kind = Attribute) then INDEXABLE_BIT else 0) as -> by (by destruct kind).
  set (i := bool_decide (kind = Attribute)) in *.
  set (r := {| cr_ty := cv_ty v; cr_value := CellValue_value v; cr_indexable := i |}).
  change (CellValue_wf (to_owned r) /\ cv_ty v = cv_ty v /\ CellValue_value v = CellValue_value v
    /\ CellValue_kind (to_owned r) = kind).
  split_and!; try done.
  - apply to_owned_wf. apply as_view_wf in Hwf as [Hwf _].
    unfold CellValueRef_wf, CellValueRef_new in *. simpl in *. rewrite Eb.
    destruct (_ && _) in Hwf; [done|]. unfold CellValue_value.
    by destruct (CellType_validate (cv_ty v) (tail (cv_bytes v))) as [[]| | |].
  - unfold CellValue_kind. rewrite as_view_to_owned. unfold CellValueRef_kind, r, i. by destruct kind.
Qed.

(** A well-formed field of the given type. *)
Definition is_field (ty : CellType) (v : CellValue) : Prop :=
  CellValue_wf v /\ cv_ty v = ty /\ CellValue_kind v = Field.

Lemma field_is_field ty value : CellType_validate ty value = Ok () -> is_field ty (field_from_typed ty value).
Proof. intros Hv. split; [by apply field_wf|]. split; [done|]. unfold CellValue_kind, field_from_typed. by rewrite as_view_to_owned. Qed.

Lemma fixed_field ty value n : CellType_width ty = Some n -> length value = n -> ty <> Bool -> (forall w, ty <> Float w) ->
  is_field ty (field_from_typed ty value).
Proof. intros. apply field_is_field. by eapply validate_fixed. Qed.

Lemma int_field ty n x : CellType_width ty = Some n -> ty <> Bool -> (forall w, ty <> Float w) ->
  is_field ty (field_from_typed ty (flip_sign (be_encode n x))).
Proof. intros. eapply fixed_field; [done| |done..]. by rewrite length_flip_sign, length_be_encode. Qed.

(** Integers and floats read back. *)
Lemma exact_int ty n x : (0 < n)%nat -> int_range n x ->
  (fun l => int_from_be (flip_sign l)) <$> exact (as_view (field_from_typed ty (flip_sign (be_encode n x)))) ty = Some x.
Proof. intros Hn Hx. rewrite exact_field. cbn [fmap option_fmap option_map]. by rewrite flip_sign_involutive, int_from_be_encode. Qed.

Lemma exact_uint ty n x : uint_range n x -> be_decode <$> exact (as_view (field_from_typed ty (be_encode n x))) ty = Some x.
Proof. intros Hx. rewrite exact_field. cbn [fmap option_fmap option_map]. by rewrite be_decode_encode. Qed.

Lemma exact_flipped ty l : flip_sign <$> exact (as_view (field_from_typed ty (flip_sign l))) ty = Some l.
Proof. rewrite exact_field. cbn [fmap option_fmap option_map]. by rewrite flip_sign_involutive. Qed.

Lemma exact_float w x : uint_range (FloatWidth_bytes w) x ->
  (fun l => be_decode (decode_float l)) <$> exact (as_view (field_from_typed (Float w) (encode_float (be_encode (FloatWidth_bytes w) x)))) (Float w)
  = Some (if is_negative_zero w x then 0 else x).
Proof.
  intros Hx. assert (0 < FloatWidth_bytes w)%nat as Hn by (destruct w; cbn; lia). rewrite exact_field. cbn [fmap option_fmap option_map].
  rewrite decode_encode_float, length_be_encode, be_decode_encode by (rewrite ?length_be_encode; done). unfold is_negative_zero.
  assert (sign_bit w = half256 (FloatWidth_bytes w)) as -> by (by destruct w). destruct (x =? _); [by rewrite be_decode_zeros|by rewrite be_decode_encode].
Qed.

Lemma float_field w x : uint_range (FloatWidth_bytes w) x -> is_nan w x = false ->
  is_field (Float w) (field_from_typed (Float w) (encode_float (be_encode (FloatWidth_bytes w) x))).
Proof. intros Hx Hn. apply field_is_field, validate_encode_float; [apply length_be_encode|by rewrite be_decode_encode]. Qed.

(** Stored floats compare by the signed magnitudes of their bits. *)
Lemma cmp_float n x y : (0 < n)%nat -> uint_range n x -> uint_range n y ->
  cmp (encode_float (be_encode n x)) (encode_float (be_encode n y)) = Z.compare (float_key n x) (float_key n y).
Proof. intros Hn Hx Hy. rewrite cmp_encode_float by (rewrite !length_be_encode; done). by rewrite !length_be_encode, !be_decode_encode. Qed.

(** * Properties *)

(** C38. The wire format is canonical: a buffer parses to a value exactly when
    the value is well-formed and encodes to that buffer. So every value has one
    encoding, parsing loses nothing and encoding is injective. *)
Theorem cell_wire_format_canonical (l : bytes) (v : CellValueRef) :
  CellValueRef_parse l = Ok v <-> CellValueRef_wf v /\ CellValueRef_encode v = l.
Proof.
  split; [apply CellValueRef_parse_new|]. intros [Hv <-]. by apply CellValueRef_parse_encode.
Qed.

(** C37. Typed construction and access are inverse, for every type of the table
    and every value of its Rust type: booleans, text, byte arrays, unsigned and
    two's-complement integers at their widths, decimals, dates, timestamps, and
    floats by their IEEE bits, where negative zero reads back as zero and a NaN
    is refused on construction. *)
Theorem typed_constructors_roundtrip :
  (forall b, as_bool (from_bool b) = Some b) /\
  (forall s, is_utf8 s = true -> as_str (from_str s) = Some s) /\
  (forall l, as_bytes (from_bytes l) = Some l) /\
  (forall l, as_bytes4 (from_bytes4 l) = Some l /\ as_bytes8 (from_bytes8 l) = Some l /\
     as_bytes16 (from_bytes16 l) = Some l /\ as_bytes20 (from_bytes20 l) = Some l /\
     as_bytes32 (from_bytes32 l) = Some l) /\
  (forall x, uint_range 4 x -> as_u32 (from_u32 x) = Some x) /\
  (forall x, uint_range 8 x -> as_u64 (from_u64 x) = Some x) /\
  (forall x, uint_range 16 x -> as_u128 (from_u128 x) = Some x) /\
  (forall x, int_range 4 x -> as_i32 (from_i32 x) = Some x /\
     as_dec32_unscaled (from_dec32_unscaled x) = Some x /\ as_date32 (from_date32 x) = Some x) /\
  (forall x, int_range 8 x -> as_i64 (from_i64 x) = Some x /\
     as_dec64_unscaled (from_dec64_unscaled x) = Some x /\
     as_timestamp64 (from_timestamp64 x) = Some x) /\
  (forall x, int_range 16 x -> as_i128 (from_i128 x) = Some x /\
     as_dec128_unscaled (from_dec128_unscaled x) = Some x) /\
  (forall l, as_u256_be (from_u256_be l) = Some l /\ as_i256_be (from_i256_be l) = Some l /\
     as_dec256_unscaled_be (from_dec256_unscaled_be l) = Some l) /\
  (forall x, uint_range 4 x -> is_nan F32 x = false -> exists v, from_f32 x = Ok v /\ as_f32 v = Some (if is_negative_zero F32 x then 0 else x)) /\
  (forall x, uint_range 8 x -> is_nan F64 x = false -> exists v, from_f64 x = Ok v /\ as_f64 v = Some (if is_negative_zero F64 x then 0 else x)) /\
  (forall x, is_nan F32 x = true -> from_f32 x = Err FloatNaN) /\
  (forall x, is_nan F64 x = true -> from_f64 x = Err FloatNaN).
Proof.
  split_and!.
  5,6,7: intros; by apply exact_uint.
  5,6,7: intros; split_and?; apply exact_int; (lia || done).
  6,7: intros x Hx Hn; unfold from_f32, from_f64; rewrite Hn; eexists; (split; [done|]).
  - by intros [].
  - intros s Hs. unfold as_str, ref_as_str, from_str, field_from_typed. rewrite as_view_to_owned. cbn [cr_ty cr_value]. by rewrite Hs.
  - intros. apply exact_field.
  - intros. split_and!; apply exact_field.
  - intros. split_and!; [apply exact_field|apply exact_flipped..].
  - exact (exact_float F32 x Hx).
  - exact (exact_float F64 x Hx).
  - intros x Hx. unfold from_f32. by rewrite Hx.
  - intros x Hx. unfold from_f64. by rewrite Hx.
Qed.

(** C36. Stored bytes sort as their values do, within a type: booleans false
    first; unsigned and signed integers at every width, 256 bits included,
    decimals, dates and timestamps numerically; text and byte arrays
    lexicographically; and floats that are no NaN by their IEEE comparison, in
    which the two zeros are equal: they are stored alike. *)
Theorem stored_bytes_sort_as_values :
  (cmp (CellValue_value (from_bool false)) (CellValue_value (from_bool true)) = Lt) /\
  (forall x y, uint_range 4 x -> uint_range 4 y ->
     cmp (CellValue_value (from_u32 x)) (CellValue_value (from_u32 y)) = Z.compare x y) /\
  (forall x y, uint_range 8 x -> uint_range 8 y ->
     cmp (CellValue_value (from_u64 x)) (CellValue_value (from_u64 y)) = Z.compare x y) /\
  (forall x y, uint_range 16 x -> uint_range 16 y ->
     cmp (CellValue_value (from_u128 x)) (CellValue_value (from_u128 y)) = Z.compare x y) /\
  (forall x y, int_range 4 x -> int_range 4 y ->
     cmp (CellValue_value (from_i32 x)) (CellValue_value (from_i32 y)) = Z.compare x y /\
     cmp (CellValue_value (from_dec32_unscaled x)) (CellValue_value (from_dec32_unscaled y)) = Z.compare x y /\
     cmp (CellValue_value (from_date32 x)) (CellValue_value (from_date32 y)) = Z.compare x y) /\
  (forall x y, int_range 8 x -> int_range 8 y ->
     cmp (CellValue_value (from_i64 x)) (CellValue_value (from_i64 y)) = Z.compare x y /\
     cmp (CellValue_value (from_dec64_unscaled x)) (CellValue_value (from_dec64_unscaled y)) = Z.compare x y /\
     cmp (CellValue_value (from_timestamp64 x)) (CellValue_value (from_timestamp64 y)) = Z.compare x y) /\
  (forall x y, int_range 16 x -> int_range 16 y ->
     cmp (CellValue_value (from_i128 x)) (CellValue_value (from_i128 y)) = Z.compare x y /\
     cmp (CellValue_value (from_dec128_unscaled x)) (CellValue_value (from_dec128_unscaled y)) = Z.compare x y) /\
  (forall x y, length x = 32%nat -> length y = 32%nat ->
     cmp (CellValue_value (from_u256_be x)) (CellValue_value (from_u256_be y)) = Z.compare (be_decode x) (be_decode y) /\
     cmp (CellValue_value (from_i256_be x)) (CellValue_value (from_i256_be y)) = Z.compare (int_from_be x) (int_from_be y) /\
     cmp (CellValue_value (from_dec256_unscaled_be x)) (CellValue_value (from_dec256_unscaled_be y)) = Z.compare (int_from_be x) (int_from_be y)) /\
  (forall x y : bytes, cmp (CellValue_value (from_str x)) (CellValue_value (from_str y)) = cmp x y /\
     cmp (CellValue_value (from_bytes x)) (CellValue_value (from_bytes y)) = cmp x y /\
     cmp (CellValue_value (from_bytes4 x)) (CellValue_value (from_bytes4 y)) = cmp x y /\
     cmp (CellValue_value (from_bytes8 x)) (CellValue_value (from_bytes8 y)) = cmp x y /\
     cmp (CellValue_value (from_bytes16 x)) (CellValue_value (from_bytes16 y)) = cmp x y /\
     cmp (CellValue_value (from_bytes20 x)) (CellValue_value (from_bytes20 y)) = cmp x y /\
     cmp (CellValue_value (from_bytes32 x)) (CellValue_value (from_bytes32 y)) = cmp x y) /\
  (forall x y vx vy, uint_range 4 x -> uint_range 4 y -> from_f32 x = Ok vx -> from_f32 y = Ok vy ->
     ieee_compare F32 x y = Some (cmp (CellValue_value vx) (CellValue_value vy))) /\
  (forall x y vx vy, uint_range 8 x -> uint_range 8 y -> from_f64 x = Ok vx -> from_f64 y = Ok vy ->
     ieee_compare F64 x y = Some (cmp (CellValue_value vx) (CellValue_value vy))).
Proof.
  split_and!; intros; split_and?; try reflexivity; try (by apply cmp_be_encode); try (by apply cmp_flip_int; [lia|..]).
  - apply (be_cmp x y). congruence.
  - apply (cmp_flip_be x y); [lia|congruence].
  - apply (cmp_flip_be x y); [lia|congruence].
  - unfold from_f32 in *. destruct (is_nan F32 x) eqn:Ex, (is_nan F32 y) eqn:Ey; try done. simplify_eq.
    change (ieee_compare F32 x y = Some (cmp (encode_float (be_encode 4 x)) (encode_float (be_encode 4 y)))).
    rewrite (cmp_float 4) by (lia || done). by apply (ieee_compare_key F32).
  - unfold from_f64 in *. destruct (is_nan F64 x) eqn:Ex, (is_nan F64 y) eqn:Ey; try done. simplify_eq.
    change (ieee_compare F64 x y = Some (cmp (encode_float (be_encode 8 x)) (encode_float (be_encode 8 y)))).
    rewrite (cmp_float 8) by (lia || done). by apply (ieee_compare_key F64).
Qed.

(** C39. Every typed constructor yields a well-formed field of its own type: its
    bytes parse back to it, under the type's tag and not indexable, so values
    built by the program never fail validation on read. Floats are rejected
    exactly when they are NaN. *)
Theorem typed_constructors_wf :
  (forall b, is_field Bool (from_bool b)) /\
  (forall s, is_utf8 s = true -> is_field Str (from_str s)) /\
  (forall l, is_field Bytes (from_bytes l)) /\
  (forall l, length l = 4%nat -> is_field (FixedBytes W4) (from_bytes4 l)) /\
  (forall l, length l = 8%nat -> is_field (FixedBytes W8) (from_bytes8 l)) /\
  (forall l, length l = 16%nat -> is_field (FixedBytes W16) (from_bytes16 l)) /\
  (forall l, length l = 20%nat -> is_field Bytes20 (from_bytes20 l)) /\
  (forall l, length l = 32%nat -> is_field (FixedBytes W32) (from_bytes32 l) /\ is_field (Uint W32) (from_u256_be l) /\
     is_field (Int W32) (from_i256_be l) /\ is_field (Decimal W32) (from_dec256_unscaled_be l)) /\
  (forall x, is_field (Uint W4) (from_u32 x) /\ is_field (Uint W8) (from_u64 x) /\ is_field (Uint W16) (from_u128 x)) /\
  (forall x, is_field (Int W4) (from_i32 x) /\ is_field (Int W8) (from_i64 x) /\ is_field (Int W16) (from_i128 x)) /\
  (forall x, is_field (Decimal W4) (from_dec32_unscaled x) /\ is_field (Decimal W8) (from_dec64_unscaled x) /\
     is_field (Decimal W16) (from_dec128_unscaled x)) /\
  (forall x, is_field Date32 (from_date32 x) /\ is_field Timestamp64 (from_timestamp64 x)) /\
  (forall x, uint_range 4 x ->
     if is_nan F32 x then from_f32 x = Err FloatNaN
     else exists v, from_f32 x = Ok v /\ is_field (Float F32) v) /\
  (forall x, uint_range 8 x ->
     if is_nan F64 x then from_f64 x = Err FloatNaN
     else exists v, from_f64 x = Ok v /\ is_field (Float F64) v).
Proof.
  split_and!; intros; split_and?.
  all: try (by apply int_field); try (by eapply fixed_field; [reflexivity|rewrite ?length_flip_sign, ?length_be_encode; done|..]).
  - apply field_is_field. by destruct b.
  - apply field_is_field. unfold CellType_validate, is_utf8 in *. cbn. by destruct (utf8_error s).
  - by apply field_is_field.
  - unfold from_f32. destruct (is_nan F32 x) eqn:E; [done|]. eexists. split; [done|]. by apply (float_field F32).
  - unfold from_f64. destruct (is_nan F64 x) eqn:E; [done|]. eexists. split; [done|]. by apply (float_field F64).
Qed.
