(* ===== verification/CellName.v ===== *)
(** Cell names, complete cell addresses, admission limits and the reserved
    record catalogue: crates/cells/src/{name,key,config,system,tables}.rs.

    [CellName] and [CellNameRef] are both their bytes. A [CellKey] is stored as
    eight big-endian bytes of record ID followed by the name. *)
From Stdlib Require Import ZArith Lia.
From S2P Require Import Prelude Ordered Storage CellTypes CellValue.

#[local] Open Scope Z_scope.

(** * Names: name.rs *)

Abbreviation CellName := bytes.

Inductive CellNameError : Type :=
  | NameEmpty
  | TooLong (max actual : Z)
  | NotAlphaFirst (b : byte)
  | InvalidByte (at_ : nat) (b : byte).

(** [u8::is_ascii_alphabetic] and [is_ascii_alphanumeric] *)
Definition is_ascii_alphabetic (b : byte) : bool := byte_in 65 90 b || byte_in 97 122 b.
Definition is_ascii_digit (b : byte) : bool := byte_in 48 57 b.
Definition is_ascii_alphanumeric (b : byte) : bool := is_ascii_alphabetic b || is_ascii_digit b.

(** [b'_' | b'-' | b'.' | b':'] *)
Definition is_separator (b : byte) : bool :=
  (u8 b =? 95) || (u8 b =? 45) || (u8 b =? 46) || (u8 b =? 58).

Definition is_rest (b : byte) : bool := is_ascii_alphanumeric b || is_separator b.

(** [iter().position(|b| !is_rest(b))] with the byte found there. *)
Fixpoint position_not_rest (i : nat) (l : bytes) : option (nat * byte) :=
  match l with
  | [] => None
  | b :: l' => if is_rest b then position_not_rest (S i) l' else Some (i, b)
  end.

(** [check]: [first *rest] *)
Definition check (name : bytes) (base : nat) : res CellNameError unit :=
  match name with
  | [] => Err NameEmpty
  | first :: rest =>
      if negb (is_ascii_alphabetic first) then Err (NotAlphaFirst first)
      else
        match position_not_rest 0 rest with
        | Some (i, b) => Err (InvalidByte (base + 1 + i) b)
        | None => Ok ()
        end
  end.

(** [strip_prefix(b"$")] *)
Definition strip_dollar (name : bytes) : option bytes :=
  match name with
  | b :: rest => if u8 b =? 36 then Some rest else None
  | [] => None
  end.

(** [CellNameRef::parse_user] *)
Definition parse_user (name : bytes) (max_len : Z) : res CellNameError CellName :=
  if max_len <? Z.of_nat (length name) then Err (TooLong max_len (Z.of_nat (length name)))
  else
    _ ← match strip_dollar name with
        | Some rest => check rest 1
        | None => check name 0
        end;
    Ok name.

(** [CellNameRef::parse_engine] *)
Definition parse_engine (name : bytes) : res CellNameError CellName :=
  match name with
  | [] => Err NameEmpty
  | b :: rest =>
      if (u8 b =? 35) || (u8 b =? 64) then _ ← check rest 1; Ok name
      else Err (InvalidByte 0 b)
  end.

(** [CellName::projection]: a [BTreeSet] of the names, listed in order. *)
Definition projection (names : list bytes) : list CellName :=
  (entries (list_to_map ((fun n => (n, ())) <$> names) : gmap bytes unit)).*1.

(** [reserved] *)
Definition of_string (s : string) : bytes := String.list_byte_of_string s.
Definition KEY : CellName := of_string "#key".
Definition NEXT_RECORD_ID : CellName := of_string "#nextRecordID".
Definition MAX_STR_LEN : CellName := of_string "#maxStrLen".
Definition MAX_BYTES_LEN : CellName := of_string "#maxBytesLen".
Definition MAX_CELL_NAME_LEN : CellName := of_string "#maxCellNameLen".

(** * Addresses: key.rs *)

Record CellKey := {
  ck_record_id : Z;
  ck_name : CellName
}.

#[global] Instance CellKey_eq_dec : EqDecision CellKey.
Proof. solve_decision. Defined.
#[global] Program Instance CellKey_countable : Countable CellKey :=
  inj_countable' (fun k => (ck_record_id k, ck_name k))
    (fun p => {| ck_record_id := p.1; ck_name := p.2 |}) _.
Next Obligation. by intros []. Qed.

(** The derived [Ord]: record ID first, then the name. *)
#[global] Instance CellKey_ordered : Ordered CellKey :=
  cmp_via (fun k => (ck_record_id k, ck_name k)).
#[global] Instance CellKey_ordered_laws : OrderedLaws CellKey.
Proof. apply cmp_via_laws. intros [] []. simpl. congruence. Qed.

Inductive CellKeyError : Type := MissingRecordId (actual : nat).

(** [CellKey::decode] *)
Definition CellKey_decode (l : bytes) : res CellKeyError CellKey :=
  if (length l <? 8)%nat then Err (MissingRecordId (length l))
  else Ok {| ck_record_id := be_decode (take 8 l); ck_name := drop 8 l |}.

(** [CellKey::encode_into] and [encode] *)
Definition CellKey_encode_into (k : CellKey) (out : bytes) : bytes :=
  out ++ be_encode 8 (ck_record_id k) ++ ck_name k.
Definition CellKey_encode (k : CellKey) : bytes := CellKey_encode_into k [].

(** A key whose record ID is a [u64]. *)
Definition CellKey_wf (k : CellKey) : Prop := uint_range 8 (ck_record_id k).

(** * Admission limits: config.rs *)

(** The fields are [u32]. *)
Record CellLimits := {
  max_cell_name_len : Z;
  max_str_len : Z;
  max_bytes_len : Z
}.

Record CellLimitError := {
  le_ty : CellType;
  le_max : Z;
  le_actual : Z
}.

Definition CellLimits_parse_user_name (limits : CellLimits) (name : bytes) : res CellNameError CellName :=
  parse_user name (max_cell_name_len limits).

Definition CellLimits_validate_value (limits : CellLimits) (cell : CellValueRef) : res CellLimitError unit :=
  match
    match cr_ty cell with
    | Str => Some (max_str_len limits)
    | Bytes => Some (max_bytes_len limits)
    | _ => None
    end
  with
  | None => Ok ()
  | Some max =>
      let actual := Z.of_nat (length (cr_value cell)) in
      if max <? actual then Err {| le_ty := cr_ty cell; le_max := max; le_actual := actual |}
      else Ok ()
  end.

(** * Reserved records: system.rs, tables.rs *)

Definition FIRST_USER_RECORD_ID : Z := 64.

Record SystemRecord := { sr_id : Z; sr_key : bytes }.

(** [record]: the name padded with zeros to 32 bytes. *)
Definition system_record (id : Z) (name : string) : SystemRecord :=
  let n := of_string name in
  {| sr_id := id; sr_key := n ++ replicate (32 - length n) x00 |}.

Definition PARAMS : SystemRecord := system_record 0 "#params".
Definition ALLOC : SystemRecord := system_record 1 "#alloc".
Definition ROOTS : SystemRecord := system_record 2 "#roots".
Definition RECORD_KEYS : SystemRecord := system_record 3 "#recordKeys".
Definition ROOT_INDEX : SystemRecord := system_record 4 "#rootIndex".
Definition METERING_MODEL : SystemRecord := system_record 32 "@meteringModel".
Definition MODEL_WEIGHT : SystemRecord := system_record 33 "@modelWeight".

(** [system::ALL] *)
Definition ALL : list SystemRecord :=
  [PARAMS; ALLOC; ROOTS; RECORD_KEYS; ROOT_INDEX; METERING_MODEL; MODEL_WEIGHT].

(** [by_key] *)
Definition by_key (key : bytes) : option SystemRecord :=
  head (filter (fun r => sr_key r = key) ALL).

Definition CELL : Table := "Cell".
Definition CELL_TRIE : Table := "CellTrie".

(** * Lemmas *)

Lemma table_ok_CELL : table_ok CELL.
Proof. done. Qed.
Lemma table_ok_CELL_TRIE : table_ok CELL_TRIE.
Proof. done. Qed.

(** The grammar: a letter followed by letters, digits and separators. *)
Definition name_grammar (name : bytes) : Prop :=
  match name with
  | [] => False
  | first :: rest => is_ascii_alphabetic first = true /\ forallb is_rest rest = true
  end.

(** A user name: the grammar after an optional [$]. *)
Definition user_name (name : bytes) : Prop :=
  name_grammar (match strip_dollar name with Some rest => rest | None => name end).

Lemma position_not_rest_none i l : position_not_rest i l = None <-> forallb is_rest l = true.
Proof.
  revert i. induction l as [|b l IH]; intros i; [done|]. simpl.
  destruct (is_rest b); simpl; [apply IH|done].
Qed.

Lemma check_ok name base : check name base = Ok () <-> name_grammar name.
Proof.
  destruct name as [|b l]; [done|]. simpl. destruct (is_ascii_alphabetic b); simpl; [|naive_solver].
  pose proof (position_not_rest_none 0 l) as Hp.
  destruct (position_not_rest 0 l) as [[i c]|]; naive_solver.
Qed.

Lemma parse_user_ok name max_len r :
  parse_user name max_len = Ok r <-> r = name /\ Z.of_nat (length name) <= max_len /\ user_name name.
Proof.
  unfold parse_user, user_name.
  destruct (Z.ltb_spec max_len (Z.of_nat (length name))); [naive_solver lia|].
  rewrite res_bind_ok. split.
  - intros ([] & Hc & [= <-]). split_and!; [done|done|].
    destruct (strip_dollar name); by apply check_ok in Hc.
  - intros (Hr & _ & Hg). subst r. exists (). split; [|done]. destruct (strip_dollar name); by apply check_ok.
Qed.

(** Every byte of a name is ASCII and none is zero. *)
Definition plain_ascii (b : byte) : Prop := 0 < u8 b < 128.

Lemma is_rest_plain b : is_rest b = true -> plain_ascii b.
Proof. unfold plain_ascii. destruct b; vm_compute; done. Qed.

Lemma user_name_plain name : user_name name -> Forall plain_ascii name.
Proof.
  assert (forall n, name_grammar n -> Forall plain_ascii n) as Hg.
  { intros [|b l]; [done|]. intros [Hb Hl]. constructor.
    - apply is_rest_plain. unfold is_rest, is_ascii_alphanumeric. by rewrite Hb.
    - apply Forall_forall. intros c Hc. apply is_rest_plain.
      rewrite forallb_forall in Hl. by apply Hl, list_elem_of_In. }
  unfold user_name. destruct name as [|b l]; [done|]. simpl.
  destruct (Z.eqb_spec (u8 b) 36) as [E|E]; [|apply Hg].
  intros Hl. constructor; [unfold plain_ascii; lia|auto].
Qed.

Lemma plain_utf8 l : Forall plain_ascii l -> utf8_error l = None.
Proof.
  unfold utf8_error. generalize 0%nat. induction l as [|b l IH]; intros i Hl; [done|].
  apply Forall_cons in Hl as [Hb Hl]. simpl. unfold byte_in at 1.
  red in Hb. rewrite (proj2 (Z.leb_le _ _)), (proj2 (Z.leb_le _ _)) by lia. simpl. auto.
Qed.

Lemma CellKey_decode_encode k : CellKey_wf k -> CellKey_decode (CellKey_encode k) = Ok k.
Proof.
  destruct k as [id name]. unfold CellKey_wf, CellKey_decode, CellKey_encode, CellKey_encode_into.
  cbn [ck_record_id ck_name app]. intros Hid. rewrite length_app, length_be_encode. cbn [Nat.ltb Nat.leb Nat.add].
  rewrite take_app_length', drop_app_length' by (by rewrite length_be_encode).
  rewrite be_decode_encode by done. done.
Qed.

Lemma CellKey_encode_decode l k : CellKey_decode l = Ok k -> CellKey_encode k = l /\ CellKey_wf k.
Proof.
  unfold CellKey_decode. destruct (Nat.ltb_spec (length l) 8); [done|]. intros [= <-].
  assert (length (take 8 l) = 8%nat) as Hl by (rewrite length_take; lia).
  unfold CellKey_encode, CellKey_encode_into, CellKey_wf. cbn [ck_record_id ck_name app]. split.
  - pose proof (be_encode_decode (take 8 l)) as E. rewrite Hl in E. rewrite E. apply take_drop.
  - pose proof (be_decode_range (take 8 l)) as Hr. rewrite Hl in Hr. exact Hr.
Qed.

Lemma CellKey_encode_inj k1 k2 :
  CellKey_wf k1 -> CellKey_wf k2 -> CellKey_encode k1 = CellKey_encode k2 -> k1 = k2.
Proof.
  intros H1%CellKey_decode_encode H2%CellKey_decode_encode E. congruence.
Qed.

(** The order of addresses is the order of their encodings. *)
Lemma CellKey_cmp_encode k1 k2 : CellKey_wf k1 -> CellKey_wf k2 ->
  cmp (CellKey_encode k1) (CellKey_encode k2) = cmp k1 k2.
Proof.
  destruct k1 as [id1 n1], k2 as [id2 n2]. unfold CellKey_wf, CellKey_encode, CellKey_encode_into.
  cbn [ck_record_id ck_name app].
  intros H1 H2.
  assert (forall (p1 p2 q1 q2 : bytes), length p1 = length p2 ->
    cmp (p1 ++ q1) (p2 ++ q2) = match cmp p1 p2 with Eq => cmp q1 q2 | c => c end) as Happ.
  { induction p1 as [|a p1 IH]; intros [|b p2] q1 q2 Hl; try done.
    unfold cmp, list_ordered in *. simpl. destruct (cmp a b); [|done..]. apply IH. simpl in Hl. lia. }
  rewrite Happ by (by rewrite !length_be_encode). rewrite cmp_be_encode by done. done.
Qed.

(** * Properties *)

(** A user name is admitted exactly when it is within the length limit and
    follows the grammar (an optional [$], a letter, then letters, digits and
    separators). Every admitted name is UTF-8 and contains no zero byte, so the
    zero separator of an index key is unambiguous. *)
Theorem user_name_admission (name : bytes) (max_len : Z) :
  (forall r, parse_user name max_len = Ok r <->
     r = name /\ Z.of_nat (length name) <= max_len /\ user_name name) /\
  (user_name name -> is_utf8 name = true /\ x00 ∉ name).
Proof.
  split; [apply parse_user_ok|]. intros Hu%user_name_plain. split.
  - unfold is_utf8. by rewrite plain_utf8.
  - intros Hin. rewrite Forall_forall in Hu. apply Hu in Hin. by destruct Hin.
Qed.

(** Complete cell addresses: decoding and encoding are inverse (any buffer of
    at least eight bytes decodes, to an address that encodes back to it), and
    the order of addresses is the byte order of their encodings, so a map keyed
    by addresses iterates in table order. *)
Theorem cell_key_codec :
  (forall k, CellKey_wf k -> CellKey_decode (CellKey_encode k) = Ok k) /\
  (forall l, (8 <= length l)%nat -> exists k, CellKey_decode l = Ok k /\ CellKey_wf k /\ CellKey_encode k = l) /\
  (forall l, (length l < 8)%nat -> CellKey_decode l = Err (MissingRecordId (length l))) /\
  (forall k1 k2, CellKey_wf k1 -> CellKey_wf k2 ->
     cmp (CellKey_encode k1) (CellKey_encode k2) = cmp k1 k2).
Proof.
  split_and!; [apply CellKey_decode_encode| | |apply CellKey_cmp_encode].
  - intros l Hl. destruct (CellKey_decode l) as [k| | |] eqn:E;
      [|by unfold CellKey_decode in E; destruct (Nat.ltb_spec (length l) 8); [lia|]..].
    exists k. apply CellKey_encode_decode in E as [? ?]. done.
  - intros l Hl. unfold CellKey_decode. by rewrite (proj2 (Nat.ltb_lt _ _)).
Qed.
