(* ===== verification/MerkleNode.v ===== *)
(** Nibble paths and canonical compact branches of the Merkle trie:
    crates/merkle/src/{hash,path,node,error}.rs and the references of trie.rs.

    Hashing is a third-party digest: a [HashProvider] is a parameter, of which
    the development uses only that digests have 32 bytes ([HashLaws]). The const
    generic [N] of the source (the width of a path in bytes) is an argument. A
    nibble is a [nat]; a route is a list of nibbles. *)
From Stdlib Require Import ZArith Lia.
From S2P Require Import Prelude Ordered Storage.

#[local] Open Scope Z_scope.

(** * Hashing: hash.rs *)

(** [Hash = [u8; 32]] *)
Abbreviation Hash := bytes.

Class HashProvider : Type := hash_parts : list bytes -> Hash.

(** [HashProvider::hash] *)
Definition hash `{HashProvider} (l : bytes) : Hash := hash_parts [l].

(** What the type of a digest says. *)
Class HashLaws `{HashProvider} : Prop := hash_length parts : length (hash_parts parts) = 32%nat.

Inductive MerkleError : Type :=
  | MStorage (e : StorageError)
  | InvalidNode (why : string)
  | MissingBranch (h : Hash)
  | HashMismatch
  | ConflictingBranch.

(** * Paths: path.rs *)

(** [nibble]: the indexing is in range at every call, see [validate_at]. *)
Definition nibble (path : bytes) (depth : nat) : nat :=
  let b := u8 (nth (depth / 2) path x00) in
  Z.to_nat (Z.land (Z.shiftr b (4 * (1 - Z.of_nat (depth mod 2)))) 15).

(** [matched]: how many leading nibbles the path repeats from [depth] on. *)
Fixpoint matched (nibbles : list nat) (path : bytes) (depth : nat) : nat :=
  match nibbles with
  | [] => 0
  | n :: rest => if (nibble path depth =? n)%nat then S (matched rest path (S depth)) else 0
  end.

Definition nibbles (path : bytes) : list nat := nibble path <$> seq 0 (length path * 2).

(** [pack]: [chunks(2)], the high nibble first, zero padded. *)
Fixpoint pack (l : list nat) : bytes :=
  match l with
  | [] => []
  | [a] => [byte_of (Z.lor (Z.shiftl (Z.of_nat a) 4) 0)]
  | a :: b :: rest => byte_of (Z.lor (Z.shiftl (Z.of_nat a) 4) (Z.of_nat b)) :: pack rest
  end.

(** * References: trie.rs *)

Record LeafRef := { lf_path : bytes; lf_hash : Hash }.

Inductive RootRef : Type :=
  | REmpty
  | RLeaf (leaf : LeafRef)
  | RBranch (h : Hash).

#[global] Instance LeafRef_eq_dec : EqDecision LeafRef.
Proof. solve_decision. Defined.
#[global] Instance RootRef_eq_dec : EqDecision RootRef.
Proof. solve_decision. Defined.

(** [RootRef::hash] *)
Definition RootRef_hash `{HashProvider} (r : RootRef) : Hash :=
  match r with
  | REmpty => hash []
  | RLeaf leaf => lf_hash leaf
  | RBranch h => h
  end.

(** * Branches: node.rs *)

Record BranchNodeCompact := {
  bn_prefix : bytes;
  bn_prefix_len : nat;
  bn_state_mask : Z;
  bn_tree_mask : Z;
  bn_child_hashes : list Hash;
  bn_leaf_paths : list bytes
}.

(** [u16::count_ones], [x & !y], [1 << slot] *)
Definition count_ones (m : Z) : nat :=
  length (filter (fun i : nat => Z.testbit m (Z.of_nat i) = true) (seq 0 16)).
Definition and_not (x y : Z) : Z := Z.land x (Z.lxor y 0xFFFF).
Definition bit (slot : nat) : Z := Z.shiftl 1 (Z.of_nat slot).

(** [usize::div_ceil] by two *)
Definition div_ceil2 (n : nat) : nat := ((n + 1) / 2)%nat.

Section Node.
Context (N : nat).

(** [BranchNodeCompact::new] *)
Definition node_new (prefix : bytes) (prefix_len : nat) (state_mask tree_mask : Z)
    (child_hashes : list Hash) (leaf_paths : list bytes) : res MerkleError BranchNodeCompact :=
  if (2 * N <=? prefix_len)%nat || negb (length prefix =? div_ceil2 prefix_len)%nat
  then Err (InvalidNode "invalid prefix length")
  else if (prefix_len mod 2 =? 1)%nat &&
    match last prefix with Some b => negb (Z.land (u8 b) 15 =? 0) | None => false end
  then Err (InvalidNode "nonzero prefix padding")
  else if (count_ones state_mask <? 2)%nat
    || negb (and_not tree_mask state_mask =? 0)
    || negb (length child_hashes =? count_ones state_mask)%nat
    || negb (length leaf_paths =? count_ones (and_not state_mask tree_mask))%nat
  then Err (InvalidNode "invalid child masks or counts")
  else Ok {| bn_prefix := prefix; bn_prefix_len := prefix_len; bn_state_mask := state_mask;
             bn_tree_mask := tree_mask; bn_child_hashes := child_hashes;
             bn_leaf_paths := leaf_paths |}.

(** [child]: [new] fixed the counts, so both indexings are in range. *)
Definition node_child (node : BranchNodeCompact) (slot : nat) : option RootRef :=
  if (16 <=? slot)%nat || (Z.land (bn_state_mask node) (bit slot) =? 0) then None
  else
    let before := bit slot - 1 in
    let h := nth (count_ones (Z.land (bn_state_mask node) before)) (bn_child_hashes node) [] in
    Some (if negb (Z.land (bn_tree_mask node) (bit slot) =? 0) then RBranch h
          else
            let path := nth (count_ones (Z.land (and_not (bn_state_mask node) (bn_tree_mask node)) before))
                          (bn_leaf_paths node) [] in
            RLeaf {| lf_path := path; lf_hash := h |}).

(** [hash_payload], [hash], [encode] *)
Definition hash_payload (node : BranchNodeCompact) : bytes :=
  [byte_of (Z.of_nat (bn_prefix_len node))] ++ bn_prefix node ++
  be_encode 2 (bn_state_mask node) ++ be_encode 2 (bn_tree_mask node) ++
  concat (bn_child_hashes node).

Definition node_hash `{HashProvider} (node : BranchNodeCompact) (domain : byte) : Hash :=
  hash_parts [[domain]; hash_payload node].

Definition node_encode (node : BranchNodeCompact) : bytes :=
  hash_payload node ++ concat (bn_leaf_paths node).

(** [chunks_exact(n)] *)
Fixpoint chunks_exact (fuel n : nat) (l : bytes) : list bytes :=
  match fuel with
  | O => []
  | S fuel' =>
      if (length l <? n)%nat then [] else take n l :: chunks_exact fuel' n (drop n l)
  end.

(** [decode] *)
Definition node_decode (l : bytes) : res MerkleError BranchNodeCompact :=
  match l with
  | [] => Err (InvalidNode "invalid encoded length")
  | b :: _ =>
      let prefix_len := Z.to_nat (u8 b) in
      let end_ := (1 + div_ceil2 prefix_len)%nat in
      if (length l <? end_ + 4)%nat then Err (InvalidNode "invalid encoded length")
      else
        let header := take (end_ + 4) l in
        let state_mask := be_decode (take 2 (drop end_ header)) in
        let tree_mask := be_decode (take 2 (drop (end_ + 2) header)) in
        let hash_end := (end_ + 4 + count_ones state_mask * 32)%nat in
        if negb (length l =? hash_end + count_ones (and_not state_mask tree_mask) * N)%nat
        then Err (InvalidNode "invalid encoded length")
        else
          let child_hashes :=
            chunks_exact (length l) 32 (drop (end_ + 4) (take hash_end l)) in
          let leaf_paths := chunks_exact (length l) N (drop hash_end l) in
          node_new (drop 1 (take end_ header)) prefix_len state_mask tree_mask child_hashes leaf_paths
  end.

(** [unpack_prefix], [children] *)
Definition unpack_prefix (node : BranchNodeCompact) : list nat :=
  nibble (bn_prefix node) <$> seq 0 (bn_prefix_len node).

Definition node_children (node : BranchNodeCompact) : list RootRef :=
  (fun slot => default REmpty (node_child node slot)) <$> seq 0 16.

(** The loop of [from_children], over the children from [slot] on. *)
Fixpoint gather (slot : nat) (children : list RootRef) (state tree : Z)
    (hashes : list Hash) (paths : list bytes) : Z * Z * list Hash * list bytes :=
  match children with
  | [] => (state, tree, hashes, paths)
  | REmpty :: rest => gather (S slot) rest state tree hashes paths
  | RLeaf leaf :: rest =>
      gather (S slot) rest (Z.lor state (bit slot)) tree
        (hashes ++ [lf_hash leaf]) (paths ++ [lf_path leaf])
  | RBranch h :: rest =>
      gather (S slot) rest (Z.lor state (bit slot)) (Z.lor tree (bit slot)) (hashes ++ [h]) paths
  end.

(** [from_children]; the prefix length is cast to [u8]. *)
Definition from_children (prefix : list nat) (children : list RootRef) : res MerkleError BranchNodeCompact :=
  let '(state, tree, hashes, paths) := gather 0 children 0 0 [] [] in
  node_new (pack prefix) (length prefix mod 256) state tree hashes paths.

(** The leaf of a slot does not continue the branch's route. *)
Definition misrouted (route : list nat) (slot : nat) (leaf : LeafRef) : bool :=
  existsb (fun '(i, n) => negb (nibble (lf_path leaf) i =? n)%nat) (imap pair route)
  || negb (nibble (lf_path leaf) (length route) =? slot)%nat.

(** [validate_at] *)
Definition validate_at (node : BranchNodeCompact) (ancestors : list nat) : res MerkleError unit :=
  let route := ancestors ++ unpack_prefix node in
  if (N * 2 <=? length route)%nat then Err (InvalidNode "branch exceeds path depth")
  else if (length route + 1 =? N * 2)%nat && negb (bn_tree_mask node =? 0)
  then Err (InvalidNode "branch child beyond final nibble")
  else if existsb (fun slot => match node_child node slot with
                               | Some (RLeaf leaf) => misrouted route slot leaf
                               | _ => false
                               end) (seq 0 16)
  then Err (InvalidNode "leaf path does not match branch route")
  else Ok ().
End Node.

(** * Paths: lemmas *)

Arguments nibble : simpl never.

Lemma nibble_lt path d : (nibble path d < 16)%nat.
Proof.
  unfold nibble. set (z := Z.shiftr _ _). change 15 with (Z.ones 4). rewrite Z.land_ones by lia.
  pose proof (Z.mod_pos_bound z (2 ^ 4) ltac:(lia)). lia.
Qed.

(** The two nibbles of a byte. *)
Definition hi_nibble (b : byte) : nat := Z.to_nat (u8 b / 16).
Definition lo_nibble (b : byte) : nat := Z.to_nat (u8 b mod 16).

Lemma nibble_0 b p : nibble (b :: p) 0 = hi_nibble b.
Proof. by destruct b. Qed.
Lemma nibble_1 b p : nibble (b :: p) 1 = lo_nibble b.
Proof. by destruct b. Qed.
Lemma nibble_SS b p d : nibble (b :: p) (S (S d)) = nibble p d.
Proof.
  unfold nibble. replace (S (S d)) with (d + 1 * 2)%nat by lia.
  rewrite Nat.div_add, Nat.Div0.mod_add by lia. by replace (d / 2 + 1)%nat with (S (d / 2)) by lia.
Qed.

Lemma nibbles_cons b p : nibbles (b :: p) = hi_nibble b :: lo_nibble b :: nibbles p.
Proof.
  unfold nibbles. cbn [length Nat.mul Nat.add seq]. rewrite !fmap_cons, nibble_0, nibble_1. do 2 f_equal.
  rewrite <- !seq_shift, <- !list_fmap_compose. apply list_fmap_ext. intros i x _.
  cbn [compose]. apply nibble_SS.
Qed.

Lemma length_nibbles p : length (nibbles p) = (length p * 2)%nat.
Proof. unfold nibbles. by rewrite length_fmap, length_seq. Qed.

Lemma nibbles_lookup p i : (i < length p * 2)%nat -> nibbles p !! i = Some (nibble p i).
Proof. intros Hi. unfold nibbles. rewrite list_lookup_fmap, lookup_seq_lt by done. done. Qed.

Lemma pack_nibbles p : pack (nibbles p) = p.
Proof.
  induction p as [|b p IH]; [done|]. rewrite nibbles_cons. cbn [pack]. rewrite IH. f_equal.
  by destruct b.
Qed.

#[global] Instance nibbles_inj : Inj (=) (=) nibbles.
Proof. intros p q E. by rewrite <- (pack_nibbles p), E, pack_nibbles. Qed.

Lemma nibbles_lt p : Forall (fun n => n < 16)%nat (nibbles p).
Proof. unfold nibbles. apply Forall_fmap, Forall_true. intros. apply nibble_lt. Qed.

Lemma matched_spec l path d :
  (d + length l <= length path * 2)%nat ->
  matched l path d = length l <-> l = take (length l) (drop d (nibbles path)).
Proof.
  revert d. induction l as [|n l IH]; intros d Hd; [done|]. cbn [matched length] in *.
  assert (drop d (nibbles path) = nibble path d :: drop (S d) (nibbles path)) as ->.
  { apply drop_S, nibbles_lookup. lia. }
  cbn [take]. destruct (Nat.eqb_spec (nibble path d) n) as [->|Hn].
  - rewrite Nat.succ_inj_wd, IH by lia. split; [by intros <-|by intros [= <-]].
  - split; [done|]. intros [= ->]. done.
Qed.

(** ** Packing *)

Lemma two_nibbles a b : (a < 16)%nat -> (b < 16)%nat ->
  hi_nibble (byte_of (Z.lor (Z.shiftl (Z.of_nat a) 4) (Z.of_nat b))) = a /\
  lo_nibble (byte_of (Z.lor (Z.shiftl (Z.of_nat a) 4) (Z.of_nat b))) = b.
Proof.
  intros Ha Hb. unfold hi_nibble, lo_nibble. rewrite u8_byte_of.
  assert (Z.lor (Z.shiftl (Z.of_nat a) 4) (Z.of_nat b) = Z.of_nat a * 16 + Z.of_nat b) as ->.
  { rewrite Z.shiftl_mul_pow2 by lia. change (2 ^ 4) with 16.
    rewrite <- Z.lxor_lor, <- Z.add_nocarry_lxor; [done|..].
    all: do 16 (destruct a as [|a]; [do 16 (destruct b as [|b]; [done|]); lia|]); lia. }
  rewrite Z.mod_small by lia. rewrite (Z.add_comm (_ * 16)), Z.div_add, Z.mod_add by lia.
  rewrite Z.div_small, Z.mod_small by lia. lia.
Qed.

Lemma length_pack l : length (pack l) = div_ceil2 (length l).
Proof.
  revert l. fix IH 1. intros [|a [|b l]]; [done..|]. cbn [pack length]. rewrite IH.
  unfold div_ceil2. replace (S (S (length l)) + 1)%nat with (length l + 1 + 1 * 2)%nat by lia.
  rewrite Nat.div_add by lia. lia.
Qed.

Lemma unpack_pack l : Forall (fun n => n < 16)%nat l -> nibble (pack l) <$> seq 0 (length l) = l.
Proof.
  revert l. fix IH 1. intros [|a [|b l]] Hl; [done| |].
  - apply Forall_cons in Hl as [Ha _]. cbn [pack length seq fmap list_fmap].
    rewrite nibble_0. f_equal. by apply (two_nibbles a 0); [|lia].
  - apply Forall_cons in Hl as [Ha Hl]. apply Forall_cons in Hl as [Hb Hl].
    cbn [pack length seq]. rewrite !fmap_cons, nibble_0, nibble_1.
    destruct (two_nibbles a b Ha Hb) as [-> ->]. do 2 f_equal.
    rewrite <- (IH l Hl) at 3. rewrite <- !seq_shift, <- !list_fmap_compose.
    apply list_fmap_ext. intros i x _. cbn [compose]. apply nibble_SS.
Qed.

(** Induction two elements at a time. *)
Lemma pairs_ind {A} (P : list A -> Prop) :
  P [] -> (forall a, P [a]) -> (forall a b l, P l -> P (a :: b :: l)) -> forall l, P l.
Proof. intros H0 H1 H2. fix IH 1. intros [|a [|b l]]; [done|apply H1|apply H2, IH]. Qed.

(** The last byte of an odd packing is padded with a zero nibble. *)
Lemma pack_padding l b : Forall (fun n => n < 16)%nat l -> (length l mod 2 = 1)%nat ->
  last (pack l) = Some b -> Z.land (u8 b) 15 = 0.
Proof.
  induction l as [|a|a c l IH] using pairs_ind; intros Hl Ho Hb; [done| |].
  - injection Hb as <-. apply Forall_cons in Hl as [Ha _].
    do 16 (destruct a as [|a]; [done|]). lia.
  - apply Forall_cons in Hl as [_ Hl]. apply Forall_cons in Hl as [_ Hl].
    cbn [length] in Ho. replace (S (S (length l))) with (length l + 1 * 2)%nat in Ho by lia.
    rewrite Nat.Div0.mod_add in Ho. cbn [pack] in Hb. rewrite last_cons in Hb.
    apply (IH Hl Ho). destruct (last (pack l)) eqn:E; [done|].
    apply last_None in E. destruct l; [done|]. destruct l; done.
Qed.

(** * Branches: lemmas *)

Definition occupied (r : RootRef) : bool := match r with REmpty => false | _ => true end.
Definition is_branch (r : RootRef) : bool := match r with RBranch _ => true | _ => false end.
Definition child_hash (r : RootRef) : option Hash :=
  match r with REmpty => None | RLeaf leaf => Some (lf_hash leaf) | RBranch h => Some h end.
Definition leaf_path (r : RootRef) : option bytes :=
  match r with RLeaf leaf => Some (lf_path leaf) | _ => None end.

(** The mask of the positions that satisfy [f]. *)
Fixpoint mask {A} (f : A -> bool) (l : list A) : Z :=
  match l with
  | [] => 0
  | x :: l' => Z.b2z (f x) + 2 * mask f l'
  end.

Lemma mask_testbit {A} (f : A -> bool) l i :
  Z.testbit (mask f l) (Z.of_nat i) = match l !! i with Some x => f x | None => false end.
Proof.
  revert i. induction l as [|x l IH]; intros i; cbn [mask]; [by rewrite Z.testbit_0_l|].
  rewrite Z.add_comm. destruct i as [|i].
  - change (Z.of_nat 0) with 0. by rewrite Z.testbit_0_r.
  - rewrite Nat2Z.inj_succ, Z.testbit_succ_r by lia. apply IH.
Qed.

Lemma mask_bound {A} (f : A -> bool) l : 0 <= mask f l < 2 ^ Z.of_nat (length l).
Proof.
  induction l as [|x l IH]; cbn [mask length]; [done|].
  rewrite Nat2Z.inj_succ, Z.pow_succ_r by lia. destruct (f x); cbn [Z.b2z]; lia.
Qed.

(** Two 16-bit masks with the same bits are equal. *)
Lemma mask_ext m m' : 0 <= m -> 0 <= m' ->
  (forall i : nat, Z.testbit m (Z.of_nat i) = Z.testbit m' (Z.of_nat i)) -> m = m'.
Proof.
  intros Hm Hm' H. apply Z.bits_inj'. intros n Hn. rewrite <- (Z2Nat.id n) by done. apply H.
Qed.

Lemma bit_testbit slot (i : nat) : Z.testbit (bit slot) (Z.of_nat i) = bool_decide (i = slot).
Proof.
  unfold bit. rewrite Z.shiftl_1_l, Z.pow2_bits_eqb by lia.
  case_bool_decide; [apply Z.eqb_eq|apply Z.eqb_neq]; lia.
Qed.

Lemma before_testbit slot (i : nat) : Z.testbit (bit slot - 1) (Z.of_nat i) = bool_decide (i < slot)%nat.
Proof.
  unfold bit. rewrite Z.shiftl_1_l, Z.sub_1_r, <- Z.ones_equiv.
  destruct (decide (i < slot)%nat).
  - rewrite bool_decide_true by done. apply Z.ones_spec_low. lia.
  - rewrite bool_decide_false by done. apply Z.ones_spec_high. lia.
Qed.

Lemma land_bit m slot : (Z.land m (bit slot) =? 0) = negb (Z.testbit m (Z.of_nat slot)).
Proof.
  destruct (Z.testbit m (Z.of_nat slot)) eqn:E; cbn [negb].
  - apply Z.eqb_neq. intros H0. apply (f_equal (fun z => Z.testbit z (Z.of_nat slot))) in H0.
    rewrite Z.land_spec, E, bit_testbit, Z.testbit_0_l, bool_decide_true in H0; done.
  - apply Z.eqb_eq. apply Z.bits_inj'. intros n Hn. rewrite <- (Z2Nat.id n) by done.
    rewrite Z.land_spec, bit_testbit, Z.testbit_0_l. case_bool_decide; [subst|by rewrite andb_false_r].
    by rewrite E.
Qed.

Lemma and_not_testbit x y (i : nat) : (i < 16)%nat ->
  Z.testbit (and_not x y) (Z.of_nat i) =
  Z.testbit x (Z.of_nat i) && negb (Z.testbit y (Z.of_nat i)).
Proof.
  intros Hi. unfold and_not. change 65535 with (Z.ones 16).
  rewrite Z.land_spec, Z.lxor_spec, Z.ones_spec_low by lia. by rewrite xorb_true_r.
Qed.

Lemma and_not_high x y (i : nat) : 0 <= y < 2 ^ 16 -> (16 <= i)%nat ->
  Z.testbit (and_not x y) (Z.of_nat i) = false.
Proof.
  intros Hy Hi. unfold and_not. change 65535 with (Z.ones 16).
  rewrite Z.land_spec, Z.lxor_spec, Z.ones_spec_high by lia. rewrite xorb_false_r.
  rewrite <- (Z.mod_small y (2 ^ 16)), Z.mod_pow2_bits_high by lia. apply andb_false_r.
Qed.

(** How many indices below [n] satisfy [f]. *)
Fixpoint countb (f : nat -> bool) (n : nat) : nat :=
  match n with
  | O => 0
  | S n' => ((if f 0%nat then 1 else 0) + countb (fun i => f (S i)) n')%nat
  end.

Lemma countb_seq (f : nat -> bool) n : length (filter (fun i => f i = true) (seq 0 n)) = countb f n.
Proof.
  revert f. induction n as [|n IH]; intros f; [done|]. cbn [seq countb]. rewrite <- IH, filter_cons.
  rewrite <- seq_shift. assert (forall l,
    length (filter (fun i => f i = true) (S <$> l)) = length (filter (fun i => f (S i) = true) l)) as Hl.
  { induction l as [|i l IHl]; [done|]. cbn [fmap list_fmap]. rewrite !filter_cons.
    repeat case_decide; cbn [length]; by rewrite ?IHl. }
  change (map S (seq 0 n)) with (S <$> seq 0 n).
  destruct (f 0%nat); [rewrite decide_True|rewrite decide_False]; try done; cbn [length]; by rewrite Hl.
Qed.

Lemma countb_ext f g n : (forall i, (i < n)%nat -> f i = g i) -> countb f n = countb g n.
Proof.
  revert f g. induction n as [|n IH]; intros f g H; [done|]. cbn [countb].
  rewrite (H 0%nat) by lia. by rewrite (IH _ (fun i => g (S i))) by (intros; apply H; lia).
Qed.

Lemma countb_trunc f n k : (n <= k)%nat -> countb (fun i => bool_decide (i < n)%nat && f i) k = countb f n.
Proof.
  revert f k. induction n as [|n IH]; intros f k Hk.
  - rewrite (countb_ext _ (fun _ => false)) by done. clear. by induction k.
  - destruct k as [|k]; [lia|]. cbn [countb]. rewrite bool_decide_true by lia. cbn [andb]. f_equal.
    rewrite <- (IH _ k) by lia. apply countb_ext. intros i _. f_equal. apply bool_decide_ext. lia.
Qed.

(** The bit that says whether [g] selects the [i]-th element. *)
Definition selects {A B} (g : A -> option B) (l : list A) (i : nat) : bool :=
  match l !! i ≫= g with Some _ => true | None => false end.

Lemma countb_selects {A B} (g : A -> option B) l n : countb (selects g l) n = length (omap g (take n l)).
Proof.
  revert l. induction n as [|n IH]; intros [|x l]; [done..| |].
  - cbn [countb]. rewrite (countb_ext _ (selects g [])) by done. rewrite IH. by rewrite take_nil.
  - cbn [countb take omap list_omap]. rewrite (countb_ext _ (selects g l)) by done.
    rewrite IH. unfold selects. cbn. by destruct (g x).
Qed.

Lemma count_ones_selects {A B} (g : A -> option B) l m n : (n <= 16)%nat ->
  (forall i, (i < 16)%nat -> Z.testbit m (Z.of_nat i) = bool_decide (i < n)%nat && selects g l i) ->
  count_ones m = length (omap g (take n l)).
Proof.
  intros Hn Hm. unfold count_ones. rewrite (countb_seq (fun i => Z.testbit m (Z.of_nat i))).
  rewrite (countb_ext _ _ _ Hm), countb_trunc by done. apply countb_selects.
Qed.

Lemma omap_nth {A B} (g : A -> option B) l i x y d :
  l !! i = Some x -> g x = Some y -> nth (length (omap g (take i l))) (omap g l) d = y.
Proof.
  revert l. induction i as [|i IH]; intros [|z l] Hx Hy; try done.
  - injection Hx as ->. cbn. by rewrite Hy.
  - cbn in Hx |- *. destruct (g z); cbn; by apply IH.
Qed.

(** ** Branches of children *)

Lemma gather_spec slot cs st tr hs ps :
  gather slot cs st tr hs ps =
  (Z.lor st (Z.shiftl (mask occupied cs) (Z.of_nat slot)),
   Z.lor tr (Z.shiftl (mask is_branch cs) (Z.of_nat slot)),
   hs ++ omap child_hash cs, ps ++ omap leaf_path cs).
Proof.
  revert slot st tr hs ps. induction cs as [|c cs IH]; intros slot st tr hs ps.
  { cbn. by rewrite !Z.shiftl_0_l, !Z.lor_0_r, !app_nil_r. }
  assert (forall (f : RootRef -> bool) m,
    Z.lor m (Z.shiftl (mask f (c :: cs)) (Z.of_nat slot)) =
    Z.lor (if f c then Z.lor m (bit slot) else m) (Z.shiftl (mask f cs) (Z.of_nat (S slot)))) as Hm.
  { intros f m. apply Z.bits_inj'. intros n Hn. rewrite <- (Z2Nat.id n) by done.
    generalize (Z.to_nat n) as i. clear n Hn. intros i.
    assert ((if f c then Z.lor m (bit slot) else m) = Z.lor m (if f c then bit slot else 0)) as ->.
    { destruct (f c); by rewrite ?Z.lor_0_r. }
    rewrite !Z.lor_spec, <- orb_assoc. f_equal. rewrite !Z.shiftl_spec by lia.
    destruct (decide (i < slot)%nat); [|destruct (decide (i = slot)%nat) as [->|]].
    - rewrite !(Z.testbit_neg_r _ (_ - _)) by lia. destruct (f c); [|by rewrite Z.bits_0].
      rewrite bit_testbit, bool_decide_false; [done|lia].
    - rewrite Z.sub_diag, (Z.testbit_neg_r _ (_ - _)) by lia.
      rewrite orb_false_r. change 0 with (Z.of_nat 0) at 1. rewrite mask_testbit. cbn.
      destruct (f c); [|by rewrite Z.testbit_0_l]. by rewrite bit_testbit, bool_decide_true.
    - replace (Z.of_nat i - Z.of_nat slot) with (Z.of_nat (S (i - S slot))) by lia.
      replace (Z.of_nat i - Z.of_nat (S slot)) with (Z.of_nat (i - S slot)) by lia.
      rewrite !mask_testbit. cbn [lookup list_lookup].
      destruct (f c); [rewrite bit_testbit, bool_decide_false by lia|rewrite Z.testbit_0_l]; done. }
  rewrite !Hm. destruct c; cbn [gather occupied is_branch omap list_omap child_hash leaf_path]; rewrite IH;
    rewrite <- ?app_assoc; done.
Qed.

(** The branch that [from_children] assembles. *)
Definition node_of (prefix : list nat) (cs : list RootRef) : BranchNodeCompact :=
  {| bn_prefix := pack prefix; bn_prefix_len := length prefix;
     bn_state_mask := mask occupied cs; bn_tree_mask := mask is_branch cs;
     bn_child_hashes := omap child_hash cs; bn_leaf_paths := omap leaf_path cs |}.

(** What a compact branch of a trie over paths of [N] bytes looks like. *)
Record branch_shape (N : nat) (prefix : list nat) (cs : list RootRef) : Prop := {
  shape_prefix : Forall (fun n => n < 16)%nat prefix;
  shape_len : (length prefix < 2 * N)%nat;
  shape_16 : length cs = 16%nat;
  shape_two : (2 <= length (omap child_hash cs))%nat
}.

Lemma occupied_selects cs i :
  match cs !! i with Some c => occupied c | None => false end = selects child_hash cs i.
Proof. unfold selects. by destruct (cs !! i) as [[]|]. Qed.

Lemma leaf_selects cs i :
  match cs !! i with Some c => occupied c | None => false end &&
    negb match cs !! i with Some c => is_branch c | None => false end = selects leaf_path cs i.
Proof. unfold selects. by destruct (cs !! i) as [[]|]. Qed.

Section Shape.
Context {N : nat} {prefix : list nat} {cs : list RootRef}.
Hypothesis HN : (N <= 32)%nat.
Hypothesis Hsh : branch_shape N prefix cs.

Lemma state_count n : (n <= 16)%nat ->
  count_ones (Z.land (mask occupied cs) (bit n - 1)) = length (omap child_hash (take n cs)).
Proof using.
  intros Hn. apply count_ones_selects; [done|]. intros i Hi.
  by rewrite Z.land_spec, before_testbit, mask_testbit, occupied_selects, andb_comm.
Qed.

Lemma leaf_count n : (n <= 16)%nat ->
  count_ones (Z.land (and_not (mask occupied cs) (mask is_branch cs)) (bit n - 1)) =
  length (omap leaf_path (take n cs)).
Proof using.
  intros Hn. apply count_ones_selects; [done|]. intros i Hi.
  by rewrite Z.land_spec, before_testbit, and_not_testbit, !mask_testbit, leaf_selects, andb_comm.
Qed.

Lemma counts :
  count_ones (mask occupied cs) = length (omap child_hash cs) /\
  count_ones (and_not (mask occupied cs) (mask is_branch cs)) = length (omap leaf_path cs).
Proof using Hsh.
  rewrite <- (firstn_all cs) at 2 5. rewrite (shape_16 _ _ _ Hsh). split.
  - apply count_ones_selects; [done|]. intros i Hi.
    by rewrite bool_decide_true, mask_testbit, occupied_selects.
  - apply count_ones_selects; [done|]. intros i Hi.
    by rewrite bool_decide_true, and_not_testbit, !mask_testbit, leaf_selects.
Qed.

Lemma tree_in_state : and_not (mask is_branch cs) (mask occupied cs) = 0.
Proof using Hsh.
  clear HN. pose proof (mask_bound occupied cs) as Ho. rewrite (shape_16 _ _ _ Hsh) in Ho.
  apply Z.bits_inj'. intros n Hn. rewrite <- (Z2Nat.id n), Z.testbit_0_l by lia.
  destruct (decide (Z.to_nat n < 16)%nat); [|apply and_not_high; [done|lia]].
  rewrite and_not_testbit, !mask_testbit by done. by destruct (cs !! Z.to_nat n) as [[]|].
Qed.

Lemma from_children_ok : from_children N prefix cs = Ok (node_of prefix cs).
Proof using HN Hsh.
  unfold from_children. rewrite gather_spec. cbn [app]. rewrite !Z.shiftl_0_r, !Z.lor_0_l.
  pose proof (shape_len _ _ _ Hsh). rewrite Nat.mod_small by lia. unfold node_new.
  destruct counts as [-> ->]. rewrite length_pack, !Nat.eqb_refl, tree_in_state. cbn [negb orb].
  destruct (Nat.leb_spec (2 * N) (length prefix)); [lia|]. cbn [orb].
  assert (((length prefix mod 2 =? 1)%nat && match last (pack prefix) with
    Some b => negb (Z.land (u8 b) 15 =? 0) | None => false end) = false) as ->.
  { destruct (Nat.eqb_spec (length prefix mod 2) 1); [|done].
    destruct (last (pack prefix)) eqn:E; [|done]. cbn [andb].
    by rewrite (pack_padding prefix b (shape_prefix _ _ _ Hsh)). }
  destruct (Nat.ltb_spec (length (omap child_hash cs)) 2) as [H2|_]; [|done].
  pose proof (shape_two _ _ _ Hsh). lia.
Qed.

Lemma unpack_prefix_of : unpack_prefix (node_of prefix cs) = prefix.
Proof using Hsh. apply unpack_pack, (shape_prefix _ _ _ Hsh). Qed.

Lemma node_child_of slot :
  node_child (node_of prefix cs) slot = c ← cs !! slot; if occupied c then Some c else None.
Proof using Hsh.
  clear HN. unfold node_child. cbn [node_of bn_state_mask bn_tree_mask bn_child_hashes bn_leaf_paths].
  destruct (Nat.leb_spec 16 slot) as [Hs|Hs]; cbn [orb].
  { rewrite lookup_ge_None_2; [done|]. by rewrite (shape_16 _ _ _ Hsh). }
  rewrite !land_bit, !mask_testbit, state_count, leaf_count by lia.
  destruct (cs !! slot) as [c|] eqn:Ec; [|done]. cbn [mbind option_bind].
  destruct c as [|leaf|h]; [done|..]; cbn [occupied is_branch negb].
  - rewrite (omap_nth child_hash _ _ _ _ _ Ec eq_refl), (omap_nth leaf_path _ _ _ _ _ Ec eq_refl).
    by destruct leaf.
  - by rewrite (omap_nth child_hash _ _ _ _ _ Ec eq_refl).
Qed.

Lemma node_child_default slot :
  default REmpty (node_child (node_of prefix cs) slot) = default REmpty (cs !! slot).
Proof using Hsh. rewrite node_child_of. by destruct (cs !! slot) as [[]|]. Qed.

Lemma node_children_of : node_children (node_of prefix cs) = cs.
Proof using Hsh.
  clear HN. apply list_eq. intros i. unfold node_children. rewrite list_lookup_fmap.
  destruct (decide (i < 16)%nat) as [Hi|Hi].
  - rewrite lookup_seq_lt by done. cbn [fmap option_fmap option_map Nat.add].
    rewrite node_child_default. rewrite <- (shape_16 _ _ _ Hsh) in Hi.
    by apply lookup_lt_is_Some_2 in Hi as [c ->].
  - rewrite !lookup_ge_None_2; [done|..]; rewrite ?length_seq, ?(shape_16 _ _ _ Hsh); lia.
Qed.
End Shape.

(** ** The stored form *)

Lemma length_concat_same n (ls : list bytes) :
  Forall (fun l => length l = n) ls -> length (concat ls) = (length ls * n)%nat.
Proof. induction 1 as [|l ls Hl _ IH]; [done|]. cbn [concat length Nat.mul]. rewrite length_app. lia. Qed.

Lemma chunks_concat n ls fuel : (0 < n)%nat -> Forall (fun l => length l = n) ls ->
  (length ls < fuel)%nat -> chunks_exact fuel n (concat ls) = ls.
Proof.
  intros Hn Hls. revert fuel. induction Hls as [|l ls Hl _ IH]; intros [|fuel] Hf;
    [cbn in Hf; lia| |cbn in Hf; lia|].
  - cbn [chunks_exact concat length]. destruct (Nat.ltb_spec 0 n); [done|lia].
  - cbn [chunks_exact concat]. rewrite length_app. destruct (Nat.ltb_spec (length l + length (concat ls)) n); [lia|].
    subst n. rewrite take_app_length, drop_app_length. rewrite IH; [done|cbn in Hf; lia].
Qed.

Lemma concat_chunks n k fuel l : (0 < n)%nat -> length l = (k * n)%nat -> (k < fuel)%nat ->
  concat (chunks_exact fuel n l) = l /\ length (chunks_exact fuel n l) = k /\
  Forall (fun c => length c = n) (chunks_exact fuel n l).
Proof.
  intros Hn. revert k l. induction fuel as [|fuel IH]; intros k l Hl Hk; [lia|]. cbn [chunks_exact].
  destruct (Nat.ltb_spec (length l) n) as [Hs|Hs].
  - destruct k as [|k]; [|cbn in Hl; lia]. by destruct l.
  - destruct k as [|k]; [cbn in Hl; lia|]. destruct (IH k (drop n l)) as (Hc & Hk' & Hf).
    { rewrite length_drop. cbn in Hl. lia. } { lia. }
    cbn [concat length]. rewrite Hc, take_drop, Hk'. split_and!; [done..|].
    apply Forall_cons. split; [apply length_take_le; lia|done].
Qed.

(** A branch as [BranchNodeCompact::new] admits it, with fields of their types. *)
Record node_wf (N : nat) (node : BranchNodeCompact) : Prop := {
  wf_new : node_new N (bn_prefix node) (bn_prefix_len node) (bn_state_mask node) (bn_tree_mask node)
             (bn_child_hashes node) (bn_leaf_paths node) = Ok node;
  wf_state : 0 <= bn_state_mask node < 2 ^ 16;
  wf_tree : 0 <= bn_tree_mask node < 2 ^ 16;
  wf_hashes : Forall (fun h => length h = 32%nat) (bn_child_hashes node);
  wf_paths : Forall (fun p => length p = N) (bn_leaf_paths node)
}.

(** The conditions of [node_new]. *)
Lemma node_new_inv N p k s t hs ps node : node_new N p k s t hs ps = Ok node ->
  (k < 2 * N)%nat /\ length p = div_ceil2 k /\ length hs = count_ones s /\
  length ps = count_ones (and_not s t) /\
  node = {| bn_prefix := p; bn_prefix_len := k; bn_state_mask := s; bn_tree_mask := t;
            bn_child_hashes := hs; bn_leaf_paths := ps |}.
Proof.
  unfold node_new. destruct (Nat.leb_spec (2 * N) k); [done|].
  destruct (Nat.eqb_spec (length p) (div_ceil2 k)) as [Hp|]; [|done]. cbn [orb negb].
  destruct (_ && _); [done|]. destruct (_ <? _)%nat; [done|]. destruct (_ =? 0); [|done].
  destruct (Nat.eqb_spec (length hs) (count_ones s)); [|done].
  destruct (Nat.eqb_spec (length ps) (count_ones (and_not s t))); [|done].
  cbn [orb negb]. intros [= <-]. done.
Qed.

Section Codec.
Context (N : nat).
Hypothesis HN : (1 <= N <= 32)%nat.

(** What decoding makes of the fields laid out one after the other. *)
Lemma node_decode_layout b p sb tb H P :
  let k := Z.to_nat (u8 b) in
  let s := be_decode sb in let t := be_decode tb in
  let l := (b :: p) ++ sb ++ tb ++ H ++ P in
  length p = div_ceil2 k -> length sb = 2%nat -> length tb = 2%nat ->
  length H = (count_ones s * 32)%nat ->
  node_decode N l =
  if negb (length P =? count_ones (and_not s t) * N)%nat then Err (InvalidNode "invalid encoded length")
  else node_new N p k s t (chunks_exact (length l) 32 H) (chunks_exact (length l) N P).
Proof using HN.
  intros k s t l Hp Hsb Htb HH. unfold node_decode. change l with (b :: tail l) at 1. cbv iota. fold k.
  set (e := (1 + div_ceil2 k)%nat) in *.
  assert (He : length (b :: p) = e) by (cbn [length]; lia).
  assert (Hlen : length l = (e + 4 + count_ones s * 32 + length P)%nat).
  { unfold l. rewrite !length_app, He. lia. }
  destruct (Nat.ltb_spec (length l) (e + 4)); [lia|].
  assert (take (e + 4) l = (b :: p) ++ sb ++ tb) as ->.
  { unfold l. rewrite (app_assoc sb), (app_assoc (b :: p)).
    apply take_app_length'. rewrite !length_app, He. lia. }
  assert (take 2 (drop e ((b :: p) ++ sb ++ tb)) = sb) as ->.
  { rewrite drop_app_length' by done. by apply take_app_length'. }
  assert (take 2 (drop (e + 2) ((b :: p) ++ sb ++ tb)) = tb) as ->.
  { rewrite (app_assoc (b :: p)), drop_app_length' by (rewrite length_app, He; lia).
    by rewrite take_ge by lia. }
  assert (take e ((b :: p) ++ sb ++ tb) = b :: p) as -> by (by apply take_app_length').
  fold s t. assert (Hdh : drop (e + 4) (take (e + 4 + count_ones s * 32) l) = H).
  { unfold l. rewrite (app_assoc sb), (app_assoc (b :: p)), (app_assoc _ H).
    rewrite take_app_length', drop_app_length'; [done|..]; rewrite ?length_app, ?He; lia. }
  assert (Hdp : drop (e + 4 + count_ones s * 32) l = P).
  { unfold l. rewrite (app_assoc sb), (app_assoc (b :: p)), (app_assoc _ H).
    apply drop_app_length'. rewrite !length_app, He. lia. }
  rewrite Hdh, Hdp, Hlen, <- !Nat.add_assoc. cbn [drop].
  by replace (e + (4 + (count_ones s * 32 + length P)) =? e + (4 + (count_ones s * 32 + count_ones (and_not s t) * N)))%nat
    with (length P =? count_ones (and_not s t) * N)%nat
    by (apply eq_true_iff_eq; rewrite !Nat.eqb_eq; lia).
Qed.

Lemma node_decode_encode node : node_wf N node -> node_decode N (node_encode node) = Ok node.
Proof using HN.
  intros [Hnew Hs Ht Hh Hp]. destruct (node_new_inv _ _ _ _ _ _ _ _ Hnew) as (Hk & Hpl & Hhl & Hll & _).
  destruct node as [p k s t hs ps]. cbn [bn_prefix bn_prefix_len bn_state_mask bn_tree_mask
    bn_child_hashes bn_leaf_paths] in *.
  assert (Hl : node_encode (Build_BranchNodeCompact p k s t hs ps) =
    (byte_of (Z.of_nat k) :: p) ++ be_encode 2 s ++ be_encode 2 t ++ concat hs ++ concat ps).
  { unfold node_encode, hash_payload. cbn. by rewrite <- !app_assoc. }
  assert (Hb : Z.to_nat (u8 (byte_of (Z.of_nat k))) = k).
  { rewrite u8_byte_of, Z.mod_small, Nat2Z.id; lia. }
  rewrite Hl, node_decode_layout; rewrite ?Hb, ?be_decode_encode, ?length_be_encode by done; try done.
  - rewrite (length_concat_same N), Hll, Nat.eqb_refl by done. cbn [negb].
    rewrite !chunks_concat; [done|lia|done| |lia|done|]; rewrite !length_app, (length_concat_same N ps),
      (length_concat_same 32 hs), !length_be_encode by done; cbn [length]; nia.
  - by rewrite (length_concat_same 32), Hhl.
Qed.

Lemma split_at {A} (l : list A) n : (n <= length l)%nat -> exists l1 l2, l = l1 ++ l2 /\ length l1 = n.
Proof using.
  intros Hn. exists (take n l), (drop n l). rewrite take_drop. split; [done|]. by apply length_take_le.
Qed.

(** Decoding is strict: the bytes it accepts are the encoding of its result. *)
Lemma node_encode_decode l node : node_decode N l = Ok node -> node_encode node = l /\ node_wf N node.
Proof using HN.
  intros E. destruct l as [|b l]; [done|]. set (k := Z.to_nat (u8 b)).
  assert (Hshort : (div_ceil2 k + 4 <= length l)%nat).
  { unfold node_decode in E. fold k in E. destruct (Nat.ltb_spec (length (b :: l)) (1 + div_ceil2 k + 4)); [done|].
    cbn [length] in *. lia. }
  destruct (split_at l (div_ceil2 k)) as (p & l1 & -> & Hp); [lia|]. rewrite length_app in Hshort.
  destruct (split_at l1 2) as (sb & l2 & -> & Hsb); [lia|]. rewrite length_app in Hshort.
  destruct (split_at l2 2) as (tb & l3 & -> & Htb); [lia|].
  set (s := be_decode sb). set (t := be_decode tb).
  assert (Hlong : (count_ones s * 32 <= length l3)%nat).
  { unfold node_decode in E. fold k in E. set (l := b :: _) in E.
    assert (Hh : take (1 + div_ceil2 k + 4) l = (b :: p) ++ sb ++ tb).
    { unfold l. change (b :: ?x) with ([b] ++ x) at 1.
      rewrite (app_assoc sb), (app_assoc p), (app_assoc [b]).
      apply take_app_length'. rewrite !length_app. cbn [length]. lia. }
    rewrite Hh in E.
    assert (Hd : take 2 (drop (1 + div_ceil2 k) ((b :: p) ++ sb ++ tb)) = sb).
    { rewrite drop_app_length' by (cbn [length]; lia). by apply take_app_length'. }
    rewrite Hd in E. fold s in E. destruct (_ <? _)%nat in E; [done|].
    match type of E with context [negb (length l =? ?x)%nat] =>
      destruct (Nat.eqb_spec (length l) x) as [Hlen|]; [|done] end.
    unfold l in Hlen. cbn [length] in Hlen. rewrite !length_app in Hlen. lia. }
  destruct (split_at l3 (count_ones s * 32)) as (H & P & -> & HH); [done|].
  change (b :: p ++ ?x) with ((b :: p) ++ x) in *.
  rewrite node_decode_layout in E by done. fold k s t in E.
  destruct (Nat.eqb_spec (length P) (count_ones (and_not s t) * N)) as [HP|]; [|done]. cbn [negb] in E.
  set (L := length _) in E.
  assert (HL : (length H + length P < L)%nat) by (unfold L; rewrite !length_app; cbn [length]; lia).
  destruct (concat_chunks 32 (count_ones s) L H) as (HcH & HlH & HfH); [lia|done|lia|].
  destruct (concat_chunks N (count_ones (and_not s t)) L P) as (HcP & HlP & HfP); [lia|done|nia|].
  pose proof E as Hnew. apply node_new_inv in E as (Hk & _ & _ & _ & ->).
  split.
  - unfold node_encode, hash_payload. cbn [bn_prefix bn_prefix_len bn_state_mask bn_tree_mask
      bn_child_hashes bn_leaf_paths]. rewrite HcH, HcP, <- !app_assoc. unfold k, s, t.
    rewrite <- Hsb at 1. rewrite <- Htb at 1. rewrite !be_encode_decode, Z2Nat.id, byte_of_u8; [done|].
    apply u8_range.
  - pose proof (be_decode_range sb) as Hs. pose proof (be_decode_range tb) as Ht.
    rewrite Hsb in Hs. rewrite Htb in Ht. split; cbn; [done..|exact HfH|exact HfP].
Qed.

(** The branch of some children decodes to itself. *)
Lemma node_of_wf prefix cs : branch_shape N prefix cs ->
  Forall (fun h => length h = 32%nat) (omap child_hash cs) ->
  Forall (fun p => length p = N) (omap leaf_path cs) -> node_wf N (node_of prefix cs).
Proof using HN.
  intros Hsh Hh Hp. pose proof (from_children_ok (proj2 HN) Hsh) as E.
  unfold from_children in E. rewrite gather_spec in E. cbn [app] in E.
  rewrite !Z.shiftl_0_r, !Z.lor_0_l, Nat.mod_small in E by (pose proof (shape_len _ _ _ Hsh); lia).
  pose proof (mask_bound occupied cs) as Ho. pose proof (mask_bound is_branch cs) as Hb.
  rewrite (shape_16 _ _ _ Hsh) in Ho, Hb. by split.
Qed.
End Codec.
