(* ===== verification/MerkleTrie.v ===== *)
(** The branch-only compressed hexary trie: crates/merkle/src/trie.rs.

    The operations are translated over the [ReadTransaction] and
    [WriteTransaction] classes. Recursion follows routes of at most [2 * N]
    nibbles, so the fuel of every recursive operation is [2 * N + 1] ([DEPTH]);
    the theorems show it is never exhausted. *)
From Stdlib Require Import ZArith Lia.
From S2P Require Import Prelude Ordered Storage MerkleNode.

(** * Batches *)

(** A subtrie edited by a batch. *)
Inductive Edited : Type :=
  | Stored (r : RootRef)
  | New (prefix : list nat) (children : list RootRef).

#[global] Instance Edited_eq_dec : EqDecision Edited.
Proof. solve_decision. Defined.

(** [Edit]: the leaf hash to set at a path, or [None] to remove it. *)
Abbreviation Edit := (bytes * option Hash)%type.

(** [[RootRef::Empty; 16]] *)
Definition no_children : list RootRef := replicate 16 REmpty.

(** [slice::chunk_by]: runs of elements related to the next one. *)
Fixpoint chunk_by {A} (same : A -> A -> bool) (l : list A) : list (list A) :=
  match l with
  | [] => []
  | a :: rest =>
      match chunk_by same rest, head rest with
      | group :: groups, Some b => if same a b then (a :: group) :: groups else [a] :: group :: groups
      | groups, _ => [a] :: groups
      end
  end.

(** [(from..to).find(|&i| a[i] != b[i])] *)
Definition first_difference (from to : nat) (a b : list nat) : option nat :=
  head (filter (fun i => a !! i <> b !! i) (seq from (to - from))).

(** [zip(..).take_while(|(a, b)| a == b).count()] *)
Fixpoint shared_prefix (a b : list nat) : nat :=
  match a, b with
  | x :: a', y :: b' => if (x =? y)%nat then S (shared_prefix a' b') else 0
  | _, _ => 0
  end.

(** [split_prefix] *)
Definition split_prefix (prefix : list nat) (children : list RootRef) (edits : list Edit) (depth : nat)
    : nat * list Edited :=
  let lens := omap (fun '(path, h) => match h with
                                      | Some _ => Some (matched prefix path depth)
                                      | None => None
                                      end) edits in
  let kept := match lens with
              | [] => length prefix
              | n :: ns => foldl Nat.min n ns
              end in
  if (kept =? length prefix)%nat then (kept, Stored <$> children)
  else
    let split := replicate 16 (Stored REmpty) in
    (kept, <[nth kept prefix 0 := New (drop (S kept) prefix) children]> split).

(** [following] *)
Definition following (edits : list Edit) (prefix : list nat) (depth : nat) : list Edit :=
  let follows '(path, _) := (matched prefix path depth =? length prefix)%nat in
  let start := default (length edits) (position follows edits) in
  let end_ := from_option S start (rposition follows edits) in
  drop start (take end_ edits).

Section Trie.
Context `{HashProvider} (N : nat) (table : Table) (domain : byte).

Definition DEPTH : nat := 2 * N + 1.

(** ** Reading *)
Section Reading.
Context {T : Type} `{ReadTransaction T}.

Definition load (tx : T) (h : Hash) (route : list nat) : res MerkleError BranchNodeCompact :=
  row ← map_err MStorage (tx_get tx table h);
  row ← ok_or row (MissingBranch h);
  node ← node_decode N row;
  if bool_decide (node_hash node domain = h) then
    _ ← validate_at N node route;
    Ok node
  else Err HashMismatch.

(** [validate_root] *)
Definition validate_root (tx : T) (root : RootRef) : res MerkleError unit :=
  match root with
  | RBranch h => _ ← load tx h []; Ok ()
  | _ => Ok ()
  end.

(** The loop of [get]. *)
Fixpoint get_loop (fuel : nat) (tx : T) (root : RootRef) (path : bytes) (route : list nat)
    : res MerkleError (option LeafRef) :=
  match fuel with
  | O => Diverge
  | S fuel =>
      match root with
      | REmpty => Ok None
      | RLeaf leaf => Ok (if bool_decide (lf_path leaf = path) then Some leaf else None)
      | RBranch h =>
          node ← load tx h route;
          let route := route ++ unpack_prefix node in
          if bool_decide (route `prefix_of` nibbles path) then
            slot ← unwrap (nibbles path !! length route);
            get_loop fuel tx (default REmpty (node_child node slot)) path (route ++ [slot])
          else Ok None
      end
  end.

Definition get (tx : T) (root : RootRef) (path : bytes) : res MerkleError (option LeafRef) :=
  get_loop DEPTH tx root path [].

(** [Walk]: the stack's top is the head of the list. *)
Abbreviation Walk := (list (RootRef * list nat)).

Definition walk (root : RootRef) : Walk := [(root, [])].

(** [Walk::next]; [None] ends the iteration. *)
Fixpoint walk_next (fuel : nat) (tx : T) (stack : Walk) : option (res MerkleError LeafRef) * Walk :=
  match fuel with
  | O => (Some Diverge, stack)
  | S fuel =>
      match stack with
      | [] => (None, [])
      | (REmpty, _) :: rest => walk_next fuel tx rest
      | (RLeaf leaf, _) :: rest => (Some (Ok leaf), rest)
      | (RBranch h, route) :: rest =>
          match load tx h route with
          | Ok node =>
              let route := route ++ unpack_prefix node in
              let push stack slot :=
                match node_child node slot with
                | Some child => (child, route ++ [slot]) :: stack
                | None => stack
                end in
              walk_next fuel tx (foldl push rest (reverse (seq 0 16)))
          | Err e => (Some (Err e), [])
          | Panic => (Some Panic, rest)
          | Diverge => (Some Diverge, rest)
          end
      end
  end.
End Reading.

(** ** Writing *)
Section Writing.
Context {T : Type} `{WriteTransaction T}.
Abbreviation M := (stres T MerkleError).

(** [store] after its check: an equal row may be there already. *)
Definition store_row (node : BranchNodeCompact) : M RootRef := fun tx =>
  let h := node_hash node domain in
  let row := node_encode node in
  match tx_insert table h row tx with
  | (Ok _, tx) => (Ok (RBranch h), tx)
  | (Err AlreadyExists, tx) =>
      match map_err MStorage (tx_get tx table h) with
      | Ok old => if bool_decide (old = Some row) then (Ok (RBranch h), tx) else (Err ConflictingBranch, tx)
      | Err e => (Err e, tx)
      | Panic => (Panic, tx)
      | Diverge => (Diverge, tx)
      end
  | (Err e, tx) => (Err (MStorage e), tx)
  | (Panic, tx) => (Panic, tx)
  | (Diverge, tx) => (Diverge, tx)
  end.

Definition store (node : BranchNodeCompact) (route : list nat) : M RootRef :=
  _ ← lift_res (validate_at N node route);
  store_row node.

(** [store(tx, from_children(prefix, children)?, route)] *)
Definition store_children (prefix : list nat) (children : list RootRef) (route : list nat) : M RootRef :=
  node ← lift_res (from_children N prefix children);
  store node route.

Definition leaf_or_empty (replacement : option LeafRef) : RootRef :=
  match replacement with Some leaf => RLeaf leaf | None => REmpty end.

Definition edit_leaf (old : LeafRef) (target : bytes) (replacement : option LeafRef) (route : list nat)
    : M RootRef :=
  if bool_decide (lf_path old = target) then mret (leaf_or_empty replacement)
  else
    match replacement with
    | None => mret (RLeaf old)
    | Some new =>
        let old_path := nibbles (lf_path old) in
        let new_path := nibbles target in
        depth ← lift_res (unwrap (first_difference (length route) (N * 2) old_path new_path));
        let children := <[nth depth old_path 0 := RLeaf old]> no_children in
        let children := <[nth depth new_path 0 := RLeaf new]> children in
        store_children (drop (length route) (take depth new_path)) children route
    end.

Definition split_branch (node : BranchNodeCompact) (prefix : list nat) (new : LeafRef) (shared : nat)
    (route : list nat) : M RootRef :=
  let old_route := route ++ take (shared + 1) prefix in
  old ← store_children (drop (shared + 1) prefix) (node_children node) old_route;
  let children := <[nth shared prefix 0 := old]> no_children in
  let children := <[nibble (lf_path new) (length route + shared) := RLeaf new]> children in
  store_children (take shared prefix) children route.

(** The occupied slots of some children. *)
Definition active (children : list RootRef) : list (nat * RootRef) :=
  filter (fun p => snd p <> REmpty) (imap pair children).

Definition rebuild_branch (prefix : list nat) (children : list RootRef) (route : list nat) : M RootRef :=
  match active children with
  | [(slot, RBranch h)] =>
      child ← reading (fun tx => load tx h (route ++ prefix ++ [slot]));
      store_children (prefix ++ [slot] ++ unpack_prefix child) (node_children child) route
  | [(_, only)] => mret only
  | _ => store_children prefix children route
  end.

(** [edit_branch], over the recursive [edit]. *)
Definition edit_branch (edit : RootRef -> bytes -> option LeafRef -> list nat -> M RootRef)
    (h : Hash) (target : bytes) (replacement : option LeafRef) (route : list nat) : M RootRef :=
  node ← reading (fun tx => load tx h route);
  let prefix := unpack_prefix node in
  let target_path := nibbles target in
  let shared := shared_prefix prefix (drop (length route) target_path) in
  if negb (shared =? length prefix)%nat then
    match replacement with
    | None => mret (RBranch h)
    | Some new => split_branch node prefix new shared route
    end
  else
    let child_route := route ++ prefix in
    slot ← lift_res (unwrap (target_path !! length child_route));
    let child_route := child_route ++ [slot] in
    let children := node_children node in
    child ← lift_res (unwrap (children !! slot));
    changed ← edit child target replacement child_route;
    if bool_decide (changed = child) then mret (RBranch h)
    else rebuild_branch prefix (<[slot := changed]> children) route.

Fixpoint edit (fuel : nat) (root : RootRef) (target : bytes) (replacement : option LeafRef)
    (route : list nat) : M RootRef :=
  match fuel with
  | O => lift_res Diverge
  | S fuel =>
      match root with
      | REmpty => mret (leaf_or_empty replacement)
      | RLeaf leaf => edit_leaf leaf target replacement route
      | RBranch h => edit_branch (edit fuel) h target replacement route
      end
  end.

Definition insert (root : RootRef) (leaf : LeafRef) : M RootRef :=
  edit DEPTH root (lf_path leaf) (Some leaf) [].

Definition remove (root : RootRef) (path : bytes) : M RootRef :=
  edit DEPTH root path None [].

(** [store_edited] *)
Definition store_edited (e : Edited) (route : list nat) : M RootRef :=
  match e with
  | Stored root => mret root
  | New prefix children => store_children prefix children route
  end.

(** The loop of [collapse] that stores the children from [slot] on. *)
Fixpoint store_each (slot : nat) (es : list Edited) (child_route : list nat) : M (list RootRef) :=
  match es with
  | [] => mret []
  | e :: es =>
      r ← store_edited e (child_route ++ [slot]);
      rs ← store_each (S slot) es child_route;
      mret (r :: rs)
  end.

Definition collapse (prefix : list nat) (es : list Edited) (child_route : list nat) : M Edited :=
  let active := filter (fun p => snd p <> Stored REmpty) (imap pair es) in
  match active with
  | [] => mret (Stored REmpty)
  | [(slot, New child_prefix grandchildren)] =>
      mret (New (prefix ++ [slot] ++ child_prefix) grandchildren)
  | [(slot, Stored (RBranch h))] =>
      child ← reading (fun tx => load tx h (child_route ++ [slot]));
      mret (New (prefix ++ [slot] ++ unpack_prefix child) (node_children child))
  | [(_, leaf)] => mret leaf
  | _ =>
      children ← store_each 0 es child_route;
      mret (New prefix children)
  end.

(** The loop of [build] over the groups of leaves that share a nibble. *)
Fixpoint build_groups (build : list LeafRef -> list nat -> M Edited) (depth : nat) (route : list nat)
    (groups : list (list LeafRef)) (children : list RootRef) : M (list RootRef) :=
  match groups with
  | [] => mret children
  | group :: groups =>
      first ← lift_res (unwrap (head group));
      let slot := nibble (lf_path first) depth in
      child ← build group (route ++ [slot]);
      r ← store_edited child (route ++ [slot]);
      build_groups build depth route groups (<[slot := r]> children)
  end.

(** [leaf.path]'s nibbles at [depth] agree *)
Definition same_slot (depth : nat) (a b : bytes) : bool := (nibble a depth =? nibble b depth)%nat.

Fixpoint build (fuel : nat) (leaves : list LeafRef) (route : list nat) : M Edited :=
  match fuel with
  | O => lift_res Diverge
  | S fuel =>
      match leaves with
      | [] => mret (Stored REmpty)
      | [only] => mret (Stored (RLeaf only))
      | first :: rest =>
          let last_ := default first (last rest) in
          let first := nibbles (lf_path first) in
          let last_ := nibbles (lf_path last_) in
          depth ← lift_res (unwrap (first_difference (length route) (N * 2) first last_));
          let groups := chunk_by (fun a b => same_slot depth (lf_path a) (lf_path b)) leaves in
          children ← build_groups (build fuel) depth (take depth first) groups no_children;
          mret (New (drop (length route) (take depth first)) children)
      end
  end.

(** [rebuild] *)
Definition rebuild (fuel : nat) (old : option LeafRef) (edits : list Edit) (route : list nat) : M Edited :=
  let leaves := omap (fun '(path, h) => (fun h => {| lf_path := path; lf_hash := h |}) <$> h) edits in
  let leaves :=
    match old with
    | Some old =>
        if forallb (fun '(path, _) => negb (bool_decide (path = lf_path old))) edits
        then (fun '(p, h) => {| lf_path := p; lf_hash := h |}) <$>
               sort_rows ((fun l => (lf_path l, lf_hash l)) <$> (leaves ++ [old]))
        else leaves
    | None => leaves
    end in
  build fuel leaves route.

(** The loop of [apply_at] over the groups of edits that share a nibble. *)
Fixpoint apply_groups (apply_at : Edited -> list Edit -> list nat -> M Edited) (child_route : list nat)
    (groups : list (list Edit)) (es : list Edited) : M (list Edited) :=
  match groups with
  | [] => mret es
  | group :: groups =>
      first ← lift_res (unwrap (head group));
      let slot := nibble (fst first) (length child_route) in
      child ← lift_res (unwrap (es !! slot));
      e ← apply_at child group (child_route ++ [slot]);
      apply_groups apply_at child_route groups (<[slot := e]> es)
  end.

(** The part of [apply_at] that edits a branch: [stored] is its row's hash,
    if it has one. *)
Definition apply_branch (apply_at : Edited -> list Edit -> list nat -> M Edited) (stored : option Hash)
    (prefix : list nat) (children : list RootRef) (edits : list Edit) (route : list nat) : M Edited :=
  let '(kept, es) := split_prefix prefix children edits (length route) in
  let edits := following edits (take kept prefix) (length route) in
  let was_split := (kept <? length prefix)%nat in
  let prefix := take kept prefix in
  let child_route := route ++ prefix in
  let depth := length child_route in
  es ← apply_groups apply_at child_route (chunk_by (fun a b => same_slot depth (fst a) (fst b)) edits) es;
  if negb was_split && forallb (fun '(e, c) => bool_decide (e = Stored c)) (zip es children) then
    mret match stored with
         | Some h => Stored (RBranch h)
         | None => New prefix children
         end
  else collapse prefix es child_route.

Fixpoint apply_at (fuel : nat) (subtrie : Edited) (edits : list Edit) (route : list nat) : M Edited :=
  match fuel with
  | O => lift_res Diverge
  | S fuel =>
      match subtrie with
      | Stored REmpty => rebuild (S fuel) None edits route
      | Stored (RLeaf leaf) => rebuild (S fuel) (Some leaf) edits route
      | Stored (RBranch h) =>
          node ← reading (fun tx => load tx h route);
          apply_branch (apply_at fuel) (Some h) (unpack_prefix node) (node_children node) edits route
      | New prefix children => apply_branch (apply_at fuel) None prefix children edits route
      end
  end.

(** [apply]: the edits are sorted by path and the last edit of a path kept. *)
Definition apply (root : RootRef) (edits : list Edit) : M RootRef :=
  edited ← apply_at DEPTH (Stored root) (normalize edits) [];
  store_edited edited [].
End Writing.
End Trie.
