(* ===== verification/Groups.v ===== *)
(** Runs of equal keys: what [chunk_by] makes of a list sorted by a key.

    The index sorts a batch of postings and then works run by run: first by
    term, then by container path. The groups partition the list in order, each
    group has one key, and the keys of successive groups increase. *)
From Stdlib Require Import ZArith Lia List.
From S2P Require Import Prelude Ordered MerkleTrie.

Lemma elem_of_concat {A} (ls : list (list A)) x : x ∈ concat ls <-> exists l, l ∈ ls /\ x ∈ l.
Proof.
  rewrite list_elem_of_In, in_concat. setoid_rewrite list_elem_of_In. done.
Qed.

Lemma filter_all_id {A} (P : A -> Prop) `{!forall x, Decision (P x)} l : Forall P l -> filter P l = l.
Proof. induction 1; [done|]. rewrite filter_cons, decide_True by done. by f_equal. Qed.

Lemma filter_nil_all {A} (P : A -> Prop) `{!forall x, Decision (P x)} l : Forall (fun x => ~ P x) l -> filter P l = [].
Proof. induction 1; [done|]. by rewrite filter_cons, decide_False. Qed.

Section Groups.
Context {A K : Type} `{OrderedLaws K} (f : A -> K) (same : A -> A -> bool).
Hypothesis Hsame : forall a b, same a b = true <-> f a = f b.

(** One key per group, and no group is empty. *)
Definition homogeneous (g : list A) : Prop := exists a rest, g = a :: rest /\ Forall (fun b => f b = f a) rest.

Lemma chunk_by_concat l : concat (chunk_by same l) = l.
Proof using.
  clear Hsame. induction l as [|a l IH]; [done|]. cbn [chunk_by].
  destruct (chunk_by same l) as [|g gs]; [by destruct l|]. destruct l as [|b l]; cbn [head].
  - cbn [concat app] in *. by rewrite IH.
  - destruct (same a b); cbn [concat app] in *; by rewrite IH.
Qed.

Lemma chunk_by_head a l : exists rest gs, chunk_by same (a :: l) = (a :: rest) :: gs.
Proof using.
  clear Hsame. cbn [chunk_by]. destruct (chunk_by same l) as [|g gs]; [by eexists _, _|].
  destruct (head l); [|by eexists _, _]. destruct (same a a0); by eexists _, _.
Qed.

Lemma chunk_by_homogeneous l : Forall homogeneous (chunk_by same l).
Proof using Hsame.
  induction l as [|a l IH]; [constructor|]. destruct l as [|b l].
  { repeat constructor. by exists a, []. }
  destruct (chunk_by_head b l) as (rest & gs & E). change (chunk_by same (a :: b :: l)) with
    (match chunk_by same (b :: l), head (b :: l) with
     | group :: groups, Some b => if same a b then (a :: group) :: groups else [a] :: group :: groups
     | groups, _ => [a] :: groups end).
  rewrite E in *. cbn [head]. destruct (same a b) eqn:Es.
  - apply Forall_cons in IH as [(b' & rest' & [= <- <-] & Hr) IH]. constructor; [|done].
    exists a, (b :: rest). split; [done|]. apply Hsame in Es. constructor; [done|].
    eapply Forall_impl; [exact Hr|]. cbn. congruence.
  - constructor; [|done]. by exists a, [].
Qed.

Lemma chunk_by_sorted l : StronglySorted (fun a b => kle (f a) (f b)) l ->
  StronglySorted (fun g h => forall a b, a ∈ g -> b ∈ h -> klt (f a) (f b)) (chunk_by same l).
Proof using All.
  induction l as [|a l IH]; [constructor|]. intros [Hs Ha]%StronglySorted_inv. specialize (IH Hs). destruct l as [|b l].
  { repeat constructor. }
  destruct (chunk_by_head b l) as (rest & gs & E). pose proof (chunk_by_homogeneous (b :: l)) as Hh.
  pose proof (chunk_by_concat (b :: l)) as Hcat.
  change (chunk_by same (a :: b :: l)) with
    (match chunk_by same (b :: l), head (b :: l) with
     | group :: groups, Some b => if same a b then (a :: group) :: groups else [a] :: group :: groups
     | groups, _ => [a] :: groups end).
  rewrite E in *. cbn [head]. apply StronglySorted_inv in IH as [IHs IHf]. destruct (same a b) eqn:Es.
  - apply Hsame in Es. constructor; [done|]. rewrite Forall_forall in IHf |- *. intros g Hg x y [->|Hx]%elem_of_cons Hy.
    + rewrite Es. by eapply IHf; [exact Hg|apply list_elem_of_here|].
    + by eapply IHf; [exact Hg|exact Hx|].
  - constructor; [by constructor|]. rewrite Forall_forall in Ha. apply StronglySorted_inv in Hs as [_ Hb]. rewrite Forall_forall in Hb.
    assert (klt (f a) (f b)) as Hab.
    { destruct (proj1 (kle_iff (f a) (f b))) as [|Heq]; [apply Ha, list_elem_of_here|done|].
      apply Hsame in Heq. congruence. }
    apply Forall_forall. intros g Hg x y ->%list_elem_of_singleton Hy.
    assert (y ∈ b :: l) as Hin.
    { rewrite <- Hcat. apply elem_of_concat. by exists g. }
    apply elem_of_cons in Hin as [->|Hin]; [done|]. eapply klt_kle_trans; [exact Hab|by apply Hb].
Qed.

(** A group is what the list holds of its key. *)
Lemma group_filter `{EqDecision K} gs g a : Forall homogeneous gs ->
  StronglySorted (fun g h => forall a b, a ∈ g -> b ∈ h -> klt (f a) (f b)) gs ->
  g ∈ gs -> a ∈ g -> filter (fun x => f x = f a) (concat gs) = g.
Proof using H0.
  clear Hsame. induction gs as [|h gs IH]; intros Hh Hs Hg Ha; [by apply not_elem_of_nil in Hg|].
  apply Forall_cons in Hh as [Hhom Hh]. apply StronglySorted_inv in Hs as [Hs Hlt]. rewrite Forall_forall in Hlt.
  cbn [concat]. rewrite filter_app. apply elem_of_cons in Hg as [->|Hg].
  - assert (filter (fun x => f x = f a) (concat gs) = []) as ->.
    { apply filter_nil_all, Forall_forall. intros x (h' & Hh' & Hx)%elem_of_concat E.
      specialize (Hlt h' Hh' a x Ha Hx). rewrite E in Hlt. by apply klt_irrefl in Hlt. }
    rewrite app_nil_r. apply filter_all_id. destruct Hhom as (b & rest & -> & Hb). rewrite Forall_forall in Hb.
    assert (forall x, x ∈ b :: rest -> f x = f b) as Hall by (intros x [->|Hx]%elem_of_cons; [done|by apply Hb]).
    apply Forall_forall. intros x Hx. by rewrite (Hall x Hx), (Hall a Ha).
  - rewrite (IH Hh Hs Hg Ha). assert (filter (fun x => f x = f a) h = []) as ->; [|done].
    apply filter_nil_all, Forall_forall. intros x Hx E. specialize (Hlt g Hg x a Hx Ha). rewrite E in Hlt.
    by apply klt_irrefl in Hlt.
Qed.
End Groups.
