(* ===== verification/Frame.v ===== *)
(** What any trie update leaves of a transaction, whatever its arguments.

    [keeps R c] says that the object after [c] is related to the one before it,
    on every outcome. A trie update keeps every preorder that an insertion into
    its table keeps, so it only adds rows to that table; the argument needs no
    assumption on the root, the stored rows or the edits. *)
From Stdlib Require Import ZArith Lia.
From S2P Require Import Prelude Ordered Storage MerkleNode MerkleTrie.

Definition keeps {S E A} (R : S -> S -> Prop) (c : stres S E A) : Prop := forall s, R s (c s).2.

Section Keeps.
Context {S E : Type} (R : S -> S -> Prop) `{!PreOrder R}.

Lemma keeps_ret {A} (a : A) : keeps R (mret a : stres S E A).
Proof. intros s. done. Qed.
Lemma keeps_lift {A} (c : res E A) : keeps R (lift_res c).
Proof. intros s. done. Qed.
Lemma keeps_reading {A} (f : S -> res E A) : keeps R (reading f).
Proof. intros s. done. Qed.
Lemma keeps_bind {A B} (c : stres S E A) (f : A -> stres S E B) :
  keeps R c -> (forall a, keeps R (f a)) -> keeps R (c ≫= f).
Proof.
  intros Hc Hf s. unfold mbind, stres_mbind. specialize (Hc s). destruct (c s) as [[a|e| |] s']; cbn in *; try done.
  etrans; [exact Hc|apply Hf].
Qed.
Lemma keeps_map_err {F A} (g : F -> E) (c : stres S F A) : keeps R c -> keeps R (st_map_err g c).
Proof. intros Hc s. unfold st_map_err. specialize (Hc s). by destruct (c s). Qed.
End Keeps.

Create HintDb keeps discriminated.
#[export] Hint Resolve keeps_ret keeps_lift keeps_reading : keeps.
#[export] Hint Extern 0 (PreOrder _) => typeclasses eauto : keeps.

(** Split binds and case distinctions down to the parts already known. *)
Ltac keeps :=
  repeat first
    [ solve [eauto with keeps]
    | match goal with
      | |- forall _, _ => intros ?
      | |- keeps _ (mbind _ _) => apply keeps_bind; [typeclasses eauto| |intros ?]
      | |- keeps _ (st_map_err _ _) => apply keeps_map_err
      end
    | progress case_match
    | solve [intros ?; eauto] ].

Section Trie.
Context `{HashProvider} (N : nat) (table : Table) (domain : byte).
Context {T : Type} `{WT : WriteTransaction T}.
Context (R : T -> T -> Prop) `{!PreOrder R}.
Hypothesis Hinsert : forall k v tx, R tx (tx_insert table k v tx).2.

Lemma store_row_keeps node : keeps R (store_row table domain node).
Proof.
  intros tx. unfold store_row. pose proof (Hinsert (node_hash node domain) (node_encode node) tx) as Hi.
  destruct (tx_insert table (node_hash node domain) (node_encode node) tx) as [[a|[]| |] tx']; cbn [snd] in *; try done.
  destruct (map_err MStorage (tx_get tx' table (node_hash node domain))); [case_bool_decide|..]; done.
Qed.
#[local] Hint Resolve store_row_keeps : keeps.

Lemma store_children_keeps prefix children route : keeps R (store_children N table domain prefix children route).
Proof. unfold store_children, store. keeps. Qed.
#[local] Hint Resolve store_children_keeps : keeps.

Lemma store_edited_keeps e route : keeps R (store_edited N table domain e route).
Proof. unfold store_edited. keeps. Qed.
#[local] Hint Resolve store_edited_keeps : keeps.

Lemma store_each_keeps slot es route : keeps R (store_each N table domain slot es route).
Proof. revert slot. induction es as [|e es IH]; intros slot; cbn [store_each]; keeps. Qed.
#[local] Hint Resolve store_each_keeps : keeps.

Lemma collapse_keeps prefix es route : keeps R (collapse N table domain prefix es route).
Proof. unfold collapse. keeps. Qed.
#[local] Hint Resolve collapse_keeps : keeps.

Lemma build_groups_keeps build depth route groups children : (forall leaves route, keeps R (build leaves route)) ->
  keeps R (build_groups N table domain build depth route groups children).
Proof. intros Hb. revert children. induction groups as [|g groups IH]; intros children; cbn [build_groups]; keeps. Qed.

Lemma build_keeps fuel leaves route : keeps R (build N table domain fuel leaves route).
Proof.
  revert leaves route. induction fuel as [|fuel IH]; intros leaves route; cbn [build]; [keeps|].
  destruct leaves as [|a [|b l]]; keeps. apply build_groups_keeps. apply IH.
Qed.
#[local] Hint Resolve build_keeps : keeps.

Lemma apply_groups_keeps go route groups es : (forall e edits route, keeps R (go e edits route)) ->
  keeps R (apply_groups go route groups es).
Proof. intros Hg. revert es. induction groups as [|g groups IH]; intros es; cbn [apply_groups]; keeps. Qed.

Lemma apply_branch_keeps go stored prefix children edits route : (forall e edits route, keeps R (go e edits route)) ->
  keeps R (apply_branch N table domain go stored prefix children edits route).
Proof. intros Hg. unfold apply_branch. destruct (split_prefix _ _ _ _). keeps. by apply apply_groups_keeps. Qed.

Lemma apply_at_keeps fuel e edits route : keeps R (apply_at N table domain fuel e edits route).
Proof.
  revert e edits route. induction fuel as [|fuel IH]; intros e edits route; cbn [apply_at]; [keeps|].
  destruct e as [[]|]; unfold rebuild; keeps; by apply apply_branch_keeps.
Qed.

(** Whatever an insertion keeps, a batch keeps. *)
Lemma apply_keeps root edits : keeps R (apply N table domain root edits).
Proof. unfold apply. keeps. apply apply_at_keeps. Qed.
End Trie.
