(* ===== verification/MerkleTree.v ===== *)
(** Canonical hexary trees: what a root reference of crates/merkle stands for.

    A stored trie is a content-addressed graph of rows; [tree] is the tree it
    unfolds to, [wf] the canonical form (no unary branch, every leaf on its
    route) and [stored] says that a table holds the row of every branch. A
    canonical tree is determined by its leaves ([wf_unique]), and within one
    table a reference determines its tree ([ref_inj]) without assuming the
    digest injective. *)
From Stdlib Require Import ZArith Lia.
From S2P Require Import Prelude Ordered Storage MerkleNode.

#[local] Set Warnings "-register-all".

Inductive tree : Type :=
  | TEmpty
  | TLeaf (leaf : LeafRef)
  | TBranch (prefix : list nat) (cs : list tree).

(** Induction with the hypothesis for every child. *)
Lemma tree_ind' (P : tree -> Prop) :
  P TEmpty -> (forall leaf, P (TLeaf leaf)) ->
  (forall prefix cs, Forall P cs -> P (TBranch prefix cs)) -> forall t, P t.
Proof.
  intros H0 H1 H2. fix IH 1. intros [|leaf|prefix cs]; [apply H0|apply H1|].
  apply H2. induction cs; constructor; [apply IH|done].
Qed.

(** A leaf of the tree. *)
Inductive has : tree -> LeafRef -> Prop :=
  | has_leaf l : has (TLeaf l) l
  | has_branch p cs i c l : cs !! i = Some c -> has c l -> has (TBranch p cs) l.

Definition is_TEmpty (t : tree) : bool := match t with TEmpty => true | _ => false end.

Lemma prefix_app_inv {A} (l1 l2 k : list A) : l1 ++ l2 `prefix_of` k -> l1 `prefix_of` k.
Proof. intros [x ->]. rewrite <- app_assoc. by apply prefix_app_r. Qed.

Lemma prefix_lookup_some {A} (l k : list A) i x : l `prefix_of` k -> l !! i = Some x -> k !! i = Some x.
Proof. intros [z ->] E. by apply lookup_app_l_Some. Qed.

(** A route is followed by a path whose next nibble is known. *)
Lemma prefix_snoc {A} (l k : list A) x : l `prefix_of` k -> k !! length l = Some x -> l ++ [x] `prefix_of` k.
Proof.
  intros [z ->] E. rewrite lookup_app_r, Nat.sub_diag in E by lia. destruct z as [|y z]; [done|].
  injection E as ->. exists z. by rewrite <- app_assoc.
Qed.

Lemma prefix_take {A} (l k : list A) : l `prefix_of` k <-> take (length l) k = l.
Proof.
  split; [intros [z ->]; by rewrite take_app_length|]. intros E. exists (drop (length l) k).
  by rewrite <- E at 1; rewrite take_drop.
Qed.

(** ** The byte order of paths is the order of their nibbles *)

Lemma byte_klt (a b : byte) (p q : bytes) : (u8 a < u8 b)%Z -> klt (a :: p) (b :: q).
Proof.
  intros Hab. unfold klt, cmp, list_ordered. cbn [list_cmp]. unfold cmp at 1, byte_ordered.
  by rewrite (proj2 (Z.compare_lt_iff _ _) Hab).
Qed.

Lemma klt_same_head (a : byte) (p q : bytes) : klt p q -> klt (a :: p) (a :: q).
Proof.
  unfold klt, cmp at 2, list_ordered. cbn [list_cmp]. by rewrite cmp_refl.
Qed.

Lemma hi_lo a : u8 a = (Z.of_nat (hi_nibble a) * 16 + Z.of_nat (lo_nibble a))%Z.
Proof.
  unfold hi_nibble, lo_nibble. pose proof (u8_range a). pose proof (Z.mod_pos_bound (u8 a) 16 eq_refl).
  pose proof (Z.div_pos (u8 a) 16). rewrite !Z2Nat.id by lia. rewrite Z.mul_comm. apply Z.div_mod. done.
Qed.

Lemma lo_lt a : (lo_nibble a < 16)%nat.
Proof. unfold lo_nibble. pose proof (Z.mod_pos_bound (u8 a) 16 eq_refl). lia. Qed.

Lemma nibbles_klt p q d x y : take d (nibbles p) = take d (nibbles q) ->
  nibbles p !! d = Some x -> nibbles q !! d = Some y -> (x < y)%nat -> klt p q.
Proof.
  revert q d. induction p as [|a p IH]; intros [|b q] d Ht Hx Hy Hxy; [done..|].
  rewrite !nibbles_cons in *. pose proof (hi_lo a). pose proof (hi_lo b). pose proof (lo_lt a). pose proof (lo_lt b).
  destruct d as [|[|d]]; cbn in Ht, Hx, Hy.
  - simplify_eq. apply byte_klt. lia.
  - simplify_eq. apply byte_klt. lia.
  - injection Ht as Hhi Hlo Ht. assert (a = b) as -> by (apply (inj u8); lia). apply klt_same_head. by eapply IH.
Qed.

(** Where two paths of the same width part, the smaller one has the smaller nibble. *)
Lemma nibbles_mono p q d x y : klt p q -> take d (nibbles p) = take d (nibbles q) ->
  nibbles p !! d = Some x -> nibbles q !! d = Some y -> (x <= y)%nat.
Proof.
  intros Hpq Ht Hx Hy. destruct (decide (x <= y)%nat) as [|Hlt]; [done|]. exfalso.
  eapply (klt_irrefl p). etrans; [exact Hpq|]. eapply nibbles_klt; [symmetry| | |]; eauto. lia.
Qed.

(** A path between two paths that share a prefix has the prefix too. *)
Lemma nibbles_convex p q r d : length p = length q -> length q = length r -> klt p q -> klt q r ->
  take d (nibbles p) = take d (nibbles r) -> take d (nibbles q) = take d (nibbles p).
Proof.
  intros L1 L2 Hpq Hqr. induction d as [|d IH]; [by rewrite !take_0|]. intros Ht.
  assert (take d (nibbles p) = take d (nibbles r)) as Htd.
  { apply (f_equal (take d)) in Ht. rewrite !take_take in Ht. by replace (d `min` S d)%nat with d in Ht by lia. }
  specialize (IH Htd). destruct (decide (d < length (nibbles p))%nat) as [Hd|Hd].
  - rewrite length_nibbles in Hd.
    destruct (lookup_lt_is_Some_2 (nibbles p) d) as [x Hx]; [rewrite length_nibbles; lia|].
    destruct (lookup_lt_is_Some_2 (nibbles q) d) as [y Hy]; [rewrite length_nibbles; lia|].
    destruct (lookup_lt_is_Some_2 (nibbles r) d) as [z Hz]; [rewrite length_nibbles; lia|].
    rewrite (take_S_r _ _ _ Hx), (take_S_r _ _ _ Hz) in Ht. apply app_inj_tail in Ht as [_ <-].
    pose proof (nibbles_mono _ _ _ _ _ Hpq (eq_sym IH) Hx Hy).
    pose proof (nibbles_mono _ _ _ _ _ Hqr (eq_trans IH Htd) Hy Hz).
    rewrite (take_S_r _ _ _ Hx), (take_S_r _ _ _ Hy), IH. do 2 f_equal. lia.
  - rewrite !take_ge in * by (rewrite ?length_nibbles in *; lia). done.
Qed.

(** ** Searching arrays of children *)

Lemma filter_seq_head (P : nat -> Prop) `{!forall i, Decision (P i)} from n d :
  head (filter P (seq from n)) = Some d ->
  (from <= d < from + n)%nat /\ P d /\ forall i, (from <= i < d)%nat -> ~ P i.
Proof.
  revert from. induction n as [|n IH]; intros from; [done|]. cbn [seq]. rewrite filter_cons. case_decide as E.
  - intros [= <-]. split_and!; [lia..|done|]. intros i Hi. lia.
  - intros (? & ? & Hlt)%IH. split_and!; [lia..|done|]. intros i Hi.
    destruct (decide (i = from)) as [->|]; [done|]. apply Hlt. lia.
Qed.

Lemma filter_seq_none (P : nat -> Prop) `{!forall i, Decision (P i)} from n :
  head (filter P (seq from n)) = None -> forall i, (from <= i < from + n)%nat -> ~ P i.
Proof.
  intros E%head_None i Hi HP. assert (i ∈ filter P (seq from n)) as Hin.
  { apply list_elem_of_filter. split; [done|]. apply elem_of_seq. lia. }
  rewrite E in Hin. by apply not_elem_of_nil in Hin.
Qed.

(** The entries of an array other than [e], as the sources collect them. *)
Lemma occupied_cases {A} `{EqDecision A} (e : A) (l : list A) :
  let occ := filter (fun p => snd p <> e) (imap pair l) in
  (occ = [] /\ forall i x, l !! i = Some x -> x = e) \/
  (exists i x, occ = [(i, x)] /\ l !! i = Some x /\ x <> e /\ forall j y, l !! j = Some y -> j <> i -> y = e) \/
  (exists p q rest i j x y, occ = p :: q :: rest /\ i <> j /\ l !! i = Some x /\ x <> e /\ l !! j = Some y /\ y <> e).
Proof.
  intros occ. assert (Hin : forall i x, (i, x) ∈ occ <-> l !! i = Some x /\ x <> e).
  { intros i x. unfold occ. rewrite list_elem_of_filter. cbn [snd]. split.
    - intros [Hx (k & y & [= -> ->] & Hk)%elem_of_lookup_imap]. done.
    - intros [Hi Hx]. split; [done|]. apply elem_of_lookup_imap. eauto. }
  assert (Hnd : NoDup occ).
  { apply NoDup_filter, NoDup_alt. intros i j [k x] Hi Hj. rewrite list_lookup_imap in Hi, Hj.
    destruct (l !! i), (l !! j); simplify_eq/=. done. }
  clearbody occ. destruct occ as [|[i x] [|[j y] rest]].
  - left. split; [done|]. intros i x Hi. destruct (decide (x = e)) as [|Hx]; [done|].
    destruct (not_elem_of_nil (i, x)). by apply Hin.
  - right; left. exists i, x. destruct (proj1 (Hin i x)) as [Hi Hx]; [by apply list_elem_of_singleton|].
    split_and!; [done..|]. intros j y Hj Hij. destruct (decide (y = e)) as [|Hy]; [done|].
    assert ((j, y) ∈ [(i, x)]) as E by (by apply Hin). apply list_elem_of_singleton in E. congruence.
  - right; right. destruct (proj1 (Hin i x)) as [Hi Hx]; [apply list_elem_of_here|].
    destruct (proj1 (Hin j y)) as [Hj Hy]; [apply list_elem_of_further, list_elem_of_here|].
    eexists _, _, _, i, j, x, y. split_and!; [done| |done..]. intros ->.
    apply NoDup_cons in Hnd as [Hnd _]. apply Hnd. replace x with y by congruence. apply list_elem_of_here.
Qed.

Section Tree.
Context `{HashProvider} (N : nat) (domain : byte).

Fixpoint ref_of (t : tree) : RootRef :=
  match t with
  | TEmpty => REmpty
  | TLeaf leaf => RLeaf leaf
  | TBranch prefix cs => RBranch (node_hash (node_of prefix (ref_of <$> cs)) domain)
  end.

(** The row of a branch and of its descendants. *)
Inductive stored (T : Rows) : tree -> Prop :=
  | stored_empty : stored T TEmpty
  | stored_leaf l : stored T (TLeaf l)
  | stored_branch p cs :
      T !! node_hash (node_of p (ref_of <$> cs)) domain = Some (node_encode (node_of p (ref_of <$> cs))) ->
      Forall (stored T) cs ->
      stored T (TBranch p cs).

(** A leaf of the declared widths on its route. *)
Record leaf_ok (route : list nat) (l : LeafRef) : Prop := {
  lo_path : length (lf_path l) = N;
  lo_hash : length (lf_hash l) = 32%nat;
  lo_route : route `prefix_of` nibbles (lf_path l)
}.

(** Two children of a list are occupied. *)
Definition two_occupied (cs : list tree) : Prop :=
  exists i j ci cj, i <> j /\ cs !! i = Some ci /\ ci <> TEmpty /\ cs !! j = Some cj /\ cj <> TEmpty.

Inductive wf : list nat -> tree -> Prop :=
  | wf_empty route : wf route TEmpty
  | wf_leaf route l : leaf_ok route l -> wf route (TLeaf l)
  | wf_branch route p cs :
      Forall (fun n => n < 16)%nat p ->
      (length route + length p < 2 * N)%nat ->
      length cs = 16%nat ->
      two_occupied cs ->
      (forall i c, cs !! i = Some c -> wf (route ++ p ++ [i]) c) ->
      wf route (TBranch p cs).

Lemma wf_branch_inv route p cs : wf route (TBranch p cs) ->
  Forall (fun n => n < 16)%nat p /\ (length route + length p < 2 * N)%nat /\ length cs = 16%nat /\
  two_occupied cs /\ (forall i c, cs !! i = Some c -> wf (route ++ p ++ [i]) c).
Proof. by inversion 1. Qed.

Lemma stored_branch_inv T p cs : stored T (TBranch p cs) -> forall i c, cs !! i = Some c -> stored T c.
Proof. inversion 1 as [| |? ? _ Hcs]; subst. by rewrite Forall_lookup in Hcs. Qed.

(** ** Leaves of a canonical tree *)

Lemma has_empty l : ~ has TEmpty l.
Proof. inversion 1. Qed.

Lemma has_leaf_inv l l' : has (TLeaf l) l' -> l' = l.
Proof. by inversion 1. Qed.

Lemma has_branch_inv p cs l : has (TBranch p cs) l -> exists i c, cs !! i = Some c /\ has c l.
Proof. inversion 1; subst. eauto. Qed.

Lemma wf_has route t l : wf route t -> has t l -> leaf_ok route l.
Proof.
  intros Hwf Hl. revert route Hwf. induction Hl as [l|p cs i c l Hi _ IH]; intros route Hwf.
  - by inversion Hwf.
  - inversion Hwf as [| |? ? ? _ _ _ _ Hc]; subst. destruct (IH _ (Hc _ _ Hi)) as [Hp Hh Hr].
    split; [done..|]. by eapply prefix_app_inv.
Qed.

Lemma wf_branch_has route p cs i c l :
  wf route (TBranch p cs) -> cs !! i = Some c -> has c l ->
  route ++ p `prefix_of` nibbles (lf_path l) /\ nibbles (lf_path l) !! (length route + length p) = Some i.
Proof.
  intros Hwf Hi Hl. inversion Hwf as [| |? ? ? _ _ _ _ Hc]; subst.
  destruct (wf_has _ _ _ (Hc _ _ Hi) Hl) as [_ _ Hr]. rewrite app_assoc in Hr. split.
  - by eapply prefix_app_inv.
  - eapply prefix_lookup_some; [exact Hr|].
    rewrite <- length_app. by rewrite lookup_app_r, Nat.sub_diag by done.
Qed.

(** The child a leaf is in is given by its path. *)
Lemma has_branch_slot route p cs l i c :
  wf route (TBranch p cs) -> nibbles (lf_path l) !! (length route + length p) = Some i ->
  cs !! i = Some c -> has (TBranch p cs) l <-> has c l.
Proof.
  intros Hwf Hn Hi. split; [|intros; by eapply has_branch]. intros Hb.
  apply has_branch_inv in Hb as (j & c' & Hj & Hl).
  destruct (wf_branch_has _ _ _ _ _ _ Hwf Hj Hl) as [_ Hn']. by simplify_eq.
Qed.

Lemma wf_has_unique route t l l' : wf route t -> has t l -> has t l' -> lf_path l = lf_path l' -> l = l'.
Proof.
  intros Hwf Hl. revert route l' Hwf. induction Hl as [l|p cs i c l Hi Hc IH]; intros route l' Hwf Hl' E.
  - by apply has_leaf_inv in Hl'.
  - destruct (wf_branch_has _ _ _ _ _ _ Hwf Hi Hc) as [_ Hn]. rewrite E in Hn.
    apply (has_branch_slot _ _ _ _ _ _ Hwf Hn Hi) in Hl'.
    inversion Hwf as [| |? ? ? _ _ _ _ Hcs]; subst. by eapply IH; eauto.
Qed.

Lemma wf_nonempty route t : wf route t -> t <> TEmpty -> exists l, has t l.
Proof.
  revert route. induction t as [|leaf|p cs IH] using tree_ind'; intros route Hwf Hne; [done|by exists leaf; constructor|].
  inversion Hwf as [| |? ? ? _ _ _ (i & _ & ci & _ & _ & Hi & Hci & _) Hc]; subst.
  rewrite Forall_lookup in IH. destruct (IH _ _ Hi _ (Hc _ _ Hi) Hci) as [l Hl].
  exists l. by eapply has_branch.
Qed.

(** A branch has two leaves that part at the end of its prefix. *)
Lemma wf_branch_two route p cs : wf route (TBranch p cs) ->
  exists l l' i j, has (TBranch p cs) l /\ has (TBranch p cs) l' /\ i <> j /\
    nibbles (lf_path l) !! (length route + length p) = Some i /\
    nibbles (lf_path l') !! (length route + length p) = Some j.
Proof.
  intros Hwf. inversion Hwf as [| |? ? ? _ _ _ (i & j & ci & cj & Hij & Hi & Hci & Hj & Hcj) Hc]; subst.
  destruct (wf_nonempty _ _ (Hc _ _ Hi) Hci) as [l Hl]. destruct (wf_nonempty _ _ (Hc _ _ Hj) Hcj) as [l' Hl'].
  exists l, l', i, j. split_and!; [exact (has_branch _ _ _ _ _ Hi Hl)|exact (has_branch _ _ _ _ _ Hj Hl')|done| |].
  - apply (wf_branch_has _ _ _ _ _ _ Hwf Hi Hl).
  - apply (wf_branch_has _ _ _ _ _ _ Hwf Hj Hl').
Qed.

Lemma wf_branch_prefix route p cs l : wf route (TBranch p cs) -> has (TBranch p cs) l ->
  route ++ p `prefix_of` nibbles (lf_path l).
Proof.
  intros Hwf (i & c & Hi & Hl)%has_branch_inv. apply (wf_branch_has _ _ _ _ _ _ Hwf Hi Hl).
Qed.

(** Two branches with the same leaves have prefixes of the same length. *)
Lemma prefix_no_shorter route p cs p' cs' :
  wf route (TBranch p cs) -> wf route (TBranch p' cs') ->
  (forall l, has (TBranch p cs) l -> has (TBranch p' cs') l) -> (length p' <= length p)%nat.
Proof.
  intros Hwf Hwf' Hl. destruct (decide (length p' <= length p)%nat) as [|Hlt]; [done|exfalso].
  destruct (wf_branch_two _ _ _ Hwf) as (l1 & l2 & i & j & H1 & H2 & Hij & Hi & Hj).
  apply Hl in H1. apply Hl in H2. pose proof (wf_branch_prefix _ _ _ _ Hwf' H1) as P1.
  pose proof (wf_branch_prefix _ _ _ _ Hwf' H2) as P2.
  destruct (lookup_lt_is_Some_2 p' (length p)) as [n Hn]; [lia|].
  assert ((route ++ p') !! (length route + length p) = Some n) as Hr.
  { rewrite lookup_app_r by lia. by replace (length route + length p - length route)%nat with (length p) by lia. }
  pose proof (prefix_lookup_some _ _ _ _ P1 Hr). pose proof (prefix_lookup_some _ _ _ _ P2 Hr). congruence.
Qed.

(** A canonical tree is determined by its leaves. *)
Lemma wf_unique route t t' : wf route t -> wf route t' -> (forall l, has t l <-> has t' l) -> t = t'.
Proof.
  revert route t'. induction t as [|leaf|p cs IH] using tree_ind'; intros route t' Hwf Hwf' Hl.
  - destruct (decide (is_TEmpty t' = true)) as [E|E]; [by destruct t'|].
    destruct (wf_nonempty _ _ Hwf') as [l Hl']; [by intros ->|]. apply Hl in Hl'. by apply has_empty in Hl'.
  - destruct t' as [|leaf'|p' cs'].
    + destruct (has_empty leaf). apply Hl, has_leaf.
    + assert (has (TLeaf leaf) leaf') as E by (apply Hl, has_leaf). by apply has_leaf_inv in E as ->.
    + destruct (wf_branch_two _ _ _ Hwf') as (l1 & l2 & i & j & H1 & H2 & Hij & Hi & Hj).
      apply Hl, has_leaf_inv in H1. apply Hl, has_leaf_inv in H2. simplify_eq.
  - destruct t' as [|leaf'|p' cs'].
    + destruct (wf_nonempty _ _ Hwf) as [l Hl']; [done|]. apply Hl in Hl'. by apply has_empty in Hl'.
    + destruct (wf_branch_two _ _ _ Hwf) as (l1 & l2 & i & j & H1 & H2 & Hij & Hi & Hj).
      apply Hl, has_leaf_inv in H1. apply Hl, has_leaf_inv in H2. simplify_eq.
    + assert (length p = length p') as Hlen.
      { pose proof (prefix_no_shorter _ _ _ _ _ Hwf Hwf' (fun l => proj1 (Hl l))).
        pose proof (prefix_no_shorter _ _ _ _ _ Hwf' Hwf (fun l => proj2 (Hl l))). lia. }
      assert (p = p') as <-.
      { destruct (wf_branch_two _ _ _ Hwf) as (l & _ & _ & _ & H1 & _).
        pose proof (wf_branch_prefix _ _ _ _ Hwf H1) as P1. apply Hl in H1.
        pose proof (wf_branch_prefix _ _ _ _ Hwf' H1) as P2.
        apply prefix_take in P1, P2. rewrite !length_app, Hlen in *.
        rewrite P1 in P2. by apply app_inv_head in P2. }
      f_equal. inversion Hwf as [| |? ? ? _ _ H16 _ Hc]; subst. inversion Hwf' as [| |? ? ? _ _ H16' _ Hc']; subst.
      apply list_eq. intros i. destruct (decide (i < 16)%nat) as [Hi|Hi];
        [|by rewrite !lookup_ge_None_2 by lia].
      destruct (lookup_lt_is_Some_2 cs i) as [c Ec]; [lia|]. destruct (lookup_lt_is_Some_2 cs' i) as [c' Ec']; [lia|].
      rewrite Ec, Ec'. f_equal. rewrite Forall_lookup in IH. apply (IH _ _ Ec _ _ (Hc _ _ Ec) (Hc' _ _ Ec')).
      intros l. split; intros Hh.
      * pose proof (proj2 (wf_branch_has _ _ _ _ _ _ Hwf Ec Hh)) as Hn.
        apply (has_branch_slot _ _ _ _ _ _ Hwf' Hn Ec'), Hl. by eapply has_branch.
      * pose proof (proj2 (wf_branch_has _ _ _ _ _ _ Hwf' Ec' Hh)) as Hn.
        apply (has_branch_slot _ _ _ _ _ _ Hwf Hn Ec), Hl. by eapply has_branch.
Qed.

(** ** Assembling branches *)

(** The children array with two entries. *)
Definition pair_children (i j : nat) (ci cj : tree) : list tree :=
  <[j := cj]> (<[i := ci]> (replicate 16 TEmpty)).

Lemma pair_lookup i j ci cj k c : (i < 16)%nat -> (j < 16)%nat -> i <> j ->
  pair_children i j ci cj !! k = Some c ->
  (k = i /\ c = ci) \/ (k = j /\ c = cj) \/ (k <> i /\ k <> j /\ c = TEmpty).
Proof.
  intros Hi Hj Hij. unfold pair_children. destruct (decide (k = j)) as [->|Hkj].
  - rewrite list_lookup_insert_eq by (by rewrite length_insert, length_replicate). naive_solver.
  - rewrite list_lookup_insert_ne by done. destruct (decide (k = i)) as [->|Hki].
    + rewrite list_lookup_insert_eq by (by rewrite length_replicate). naive_solver.
    + rewrite list_lookup_insert_ne by done. intros [-> _]%lookup_replicate. naive_solver.
Qed.

Lemma pair_lookup_at i j ci cj : (i < 16)%nat -> (j < 16)%nat -> i <> j ->
  pair_children i j ci cj !! i = Some ci /\ pair_children i j ci cj !! j = Some cj.
Proof.
  intros Hi Hj Hij. unfold pair_children.
  rewrite list_lookup_insert_ne, !list_lookup_insert_eq by (rewrite ?length_insert, ?length_replicate; done). done.
Qed.

Lemma wf_pair route p i j ci cj :
  Forall (fun n => n < 16)%nat p -> (length route + length p < 2 * N)%nat ->
  (i < 16)%nat -> (j < 16)%nat -> i <> j -> ci <> TEmpty -> cj <> TEmpty ->
  wf (route ++ p ++ [i]) ci -> wf (route ++ p ++ [j]) cj ->
  wf route (TBranch p (pair_children i j ci cj)) /\
  forall l, has (TBranch p (pair_children i j ci cj)) l <-> has ci l \/ has cj l.
Proof.
  intros Hp Hlen Hi Hj Hij Hci Hcj Wi Wj. destruct (pair_lookup_at i j ci cj Hi Hj Hij) as [Li Lj]. split.
  - constructor; [done..| | |].
    + unfold pair_children. by rewrite !length_insert, length_replicate.
    + exists i, j, ci, cj. done.
    + intros k c Hk. apply pair_lookup in Hk as [[-> ->]|[[-> ->]|(_ & _ & ->)]]; try done. constructor.
  - intros l. split.
    + intros (k & c & Hk & Hl)%has_branch_inv.
      apply pair_lookup in Hk as [[-> ->]|[[-> ->]|(_ & _ & ->)]]; [by left|by right| |done..].
      by apply has_empty in Hl.
    + intros [Hl|Hl]; [exact (has_branch _ _ _ _ _ Li Hl)|exact (has_branch _ _ _ _ _ Lj Hl)].
Qed.

(** A branch moved below part of its prefix. *)
Lemma wf_lower route p q cs : wf route (TBranch (p ++ q) cs) -> wf (route ++ p) (TBranch q cs).
Proof.
  intros (Hp & Hlen & H16 & H2 & Hc)%wf_branch_inv. apply Forall_app in Hp as [_ Hq].
  constructor; [done| |done..|].
  - rewrite !length_app in *. lia.
  - intros i c Hi. rewrite <- app_assoc, (app_assoc p). by apply Hc.
Qed.

(** A branch that absorbs the prefix above it. *)
Lemma wf_raise route p q cs : Forall (fun n => n < 16)%nat p ->
  wf (route ++ p) (TBranch q cs) -> wf route (TBranch (p ++ q) cs).
Proof.
  intros Hp (Hq & Hlen & H16 & H2 & Hc)%wf_branch_inv.
  constructor; [by apply Forall_app| |done..|].
  - rewrite !length_app in *. lia.
  - intros i c Hi. rewrite <- app_assoc, (app_assoc route). by apply Hc.
Qed.

Lemma wf_weaken route p leaf : wf (route ++ p) (TLeaf leaf) -> wf route (TLeaf leaf).
Proof. inversion 1 as [|? ? [? ? Hr]|]; subst. apply prefix_app_inv in Hr. by constructor. Qed.

Lemma has_prefix_irrel p q cs l : has (TBranch p cs) l <-> has (TBranch q cs) l.
Proof. split; intros (i & c & Hi & Hl)%has_branch_inv; by eapply has_branch. Qed.

(** ** The branches of the trie of some leaves

    [leaves_below L route Q]: the leaves below the route are those of [Q]. A route
    carries a node of the trie of [L] when it is the root's or ends where its
    leaves part from another one; [trie_branch] is such a node with two leaves
    or more, in its canonical form. *)
Definition leaves_below (L : LeafRef -> Prop) (route : list nat) (Q : LeafRef -> Prop) : Prop :=
  forall l, route `prefix_of` nibbles (lf_path l) -> (L l <-> Q l).

Definition parted (L : LeafRef -> Prop) (route : list nat) : Prop :=
  forall q s, route = q ++ [s] -> exists l, L l /\ q `prefix_of` nibbles (lf_path l) /\ ~ route `prefix_of` nibbles (lf_path l).

Record trie_branch (L : LeafRef -> Prop) (route p : list nat) (cs : list tree) : Prop := {
  tb_wf : wf route (TBranch p cs);
  tb_leaves l : has (TBranch p cs) l <-> L l /\ route `prefix_of` nibbles (lf_path l);
  tb_parted : parted L route
}.

Lemma trie_branch_intro L route p cs Q : wf route (TBranch p cs) -> leaves_below L route Q ->
  (forall l, has (TBranch p cs) l <-> Q l) -> parted L route -> trie_branch L route p cs.
Proof.
  intros Hwf HL HQ Hp. split; [done| |done]. intros l. split.
  - intros Hl. destruct (wf_has _ _ _ Hwf Hl) as [_ _ Hr]. split; [|done]. by apply HL, HQ.
  - intros [Hl Hr]. by apply HQ, (HL l Hr).
Qed.

Lemma trie_branch_ext L L' route p cs : (forall l, L l <-> L' l) -> trie_branch L route p cs -> trie_branch L' route p cs.
Proof.
  intros E [Hwf Hl Hp]. split; [done| |].
  - intros l. by rewrite Hl, E.
  - intros q s Er. destruct (Hp q s Er) as (l & H1 & H2). exists l. by rewrite <- E.
Qed.

Lemma leaves_below_ext L route Q Q' : (forall l, Q l <-> Q' l) -> leaves_below L route Q -> leaves_below L route Q'.
Proof. intros E HL l Hl. by rewrite (HL l Hl), E. Qed.

Lemma parted_root L : parted L [].
Proof. intros q s E. by destruct q. Qed.

(** A leaf that leaves a route at its end. *)
Lemma parted_by L q s l i : L l -> q `prefix_of` nibbles (lf_path l) -> nibbles (lf_path l) !! length q = Some i -> i <> s ->
  parted L (q ++ [s]).
Proof.
  intros Hl Hq Hi Hne q' s' [<- <-]%app_inj_tail. exists l. split_and!; [done..|]. intros Hr.
  assert ((q ++ [s]) !! length q = Some s) as Es by (by rewrite lookup_app_r, Nat.sub_diag by lia).
  pose proof (prefix_lookup_some _ _ _ _ Hr Es). congruence.
Qed.

(** Among the leaves of a branch there is one off any slot. *)
Lemma off_slot route p cs s : wf route (TBranch p cs) -> exists l j c, j <> s /\ cs !! j = Some c /\ has c l /\
  route ++ p `prefix_of` nibbles (lf_path l) /\ nibbles (lf_path l) !! length (route ++ p) = Some j.
Proof.
  intros Hwf. destruct (wf_branch_two _ _ _ Hwf) as (l1 & l2 & i & j & H1 & H2 & Hij & Hi & Hj).
  assert (exists l k, has (TBranch p cs) l /\ nibbles (lf_path l) !! (length route + length p) = Some k /\ k <> s) as (l & k & Hl & Hk & Hne).
  { destruct (decide (i = s)) as [->|]; [exists l2, j|exists l1, i]; split_and!; congruence. }
  apply has_branch_inv in Hl as (k' & c & Hc & Hl). destruct (wf_branch_has _ _ _ _ _ _ Hwf Hc Hl) as [Hr Hk'].
  rewrite Hk in Hk'. injection Hk' as <-. exists l, k, c. split_and!; [done..|]. by rewrite length_app.
Qed.

(** In a tree of the leaves [L], the branches of [trie_branch] are the tree's. *)
Inductive at_route : list nat -> tree -> list nat -> tree -> Prop :=
  | at_here route t : at_route route t route t
  | at_child route p cs i c route' t : cs !! i = Some c -> at_route (route ++ p ++ [i]) c route' t ->
      at_route route (TBranch p cs) route' t.

Lemma prefix_snoc_inv {A} (a q : list A) s : a `prefix_of` q ++ [s] -> a = q ++ [s] \/ a `prefix_of` q.
Proof.
  intros [z Ez]. destruct z as [|x z _] using rev_ind; [left; by rewrite app_nil_r in Ez|].
  right. rewrite app_assoc in Ez. apply app_inj_tail in Ez as [-> _]. by exists z.
Qed.

Lemma prefix_two {A} (a b k : list A) : a `prefix_of` k -> b `prefix_of` k -> (length a <= length b)%nat -> a `prefix_of` b.
Proof. intros Ha Hb Hl. apply prefix_take in Ha. destruct Hb as [z ->]. rewrite take_app_le in Ha by done. by apply prefix_take. Qed.

Lemma trie_branch_at L root t route p cs : wf root t -> leaves_below L root (has t) -> root `prefix_of` route ->
  trie_branch L route p cs -> at_route root t route (TBranch p cs).
Proof.
  intros Hwf HL Hr Hb. revert root Hwf HL Hr. induction t as [|leaf|q ds IH] using tree_ind'; intros root Hwf HL Hr;
    pose proof Hb as [Hwb Hlb Hpb]; destruct (wf_branch_two _ _ _ Hwb) as (l1 & l2 & i & j & H1 & H2 & Hij & Hi & Hj);
    apply Hlb in H1 as [L1 R1], H2 as [L2 R2]; assert (root `prefix_of` nibbles (lf_path l1)) as P1 by (etrans; [exact Hr|exact R1]);
    assert (root `prefix_of` nibbles (lf_path l2)) as P2 by (etrans; [exact Hr|exact R2]); apply (HL l1 P1) in L1 as T1; apply (HL l2 P2) in L2 as T2.
  - by apply has_empty in T1.
  - apply has_leaf_inv in T1, T2. subst. congruence.
  - destruct (decide (root = route)) as [->|Hne].
    + assert (TBranch q ds = TBranch p cs) as ->; [|constructor]. eapply wf_unique; [done..|]. intros l. rewrite Hlb. split.
      * intros Hl. destruct (wf_has _ _ _ Hwf Hl) as [_ _ Hlr]. split; [|done]. by apply HL.
      * intros [Hl Hlr]. by apply (HL l Hlr).
    + destruct route as [|s route _] using rev_ind; [by apply prefix_nil_inv in Hr|].
      apply prefix_snoc_inv in Hr as [->|Hr]; [done|]. destruct (Hpb route s eq_refl) as (l3 & L3 & R3 & N3).
      assert (root `prefix_of` nibbles (lf_path l3)) as P3 by (etrans; [exact Hr|exact R3]). apply (HL l3 P3) in L3 as T3.
      pose proof (wf_branch_prefix _ _ _ _ Hwf T1) as Q1. pose proof (wf_branch_prefix _ _ _ _ Hwf T3) as Q3.
      assert (length (root ++ q) <= length route)%nat as Hlen.
      { destruct (decide (length (root ++ q) <= length route)%nat) as [|Hlt]; [done|]. destruct N3.
        etrans; [|exact Q3]. apply (prefix_two _ _ (nibbles (lf_path l1))); [done..|]. rewrite length_app. cbn. lia. }
      assert (root ++ q `prefix_of` route) as [z Ez] by (apply (prefix_two _ _ (nibbles (lf_path l3))); done).
      assert (exists n, root ++ q ++ [n] `prefix_of` route ++ [s]) as [n Hn].
      { rewrite Ez. destruct z as [|n z]; [exists s; by rewrite app_nil_r, <- app_assoc|]. exists n, (z ++ [s]). by rewrite <- !app_assoc. }
      assert (root ++ q ++ [n] `prefix_of` nibbles (lf_path l1)) as Q1' by (etrans; [exact Hn|exact R1]).
      apply has_branch_inv in T1 as (k & c & Hc & T1). destruct (wf_branch_has _ _ _ _ _ _ Hwf Hc T1) as [_ Hk].
      assert (k = n) as ->.
      { assert ((root ++ q ++ [n]) !! (length root + length q)%nat = Some n) as E by (rewrite app_assoc, <- length_app; by rewrite lookup_app_r, Nat.sub_diag by lia).
        pose proof (prefix_lookup_some _ _ _ _ Q1' E). congruence. }
      apply (at_child _ _ _ n c); [done|]. rewrite Forall_lookup in IH. apply (IH n c Hc); [|..|done].
      * by apply (wf_branch_inv _ _ _ Hwf).
      * intros l Hl. rewrite (HL l (prefix_app_inv _ _ _ Hl)). split; [|intros; by eapply has_branch].
        intros Hb'. apply (has_branch_slot root q ds l n c Hwf); [|done..].
        rewrite <- length_app. eapply prefix_lookup_some; [exact Hl|]. rewrite app_assoc. by rewrite lookup_app_r, Nat.sub_diag by lia.
Qed.

(** ** References and rows *)

Lemma ref_of_empty t : ref_of t = REmpty <-> t = TEmpty.
Proof. destruct t; naive_solver. Qed.

Lemma stored_at T root t route t' : at_route root t route t' -> stored T t -> stored T t'.
Proof. induction 1 as [|? ? cs i c ? ? Hi _ IH]; intros Hs; [done|]. apply IH. by eapply stored_branch_inv. Qed.

Lemma stored_mono T T' t : T ⊆ T' -> stored T t -> stored T' t.
Proof.
  intros HT. induction t as [|leaf|p cs IH] using tree_ind'; intros Hs; [constructor..|].
  inversion Hs as [| |? ? Hrow Hcs]; subst. constructor; [by eapply lookup_weaken|].
  rewrite !Forall_forall in *. auto.
Qed.

Lemma two_omap {A B} (g : A -> option B) l i j x y :
  i <> j -> l !! i = Some x -> l !! j = Some y -> is_Some (g x) -> is_Some (g y) ->
  (2 <= length (omap g l))%nat.
Proof.
  assert (forall (l : list A) j y, l !! j = Some y -> is_Some (g y) -> (1 <= length (omap g l))%nat) as Hone.
  { clear. intros l. induction l as [|z l IH]; intros [|j] y Hj [w Hw]; try done; cbn in *.
    - injection Hj as ->. rewrite Hw. cbn. lia.
    - destruct (g z); cbn; [lia|]. by eapply IH. }
  revert i j. induction l as [|z l IH]; intros [|i] [|j] Hij Hi Hj Hx Hy; try done; cbn in *.
  - injection Hi as ->. destruct Hx as [w ->]. cbn. specialize (Hone _ _ _ Hj Hy). lia.
  - injection Hj as ->. destruct Hy as [w ->]. cbn. specialize (Hone _ _ _ Hi Hx). lia.
  - specialize (IH i j ltac:(congruence) Hi Hj Hx Hy). destruct (g z); cbn; lia.
Qed.

Lemma nonempty_child_hash t : t <> TEmpty -> is_Some (child_hash (ref_of t)).
Proof. destruct t; [done|..]; by eexists. Qed.

Lemma wf_shape route p cs : wf route (TBranch p cs) -> branch_shape N p (ref_of <$> cs).
Proof.
  inversion 1 as [| |? ? ? Hp Hlen H16 (i & j & ci & cj & Hij & Hi & Hci & Hj & Hcj) Hc]; subst.
  split; [done|lia|by rewrite length_fmap|].
  apply (two_omap _ _ i j (ref_of ci) (ref_of cj)); rewrite ?list_lookup_fmap, ?Hi, ?Hj; try done;
    by apply nonempty_child_hash.
Qed.

Lemma nibbles_nibble path i n : nibbles path !! i = Some n -> nibble path i = n.
Proof.
  intros E. pose proof (lookup_lt_Some _ _ _ E) as Hi. rewrite length_nibbles in Hi.
  rewrite nibbles_lookup in E by done. congruence.
Qed.

Lemma routed route slot l : route ++ [slot] `prefix_of` nibbles (lf_path l) -> misrouted route slot l = false.
Proof.
  intros Hr. unfold misrouted. apply orb_false_iff. split.
  - apply not_true_is_false. intros ([i n] & Hin & Hn)%existsb_exists.
    apply list_elem_of_In, elem_of_lookup_imap in Hin as (k & x & [= -> ->] & Hk).
    apply negb_true_iff, Nat.eqb_neq in Hn. apply Hn, nibbles_nibble.
    eapply prefix_lookup_some; [exact Hr|]. by apply lookup_app_l_Some.
  - apply negb_false_iff, Nat.eqb_eq, nibbles_nibble.
    eapply prefix_lookup_some; [exact Hr|]. by rewrite lookup_app_r, Nat.sub_diag.
Qed.

Lemma wf_validate route p cs : wf route (TBranch p cs) ->
  validate_at N (node_of p (ref_of <$> cs)) route = Ok ().
Proof.
  intros Hwf. pose proof (wf_shape _ _ _ Hwf) as Hsh.
  inversion Hwf as [| |? ? ? Hp Hlen H16 _ Hc]; subst. unfold validate_at.
  rewrite (unpack_prefix_of Hsh), length_app.
  destruct (Nat.leb_spec (N * 2) (length route + length p)); [lia|].
  destruct (_ && _) eqn:E.
  { exfalso. apply andb_true_iff in E as [E1%Nat.eqb_eq E2%negb_true_iff%Z.eqb_neq]. apply E2.
    cbn [node_of bn_tree_mask]. apply mask_ext; [apply mask_bound|done|]. intros i.
    rewrite mask_testbit, Z.testbit_0_l, list_lookup_fmap. destruct (cs !! i) as [c|] eqn:Ec; [|done].
    cbn. specialize (Hc _ _ Ec). destruct c; [done..|]. inversion Hc; subst.
    rewrite !length_app in *. cbn [length] in *. lia. }
  destruct (existsb _ _) eqn:Ex; [exfalso|done]. apply existsb_exists in Ex as (slot & _ & Hm).
  rewrite (node_child_of Hsh), list_lookup_fmap in Hm. destruct (cs !! slot) as [c|] eqn:Ec; [|done].
  cbn in Hm. specialize (Hc _ _ Ec). destruct c as [|leaf|]; [done| |done]. cbn in Hm.
  inversion Hc as [|? ? [_ _ Hr]|]; subst. rewrite app_assoc in Hr. by rewrite (routed _ _ _ Hr) in Hm.
Qed.

Context {HL : HashLaws}.
Hypothesis HN : (1 <= N <= 32)%nat.

Lemma wf_node_wf route p cs : wf route (TBranch p cs) -> node_wf N (node_of p (ref_of <$> cs)).
Proof using HN HL.
  intros Hwf. apply (node_of_wf N HN); [by eapply wf_shape|..];
    inversion Hwf as [| |? ? ? _ _ _ _ Hc]; subst; apply Forall_forall; intros h Hh;
    apply list_elem_of_omap in Hh as (r & Hr & E); apply list_elem_of_fmap in Hr as (c & -> & Hin);
    apply list_elem_of_lookup in Hin as [i Hi]; specialize (Hc _ _ Hi); destruct c as [|leaf|q ds]; try done;
    injection E as <-; [by inversion Hc as [|? ? []|]|apply hash_length|by inversion Hc as [|? ? []|]].
Qed.

(** Within one table a reference determines its canonical tree. *)
Lemma ref_inj T route t t' : wf route t -> wf route t' -> stored T t -> stored T t' ->
  ref_of t = ref_of t' -> t = t'.
Proof using HN HL.
  revert route t'. induction t as [|leaf|p cs IH] using tree_ind'; intros route t' Hwf Hwf' Hs Hs' E;
    destruct t' as [|leaf'|p' cs']; try done; [by injection E as ->|].
  inversion Hs as [| |? ? Hrow Hcs]; subst. inversion Hs' as [| |? ? Hrow' Hcs']; subst.
  cbn [ref_of] in E. injection E as E. rewrite E, Hrow' in Hrow.
  assert (node_encode (node_of p' (ref_of <$> cs')) = node_encode (node_of p (ref_of <$> cs))) as Henc
    by congruence. clear Hrow.
  assert (node_of p (ref_of <$> cs) = node_of p' (ref_of <$> cs')) as En.
  { pose proof (node_decode_encode N HN _ (wf_node_wf _ _ _ Hwf)) as D.
    rewrite <- Henc, (node_decode_encode N HN _ (wf_node_wf _ _ _ Hwf')) in D. congruence. }
  pose proof (wf_shape _ _ _ Hwf) as Hsh. pose proof (wf_shape _ _ _ Hwf') as Hsh'.
  assert (p = p') as <- by (by rewrite <- (unpack_prefix_of Hsh), En, (unpack_prefix_of Hsh')).
  assert (ref_of <$> cs = ref_of <$> cs') as Ecs
    by (by rewrite <- (node_children_of Hsh), En, (node_children_of Hsh')).
  f_equal. apply list_eq. intros i. apply (f_equal (fun l => l !! i)) in Ecs. rewrite !list_lookup_fmap in Ecs.
  inversion Hwf as [| |? ? ? _ _ _ _ Hc]; subst. inversion Hwf' as [| |? ? ? _ _ _ _ Hc']; subst.
  rewrite Forall_lookup in IH, Hcs, Hcs'.
  destruct (cs !! i) as [c|] eqn:Ei, (cs' !! i) as [c'|] eqn:Ei'; try done. f_equal. injection Ecs as Ec.
  by apply (IH i c Ei _ c' (Hc _ _ Ei) (Hc' _ _ Ei') (Hcs _ _ Ei) (Hcs' _ _ Ei')).
Qed.
End Tree.
