(* ===== verification/MerkleEdit.v ===== *)
(** Reading and single edits of the Merkle trie, proved against the storage
    laws: [get], [insert], [remove] and [walk] of crates/merkle/src/trie.rs.

    [wp L P c tx] is the total-correctness triple of an operation that makes the
    trie of the leaves [L]: it ends (no panic, enough fuel) in a state that keeps
    every row and has no new one but those of the branches of that trie, and
    either establishes [P] or reports a [ConflictingBranch], and then a branch of
    that trie has its digest taken by another row. *)
From Stdlib Require Import ZArith Lia.
From S2P Require Import Prelude Ordered Storage MerkleNode MerkleTrie MerkleTree.

(** * Paths that part *)

Lemma first_difference_ok a b from to : length a = to -> length b = to -> a <> b ->
  take from a = take from b ->
  exists d x y, first_difference from to a b = Some d /\ (from <= d < to)%nat /\
    a !! d = Some x /\ b !! d = Some y /\ x <> y /\ take d a = take d b.
Proof.
  intros Ha Hb Hab Hfrom. unfold first_difference. destruct (head _) as [d|] eqn:E.
  - apply filter_seq_head in E as (Hd & Hne & Hlt).
    destruct (lookup_lt_is_Some_2 a d) as [x Hx]; [lia|]. destruct (lookup_lt_is_Some_2 b d) as [y Hy]; [lia|].
    exists d, x, y. rewrite Hx, Hy in Hne. split_and!; [done|lia|lia|done|done|congruence|].
    apply list_eq. intros i. destruct (decide (i < d)%nat); [|by rewrite !lookup_ge_None_2 by (rewrite length_take; lia)].
    rewrite !lookup_take_lt by done. destruct (decide (i < from)%nat).
    + apply (f_equal (.!! i)) in Hfrom. by rewrite !lookup_take_lt in Hfrom.
    + destruct (decide (a !! i = b !! i)) as [|Hn]; [done|]. destruct (Hlt i); [lia|done].
  - exfalso. apply Hab, list_eq. intros i. destruct (decide (i < to)%nat); [|by rewrite !lookup_ge_None_2 by lia].
    destruct (decide (i < from)%nat).
    + apply (f_equal (.!! i)) in Hfrom. by rewrite !lookup_take_lt in Hfrom.
    + destruct (decide (a !! i = b !! i)) as [|Hn]; [done|]. exfalso.
      eapply (filter_seq_none _ _ _ E i); [lia|done].
Qed.

(** The route to a difference, and the leaf below it. *)
Lemma leaf_below N route l d x : leaf_ok N route l -> (length route <= d)%nat ->
  nibbles (lf_path l) !! d = Some x ->
  route ++ drop (length route) (take d (nibbles (lf_path l))) = take d (nibbles (lf_path l)) /\
  length (take d (nibbles (lf_path l))) = d /\
  leaf_ok N (take d (nibbles (lf_path l)) ++ [x]) l.
Proof.
  intros [Hp Hh Hr] Hd Hx. apply lookup_lt_Some in Hx as Hlt. split_and!.
  - apply prefix_take in Hr. rewrite <- Hr at 1.
    rewrite <- (take_drop (length route) (take d _)) at 2. rewrite take_take. f_equal. f_equal. lia.
  - apply length_take_le. lia.
  - split; [done..|]. rewrite <- take_S_r by done. apply prefix_take. rewrite length_take_le by lia. done.
Qed.

Lemma take_nibbles_lt n k path : Forall (fun n => n < 16)%nat (drop n (take k (nibbles path))).
Proof. apply Forall_drop, Forall_take, nibbles_lt. Qed.

Lemma nibble_bound path i n : nibbles path !! i = Some n -> (n < 16)%nat.
Proof. intros E. pose proof (nibbles_lt path) as Hn. rewrite Forall_lookup in Hn. by eapply Hn. Qed.

Lemma shared_prefix_ok a b :
  let k := shared_prefix a b in
  (k <= length a)%nat /\ take k a = take k b /\
  forall x y, a !! k = Some x -> b !! k = Some y -> x <> y.
Proof.
  revert b. induction a as [|x a IH]; intros [|y b]; cbn; try (split_and!; [lia|done|done]).
  destruct (Nat.eqb_spec x y) as [->|Hxy]; cbn.
  - destruct (IH b) as (H1 & H2 & H3). split_and!; [lia|by rewrite H2|done].
  - split_and!; [lia|done|]. by intros ? ? [= <-] [= <-].
Qed.

Section Edit.
Context `{HashProvider} {HL : HashLaws} (N : nat) (table : Table) (domain : byte).
Context {T : Type} `{WT : WriteTransaction T} {RL : ReadLaws T} {WL : WriteLaws T}.
Hypothesis HN : (1 <= N <= 32)%nat.
Hypothesis Htable : table_ok table.

Abbreviation rows tx := (view tx table).
Abbreviation ref := (ref_of domain).
Abbreviation canon := (wf N).

(** The rows of the trie's table are kept, other tables untouched. *)
Definition ext (tx tx' : T) : Prop :=
  rows tx ⊆ rows tx' /\ forall tb, tb <> table -> view tx' tb = view tx tb.

#[global] Instance ext_preorder : PreOrder ext.
Proof.
  split.
  - intros tx. by split.
  - intros a b c [H1 H2] [H3 H4]. split; [by etrans|]. intros tb Htb. by rewrite H4, H2.
Qed.

Abbreviation row_of p cs := (node_of p (ref <$> cs)).

(** A branch of the trie of the leaves [L] has its digest taken by another row. *)
Definition conflict (L : LeafRef -> Prop) (tx : T) : Prop :=
  exists route p cs old, trie_branch N L route p cs /\
    rows tx !! node_hash (row_of p cs) domain = Some old /\ old <> node_encode (row_of p cs).

(** A new row is that of a branch of the trie of [L]. *)
Definition grown (L : LeafRef -> Prop) (tx tx' : T) : Prop :=
  forall h row, rows tx' !! h = Some row -> rows tx !! h = Some row \/
    exists route p cs, trie_branch N L route p cs /\ h = node_hash (row_of p cs) domain /\ row = node_encode (row_of p cs).

(** Two branches of the trie of [L] share a digest. *)
Definition branch_clash (L : LeafRef -> Prop) : Prop :=
  exists route p cs route' p' cs', trie_branch N L route p cs /\ trie_branch N L route' p' cs' /\
    node_hash (row_of p cs) domain = node_hash (row_of p' cs') domain /\ node_encode (row_of p cs) <> node_encode (row_of p' cs').

(** From an empty table a conflict is between two branches of one trie. *)
Lemma conflict_clash L tx tx' : rows tx = ∅ -> grown L tx tx' -> conflict L tx' -> branch_clash L.
Proof.
  intros He Hg (route & p & cs & old & Hb & Hold & Hne).
  destruct (Hg _ _ Hold) as [Ho|(route' & p' & cs' & Hb' & Eh & ->)]; [by rewrite He, lookup_empty in Ho|].
  exists route, p, cs, route', p', cs'. by split_and!; auto.
Qed.

Lemma conflict_ext L L' tx : (forall l, L l <-> L' l) -> conflict L tx -> conflict L' tx.
Proof. intros E (route & p & cs & old & Hb & Hr). exists route, p, cs, old. split; [by eapply trie_branch_ext|done]. Qed.

Lemma grown_ext L L' tx tx' : (forall l, L l <-> L' l) -> grown L tx tx' -> grown L' tx tx'.
Proof.
  intros E Hg h row Hrow. destruct (Hg h row Hrow) as [?|(route & p & cs & Hb & Hrest)]; [by left|right].
  exists route, p, cs. split; [by eapply trie_branch_ext|done].
Qed.

Lemma grown_trans L a b c : grown L a b -> grown L b c -> grown L a c.
Proof. intros Hab Hbc h row Hrow. destruct (Hbc h row Hrow) as [Hb|?]; [by apply Hab|by right]. Qed.

Definition wp (L : LeafRef -> Prop) {A} (P : A -> T -> Prop) (c : stres T MerkleError A) (tx : T) : Prop :=
  let '(r, tx') := c tx in
  ext tx tx' /\ grown L tx tx' /\
  match r with
  | Ok a => P a tx'
  | Err ConflictingBranch => conflict L tx'
  | _ => False
  end.

Lemma wp_leaves L L' {A} (P : A -> T -> Prop) c tx : (forall l, L l <-> L' l) -> wp L P c tx -> wp L' P c tx.
Proof.
  unfold wp. destruct (c tx) as [r tx']. intros E (He & Hg & Hr). split_and!; [done|by eapply grown_ext|].
  - destruct r as [|[]| |]; try done. by eapply conflict_ext.
Qed.

Section Triples.
Context (L : LeafRef -> Prop).

Lemma wp_mono {A} (P Q : A -> T -> Prop) c tx :
  wp L P c tx -> (forall a tx', ext tx tx' -> P a tx' -> Q a tx') -> wp L Q c tx.
Proof.
  unfold wp. destruct (c tx) as [r tx']. intros (He & Hg & Hr) HPQ. split_and!; [done..|].
  destruct r as [a|[]| |]; auto.
Qed.

Lemma wp_bind {A B} (Q : B -> T -> Prop) (c : stres T MerkleError A) f tx :
  wp L (fun a tx' => ext tx tx' -> wp L Q (f a) tx') c tx -> wp L Q (c ≫= f) tx.
Proof.
  unfold wp at 1 3. unfold mbind, stres_mbind. destruct (c tx) as [r tx1]. intros (He & Hg & Hr).
  destruct r as [a|e| |]; try done. specialize (Hr He). unfold wp in Hr.
  destruct (f a tx1) as [r tx2]. destruct Hr as (He2 & Hg2 & Hr). split_and!; [by etrans|by eapply grown_trans|done].
Qed.

Lemma wp_ret {A} (Q : A -> T -> Prop) a tx : Q a tx -> wp L Q (mret a) tx.
Proof. intros HQ. split_and!; [done|by left|done]. Qed.

Lemma wp_lift {A} (Q : A -> T -> Prop) (c : res MerkleError A) a tx : c = Ok a -> Q a tx -> wp L Q (lift_res c) tx.
Proof. intros -> HQ. split_and!; [done|by left|done]. Qed.

Lemma wp_reading {A} (Q : A -> T -> Prop) (c : T -> res MerkleError A) a tx :
  c tx = Ok a -> Q a tx -> wp L Q (reading c) tx.
Proof. intros E HQ. unfold wp, reading. rewrite E. split_and!; [done|by left|done]. Qed.

(** ** Rows *)

Lemma load_ok route p cs tx : canon route (TBranch p cs) -> stored domain (rows tx) (TBranch p cs) ->
  load N table domain tx (node_hash (node_of p (ref <$> cs)) domain) route = Ok (node_of p (ref <$> cs)).
Proof using HL HN Htable.
  intros Hwf Hs. inversion Hs as [| |? ? Hrow _]; subst. unfold load. rewrite get_spec by done.
  cbn [map_err]. rewrite Hrow. unfold mbind, res_mbind. cbn [ok_or].
  rewrite (node_decode_encode N HN) by (by eapply wf_node_wf). rewrite bool_decide_true by done.
  by rewrite (wf_validate _ _ _ _ _ Hwf).
Qed.

Lemma store_children_ok route p cs tx : trie_branch N L route p cs -> Forall (stored domain (rows tx)) cs ->
  wp L (fun r tx' => r = ref (TBranch p cs) /\ stored domain (rows tx') (TBranch p cs))
    (store_children N table domain p (ref <$> cs) route) tx.
Proof using HL HN Htable WL.
  intros Hb Hcs. pose proof (tb_wf _ _ _ _ _ Hb) as Hwf. unfold store_children. apply wp_bind.
  eapply wp_lift; [apply from_children_ok; [lia|by eapply wf_shape]|]. intros _.
  unfold store. apply wp_bind. eapply wp_lift; [by apply wf_validate|]. intros _.
  set (node := node_of p (ref <$> cs)). unfold wp, store_row.
  destruct (insert_spec tx table (node_hash node domain) (node_encode node) Htable) as (tx' & -> & Hv).
  pose proof (Hv table) as Ht. unfold upd_view in Ht. rewrite decide_True in Ht by done.
  assert (He : ext tx tx').
  { split; [|intros tb Htb; rewrite Hv; unfold upd_view; by rewrite decide_False by done].
    rewrite Ht. destruct (rows tx !! node_hash node domain) eqn:E; [done|]. by apply insert_subseteq. }
  assert (Hst : rows tx' !! node_hash node domain = Some (node_encode node) ->
    stored domain (rows tx') (TBranch p cs)).
  { intros Hrow. constructor; [done|]. eapply Forall_impl; [done|]. intros c. eapply stored_mono, He. }
  assert (Hg : grown L tx tx').
  { intros h row. rewrite Ht. destruct (rows tx !! node_hash node domain) eqn:E; [by left|].
    rewrite lookup_insert_Some. intros [[<- <-]|[_ ?]]; [right|by left]. by exists route, p, cs. }
  destruct (rows tx !! node_hash node domain) as [old|] eqn:E.
  - rewrite get_spec by done. rewrite Ht, E. cbn [map_err]. case_bool_decide as Hold.
    + split_and!; [done..|]. apply Hst. rewrite Ht, E. congruence.
    + split_and!; [done..|]. exists route, p, cs, old. split; [done|]. rewrite Ht. split; [done|by intros ->].
  - split_and!; [done..|]. apply Hst. rewrite Ht. apply lookup_insert_eq.
Qed.

(** ** Reading *)

Lemma get_loop_ok fuel tx t path route :
  canon route t -> stored domain (rows tx) t -> length path = N -> route `prefix_of` nibbles path ->
  (2 * N < fuel + length route)%nat ->
  exists o, get_loop N table domain fuel tx (ref t) path route = Ok o /\
    forall l, o = Some l <-> has t l /\ lf_path l = path.
Proof using HL HN Htable.
  revert t route. induction fuel as [|fuel IH]; intros t route Hwf Hs Hlen Hr Hf.
  { apply prefix_length in Hr. rewrite length_nibbles in Hr. lia. }
  destruct t as [|leaf|p cs]; cbn [get_loop ref_of].
  - exists None. split; [done|]. intros l. split; [done|]. by intros [Hl%has_empty _].
  - eexists. split; [done|]. intros l. case_bool_decide as E; split; try done.
    + intros [= <-]. split; [constructor|done].
    + by intros [->%has_leaf_inv _].
    + by intros [->%has_leaf_inv ?].
  - rewrite (load_ok route p cs) by done. cbn [mbind res_mbind].
    pose proof (wf_shape N domain _ _ _ Hwf) as Hsh. rewrite (unpack_prefix_of Hsh). case_bool_decide as Hp.
    + destruct (wf_branch_inv _ _ _ _ Hwf) as (_ & Hd & H16 & _ & Hc).
      destruct (lookup_lt_is_Some_2 (nibbles path) (length (route ++ p))) as [slot Hslot].
      { rewrite length_nibbles, length_app. lia. }
      rewrite Hslot. cbn [unwrap mbind res_mbind]. rewrite (node_child_default Hsh).
      assert (slot < 16)%nat as Hlt.
      { pose proof (nibbles_lt path) as Hn. rewrite Forall_lookup in Hn. by eapply Hn. }
      destruct (lookup_lt_is_Some_2 cs slot) as [c Ec]; [lia|]. 
      rewrite list_lookup_fmap, Ec. change (default REmpty (ref <$> Some c)) with (ref c).
      destruct (IH c ((route ++ p) ++ [slot])) as (o & -> & Ho).
      { rewrite <- app_assoc. by apply Hc. } { by eapply stored_branch_inv. } { done. } { by apply prefix_snoc. }
      { rewrite !length_app. cbn [length]. rewrite length_app in *. lia. }
      exists o. split; [done|]. intros l. rewrite Ho. split; intros [Hl <-]; (split; [|done]).
      * by eapply has_branch.
      * apply (has_branch_slot N route p cs l slot c Hwf); [|done..]. by rewrite <- length_app.
    + exists None. split; [done|]. intros l. split; [done|]. intros [Hl <-]. destruct Hp.
      by eapply wf_branch_prefix.
Qed.

(** ** Single edits *)

(** The leaves after setting or removing one path. *)
Definition after_edit (t : tree) (target : bytes) (replacement : option LeafRef) (l : LeafRef) : Prop :=
  (lf_path l = target /\ replacement = Some l) \/ (lf_path l <> target /\ has t l).
Definition updated (t : tree) (target : bytes) (replacement : option LeafRef) (t' : tree) : Prop :=
  forall l, has t' l <-> after_edit t target replacement l.

(** What an operation that returns the root of a new tree establishes. *)
Definition rooted (route : list nat) (Q : tree -> Prop) (r : RootRef) (tx : T) : Prop :=
  exists t, r = ref t /\ canon route t /\ stored domain (rows tx) t /\ Q t.

Lemma fmap_pair i j ci cj :
  ref <$> pair_children i j ci cj = <[j := ref cj]> (<[i := ref ci]> no_children).
Proof. unfold pair_children. by rewrite !list_fmap_insert, fmap_replicate. Qed.

Lemma stored_pair tx i j ci cj : stored domain (rows tx) ci -> stored domain (rows tx) cj ->
  Forall (stored domain (rows tx)) (pair_children i j ci cj).
Proof.
  intros Hi Hj. unfold pair_children. do 2 (apply Forall_insert; [|done]). apply Forall_replicate. constructor.
Qed.

Lemma edit_leaf_ok route old target replacement tx :
  leaf_ok N route old -> length target = N -> route `prefix_of` nibbles target ->
  (forall l, replacement = Some l -> leaf_ok N route l /\ lf_path l = target) ->
  leaves_below L route (after_edit (TLeaf old) target replacement) -> parted L route ->
  wp L (rooted route (updated (TLeaf old) target replacement))
    (edit_leaf N table domain old target replacement route) tx.
Proof using HL HN Htable WL.
  intros Hold Hlen Hr Hrep HL' Hpart. unfold edit_leaf. case_bool_decide as E.
  { apply wp_ret. destruct replacement as [new|].
    - exists (TLeaf new). destruct (Hrep new eq_refl) as [Hnew Hp].
      split_and!; [done|by constructor|by constructor|]. intros l. split.
      + intros ->%has_leaf_inv. by left.
      + intros [[_ [= ->]]|[Hne ->%has_leaf_inv]]; [constructor|done].
    - exists TEmpty. split_and!; [done|by constructor|by constructor|]. intros l. split.
      + by intros ?%has_empty.
      + intros [[_ ?]|[Hne ->%has_leaf_inv]]; done. }
  destruct replacement as [new|].
  2: { apply wp_ret. exists (TLeaf old). split_and!; [done|by constructor|by constructor|]. intros l. split.
    - intros ->%has_leaf_inv. right. split; [done|constructor].
    - by intros [[_ ?]|[_ ?]]. }
  destruct (Hrep new eq_refl) as [Hnew <-].
  destruct (first_difference_ok (nibbles (lf_path old)) (nibbles (lf_path new)) (length route) (N * 2))
    as (d & x & y & Ed & Hd & Hx & Hy & Hxy & Htake).
  { rewrite length_nibbles. by rewrite (lo_path _ _ _ Hold). }
  { rewrite length_nibbles. lia. } { by intros ?%nibbles_inj. }
  { pose proof (lo_route _ _ _ Hold) as Ho. apply prefix_take in Ho, Hr. congruence. }
  apply wp_bind. eapply wp_lift; [by rewrite Ed|]. intros _.
  rewrite (nth_lookup_Some _ _ _ _ Hx), (nth_lookup_Some _ _ _ _ Hy).
  change (RLeaf old) with (ref (TLeaf old)). change (RLeaf new) with (ref (TLeaf new)). rewrite <- fmap_pair.
  destruct (leaf_below N route old d x) as (Hro & Hlo & Hbo); [done|lia|done|].
  destruct (leaf_below N route new d y) as (Hrn & Hln & Hbn); [done|lia|done|].
  set (p := drop (length route) (take d (nibbles (lf_path new)))) in *.
  destruct (wf_pair N route p x y (TLeaf old) (TLeaf new)) as [Hwf Hhas].
  { apply take_nibbles_lt. } { rewrite <- length_app, Hrn, Hln. lia. }
  { by eapply nibble_bound. } { by eapply nibble_bound. } { done. } { done. } { done. }
  { rewrite app_assoc, Hrn, <- Htake. by constructor. } { rewrite app_assoc, Hrn. by constructor. }
  assert (Hu : updated (TLeaf old) (lf_path new) (Some new) (TBranch p (pair_children x y (TLeaf old) (TLeaf new)))).
  { intros l. rewrite Hhas. split.
    - intros [->%has_leaf_inv| ->%has_leaf_inv]; [right|by left]. split; [done|constructor].
    - intros [[_ [= ->]]|[_ ->%has_leaf_inv]]; [right|left]; constructor. }
  eapply wp_mono; [apply store_children_ok; [by eapply trie_branch_intro|by apply stored_pair; constructor]|].
  intros r tx' _ [-> Hs]. eexists. by split_and!.
Qed.

(** Setting a leaf where the tree has no leaf of that path. *)
Lemma updated_new t new t' : (forall l, has t l -> lf_path l <> lf_path new) ->
  (forall l, has t' l <-> has t l \/ l = new) -> updated t (lf_path new) (Some new) t'.
Proof using.
  intros Hno Hhas l. rewrite Hhas. split.
  - intros [Hl| ->]; [right; eauto|by left].
  - intros [[_ [= ->]]|[_ Hl]]; [by right|by left].
Qed.

Lemma split_branch_ok route p cs new shared tx :
  canon route (TBranch p cs) -> stored domain (rows tx) (TBranch p cs) -> leaf_ok N route new ->
  shared = shared_prefix p (drop (length route) (nibbles (lf_path new))) -> (shared <> length p)%nat ->
  leaves_below L route (after_edit (TBranch p cs) (lf_path new) (Some new)) -> parted L route ->
  wp L (rooted route (updated (TBranch p cs) (lf_path new) (Some new)))
    (split_branch N table domain (node_of p (ref <$> cs)) p new shared route) tx.
Proof using HL HN Htable WL.
  intros Hwf Hs Hnew Hsh Hne HL' Hpart. destruct (shared_prefix_ok p (drop (length route) (nibbles (lf_path new))))
    as (Hle & Htake & Hdiff). cbv zeta in *. rewrite <- Hsh in *.
  pose proof (wf_shape N domain _ _ _ Hwf) as Hshape.
  destruct (wf_branch_inv _ _ _ _ Hwf) as (Hp & Hlen & H16 & H2 & Hc). destruct Hnew as [Hlp Hlh Hr].
  destruct (lookup_lt_is_Some_2 p shared) as [x Hx]; [lia|].
  destruct (lookup_lt_is_Some_2 (nibbles (lf_path new)) (length route + shared)) as [y Hy].
  { rewrite length_nibbles. lia. }
  assert (x <> y) as Hxy by (apply Hdiff; [done|by rewrite lookup_drop]).
  pose proof (take_drop_middle _ _ _ Hx) as Hsplit.
  assert (Hroute : route ++ take shared p = take (length route + shared) (nibbles (lf_path new))).
  { apply prefix_take in Hr. rewrite <- Hr at 1. rewrite Htake, <- take_take_drop. done. }
  unfold split_branch. rewrite (node_children_of Hshape), Nat.add_1_r. apply wp_bind.
  set (low := TBranch (drop (S shared) p) cs).
  assert (Hlow : canon (route ++ take shared p ++ [x]) low).
  { apply wf_lower. rewrite <- app_assoc. cbn [app]. by rewrite Hsplit. }
  assert (Hno : forall l, has (TBranch p cs) l -> lf_path l <> lf_path new).
  { intros l Hl E. pose proof (wf_branch_prefix _ _ _ _ _ Hwf Hl) as Hpl. rewrite E in Hpl.
    apply Hxy. assert ((route ++ p) !! (length route + shared) = Some x) as Hrx.
    { rewrite lookup_app_r by lia. by replace (length route + shared - length route)%nat with shared by lia. }
    pose proof (prefix_lookup_some _ _ _ _ Hpl Hrx). congruence. }
  assert (Hroute' : length (route ++ take shared p) = (length route + shared)%nat) by (rewrite length_app, length_take_le by lia; done).
  assert (Hrn : route ++ take shared p `prefix_of` nibbles (lf_path new)).
  { rewrite Hroute. apply prefix_take. rewrite length_take_le; [done|]. apply lookup_lt_Some in Hy. lia. }
  eapply wp_mono; [apply (store_children_ok (route ++ take (S shared) p))|].
  { rewrite (take_S_r _ _ _ Hx). apply (trie_branch_intro _ _ _ _ _ (has (TBranch p cs))); [done|..].
    - intros l Hl. rewrite (HL' l (prefix_app_inv _ _ _ Hl)). split; [|intros Hb; right; split; [by apply Hno|done]].
      intros [[_ [= <-]]|[_ ?]]; [exfalso|done]. apply Hxy.
      assert ((route ++ take shared p ++ [x]) !! (length route + shared)%nat = Some x) as E.
      { rewrite app_assoc, <- Hroute'. by rewrite lookup_app_r, Nat.sub_diag by lia. }
      pose proof (prefix_lookup_some _ _ _ _ Hl E). congruence.
    - intros l. apply has_prefix_irrel.
    - rewrite app_assoc. apply (parted_by _ _ _ new y); [|done|by rewrite Hroute'|congruence].
      apply (HL' new Hr). by left. }
  { apply Forall_lookup. by eapply stored_branch_inv. }
  intros old tx1 He [-> Hslow] _. fold low.
  rewrite (nth_lookup_Some _ _ _ _ Hx), (nibbles_nibble _ _ _ Hy).
  change (RLeaf new) with (ref (TLeaf new)). fold low. rewrite <- fmap_pair.
  destruct (wf_pair N route (take shared p) x y low (TLeaf new)) as [Hwf' Hhas].
  { by apply Forall_take. } { rewrite length_take_le; lia. }
  { rewrite Forall_lookup in Hp. by eapply Hp. } { by eapply nibble_bound. } { done. } { done. } { done. } { done. }
  { rewrite app_assoc, Hroute. constructor. split; [done..|]. rewrite <- take_S_r by done.
    apply prefix_take. rewrite length_take_le; [done|]. apply lookup_lt_Some in Hy. lia. }
  assert (Hu : updated (TBranch p cs) (lf_path new) (Some new) (TBranch (take shared p) (pair_children x y low (TLeaf new)))).
  { apply updated_new; [done|]. intros l. rewrite Hhas. unfold low. rewrite (has_prefix_irrel _ p). split.
    - intros [Hl| ->%has_leaf_inv]; auto.
    - intros [Hl| ->]; [by left|right; constructor]. }
  eapply wp_mono; [apply store_children_ok; [by eapply trie_branch_intro|by apply stored_pair; [|constructor]]|].
  intros r tx2 _ [-> Hs2]. eexists. by split_and!.
Qed.

(** The leaves of an array of children. *)
Definition in_children (cs : list tree) (l : LeafRef) : Prop := exists i c, cs !! i = Some c /\ has c l.
Definition gathered (cs : list tree) (t : tree) : Prop := forall l, has t l <-> in_children cs l.

Lemma gathered_branch p cs : gathered cs (TBranch p cs).
Proof using. intros l. split; [apply has_branch_inv|]. intros (i & c & Hi & Hl). by eapply has_branch. Qed.

(** Only one child is occupied. *)
Lemma gathered_only cs i c : cs !! i = Some c -> (forall j d, cs !! j = Some d -> j <> i -> d = TEmpty) ->
  gathered cs c.
Proof using.
  intros Hi Hj l. split; [unfold in_children; eauto|]. intros (j & d & Hd & Hl). destruct (decide (j = i)) as [->|Hne].
  - by simplify_eq.
  - rewrite (Hj _ _ Hd Hne) in Hl. by apply has_empty in Hl.
Qed.

Lemma occupied_refs (cs : list tree) i j x y : i <> j -> (ref <$> cs) !! i = Some x -> x <> REmpty ->
  (ref <$> cs) !! j = Some y -> y <> REmpty -> two_occupied cs.
Proof using.
  intros Hij Hi Hx Hj Hy. rewrite list_lookup_fmap in Hi, Hj.
  destruct (cs !! i) as [ci|] eqn:Ei; [|done]. destruct (cs !! j) as [cj|] eqn:Ej; [|done].
  injection Hi as <-. injection Hj as <-. exists i, j, ci, cj. split_and!; try done.
  - by intros ->.
  - by intros ->.
Qed.

(** A lone child below a prefix, as a subtree of the branch's own route. *)
Lemma raise_branch route p i q ds : Forall (fun n => n < 16)%nat p -> (i < 16)%nat ->
  canon (route ++ p ++ [i]) (TBranch q ds) -> canon route (TBranch (p ++ [i] ++ q) ds).
Proof using.
  intros Hp Hi Hwf. rewrite app_assoc. apply wf_raise; [|done]. apply Forall_app. split; [done|]. by constructor.
Qed.

Lemma rebuild_branch_ok route p cs tx :
  Forall (fun n => n < 16)%nat p -> (length route + length p < 2 * N)%nat -> length cs = 16%nat ->
  (forall i c, cs !! i = Some c -> canon (route ++ p ++ [i]) c /\ stored domain (rows tx) c) ->
  (exists i c, cs !! i = Some c /\ c <> TEmpty) ->
  leaves_below L route (in_children cs) -> parted L route ->
  wp L (rooted route (gathered cs)) (rebuild_branch N table domain p (ref <$> cs) route) tx.
Proof using HL HN Htable WL.
  intros Hp Hlen H16 Hc (k & ck & Hk & Hck) HL' Hpart. unfold rebuild_branch, active.
  destruct (occupied_cases REmpty (ref <$> cs)) as [[_ Hall]|[(i & x & -> & Hi & Hx & Hj)|Htwo]].
  - destruct Hck. apply (ref_of_empty domain), (Hall k). by rewrite list_lookup_fmap, Hk.
  - rewrite list_lookup_fmap in Hi. destruct (cs !! i) as [c|] eqn:Ei; [|done]. injection Hi as <-.
    destruct (Hc _ _ Ei) as [Hwf Hs].
    assert (Hg : gathered cs c).
    { eapply gathered_only; [done|]. intros j d Hd Hne. apply (ref_of_empty domain), (Hj j); [|done].
      by rewrite list_lookup_fmap, Hd. }
    destruct c as [|leaf|q ds]; cbn [ref_of].
    + by destruct Hx.
    + apply wp_ret. exists (TLeaf leaf). split_and!; [done|by eapply wf_weaken|done..].
    + apply wp_bind. eapply wp_reading; [by apply (load_ok _ q ds)|]. intros _.
      pose proof (wf_shape N domain _ _ _ Hwf) as Hsh.
      rewrite (unpack_prefix_of Hsh), (node_children_of Hsh).
      assert (Hw : canon route (TBranch (p ++ [i] ++ q) ds)).
      { apply raise_branch; [done| |done]. apply lookup_lt_Some in Ei. lia. }
      assert (Hgw : gathered cs (TBranch (p ++ [i] ++ q) ds)) by (intros l; rewrite <- (Hg l); apply has_prefix_irrel).
      eapply wp_mono; [apply store_children_ok|].
      * by eapply trie_branch_intro.
      * apply Forall_lookup. by eapply stored_branch_inv.
      * intros r tx' _ [-> Hs']. eexists. by split_and!.
  - destruct Htwo as (a & b & rest & i & j & x & y & -> & Hij & Hi & Hx & Hj & Hy).
    assert (Hwf : canon route (TBranch p cs)).
    { constructor; [done..|by eapply occupied_refs|]. intros n c Hn. by apply Hc. }
    pose proof (trie_branch_intro _ _ _ _ _ _ Hwf HL' (gathered_branch p cs) Hpart) as Hb.
    destruct a as [n [| |]]; (eapply wp_mono; [apply store_children_ok;
      [done|apply Forall_lookup; intros n' c Hn; by eapply Hc]|]);
      intros r tx' _ [-> Hs]; eexists; (split_and!; [done..|apply gathered_branch]).
Qed.

(** An edit of one child is an edit of the branch. *)
Lemma child_edit route p cs slot c c' target replacement :
  canon route (TBranch p cs) -> nibbles target !! (length route + length p) = Some slot ->
  cs !! slot = Some c -> updated c target replacement c' ->
  forall l, in_children (<[slot := c']> cs) l <-> after_edit (TBranch p cs) target replacement l.
Proof using.
  intros Hwf Hslot Hc Hu l. apply lookup_lt_Some in Hc as Hlt. split.
  - intros (i & d & Hi & Hl). destruct (decide (i = slot)) as [->|Hne].
    + rewrite list_lookup_insert_eq in Hi by done. injection Hi as <-. apply Hu in Hl as [?|[? Hl]]; [by left|].
      right. split; [done|]. by eapply has_branch.
    + rewrite list_lookup_insert_ne in Hi by done. right. split; [|by eapply has_branch].
      intros <-. destruct (wf_branch_has _ _ _ _ _ _ _ Hwf Hi Hl) as [_ Hn]. congruence.
  - intros [Hl|[Hne (i & d & Hi & Hl)%has_branch_inv]].
    + exists slot, c'. rewrite list_lookup_insert_eq by done. split; [done|]. apply Hu. by left.
    + destruct (decide (i = slot)) as [->|Hi'].
      * exists slot, c'. rewrite list_lookup_insert_eq by done. simplify_eq. split; [done|]. apply Hu. by right.
      * exists i, d. by rewrite list_lookup_insert_ne.
Qed.

(** Below the child's route the edit of the branch is that of the child, and
    the branch has a leaf off it that stays. *)
Lemma child_below route p cs slot c target replacement :
  canon route (TBranch p cs) -> nibbles target !! length (route ++ p) = Some slot -> cs !! slot = Some c ->
  leaves_below L route (after_edit (TBranch p cs) target replacement) ->
  leaves_below L ((route ++ p) ++ [slot]) (after_edit c target replacement) /\ parted L ((route ++ p) ++ [slot]).
Proof using.
  intros Hwf Hslot Hc HL'. split.
  - intros l Hl. rewrite (HL' l) by (rewrite <- app_assoc in Hl; by eapply prefix_app_inv). unfold after_edit.
    assert (nibbles (lf_path l) !! (length route + length p)%nat = Some slot) as Hn.
    { eapply prefix_lookup_some; [exact Hl|]. rewrite <- length_app. by rewrite lookup_app_r, Nat.sub_diag by done. }
    by rewrite (has_branch_slot N route p cs l slot c Hwf Hn Hc).
  - destruct (off_slot N route p cs slot Hwf) as (l & j & d & Hne & Hd & Hl & Hr & Hj).
    apply (parted_by _ _ _ l j); [|done..]. apply HL'; [by eapply prefix_app_inv|]. right. split; [|by eapply has_branch].
    intros E. rewrite E in Hj. congruence.
Qed.

(** A removal off the branch's prefix removes nothing. *)
Lemma updated_absent t target : (forall l, has t l -> lf_path l <> target) -> updated t target None t.
Proof using. intros Hno l. split; [intros Hl; right; eauto|]. by intros [[_ ?]|[_ ?]]. Qed.

(** One of two occupied children is left when another slot changes. *)
Lemma occupied_after cs slot c' : two_occupied cs -> exists i c, <[slot := c']> cs !! i = Some c /\ c <> TEmpty.
Proof using.
  intros (i & j & ci & cj & Hij & Hi & Hci & Hj & Hcj). destruct (decide (i = slot)) as [->|].
  - exists j, cj. by rewrite list_lookup_insert_ne.
  - exists i, ci. by rewrite list_lookup_insert_ne.
Qed.

Lemma edit_ok fuel t target replacement route tx :
  canon route t -> stored domain (rows tx) t -> length target = N -> route `prefix_of` nibbles target ->
  (forall l, replacement = Some l -> length (lf_hash l) = 32%nat /\ lf_path l = target) ->
  (2 * N < fuel + length route)%nat ->
  leaves_below L route (after_edit t target replacement) -> parted L route ->
  wp L (rooted route (updated t target replacement))
    (edit N table domain fuel (ref t) target replacement route) tx.
Proof using HL HN Htable WL.
  revert t route tx. induction fuel as [|fuel IH]; intros t route tx Hwf Hs Hlen Hr Hrep Hf HL' Hpart.
  { apply prefix_length in Hr. rewrite length_nibbles in Hr. lia. }
  assert (Hok : forall l, replacement = Some l -> leaf_ok N route l /\ lf_path l = target).
  { intros l El. destruct (Hrep l El) as [Hh <-]. by repeat split. }
  destruct t as [|leaf|p cs]; cbn [edit ref_of].
  { apply wp_ret. destruct replacement as [new|].
    - destruct (Hok new eq_refl) as [Hl <-]. exists (TLeaf new). split_and!; [done|by constructor|by constructor|].
      apply updated_new; [by intros l ?%has_empty|]. intros l. split; [intros ->%has_leaf_inv; by right|].
      intros [?%has_empty| ->]; [done|constructor].
    - exists TEmpty. split_and!; [done|by constructor|by constructor|]. apply updated_absent. by intros l ?%has_empty. }
  { apply edit_leaf_ok; try done. by inversion Hwf. }
  unfold edit_branch. apply wp_bind. eapply wp_reading; [by apply load_ok|]. intros _.
  pose proof (wf_shape N domain _ _ _ Hwf) as Hsh. rewrite (unpack_prefix_of Hsh), (node_children_of Hsh).
  destruct (shared_prefix_ok p (drop (length route) (nibbles target))) as (Hle & Htake & Hdiff). cbv zeta in *.
  destruct (wf_branch_inv _ _ _ _ Hwf) as (Hp & Hd & H16 & H2 & Hc).
  destruct (Nat.eqb_spec (shared_prefix p (drop (length route) (nibbles target))) (length p)) as [Eq|Hne]; cbn [negb].
  - rewrite Eq, firstn_all in Htake.
    assert (Hrp : route ++ p `prefix_of` nibbles target).
    { destruct Hr as [z Ez]. rewrite Ez in *. rewrite drop_app_length in Htake. apply prefix_app.
      by apply prefix_take. }
    destruct (lookup_lt_is_Some_2 (nibbles target) (length (route ++ p))) as [slot Hslot].
    { rewrite length_nibbles, length_app. lia. }
    apply wp_bind. eapply wp_lift; [by rewrite Hslot|]. intros _.
    pose proof (nibble_bound _ _ _ Hslot) as Hlt.
    destruct (lookup_lt_is_Some_2 cs slot) as [c Ec]; [lia|].
    apply wp_bind. eapply wp_lift; [by rewrite list_lookup_fmap, Ec|]. intros _. apply wp_bind.
    destruct (child_below route p cs slot c target replacement Hwf Hslot Ec HL') as [HLc Hpc].
    eapply wp_mono; [apply (IH c ((route ++ p) ++ [slot]))|].
    { rewrite <- app_assoc. by apply Hc. } { by eapply stored_branch_inv. } { done. } { by apply prefix_snoc. }
    { done. } { rewrite !length_app. cbn [length]. rewrite length_app in *. lia. } { done. } { done. }
    intros r tx1 He (c' & -> & Hwf' & Hs' & Hu) _. rewrite <- app_assoc in Hwf'. rewrite length_app in Hslot.
    pose proof (stored_mono domain _ _ _ (proj1 He) Hs) as Hs1.
    case_bool_decide as Esame.
    + assert (c' = c) as ->.
      { eapply (ref_inj N domain HN (rows tx1)); [done|by apply Hc|done| |done]. by eapply stored_branch_inv. }
      apply wp_ret. exists (TBranch p cs). split_and!; [done..|].
      intros l. rewrite <- (child_edit route p cs slot c c) by done. rewrite list_insert_id by done. apply gathered_branch.
    + rewrite <- list_fmap_insert. eapply wp_mono; [apply rebuild_branch_ok|].
      { done. } { done. } { by rewrite length_insert. }
      { intros i d Hi. destruct (decide (i = slot)) as [->|].
        - rewrite list_lookup_insert_eq in Hi by lia. injection Hi as <-. done.
        - rewrite list_lookup_insert_ne in Hi by done. split; [by apply Hc|]. by eapply stored_branch_inv. }
      { by apply occupied_after. }
      { eapply leaves_below_ext; [|exact HL']. intros l. symmetry. by eapply child_edit. } { done. }
      intros r tx2 _ (t' & -> & Hwft & Hst & Hg). exists t'. split_and!; [done..|]. intros l. rewrite (Hg l). by eapply child_edit.
  - assert (Hno : forall l, has (TBranch p cs) l -> lf_path l <> target).
    { intros l Hl <-. apply Hne. pose proof (wf_branch_prefix _ _ _ _ _ Hwf Hl) as [z Ez].
      set (k := shared_prefix p _) in *. destruct (decide (k = length p)) as [|Hk]; [done|exfalso].
      destruct (lookup_lt_is_Some_2 p k) as [x Hx]; [lia|]. apply (Hdiff x x); [done| |done].
      rewrite Ez, <- app_assoc, drop_app_length. by apply lookup_app_l_Some. }
    destruct replacement as [new|].
    + destruct (Hok new eq_refl) as [Hl <-]. by apply split_branch_ok.
    + apply wp_ret. exists (TBranch p cs). split_and!; [done..|]. by apply updated_absent.
Qed.
End Triples.
End Edit.
