(* ===== verification/MerkleBatch.v ===== *)
(** Batch edits of the Merkle trie: [apply] of crates/merkle/src/trie.rs and its
    helpers ([build], [collapse], [split_prefix], [following], [apply_at]).

    A batch ends in the canonical tree of the edited leaves, whatever mix of
    insertions, replacements and removals it holds. *)
From Stdlib Require Import ZArith Lia.
From S2P Require Import Prelude Ordered Groups Storage MerkleNode MerkleTrie MerkleTree MerkleEdit.

(** * Runs and slices of sorted lists *)

(** Elements with slot [s]. *)
Definition at_slot {A} (f : A -> nat) (s : nat) (l : list A) : list A := filter (fun x => f x = s) l.

Lemma at_slot_head {A} (f : A -> nat) s l x : x ∈ l -> f x = s ->
  exists first, head (at_slot f s l) = Some first /\ f first = s.
Proof.
  intros Hx Hs. assert (x ∈ at_slot f s l) as Hin by (by apply list_elem_of_filter).
  destruct (at_slot f s l) as [|first group] eqn:E; [by apply not_elem_of_nil in Hin|].
  exists first. split; [done|]. assert (first ∈ at_slot f s l) as Hf by (rewrite E; apply list_elem_of_here).
  by apply list_elem_of_filter in Hf as [? _].
Qed.

(** [chunk_by] on a list ordered by slot yields one group for each slot. *)
Lemma chunk_by_slots {A} (f : A -> nat) l :
  StronglySorted (fun a b => f a <= f b)%nat l ->
  exists slots, StronglySorted lt slots /\
    (forall s, s ∈ slots <-> exists x, x ∈ l /\ f x = s) /\
    chunk_by (fun a b => f a =? f b)%nat l = (fun s => at_slot f s l) <$> slots.
Proof.
  induction 1 as [|a l Hs IH Ha].
  { exists []. split_and!; [constructor| |done]. set_solver. }
  destruct IH as (slots & Hsl & Hin & Hch). cbn [chunk_by]. rewrite Hch. rewrite Forall_forall in Ha.
  assert (Hskip : forall s, s <> f a -> at_slot f s (a :: l) = at_slot f s l).
  { intros s Hsa. unfold at_slot. by rewrite filter_cons, decide_False by done. }
  destruct slots as [|s slots].
  { destruct l as [|b l].
    - exists [f a]. split_and!; [repeat constructor| |].
      + intros s. rewrite list_elem_of_singleton. set_solver.
      + change ([[a]] = [at_slot f (f a) [a]]). unfold at_slot. by rewrite filter_cons, decide_True.
    - exfalso. apply (not_elem_of_nil (f b)), Hin. exists b. split; [apply list_elem_of_here|done]. }
  destruct l as [|b l]; [exfalso; destruct (proj1 (Hin s)) as (x & Hx & _); [apply list_elem_of_here|]; by apply not_elem_of_nil in Hx|].
  apply StronglySorted_inv in Hsl as [Hsl Hlt]. rewrite Forall_forall in Hlt.
  assert (s = f b) as ->.
  { assert (f b ∈ s :: slots) as Hb by (apply Hin; exists b; split; [apply list_elem_of_here|done]).
    apply elem_of_cons in Hb as [|Hb]; [done|]. apply Hlt in Hb.
    destruct (proj1 (Hin s)) as (x & Hx & <-); [apply list_elem_of_here|].
    apply StronglySorted_inv in Hs as [_ Hs]. rewrite Forall_forall in Hs.
    apply elem_of_cons in Hx as [->|Hx]; [lia|]. specialize (Hs x Hx). lia. }
  cbn [fmap list_fmap head]. specialize (Ha b (list_elem_of_here _ _)) as Hab.
  destruct (Nat.eqb_spec (f a) (f b)) as [E|E].
  - exists (f b :: slots). split_and!; [by constructor; [|apply Forall_forall]| |].
    + intros t. rewrite Hin. split; [intros (x & Hx & <-); exists x; split; [by apply list_elem_of_further|done]|].
      intros (x & [->|Hx]%elem_of_cons & <-); [|by eauto]. exists b. split; [apply list_elem_of_here|done].
    + cbn [fmap list_fmap].
      assert (at_slot f (f b) (a :: b :: l) = a :: at_slot f (f b) (b :: l)) as ->.
      { unfold at_slot. by rewrite (filter_cons _ a), decide_True. }
      f_equal. apply list_fmap_ext. intros i t Ht. symmetry. apply Hskip.
        apply list_elem_of_lookup_2, Hlt in Ht. lia.
  - exists (f a :: f b :: slots). split_and!.
    + constructor; [by constructor; [|apply Forall_forall]|]. apply Forall_forall. intros t [->|Ht]%elem_of_cons; [lia|].
      apply Hlt in Ht. lia.
    + intros t. rewrite elem_of_cons, Hin. split.
      * intros [->|(x & Hx & <-)]; [exists a; split; [apply list_elem_of_here|done]|].
        exists x. split; [by apply list_elem_of_further|done].
      * intros (x & [->|Hx]%elem_of_cons & <-); [by left|right; eauto].
    + cbn [fmap list_fmap].
      assert (at_slot f (f a) (a :: b :: l) = [a]) as ->.
      { unfold at_slot. rewrite filter_cons, decide_True by done. f_equal. apply filter_nil_all, Forall_forall.
        intros x Hx. apply StronglySorted_inv in Hs as [_ Hs]. rewrite Forall_forall in Hs.
        apply elem_of_cons in Hx as [->|Hx]; [lia|]. specialize (Hs x Hx). lia. }
      rewrite (Hskip (f b)) by lia. do 2 f_equal. apply list_fmap_ext. intros i t Ht. symmetry. apply Hskip.
        apply list_elem_of_lookup_2, Hlt in Ht. lia.
Qed.

Lemma filter_seq_last (P : nat -> Prop) `{!forall i, Decision (P i)} n d :
  last (filter P (seq 0 n)) = Some d -> (d < n)%nat /\ P d /\ forall i, (d < i < n)%nat -> ~ P i.
Proof.
  induction n as [|n IH]; [done|]. rewrite seq_S, filter_app, filter_cons, filter_nil. cbn [Nat.add]. case_decide as E.
  - rewrite last_snoc. intros [= <-]. split_and!; [lia|done|]. intros i Hi. lia.
  - rewrite app_nil_r. intros (? & ? & Hlt)%IH. split_and!; [lia|done|]. intros i Hi.
    destruct (decide (i = n)) as [->|]; [done|]. apply Hlt. lia.
Qed.

(** A slice from the first to the last element of a convex property. *)
Lemma convex_slice {A} (p : A -> bool) (l : list A) :
  (forall i j k x y z, l !! i = Some x -> l !! j = Some y -> l !! k = Some z -> (i < j < k)%nat ->
    p x = true -> p z = true -> p y = true) ->
  let start := default (length l) (position p l) in
  let end_ := from_option S start (rposition p l) in
  drop start (take end_ l) = filter (fun x => p x = true) l.
Proof.
  intros Hconv. cbv zeta. unfold position, rposition.
  set (P := fun i => (p <$> l !! i) = Some true).
  assert (HP : forall i x, l !! i = Some x -> P i <-> p x = true).
  { intros i x Hi. unfold P. rewrite Hi. cbn. split; congruence. }
  destruct (last (filter P (seq 0 (length l)))) as [e|] eqn:Ee; cbn [from_option].
  - apply filter_seq_last in Ee as (He & HPe & Hafter).
    destruct (head (filter P (seq 0 (length l)))) as [s|] eqn:Es; cbn [default from_option].
    2: { exfalso. eapply filter_seq_none; [exact Es| |exact HPe]. lia. }
    apply filter_seq_head in Es as (Hs & HPs & Hbefore).
    assert (Hse : (s <= e)%nat) by (destruct (decide (s <= e)%nat); [done|]; destruct (Hafter s); [lia|done]).
    destruct (lookup_lt_is_Some_2 l s) as [xs Hxs]; [lia|]. destruct (lookup_lt_is_Some_2 l e) as [xe Hxe]; [lia|].
    transitivity (filter (fun x => p x = true) (take s l ++ drop s (take (S e) l) ++ drop (S e) l)).
    2: { f_equal. rewrite (app_assoc (take s l)).
      replace (take s l) with (take s (take (S e) l)) by (rewrite take_take; f_equal; lia).
      by rewrite !take_drop. }
    rewrite !filter_app, (filter_nil_all _ (take s l)), (filter_nil_all _ (drop (S e) l)), app_nil_r, filter_all_id; [done|..].
    + apply Forall_lookup. intros i x Hi. rewrite lookup_drop in Hi. apply lookup_take_Some in Hi as [Hi Hlt].
      destruct (decide (i = 0)%nat) as [->|]; [rewrite Nat.add_0_r in Hi; by apply (HP _ _ Hi)|].
      destruct (decide (s + i = e)%nat) as [<-|]; [by apply (HP _ _ Hi)|].
      apply (Hconv s (s + i)%nat e xs x xe); try done; [lia|by apply (HP s)|by apply (HP e)].
    + apply Forall_lookup. intros i x Hi. rewrite lookup_drop in Hi. rewrite <- (HP _ _ Hi). apply Hafter.
      apply lookup_lt_Some in Hi. lia.
    + apply Forall_lookup. intros i x Hi. apply lookup_take_Some in Hi as [Hi Hlt]. rewrite <- (HP _ _ Hi).
      apply Hbefore. lia.
  - assert (Hnone : Forall (fun x => ~ p x = true) l).
    { apply Forall_lookup. intros i x Hi Hp. apply last_None in Ee.
      assert (i ∈ filter P (seq 0 (length l))) as Hin.
      { apply list_elem_of_filter. split; [by apply (HP _ _ Hi)|]. apply elem_of_seq. apply lookup_lt_Some in Hi. lia. }
      rewrite Ee in Hin. by apply not_elem_of_nil in Hin. }
    rewrite (filter_nil_all _ l Hnone). apply drop_ge. rewrite length_take. lia.
Qed.

(** ** Lists sorted by path *)

Definition by_path {A} (g : A -> bytes) (l : list A) : Prop := StronglySorted klt (g <$> l).

Lemma by_path_lookup {A} (g : A -> bytes) l i j x y : by_path g l -> l !! i = Some x -> l !! j = Some y ->
  (i < j)%nat -> klt (g x) (g y).
Proof.
  unfold by_path. revert i j. induction l as [|z l IH]; intros i j Hs Hi Hj Hij; [done|].
  cbn [fmap list_fmap] in Hs. apply StronglySorted_inv in Hs as [Hs Hz]. destruct j as [|j]; [lia|]. cbn in Hj. destruct i as [|i].
  - injection Hi as ->. rewrite Forall_fmap, Forall_lookup in Hz. by apply (Hz j).
  - apply (IH i j Hs Hi Hj). lia.
Qed.

Lemma by_path_filter {A} (g : A -> bytes) (P : A -> Prop) `{!forall x, Decision (P x)} l :
  by_path g l -> by_path g (filter P l).
Proof.
  unfold by_path. induction l as [|x l IH]; [done|]. cbn [fmap list_fmap]. intros [Hs Hx]%StronglySorted_inv.
  rewrite filter_cons. case_decide; [|auto]. cbn [fmap list_fmap]. constructor; [auto|].
  rewrite Forall_fmap, Forall_forall in *. intros y [_ Hy]%list_elem_of_filter. by apply Hx.
Qed.

(** Elements whose ends share a route share it all. *)
Lemma by_path_share {A} (g : A -> bytes) n d l a b : by_path g l -> Forall (fun x => length (g x) = n) l ->
  head l = Some a -> last l = Some b -> take d (nibbles (g a)) = take d (nibbles (g b)) ->
  Forall (fun x => take d (nibbles (g x)) = take d (nibbles (g a))) l.
Proof.
  intros Hs Hn Ha Hb Hab. rewrite head_lookup in Ha. rewrite last_lookup in Hb.
  rewrite Forall_lookup in Hn |- *. intros i x Hi. apply lookup_lt_Some in Hi as Hlt.
  destruct (decide (i = 0)%nat) as [->|]; [by simplify_eq|].
  destruct (decide (i = pred (length l))) as [->|]; [by simplify_eq|].
  apply (nibbles_convex (g a) (g x) (g b)).
  - by rewrite (Hn _ _ Ha), (Hn _ _ Hi).
  - by rewrite (Hn _ _ Hi), (Hn _ _ Hb).
  - apply (by_path_lookup g l 0 i); [done..|lia].
  - apply (by_path_lookup g l i (pred (length l))); [done..|lia].
  - done.
Qed.

(** Sorted paths that share [d] nibbles are ordered by the next one. *)
Lemma by_path_slots {A} (g : A -> bytes) d r l : by_path g l ->
  Forall (fun x => take d (nibbles (g x)) = r /\ (d < length (nibbles (g x)))%nat) l ->
  StronglySorted (fun a b => nibble (g a) d <= nibble (g b) d)%nat l.
Proof.
  unfold by_path. induction l as [|x l IH]; [constructor|]. cbn [fmap list_fmap].
  intros [Hs Hx]%StronglySorted_inv [[Hr Hd] Hl]%Forall_cons. constructor; [auto|].
  rewrite Forall_fmap, Forall_forall in Hx. rewrite Forall_forall in Hl |- *. intros y Hy.
  destruct (Hl y Hy) as [Hry Hdy]. rewrite length_nibbles in Hd, Hdy.
  apply (nibbles_mono (g x) (g y) d); [by apply Hx|congruence|by apply nibbles_lookup..].
Qed.

(** ** Matching a prefix along a path *)

Lemma matched_shared l path d : (d + length l <= length path * 2)%nat ->
  matched l path d = shared_prefix l (drop d (nibbles path)).
Proof.
  revert d. induction l as [|n l IH]; intros d Hd; [done|]. cbn [matched length] in *.
  rewrite (drop_S _ (nibble path d)) by (apply nibbles_lookup; lia). cbn [shared_prefix].
  rewrite (Nat.eqb_sym n). destruct (nibble path d =? n)%nat; [|done]. by rewrite IH by lia.
Qed.

Lemma prefix_at {A} (route q k : list A) : route `prefix_of` k ->
  (route ++ q `prefix_of` k <-> q = take (length q) (drop (length route) k)).
Proof.
  intros [z ->]. rewrite drop_app_length. split.
  - intros [w E]. rewrite <- app_assoc in E. apply app_inv_head in E as ->. by rewrite take_app_length.
  - intros Hq. apply prefix_app, prefix_take. done.
Qed.

Lemma matched_prefix route q path : route `prefix_of` nibbles path ->
  (length route + length q <= length path * 2)%nat ->
  matched q path (length route) = length q <-> route ++ q `prefix_of` nibbles path.
Proof. intros Hr Hl. rewrite matched_spec by done. by rewrite prefix_at. Qed.

(** The nibbles a path shares with a prefix. *)
Lemma matched_take route q path k : route `prefix_of` nibbles path ->
  (length route + length q <= length path * 2)%nat -> (k <= matched q path (length route))%nat ->
  (k <= length q)%nat /\ route ++ take k q `prefix_of` nibbles path.
Proof.
  intros Hr Hl. rewrite matched_shared by done.
  destruct (shared_prefix_ok q (drop (length route) (nibbles path))) as (Hle & Htake & _). cbv zeta in *.
  intros Hk. split; [lia|]. apply prefix_at; [done|]. rewrite length_take_le by lia.
  apply (f_equal (take k)) in Htake. rewrite !take_take in Htake. by rewrite !Nat.min_l in Htake by lia.
Qed.

Lemma foldl_min n ns : (foldl Nat.min n ns <= n)%nat /\ Forall (fun m => foldl Nat.min n ns <= m)%nat ns.
Proof.
  revert n. induction ns as [|m ns IH]; intros n; cbn; [done|]. destruct (IH (Nat.min n m)) as [H1 H2].
  split; [lia|]. constructor; [lia|done].
Qed.

Section Batch.
Context `{HashProvider} {HL : HashLaws} (N : nat) (table : Table) (domain : byte).
Context {T : Type} `{WT : WriteTransaction T} {RL : ReadLaws T} {WL : WriteLaws T}.
Hypothesis HN : (1 <= N <= 32)%nat.
Hypothesis Htable : table_ok table.

Abbreviation rows tx := (view tx table).
Abbreviation ref := (ref_of domain).
Abbreviation canon := (wf N).
Context (L : LeafRef -> Prop).
Abbreviation wp := (wp N table domain L).
Abbreviation ext := (ext table).

(** The tree an edited subtrie stands for; a new branch has no row yet. *)
Definition erep (R : Rows) (e : Edited) (t : tree) : Prop :=
  match e with
  | Stored r => r = ref t /\ stored domain R t
  | New p rs => exists cs, t = TBranch p cs /\ rs = ref <$> cs /\ Forall (stored domain R) cs
  end.

Lemma erep_mono R R' e t : R ⊆ R' -> erep R e t -> erep R' e t.
Proof using.
  intros HR. destruct e as [r|p rs]; cbn [erep].
  - intros [-> Hs]. split; [done|]. by eapply stored_mono.
  - intros (cs & -> & -> & Hcs). exists cs. split_and!; [done..|]. eapply Forall_impl; [done|].
    intros c. by apply stored_mono.
Qed.

(** What an operation that returns an edited subtrie establishes. *)
Definition edited_to (route : list nat) (Q : tree -> Prop) (e : Edited) (tx : T) : Prop :=
  exists t, erep (rows tx) e t /\ canon route t /\ Q t.

Lemma store_edited_ok route e t tx : erep (rows tx) e t -> canon route t ->
  leaves_below L route (has t) -> parted L route ->
  wp (fun r tx' => r = ref t /\ stored domain (rows tx') t) (store_edited N table domain e route) tx.
Proof using HL HN Htable WL.
  destruct e as [r|p rs]; cbn [erep store_edited].
  - intros [-> Hs] Hwf _ _. by apply wp_ret.
  - intros (cs & -> & -> & Hcs) Hwf HL' Hpart. apply store_children_ok; [done..| |done]. by eapply trie_branch_intro.
Qed.

(** An array of stored canonical children below [croute]. *)
Definition forest (croute : list nat) (tx : T) (cs : list tree) : Prop :=
  length cs = 16%nat /\ forall i c, cs !! i = Some c -> canon (croute ++ [i]) c /\ stored domain (rows tx) c.

Lemma forest_insert croute tx cs i c : forest croute tx cs -> canon (croute ++ [i]) c ->
  stored domain (rows tx) c -> forest croute tx (<[i := c]> cs).
Proof using.
  intros [H16 Hcs] Hc Hs. split; [by rewrite length_insert|]. intros j d Hj.
  destruct (decide (j = i)) as [->|]; [|rewrite list_lookup_insert_ne in Hj by done; by apply Hcs].
  apply lookup_lt_Some in Hj as Hlt. rewrite length_insert in Hlt.
  rewrite list_lookup_insert_eq in Hj by done. by injection Hj as <-.
Qed.

Lemma forest_mono croute tx tx' cs : ext tx tx' -> forest croute tx cs -> forest croute tx' cs.
Proof using.
  intros [He _] [H16 Hcs]. split; [done|]. intros i c Hi. destruct (Hcs i c Hi). split; [done|].
  by eapply stored_mono.
Qed.

(** ** Building the canonical subtrie of some leaves *)

Abbreviation slot_of d := (fun l : LeafRef => nibble (lf_path l) d).

Lemma build_groups_ok rec d croute leaves slots cs tx :
  (forall s tx, s ∈ slots ->
    wp (edited_to (croute ++ [s]) (fun t => forall l, has t l <-> l ∈ at_slot (slot_of d) s leaves))
      (rec (at_slot (slot_of d) s leaves) (croute ++ [s])) tx) ->
  (forall s, s ∈ slots -> leaves_below L (croute ++ [s]) (fun l => l ∈ at_slot (slot_of d) s leaves) /\ parted L (croute ++ [s])) ->
  NoDup slots -> (forall s, s ∈ slots -> exists x, x ∈ leaves /\ nibble (lf_path x) d = s) ->
  forest croute tx cs ->
  wp (fun rs tx' => exists cs', rs = ref <$> cs' /\ forest croute tx' cs' /\
        forall i c, cs' !! i = Some c ->
          (i ∈ slots /\ (forall l, has c l <-> l ∈ at_slot (slot_of d) i leaves)) \/ (i ∉ slots /\ cs !! i = Some c))
    (build_groups N table domain rec d croute ((fun s => at_slot (slot_of d) s leaves) <$> slots) (ref <$> cs)) tx.
Proof using HL HN Htable WL.
  revert cs tx. induction slots as [|s slots IH]; intros cs tx Hrec HL' Hnd Hex Hcs; cbn [fmap list_fmap build_groups].
  { apply wp_ret. exists cs. split_and!; [done..|]. intros i c Hi. right. split; [apply not_elem_of_nil|done]. }
  apply NoDup_cons in Hnd as [Hns Hnd]. destruct (Hex s) as (x & Hx & Hs); [apply list_elem_of_here|].
  destruct (at_slot_head (slot_of d) s leaves x Hx Hs) as (first & Hfirst & Hslot). cbn beta in Hslot. apply wp_bind. eapply wp_lift; [by rewrite Hfirst|]. intros _.
  rewrite Hslot. apply wp_bind. eapply wp_mono; [apply Hrec, list_elem_of_here|].
  destruct (HL' s) as [HLs Hps]; [apply list_elem_of_here|].
  intros e tx1 He1 (t & Het & Hwf & Hhas) _. apply wp_bind. eapply wp_mono; [apply store_edited_ok; [done..| |done]|].
  { eapply leaves_below_ext; [|exact HLs]. intros l. by rewrite Hhas. }
  intros r tx2 He2 [-> Hst] _. rewrite <- list_fmap_insert.
  eapply wp_mono; [apply IH|].
  { intros s' tx' Hs'. apply Hrec. by apply list_elem_of_further. }
  { intros s' Hs'. apply HL'. by apply list_elem_of_further. } { done. }
  { intros s' Hs'. apply Hex. by apply list_elem_of_further. }
  { apply forest_insert; [|done..]. by do 2 (eapply forest_mono; [done|]). }
  intros rs tx3 _ (cs' & -> & Hcs' & Hall). exists cs'. split_and!; [done..|]. intros i c Hi.
  destruct (Hall i c Hi) as [[Hin Hc]|[Hnin Hc]]; [left; split; [by apply list_elem_of_further|done]|].
  destruct (decide (i = s)) as [->|Hne].
  - left. split; [apply list_elem_of_here|]. apply lookup_lt_Some in Hc as Hlt. rewrite length_insert in Hlt.
    rewrite list_lookup_insert_eq in Hc by done. by injection Hc as <-.
  - right. rewrite list_lookup_insert_ne in Hc by done. split; [|done]. by apply not_elem_of_cons.
Qed.

Lemma forest_empty croute tx : forest croute tx (replicate 16 TEmpty).
Proof using.
  split; [apply length_replicate|]. intros i c [-> _]%lookup_replicate. split; constructor.
Qed.

(** The leaves of the built children. *)
Lemma built_leaves d leaves (slots : list nat) cs' p :
  (forall s, s ∈ slots <-> exists x, x ∈ leaves /\ nibble (lf_path x) d = s) ->
  (forall s, s ∈ slots -> (s < 16)%nat) -> length cs' = 16%nat ->
  (forall i c, cs' !! i = Some c ->
    (i ∈ slots /\ (forall l, has c l <-> l ∈ at_slot (slot_of d) i leaves)) \/
    (i ∉ slots /\ replicate 16 TEmpty !! i = Some c)) ->
  forall l, has (TBranch p cs') l <-> l ∈ leaves.
Proof using.
  intros Hslots Hlt H16 Hall l. split.
  - intros (i & c & Hi & Hl)%has_branch_inv. destruct (Hall i c Hi) as [[_ Hc]|[_ [-> _]%lookup_replicate]].
    + by apply Hc, list_elem_of_filter in Hl as [_ ?].
    + by apply has_empty in Hl.
  - intros Hl. assert (nibble (lf_path l) d ∈ slots) as Hs by (apply Hslots; eauto).
    destruct (lookup_lt_is_Some_2 cs' (nibble (lf_path l) d)) as [c Hc]; [rewrite H16; auto|].
    destruct (Hall _ _ Hc) as [[_ Hh]|[Hn _]]; [|done]. eapply has_branch; [exact Hc|]. apply Hh.
    by apply list_elem_of_filter.
Qed.

(** Two leaves in different slots make two occupied children. *)
Lemma leaves_occupied route p cs a b : length cs = 16%nat ->
  (forall i c, cs !! i = Some c -> canon (route ++ p ++ [i]) c) ->
  has (TBranch p cs) a -> has (TBranch p cs) b ->
  nibbles (lf_path a) !! (length route + length p) <> nibbles (lf_path b) !! (length route + length p) ->
  two_occupied cs.
Proof using.
  intros H16 Hc (i & ci & Hi & Ha)%has_branch_inv (j & cj & Hj & Hb)%has_branch_inv Hab.
  assert (forall k c l, cs !! k = Some c -> has c l -> nibbles (lf_path l) !! (length route + length p) = Some k) as Hn.
  { intros k c l Hk Hl. destruct (wf_has _ _ _ _ (Hc _ _ Hk) Hl) as [_ _ Hr].
    eapply prefix_lookup_some; [exact Hr|]. rewrite app_assoc, <- length_app.
    by rewrite lookup_app_r, Nat.sub_diag by done. }
  exists i, j, ci, cj. split_and!; [|done| |done|].
  - intros ->. by rewrite (Hn _ _ _ Hi Ha), (Hn _ _ _ Hj Hb) in Hab.
  - intros ->. by apply has_empty in Ha.
  - intros ->. by apply has_empty in Hb.
Qed.

Lemma build_ok fuel leaves route tx :
  by_path lf_path leaves -> Forall (leaf_ok N route) leaves ->
  (length route <= 2 * N)%nat -> (2 * N < fuel + length route)%nat -> leaves_below L route (fun l => l ∈ leaves) ->
  wp (edited_to route (fun t => forall l, has t l <-> l ∈ leaves)) (build N table domain fuel leaves route) tx.
Proof using HL HN Htable WL.
  revert leaves route tx. induction fuel as [|fuel IH]; intros leaves route tx Hsort Hok Hr Hf HL'; [lia|].
  destruct leaves as [|first [|second rest]] eqn:El; cbn [build].
  { apply wp_ret. exists TEmpty. split_and!; [by split; [|constructor]|constructor|]. intros l.
    split; [by intros ?%has_empty|by intros ?%not_elem_of_nil]. }
  { apply wp_ret. exists (TLeaf first). apply Forall_cons in Hok as [Hok _].
    split_and!; [by split; [|constructor]|by constructor|]. intros l. rewrite list_elem_of_singleton.
    split; [by intros ?%has_leaf_inv|intros ->; constructor]. }
  rewrite <- El in *. set (final := default first (last (second :: rest))).
  assert (Hhead : head leaves = Some first) by (by rewrite El).
  assert (Hlast : last leaves = Some final).
  { rewrite El. change (last (first :: second :: rest)) with (last (second :: rest)). unfold final.
    destruct (last (second :: rest)) eqn:E; [done|]. by apply last_None in E. }
  pose proof Hok as Hok'. rewrite Forall_forall in Hok.
  assert (Hin1 : first ∈ leaves) by (rewrite El; apply list_elem_of_here).
  assert (Hin2 : final ∈ leaves) by (by apply last_Some_elem_of).
  destruct (Hok _ Hin1) as [Hp1 _ Hr1]. destruct (Hok _ Hin2) as [Hp2 _ Hr2].
  assert (Hne : klt (lf_path first) (lf_path final)).
  { rewrite last_lookup in Hlast. eapply (by_path_lookup lf_path leaves 0 (pred (length leaves)));
      [done|by rewrite El|done|rewrite El; cbn; lia]. }
  destruct (first_difference_ok (nibbles (lf_path first)) (nibbles (lf_path final)) (length route) (N * 2))
    as (d & x & y & Ed & Hd & Hx & Hy & Hxy & Htake).
  { rewrite length_nibbles. lia. } { rewrite length_nibbles. lia. }
  { intros E%nibbles_inj. rewrite E in Hne. by apply klt_irrefl in Hne. }
  { apply prefix_take in Hr1, Hr2. congruence. }
  destruct (leaf_below N route first d x) as (Hroute & Hlen & _); [by apply Hok|lia|done|].
  set (croute := take d (nibbles (lf_path first))) in *.
  assert (Hshare : Forall (fun l => take d (nibbles (lf_path l)) = croute) leaves).
  { apply (by_path_share lf_path N d leaves first final); try done.
    eapply Forall_impl; [exact Hok'|]. by intros l [? _ _]. }
  destruct (chunk_by_slots (slot_of d) leaves) as (slots & Hsl & Hslots & Hch).
  { apply (by_path_slots lf_path d croute); [done|]. rewrite Forall_forall in Hshare |- *. intros l Hl.
    split; [by apply Hshare|]. rewrite length_nibbles. destruct (Hok l Hl). lia. }
  apply wp_bind. eapply wp_lift; [by rewrite Ed|]. intros _. apply wp_bind. fold croute.
  unfold same_slot. rewrite Hch. change no_children with (ref <$> replicate 16 TEmpty).
  assert (Hslot : forall l s, l ∈ at_slot (slot_of d) s leaves -> leaf_ok N (croute ++ [s]) l).
  { intros l s [<- Hl]%list_elem_of_filter. destruct (Hok l Hl) as [Hlp Hlh Hlr]. split; [done..|].
    rewrite Forall_forall in Hshare. rewrite <- (Hshare l Hl). rewrite <- take_S_r.
    - apply prefix_take. rewrite length_take_le; [done|]. rewrite length_nibbles. lia.
    - apply nibbles_lookup. lia. }
  assert (HLs : forall s, leaves_below L (croute ++ [s]) (fun l => l ∈ at_slot (slot_of d) s leaves)).
  { intros s l Hl. rewrite (HL' l) by (rewrite <- Hroute, <- app_assoc in Hl; by eapply prefix_app_inv).
    unfold at_slot. rewrite list_elem_of_filter. split; [|by intros [_ ?]]. intros Hin. split; [|done].
    apply nibbles_nibble. rewrite <- Hlen. eapply prefix_lookup_some; [exact Hl|]. by rewrite lookup_app_r, Nat.sub_diag by done. }
  assert (Hparts : forall s, parted L (croute ++ [s])).
  { intros s. assert (forall l i, l ∈ leaves -> nibbles (lf_path l) !! d = Some i -> i <> s -> parted L (croute ++ [s])) as Hby.
    { intros l i Hl Hi Hne'. apply (parted_by _ _ _ l i); [|..|done].
      - destruct (Hok l Hl) as [_ _ Hlr]. by apply (HL' l Hlr).
      - rewrite Forall_forall in Hshare. rewrite <- (Hshare l Hl). apply prefix_take. rewrite length_take_le; [done|]. apply lookup_lt_Some in Hi. lia.
      - by rewrite Hlen. }
    destruct (decide (x = s)) as [->|Hxs]; [by apply (Hby final y)|by apply (Hby first x)]. }
  eapply wp_mono; [apply build_groups_ok|].
  { intros s tx' Hs. apply IH; [..|apply HLs].
    - by apply by_path_filter.
    - apply Forall_forall. intros l Hl. by apply Hslot.
    - rewrite length_app. cbn [length]. lia.
    - rewrite length_app. cbn [length]. lia. }
  { done. }
  { clear -Hsl. induction Hsl as [|s slots _ IH Hs]; constructor; [|done]. intros Hin.
    rewrite Forall_forall in Hs. specialize (Hs _ Hin). lia. }
  { intros s. apply Hslots. } { apply forest_empty. }
  intros rs tx1 He (cs' & -> & [H16 Hcs'] & Hall) _. apply wp_ret.
  set (p := drop (length route) croute) in *.
  assert (Hhas : forall l, has (TBranch p cs') l <-> l ∈ leaves).
  { eapply built_leaves; [exact Hslots| |done..]. intros s (l & _ & <-)%Hslots. apply nibble_lt. }
  assert (Hcanon : forall i c, cs' !! i = Some c -> canon (route ++ p ++ [i]) c).
  { intros i c Hi. rewrite app_assoc, Hroute. by apply Hcs'. }
  assert (Hdepth : (length route + length p)%nat = d) by (rewrite <- length_app, Hroute; done).
  exists (TBranch p cs'). split_and!; [|constructor|done].
  - exists cs'. split_and!; [done..|]. apply Forall_lookup. intros i c Hi. by destruct (Hcs' i c Hi).
  - apply take_nibbles_lt.
  - lia.
  - done.
  - apply (leaves_occupied route p cs' first final); [done|done|by apply Hhas..|]. rewrite Hdepth. congruence.
  - done.
Qed.

(** ** Edits of a subtrie *)

Definition edit_ok1 (route : list nat) (e : Edit) : Prop :=
  length (fst e) = N /\ route `prefix_of` nibbles (fst e) /\ (forall h, snd e = Some h -> length h = 32%nat).

(** A sorted batch whose paths follow [route]. *)
Definition edits_ok (route : list nat) (edits : list Edit) : Prop :=
  by_path fst edits /\ Forall (edit_ok1 route) edits.

(** The leaves after a batch. *)
Definition after_batch (t : tree) (edits : list Edit) (l : LeafRef) : Prop :=
  (lf_path l, Some (lf_hash l)) ∈ edits \/ (lf_path l ∉ edits.*1 /\ has t l).
Definition edited (t : tree) (edits : list Edit) (t' : tree) : Prop := forall l, has t' l <-> after_batch t edits l.

Definition old_tree (old : option LeafRef) : tree := match old with Some l => TLeaf l | None => TEmpty end.

(** The leaves a batch sets. *)
Abbreviation set_leaves := (omap (fun '(path, h) => (fun h => {| lf_path := path; lf_hash := h |}) <$> h : option LeafRef)).

Lemma elem_of_set_leaves (edits : list Edit) l : l ∈ set_leaves edits <-> (lf_path l, Some (lf_hash l)) ∈ edits.
Proof using.
  rewrite list_elem_of_omap. split.
  - intros ([p [h|]] & Hin & E); [|done]. cbn in E. injection E as <-. done.
  - intros Hin. eexists. split; [done|]. by destruct l.
Qed.

Lemma set_leaves_sorted (edits : list Edit) : by_path fst edits -> by_path lf_path (set_leaves edits).
Proof using.
  unfold by_path. induction edits as [|[p [h|]] edits IH]; [done|..]; cbn; intros [Hs Hp]%StronglySorted_inv; [|auto].
  constructor; [by apply IH|]. apply Forall_fmap, Forall_forall. intros l Hl%elem_of_set_leaves. cbn.
  rewrite Forall_fmap, Forall_forall in Hp. by apply (Hp _ Hl).
Qed.

(** The leaves of [rebuild] with the old leaf sorted in. *)
Lemma merged_leaves leaves (old : LeafRef) :
  by_path lf_path leaves -> lf_path old ∉ lf_path <$> leaves ->
  let merged := (fun '(p, h) => {| lf_path := p; lf_hash := h |}) <$>
    sort_rows ((fun l => (lf_path l, lf_hash l)) <$> (leaves ++ [old])) in
  by_path lf_path merged /\ forall l, l ∈ merged <-> l ∈ leaves \/ l = old.
Proof using.
  intros Hs Hold merged. set (rows0 := (fun l => (lf_path l, lf_hash l)) <$> (leaves ++ [old])) in *.
  assert (Hk : rows0.*1 = (lf_path <$> leaves) ++ [lf_path old]).
  { unfold rows0. rewrite <- list_fmap_compose. rewrite fmap_app. done. }
  split.
  - unfold by_path, merged. rewrite <- list_fmap_compose.
    rewrite (list_fmap_ext _ fst) by (by intros i [p h]). apply sort_rows_strict. rewrite Hk.
    apply NoDup_app. split_and!; [by apply StronglySorted_klt_NoDup| |apply NoDup_singleton].
    intros x Hx ->%list_elem_of_singleton. done.
  - intros l. unfold merged. rewrite list_elem_of_fmap. setoid_rewrite (sort_rows_perm rows0). split.
    + intros ([p h] & -> & Hin). unfold rows0 in Hin. apply list_elem_of_fmap in Hin as (l & [= -> ->] & Hin).
      apply elem_of_app in Hin as [Hin| ->%list_elem_of_singleton]; [left|right; by destruct old]. by destruct l.
    + intros Hl. exists (lf_path l, lf_hash l). split; [by destruct l|]. apply list_elem_of_fmap.
      exists l. split; [done|]. apply elem_of_app. rewrite list_elem_of_singleton. done.
Qed.

Lemma rebuild_ok fuel old edits route tx :
  edits_ok route edits -> (forall l, old = Some l -> leaf_ok N route l) ->
  (length route <= 2 * N)%nat -> (2 * N < fuel + length route)%nat ->
  leaves_below L route (after_batch (old_tree old) edits) ->
  wp (edited_to route (edited (old_tree old) edits)) (rebuild N table domain fuel old edits route) tx.
Proof using HL HN Htable WL.
  intros [Hs Hok] Hold Hr Hf HL'. unfold rebuild. rewrite Forall_forall in Hok.
  assert (Hset : forall l, l ∈ set_leaves edits -> leaf_ok N route l).
  { intros l Hl%elem_of_set_leaves. destruct (Hok _ Hl) as (Hp & Hrt & Hh). split; [done|by apply Hh|done]. }
  match goal with |- context [build _ _ _ _ ?ls] => set (leaves := ls) end.
  assert (Hlv : by_path lf_path leaves /\ forall l, l ∈ leaves <->
    (lf_path l, Some (lf_hash l)) ∈ edits \/ (lf_path l ∉ edits.*1 /\ old = Some l)).
  { unfold leaves. destruct old as [old|].
    - destruct (forallb _ edits) eqn:Ef.
      + rewrite forallb_forall in Ef. assert (Hno : lf_path old ∉ edits.*1).
        { intros ([p h] & Ep & Hin)%list_elem_of_fmap. apply list_elem_of_In, Ef in Hin. cbn in Ep.
          rewrite bool_decide_true in Hin by done. done. }
        destruct (merged_leaves (set_leaves edits) old) as [Hms Hml].
        { by apply set_leaves_sorted. }
        { intros (l & El & Hl%elem_of_set_leaves)%list_elem_of_fmap. apply Hno. rewrite El.
          apply list_elem_of_fmap. exists (lf_path l, Some (lf_hash l)). done. }
        split; [done|]. intros l. rewrite Hml, elem_of_set_leaves. split; intros [?|E]; auto.
        * subst. right. done.
        * right. destruct E as [_ [= ->]]. done.
      + split; [by apply set_leaves_sorted|]. intros l. rewrite elem_of_set_leaves. split; [auto|].
        intros [?|[Hn [= ->]]]; [done|]. exfalso. rewrite <- not_true_iff_false, forallb_forall in Ef. apply Ef.
        intros [p h] Hin. apply negb_true_iff, bool_decide_eq_false_2. intros ->. apply Hn.
        apply list_elem_of_fmap. eexists. split; [|by apply list_elem_of_In]. done.
    - split; [by apply set_leaves_sorted|]. intros l. rewrite elem_of_set_leaves. naive_solver. }
  clearbody leaves. destruct Hlv as [Hls Hlv].
  assert (Hafter : forall l, l ∈ leaves <-> after_batch (old_tree old) edits l).
  { intros l. rewrite Hlv. unfold after_batch. assert (old = Some l <-> has (old_tree old) l) as ->; [|done].
    destruct old as [old|]; cbn [old_tree]; split.
    - intros [= ->]. constructor.
    - by intros ->%has_leaf_inv.
    - done.
    - by intros ?%has_empty. }
  eapply wp_mono; [apply build_ok; try done|].
  { apply Forall_forall. intros l [Hl|[_ Hl]]%Hlv; [by apply Hset, elem_of_set_leaves|by apply Hold]. }
  { eapply leaves_below_ext; [|exact HL']. intros l. by rewrite Hafter. }
  intros e tx' _ (t & He & Hwf & Hhas). exists t. split_and!; [done..|]. intros l. by rewrite Hhas.
Qed.

(** ** Children of an edited branch *)

(** An array of edited children below [croute] and the trees they stand for. *)
Definition eforest (croute : list nat) (tx : T) (es : list Edited) (cs : list tree) : Prop :=
  length cs = 16%nat /\ Forall2 (erep (rows tx)) es cs /\ forall i c, cs !! i = Some c -> canon (croute ++ [i]) c.

Lemma eforest_mono croute tx tx' es cs : ext tx tx' -> eforest croute tx es cs -> eforest croute tx' es cs.
Proof using.
  intros [He _] (H16 & Hes & Hcs). split_and!; [done| |done]. eapply Forall2_impl; [exact Hes|].
  intros e c. by apply erep_mono.
Qed.

Lemma erep_empty R t : erep R (Stored REmpty) t -> t = TEmpty.
Proof using. cbn. intros [E _]. by apply (ref_of_empty domain). Qed.

Lemma erep_nonempty R e : e <> Stored REmpty -> ~ erep R e TEmpty.
Proof using. destruct e as [r|p rs]; cbn; [by intros Hne [-> _]|]. by intros _ (cs & ? & _). Qed.

Lemma store_each_ok slot croute es cs tx :
  Forall2 (erep (rows tx)) es cs -> (forall i c, cs !! i = Some c -> canon (croute ++ [(slot + i)%nat]) c) ->
  (forall i c, cs !! i = Some c -> leaves_below L (croute ++ [(slot + i)%nat]) (has c) /\ parted L (croute ++ [(slot + i)%nat])) ->
  wp (fun rs tx' => rs = ref <$> cs /\ Forall (stored domain (rows tx')) cs)
    (store_each N table domain slot es croute) tx.
Proof using HL HN Htable WL.
  intros Hes. revert slot tx Hes. revert cs. induction es as [|e es IH]; intros cs slot tx Hes Hcs HL'.
  { apply Forall2_nil_inv_l in Hes as ->. by apply wp_ret. }
  apply Forall2_cons_inv_l in Hes as (c & cs' & He & Hes & ->). cbn [store_each].
  apply wp_bind. eapply wp_mono; [apply (store_edited_ok _ e c); [done|..]|].
  { specialize (Hcs 0%nat c eq_refl). by rewrite Nat.add_0_r in Hcs. }
  { specialize (HL' 0%nat c eq_refl). rewrite Nat.add_0_r in HL'. apply HL'. }
  { specialize (HL' 0%nat c eq_refl). rewrite Nat.add_0_r in HL'. apply HL'. }
  intros r tx1 [He1 _] [-> Hs] _. apply wp_bind. eapply wp_mono; [apply (IH cs')|].
  { eapply Forall2_impl; [exact Hes|]. intros x y. by apply erep_mono. }
  { intros i d Hi. specialize (Hcs (S i) d Hi). by rewrite Nat.add_succ_r in Hcs. }
  { intros i d Hi. specialize (HL' (S i) d Hi). by rewrite Nat.add_succ_r in HL'. }
  intros rs tx2 [He2 _] [-> Hss] _. apply wp_ret. split; [done|]. constructor; [by eapply stored_mono|done].
Qed.

(** The leaves of one child of a canonical branch, which leave the branch's
    others off its route. *)
Lemma children_below route p cs i c : canon route (TBranch p cs) -> leaves_below L (route ++ p) (in_children cs) -> cs !! i = Some c ->
  leaves_below L ((route ++ p) ++ [i]) (has c) /\ parted L ((route ++ p) ++ [i]).
Proof using.
  intros Hwf HL' Hi. split.
  - intros l Hl. rewrite (HL' l (prefix_app_inv _ _ _ Hl)), <- (gathered_branch p cs l).
    apply (has_branch_slot N route p cs l i c Hwf); [|done]. rewrite <- length_app.
    eapply prefix_lookup_some; [exact Hl|]. by rewrite lookup_app_r, Nat.sub_diag by done.
  - destruct (off_slot N route p cs i Hwf) as (l & j & d & Hne & Hd & Hl & Hr & Hj).
    apply (parted_by _ _ _ l j); [|done..]. apply (HL' l Hr). by exists j, d.
Qed.

Lemma collapse_ok route p es cs tx :
  Forall (fun n => n < 16)%nat p -> (length route + length p < 2 * N)%nat ->
  eforest (route ++ p) tx es cs -> leaves_below L (route ++ p) (in_children cs) ->
  wp (edited_to route (gathered cs)) (collapse N table domain p es (route ++ p)) tx.
Proof using HL HN Htable WL.
  intros Hp Hlen (H16 & Hes & Hcs) HL'. unfold collapse. rewrite Forall2_lookup in Hes.
  assert (Hall : forall i c, cs !! i = Some c -> exists e, es !! i = Some e /\ erep (rows tx) e c).
  { intros i c Hi. specialize (Hes i). rewrite Hi in Hes. inversion Hes; subst. eauto. }
  destruct (occupied_cases (Stored REmpty) es) as [[-> Hnone]|[(i & e & -> & Hi & He & Hj)|Htwo]].
  - apply wp_ret. exists TEmpty. split_and!; [by split; [|constructor]|constructor|]. intros l.
    split; [by intros ?%has_empty|]. intros (i & c & Hi & Hl). destruct (Hall i c Hi) as (e & Hei & Hec).
    rewrite (Hnone i e Hei) in Hec. apply erep_empty in Hec as ->. by apply has_empty in Hl.
  - specialize (Hes i) as Hei. rewrite Hi in Hei. inversion Hei as [? c Hec Ee Ec|]; subst. symmetry in Ec.
    specialize (Hcs i c Ec) as Hwf. rewrite <- app_assoc in Hwf.
    assert (Hi16 : (i < 16)%nat) by (apply lookup_lt_Some in Ec; lia).
    assert (Hg : gathered cs c).
    { eapply gathered_only; [done|]. intros j d Hd Hne. destruct (Hall j d Hd) as (e' & He' & Hed).
      rewrite (Hj j e' He' Hne) in Hed. by apply erep_empty in Hed. }
    assert (Hraise : forall q ds, c = TBranch q ds -> canon route (TBranch (p ++ [i] ++ q) ds) /\
      gathered cs (TBranch (p ++ [i] ++ q) ds)).
    { intros q ds ->. split; [by apply raise_branch|]. intros l. rewrite <- (Hg l). apply has_prefix_irrel. }
    destruct e as [[|leaf|h]|q rs].
    + done.
    + apply wp_ret. destruct Hec as [Er Hs]. destruct c; try done. injection Er as <-.
      exists (TLeaf leaf). split_and!; [by split|by eapply wf_weaken|done].
    + destruct Hec as [Er Hs]. destruct c as [| |q ds]; try done. injection Er as ->.
      apply wp_bind. eapply wp_reading; [apply (load_ok N table domain HN Htable _ q ds); [|done]|].
      { by rewrite <- app_assoc. }
      intros _. pose proof (wf_shape N domain _ _ _ Hwf) as Hsh.
      rewrite (unpack_prefix_of Hsh), (node_children_of Hsh). apply wp_ret.
      destruct (Hraise q ds eq_refl) as [Hw Hgg]. exists (TBranch (p ++ [i] ++ q) ds). split_and!; [|done..].
      exists ds. split_and!; [done..|]. apply Forall_lookup. by eapply stored_branch_inv.
    + apply wp_ret. destruct Hec as (ds & -> & -> & Hds). destruct (Hraise q ds eq_refl) as [Hw Hgg].
      exists (TBranch (p ++ [i] ++ q) ds). split_and!; [|done..]. by exists ds.
  - destruct Htwo as (a & b & rest & i & j & x & y & -> & Hij & Hi & Hx & Hj & Hy).
    assert (Hwf : canon route (TBranch p cs)).
    { constructor; [done..| |].
      - specialize (Hes i) as Hei. specialize (Hes j) as Hej. rewrite Hi in Hei. rewrite Hj in Hej.
        inversion Hei as [? ci Hci Ee Eci|]; inversion Hej as [? cj Hcj Ee' Ecj|]; subst.
        exists i, j, ci, cj. split_and!; try done; intros ->;
          [exact (erep_nonempty _ _ Hx Hci)|exact (erep_nonempty _ _ Hy Hcj)].
      - intros k c Hk. rewrite app_assoc. by apply Hcs. }
    assert (Hst : wp (fun rs tx' => rs = ref <$> cs /\ Forall (stored domain (rows tx')) cs)
      (store_each N table domain 0 es (route ++ p)) tx).
    { apply store_each_ok; [by apply Forall2_lookup|done|]. intros k c Hk. by eapply children_below. }
    destruct a as [n [[| |]|]]; (apply wp_bind; eapply wp_mono; [exact Hst|]; intros rs tx' _ [-> Hs] _; apply wp_ret;
      exists (TBranch p cs); split_and!; [by exists cs|done|apply gathered_branch]).
Qed.

Abbreviation eslot d := (fun e : Edit => nibble (fst e) d).

Lemma apply_groups_ok rec croute edits slots es cs tx :
  (forall s e c tx, s ∈ slots -> erep (rows tx) e c -> canon (croute ++ [s]) c ->
    leaves_below L (croute ++ [s]) (after_batch c (at_slot (eslot (length croute)) s edits)) ->
    wp (edited_to (croute ++ [s]) (edited c (at_slot (eslot (length croute)) s edits)))
      (rec e (at_slot (eslot (length croute)) s edits) (croute ++ [s])) tx) ->
  NoDup slots -> (forall s, s ∈ slots -> exists x, x ∈ edits /\ nibble (fst x) (length croute) = s) ->
  eforest croute tx es cs ->
  (forall s c, s ∈ slots -> cs !! s = Some c -> leaves_below L (croute ++ [s]) (after_batch c (at_slot (eslot (length croute)) s edits))) ->
  wp (fun es' tx' => exists cs', eforest croute tx' es' cs' /\
        forall i c c', cs !! i = Some c -> cs' !! i = Some c' ->
          (i ∈ slots /\ edited c (at_slot (eslot (length croute)) i edits) c') \/ (i ∉ slots /\ c' = c))
    (apply_groups rec croute ((fun s => at_slot (eslot (length croute)) s edits) <$> slots) es) tx.
Proof using HL HN Htable WL.
  revert es cs tx. induction slots as [|s slots IH]; intros es cs tx Hrec Hnd Hex Hcs HL'; cbn [fmap list_fmap apply_groups].
  { apply wp_ret. exists cs. split_and!; [done|]. intros i c c' Hi Hi'. right. split; [apply not_elem_of_nil|congruence]. }
  apply NoDup_cons in Hnd as [Hns Hnd]. destruct (Hex s) as (x & Hx & Hs); [apply list_elem_of_here|].
  destruct (at_slot_head (eslot (length croute)) s edits x Hx Hs) as (first & Hfirst & Hslot).
  apply wp_bind. eapply wp_lift; [by rewrite Hfirst|]. intros _. cbn beta in Hslot. rewrite Hslot.
  destruct Hcs as (H16 & Hes & Hcs).
  assert (s < 16)%nat as Hs16 by (rewrite <- Hs; apply nibble_lt).
  destruct (lookup_lt_is_Some_2 cs s) as [c Ec]; [lia|].
  assert (exists e, es !! s = Some e /\ erep (rows tx) e c) as (e & Ee & Hec).
  { rewrite Forall2_lookup in Hes. specialize (Hes s). rewrite Ec in Hes. inversion Hes; subst. eauto. }
  apply wp_bind. eapply wp_lift; [by rewrite Ee|]. intros _.
  apply wp_bind. eapply wp_mono; [apply (Hrec s e c); [apply list_elem_of_here|done|by apply Hcs|apply HL'; [apply list_elem_of_here|done]]|].
  intros e' tx1 He1 (c' & Hec' & Hwf' & Hed) _.
  eapply wp_mono; [apply (IH (<[s := e']> es) (<[s := c']> cs))|].
  { intros s' e0 c0 tx' Hs'. apply Hrec. by apply list_elem_of_further. } { done. }
  { intros s' Hs'. apply Hex. by apply list_elem_of_further. }
  { split_and!; [by rewrite length_insert| |].
    - apply Forall2_insert; [|done]. eapply Forall2_impl; [exact Hes|]. intros a b. apply erep_mono, He1.
    - intros i d Hi. destruct (decide (i = s)) as [->|].
      + rewrite list_lookup_insert_eq in Hi by lia. by injection Hi as <-.
      + rewrite list_lookup_insert_ne in Hi by done. by apply Hcs. }
  { intros s' d Hs' Hd. rewrite list_lookup_insert_ne in Hd by (intros ->; done). apply HL'; [by apply list_elem_of_further|done]. }
  intros es2 tx2 _ (cs2 & Hcs2 & Hall). exists cs2. split; [done|]. intros i d d' Hi Hi'.
  destruct (decide (i = s)) as [->|Hne].
  - left. split; [apply list_elem_of_here|]. destruct (Hall s c' d') as [[? _]|[_ ->]]; [|done|done|].
    + by rewrite list_lookup_insert_eq by lia.
    + by simplify_eq.
  - destruct (Hall i d d') as [[? ?]|[? ->]]; [by rewrite list_lookup_insert_ne|done|left|right].
    + split; [by apply list_elem_of_further|done].
    + split; [by apply not_elem_of_cons|done].
Qed.

(** Editing the children by slot edits the whole branch. *)
Lemma batch_children croute edits (slots : list nat) cs cs' t :
  length cs = 16%nat -> length cs' = 16%nat ->
  (forall i c, cs !! i = Some c -> canon (croute ++ [i]) c) ->
  (forall s, s ∈ slots <-> exists x, x ∈ edits /\ nibble (fst x) (length croute) = s) ->
  (forall i c c', cs !! i = Some c -> cs' !! i = Some c' ->
    (i ∈ slots /\ edited c (at_slot (eslot (length croute)) i edits) c') \/ (i ∉ slots /\ c' = c)) ->
  gathered cs t -> forall l, in_children cs' l <-> after_batch t edits l.
Proof using.
  clear HN L. intros L1 L2 Hc Hslots Hall Hg l. unfold after_batch. rewrite (Hg l). unfold in_children.
  assert (Hn : forall i c, cs !! i = Some c -> has c l -> nibble (lf_path l) (length croute) = i).
  { intros i c Hi Hl. destruct (wf_has _ _ _ _ (Hc _ _ Hi) Hl) as [_ _ Hr]. apply nibbles_nibble.
    eapply prefix_lookup_some; [exact Hr|]. by rewrite lookup_app_r, Nat.sub_diag by done. }
  assert (Hkey : forall i c, cs !! i = Some c -> has c l -> lf_path l ∈ edits.*1 ->
    i ∈ slots /\ lf_path l ∈ (at_slot (eslot (length croute)) i edits).*1).
  { intros i c Hi Hl (x & Ex & Hx)%list_elem_of_fmap. specialize (Hn i c Hi Hl). rewrite Ex in Hn.
    split; [apply Hslots; eauto|]. apply list_elem_of_fmap. exists x. split; [done|]. by apply list_elem_of_filter. }
  split.
  - intros (i & c' & Hi' & Hl). apply lookup_lt_Some in Hi' as Hlt.
    destruct (lookup_lt_is_Some_2 cs i) as [c Hi]; [lia|]. destruct (Hall i c c' Hi Hi') as [[Hs He]|[Hs ->]].
    + apply He in Hl as [[_ Hin]%list_elem_of_filter|[Hno Hl]]; [by left|right].
      split; [|eauto]. intros Hin. by apply Hno, (Hkey i c).
    + right. split; [|eauto]. intros Hin. by apply Hs, (Hkey i c).
  - intros [Hin|[Hno (i & c & Hi & Hl)]].
    + set (s := nibble (lf_path l) (length croute)). assert (s < 16)%nat by apply nibble_lt.
      destruct (lookup_lt_is_Some_2 cs s) as [c Hi]; [lia|]. destruct (lookup_lt_is_Some_2 cs' s) as [c' Hi']; [lia|].
      exists s, c'. split; [done|]. destruct (Hall s c c' Hi Hi') as [[_ He]|[Hs _]].
      * apply He. left. by apply list_elem_of_filter.
      * destruct Hs. apply Hslots. by eexists.
    + apply lookup_lt_Some in Hi as Hlt. destruct (lookup_lt_is_Some_2 cs' i) as [c' Hi']; [lia|].
      exists i, c'. split; [done|]. destruct (Hall i c c' Hi Hi') as [[_ He]|[_ ->]]; [|done].
      apply He. right. split; [|done]. intros (x & Ex & [_ Hx]%list_elem_of_filter)%list_elem_of_fmap.
      apply Hno, list_elem_of_fmap. eauto.
Qed.

(** ** The branch case of a batch *)

Lemma following_ok route q edits : edits_ok route edits -> (length route + length q <= 2 * N)%nat ->
  following edits q (length route) = filter (fun e => route ++ q `prefix_of` nibbles (fst e)) edits.
Proof using.
  clear HN L. intros [Hs Hok] Hlen. rewrite Forall_forall in Hok.
  set (follows := fun e : Edit => (matched q (fst e) (length route) =? length q)%nat).
  assert (Hf : forall e, e ∈ edits -> follows e = true <-> route ++ q `prefix_of` nibbles (fst e)).
  { intros e He. destruct (Hok e He) as (Hp & Hr & _). unfold follows. rewrite Nat.eqb_eq. apply matched_prefix; [done|lia]. }
  transitivity (filter (fun e => follows e = true) edits).
  - rewrite <- convex_slice.
    + unfold following. cbv zeta.
      assert (forall p p' : Edit -> bool, (forall e, p e = p' e) ->
        position p edits = position p' edits /\ rposition p edits = rposition p' edits) as Hpos.
      { intros p p' E. unfold position, rposition. split; f_equal; apply list_filter_iff; intros k;
          (destruct (edits !! k); [cbn; by rewrite E|done]). }
      edestruct (Hpos (fun '(path, _) => (matched q path (length route) =? length q)%nat) follows) as [-> ->];
        [by intros []|done].
    + intros i j k x y z Hx Hy Hz Hijk Fx Fz.
      assert (Ix : x ∈ edits) by (by eapply list_elem_of_lookup_2). assert (Iy : y ∈ edits) by (by eapply list_elem_of_lookup_2).
      assert (Iz : z ∈ edits) by (by eapply list_elem_of_lookup_2).
      apply Hf in Fx, Fz; [|done..]. apply Hf; [done|]. apply prefix_take in Fx, Fz. apply prefix_take.
      rewrite (nibbles_convex (fst x) (fst y) (fst z)); [done|..].
      * destruct (Hok x Ix) as [-> _]. by destruct (Hok y Iy) as [-> _].
      * destruct (Hok y Iy) as [-> _]. by destruct (Hok z Iz) as [-> _].
      * eapply by_path_lookup; [exact Hs|done|done|lia].
      * eapply by_path_lookup; [exact Hs|done|done|lia].
      * congruence.
  - clear -Hf. induction edits as [|e edits IH]; [done|]. rewrite !filter_cons.
    rewrite IH by (intros e' He'; apply Hf; by apply list_elem_of_further).
    specialize (Hf e (list_elem_of_here _ _)). repeat case_decide; tauto.
Qed.

(** Below one child's route the edits are those of its slot. *)
Lemma slot_batch croute edits cs t s c l : (forall i c, cs !! i = Some c -> canon (croute ++ [i]) c) -> gathered cs t -> cs !! s = Some c ->
  croute ++ [s] `prefix_of` nibbles (lf_path l) ->
  after_batch t edits l <-> after_batch c (at_slot (eslot (length croute)) s edits) l.
Proof using.
  clear HN L. intros Hc Hg Hs Hl.
  assert (nibble (lf_path l) (length croute) = s) as Hn.
  { apply nibbles_nibble. eapply prefix_lookup_some; [exact Hl|]. by rewrite lookup_app_r, Nat.sub_diag by done. }
  unfold after_batch, at_slot. assert (has t l <-> has c l) as ->.
  { rewrite (Hg l). split; [|intros; by exists s, c]. intros (i & d & Hi & Hd). destruct (wf_has _ _ _ _ (Hc _ _ Hi) Hd) as [_ _ Hr].
    assert (i = s) as ->; [|congruence]. rewrite <- Hn. symmetry. apply nibbles_nibble. eapply prefix_lookup_some; [exact Hr|].
    by rewrite lookup_app_r, Nat.sub_diag by done. }
  rewrite list_elem_of_filter. cbn [fst].
  assert (lf_path l ∈ (filter (fun e : Edit => nibble (fst e) (length croute) = s) edits).*1 <-> lf_path l ∈ edits.*1) as ->; [|tauto].
  rewrite !list_elem_of_fmap. split; intros (x & Ex & Hx); exists x; (split; [done|]).
  - by apply list_elem_of_filter in Hx as [_ ?].
  - apply list_elem_of_filter. split; [|done]. by rewrite <- Ex.
Qed.

(** Edits off the prefix, which are removals, change nothing. *)
Lemma batch_following croute t edits :
  (forall l, has t l -> croute `prefix_of` nibbles (lf_path l)) ->
  (forall path h, (path, Some h) ∈ edits -> croute `prefix_of` nibbles path) ->
  forall l, after_batch t (filter (fun e => croute `prefix_of` nibbles (fst e)) edits) l <-> after_batch t edits l.
Proof using.
  clear HN L. intros Ht Hset l. unfold after_batch. rewrite list_elem_of_filter. cbn [fst].
  assert ((croute `prefix_of` nibbles (lf_path l) /\ (lf_path l, Some (lf_hash l)) ∈ edits) <->
    (lf_path l, Some (lf_hash l)) ∈ edits) as -> by (split; [by intros [_ ?]|eauto]).
  assert (has t l -> lf_path l ∈ (filter (fun e : Edit => croute `prefix_of` nibbles (fst e)) edits).*1 <->
    lf_path l ∈ edits.*1) as Hk; [|tauto].
  intros Hl. rewrite !list_elem_of_fmap. split; intros (x & Ex & Hx); exists x; (split; [done|]).
  - by apply list_elem_of_filter in Hx as [_ ?].
  - apply list_elem_of_filter. split; [|done]. rewrite <- Ex. by apply Ht.
Qed.

Lemma split_prefix_ok route p cs edits tx :
  canon route (TBranch p cs) -> Forall (stored domain (rows tx)) cs -> edits_ok route edits ->
  let '(kept, es) := split_prefix p (ref <$> cs) edits (length route) in
  (kept <= length p)%nat /\
  (forall path h, (path, Some h) ∈ edits -> route ++ take kept p `prefix_of` nibbles path) /\
  exists cs', eforest (route ++ take kept p) tx es cs' /\ gathered cs' (TBranch p cs) /\ (kept = length p -> cs' = cs).
Proof using.
  clear HN L. intros Hwf Hcs [_ Hok]. rewrite Forall_forall in Hok.
  destruct (wf_branch_inv _ _ _ _ Hwf) as (Hp & Hlen & H16 & _ & Hc). unfold split_prefix.
  set (lens := omap _ edits). set (kept := match lens with [] => length p | n :: ns => foldl Nat.min n ns end).
  assert (Hkept : (kept <= length p)%nat /\
    forall path h, (path, Some h) ∈ edits -> route ++ take kept p `prefix_of` nibbles path).
  { assert (Hin : forall n, n ∈ lens -> (kept <= n)%nat).
    { intros n Hn. unfold kept. destruct lens as [|n0 ns]; [by apply not_elem_of_nil in Hn|].
      destruct (foldl_min n0 ns) as [H1 H2]. rewrite Forall_forall in H2. apply elem_of_cons in Hn as [->|Hn]; auto. }
    assert (Hset : forall path h, (path, Some h) ∈ edits ->
      (kept <= length p)%nat /\ route ++ take kept p `prefix_of` nibbles path).
    { intros path h He. destruct (Hok _ He) as (Hl & Hr & _). cbn [fst] in *.
      apply matched_take; [done|lia|]. apply Hin. apply list_elem_of_omap. by exists (path, Some h). }
    split; [|intros path h He; by eapply Hset]. destruct lens as [|n0 ns] eqn:El; [done|].
    assert (n0 ∈ lens) as Hn0 by (rewrite El; apply list_elem_of_here).
    unfold lens in Hn0. apply list_elem_of_omap in Hn0 as ([path [h|]] & He & [= _]). by eapply Hset. }
  clearbody kept. destruct Hkept as [Hle Hset]. destruct (Nat.eqb_spec kept (length p)) as [->|Hne].
  - split_and!; [done..|]. rewrite firstn_all. exists cs. split_and!; [|apply gathered_branch|done].
    split_and!; [done| |].
    + rewrite <- list_fmap_compose. apply Forall2_fmap_l.
      clear -Hcs. induction Hcs as [|c cs Hs _ IH]; constructor; [by split|done].
    + intros i c Hi. rewrite <- app_assoc. by apply Hc.
  - split_and!; [done..|]. destruct (lookup_lt_is_Some_2 p kept) as [x Hx]; [lia|].
    rewrite (nth_lookup_Some _ _ _ _ Hx). pose proof (take_drop_middle _ _ _ Hx) as Hsplit.
    set (low := TBranch (drop (S kept) p) cs).
    assert (x < 16)%nat as Hx16 by (rewrite Forall_lookup in Hp; by eapply Hp).
    exists (<[x := low]> (replicate 16 TEmpty)). split_and!; [split_and!| |done].
    + by rewrite length_insert, length_replicate.
    + apply Forall2_insert; [|by exists cs]. apply Forall2_replicate. by split; [|constructor].
    + intros i c Hi. destruct (decide (i = x)) as [->|].
      * rewrite list_lookup_insert_eq in Hi by (by rewrite length_replicate). injection Hi as <-.
        rewrite <- app_assoc. apply wf_lower. rewrite <- app_assoc. cbn [app]. by rewrite Hsplit.
      * rewrite list_lookup_insert_ne in Hi by done. apply lookup_replicate in Hi as [-> _]. constructor.
    + intros l. split.
      * intros Hl. exists x, low. rewrite list_lookup_insert_eq by (by rewrite length_replicate). split; [done|].
        unfold low. by rewrite (has_prefix_irrel _ p).
      * intros (i & c & Hi & Hl). destruct (decide (i = x)) as [->|].
        -- rewrite list_lookup_insert_eq in Hi by (by rewrite length_replicate). injection Hi as <-.
           unfold low in Hl. by rewrite (has_prefix_irrel _ p) in Hl.
        -- rewrite list_lookup_insert_ne in Hi by done. apply lookup_replicate in Hi as [-> _]. by apply has_empty in Hl.
Qed.

(** The edits of one slot follow the child's route. *)
Lemma slot_edits croute edits s : edits_ok croute edits -> (length croute < 2 * N)%nat ->
  edits_ok (croute ++ [s]) (at_slot (eslot (length croute)) s edits).
Proof using.
  clear HN L. intros [Hs Hok] Hlen. split; [by apply by_path_filter|]. rewrite Forall_forall in Hok |- *.
  intros e [<- He]%list_elem_of_filter. destruct (Hok e He) as (Hl & Hr & Hh). split_and!; [done| |done].
  apply prefix_snoc; [done|]. apply nibbles_lookup. lia.
Qed.

(** No child changed: every edited child is still the stored reference. *)
Lemma unchanged_children croute tx es cs cs' :
  eforest croute tx es cs' -> forest croute tx cs ->
  forallb (fun '(e, c) => bool_decide (e = Stored c)) (zip es (ref <$> cs)) = true -> cs' = cs.
Proof using HL HN.
  intros (H16' & Hes & Hc') [H16 Hc] Hall. rewrite Forall2_lookup in Hes. apply list_eq. intros i.
  destruct (decide (i < 16)%nat) as [Hi|]; [|by rewrite !lookup_ge_None_2 by lia].
  destruct (lookup_lt_is_Some_2 cs i) as [c Ec]; [lia|]. destruct (lookup_lt_is_Some_2 cs' i) as [c' Ec']; [lia|].
  rewrite Ec, Ec'. f_equal. specialize (Hes i). rewrite Ec' in Hes. inversion Hes as [e ? He Ee Ee'|]; subst.
  rewrite forallb_forall in Hall. assert (In (e, ref c) (zip es (ref <$> cs))) as Hin.
  { apply list_elem_of_In, list_elem_of_lookup. exists i. rewrite lookup_zip_with_Some.
    exists e, (ref c). split_and!; [done..|]. by rewrite list_lookup_fmap, Ec. }
  apply Hall, bool_decide_eq_true in Hin as ->. destruct He as [Hr Hs]. destruct (Hc _ _ Ec).
  eapply (ref_inj N domain HN (rows tx)); [by apply Hc'|done..].
Qed.

Lemma apply_branch_ok rec own route p cs edits tx :
  (forall e c edits croute tx, erep (rows tx) e c -> canon croute c -> edits_ok croute edits ->
    (length route < length croute <= 2 * N)%nat -> leaves_below L croute (after_batch c edits) ->
    wp (edited_to croute (edited c edits)) (rec e edits croute) tx) ->
  canon route (TBranch p cs) -> Forall (stored domain (rows tx)) cs ->
  (forall h, own = Some h -> RBranch h = ref (TBranch p cs) /\ stored domain (rows tx) (TBranch p cs)) ->
  edits_ok route edits -> leaves_below L route (after_batch (TBranch p cs) edits) ->
  wp (edited_to route (edited (TBranch p cs) edits))
    (apply_branch N table domain rec own p (ref <$> cs) edits route) tx.
Proof using HL HN Htable WL.
  intros Hrec Hwf Hst Hown Hok HL'. destruct (wf_branch_inv _ _ _ _ Hwf) as (Hp & Hlen & H16 & _ & Hc).
  unfold apply_branch. pose proof (split_prefix_ok route p cs edits tx Hwf Hst Hok) as Hsplit.
  destruct (split_prefix p (ref <$> cs) edits (length route)) as [kept es].
  destruct Hsplit as (Hle & Hset & cs1 & Hes & Hg & Hsame).
  assert (Hlen' : (length route + length (take kept p) < 2 * N)%nat) by (rewrite length_take_le; lia).
  rewrite following_ok by (done || lia). set (croute := route ++ take kept p) in *.
  set (edits' := filter _ edits).
  assert (Hcl : (length route <= length croute < 2 * N)%nat) by (unfold croute; rewrite length_app; lia).
  assert (Hok' : edits_ok croute edits').
  { destruct Hok as [Hs Hall]. split; [by apply by_path_filter|]. rewrite Forall_forall in Hall |- *.
    intros e [Hr He]%list_elem_of_filter. destruct (Hall e He) as (? & _ & ?). done. }
  destruct (chunk_by_slots (eslot (length croute)) edits') as (slots & Hsl & Hslots & Hch).
  { destruct Hok' as [Hs Hall]. apply (by_path_slots fst (length croute) croute); [done|].
    eapply Forall_impl; [exact Hall|]. intros e (Hl & Hr & _). split; [by apply prefix_take|].
    rewrite length_nibbles. lia. }
  unfold same_slot. rewrite Hch. apply wp_bind. pose proof Hes as (L1 & _ & Hc1).
  assert (Hfollow : forall l, after_batch (TBranch p cs) edits' l <-> after_batch (TBranch p cs) edits l).
  { apply (batch_following croute); [|done]. intros l Hl. pose proof (wf_branch_prefix _ _ _ _ _ Hwf Hl) as Hpl. unfold croute.
    rewrite <- (take_drop kept p), app_assoc in Hpl. by eapply prefix_app_inv. }
  assert (HLs : forall s c, s ∈ slots -> cs1 !! s = Some c ->
    leaves_below L (croute ++ [s]) (after_batch c (at_slot (eslot (length croute)) s edits'))).
  { intros s c _ Hs l Hl. assert (croute `prefix_of` nibbles (lf_path l)) as Hcr by (by eapply prefix_app_inv).
    rewrite (HL' l) by (unfold croute in Hcr; by eapply prefix_app_inv). rewrite <- Hfollow. by eapply slot_batch. }
  eapply wp_mono; [apply (apply_groups_ok rec croute edits' slots es cs1)|].
  { intros s e c tx' Hs He Hcs HLc. apply Hrec; [done..| | |done].
    - by apply slot_edits; [|lia].
    - rewrite length_app. cbn [length]. lia. }
  { clear -Hsl. induction Hsl as [|s slots _ IH Hs]; constructor; [|done]. intros Hin.
    rewrite Forall_forall in Hs. specialize (Hs _ Hin). lia. }
  { intros s. apply Hslots. } { done. } { done. }
  intros es' tx1 He1 (cs' & Hes' & Hall) _.
  assert (Hedit : forall l, in_children cs' l <-> after_batch (TBranch p cs) edits l).
  { intros l. rewrite <- Hfollow. eapply batch_children; [done|by destruct Hes'|exact Hc1|exact Hslots|exact Hall|exact Hg]. }
  destruct (negb _ && forallb _ _) eqn:Eun.
  - apply andb_true_iff in Eun as [Ek%negb_true_iff%Nat.ltb_ge Eall].
    assert (kept = length p) as Ek' by lia. specialize (Hsame Ek'). subst cs1.
    assert (cs' = cs) as ->.
    { eapply unchanged_children; [exact Hes'| |exact Eall]. split; [done|]. intros i c Hi. split; [by apply Hc1|].
      rewrite Forall_lookup in Hst. eapply stored_mono, (Hst _ _ Hi). apply He1. }
    apply wp_ret. exists (TBranch p cs). split_and!; [|done|intros l; rewrite <- Hedit; apply gathered_branch].
    destruct own as [h|].
    + destruct (Hown h eq_refl) as [-> Hs]. split; [done|]. eapply stored_mono, Hs. apply He1.
    + rewrite Ek', firstn_all. exists cs. split_and!; [done..|]. eapply Forall_impl; [exact Hst|].
      intros c. apply stored_mono, He1.
  - eapply wp_mono; [apply collapse_ok|]; [by apply Forall_take|done|exact Hes'|..].
    + intros l Hl. rewrite (HL' l (prefix_app_inv _ _ _ Hl)). symmetry. apply Hedit.
    + intros e tx2 _ (t & He & Hw & Hg'). exists t. split_and!; [done..|]. intros l. by rewrite (Hg' l).
Qed.

Lemma apply_at_ok fuel e t edits route tx :
  erep (rows tx) e t -> canon route t -> edits_ok route edits ->
  (length route <= 2 * N)%nat -> (2 * N < fuel + length route)%nat -> leaves_below L route (after_batch t edits) ->
  wp (edited_to route (edited t edits)) (apply_at N table domain fuel e edits route) tx.
Proof using HL HN Htable WL.
  revert e t edits route tx. induction fuel as [|fuel IH]; intros e t edits route tx He Hwf Hok Hr Hf HL'; [lia|].
  assert (Hrec : forall e c edits croute tx, erep (rows tx) e c -> canon croute c -> edits_ok croute edits ->
    (length route < length croute <= 2 * N)%nat -> leaves_below L croute (after_batch c edits) ->
    wp (edited_to croute (edited c edits)) (apply_at N table domain fuel e edits croute) tx).
  { intros e' c edits' croute tx' ? ? ? ? ?. apply IH; try done; lia. }
  cbn [apply_at]. destruct e as [[|leaf|h]|p rs].
  - apply erep_empty in He as ->. apply (rebuild_ok _ None); done.
  - destruct He as [Er Hs]. destruct t; try done. injection Er as <-.
    apply (rebuild_ok _ (Some leaf)); try done. intros l [= <-]. by inversion Hwf.
  - destruct He as [Er Hs]. destruct t as [| |p cs]; try done. injection Er as ->.
    apply wp_bind. eapply wp_reading; [by apply (load_ok N table domain HN Htable)|]. intros _.
    pose proof (wf_shape N domain _ _ _ Hwf) as Hsh. rewrite (unpack_prefix_of Hsh), (node_children_of Hsh).
    apply apply_branch_ok; try done.
    + apply Forall_lookup. by eapply stored_branch_inv.
    + by intros h [= <-].
  - destruct He as (cs & -> & -> & Hcs). by apply apply_branch_ok.
Qed.
End Batch.
