(* ===== verification/MerkleSpec.v ===== *)
(** What crates/merkle promises: a root reference stands for a finite map from
    paths to leaf hashes.

    [represents tx root m] is the abstraction relation. Reads agree with the
    map, edits and batches refine its updates, equal maps have equal roots
    whatever history produced them, and every operation keeps the roots that
    were readable before it. Clients of the trie use the [represents_*] lemmas. *)
From Stdlib Require Import ZArith Lia.
From S2P Require Import Prelude Ordered Storage MerkleNode MerkleTrie MerkleTree MerkleEdit MerkleBatch.

(** The map after some edits, one after the other. *)
Definition edit_map (m : gmap bytes Hash) (edits : list Edit) : gmap bytes Hash :=
  foldl (fun m '(path, h) => match h with Some h => <[path := h]> m | None => delete path m end) m edits.

Lemma edit_map_lookup m edits path :
  edit_map m edits !! path = match last_write path edits with Some h => h | None => m !! path end.
Proof.
  unfold edit_map. revert m. induction edits as [|[p h] edits IH]; intros m; [done|].
  rewrite last_write_cons. cbn [foldl fst snd]. rewrite IH. destruct (last_write path edits); [done|].
  destruct (decide (p = path)) as [->|Hne], h; by simplify_map_eq.
Qed.

(** The leaves of a map. *)
Definition map_leaves (m : gmap bytes Hash) (l : LeafRef) : Prop := m !! lf_path l = Some (lf_hash l).

(** A map kept under derived keys [f k] with derived values [g k v]:
    editing the changed keys gives the derived map of the edited one. *)
Section Keyed.
Context {K V : Type} `{EqDecision K, !Countable K, !EqDecision V} (f : K -> bytes) (g : K -> V -> bytes).
Context (O O' : gmap K V) (B : gmap K (option V)) (L : list (K * option V)).
Hypothesis HO' : forall k, O' !! k = match B !! k with Some v => v | None => O !! k end.
Hypothesis HL : forall k a, (k, a) ∈ L <-> B !! k = Some a /\ O !! k <> a.
Hypothesis Hf : forall k1 k2, (is_Some (O !! k1) \/ is_Some (B !! k1)) -> (is_Some (O !! k2) \/ is_Some (B !! k2)) ->
  f k1 = f k2 -> k1 = k2.

Definition keyed (m : gmap bytes bytes) (O : gmap K V) : Prop :=
  forall p h, m !! p = Some h <-> exists k v, O !! k = Some v /\ p = f k /\ h = g k v.

Definition keyed_edit (c : K * option V) : Edit := (f (fst c), g (fst c) <$> snd c).

Lemma keyed_edits m : keyed m O -> keyed (edit_map m (keyed_edit <$> L)) O'.
Proof using HO' HL Hf EqDecision1.
  intros Hm p h. rewrite edit_map_lookup. destruct (last_write p (keyed_edit <$> L)) as [o|] eqn:E.
  - apply last_write_elem, list_elem_of_fmap in E as ([k a] & [= -> ->] & Hin). apply HL in Hin as [HB Hne].
    assert (O' !! k = a) as Hk by (by rewrite HO', HB). split.
    + destruct a as [v|]; [|done]. intros [= <-]. eauto.
    + intros (k' & v' & Hk' & Ep & ->). assert (k = k') as <-.
      { apply Hf; [eauto| |done]. rewrite HO' in Hk'. destruct (B !! k'); eauto. }
      rewrite Hk in Hk'. by rewrite Hk'.
  - apply last_write_none in E. rewrite (Hm p h). split; intros (k & v & Hk & -> & ->); exists k, v; (split; [|done]).
    + rewrite HO'. destruct (B !! k) as [a|] eqn:EB; [|done]. destruct (decide (O !! k = a)) as [<-|Hne]; [done|].
      destruct E. rewrite <- list_fmap_compose. apply list_elem_of_fmap. exists (k, a). split; [done|]. by apply HL.
    + rewrite HO' in Hk. destruct (B !! k) as [a|] eqn:EB; [|done]. destruct (decide (O !! k = a)) as [->|Hne]; [done|].
      destruct E. rewrite <- list_fmap_compose. apply list_elem_of_fmap. exists (k, a). split; [done|]. by apply HL.
Qed.
End Keyed.

(** A derived map of one entry, or of none, comes from as small a map. *)
Section KeyedSmall.
Context {K V : Type} `{EqDecision K, !Countable K} (f : K -> bytes) (g : K -> V -> bytes).

Lemma keyed_one (O : gmap K V) p h : keyed f g {[p := h]} O ->
  (forall k1 k2, is_Some (O !! k1) -> is_Some (O !! k2) -> f k1 = f k2 -> k1 = k2) ->
  exists k v, O = {[k := v]} /\ p = f k /\ h = g k v.
Proof using.
  intros Hm Hf. assert (({[p := h]} : gmap bytes bytes) !! p = Some h) as E by apply lookup_singleton_eq.
  apply Hm in E as (k & v & Hk & Ep & Eh). exists k, v. split_and!; [|done..].
  apply map_eq. intros k'. apply option_eq. intros v'. rewrite lookup_singleton_Some. split; [|by intros [<- <-]].
  intros Hk'. assert (({[p := h]} : gmap bytes bytes) !! f k' = Some (g k' v')) as E by (apply Hm; eauto).
  apply lookup_singleton_Some in E as [E _]. assert (k = k') as <- by (apply Hf; [eauto..|congruence]).
  split; [done|]. congruence.
Qed.

(** The leaves of a derived map. *)
Definition keyed_leaves (O : gmap K V) (l : LeafRef) : Prop := exists k v, O !! k = Some v /\ l = {| lf_path := f k; lf_hash := g k v |}.

Lemma keyed_map_leaves m O l : keyed f g m O -> map_leaves m l <-> keyed_leaves O l.
Proof using.
  intros Hm. unfold map_leaves. rewrite (Hm (lf_path l) (lf_hash l)). split; intros (k & v & Hk & E); exists k, v; (split; [done|]).
  - destruct E as [Ep Eh]. destruct l. by f_equal.
  - by rewrite E.
Qed.

Lemma keyed_none (O : gmap K V) : keyed f g ∅ O -> O = ∅.
Proof using.
  intros Hm. apply map_eq. intros k. rewrite lookup_empty. destruct (O !! k) as [v|] eqn:E; [|done].
  assert ((∅ : gmap bytes bytes) !! f k = Some (g k v)) as E' by (apply Hm; eauto). by rewrite lookup_empty in E'.
Qed.
End KeyedSmall.

(** Edits of the declared widths. *)
Definition edits_wf (N : nat) (edits : list Edit) : Prop :=
  Forall (fun '(path, h) => length path = N /\ match h with Some h => length h = 32%nat | None => True end) edits.

Section Spec.
Context `{HashProvider} {HL : HashLaws} (N : nat) (table : Table) (domain : byte).
Context {T : Type} `{WT : WriteTransaction T} {RL : ReadLaws T} {WL : WriteLaws T}.
Hypothesis HN : (1 <= N <= 32)%nat.
Hypothesis Htable : table_ok table.

Definition represents (tx : T) (root : RootRef) (m : gmap bytes Hash) : Prop :=
  exists t, root = ref_of domain t /\ wf N [] t /\ stored domain (view tx table) t /\
    forall path h, m !! path = Some h <-> has t {| lf_path := path; lf_hash := h |}.

(** An operation that makes the trie of a map *)
Abbreviation wp m := (wp N table domain (map_leaves m)).

Lemma represents_empty tx : represents tx REmpty ∅.
Proof using.
  exists TEmpty. split_and!; [done|constructor..|]. intros path h. split; [by rewrite lookup_empty|].
  by intros ?%has_empty.
Qed.

Lemma represents_mono tx tx' root m : view tx table ⊆ view tx' table -> represents tx root m -> represents tx' root m.
Proof using.
  intros He (t & -> & Hwf & Hs & Hm). exists t. split_and!; [done..| |done]. by eapply stored_mono.
Qed.

Lemma represents_ext tx tx' root m : ext table tx tx' -> represents tx root m -> represents tx' root m.
Proof using. intros [He _]. by apply represents_mono. Qed.

(** The tree's leaves and the map say the same of any leaf. *)
Lemma rep_leaf (m : gmap bytes Hash) t l : (forall path h, m !! path = Some h <-> has t {| lf_path := path; lf_hash := h |}) ->
  m !! lf_path l = Some (lf_hash l) <-> has t l.
Proof using. intros Hm. rewrite Hm. by destruct l. Qed.

(** Equal maps have equal roots, in the same store or in different ones. *)
Lemma represents_unique tx tx' root root' m :
  represents tx root m -> represents tx' root' m -> root = root'.
Proof using.
  intros (t & -> & Hwf & _ & Hm) (t' & -> & Hwf' & _ & Hm'). f_equal. eapply wf_unique; [done..|].
  intros l. by rewrite <- (rep_leaf m t), <- (rep_leaf m t').
Qed.

(** Within one store a root stands for one map. *)
Lemma represents_fun tx root m m' : represents tx root m -> represents tx root m' -> m = m'.
Proof using HL HN.
  intros (t & -> & Hwf & Hs & Hm) (t' & E & Hwf' & Hs' & Hm').
  assert (t = t') as <- by (by eapply ref_inj).
  apply map_eq. intros path. apply option_eq. intros h. by rewrite Hm, Hm'.
Qed.

Lemma represents_widths tx root m path h : represents tx root m -> m !! path = Some h ->
  length path = N /\ length h = 32%nat.
Proof using.
  intros (t & -> & Hwf & _ & Hm) Hp%Hm. by destruct (wf_has _ _ _ _ Hwf Hp).
Qed.

Lemma represents_get tx root m path : represents tx root m -> length path = N ->
  get N table domain tx root path = Ok ((fun h => {| lf_path := path; lf_hash := h |}) <$> m !! path).
Proof using HL HN Htable.
  intros (t & -> & Hwf & Hs & Hm) Hp. unfold get.
  destruct (get_loop_ok N table domain HN Htable (DEPTH N) tx t path []) as (o & -> & Ho);
    [done|done|done|apply prefix_nil|unfold DEPTH; cbn; lia|].
  f_equal. apply option_eq. intros l. rewrite Ho, fmap_Some. split.
  - intros [Hl <-]. exists (lf_hash l). split; [by apply (rep_leaf m t)|by destruct l].
  - intros (h & Hh & ->). by apply Hm in Hh.
Qed.

Lemma edit_leaves (m : gmap bytes Hash) t target replacement :
  (forall path h, m !! path = Some h <-> has t {| lf_path := path; lf_hash := h |}) ->
  (forall l, replacement = Some l -> lf_path l = target) ->
  forall l, map_leaves (match replacement with Some l => <[target := lf_hash l]> m | None => delete target m end) l <->
    after_edit t target replacement l.
Proof using.
  clear HN. intros Hm Hrep l. unfold after_edit. rewrite <- (rep_leaf m t l Hm). unfold map_leaves. destruct replacement as [new|].
  - specialize (Hrep new eq_refl). rewrite lookup_insert_Some. split.
    + intros [[E Eh]|[? ?]]; [left|right]; [|done]. split; [done|]. f_equal. destruct l, new; cbn in *; congruence.
    + intros [[E [= ->]]|[? ?]]; [by left|by right].
  - rewrite lookup_delete_Some. naive_solver.
Qed.

(** A tree with the leaves of a map stands for it. *)
Lemma represents_tree (tx : T) (t : tree) (m : gmap bytes Hash) : wf N [] t -> stored domain (view tx table) t -> (forall l, has t l <-> map_leaves m l) ->
  represents tx (ref_of domain t) m.
Proof using. intros Hwf Hs Hl. exists t. split_and!; [done..|]. intros path h. by rewrite Hl. Qed.

(** The trie of a map that the table has is in nobody's way. *)
Lemma represents_no_conflict tx root m : represents tx root m -> ~ conflict N table domain (map_leaves m) tx.
Proof using.
  intros (t & -> & Hwf & Hs & Hm) (route & p & cs & old & Hb & Hold & Hne).
  assert (at_route [] t route (TBranch p cs)) as Hat.
  { apply (trie_branch_at N (map_leaves m)); [done| |apply prefix_nil|done]. intros l _. unfold map_leaves. rewrite (Hm (lf_path l)). by destruct l. }
  pose proof (stored_at _ _ _ _ _ _ Hat Hs) as Hst. inversion Hst as [| |? ? Hrow _]; subst. congruence.
Qed.

(** So an operation whose result's trie is in the table already succeeds. *)
Lemma wp_stored tx root m {A} (P : A -> T -> Prop) (c : stres T MerkleError A) : wp m P c tx -> represents tx root m ->
  exists a, (c tx).1 = Ok a /\ P a (c tx).2 /\ represents (c tx).2 root m.
Proof using.
  unfold MerkleEdit.wp. destruct (c tx) as [r tx']. intros (He & _ & Hr) Hrep. assert (represents tx' root m) as Hrep' by (by eapply represents_ext).
  destruct r as [a|[]| |]; try done; [by exists a|]. by apply represents_no_conflict in Hrep'.
Qed.

Lemma wp_stored_root tx root m (c : stres T MerkleError RootRef) : wp m (fun root' tx' => represents tx' root' m) c tx -> represents tx root m ->
  (c tx).1 = Ok root.
Proof using.
  intros Hc Hrep. destruct (wp_stored _ _ _ _ _ Hc Hrep) as (root' & -> & H1 & H2). f_equal. by eapply represents_unique.
Qed.

Lemma represents_insert tx root m leaf :
  represents tx root m -> length (lf_path leaf) = N -> length (lf_hash leaf) = 32%nat ->
  wp (<[lf_path leaf := lf_hash leaf]> m) (fun root' tx' => represents tx' root' (<[lf_path leaf := lf_hash leaf]> m))
    (insert N table domain root leaf) tx.
Proof using HL HN Htable WL.
  intros (t & -> & Hwf & Hs & Hm) Hp Hh.
  pose proof (edit_leaves m t (lf_path leaf) (Some leaf) Hm ltac:(by intros l [= <-])) as Hl. cbv beta iota in Hl.
  eapply wp_mono; [apply (edit_ok N table domain HN Htable _ _ t (lf_path leaf) (Some leaf) [])|].
  { done. } { done. } { done. } { apply prefix_nil. } { by intros l [= <-]. } { unfold DEPTH. cbn. lia. }
  { by intros l _. } { apply parted_root. }
  intros r tx' _ (t' & -> & Hwf' & Hs' & Hu). apply represents_tree; [done..|]. intros l. by rewrite (Hu l), Hl.
Qed.

Lemma represents_remove tx root m path : represents tx root m -> length path = N ->
  wp (delete path m) (fun root' tx' => represents tx' root' (delete path m)) (remove N table domain root path) tx.
Proof using HL HN Htable WL.
  intros (t & -> & Hwf & Hs & Hm) Hp.
  pose proof (edit_leaves m t path None Hm ltac:(done)) as Hl. cbv beta iota in Hl.
  eapply wp_mono; [apply (edit_ok N table domain HN Htable _ _ t path None [])|].
  { done. } { done. } { done. } { apply prefix_nil. } { done. } { unfold DEPTH. cbn. lia. }
  { by intros l _. } { apply parted_root. }
  intros r tx' _ (t' & -> & Hwf' & Hs' & Hu). apply represents_tree; [done..|]. intros l. by rewrite (Hu l), Hl.
Qed.

Lemma normalize_ok edits : edits_wf N edits -> edits_ok N [] (normalize edits).
Proof using.
  intros Hw. rewrite normalize_entries. split; [apply entries_sorted|]. apply Forall_forall.
  intros [path h] Hin%elem_of_entries. rewrite batch_map_lookup in Hin. unfold last_write in Hin.
  apply last_Some_elem_of, list_elem_of_fmap in Hin as ([p h'] & -> & [Hp Hin]%list_elem_of_filter).
  unfold edits_wf in Hw. rewrite Forall_forall in Hw. specialize (Hw _ Hin). cbn in Hp, Hw. subst p.
  destruct Hw as [Hl Hh]. split_and!; [done|apply prefix_nil|]. cbn. by intros x ->.
Qed.

Lemma batch_leaves (m : gmap bytes Hash) t edits :
  (forall path h, m !! path = Some h <-> has t {| lf_path := path; lf_hash := h |}) ->
  forall l, map_leaves (edit_map m edits) l <-> after_batch t (normalize edits) l.
Proof using.
  clear HN. intros Hm l. unfold map_leaves, after_batch.
  rewrite edit_map_lookup, normalize_entries, elem_of_entries, batch_map_lookup, <- (rep_leaf m t l Hm).
  assert (lf_path l ∉ (entries (batch_map edits)).*1 <-> last_write (lf_path l) edits = None) as ->; [|destruct (last_write (lf_path l) edits); naive_solver].
  rewrite <- batch_map_lookup. rewrite list_elem_of_fmap, eq_None_not_Some. split.
  - intros Hn [o Ho]. apply Hn. exists (lf_path l, o). split; [done|]. by apply elem_of_entries.
  - intros Hn ([p o] & Ep & Hin%elem_of_entries). cbn [fst] in Ep. apply Hn. rewrite Ep. by exists o.
Qed.

Lemma represents_apply tx root m edits : represents tx root m -> edits_wf N edits ->
  wp (edit_map m edits) (fun root' tx' => represents tx' root' (edit_map m edits)) (apply N table domain root edits) tx.
Proof using HL HN Htable WL.
  intros (t & -> & Hwf & Hs & Hm) Hw. pose proof (batch_leaves m t edits Hm) as Hl. unfold apply. apply wp_bind.
  eapply wp_mono; [apply (apply_at_ok N table domain HN Htable _ _ _ t)|].
  { by split. } { done. } { by apply normalize_ok. } { cbn. lia. } { unfold DEPTH. cbn. lia. } { by intros l _. }
  intros e tx1 He1 (t' & Het & Hwf' & Hed) _.
  assert (Hl' : forall l, has t' l <-> map_leaves (edit_map m edits) l) by (intros l; by rewrite (Hed l), Hl).
  eapply wp_mono; [apply (store_edited_ok N table domain HN Htable); [done..| |apply parted_root]|].
  { intros l _. by rewrite Hl'. }
  intros r tx2 He2 [-> Hs2]. by apply represents_tree.
Qed.

(** What a root shows of its map, for reopening it by its digest. *)
Lemma represents_branch tx h m : represents tx (RBranch h) m ->
  is_Some (view tx table !! h) /\ validate_root N table domain tx (RBranch h) = Ok ().
Proof using HL HN Htable.
  intros (t & E & Hwf & Hs & _). destruct t as [|l|p cs]; try done. injection E as ->. inversion Hs as [| |? ? Hrow _]; subst.
  split; [by eexists|]. unfold validate_root, mbind, res_mbind. by rewrite (load_ok N table domain HN Htable [] p cs).
Qed.

Lemma represents_leaf tx l m : represents tx (RLeaf l) m -> m = {[lf_path l := lf_hash l]}.
Proof using.
  intros (t & E & _ & _ & Hm). destruct t as [|l'|p cs]; try done. injection E as <-. apply map_eq. intros path.
  apply option_eq. intros h. rewrite Hm, lookup_singleton_Some. split.
  - intros Hh%has_leaf_inv. by subst l.
  - intros [<- <-]. destruct l. constructor.
Qed.

Lemma represents_nil tx m : represents tx REmpty m -> m = ∅.
Proof using.
  intros (t & E & _ & _ & Hm). destruct t as [|l'|p cs]; try done. apply map_eq. intros path. apply option_eq. intros h.
  rewrite Hm, lookup_empty. split; [by intros ?%has_empty|done].
Qed.

(** A batch of no edits reads the root and returns it. *)
Lemma represents_apply_nil tx root m : represents tx root m -> apply N table domain root [] tx = (Ok root, tx).
Proof using HL HN Htable.
  intros (t & -> & Hwf & Hs & _). unfold apply, DEPTH. rewrite Nat.add_1_r. change (normalize []) with ([] : list Edit).
  unfold mbind, stres_mbind. destruct t as [|l|p cs]; cbn [ref_of apply_at].
  - done.
  - by destruct l.
  - unfold mbind, stres_mbind, reading. rewrite (load_ok N table domain HN Htable [] p cs) by done.
    pose proof (wf_shape N domain _ _ _ Hwf) as Hsh. unfold apply_branch, split_prefix. cbn [omap list_omap].
    rewrite Nat.eqb_refl. unfold following. cbn [position rposition]. rewrite take_nil, drop_nil. cbn [chunk_by apply_groups].
    unfold mbind, stres_mbind. cbn [mret stres_mret]. rewrite Nat.ltb_irrefl. cbn [negb andb].
    assert (forallb (fun '(e, c) => bool_decide (e = Stored c)) (zip (Stored <$> node_children (node_of p (ref_of domain <$> cs))) (node_children (node_of p (ref_of domain <$> cs)))) = true) as ->; [|done].
    generalize (node_children (node_of p (ref_of domain <$> cs))) as l. induction l as [|c l IH]; [done|]. cbn. by rewrite bool_decide_true.
Qed.
End Spec.

(** A root stands for the same map wherever the table's rows are there. *)
Lemma represents_across `{HashProvider} N table domain {T1 T2 : Type} `{ReadLaws T1} `{ReadLaws T2} (tx1 : T1) (tx2 : T2) root m :
  view tx1 table ⊆ view tx2 table -> represents N table domain tx1 root m -> represents N table domain tx2 root m.
Proof. intros Hsub (t & -> & Hwf & Hs & Hm). exists t. split_and!; [done..| |done]. by eapply stored_mono. Qed.

Lemma represents_root_length `{HashProvider} {HL : HashLaws} N table domain {T : Type} `{ReadLaws T} (tx : T) root m :
  represents N table domain tx root m -> length (RootRef_hash root) = 32%nat.
Proof.
  intros (t & -> & Hwf & _). destruct t as [|l|p cs]; cbn [ref_of RootRef_hash]; [apply hash_length| |apply hash_length].
  inversion Hwf as [|? ? Hl|]; subst. apply Hl.
Qed.
