(* ===== verification/MerkleWalk.v ===== *)
(** Traversal of the Merkle trie: [Walk] of crates/merkle/src/trie.rs yields
    every leaf exactly once, in ascending path order. *)
From Stdlib Require Import ZArith Lia.
From S2P Require Import Prelude Ordered Storage MerkleNode MerkleTrie MerkleTree MerkleEdit MerkleBatch MerkleSpec.

(** The leaves of a tree from left to right, and the iterations a walk spends on it. *)
Fixpoint leaves_of (t : tree) : list LeafRef :=
  match t with
  | TEmpty => []
  | TLeaf l => [l]
  | TBranch _ cs => concat (leaves_of <$> cs)
  end.

Fixpoint steps (t : tree) : nat :=
  match t with
  | TBranch _ cs => S (sum_list_with (fun c => if is_TEmpty c then 0 else steps c) cs)
  | _ => 1
  end.

Lemma elem_of_leaves t l : l ∈ leaves_of t <-> has t l.
Proof.
  induction t as [|leaf|p cs IH] using tree_ind'; cbn [leaves_of].
  - split; [by intros ?%not_elem_of_nil|by intros ?%has_empty].
  - rewrite list_elem_of_singleton. split; [intros ->; constructor|by intros ?%has_leaf_inv].
  - rewrite Forall_lookup in IH. rewrite list_elem_of_In, in_concat. split.
    + intros (ls & Hls & Hl). apply list_elem_of_In, list_elem_of_fmap in Hls as (c & -> & Hc).
      apply list_elem_of_lookup in Hc as [i Hi]. eapply has_branch; [exact Hi|]. apply (IH i c Hi).
      by apply list_elem_of_In.
    + intros (i & c & Hi & Hl)%has_branch_inv. exists (leaves_of c). split; apply list_elem_of_In.
      * apply list_elem_of_fmap_2. by eapply list_elem_of_lookup_2.
      * by apply (IH i c Hi).
Qed.

Lemma sorted_concat {A} (R : A -> A -> Prop) (lss : list (list A)) :
  Forall (StronglySorted R) lss ->
  (forall i j li lj x y, (i < j)%nat -> lss !! i = Some li -> lss !! j = Some lj -> x ∈ li -> y ∈ lj -> R x y) ->
  StronglySorted R (concat lss).
Proof.
  induction 1 as [|l lss Hl _ IH]; intros Hx; [constructor|]. cbn [concat]. apply StronglySorted_app_2.
  - intros x y Hxin Hy. apply list_elem_of_In, in_concat in Hy as (lj & Hj & Hy).
    apply list_elem_of_In, list_elem_of_lookup in Hj as [j Hj]. apply list_elem_of_In in Hy.
    by apply (Hx 0%nat (S j) l lj x y); [lia|..].
  - done.
  - apply IH. intros i j li lj x y Hij Hi Hj. by apply (Hx (S i) (S j) li lj x y); [lia|..].
Qed.

Lemma leaves_sorted N route t : wf N route t -> StronglySorted (fun a b => klt (lf_path a) (lf_path b)) (leaves_of t).
Proof.
  revert route. induction t as [|leaf|p cs IH] using tree_ind'; intros route Hwf; cbn [leaves_of]; [repeat constructor..|].
  destruct (wf_branch_inv _ _ _ _ Hwf) as (_ & _ & _ & _ & Hc). apply sorted_concat.
  - rewrite Forall_lookup in IH. apply Forall_lookup. intros i ls Hi. rewrite list_lookup_fmap in Hi.
    destruct (cs !! i) as [c|] eqn:Ec; [|done]. injection Hi as <-. by eapply (IH i c Ec), Hc.
  - intros i j li lj x y Hij Hi Hj Hx Hy. rewrite list_lookup_fmap in Hi, Hj.
    destruct (cs !! i) as [ci|] eqn:Ei; [|done]. destruct (cs !! j) as [cj|] eqn:Ej; [|done].
    injection Hi as <-. injection Hj as <-. apply elem_of_leaves in Hx, Hy.
    destruct (wf_branch_has _ _ _ _ _ _ _ Hwf Ei Hx) as [Px Nx]. destruct (wf_branch_has _ _ _ _ _ _ _ Hwf Ej Hy) as [Py Ny].
    eapply nibbles_klt; [|exact Nx|exact Ny|done]. apply prefix_take in Px, Py. rewrite length_app in Px, Py. congruence.
Qed.

(** The leaves are the map's rows in key order. *)
Lemma leaves_entries (N : nat) (t : tree) (m : gmap bytes Hash) : wf N [] t ->
  (forall path h, m !! path = Some h <-> has t {| lf_path := path; lf_hash := h |}) ->
  leaves_of t = (fun '(p, h) => {| lf_path := p; lf_hash := h |}) <$> entries m.
Proof.
  intros Hwf Hm. set (row := fun l : LeafRef => (lf_path l, lf_hash l)).
  assert (row <$> leaves_of t = entries m) as <-.
  { apply sorted_rows_unique; [|apply entries_sorted|].
    - rewrite <- list_fmap_compose. pose proof (leaves_sorted N [] t Hwf) as Hs. clear -Hs.
      induction Hs as [|x ls _ IH Hx]; [constructor|]. cbn [fmap list_fmap]. constructor; [done|].
      rewrite Forall_fmap. exact Hx.
    - intros k h. rewrite elem_of_entries, Hm, <- elem_of_leaves, list_elem_of_fmap. split.
      + intros (l & [= -> ->] & Hl). by destruct l.
      + intros Hl. eexists. split; [|exact Hl]. done. }
  rewrite <- list_fmap_compose. rewrite <- (list_fmap_id (leaves_of t)) at 1. apply list_fmap_ext.
  intros i l _. by destruct l.
Qed.

(** A canonical tree has fewer branches than leaves. *)
Lemma steps_leaves N route t : wf N route t -> t <> TEmpty -> (steps t + 1 <= 2 * length (leaves_of t))%nat.
Proof.
  revert route. induction t as [|leaf|p cs IH] using tree_ind'; intros route Hwf Hne; [done|cbn; lia|].
  destruct (wf_branch_inv _ _ _ _ Hwf) as (_ & _ & _ & (i & j & ci & cj & Hij & Hi & Hci & Hj & Hcj) & Hc).
  cbn [steps leaves_of].
  set (f := fun c => if is_TEmpty c then 0%nat else steps c).
  set (k := fun c => if is_TEmpty c then 0%nat else 1%nat).
  assert (Hsum : forall l, (forall c, c ∈ l -> (f c + k c <= 2 * length (leaves_of c))%nat) ->
    (sum_list_with f l + sum_list_with k l <= 2 * length (concat (leaves_of <$> l)))%nat).
  { clear. induction l as [|c l IH]; intros Hl; [done|]. cbn. rewrite length_app.
    specialize (Hl c (list_elem_of_here _ _)) as Hlc. specialize (IH (fun d Hd => Hl d (list_elem_of_further _ _ _ Hd))). lia. }
  assert (Htwo : forall l i j ci cj, i <> j -> l !! i = Some ci -> ci <> TEmpty -> l !! j = Some cj -> cj <> TEmpty ->
    (2 <= sum_list_with k l)%nat).
  { clear. assert (Hone : forall l j cj, l !! j = Some cj -> cj <> TEmpty -> (1 <= sum_list_with k l)%nat).
    { induction l as [|c l IH]; intros [|j] cj Hj Hcj; try done; cbn in *.
      - injection Hj as ->. unfold k at 1. destruct cj; [done|cbn; lia|cbn; lia].
      - specialize (IH j cj Hj Hcj). lia. }
    induction l as [|c l IH]; intros [|i] [|j] ci cj Hij Hi Hci Hj Hcj; try done; cbn in *.
    - injection Hi as ->. specialize (Hone l j cj Hj Hcj). unfold k at 1. destruct ci; [done|cbn; lia|cbn; lia].
    - injection Hj as ->. specialize (Hone l i ci Hi Hci). unfold k at 1. destruct cj; [done|cbn; lia|cbn; lia].
    - specialize (IH i j ci cj ltac:(congruence) Hi Hci Hj Hcj). lia. }
  specialize (Htwo cs i j ci cj Hij Hi Hci Hj Hcj). specialize (Hsum cs).
  assert (sum_list_with f cs + sum_list_with k cs <= 2 * length (concat (leaves_of <$> cs)))%nat; [|lia].
  apply Hsum. intros c Hin. apply list_elem_of_lookup in Hin as [n Hn]. rewrite Forall_lookup in IH. unfold f, k.
  destruct c; cbn [is_TEmpty]; [lia| |]; by apply (IH n _ Hn _ (Hc _ _ Hn)).
Qed.

Section Walk.
Context `{HashProvider} {HL : HashLaws} (N : nat) (table : Table) (domain : byte).
Context {T : Type} `{RT : ReadTransaction T} {RL : ReadLaws T}.
Hypothesis HN : (1 <= N <= 32)%nat.
Hypothesis Htable : table_ok table.

Abbreviation rows tx := (view tx table).
Abbreviation ref := (ref_of domain).

(** Draining a [Walk], at most [n] items; an error ends it. *)
Fixpoint walk_collect (n fuel : nat) (tx : T) (stack : list (RootRef * list nat)) : list (res MerkleError LeafRef) :=
  match n with
  | O => []
  | S n =>
      match walk_next N table domain fuel tx stack with
      | (None, _) => []
      | (Some (Ok l), stack) => Ok l :: walk_collect n fuel tx stack
      | (Some e, _) => [e]
      end
  end.

(** A stack of subtrees still to visit. *)
Abbreviation todo := (list (tree * list nat)).
Definition stack_of (ts : todo) : list (RootRef * list nat) := (fun '(t, r) => (ref t, r)) <$> ts.
Definition todo_ok (tx : T) (ts : todo) : Prop := Forall (fun '(t, r) => wf N r t /\ stored domain (rows tx) t) ts.
Definition todo_leaves (ts : todo) : list LeafRef := concat ((fun '(t, _) => leaves_of t) <$> ts).
Definition todo_steps (ts : todo) : nat := sum_list_with (fun '(t, _) => steps t) ts.

Lemma push_rev {A B} (push : list B -> A -> list B) (g : A -> option B) l (rest : list B) :
  (forall st s, push st s = match g s with Some x => x :: st | None => st end) ->
  foldl push rest (reverse l) = omap g l ++ rest.
Proof using.
  intros Hp. revert rest. induction l as [|a l IH]; intros rest; [done|]. rewrite reverse_cons, foldl_app, IH. cbn.
  rewrite Hp. by destruct (g a).
Qed.

(** The occupied children of a branch, to be visited from slot zero on. *)
Definition kids (croute : list nat) (cs : list tree) (slots : list nat) : todo :=
  omap (fun s => c ← cs !! s; if is_TEmpty c then None else Some (c, croute ++ [s])) slots.

Lemma lookup_seq_id (cs : list tree) : (fun s => default TEmpty (cs !! s)) <$> seq 0 (length cs) = cs.
Proof using.
  clear HN. apply list_eq. intros i. rewrite list_lookup_fmap. destruct (decide (i < length cs)%nat) as [Hi|Hi].
  - rewrite lookup_seq_lt by done. cbn. by destruct (lookup_lt_is_Some_2 cs i Hi) as [c ->].
  - rewrite !lookup_ge_None_2 by (rewrite ?length_seq; lia). done.
Qed.

Lemma kids_sums croute cs slots :
  todo_leaves (kids croute cs slots) = concat (leaves_of <$> ((fun s => default TEmpty (cs !! s)) <$> slots)) /\
  todo_steps (kids croute cs slots) =
    sum_list_with (fun c => if is_TEmpty c then 0%nat else steps c) ((fun s => default TEmpty (cs !! s)) <$> slots).
Proof using.
  induction slots as [|s slots [IH1 IH2]]; [done|]. unfold kids, todo_leaves, todo_steps in *.
  cbn [omap list_omap fmap list_fmap concat sum_list_with].
  destruct (cs !! s) as [c|]; cbn; [|done]. destruct c; cbn; by rewrite ?IH1, ?IH2.
Qed.

Lemma walk_next_ok fuel tx ts : todo_ok tx ts -> (todo_steps ts < fuel)%nat ->
  (todo_leaves ts = [] /\ walk_next N table domain fuel tx (stack_of ts) = (None, [])) \/
  (exists l ts', todo_leaves ts = l :: todo_leaves ts' /\ todo_ok tx ts' /\ (todo_steps ts' < todo_steps ts)%nat /\
    walk_next N table domain fuel tx (stack_of ts) = (Some (Ok l), stack_of ts')).
Proof using HL HN Htable.
  revert ts. induction fuel as [|fuel IH]; intros ts Hok Hf; [lia|]. destruct ts as [|[t r] ts]; [by left|].
  apply Forall_cons in Hok as [[Hwf Hs] Hok]. unfold todo_steps in Hf. cbn [sum_list_with] in Hf. fold (todo_steps ts) in Hf.
  destruct t as [|l|p cs]; cbn [stack_of fmap list_fmap walk_next ref_of].
  - cbn [steps] in Hf. destruct (IH ts Hok) as [[H1 H2]|(l & ts' & H1 & H2 & H3 & H4)]; [lia|left|right].
    + split; [done|exact H2].
    + exists l, ts'. split_and!; [done..| |exact H4]. unfold todo_steps in *. cbn. lia.
  - right. exists l, ts. split_and!; [done..| |done]. unfold todo_steps. cbn. lia.
  - rewrite (load_ok N table domain HN Htable r p cs) by done.
    pose proof (wf_shape N domain _ _ _ Hwf) as Hsh. rewrite (unpack_prefix_of Hsh).
    destruct (wf_branch_inv _ _ _ _ Hwf) as (_ & _ & H16 & _ & Hc).
    set (ks := kids (r ++ p) cs (seq 0 16)).
    assert (Hpush : foldl (fun stack slot => match node_child (node_of p (ref <$> cs)) slot with
      | Some child => (child, (r ++ p) ++ [slot]) :: stack | None => stack end) (stack_of ts) (reverse (seq 0 16)) =
      stack_of (ks ++ ts)).
    { rewrite (push_rev _ (fun s => (fun c => (c, (r ++ p) ++ [s])) <$> node_child (node_of p (ref <$> cs)) s))
        by (intros st s; by destruct (node_child _ s)).
      unfold stack_of. rewrite fmap_app. f_equal. unfold ks, kids. generalize (seq 0 16) as slots.
      induction slots as [|s slots IHs]; [done|]. cbn [omap list_omap]. rewrite (node_child_of Hsh), list_lookup_fmap.
      destruct (cs !! s) as [[]|]; cbn; by rewrite IHs. }
    match goal with |- context [foldl ?f ?st ?l] => replace (foldl f st l) with (stack_of (ks ++ ts)) by exact (eq_sym Hpush) end.
    destruct (kids_sums (r ++ p) cs (seq 0 16)) as [Hkl Hks]. fold ks in Hkl, Hks.
    rewrite <- H16, lookup_seq_id in Hkl, Hks.
    assert (Hlv : todo_leaves (ks ++ ts) = todo_leaves ((TBranch p cs, r) :: ts)).
    { unfold todo_leaves in *. rewrite fmap_app, concat_app, Hkl. done. }
    assert (Hst : S (todo_steps (ks ++ ts)) = todo_steps ((TBranch p cs, r) :: ts)).
    { unfold todo_steps in *. rewrite sum_list_with_app, Hks. done. }
    destruct (IH (ks ++ ts)) as [[H1 H2]|(l & ts' & H1 & H2 & H3 & H4)].
    + apply Forall_app. split; [|done]. apply Forall_forall. intros [c rc] Hin. unfold ks, kids in Hin.
      apply list_elem_of_omap in Hin as (s & _ & E). destruct (cs !! s) as [c'|] eqn:Ec; [|done]. cbn in E.
      destruct (is_TEmpty c'); [done|]. injection E as <- <-. split; [rewrite <- app_assoc; by apply Hc|].
      by eapply stored_branch_inv.
    + unfold todo_steps in Hst at 2. cbn [sum_list_with] in Hst. fold (todo_steps ts) in Hst. lia.
    + left. by rewrite <- Hlv.
    + right. exists l, ts'. rewrite <- Hlv, <- Hst. split_and!; [done..|lia|done].
Qed.

Lemma walk_collect_ok n fuel tx ts : todo_ok tx ts -> (todo_steps ts < fuel)%nat -> (length (todo_leaves ts) < n)%nat ->
  walk_collect n fuel tx (stack_of ts) = Ok <$> todo_leaves ts.
Proof using HL HN Htable.
  revert ts. induction n as [|n IH]; intros ts Hok Hf Hn; [lia|]. cbn [walk_collect].
  destruct (walk_next_ok fuel tx ts Hok Hf) as [[-> ->]|(l & ts' & Hl & Hok' & Hst & ->)]; [done|].
  rewrite Hl in *. cbn [fmap list_fmap length] in *. f_equal. apply IH; [done|lia|lia].
Qed.

(** Draining a walk from a root that stands for a map. *)
Lemma represents_walk tx root m n fuel : represents N table domain tx root m -> (size m < n)%nat -> (2 * size m + 1 < fuel)%nat ->
  walk_collect n fuel tx (walk root) = (fun '(p, h) => Ok {| lf_path := p; lf_hash := h |}) <$> entries m.
Proof using HL HN Htable.
  intros (t & -> & Hwf & Hs & Hm) Hn Hfuel. pose proof (leaves_entries N t m Hwf Hm) as Hl.
  assert (Hlen : length (leaves_of t) = size m).
  { rewrite Hl, length_fmap, entries_perm, length_map_to_list. done. }
  change (walk (ref_of domain t)) with (stack_of [(t, [])]).
  rewrite walk_collect_ok.
  - unfold todo_leaves. cbn [fmap list_fmap concat]. rewrite app_nil_r, Hl, <- list_fmap_compose.
    apply list_fmap_ext. by intros i [p h] _.
  - by repeat constructor.
  - unfold todo_steps. cbn [sum_list_with]. destruct (decide (is_TEmpty t = true)); [destruct t; cbn; [lia|done|done]|].
    pose proof (steps_leaves N [] t Hwf ltac:(by intros ->)). lia.
  - unfold todo_leaves. cbn [fmap list_fmap concat]. rewrite app_nil_r. lia.
Qed.
End Walk.
