(* ===== verification/Samples.v ===== *)
(** Concrete parameters for the instances of the theorems: a digest of the right
    width and an empty in-memory transaction. *)
From Stdlib Require Import ZArith Lia.
From S2P Require Import Prelude Ordered Storage MerkleNode.

(** A digest of the right width, for the instances below: a polynomial in the
    bytes of the parts. *)
#[export] Instance poly_hash : HashProvider := fun parts =>
  be_encode 8 (foldl (fun acc b => (acc * 0x100000001b3 + u8 b + 1) mod 2 ^ 64)%Z 7%Z (concat parts)) ++ replicate 24 x00.
#[export] Instance poly_hash_laws : HashLaws.
Proof. intros parts. unfold hash_parts, poly_hash. by rewrite length_app, length_be_encode, length_replicate. Qed.

Definition tx0 : MemoryTx := {| mt_state := ∅ |}.
