(* ===== verification/Hasher.v ===== *)
(** The digest providers: crates/merkle/src/hash.rs.

    [Keccak256Hasher] and [Blake3Hasher] feed the parts one by one to a
    third-party incremental digest, a parameter here with its documented law:
    updates concatenate. Both then hash the concatenation of the parts, with no
    framing between them, and have the width of [Hash]. *)
From Stdlib Require Import ZArith Lia.
From S2P Require Import Prelude Ordered Storage MerkleNode Samples.

(** [new], [update] and [finalize] of sha3 and of blake3 *)
Class Digest (D : Type) := {
  digest_new : D;
  digest_update : D -> bytes -> D;
  digest_finalize : D -> Hash
}.

Class DigestLaws (D : Type) `{Digest D} : Prop := {
  update_nil d : digest_update d [] = d;
  update_app d x y : digest_update (digest_update d x) y = digest_update d (x ++ y);
  finalize_length d : length (digest_finalize d) = 32%nat
}.

(** [hash_parts] of either provider, over the digest it constructs *)
Definition digest_parts {D : Type} `{Digest D} (parts : list bytes) : Hash :=
  digest_finalize (foldl digest_update digest_new parts).

Definition Keccak256Hasher_hash_parts {Keccak256 : Type} `{Digest Keccak256} : HashProvider := digest_parts (D := Keccak256).
Definition Blake3Hasher_hash_parts {Blake3 : Type} `{Digest Blake3} : HashProvider := digest_parts (D := Blake3).

Section Laws.
Context {D : Type} `{DigestLaws D}.

Lemma updates_concat parts d : foldl digest_update d parts = digest_update d (concat parts).
Proof.
  revert d. induction parts as [|p parts IH]; intros d; simpl; [by rewrite update_nil|].
  by rewrite IH, update_app.
Qed.

(** How the bytes are cut into parts does not matter. *)
Lemma digest_parts_concat parts parts' : concat parts = concat parts' -> digest_parts (D := D) parts = digest_parts (D := D) parts'.
Proof. intros Heq. unfold digest_parts. by rewrite !updates_concat, Heq. Qed.

(** [hash] is [hash_parts] of the whole. *)
Lemma digest_hash parts : @hash digest_parts (concat parts) = digest_parts (D := D) parts.
Proof. apply digest_parts_concat. simpl. apply app_nil_r. Qed.

#[export] Instance keccak256_laws : @HashLaws (Keccak256Hasher_hash_parts (Keccak256 := D)).
Proof. intros parts. apply finalize_length. Qed.
#[export] Instance blake3_laws : @HashLaws (Blake3Hasher_hash_parts (Blake3 := D)).
Proof. intros parts. apply finalize_length. Qed.
End Laws.

(** The laws hold of a digest that keeps what it was fed: the sample digest,
    computed at the end. *)
#[export] Instance buffered_digest : Digest bytes := {
  digest_new := [];
  digest_update d x := d ++ x;
  digest_finalize d := poly_hash [d]
}.
#[export] Instance buffered_digest_laws : DigestLaws bytes.
Proof. split; [apply app_nil_r | intros; symmetry; apply app_assoc | intros; apply poly_hash_laws]. Qed.

Example sample_hashers : Keccak256Hasher_hash_parts (Keccak256 := bytes) [[x01]; [x02; x03]] = poly_hash [[x01; x02]; [x03]].
Proof. vm_compute. reflexivity. Qed.
