(* ===== verification/MerkleClaims.v ===== *)
(** The properties of the Merkle trie, with concrete instances of each. *)
From Stdlib Require Import ZArith Lia.
From S2P Require Import Prelude Ordered Storage MerkleNode MerkleTrie MerkleTree MerkleEdit MerkleBatch MerkleSpec MerkleWalk Samples.

(** C40. A compact branch that [BranchNodeCompact::new] admits decodes from its
    encoding, and decoding is strict: bytes are accepted only if they are the
    canonical encoding of the branch they decode to. *)
Theorem branch_row_codec (N : nat) : (1 <= N <= 32)%nat ->
  (forall node, node_wf N node -> node_decode N (node_encode node) = Ok node) /\
  (forall row node, node_decode N row = Ok node -> node_encode node = row /\ node_wf N node).
Proof. intros HN. split; [apply node_decode_encode|apply node_encode_decode]; done. Qed.

Lemma branch_row_codec_witness :
  let leaf b := {| lf_path := [b]; lf_hash := replicate 32 b |} in
  let node := node_of [] (<[1%nat := RLeaf (leaf x10)]> (<[2%nat := RLeaf (leaf x20)]> no_children)) in
  node_encode node = [x00; x00; x06; x00; x00] ++ replicate 32 x10 ++ replicate 32 x20 ++ [x10; x20] /\
  (forall row node, node_decode 1 row = Ok node -> node_encode node = row /\ node_wf 1 node).
Proof. split; [vm_compute; reflexivity|]. apply (branch_row_codec 1). lia. Defined.

Section Claims.
Context `{HashProvider} {HL : HashLaws} (N : nat) (table : Table) (domain : byte).
Context {T : Type} `{WT : WriteTransaction T} {RL : ReadLaws T} {WL : WriteLaws T}.
Hypothesis HN : (1 <= N <= 32)%nat.
Hypothesis Htable : table_ok table.

(** Edits made one call at a time. *)
Fixpoint one_by_one (root : RootRef) (edits : list Edit) : stres T MerkleError RootRef :=
  match edits with
  | [] => mret root
  | (path, Some h) :: edits =>
      root ← insert N table domain root {| lf_path := path; lf_hash := h |};
      one_by_one root edits
  | (path, None) :: edits =>
      root ← remove N table domain root path;
      one_by_one root edits
  end.

Lemma wp_ok {A} L (P : A -> T -> Prop) c tx a tx' : wp N table domain L P c tx -> c tx = (Ok a, tx') -> P a tx'.
Proof using. unfold wp. intros Hc E. rewrite E in Hc. by destruct Hc as (_ & _ & ?). Qed.

Lemma one_by_one_ok tx root m edits root' tx' : represents N table domain tx root m -> edits_wf N edits ->
  one_by_one root edits tx = (Ok root', tx') -> represents N table domain tx' root' (edit_map m edits).
Proof using HL HN Htable WL.
  intros Hrep Hw. revert tx root m Hrep. induction Hw as [|[path h] edits [Hp Hh] Hw IH]; intros tx root m Hrep E.
  { by injection E as <- <-. }
  cbn [one_by_one] in E. destruct h as [h|]; unfold mbind, stres_mbind in E.
  - pose proof (represents_insert N table domain HN Htable tx root m {| lf_path := path; lf_hash := h |} Hrep Hp Hh) as Hi.
    destruct (insert _ _ _ _ _ tx) as [[r|e| |] tx1] eqn:Ei; try done. eapply IH, E. exact (wp_ok _ _ _ _ _ _ Hi Ei).
  - pose proof (represents_remove N table domain HN Htable tx root m path Hrep Hp) as Hi.
    destruct (remove _ _ _ _ _ tx) as [[r|e| |] tx1] eqn:Ei; try done. eapply IH, E. exact (wp_ok _ _ _ _ _ _ Hi Ei).
Qed.

(** C29. Lookup: [get] on a root that stands for a map returns exactly the
    map's leaf at the path, ends within the path's depth and never panics. *)
Theorem trie_get_is_lookup tx root m path :
  represents N table domain tx root m -> length path = N ->
  get N table domain tx root path = Ok ((fun h => {| lf_path := path; lf_hash := h |}) <$> m !! path).
Proof using HL HN Htable. apply represents_get; done. Qed.

(** C10. [insert] and [remove] refine the map's update and deletion: they end
    without a panic, keep every stored row and other tables, add no row but those
    of branches of the updated map's trie, and return the root of the updated
    map. The one exception is reported as [ConflictingBranch], and then some
    branch of the updated map's trie has its digest taken by another row; where
    the table has that trie already, under some root, that root is returned. *)
Theorem trie_edits_refine_map tx root m leaf :
  represents N table domain tx root m -> length (lf_path leaf) = N -> length (lf_hash leaf) = 32%nat ->
  wp N table domain (map_leaves (<[lf_path leaf := lf_hash leaf]> m)) (fun root' tx' => represents N table domain tx' root' (<[lf_path leaf := lf_hash leaf]> m))
    (insert N table domain root leaf) tx /\
  wp N table domain (map_leaves (delete (lf_path leaf) m)) (fun root' tx' => represents N table domain tx' root' (delete (lf_path leaf) m))
    (remove N table domain root (lf_path leaf)) tx /\
  (forall root', represents N table domain tx root' (<[lf_path leaf := lf_hash leaf]> m) -> (insert N table domain root leaf tx).1 = Ok root') /\
  (forall root', represents N table domain tx root' (delete (lf_path leaf) m) -> (remove N table domain root (lf_path leaf) tx).1 = Ok root').
Proof using HL HN Htable WL.
  intros Hrep Hp Hh. split; [by apply represents_insert|]. split; [by apply represents_remove|].
  split; intros root'; apply wp_stored_root; [by apply represents_insert|by apply represents_remove].
Qed.

(** C9. [apply] refines a batch of map edits, in any order and with repeated
    paths: the last edit of a path wins. It ends without a panic, keeps every
    stored row and other tables, adds no row but those of branches of the edited
    map's trie, and returns the root of the edited map. The one exception is
    reported as [ConflictingBranch], and then some branch of the edited map's
    trie has its digest taken by another row; where the table has that trie
    already, under some root, that root is returned. *)
Theorem trie_batch_refines_map tx root m edits :
  represents N table domain tx root m -> edits_wf N edits ->
  wp N table domain (map_leaves (edit_map m edits)) (fun root' tx' => represents N table domain tx' root' (edit_map m edits))
    (apply N table domain root edits) tx /\
  (forall root', represents N table domain tx root' (edit_map m edits) -> (apply N table domain root edits tx).1 = Ok root').
Proof using HL HN Htable WL.
  intros Hrep Hw. split; [by apply represents_apply|]. intros root'. apply wp_stored_root. by apply represents_apply.
Qed.

(** C23. The batch [apply] returns the same root as one [insert] or [remove]
    per edit, started from any stores in which the root stands for the map. *)
Theorem trie_batch_equals_single_edits tx1 tx2 root m edits r1 r2 tx1' tx2' :
  represents N table domain tx1 root m -> represents N table domain tx2 root m -> edits_wf N edits ->
  apply N table domain root edits tx1 = (Ok r1, tx1') ->
  one_by_one root edits tx2 = (Ok r2, tx2') -> r1 = r2.
Proof using HL HN Htable WL.
  intros H1 H2 Hw E1 E2.
  pose proof (wp_ok _ _ _ _ _ _ (represents_apply N table domain HN Htable _ _ _ _ H1 Hw) E1) as R1.
  pose proof (one_by_one_ok _ _ _ _ _ _ H2 Hw E2) as R2. exact (represents_unique N table domain _ _ _ _ _ R1 R2).
Qed.

(** C22. Roots are canonical: equal maps have equal roots whatever history and
    whatever store produced them, and within one store different maps have
    different roots. *)
Theorem trie_roots_are_canonical tx tx' root root' m m' :
  represents N table domain tx root m -> represents N table domain tx' root' m' ->
  (m = m' -> root = root') /\ (tx = tx' -> root = root' -> m = m').
Proof using HL HN.
  intros R R'. split.
  - intros ->. exact (represents_unique N table domain _ _ _ _ _ R R').
  - intros -> ->. by eapply (represents_fun N table domain HN).
Qed.

(** C28. Copy on write: whatever the outcome of a batch, errors included, every
    root that stood for a map before still does, and no other table changed. *)
Theorem trie_keeps_old_roots tx root m edits r tx' root0 m0 :
  represents N table domain tx root m -> edits_wf N edits ->
  apply N table domain root edits tx = (r, tx') -> represents N table domain tx root0 m0 ->
  represents N table domain tx' root0 m0 /\ (forall tb, tb <> table -> view tx' tb = view tx tb).
Proof using HL HN Htable WL.
  intros R Hw E R0. pose proof (represents_apply N table domain HN Htable _ _ _ _ R Hw) as Hwp.
  unfold wp in Hwp. rewrite E in Hwp. destruct Hwp as [He _]. split; [by eapply represents_ext|apply He].
Qed.

(** C30. Draining a [Walk] yields every leaf of the map once, in ascending path
    order, and then ends; [2 * size m + 2] iterations per call are enough. *)
Theorem trie_walk_is_sorted tx root m n :
  represents N table domain tx root m -> (size m < n)%nat ->
  walk_collect N table domain n (2 * size m + 2) tx (walk root) =
  (fun '(p, h) => Ok {| lf_path := p; lf_hash := h |}) <$> entries m.
Proof using HL HN Htable. intros Hr Hn. apply (represents_walk N table domain HN Htable tx root m); [done|done|lia]. Qed.
End Claims.

(** ** Concrete instances *)

Definition leaf1 (b : byte) : LeafRef := {| lf_path := [b]; lf_hash := replicate 32 b |}.

Lemma rep0 : represents 1 "Branches" x03 tx0 REmpty ∅.
Proof. apply represents_empty. Qed.

Lemma width1 : (1 <= 1 <= 32)%nat.
Proof. lia. Qed.

Definition edits1 : list Edit :=
  [([x17], Some (replicate 32 x17)); ([x07], Some (replicate 32 x07)); ([x17], Some (replicate 32 x18))].

Lemma edits1_wf : edits_wf 1 edits1.
Proof. repeat constructor. Qed.

(** Both ways of applying the edits succeed, and end in the same branch root. *)
Definition batch_run := apply 1 "Branches" x03 REmpty edits1 tx0.
Definition single_run := one_by_one 1 "Branches" x03 REmpty edits1 tx0.
Definition root_in {A} (r : res MerkleError RootRef * A) : RootRef := match r.1 with Ok root => root | _ => REmpty end.

Lemma batch_ends : batch_run = (Ok (root_in batch_run), batch_run.2).
Proof. vm_compute. reflexivity. Qed.
Lemma single_ends : single_run = (Ok (root_in single_run), single_run.2).
Proof. vm_compute. reflexivity. Qed.

Definition map1 : gmap bytes Hash := edit_map ∅ edits1.
Definition store1 : MemoryTx := batch_run.2.
Definition root1 : RootRef := root_in batch_run.

Lemma rep1 : represents 1 "Branches" x03 store1 root1 map1.
Proof. exact (wp_ok 1 "Branches" x03 _ _ _ _ _ _ (represents_apply 1 "Branches" x03 width1 eq_refl tx0 REmpty ∅ edits1 rep0 edits1_wf) batch_ends). Qed.
Lemma rep1_single : represents 1 "Branches" x03 single_run.2 (root_in single_run) map1.
Proof. exact (one_by_one_ok 1 "Branches" x03 width1 eq_refl tx0 REmpty ∅ edits1 _ _ rep0 edits1_wf single_ends). Qed.

Lemma trie_get_is_lookup_witness :
  get 1 "Branches" x03 store1 root1 [x17] = Ok (Some {| lf_path := [x17]; lf_hash := replicate 32 x18 |}).
Proof. exact (trie_get_is_lookup 1 "Branches" x03 width1 eq_refl store1 root1 map1 [x17] rep1 eq_refl). Defined.

(** An insertion and a removal in a store that has a branch succeed. *)
Lemma trie_edits_refine_map_witness :
  let inserted := insert 1 "Branches" x03 root1 (leaf1 x27) store1 in
  let removed := remove 1 "Branches" x03 root1 [x27] store1 in
  is_ok inserted.1 = true /\ represents 1 "Branches" x03 inserted.2 (root_in inserted) (<[[x27] := replicate 32 x27]> map1) /\
  is_ok removed.1 = true /\ represents 1 "Branches" x03 removed.2 (root_in removed) (delete [x27] map1).
Proof.
  intros inserted removed.
  destruct (trie_edits_refine_map 1 "Branches" x03 width1 eq_refl store1 root1 map1 (leaf1 x27) rep1 eq_refl eq_refl) as (Hi & Hr & _).
  assert (inserted = (Ok (root_in inserted), inserted.2)) as Ei by (vm_compute; reflexivity).
  assert (removed = (Ok (root_in removed), removed.2)) as Er by (vm_compute; reflexivity).
  split_and!; [vm_compute; reflexivity|exact (wp_ok 1 "Branches" x03 _ _ _ _ _ _ Hi Ei)|vm_compute; reflexivity|exact (wp_ok 1 "Branches" x03 _ _ _ _ _ _ Hr Er)].
Defined.

(** From the empty trie, and once more over the store that it left. *)
Lemma trie_batch_refines_map_witness :
  is_ok batch_run.1 = true /\ root1 <> REmpty /\ represents 1 "Branches" x03 store1 root1 map1 /\
  (apply 1 "Branches" x03 REmpty edits1 store1).1 = Ok root1.
Proof.
  split; [vm_compute; reflexivity|]. split; [vm_compute; discriminate|]. split.
  - exact (wp_ok 1 "Branches" x03 _ _ _ _ _ _ (proj1 (trie_batch_refines_map 1 "Branches" x03 width1 eq_refl tx0 REmpty ∅ edits1 rep0 edits1_wf)) batch_ends).
  - apply (trie_batch_refines_map 1 "Branches" x03 width1 eq_refl store1 REmpty ∅ edits1 (represents_empty 1 "Branches" x03 store1) edits1_wf). exact rep1.
Defined.

Lemma trie_batch_equals_single_edits_witness :
  batch_run.1 = Ok (root_in batch_run) /\ single_run.1 = Ok (root_in single_run) /\
  root_in batch_run = root_in single_run /\ root_in batch_run <> REmpty.
Proof.
  split_and!; [vm_compute; reflexivity|vm_compute; reflexivity| |vm_compute; discriminate].
  exact (trie_batch_equals_single_edits 1 "Branches" x03 width1 eq_refl tx0 tx0 REmpty ∅ edits1
    (root_in batch_run) (root_in single_run) batch_run.2 single_run.2 rep0 rep0 edits1_wf batch_ends single_ends).
Defined.

(** The stores of the two runs agree on the root of their map, and within one of
    them no other map has it. *)
Lemma trie_roots_are_canonical_witness :
  root1 = root_in single_run /\ root1 <> REmpty /\ forall m, represents 1 "Branches" x03 store1 root1 m -> m = map1.
Proof.
  split; [|split; [vm_compute; discriminate|]].
  - apply (trie_roots_are_canonical 1 "Branches" x03 width1 store1 single_run.2 root1 (root_in single_run) map1 map1 rep1 rep1_single). reflexivity.
  - intros m Hm. apply (trie_roots_are_canonical 1 "Branches" x03 width1 store1 store1 root1 root1 m map1 Hm rep1); reflexivity.
Defined.

(** Clearing the trie keeps the root it had. *)
Definition clearing : list Edit := [([x17], None); ([x07], None)].

Lemma trie_keeps_old_roots_witness :
  let run := apply 1 "Branches" x03 root1 clearing store1 in
  run.1 = Ok REmpty /\ represents 1 "Branches" x03 run.2 root1 map1 /\
  (forall tb, tb <> "Branches"%string -> view run.2 tb = view store1 tb).
Proof.
  split; [vm_compute; reflexivity|].
  apply (trie_keeps_old_roots 1 "Branches" x03 width1 eq_refl store1 root1 map1 clearing
    (apply 1 "Branches" x03 root1 clearing store1).1 (apply 1 "Branches" x03 root1 clearing store1).2 root1 map1 rep1);
    [repeat constructor|apply surjective_pairing|exact rep1].
Defined.

Lemma trie_walk_is_sorted_witness :
  walk_collect 1 "Branches" x03 3 6 store1 (walk root1) =
  [Ok {| lf_path := [x07]; lf_hash := replicate 32 x07 |}; Ok {| lf_path := [x17]; lf_hash := replicate 32 x18 |}].
Proof.
  refine (eq_trans (trie_walk_is_sorted 1 "Branches" x03 width1 eq_refl store1 root1 map1 3 rep1 _) _); vm_compute; [lia|reflexivity].
Defined.
