(* ===== verification/BranchTypes.v ===== *)
(** Identifiers and errors of the branch layer and of the errors it wraps:
    crates/branch/src/{types,error}.rs, crates/cells/src/error.rs and
    crates/index/src/{error,term,bitmap}.rs. *)
From Stdlib Require Import ZArith Lia.
From S2P Require Import Prelude Ordered Storage CellTypes CellValue CellName MerkleNode.

(** [CommitId(u64)] and [BranchId(u64)] *)
Record CommitId := { commit_number : Z }.
Record BranchId := { branch_number : Z }.

#[global] Instance CommitId_eq_dec : EqDecision CommitId.
Proof. solve_decision. Defined.
#[global] Instance BranchId_eq_dec : EqDecision BranchId.
Proof. solve_decision. Defined.
#[global] Instance BranchId_countable : Countable BranchId.
Proof. refine (inj_countable' branch_number (fun z => {| branch_number := z |}) _). by intros []. Defined.

Inductive CellError : Type :=
  | CE_Storage (e : StorageError)
  | CE_Merkle (e : MerkleError)
  | CE_Key (e : CellKeyError)
  | CE_Value (e : CellValueParseError)
  | CE_RootMismatch.

Inductive TermError : Type :=
  | InvalidName
  | UnsupportedType (ty : CellType)
  | TE_Value (e : CellValueParseError)
  | NaN
  | InvalidEncoding.

Inductive BitmapError : Type :=
  | PathOutOfRange (path : Z)
  | OffsetOutOfRange (value : Z)
  | DuplicatePath (path : Z)
  | UnsortedPaths (previous path : Z)
  | EmptyContainer
  | TruncatedPath
  | NonCanonicalEncoding
  | Decode (source : string).

Inductive IndexError : Type :=
  | IE_Storage (e : StorageError)
  | IE_Merkle (e : MerkleError)
  | IE_Bitmap (e : BitmapError)
  | IE_Term (e : TermError)
  | Corruption (why : string)
  | IE_RootMismatch
  | ConflictingContent.

Inductive BranchError : Type :=
  | HandleInvalid
  | Conflict
  | Sealed
  | CommitNumberExhausted
  | RootsCellExists
  | BE_Cells (e : CellError)
  | BE_Index (e : IndexError)
  | BE_Term (e : TermError)
  | MissingHead
  | InvalidHead (actual : nat)
  | BranchNumberExhausted
  | BE_Poisoned (lock : string)
  | BE_Storage (e : StorageError)
  | BE_Key (e : CellKeyError)
  | BE_Value (e : CellValueParseError)
  | NoFrameToRollback.

(** * Working state *)

(** [Entries]: [None] is a tombstone. *)
Abbreviation Entries := (gmap CellKey (option CellValue)).

(** The rows hold exactly the cells [O]. *)
Definition decoded (rows : Rows) (O : gmap CellKey CellValue) : Prop :=
  (forall k v, O !! k = Some v -> CellKey_wf k /\ CellValue_wf v) /\
  (forall kb vb, rows !! kb = Some vb <-> exists k v, O !! k = Some v /\ kb = CellKey_encode k /\ vb = cv_bytes v).
