(* ===== verification/CellScan.v ===== *)
(** The merged cell scan of a branch: crates/branch/src/scan.rs.

    [CellScan] merges the committed rows under an encoded key prefix with the
    staged entries in the same range; staged values win and tombstones hide
    committed rows. The map-entry range is a list of the remaining entries. *)
From Stdlib Require Import ZArith Lia.
From S2P Require Import Prelude Ordered Storage Scan CellTypes CellValue CellName MerkleNode Samples BranchTypes.

#[local] Open Scope Z_scope.

(** * The iterator *)

Section CellScan.
Context {T : Type} `{ReadTransaction T}.

(** [Peekable<Scan<C>>] *)
Record Peekable := { pk_iter : Scan T; pk_peeked : option (option (res StorageError Entry)) }.

Definition Peekable_peek (p : Peekable) : option (res StorageError Entry) * Peekable :=
  match pk_peeked p with
  | Some item => (item, p)
  | None => let '(item, s) := Scan_next (pk_iter p) in (item, {| pk_iter := s; pk_peeked := Some item |})
  end.

Definition Peekable_next (p : Peekable) : option (res StorageError Entry) * Peekable :=
  match pk_peeked p with
  | Some item => (item, {| pk_iter := pk_iter p; pk_peeked := None |})
  | None => let '(item, s) := Scan_next (pk_iter p) in (item, {| pk_iter := s; pk_peeked := None |})
  end.

Record CellScan := {
  cs_origin : Peekable;
  cs_overlay : list (CellKey * option CellValue);
  cs_done : bool
}.

(** [lower_key]: zero padding to the eight-byte minimum of a cell key *)
Definition lower_key (l : bytes) : res BranchError CellKey :=
  match CellKey_decode (l ++ replicate (8 - length l) x00) with
  | Ok k => Ok k
  | _ => Panic
  end.

(** The first byte string after every one that has the prefix. *)
Definition successor (prefix : bytes) : option bytes :=
  match rposition (fun b => negb (u8 b =? 255)) prefix with
  | Some index => Some (take index prefix ++ ((fun b => byte_of (u8 b + 1)) <$> option_list (prefix !! index)))
  | None => None
  end.

(** [CellScan::new] *)
Definition CellScan_new (origin : T) (staged : Entries) (prefix : bytes) : res BranchError CellScan :=
  first ← lower_key prefix;
  end_ ← match successor prefix with
         | Some next => key ← lower_key next; Ok (Excluded key)
         | None => Ok Unbounded
         end;
  scan ← map_err BE_Storage (scan_prefix origin CELL prefix);
  Ok {| cs_origin := {| pk_iter := scan; pk_peeked := None |};
        cs_overlay := range (Included first) end_ staged;
        cs_done := false |}.

(** [advance]: every turn of the loop takes a staged entry. *)
Fixpoint advance_loop (origin : Peekable) (overlay : list (CellKey * option CellValue))
    : res BranchError (option (CellKey * CellValue)) * (Peekable * list (CellKey * option CellValue)) :=
  let '(item, origin) := Peekable_peek origin in
  let less :=
    match Peekable_next origin with
    | (Some (Ok (key, value)), origin) =>
        (key ← map_err BE_Key (CellKey_decode key);
         value ← map_err BE_Value (CellValue_parse value);
         Ok (Some (key, value)), (origin, overlay))
    | (Some (Err e), origin) => (Err (BE_Storage e), (origin, overlay))
    | (_, origin) => (Panic, (origin, overlay))
    end in
  match item, overlay with
  | Some (Err _), _ =>
      match Peekable_next origin with
      | (Some (Err e), origin) => (Err (BE_Storage e), (origin, overlay))
      | (_, origin) => (Panic, (origin, overlay))
      end
  | Some (Ok _), [] => less
  | Some (Ok (key, _)), (overlay_key, value) :: rest =>
      match cmp key (CellKey_encode overlay_key) with
      | Lt => less
      | order =>
          let origin := if bool_decide (order = Eq) then (Peekable_next origin).2 else origin in
          match value with
          | Some value => (Ok (Some (overlay_key, value)), (origin, rest))
          | None => advance_loop origin rest
          end
      end
  | None, (overlay_key, value) :: rest =>
      match value with
      | Some value => (Ok (Some (overlay_key, value)), (origin, rest))
      | None => advance_loop origin rest
      end
  | None, [] => (Ok None, (origin, overlay))
  | Some Panic, _ => (Panic, (origin, overlay))
  | Some Diverge, _ => (Diverge, (origin, overlay))
  end.

(** [Iterator::next] *)
Definition CellScan_next (s : CellScan) : option (res BranchError (CellKey * CellValue)) * CellScan :=
  if cs_done s then (None, s)
  else
    let '(r, (origin, overlay)) := advance_loop (cs_origin s) (cs_overlay s) in
    match r with
    | Ok (Some row) => (Some (Ok row), {| cs_origin := origin; cs_overlay := overlay; cs_done := false |})
    | Ok None => (None, {| cs_origin := origin; cs_overlay := overlay; cs_done := true |})
    | Err e => (Some (Err e), {| cs_origin := origin; cs_overlay := overlay; cs_done := true |})
    | Panic => (Some Panic, {| cs_origin := origin; cs_overlay := overlay; cs_done := false |})
    | Diverge => (Some Diverge, {| cs_origin := origin; cs_overlay := overlay; cs_done := false |})
    end.

(** [collect::<Result<Vec<_>>>] *)
Fixpoint CellScan_collect (fuel : nat) (s : CellScan) : res BranchError (list (CellKey * CellValue)) :=
  match fuel with
  | O => Diverge
  | S fuel' =>
      match CellScan_next s with
      | (None, _) => Ok []
      | (Some (Ok row), s') => rows ← CellScan_collect fuel' s'; Ok (row :: rows)
      | (Some (Err e), _) => Err e
      | (Some Panic, _) => Panic
      | (Some Diverge, _) => Diverge
      end
  end.
End CellScan.
Arguments CellScan T {_}.
Arguments Peekable T {_}.

(** * The range of staged entries *)

Lemma rposition_snoc {A} (f : A -> bool) l x :
  rposition f (l ++ [x]) = if f x then Some (length l) else rposition f l.
Proof.
  unfold rposition. rewrite length_app. cbn [length]. rewrite seq_app, filter_app. cbn [seq Nat.add].
  replace (filter (fun i => (f <$> (l ++ [x]) !! i) = Some true) (seq 0 (length l)))
    with (filter (fun i => (f <$> l !! i) = Some true) (seq 0 (length l))).
  - rewrite filter_cons, list_lookup_middle by done. cbn [fmap option_fmap option_map]. destruct (f x).
    + rewrite decide_True by done. apply last_snoc.
    + rewrite decide_False by done. by rewrite filter_nil, app_nil_r.
  - apply filter_ext_in. intros i Hi. rewrite lookup_app_l; [done|]. apply elem_of_seq in Hi. lia.
Qed.

(** Of the keys from a prefix on, those below its successor are the ones that
    have it. *)
Lemma successor_spec p k : kle p k ->
  match successor p with Some next => klt k next | None => True end <-> p `prefix_of` k.
Proof.
  induction p as [|b q IH] using rev_ind; intros Hle; [split; [intros _; apply prefix_nil|done]|].
  unfold successor. rewrite rposition_snoc. destruct (Z.eqb_spec (u8 b) 255) as [E|E]; cbn [negb].
  - assert (kle q k) as Hq by (etrans; [|exact Hle]; apply prefix_kle; by apply prefix_app_r).
    specialize (IH Hq). unfold successor in IH. destruct (rposition _ q) as [i|] eqn:Ei.
    + assert (i < length q)%nat as Hi.
      { unfold rposition in Ei. apply last_Some_elem_of, list_elem_of_filter in Ei as [_ Hi]. apply elem_of_seq in Hi. lia. }
      rewrite take_app_le, lookup_app_l by lia. rewrite IH. apply last_byte_max; [lia|done].
    + rewrite IH. apply last_byte_max; [lia|done].
  - rewrite take_app_length, list_lookup_middle by done. cbn [option_list fmap list_fmap]. apply next_after; [|done].
    pose proof (u8_range b). lia.
Qed.

Lemma zeros_kle n (k : bytes) : (n <= length k)%nat -> kle (replicate n x00) k.
Proof.
  revert k. induction n as [|n IH]; intros k Hk; [apply bytes_le_nil|]. destruct k as [|c k]; [cbn in Hk; lia|].
  cbn [replicate]. apply bytes_le_cons. destruct (decide (x00 = c)) as [<-|Hne]; [right; split; [done|]; apply IH; cbn in Hk; lia|].
  left. unfold klt, cmp, byte_ordered. rewrite Z.compare_lt_iff. pose proof (u8_range c).
  assert (u8 c <> u8 x00) by (intros E; apply Hne; by apply (inj u8)). change (u8 x00) with 0 in *. lia.
Qed.

(** Padding a bound to the minimum width does not change which keys it admits. *)
Lemma pad_kle (l k : bytes) : (8 <= length k)%nat -> kle (l ++ replicate (8 - length l) x00) k <-> kle l k.
Proof.
  intros Hk. split.
  - intros Hle. etrans; [|exact Hle]. by apply prefix_kle, prefix_app_r.
  - intros Hle. assert (8 - length l <= length k - length l)%nat as Hn by lia. clear Hk.
    generalize dependent (8 - length l)%nat. intros n Hn. revert k Hle Hn. induction l as [|a l IH]; intros k Hle Hn.
    + cbn in *. apply zeros_kle. lia.
    + destruct k as [|c k]; [done|]. cbn [app]. apply bytes_le_cons in Hle as [|[-> Hle]]; apply bytes_le_cons; [by left|].
      right. split; [done|]. apply IH; [done|]. cbn in Hn. lia.
Qed.

Lemma length_CellKey_encode k : (8 <= length (CellKey_encode k))%nat.
Proof. unfold CellKey_encode, CellKey_encode_into. cbn [app]. rewrite length_app, length_be_encode. lia. Qed.

Lemma kle_encode k1 k2 : CellKey_wf k1 -> CellKey_wf k2 -> kle (CellKey_encode k1) (CellKey_encode k2) <-> kle k1 k2.
Proof. intros. unfold kle. by rewrite CellKey_cmp_encode. Qed.
Lemma klt_encode k1 k2 : CellKey_wf k1 -> CellKey_wf k2 -> klt (CellKey_encode k1) (CellKey_encode k2) <-> klt k1 k2.
Proof. intros. unfold klt. by rewrite CellKey_cmp_encode. Qed.

Lemma lower_key_ok l : exists k, lower_key l = Ok k /\ CellKey_wf k /\
  forall k', CellKey_wf k' -> kle k k' <-> kle l (CellKey_encode k').
Proof.
  unfold lower_key. destruct (CellKey_decode (l ++ replicate (8 - length l) x00)) as [k| | |] eqn:E.
  - apply CellKey_encode_decode in E as [Ek Hk]. exists k. split_and!; [done..|]. intros k' Hk'.
    rewrite <- kle_encode by done. rewrite Ek. apply pad_kle, length_CellKey_encode.
  - unfold CellKey_decode in E. rewrite length_app, length_replicate in E. destruct (Nat.ltb_spec (length l + (8 - length l)) 8); [lia|done].
  - unfold CellKey_decode in E. by destruct (_ <? _)%nat.
  - unfold CellKey_decode in E. by destruct (_ <? _)%nat.
Qed.

(** The staged entries a scan of [prefix] visits. *)
Definition staged_under (prefix : bytes) (staged : Entries) : list (CellKey * option CellValue) :=
  filter (fun kv => starts_with (CellKey_encode kv.1) prefix = true) (entries staged).

Lemma staged_range prefix (staged : Entries) first last :
  (forall k v, staged !! k = Some v -> CellKey_wf k) ->
  (forall k', CellKey_wf k' -> kle first k' <-> kle prefix (CellKey_encode k')) ->
  match successor prefix with
  | Some next => exists k, last = Excluded k /\ forall k', CellKey_wf k' -> kle k k' <-> kle next (CellKey_encode k')
  | None => last = Unbounded
  end ->
  range (Included first) last staged = staged_under prefix staged.
Proof.
  intros Hwf Hfirst Hlast. unfold range, staged_under. apply filter_ext_in. intros [k v] Hin. cbn [fst].
  apply elem_of_entries in Hin. apply Hwf in Hin. rewrite andb_true_iff. cbn [above]. rewrite leb_kle, Hfirst by done.
  unfold starts_with. rewrite bool_decide_eq_true. split.
  - intros [Hle Hb]. apply successor_spec; [done|]. destruct (successor prefix) as [next|]; [|done].
    destruct Hlast as (k0 & -> & Hk0). cbn [below] in Hb. rewrite ltb_klt in Hb. apply not_kle. intros Hc.
    apply (Hk0 k Hin) in Hc. by apply not_kle in Hb.
  - intros Hp. pose proof (prefix_kle _ _ Hp) as Hle. split; [done|]. apply (successor_spec _ _ Hle) in Hp.
    destruct (successor prefix) as [next|]; [|by rewrite Hlast].
    destruct Hlast as (k0 & -> & Hk0). cbn [below]. rewrite ltb_klt. apply not_kle. intros Hc%(Hk0 k Hin). by apply not_kle in Hp.
Qed.

(** * What a scan yields *)

Section Spec.
Context {T : Type} `{ReadTransaction T}.

(** A scan that yields the rows [L] and ends. *)
Definition yields (s : Scan T) (L : list Entry) : Prop := exists fuel, Scan_collect fuel s = Ok L.

Lemma yields_step s L : yields s L ->
  match L with
  | [] => exists s', Scan_next s = (None, s')
  | row :: rest => exists s', Scan_next s = (Some (Ok row), s') /\ yields s' rest
  end.
Proof.
  intros [fuel Hc]. destruct fuel as [|fuel]; [done|]. cbn [Scan_collect] in Hc.
  destruct (Scan_next s) as [[[row|e| |]|] s']; try done.
  - apply res_bind_ok in Hc as (rows & Hr & [= <-]). eexists. split; [done|]. by exists fuel.
  - injection Hc as <-. by eexists.
Qed.

Definition pk_yields (p : Peekable T) (L : list Entry) : Prop :=
  match pk_peeked p with
  | None => yields (pk_iter p) L
  | Some None => L = []
  | Some (Some (Ok row)) => exists rest, L = row :: rest /\ yields (pk_iter p) rest
  | _ => False
  end.

Lemma peek_yields p L : pk_yields p L -> exists p',
  Peekable_peek p = (match L with [] => None | row :: _ => Some (Ok row) end, p') /\ pk_yields p' L /\
  (forall row rest, L = row :: rest -> exists p'', Peekable_next p' = (Some (Ok row), p'') /\ pk_yields p'' rest).
Proof.
  unfold pk_yields, Peekable_peek, Peekable_next. destruct p as [s [[[row|e| |]|]|]]; cbn [pk_peeked pk_iter]; try done.
  - intros (rest & -> & Hs). eexists. split; [done|]. cbn. split; [by eexists|]. intros row' rest' [= <- <-]. by eexists.
  - intros ->. eexists. split; [done|]. done.
  - intros Hs. apply yields_step in Hs. destruct L as [|row rest].
    + destruct Hs as [s' ->]. eexists. split; [done|]. done.
    + destruct Hs as (s' & -> & Hs). eexists. split; [done|]. cbn. split; [by eexists|].
      intros row' rest' [= <- <-]. by eexists.
Qed.
End Spec.

(** Committed rows as cells. *)
Definition row_of (c : CellKey * CellValue) : Entry := (CellKey_encode c.1, cv_bytes c.2).

(** ** Merging, on lists *)

Definition staged_cons (k : CellKey) (o : option CellValue) (l : list (CellKey * CellValue)) : list (CellKey * CellValue) :=
  match o with Some v => (k, v) :: l | None => l end.

Fixpoint merge_cells (A : list (CellKey * CellValue)) : list (CellKey * option CellValue) -> list (CellKey * CellValue) :=
  fix go (B : list (CellKey * option CellValue)) :=
    match A, B with
    | [], [] => []
    | _, [] => A
    | [], (k, o) :: B' => staged_cons k o (go B')
    | (ka, v) :: A', (k, o) :: B' =>
        match cmp ka k with
        | Lt => (ka, v) :: merge_cells A' B
        | Eq => staged_cons k o (merge_cells A' B')
        | Gt => staged_cons k o (go B')
        end
    end.

Lemma merge_nil_r A : merge_cells A [] = A.
Proof. by destruct A as [|[? ?] ?]. Qed.

Lemma merge_cons ka v A k o B : merge_cells ((ka, v) :: A) ((k, o) :: B) =
  match cmp ka k with
  | Lt => (ka, v) :: merge_cells A ((k, o) :: B)
  | Eq => staged_cons k o (merge_cells A B)
  | Gt => staged_cons k o (merge_cells ((ka, v) :: A) B)
  end.
Proof. done. Qed.

Lemma merge_nil_l k o B : merge_cells [] ((k, o) :: B) = staged_cons k o (merge_cells [] B).
Proof. done. Qed.

Section Merge.
Context {T : Type} `{ReadTransaction T}.

Lemma advance_merge (B : list (CellKey * option CellValue)) (A : list (CellKey * CellValue)) (p : Peekable T) :
  pk_yields p (row_of <$> A) ->
  Forall (fun c => CellKey_wf c.1 /\ CellValue_wf c.2) A -> Forall (fun c => CellKey_wf c.1) B ->
  exists p' A' B', advance_loop p B = (Ok (head (merge_cells A B)), (p', B')) /\
    pk_yields p' (row_of <$> A') /\ merge_cells A' B' = tail (merge_cells A B) /\
    Forall (fun c => CellKey_wf c.1 /\ CellValue_wf c.2) A' /\ Forall (fun c => CellKey_wf c.1) B'.
Proof.
  revert A p. induction B as [|[kb o] B IH]; intros A p Hp HA HB; cbn [advance_loop];
    destruct (peek_yields p _ Hp) as (p1 & -> & Hp1 & Hnext); (destruct A as [|[ka v] A]; cbn [fmap list_fmap row_of fst snd]).
  - exists p1, [], []. done.
  - rewrite merge_nil_r. destruct (Hnext (CellKey_encode ka, cv_bytes v) _ eq_refl) as (p2 & -> & Hp2). apply Forall_cons in HA as [[Hk Hv] HA].
    cbn [fst snd] in *. exists p2, A, []. rewrite CellKey_decode_encode, Hv, merge_nil_r by done. done.
  - apply Forall_cons in HB as [Hkb HB]. rewrite merge_nil_l. destruct o as [v|]; cbn [staged_cons head tail].
    + exists p1, [], B. done.
    + destruct (IH [] p1 Hp1 (Forall_nil_2 _) HB) as (p2 & A' & B' & E & ?). by exists p2, A', B'.
  - destruct (Hnext (CellKey_encode ka, cv_bytes v) _ eq_refl) as (p2 & E2 & Hp2). pose proof HA as HA0. apply Forall_cons in HA0 as [[Hk Hv] HA'].
    pose proof HB as HB0. apply Forall_cons in HB0 as [Hkb HB']. cbn [fst snd] in *.
    rewrite CellKey_cmp_encode, merge_cons by done. destruct (cmp ka kb) eqn:Ec.
    + rewrite bool_decide_true, E2 by done. cbn [snd]. destruct o as [w|]; cbn [staged_cons head tail].
      * by exists p2, A, B.
      * destruct (IH A p2 Hp2 HA' HB') as (p3 & A' & B' & E & ?). by exists p3, A', B'.
    + rewrite E2, CellKey_decode_encode, Hv by done. exists p2, A, ((kb, o) :: B). done.
    + rewrite bool_decide_false by done. destruct o as [w|]; cbn [staged_cons head tail].
      * by exists p1, ((ka, v) :: A), B.
      * destruct (IH ((ka, v) :: A) p1 Hp1 HA HB') as (p3 & A' & B' & E & ?). by exists p3, A', B'.
Qed.

Lemma collect_merge fuel (s : CellScan T) A : cs_done s = false ->
  pk_yields (cs_origin s) (row_of <$> A) ->
  Forall (fun c => CellKey_wf c.1 /\ CellValue_wf c.2) A -> Forall (fun c => CellKey_wf c.1) (cs_overlay s) ->
  (length (merge_cells A (cs_overlay s)) < fuel)%nat ->
  CellScan_collect fuel s = Ok (merge_cells A (cs_overlay s)).
Proof.
  revert s A. induction fuel as [|fuel IH]; intros s A Hd Hp HA HB Hf; [lia|]. cbn [CellScan_collect].
  unfold CellScan_next. rewrite Hd. destruct (advance_merge (cs_overlay s) A _ Hp HA HB) as (p' & A' & B' & -> & Hp' & Hm & HA' & HB').
  destruct (merge_cells A (cs_overlay s)) as [|row rest]; cbn [head tail] in *; [done|].
  rewrite (IH {| cs_origin := p'; cs_overlay := B'; cs_done := false |} A'); cbn [cs_done cs_origin cs_overlay]; try done.
  - by rewrite Hm.
  - rewrite Hm. cbn in Hf. lia.
Qed.
End Merge.

(** The merged list is sorted, and holds the staged cells and the committed
    cells no staged entry shadows. *)
Lemma merge_elem A B k v : StronglySorted klt A.*1 -> StronglySorted klt B.*1 ->
  (k, v) ∈ merge_cells A B <-> (k, Some v) ∈ B \/ (k, v) ∈ A /\ k ∉ B.*1.
Proof.
  revert B. induction A as [|[ka va] A IHA]; intros B HA HB.
  - induction B as [|[kb o] B IH]; [set_solver|]. rewrite merge_nil_l. apply StronglySorted_inv in HB as [HB _].
    destruct o; cbn [staged_cons]; rewrite ?elem_of_cons, (IH HB); set_solver.
  - induction B as [|[kb o] B IH]; [rewrite merge_nil_r; set_solver|]. rewrite merge_cons.
    rewrite fmap_cons in HA. rewrite fmap_cons in HB. pose proof HA as HA0. apply StronglySorted_inv in HA0 as [HA' HAlt]. pose proof HB as HB0. apply StronglySorted_inv in HB0 as [HB' HBlt].
    cbn [fst] in *. rewrite Forall_forall in HAlt, HBlt.
    assert (forall x w, (x, w) ∈ A -> klt ka x) as HAk by (intros x w Hx; apply HAlt, list_elem_of_fmap; by exists (x, w)).
    destruct (cmp ka kb) eqn:Ec.
    + apply cmp_eq in Ec as ->. assert ((k, v) ∈ staged_cons kb o (merge_cells A B) <->
        (o = Some v /\ k = kb) \/ (k, v) ∈ merge_cells A B) as -> by (destruct o; cbn; rewrite ?elem_of_cons; naive_solver).
      rewrite (IHA B HA' HB'), fmap_cons, !elem_of_cons. split; [|naive_solver].
      intros [[-> ->]|[?|[Hin Hnot]]]; [naive_solver..|]. right. split; [naive_solver|].
      intros [->|?]; [|done]. by apply HAk, klt_irrefl in Hin.
    + rewrite elem_of_cons, (IHA ((kb, o) :: B) HA' HB), fmap_cons, !elem_of_cons. cbn [fst]. split; [|naive_solver].
      intros [[= -> ->]|[?|[? ?]]]; [|naive_solver..]. right. split; [naive_solver|].
      intros [->|Hin]; [by apply klt_irrefl in Ec|]. apply HBlt in Hin. apply (klt_irrefl ka). by transitivity kb.
    + assert (klt kb ka) as Hlt by (unfold klt; rewrite cmp_sym, Ec; done).
      assert ((k, v) ∈ staged_cons kb o (merge_cells ((ka, va) :: A) B) <->
        (o = Some v /\ k = kb) \/ (k, v) ∈ merge_cells ((ka, va) :: A) B) as -> by (destruct o; cbn; rewrite ?elem_of_cons; naive_solver).
      rewrite (IH HB'), fmap_cons, !elem_of_cons. cbn [fst]. split; [|naive_solver].
      intros [[-> ->]|[?|[Hin Hnot]]]; [naive_solver..|]. right. split; [done|].
      intros [->|?]; [|done]. destruct Hin as [[= -> ->]|Hin]; [by apply klt_irrefl in Hlt|].
      apply HAk in Hin. apply (klt_irrefl kb). by transitivity ka.
Qed.

Lemma merge_bound x A B : StronglySorted klt A.*1 -> StronglySorted klt B.*1 ->
  Forall (klt x) A.*1 -> Forall (klt x) B.*1 -> Forall (klt x) (merge_cells A B).*1.
Proof.
  intros HA HB HxA HxB. rewrite !Forall_forall in *. intros k Hk. apply list_elem_of_fmap in Hk as ([k' v] & -> & Hin). cbn.
  apply merge_elem in Hin as [Hin|[Hin _]]; [| |done|done].
  - apply HxB, list_elem_of_fmap. by exists (k', Some v).
  - apply HxA, list_elem_of_fmap. by exists (k', v).
Qed.

Lemma staged_cons_sorted k o l : StronglySorted klt l.*1 -> Forall (klt k) l.*1 -> StronglySorted klt (staged_cons k o l).*1.
Proof. intros. destruct o; [by constructor|done]. Qed.

Lemma merge_sorted A B : StronglySorted klt A.*1 -> StronglySorted klt B.*1 -> StronglySorted klt (merge_cells A B).*1.
Proof.
  revert B. induction A as [|[ka va] A IHA]; intros B HA HB.
  - induction B as [|[kb o] B IH]; [constructor|]. rewrite merge_nil_l. rewrite fmap_cons in HB. apply StronglySorted_inv in HB as [HB Hlt].
    apply staged_cons_sorted; [by apply IH|]. by apply merge_bound.
  - induction B as [|[kb o] B IH]; [by rewrite merge_nil_r|]. rewrite merge_cons.
    pose proof HA as HA0. rewrite fmap_cons in HA0. apply StronglySorted_inv in HA0 as [HA' HAlt].
    pose proof HB as HB0. rewrite fmap_cons in HB0. apply StronglySorted_inv in HB0 as [HB' HBlt]. cbn [fst] in *.
    assert (forall a b (l : list CellKey), klt a b -> Forall (klt b) l -> Forall (klt a) l) as Hmono.
    { intros a b l Hab Hl. eapply Forall_impl; [exact Hl|]. intros c Hc. by transitivity b. }
    destruct (cmp ka kb) eqn:Ec.
    + apply cmp_eq in Ec as ->. apply staged_cons_sorted; [by apply IHA|]. by apply merge_bound.
    + rewrite fmap_cons. constructor; [by apply IHA|]. apply merge_bound; [done..|]. rewrite fmap_cons. constructor; [done|]. by apply (Hmono _ kb).
    + assert (klt kb ka) as Hlt by (unfold klt; rewrite cmp_sym, Ec; done).
      apply staged_cons_sorted; [by apply IH|]. apply merge_bound; [done..| |done]. rewrite fmap_cons. constructor; [done|]. by apply (Hmono _ ka).
Qed.

(** ** The working state: committed cells under the staged entries *)

Definition working (O : gmap CellKey CellValue) (staged : Entries) : gmap CellKey CellValue :=
  merge (fun committed staged => match staged with Some o => o | None => committed end) O staged.

Lemma lookup_working O staged k : working O staged !! k = match staged !! k with Some o => o | None => O !! k end.
Proof. unfold working. rewrite lookup_merge. by destruct (O !! k), (staged !! k). Qed.

(** Cells under an encoded key prefix, in key order. *)
Definition cells_under (prefix : bytes) (O : gmap CellKey CellValue) : list (CellKey * CellValue) :=
  filter (fun kv => starts_with (CellKey_encode kv.1) prefix = true) (entries O).

Lemma cells_rows prefix rows O : decoded rows O -> prefix_rows prefix rows = row_of <$> cells_under prefix O.
Proof.
  intros [Hwf Hrows]. apply sorted_rows_unique.
  - apply filter_rows_sorted, entries_sorted.
  - assert (forall l, Forall (fun c => CellKey_wf c.1) l -> StronglySorted klt l.*1 -> StronglySorted klt (row_of <$> l).*1) as Hs.
    { induction l as [|c l IH]; intros Hw Hl; [constructor|]. rewrite fmap_cons in Hl. apply StronglySorted_inv in Hl as [Hl Hc].
      apply Forall_cons in Hw as [Hcw Hw]. rewrite !fmap_cons. constructor; [by apply IH|]. apply Forall_forall.
      intros k Hk. apply list_elem_of_fmap in Hk as (y & -> & Hy). apply list_elem_of_fmap in Hy as (d & -> & Hd).
      cbn. apply klt_encode; [done|exact (proj1 (Forall_forall _ _) Hw d Hd)|].
      apply (proj1 (Forall_forall _ _) Hc), list_elem_of_fmap. by exists d. }
    apply Hs; [|apply filter_rows_sorted, entries_sorted]. apply Forall_forall. intros [k v] [_ Hin]%list_elem_of_filter.
    apply elem_of_entries in Hin. cbn. by apply Hwf in Hin as [? _].
  - intros kb vb. unfold prefix_rows. rewrite list_elem_of_filter, elem_of_entries, list_elem_of_fmap. cbn [fst]. rewrite Hrows. split.
    + intros (Hp & k & v & HO & -> & ->). exists (k, v). split; [done|]. apply list_elem_of_filter. split; [done|]. by apply elem_of_entries.
    + intros ([k v] & [= -> ->] & [Hp Hin]%list_elem_of_filter). split; [done|]. apply elem_of_entries in Hin. by exists k, v.
Qed.

Lemma merge_under prefix O (staged : Entries) :
  merge_cells (cells_under prefix O) (staged_under prefix staged) = cells_under prefix (working O staged).
Proof.
  apply sorted_rows_unique.
  - apply merge_sorted; apply filter_rows_sorted, entries_sorted.
  - apply filter_rows_sorted, entries_sorted.
  - intros k v. rewrite merge_elem by apply filter_rows_sorted, entries_sorted.
    unfold cells_under, staged_under. rewrite !list_elem_of_filter, !elem_of_entries, lookup_working. cbn [fst].
    assert (k ∈ (filter (fun kv => starts_with (CellKey_encode kv.1) prefix = true) (entries staged)).*1 <->
      starts_with (CellKey_encode k) prefix = true /\ is_Some (staged !! k)) as ->.
    { rewrite list_elem_of_fmap. split.
      - intros ([k' o] & -> & [Hp Hin%elem_of_entries]%list_elem_of_filter). cbn in *. eauto.
      - intros [Hp [o Ho]]. exists (k, o). split; [done|]. apply list_elem_of_filter. split; [done|]. by apply elem_of_entries. }
    destruct (staged !! k) as [o|] eqn:E.
    2:{ split; [intros [[_ ?]|[? _]]; done|]. intros Hv. right. split; [done|]. by intros [_ [? ?]]. }
    split.
    + intros [[? [= ->]]|[[Hp _] Hn]]; [done|]. exfalso. apply Hn. split; [done|by eexists].
    + intros [Hp ->]. left. done.
Qed.

Section Working.
Context {T : Type} `{ReadLaws T}.

Lemma merged_scan_ok (origin : T) (O : gmap CellKey CellValue) (staged : Entries) (prefix : bytes) :
  decoded (view origin CELL) O -> (forall k o, staged !! k = Some o -> CellKey_wf k) ->
  exists s, CellScan_new origin staged prefix = Ok s /\
    forall fuel, (length (cells_under prefix (working O staged)) < fuel)%nat ->
      CellScan_collect fuel s = Ok (cells_under prefix (working O staged)).
Proof.
  intros Hdec Hst. unfold CellScan_new. destruct (lower_key_ok prefix) as (first & -> & Hfw & Hfirst).
  assert (exists last, match successor prefix with Some next => key ← lower_key next; Ok (Excluded key) | None => Ok Unbounded end
    = Ok last /\ match successor prefix with
      | Some next => exists k, last = Excluded k /\ forall k', CellKey_wf k' -> kle k k' <-> kle next (CellKey_encode k')
      | None => last = Unbounded
      end) as (last & Elast & Hlast).
  { destruct (successor prefix) as [next|]; [|by eexists]. destruct (lower_key_ok next) as (k & -> & _ & Hk). eexists. split; [done|]. by exists k. }
  destruct (scan_prefix_collect origin CELL prefix table_ok_CELL) as (sc & Esc & Hsc).
  unfold mbind, res_mbind in *. rewrite Elast, Esc. cbn [map_err]. eexists. split; [done|]. intros fuel Hf.
  rewrite (staged_range prefix staged first last Hst Hfirst Hlast). rewrite <- merge_under in *.
  apply collect_merge; cbn [cs_done cs_origin cs_overlay]; [done| | | |done].
  - cbn. exists (S (size (view origin CELL))). rewrite Hsc by lia. by rewrite (cells_rows prefix _ O).
  - apply Forall_forall. intros [k v] [_ Hin%elem_of_entries]%list_elem_of_filter. by apply Hdec in Hin.
  - apply Forall_forall. intros [k v] [_ Hin%elem_of_entries]%list_elem_of_filter. by apply Hst in Hin.
Qed.
End Working.

(** * Properties *)

(** C15. The merged scan reads the working state: over a store whose cell rows
    hold the cells [O], scanning an encoded key prefix yields, in key order and
    without error, exactly the cells of the branch with that prefix, where a
    staged value replaces the committed one and a tombstone hides it. The
    prefix may be any bytes, shorter or longer than a record ID. *)
Theorem merged_scan_is_working_state {T : Type} `{ReadLaws T} (origin : T) (O : gmap CellKey CellValue)
    (staged : Entries) (prefix : bytes) :
  decoded (view origin CELL) O -> (forall k o, staged !! k = Some o -> CellKey_wf k) ->
  exists s, CellScan_new origin staged prefix = Ok s /\
    forall fuel, (length (cells_under prefix (working O staged)) < fuel)%nat ->
      CellScan_collect fuel s = Ok (cells_under prefix (working O staged)).
Proof. apply merged_scan_ok. Qed.

Definition sample_staged : Entries :=
  <[ {| ck_record_id := 7; ck_name := [x61] |} := Some (from_bool true) ]>
    {[ {| ck_record_id := 7; ck_name := [x62] |} := None ]}.

Lemma merged_scan_is_working_state_witness :
  exists s, CellScan_new tx0 sample_staged (be_encode 8 7) = Ok s /\
    CellScan_collect 2 s = Ok [({| ck_record_id := 7; ck_name := [x61] |}, from_bool true)].
Proof.
  destruct (merged_scan_is_working_state tx0 ∅ sample_staged (be_encode 8 7)) as (s & Hs & Hc).
  - split; [done|]. intros kb vb. split; [done|]. by intros (? & ? & ? & _).
  - intros k o Hk. unfold sample_staged in Hk. apply lookup_insert_Some in Hk as [[<- _]|[_ Hk]]; [done|].
    by apply lookup_singleton_Some in Hk as [<- _].
  - exists s. split; [exact Hs|]. exact (Hc 2%nat ltac:(by vm_compute; repeat constructor)).
Defined.
