(* ===== verification/Overlay.v ===== *)
(** The cell overlay of a branch and its undo journal:
    crates/branch/src/{journal,overlay,error,types}.rs.

    The journal keeps the inverse of every write and the undo length at which
    each frame started; vectors used as stacks are lists with the top first. The
    abstract machine [Frames] keeps whole copies of the staged entries instead;
    [ov_rel] is the simulation between the two. *)
From Stdlib Require Import ZArith Lia.
From S2P Require Import Prelude Ordered Storage Scan CellTypes CellValue CellName MerkleNode BranchTypes CellScan.

(** * The journal: journal.rs *)

Record UndoEntry := { ue_key : CellKey; ue_previous : option (option CellValue) }.

Record WriteMark := { wm_undo_len : nat; wm_rolled_back : bool }.

Record Journal := { j_undo : list UndoEntry; j_frames : list nat; j_rolled_back : bool }.

(** [Journal::default] *)
Definition Journal_default : Journal := {| j_undo := []; j_frames := [0]; j_rolled_back := false |}.

Definition Journal_version (j : Journal) : Z := Z.of_nat (length (j_undo j)).

Definition Journal_mark (j : Journal) : WriteMark :=
  {| wm_undo_len := length (j_undo j); wm_rolled_back := j_rolled_back j |}.

(** [record] *)
Definition Journal_record (j : Journal) (entries : Entries) (key : CellKey) (value : option CellValue)
    : Journal * Entries :=
  if bool_decide (entries !! key = Some value) then
    ({| j_undo := j_undo j; j_frames := j_frames j; j_rolled_back := false |}, entries)
  else
    ({| j_undo := {| ue_key := key; ue_previous := entries !! key |} :: j_undo j;
        j_frames := j_frames j; j_rolled_back := false |}, <[key := value]> entries).

Definition Journal_checkpoint (j : Journal) : Journal :=
  {| j_undo := j_undo j;
     j_frames := if j_rolled_back j then j_frames j else length (j_undo j) :: j_frames j;
     j_rolled_back := false |}.

(** The inverse of one write. *)
Definition undo_one (u : UndoEntry) (entries : Entries) : Entries :=
  match ue_previous u with
  | Some value => <[ue_key u := value]> entries
  | None => delete (ue_key u) entries
  end.

(** [undo_to] *)
Fixpoint undo_to (undo : list UndoEntry) (entries : Entries) (mark : nat) : list UndoEntry * Entries :=
  match undo with
  | [] => ([], entries)
  | u :: rest =>
      if (mark <? length undo)%nat then undo_to rest (undo_one u entries) mark
      else (undo, entries)
  end.

(** [rollback]: a journal always has a frame, so [last().unwrap()] is safe. *)
Definition Journal_rollback (j : Journal) (entries : Entries) : res BranchError unit * (Journal * Entries) :=
  let frames :=
    if j_rolled_back j then
      if (length (j_frames j) =? 1)%nat then None else Some (tail (j_frames j))
    else Some (j_frames j) in
  match frames with
  | None => (Err NoFrameToRollback, (j, entries))
  | Some [] => (Panic, (j, entries))
  | Some (mark :: rest) =>
      let '(undo, entries) := undo_to (j_undo j) entries mark in
      (Ok (), ({| j_undo := undo; j_frames := mark :: rest; j_rolled_back := true |}, entries))
  end.

Definition Journal_rewind (j : Journal) (entries : Entries) (mark : WriteMark) : Journal * Entries :=
  let '(undo, entries) := undo_to (j_undo j) entries (wm_undo_len mark) in
  ({| j_undo := undo; j_frames := j_frames j; j_rolled_back := wm_rolled_back mark |}, entries).

(** * The overlay: overlay.rs *)

Record CellOverlay := { ov_entries : Entries; ov_journal : Journal }.

Definition CellOverlay_new : CellOverlay := {| ov_entries := ∅; ov_journal := Journal_default |}.

Definition CellOverlay_version (o : CellOverlay) : Z := Journal_version (ov_journal o).

Definition CellOverlay_checkpoint (o : CellOverlay) : CellOverlay :=
  {| ov_entries := ov_entries o; ov_journal := Journal_checkpoint (ov_journal o) |}.

Definition CellOverlay_rollback : stres CellOverlay BranchError unit := fun o =>
  let '(r, (j, entries)) := Journal_rollback (ov_journal o) (ov_entries o) in
  (r, {| ov_entries := entries; ov_journal := j |}).

(** [CellChange] of crates/cells/src/cells.rs *)
Inductive CellChange : Type :=
  | Put (key : CellKey) (value : CellValue)
  | Delete (key : CellKey).

(** [changes] *)
Definition CellOverlay_changes (o : CellOverlay) : list CellChange :=
  (fun '(key, value) => match value with Some value => Put key value | None => Delete key end)
    <$> entries (ov_entries o).

Section Read.
Context {T : Type} `{ReadTransaction T}.

(** [CellOverlay::get] *)
Definition CellOverlay_get (o : CellOverlay) (origin : T) (key : CellKey) : res BranchError (option CellValue) :=
  match ov_entries o !! key with
  | Some value => Ok value
  | None =>
      row ← map_err BE_Storage (tx_get origin CELL (CellKey_encode key));
      match row with
      | None => Ok None
      | Some row => value ← map_err BE_Value (CellValue_parse row); Ok (Some value)
      end
  end.

(** [CellOverlay::scan_prefix] *)
Definition CellOverlay_scan_prefix (o : CellOverlay) (origin : T) (prefix : bytes) : res BranchError (CellScan T) :=
  CellScan_new origin (ov_entries o) prefix.
End Read.

(** ** Write groups

    The callback of [CellOverlay::write] reads and stages cells and ends with a
    value, an error or a panic; a [CellProg] is such a callback. *)
Inductive CellProg (T : Type) `{ReadTransaction T} (E A : Type) : Type :=
  | PRet (a : A)
  | PErr (e : E)
  | PPanic
  | PDiverge
  | PGet (key : CellKey) (k : res BranchError (option CellValue) -> CellProg T E A)
  | PScan (prefix : bytes) (k : res BranchError (CellScan T) -> CellProg T E A)
  | PPut (key : CellKey) (value : CellValue) (k : CellProg T E A)
  | PDelete (key : CellKey) (k : CellProg T E A).
Arguments PRet {T _ E A} _.
Arguments PErr {T _ E A} _.
Arguments PPanic {T _ E A}.
Arguments PDiverge {T _ E A}.
Arguments PGet {T _ E A} _ _.
Arguments PScan {T _ E A} _ _.
Arguments PPut {T _ E A} _ _ _.
Arguments PDelete {T _ E A} _ _.

(** [CellWrite::set] *)
Definition CellWrite_set (key : CellKey) (value : option CellValue) (o : CellOverlay) : CellOverlay :=
  let '(j, entries) := Journal_record (ov_journal o) (ov_entries o) key value in
  {| ov_entries := entries; ov_journal := j |}.

(** [CellWrite::put] and [delete] *)
Definition CellWrite_put (key : CellKey) (value : CellValue) : CellOverlay -> CellOverlay :=
  CellWrite_set key (Some value).
Definition CellWrite_delete (key : CellKey) : CellOverlay -> CellOverlay := CellWrite_set key None.

Section Write.
Context {T : Type} `{ReadTransaction T}.

Fixpoint run_prog {E A} (origin : T) (p : CellProg T E A) : stres CellOverlay E A := fun o =>
  match p with
  | PRet a => (Ok a, o)
  | PErr e => (Err e, o)
  | PPanic => (Panic, o)
  | PDiverge => (Diverge, o)
  | PGet key k => run_prog origin (k (CellOverlay_get o origin key)) o
  | PScan prefix k => run_prog origin (k (CellOverlay_scan_prefix o origin prefix)) o
  | PPut key value k => run_prog origin k (CellWrite_put key value o)
  | PDelete key k => run_prog origin k (CellWrite_delete key o)
  end.

(** [write]: a group that did not complete is rewound when its guard drops. *)
Definition CellOverlay_write {E A} (origin : T) (p : CellProg T E A) : stres CellOverlay E A := fun o =>
  let mark := Journal_mark (ov_journal o) in
  match run_prog origin p o with
  | (Ok a, o') => (Ok a, o')
  | (r, o') =>
      let '(j, entries) := Journal_rewind (ov_journal o') (ov_entries o') mark in
      (r, {| ov_entries := entries; ov_journal := j |})
  end.
End Write.

(** * The abstract machine: whole copies instead of inverses *)

Record Frames := { fr_now : Entries; fr_starts : list Entries; fr_consumed : bool }.

Definition Frames_new : Frames := {| fr_now := ∅; fr_starts := [∅]; fr_consumed := false |}.

Definition Frames_set (key : CellKey) (value : option CellValue) (f : Frames) : Frames :=
  {| fr_now := <[key := value]> (fr_now f); fr_starts := fr_starts f; fr_consumed := false |}.

(** A checkpoint remembers the present entries, unless the current frame was
    just rolled back: it then reuses that frame. *)
Definition Frames_checkpoint (f : Frames) : Frames :=
  {| fr_now := fr_now f;
     fr_starts := if fr_consumed f then fr_starts f else fr_now f :: fr_starts f;
     fr_consumed := false |}.

(** A rollback returns to the frame's start; a second one in a row to the start
    of the frame before it, if there is one. *)
Definition Frames_rollback (f : Frames) : res BranchError unit * Frames :=
  match (if fr_consumed f then tail (fr_starts f) else fr_starts f) with
  | [] => (Err NoFrameToRollback, f)
  | start :: rest => (Ok (), {| fr_now := start; fr_starts := start :: rest; fr_consumed := true |})
  end.

Section Abstract.
Context {T : Type} `{ReadTransaction T}.

Fixpoint Frames_run {E A} (origin : T) (p : CellProg T E A) (f : Frames) : res E A * Frames :=
  match p with
  | PRet a => (Ok a, f)
  | PErr e => (Err e, f)
  | PPanic => (Panic, f)
  | PDiverge => (Diverge, f)
  | PGet key k =>
      Frames_run origin (k (CellOverlay_get {| ov_entries := fr_now f; ov_journal := Journal_default |} origin key)) f
  | PScan prefix k => Frames_run origin (k (CellScan_new origin (fr_now f) prefix)) f
  | PPut key value k => Frames_run origin k (Frames_set key (Some value) f)
  | PDelete key k => Frames_run origin k (Frames_set key None f)
  end.

(** A group is atomic: unless it ends with a value, nothing happened. *)
Definition Frames_write {E A} (origin : T) (p : CellProg T E A) (f : Frames) : res E A * Frames :=
  match Frames_run origin p f with
  | (Ok a, f') => (Ok a, f')
  | (r, _) => (r, f)
  end.
End Abstract.

(** * Undoing *)

Lemma undo_one_set e k v : undo_one {| ue_key := k; ue_previous := e !! k |} (<[k := v]> e) = e.
Proof.
  unfold undo_one. cbn. destruct (e !! k) eqn:E.
  - by rewrite insert_insert_eq, insert_id.
  - by apply delete_insert_id.
Qed.

Lemma undo_to_stop undo e mark : (length undo <= mark)%nat -> undo_to undo e mark = (undo, e).
Proof. destruct undo as [|u undo]; [done|]. intros Hm. cbn [undo_to]. by rewrite (proj2 (Nat.ltb_ge _ _)). Qed.

Lemma undo_to_push u undo e mark : (mark <= length undo)%nat ->
  undo_to (u :: undo) e mark = undo_to undo (undo_one u e) mark.
Proof. intros Hm. cbn [undo_to]. by rewrite (proj2 (Nat.ltb_lt _ _)) by (cbn; lia). Qed.

(** Undoing in two stages. *)
Lemma undo_to_compose undo e m m' : (m' <= m)%nat ->
  undo_to (undo_to undo e m).1 (undo_to undo e m).2 m' = undo_to undo e m'.
Proof.
  intros Hm. revert e. induction undo as [|u undo IH]; intros e; [done|].
  destruct (decide (m < length (u :: undo))%nat) as [Hlt|Hge].
  - rewrite !(undo_to_push u) by (cbn in Hlt; lia). apply IH.
  - by rewrite (undo_to_stop (u :: undo) e m) by lia.
Qed.

Lemma length_undo_to undo e m : length (undo_to undo e m).1 = Nat.min m (length undo).
Proof.
  revert e. induction undo as [|u undo IH]; intros e; [by rewrite Nat.min_r by (cbn; lia)|].
  destruct (decide (m <= length undo)%nat).
  - rewrite undo_to_push, IH by done. cbn. lia.
  - rewrite undo_to_stop by (cbn; lia). cbn [fst length]. lia.
Qed.

(** ** What a write keeps: everything below the marks already taken *)

Record extends (o o' : CellOverlay) : Prop := {
  ext_frames : j_frames (ov_journal o') = j_frames (ov_journal o);
  ext_length : (length (j_undo (ov_journal o)) <= length (j_undo (ov_journal o')))%nat;
  ext_undo mark : (mark <= length (j_undo (ov_journal o)))%nat ->
    undo_to (j_undo (ov_journal o')) (ov_entries o') mark = undo_to (j_undo (ov_journal o)) (ov_entries o) mark
}.

#[global] Instance extends_preorder : PreOrder extends.
Proof.
  split; [by intros o; split|]. intros a b c [F1 L1 U1] [F2 L2 U2]. split; [congruence|lia|].
  intros mark Hm. rewrite U2, U1 by lia. done.
Qed.

Lemma set_extends k v o : extends o (CellWrite_set k v o).
Proof.
  unfold CellWrite_set, Journal_record. case_bool_decide; split; cbn [ov_journal ov_entries j_frames j_undo];
    try done; [cbn; lia|]. intros mark Hm. by rewrite undo_to_push, undo_one_set.
Qed.

Section Extends.
Context {T : Type} `{ReadTransaction T}.

Lemma run_extends {E A} (origin : T) (p : CellProg T E A) o : extends o (run_prog origin p o).2.
Proof.
  revert o. induction p as [a|e| | |key k IH|prefix k IH|key value k IH|key k IH]; intros o; cbn [run_prog]; [done..|apply IH|apply IH| |];
    (etrans; [|apply IH]); apply set_extends.
Qed.

(** Rewinding restores the overlay that was marked, in every part. *)
Lemma rewind_restores o o' : extends o o' ->
  Journal_rewind (ov_journal o') (ov_entries o') (Journal_mark (ov_journal o)) = (ov_journal o, ov_entries o).
Proof.
  intros [HF _ HU]. unfold Journal_rewind, Journal_mark. cbn [wm_undo_len wm_rolled_back].
  rewrite HU, undo_to_stop, HF by done. by destruct (ov_journal o).
Qed.

Lemma write_failed {E A} (origin : T) (p : CellProg T E A) o :
  is_ok (run_prog origin p o).1 = false ->
  CellOverlay_write origin p o = ((run_prog origin p o).1, o).
Proof.
  intros Hr. unfold CellOverlay_write. pose proof (run_extends origin p o) as He.
  destruct (run_prog origin p o) as [r o']. cbn [fst snd] in *.
  assert (Journal_rewind (ov_journal o') (ov_entries o') (Journal_mark (ov_journal o)) = (ov_journal o, ov_entries o)) as Hrw
    by (by apply rewind_restores).
  destruct r; [done|..]; rewrite Hrw; by destruct o.
Qed.
End Extends.

(** * The simulation *)

Record ov_rel (o : CellOverlay) (f : Frames) : Prop := {
  rel_now : ov_entries o = fr_now f;
  rel_consumed : j_rolled_back (ov_journal o) = fr_consumed f;
  rel_frames : Forall2 (fun mark start =>
    (mark <= length (j_undo (ov_journal o)))%nat /\
    (undo_to (j_undo (ov_journal o)) (ov_entries o) mark).2 = start) (j_frames (ov_journal o)) (fr_starts f);
  rel_order : StronglySorted (fun a b => b <= a)%nat (j_frames (ov_journal o));
  rel_some : fr_starts f <> []
}.

Lemma ov_rel_new : ov_rel CellOverlay_new Frames_new.
Proof. split; cbn; [done..| | |done]; repeat constructor. Qed.

Lemma ov_rel_extends o o' f f' : extends o o' -> ov_rel o f ->
  ov_entries o' = fr_now f' -> j_rolled_back (ov_journal o') = fr_consumed f' -> fr_starts f' = fr_starts f ->
  ov_rel o' f'.
Proof.
  intros [HF HL HU] [Hn Hc Hfr Ho Hs] Hn' Hc' Hs'. split; [done..| | |congruence].
  - rewrite HF, Hs'. eapply Forall2_impl; [exact Hfr|]. intros mark start [Hm <-]. split; [lia|]. by rewrite HU.
  - by rewrite HF.
Qed.

Lemma ov_rel_set k v o f : ov_rel o f -> ov_rel (CellWrite_set k v o) (Frames_set k v f).
Proof.
  intros Hr. eapply ov_rel_extends; [apply set_extends|done| | |done].
  - destruct Hr as [Hn _ _ _ _]. unfold CellWrite_set, Journal_record. cbn [Frames_set fr_now]. rewrite <- Hn.
    case_bool_decide as E; cbn [ov_entries]; [by rewrite insert_id|done].
  - unfold CellWrite_set, Journal_record. by case_bool_decide.
Qed.

Lemma ov_rel_checkpoint o f : ov_rel o f -> ov_rel (CellOverlay_checkpoint o) (Frames_checkpoint f).
Proof.
  intros [Hn Hc Hfr Ho Hs]. unfold CellOverlay_checkpoint, Journal_checkpoint, Frames_checkpoint. rewrite <- Hc.
  split; cbn [ov_entries ov_journal j_rolled_back fr_now fr_consumed fr_starts j_frames j_undo]; [done..| | |].
  - destruct (j_rolled_back (ov_journal o)); [done|]. constructor; [|done]. by rewrite undo_to_stop.
  - destruct (j_rolled_back (ov_journal o)); [done|]. constructor; [done|].
    apply Forall_forall. intros m Hm. apply list_elem_of_lookup in Hm as [i Hi].
    by destruct (Forall2_lookup_l _ _ _ _ _ Hfr Hi) as (x & _ & ? & _).
  - by destruct (j_rolled_back (ov_journal o)).
Qed.

(** Rolling back to a mark keeps the older marks valid. *)
Lemma rollback_to o f mark start marks starts :
  ov_rel o f -> (exists pre1 pre2, j_frames (ov_journal o) = pre1 ++ mark :: marks /\
    fr_starts f = pre2 ++ start :: starts /\ length pre1 = length pre2) ->
  ov_rel {| ov_entries := (undo_to (j_undo (ov_journal o)) (ov_entries o) mark).2;
            ov_journal := {| j_undo := (undo_to (j_undo (ov_journal o)) (ov_entries o) mark).1;
                             j_frames := mark :: marks; j_rolled_back := true |} |}
    {| fr_now := start; fr_starts := start :: starts; fr_consumed := true |}.
Proof.
  intros [_ _ Hfr Ho _] (pre1 & pre2 & E1 & E2 & Hl). rewrite E1, E2 in Hfr. rewrite E1 in Ho.
  apply Forall2_app_inv in Hfr as [_ Hfr]; [|done]. apply StronglySorted_app_1_r in Ho.
  apply Forall2_cons in Hfr as [[Hm Hst] Hfr]. apply StronglySorted_inv in Ho as [Ho Hle].
  split; cbn [ov_entries ov_journal j_rolled_back fr_now fr_consumed fr_starts j_frames j_undo]; [done..| | |done].
  - constructor.
    + rewrite length_undo_to. split; [lia|]. by rewrite undo_to_compose.
    + rewrite Forall2_lookup in Hfr |- *. intros i. specialize (Hfr i). rewrite Forall_lookup in Hle.
      destruct (marks !! i) as [m|] eqn:Em; destruct (starts !! i) as [s|] eqn:Es; inversion Hfr as [? ? [Hmi Hs]|]; subst;
        constructor. specialize (Hle i m Em). rewrite length_undo_to. split; [lia|]. by rewrite undo_to_compose.
  - by constructor.
Qed.

Lemma ov_rel_rollback o f : ov_rel o f ->
  (CellOverlay_rollback o).1 = (Frames_rollback f).1 /\
  ov_rel (CellOverlay_rollback o).2 (Frames_rollback f).2.
Proof.
  intros Hr. pose proof Hr as [Hn Hc Hfr Ho Hs].
  unfold CellOverlay_rollback, Journal_rollback, Frames_rollback. rewrite <- Hc.
  pose proof (Forall2_length _ _ _ Hfr) as Hlen.
  destruct (j_frames (ov_journal o)) as [|m0 marks] eqn:Ef, (fr_starts f) as [|s0 starts] eqn:Es; [done|done|done|].
  destruct (j_rolled_back (ov_journal o)) eqn:Eb; cbn [tail].
  - destruct marks as [|m1 marks], starts as [|s1 starts]; try done; cbn [length Nat.eqb].
    + split; [done|]. cbn [snd]. by destruct o.
    + pose proof (rollback_to o f m1 s1 marks starts Hr
        ltac:(exists [m0], [s0]; rewrite Ef, Es; done)) as Hrel.
      destruct (undo_to (j_undo (ov_journal o)) (ov_entries o) m1). split; [done|exact Hrel].
  - pose proof (rollback_to o f m0 s0 marks starts Hr
      ltac:(exists [], []; rewrite Ef, Es; done)) as Hrel.
    destruct (undo_to (j_undo (ov_journal o)) (ov_entries o) m0). split; [done|exact Hrel].
Qed.

Section Simulation.
Context {T : Type} `{ReadTransaction T}.

Lemma get_entries_only (origin : T) o e key : ov_entries o = e ->
  CellOverlay_get o origin key = CellOverlay_get {| ov_entries := e; ov_journal := Journal_default |} origin key.
Proof. intros <-. done. Qed.

Lemma ov_rel_run {E A} (origin : T) (p : CellProg T E A) o f : ov_rel o f ->
  (run_prog origin p o).1 = (Frames_run origin p f).1 /\ ov_rel (run_prog origin p o).2 (Frames_run origin p f).2.
Proof.
  revert o f. induction p as [a|e| | |key k IH|prefix k IH|key value k IH|key k IH]; intros o f Hr; cbn [run_prog Frames_run]; try done.
  - rewrite (get_entries_only origin o (fr_now f)) by apply Hr. by apply IH.
  - unfold CellOverlay_scan_prefix. rewrite (rel_now _ _ Hr). by apply IH.
  - by apply IH, ov_rel_set.
  - by apply IH, ov_rel_set.
Qed.

Lemma ov_rel_write {E A} (origin : T) (p : CellProg T E A) o f : ov_rel o f ->
  (CellOverlay_write origin p o).1 = (Frames_write origin p f).1 /\
  ov_rel (CellOverlay_write origin p o).2 (Frames_write origin p f).2.
Proof.
  intros Hr. destruct (ov_rel_run origin p o f Hr) as [H1 H2].
  destruct (is_ok (run_prog origin p o).1) eqn:Eok.
  - unfold CellOverlay_write, Frames_write. destruct (run_prog origin p o) as [[] o'], (Frames_run origin p f) as [r f'];
      try done. cbn in H1. subst r. done.
  - rewrite (write_failed origin p o Eok). cbn [fst snd]. rewrite H1 in Eok |- *. unfold Frames_write.
    destruct (Frames_run origin p f) as [[] f']; done.
Qed.
End Simulation.

(** * Reading the working state *)

(** Every staged entry has a well-formed address and value. *)
Definition staged_wf (o : CellOverlay) : Prop :=
  forall k v, ov_entries o !! k = Some v -> CellKey_wf k /\ forall x, v = Some x -> CellValue_wf x.

Section Working.
Context {T : Type} `{ReadLaws T}.

Lemma overlay_get_ok (origin : T) O o k : decoded (view origin CELL) O -> CellKey_wf k ->
  CellOverlay_get o origin k = Ok (working O (ov_entries o) !! k).
Proof.
  intros [Hwf Hrows] Hk. unfold CellOverlay_get. rewrite lookup_working. destruct (ov_entries o !! k); [done|].
  rewrite get_spec by apply table_ok_CELL. unfold mbind, res_mbind. cbn [map_err].
  destruct (view origin CELL !! CellKey_encode k) as [row|] eqn:E.
  - apply Hrows in E as (k' & v & HO & Ek & ->). apply Hwf in HO as Hw. destruct Hw as [Hk' Hv].
    apply CellKey_encode_inj in Ek as <-; [|done|done]. rewrite Hv. cbn. by rewrite HO.
  - destruct (O !! k) as [v|] eqn:EO; [|done]. exfalso.
    assert (view origin CELL !! CellKey_encode k = Some (cv_bytes v)) as Hs by (apply Hrows; by exists k, v). congruence.
Qed.
End Working.

(** * Sequences of operations *)

Inductive OvOp (T : Type) `{ReadTransaction T} (E A : Type) : Type :=
  | OpWrite (p : CellProg T E A)
  | OpCheckpoint
  | OpRollback.
Arguments OpWrite {T _ E A} _.
Arguments OpCheckpoint {T _ E A}.
Arguments OpRollback {T _ E A}.

Inductive OvResult (E A : Type) : Type :=
  | Wrote (r : res E A)
  | Checkpointed
  | RolledBack (r : res BranchError unit).
Arguments Wrote {E A} _.
Arguments Checkpointed {E A}.
Arguments RolledBack {E A} _.

Section Ops.
Context {T : Type} `{ReadTransaction T} {E A : Type} (origin : T).

Definition ov_step (op : OvOp T E A) (o : CellOverlay) : OvResult E A * CellOverlay :=
  match op with
  | OpWrite p => let '(r, o') := CellOverlay_write origin p o in (Wrote r, o')
  | OpCheckpoint => (Checkpointed, CellOverlay_checkpoint o)
  | OpRollback => let '(r, o') := CellOverlay_rollback o in (RolledBack r, o')
  end.

Definition fr_step (op : OvOp T E A) (f : Frames) : OvResult E A * Frames :=
  match op with
  | OpWrite p => let '(r, f') := Frames_write origin p f in (Wrote r, f')
  | OpCheckpoint => (Checkpointed, Frames_checkpoint f)
  | OpRollback => let '(r, f') := Frames_rollback f in (RolledBack r, f')
  end.

(** The results of a sequence of operations, and the state after it. *)
Fixpoint run_steps {S} (step : OvOp T E A -> S -> OvResult E A * S) (ops : list (OvOp T E A)) (s : S)
    : list (OvResult E A) * S :=
  match ops with
  | [] => ([], s)
  | op :: ops' =>
      let '(r, s') := step op s in
      let '(rs, s'') := run_steps step ops' s' in
      (r :: rs, s'')
  end.

Lemma ov_rel_step op o f : ov_rel o f -> (ov_step op o).1 = (fr_step op f).1 /\ ov_rel (ov_step op o).2 (fr_step op f).2.
Proof.
  intros Hr. destruct op as [p| |]; cbn [ov_step fr_step].
  - destruct (ov_rel_write origin p o f Hr) as [H1 H2].
    destruct (CellOverlay_write origin p o), (Frames_write origin p f). cbn in *. by subst.
  - split; [done|]. by apply ov_rel_checkpoint.
  - destruct (ov_rel_rollback o f Hr) as [H1 H2].
    destruct (CellOverlay_rollback o), (Frames_rollback f). cbn in *. by subst.
Qed.

Lemma ov_rel_steps ops o f : ov_rel o f ->
  (run_steps ov_step ops o).1 = (run_steps fr_step ops f).1 /\
  ov_rel (run_steps ov_step ops o).2 (run_steps fr_step ops f).2.
Proof.
  revert o f. induction ops as [|op ops IH]; intros o f Hr; cbn [run_steps]; [done|].
  destruct (ov_rel_step op o f Hr) as [H1 H2]. destruct (ov_step op o) as [r o'], (fr_step op f) as [r' f'].
  cbn [fst snd] in *. subst r'. destruct (IH o' f' H2) as [H3 H4].
  destruct (run_steps ov_step ops o'), (run_steps fr_step ops f'). cbn in *. by subst.
Qed.
End Ops.

(** * Properties *)

(** C14. The undo journal implements whole-copy checkpoints: over any sequence
    of write groups, checkpoints and rollbacks from a new overlay, every
    operation returns what a machine that keeps complete copies of the staged
    entries returns (values, errors, panics, and a rollback with no frame left),
    and the staged entries after it are the same. *)
Theorem overlay_refines_frames {T : Type} `{ReadTransaction T} {E A : Type} (origin : T) (ops : list (OvOp T E A)) :
  (run_steps (ov_step origin) ops CellOverlay_new).1 = (run_steps (fr_step origin) ops Frames_new).1 /\
  ov_entries (run_steps (ov_step origin) ops CellOverlay_new).2 = fr_now (run_steps (fr_step origin) ops Frames_new).2.
Proof. destruct (ov_rel_steps origin ops _ _ ov_rel_new) as [Hr [Hn _ _ _ _]]. done. Qed.

(** C31. A write group is atomic: when its callback returns, its writes stay and
    the rollback marks below them are kept; when it fails or panics, the overlay
    is the one before the call in every part (entries, journal, frames, rollback
    status), so its version is unchanged too. *)
Theorem write_group_is_atomic {T : Type} `{ReadTransaction T} {E A : Type} (origin : T) (p : CellProg T E A) (o : CellOverlay) :
  match CellOverlay_write origin p o with
  | (Ok a, o') => (Ok a, o') = run_prog origin p o /\ extends o o'
  | (r, o') => o' = o /\ r = (run_prog origin p o).1
  end.
Proof.
  destruct (is_ok (run_prog origin p o).1) eqn:Eok.
  - pose proof (run_extends origin p o) as He. unfold CellOverlay_write. by destruct (run_prog origin p o) as [[] o'].
  - rewrite (write_failed origin p o Eok). by destruct ((run_prog origin p o).1).
Qed.
