(* ===== verification/Cells.v ===== *)
(** Cell storage and its commitment: crates/cells/src/{cells,cell_trie,tables}.rs.

    A commit's cells are rows of the [Cell] table, and the trie of table
    [CellTrie] commits to them: the leaf of a cell is at the digest of its
    address and binds its value. [cells_state tx root O] says that the table
    holds exactly the cells [O] and that [root] commits to exactly them; [apply]
    keeps it. The digest is not assumed injective: the theorem asks only that
    the addresses involved have distinct digests ([distinct_paths]). *)
From Stdlib Require Import ZArith Lia.
From S2P Require Import Prelude Ordered Storage Scan CellTypes CellValue CellName MerkleNode MerkleTrie.
From S2P Require Import Frame MerkleTree MerkleEdit MerkleBatch MerkleSpec Samples BranchTypes CellScan Overlay.

(** * Constants: lib.rs *)

Definition CELL_LEAF_DOMAIN : byte := x00.
Definition CELL_BRANCH_DOMAIN : byte := x01.
Definition CELL_TRIE_PATH_BYTES : nat := 32.

(** * Changes: cells.rs *)

Record CellValueChange := {
  vc_key : CellKey;
  vc_before : option CellValue;
  vc_after : option CellValue
}.

Record CellsUpdate := { cu_root : RootRef; cu_changed_cells : list CellValueChange }.

(** The pair a change is normalised as. *)
Definition change_pair (c : CellChange) : CellKey * option CellValue :=
  match c with Put key value => (key, Some value) | Delete key => (key, None) end.

(** [normalize_changes] *)
Definition normalize_changes (changes : list CellChange) : list (CellKey * option CellValue) :=
  normalize (change_pair <$> changes).

Section Cells.
Context `{HashProvider}.

(** ** The commitment: cell_trie.rs *)

(** [leaf] *)
Definition cell_leaf (path : Hash) (value : CellValue) : LeafRef :=
  {| lf_path := path; lf_hash := hash_parts [[CELL_LEAF_DOMAIN]; path; cv_bytes value] |}.

Section Reading.
Context {T : Type} `{ReadTransaction T}.

(** [read_value] *)
Definition read_value (tx : T) (key : bytes) : res CellError (option CellValue) :=
  row ← map_err CE_Storage (tx_get tx CELL key);
  match row with
  | None => Ok None
  | Some row => value ← map_err CE_Value (CellValue_parse row); Ok (Some value)
  end.

(** [CellReader::get] and [Cells::get] *)
Definition CellReader_get (tx : T) (key : CellKey) : res CellError (option CellValue) :=
  read_value tx (CellKey_encode key).

(** [CellReader::scan_record] and [Cells::scan_record] *)
Definition CellReader_scan_record (tx : T) (record_id : Z) : res CellError (Scan T) :=
  map_err CE_Storage (scan_prefix tx CELL (be_encode 8 record_id)).

(** [CellScan::next]; the flag is [done]. *)
Definition record_scan_next (s : Scan T * bool) : option (res CellError (CellKey * CellValue)) * (Scan T * bool) :=
  let '(scan, done) := s in
  if done then (None, s)
  else match Scan_next scan with
  | (None, scan) => (None, (scan, done))
  | (Some row, scan) =>
      let result :=
        '(key, value) ← map_err CE_Storage row;
        key ← map_err CE_Key (CellKey_decode key);
        value ← map_err CE_Value (CellValue_parse value);
        Ok (key, value) in
      (Some result, (scan, match result with Err _ => true | _ => done end))
  end.

(** [CellTrie::check] *)
Definition cell_check (tx : T) (root : RootRef) (key : bytes) (before : option CellValue) : res CellError unit :=
  let path := hash key in
  leaf ← map_err CE_Merkle (get CELL_TRIE_PATH_BYTES CELL_TRIE CELL_BRANCH_DOMAIN tx root path);
  if bool_decide (leaf = cell_leaf path <$> before) then Ok () else Err CE_RootMismatch.

(** [Cells::check_change] *)
Definition check_change (tx : T) (root : RootRef) (key : CellKey) (after : option CellValue)
    : res CellError (option (bytes * CellValueChange)) :=
  let encoded_key := CellKey_encode key in
  before ← read_value tx encoded_key;
  _ ← cell_check tx root encoded_key before;
  Ok (if bool_decide (before = after) then None
      else Some (encoded_key, {| vc_key := key; vc_before := before; vc_after := after |})).

(** The first loop of [Cells::apply]. *)
Fixpoint check_changes (tx : T) (root : RootRef) (changes : list (CellKey * option CellValue))
    : res CellError (list (bytes * CellValueChange)) :=
  match changes with
  | [] => Ok []
  | (key, after) :: changes =>
      change ← check_change tx root key after;
      rest ← check_changes tx root changes;
      Ok (match change with Some c => c :: rest | None => rest end)
  end.


(** [CellTrie::reopen] and [Cells::reopen] *)
Definition Cells_reopen (tx : T) (h : Hash) : res CellError RootRef :=
  if bool_decide (h = hash []) then
    cursor ← map_err CE_Storage (tx_cursor tx CELL []);
    first ← map_err CE_Storage (fst (cur_next cursor));
    match first with Some _ => Err CE_RootMismatch | None => Ok REmpty end
  else
    row ← map_err CE_Storage (tx_get tx CELL_TRIE h);
    match row with
    | Some _ =>
        _ ← map_err CE_Merkle (validate_root CELL_TRIE_PATH_BYTES CELL_TRIE CELL_BRANCH_DOMAIN tx (RBranch h));
        Ok (RBranch h)
    | None =>
        cursor ← map_err CE_Storage (tx_cursor tx CELL []);
        match cur_next cursor with
        | (Ok None, _) => Err CE_RootMismatch
        | (Ok (Some (key, value)), cursor) =>
            second ← map_err CE_Storage (fst (cur_next cursor));
            match second with
            | Some _ => Err CE_RootMismatch
            | None =>
                _ ← map_err CE_Key (CellKey_decode key);
                value ← map_err CE_Value (CellValue_parse value);
                let leaf := cell_leaf (hash key) value in
                if bool_decide (lf_hash leaf = h) then Ok (RLeaf leaf) else Err CE_RootMismatch
            end
        | (Err e, _) => Err (CE_Storage e)
        | (Panic, _) => Panic
        | (Diverge, _) => Diverge
        end
    end.
End Reading.

Section Writing.
Context {T : Type} `{WriteTransaction T}.

(** [CellTrie::set], with the edit of one change *)
Definition cell_edit (change : bytes * option CellValue) : Edit :=
  let path := hash (fst change) in
  (path, match snd change with Some value => Some (lf_hash (cell_leaf path value)) | None => None end).

Definition cell_set (root : RootRef) (changes : list (bytes * option CellValue)) : stres T CellError RootRef :=
  st_map_err CE_Merkle
    (apply CELL_TRIE_PATH_BYTES CELL_TRIE CELL_BRANCH_DOMAIN root (cell_edit <$> changes)).

(** [write_values] *)
Fixpoint write_values (changes : list (bytes * CellValueChange)) : stres T CellError unit :=
  match changes with
  | [] => mret ()
  | (key, change) :: changes =>
      _ ← st_map_err CE_Storage
            match vc_after change with
            | Some value => tx_put CELL key (cv_bytes value)
            | None => _ ← tx_delete CELL key; mret ()
            end;
      write_values changes
  end.

(** [Cells::apply] *)
Definition Cells_apply (root : RootRef) (changes : list CellChange) : stres T CellError CellsUpdate :=
  changes_by_key ← reading (fun tx => check_changes tx root (normalize_changes changes));
  root ← cell_set root ((fun '(key, change) => (key, vc_after change)) <$> changes_by_key);
  _ ← write_values changes_by_key;
  mret {| cu_root := root; cu_changed_cells := snd <$> changes_by_key |}.
End Writing.
End Cells.

(** ** What an update leaves of a transaction, whatever its arguments *)

Section Keeps.
Context `{HashProvider} {T : Type} `{WT : WriteTransaction T} (R : T -> T -> Prop) `{!PreOrder R}.
Hypothesis Hinsert : forall k v tx, R tx (tx_insert CELL_TRIE k v tx).2.
Hypothesis Hput : forall k v tx, R tx (tx_put CELL k v tx).2.
Hypothesis Hdelete : forall k tx, R tx (tx_delete CELL k tx).2.

Lemma Cells_apply_keeps root changes : keeps R (Cells_apply root changes).
Proof.
  unfold Cells_apply, cell_set. keeps; [by apply apply_keeps|].
  match goal with |- keeps R (write_values ?l) => induction l as [|[key change] l IH]; cbn [write_values] end; keeps.
Qed.
End Keeps.

(** * The cells a table holds *)

(** The cells after some changes, one after the other. *)
Definition change_cells (O : gmap CellKey CellValue) (changes : list CellChange) : gmap CellKey CellValue :=
  foldl (fun O c => match c with Put key value => <[key := value]> O | Delete key => delete key O end) O changes.

Lemma change_cells_lookup O changes k :
  change_cells O changes !! k =
  match (batch_map (change_pair <$> changes) : gmap _ _) !! k with Some v => v | None => O !! k end.
Proof.
  rewrite batch_map_lookup. unfold change_cells. revert O. induction changes as [|c changes IH]; intros O; [done|].
  cbn [foldl fmap list_fmap]. rewrite last_write_cons, IH.
  destruct (last_write k (change_pair <$> changes)); [done|].
  destruct c as [key value|key]; cbn [change_pair fst snd];
    (destruct (decide (key = k)) as [->|]; by simplify_map_eq).
Qed.

(** * The commitment *)

Section State.
Context `{HashProvider} {HLw : HashLaws}.
Context {T : Type} `{WT : WriteTransaction T} {RL : ReadLaws T} {WL : WriteLaws T}.

(** Where the leaf of a cell is, and what it binds. *)
Definition cell_path (k : CellKey) : Hash := hash (CellKey_encode k).
Definition cell_commitment (k : CellKey) (v : CellValue) : Hash := lf_hash (cell_leaf (cell_path k) v).

Abbreviation trie_map := (represents CELL_TRIE_PATH_BYTES CELL_TRIE CELL_BRANCH_DOMAIN).
Abbreviation trie_wp := (wp CELL_TRIE_PATH_BYTES CELL_TRIE CELL_BRANCH_DOMAIN).

(** The [Cell] table holds exactly [O], and [root] commits to exactly [O]. *)
Definition cells_state (tx : T) (root : RootRef) (O : gmap CellKey CellValue) : Prop :=
  decoded (view tx CELL) O /\ exists m, trie_map tx root m /\ keyed cell_path cell_commitment m O.

(** The addresses in [O] and [B] have distinct digests. *)
Definition distinct_paths {A B} (O : gmap CellKey A) (Ch : gmap CellKey B) : Prop :=
  forall k1 k2, (is_Some (O !! k1) \/ is_Some (Ch !! k1)) -> (is_Some (O !! k2) \/ is_Some (Ch !! k2)) ->
    cell_path k1 = cell_path k2 -> k1 = k2.

Lemma width32 : (1 <= CELL_TRIE_PATH_BYTES <= 32)%nat.
Proof using. unfold CELL_TRIE_PATH_BYTES. lia. Qed.

Lemma read_value_ok tx O k : decoded (view tx CELL) O -> CellKey_wf k ->
  read_value tx (CellKey_encode k) = Ok (O !! k).
Proof using.
  intros [Hwf Hrows] Hk. unfold read_value. rewrite get_spec by done. unfold mbind, res_mbind. cbn [map_err].
  destruct (view tx CELL !! CellKey_encode k) as [vb|] eqn:E.
  - apply Hrows in E as (k' & v & Hv & Ek & ->). destruct (Hwf _ _ Hv) as [Hk' Hvwf].
    apply CellKey_encode_inj in Ek as <-; [|done..]. unfold CellValue_wf in Hvwf. rewrite Hvwf. cbn. by rewrite Hv.
  - destruct (O !! k) as [v|] eqn:Ev; [|done].
    assert (view tx CELL !! CellKey_encode k = Some (cv_bytes v)) by (apply Hrows; eauto). congruence.
Qed.

Lemma length_cell_path k : length (cell_path k) = CELL_TRIE_PATH_BYTES.
Proof using HLw. exact (hash_length [CellKey_encode k]). Qed.

Lemma cell_check_ok tx root O {B} (Ch : gmap CellKey B) k : cells_state tx root O -> distinct_paths O Ch ->
  (is_Some (O !! k) \/ is_Some (Ch !! k)) -> cell_check tx root (CellKey_encode k) (O !! k) = Ok ().
Proof using HLw.
  intros [_ (m & Hrep & Hm)] Hd Hk. unfold cell_check. fold (cell_path k).
  rewrite (represents_get CELL_TRIE_PATH_BYTES CELL_TRIE CELL_BRANCH_DOMAIN width32 table_ok_CELL_TRIE tx root m
    (cell_path k) Hrep (length_cell_path k)).
  unfold mbind, res_mbind. cbn [map_err]. rewrite bool_decide_true; [done|].
  destruct (O !! k) as [v|] eqn:Ev.
  - assert (m !! cell_path k = Some (cell_commitment k v)) as -> by (apply Hm; eauto). done.
  - destruct (m !! cell_path k) as [h|] eqn:Em; [|done]. apply Hm in Em as (k' & v & Hv & Ep & _).
    assert (k = k') as <- by (apply Hd; [by rewrite Ev|by left; eexists|done]). congruence.
Qed.

(** The actual change at one key. *)
Definition actual (O : gmap CellKey CellValue) (c : CellKey * option CellValue) : option (CellKey * option CellValue) :=
  if bool_decide (O !! fst c = snd c) then None else Some c.

Definition as_change (O : gmap CellKey CellValue) (c : CellKey * option CellValue) : bytes * CellValueChange :=
  (CellKey_encode (fst c), {| vc_key := fst c; vc_before := O !! fst c; vc_after := snd c |}).

Lemma check_changes_ok tx root O {B} (Ch : gmap CellKey B) l : cells_state tx root O -> distinct_paths O Ch ->
  Forall (fun c => CellKey_wf (fst c) /\ is_Some (Ch !! fst c)) l ->
  check_changes tx root l = Ok (as_change O <$> omap (actual O) l).
Proof using HLw.
  intros Hst Hd. induction 1 as [|[k a] l [Hwf Hin] _ IH]; [done|]. cbn [check_changes fst] in *.
  unfold check_change. rewrite (read_value_ok tx O) by (done || apply Hst).
  unfold mbind, res_mbind in *. rewrite (cell_check_ok tx root O Ch k), IH by auto.
  cbn [omap list_omap].
  assert (actual O (k, a) = if bool_decide (O !! k = a) then None else Some (k, a)) as -> by done.
  by destruct (bool_decide (O !! k = a)).
Qed.

Lemma write_values_ok (l : list (bytes * CellValueChange)) tx :
  exists tx', write_values l tx = (Ok (), tx') /\
    view tx' CELL = edit_map (view tx CELL) ((fun c => (fst c, cv_bytes <$> vc_after (snd c))) <$> l) /\
    forall tb, tb <> CELL -> view tx' tb = view tx tb.
Proof using WL.
  revert tx. induction l as [|[key c] l IH]; intros tx; [by exists tx|]. cbn [write_values fmap list_fmap fst snd].
  assert (exists tx1, st_map_err CE_Storage match vc_after c with
      | Some value => tx_put CELL key (cv_bytes value)
      | None => (_ ← tx_delete CELL key; mret () : stres T StorageError unit)
      end tx = (Ok (), tx1) /\
    view tx1 CELL = match vc_after c with Some v => <[key := cv_bytes v]> (view tx CELL) | None => delete key (view tx CELL) end /\
    forall tb, tb <> CELL -> view tx1 tb = view tx tb) as (tx1 & E1 & V1 & O1).
  { destruct (vc_after c) as [v|].
    - destruct (put_spec tx CELL key (cv_bytes v) table_ok_CELL) as (tx1 & E & Hv). exists tx1. unfold st_map_err. rewrite E.
      split_and!; [done|rewrite Hv; unfold upd_view; by rewrite decide_True|].
      intros tb Htb. rewrite Hv. unfold upd_view. by rewrite decide_False.
    - destruct (delete_spec tx CELL key table_ok_CELL) as (tx1 & E & Hv). exists tx1.
      unfold st_map_err, mbind, stres_mbind. rewrite E. cbn.
      split_and!; [done|rewrite Hv; unfold upd_view; by rewrite decide_True|].
      intros tb Htb. rewrite Hv. unfold upd_view. by rewrite decide_False. }
  destruct (IH tx1) as (tx' & E' & V' & O'). exists tx'. unfold mbind at 1, stres_mbind at 1. rewrite E1. split_and!; [done| |].
  - rewrite V', V1. unfold edit_map. cbn [foldl]. by destruct (vc_after c).
  - intros tb Htb. by rewrite O', O1.
Qed.

(** The changes of a batch, as a map. *)
Definition batch (changes : list CellChange) : gmap CellKey (option CellValue) := batch_map (change_pair <$> changes).

Definition change_wf (c : CellChange) : Prop :=
  match c with Put key value => CellKey_wf key /\ CellValue_wf value | Delete key => CellKey_wf key end.

Lemma batch_wf changes k a : Forall change_wf changes -> batch changes !! k = Some a ->
  CellKey_wf k /\ (forall v, a = Some v -> CellValue_wf v).
Proof using.
  intros Hw Hb. unfold batch in Hb. rewrite batch_map_lookup in Hb. unfold last_write in Hb.
  apply last_Some_elem_of, list_elem_of_fmap in Hb as ([k' a'] & -> & [Hk Hin]%list_elem_of_filter). cbn in *. subst k'.
  apply list_elem_of_fmap in Hin as (c & Ec & Hc). rewrite Forall_forall in Hw. specialize (Hw c Hc).
  destruct c; cbn in Ec; injection Ec as -> ->; cbn in Hw; [|done]. destruct Hw. split; [done|]. by intros v [= <-].
Qed.

(** The changes that differ from the present cells, in key order. *)
Definition net_changes (O : gmap CellKey CellValue) (changes : list CellChange) : list (CellKey * option CellValue) :=
  omap (actual O) (entries (batch changes)).

Lemma elem_of_net_changes O changes k a :
  (k, a) ∈ net_changes O changes <-> batch changes !! k = Some a /\ O !! k <> a.
Proof using.
  unfold net_changes. rewrite list_elem_of_omap. split.
  - intros ([k' a'] & Hin & E). unfold actual in E. cbn [fst snd] in E. case_bool_decide; [done|].
    injection E as -> ->. by apply elem_of_entries in Hin.
  - intros [Hb Hne]. exists (k, a). rewrite elem_of_entries. split; [done|]. unfold actual. cbn [fst snd].
    by rewrite bool_decide_false.
Qed.

Lemma cell_edits_keyed O (L : list (CellKey * option CellValue)) :
  cell_edit <$> ((fun '(key, change) => (key, vc_after change)) <$> (as_change O <$> L)) =
  keyed_edit cell_path cell_commitment <$> L.
Proof using.
  induction L as [|[k a] L IH]; [done|]. rewrite !fmap_cons, IH. by destruct a.
Qed.

Lemma keyed_edits_wf (L : list (CellKey * option CellValue)) :
  edits_wf CELL_TRIE_PATH_BYTES (keyed_edit cell_path cell_commitment <$> L).
Proof using HLw.
  unfold edits_wf. apply Forall_fmap, Forall_forall. intros [k a] _.
  change (length (cell_path k) = CELL_TRIE_PATH_BYTES /\
    match cell_commitment k <$> a with Some h => length h = 32%nat | None => True end).
  split; [apply length_cell_path|]. destruct a; [|done]. apply hash_length.
Qed.

(** A branch of the trie of some cells has its digest taken by another row. *)
Definition cell_conflict (O : gmap CellKey CellValue) (tx : T) : Prop :=
  conflict CELL_TRIE_PATH_BYTES CELL_TRIE CELL_BRANCH_DOMAIN (keyed_leaves cell_path cell_commitment O) tx.

(** The branch rows written were of that trie. *)
Definition cell_grown (O : gmap CellKey CellValue) (tx tx' : T) : Prop :=
  grown CELL_TRIE_PATH_BYTES CELL_TRIE CELL_BRANCH_DOMAIN (keyed_leaves cell_path cell_commitment O) tx tx'.

(** A trie operation's outcome with its errors wrapped. *)
Lemma trie_wp_cells {A} L (P : A -> T -> Prop) (c : stres T MerkleError A) tx : trie_wp L P c tx ->
  let '(r, tx') := st_map_err CE_Merkle c tx in
  (forall tb, tb <> CELL_TRIE -> view tx' tb = view tx tb) /\
  match r with
  | Ok a => P a tx'
  | Err (CE_Merkle ConflictingBranch) => conflict CELL_TRIE_PATH_BYTES CELL_TRIE CELL_BRANCH_DOMAIN L tx' /\
      grown CELL_TRIE_PATH_BYTES CELL_TRIE CELL_BRANCH_DOMAIN L tx tx'
  | _ => False
  end.
Proof using.
  unfold wp, st_map_err. destruct (c tx) as [r tx']. intros ([_ Ho] & Hg & Hr). split; [done|]. by destruct r as [|[]| |].
Qed.

Lemma cell_set_ok tx root m O (L : list (CellKey * option CellValue)) : trie_map tx root m ->
  let '(r, tx') := cell_set root ((fun '(key, change) => (key, vc_after change)) <$> (as_change O <$> L)) tx in
  (forall tb, tb <> CELL_TRIE -> view tx' tb = view tx tb) /\
  match r with
  | Ok root' => trie_map tx' root' (edit_map m (keyed_edit cell_path cell_commitment <$> L))
  | Err (CE_Merkle ConflictingBranch) => conflict CELL_TRIE_PATH_BYTES CELL_TRIE CELL_BRANCH_DOMAIN
      (map_leaves (edit_map m (keyed_edit cell_path cell_commitment <$> L))) tx' /\
      grown CELL_TRIE_PATH_BYTES CELL_TRIE CELL_BRANCH_DOMAIN (map_leaves (edit_map m (keyed_edit cell_path cell_commitment <$> L))) tx tx'
  | _ => False
  end.
Proof using HLw WL.
  intros Hrep. unfold cell_set. rewrite cell_edits_keyed.
  apply (trie_wp_cells _ (fun root' tx' => trie_map tx' root' (edit_map m (keyed_edit cell_path cell_commitment <$> L)))).
  exact (represents_apply _ _ _ width32 table_ok_CELL_TRIE _ _ _ _ Hrep (keyed_edits_wf L)).
Qed.

(** The batch's checks pass over the state it is applied to. *)
Lemma apply_checks tx root O changes : cells_state tx root O -> Forall change_wf changes -> distinct_paths O (batch changes) ->
  check_changes tx root (normalize_changes changes) = Ok (as_change O <$> net_changes O changes).
Proof using HLw.
  intros Hst Hw Hd. unfold normalize_changes. rewrite normalize_entries. apply (check_changes_ok tx root O (batch changes)); [done..|].
  apply Forall_forall. intros [k a] Hin%elem_of_entries. split; [by eapply batch_wf|by eexists].
Qed.

(** A batch of what is there already changes nothing. *)
Lemma cells_apply_same tx root O changes : cells_state tx root O -> Forall change_wf changes -> distinct_paths O (batch changes) ->
  (forall k a, batch changes !! k = Some a -> O !! k = a) ->
  Cells_apply root changes tx = (Ok {| cu_root := root; cu_changed_cells := [] |}, tx).
Proof using HLw.
  intros Hst Hw Hd Hsame. unfold Cells_apply, reading. unfold mbind at 1, stres_mbind at 1. rewrite (apply_checks tx root O) by done.
  assert (net_changes O changes = []) as ->.
  { destruct (net_changes O changes) as [|[k a] l] eqn:E; [done|]. exfalso.
    assert ((k, a) ∈ net_changes O changes) as Hin by (rewrite E; apply list_elem_of_here).
    apply elem_of_net_changes in Hin as [Hb Hne]. by apply Hne, Hsame. }
  destruct Hst as [_ (m & Hm & _)]. unfold mbind at 1, stres_mbind at 1. unfold cell_set, st_map_err. cbn [fmap list_fmap].
  by rewrite (represents_apply_nil _ _ _ width32 table_ok_CELL_TRIE tx root m Hm).
Qed.

Lemma cells_apply_ok tx root O changes :
  cells_state tx root O -> Forall change_wf changes -> distinct_paths O (batch changes) ->
  let '(r, tx') := Cells_apply root changes tx in
  (forall tb, tb <> CELL -> tb <> CELL_TRIE -> view tx' tb = view tx tb) /\
  match r with
  | Ok u => cells_state tx' (cu_root u) (change_cells O changes) /\
      cu_changed_cells u = (fun c => {| vc_key := fst c; vc_before := O !! fst c; vc_after := snd c |})
        <$> net_changes O changes
  | Err (CE_Merkle ConflictingBranch) => cell_conflict (change_cells O changes) tx' /\ cell_grown (change_cells O changes) tx tx' /\ view tx' CELL = view tx CELL
  | _ => False
  end.
Proof using HLw WL.
  intros Hst Hw Hd. pose proof (apply_checks tx root O changes Hst Hw Hd) as Hcheck. unfold Cells_apply.
  unfold reading. unfold mbind at 1, stres_mbind at 1. rewrite Hcheck.
  set (L := net_changes O changes). set (O' := change_cells O changes).
  assert (HO' : forall k, O' !! k = match batch changes !! k with Some v => v | None => O !! k end)
    by (intros k; apply change_cells_lookup).
  destruct Hst as [Hdec (m & Hrep & Hm)].
  assert (Hm' : keyed cell_path cell_commitment (edit_map m (keyed_edit cell_path cell_commitment <$> L)) O').
  { apply (keyed_edits cell_path cell_commitment O O' (batch changes) L HO'); [|exact Hd|exact Hm]. intros k a. apply elem_of_net_changes. }
  unfold mbind at 1, stres_mbind at 1. pose proof (cell_set_ok tx root m O L Hrep) as Hset.
  destruct (cell_set root _ tx) as [r tx1]. destruct Hset as [Hother Hr].
  destruct r as [root'|[e|e|e|e|]| |]; try done.
  2: { destruct e; try done. destruct Hr as [Hcf Hg]. split; [intros tb _ Htb; by apply Hother|]. split; [|split; [|by apply Hother]].
    - eapply conflict_ext; [|exact Hcf]. intros l. by apply keyed_map_leaves.
    - eapply grown_ext; [|exact Hg]. intros l. by apply keyed_map_leaves. }
  unfold mbind at 1, stres_mbind at 1. destruct (write_values_ok (as_change O <$> L) tx1) as (tx2 & -> & HC & HO2). cbn [mret stres_mret].
  split; [intros tb H1 H2; rewrite HO2 by done; by apply Hother|]. cbn [cu_root cu_changed_cells]. split; [split|].
  - split.
    + intros k v Hk. rewrite HO' in Hk. destruct (batch changes !! k) as [a|] eqn:Eb; [|by apply Hdec].
      destruct (batch_wf _ _ _ Hw Eb) as [? Hv]. split; [done|by apply Hv].
    + rewrite HC, Hother by done.
      assert (Hrows : (fun c => (fst c, cv_bytes <$> vc_after (snd c))) <$> (as_change O <$> L) =
        keyed_edit CellKey_encode (fun _ => cv_bytes) <$> L).
      { rewrite <- list_fmap_compose. apply list_fmap_ext. by intros i [k a] _. }
      rewrite Hrows. apply (keyed_edits CellKey_encode (fun _ => cv_bytes) O O' (batch changes) L HO').
      * intros k a. apply elem_of_net_changes.
      * assert (forall k, is_Some (O !! k) \/ is_Some (batch changes !! k) -> CellKey_wf k) as Hkw.
        { intros k [[v Hv]|[a Ha]]; [by eapply Hdec|by eapply batch_wf]. }
        intros k1 k2 H1 H2. apply CellKey_encode_inj; auto.
      * exact (proj2 Hdec).
  - exists (edit_map m (keyed_edit cell_path cell_commitment <$> L)). split.
    + eapply represents_mono; [|exact Hr]. by rewrite HO2.
    + exact Hm'.
  - rewrite <- list_fmap_compose. done.
Qed.

(** ** Reopening *)

(** The cells of a singleton commitment. *)
Lemma keyed_singleton (O : gmap CellKey CellValue) (m : gmap bytes Hash) l :
  keyed cell_path cell_commitment m O -> distinct_paths O (∅ : gmap CellKey unit) ->
  (forall path h, m !! path = Some h <-> has (TLeaf l) {| lf_path := path; lf_hash := h |}) ->
  exists k v, O = {[k := v]} /\ l = cell_leaf (cell_path k) v.
Proof using.
  intros Hm Hd Ht. assert (m !! lf_path l = Some (lf_hash l)) as E by (apply Ht; destruct l; constructor).
  apply Hm in E as (k & v & Hk & Ep & Eh). exists k, v. split.
  - apply map_eq. intros k'. apply option_eq. intros v'. rewrite lookup_singleton_Some. split; [|by intros [<- <-]].
    intros Hk'. assert (m !! cell_path k' = Some (cell_commitment k' v')) as E by (apply Hm; eauto).
    apply Ht, has_leaf_inv in E. assert (k = k') as <-.
    { apply Hd; [left; by eexists|left; by eexists|]. rewrite <- Ep. by destruct l; injection E. }
    split; [done|]. congruence.
  - destruct l as [lp lh]. cbn in Ep, Eh. by subst.
Qed.

Lemma decoded_singleton rows k v : decoded rows {[k := v]} -> rows = {[CellKey_encode k := cv_bytes v]}.
Proof using.
  intros [_ Hr]. apply map_eq. intros kb. apply option_eq. intros vb. rewrite Hr, lookup_singleton_Some.
  setoid_rewrite lookup_singleton_Some. naive_solver.
Qed.

Lemma reopen_ok tx root O : cells_state tx root O -> distinct_paths O (∅ : gmap CellKey unit) ->
  (root <> REmpty -> RootRef_hash root <> hash []) ->
  (forall l, root = RLeaf l -> view tx CELL_TRIE !! lf_hash l = None) ->
  Cells_reopen tx (RootRef_hash root) = Ok root.
Proof using HLw.
  intros [Hdec (m & (t & -> & Hwf & Hs & Hm) & Hk)] Hd Hne Hleaf. unfold Cells_reopen.
  destruct (cursor_spec tx CELL [] table_ok_CELL) as (c & Ec & Hc).
  destruct (next_spec c _ _ Hc) as (c1 & E1 & Hc1).
  destruct t as [|l|p cs]; cbn [ref_of RootRef_hash] in *.
  - rewrite bool_decide_true by done. unfold mbind, res_mbind. rewrite Ec. cbn [map_err]. rewrite E1. cbn [fst map_err].
    assert (view tx CELL = ∅) as ->; [|by rewrite empty_rows].
    apply map_eq. intros kb. apply option_eq. intros vb. rewrite lookup_empty. split; [|done].
    intros (k & v & Hkv & _)%Hdec. assert (m !! cell_path k = Some (cell_commitment k v)) as E by (apply Hk; eauto).
    by apply Hm, has_empty in E.
  - rewrite bool_decide_false by (by apply Hne). unfold mbind, res_mbind. rewrite get_spec, Hleaf by done. cbn [map_err].
    rewrite Ec. cbn [map_err]. rewrite E1. destruct (keyed_singleton O m l Hk Hd Hm) as (k & v & -> & ->).
    apply decoded_singleton in Hdec as Hrows. rewrite Hrows in *.
    destruct (singleton_rows (CellKey_encode k) (cv_bytes v)) as [R1 R2]. rewrite R1 in *. cbn [moved_to] in Hc1.
    destruct (next_spec c1 _ _ Hc1) as (c2 & E2 & _). rewrite E2, R2. cbn [fst map_err].
    destruct (proj1 Hdec k v) as [Hkw Hvw]; [by rewrite lookup_singleton_eq|].
    rewrite CellKey_decode_encode by done. cbn [map_err]. unfold CellValue_wf in Hvw. rewrite Hvw. cbn [map_err].
    by rewrite bool_decide_true.
  - rewrite bool_decide_false by (by apply Hne). unfold mbind, res_mbind. rewrite get_spec by done.
    inversion Hs as [| |? ? Hrow _]; subst. cbn [map_err]. rewrite Hrow. unfold validate_root, mbind, res_mbind.
    rewrite (load_ok CELL_TRIE_PATH_BYTES CELL_TRIE CELL_BRANCH_DOMAIN width32 table_ok_CELL_TRIE [] p cs) by done. done.
Qed.

Lemma reopen_sound tx h root : Cells_reopen tx h = Ok root -> RootRef_hash root = h.
Proof using.
  unfold Cells_reopen. case_bool_decide as E.
  - intros Hr. inv_ok. case_match; [done|]. simplify_eq. done.
  - intros Hr. apply res_bind_ok in Hr as (row & _ & Hr). destruct row.
    + inv_ok. by simplify_eq.
    + apply res_bind_ok in Hr as (c & _ & Hr). destruct (cur_next c) as [[[[key value]|]| | |] c']; try done.
      apply res_bind_ok in Hr as ([] & _ & Hr); [done|]. apply res_bind_ok in Hr as (? & _ & Hr).
      apply res_bind_ok in Hr as (v & _ & Hr). case_bool_decide; [|done]. by injection Hr as <-.
Qed.
End State.

(** * Properties *)

Section Claims.
Context `{HashProvider} {HLw : HashLaws}.
Context {T : Type} `{WT : WriteTransaction T} {RL : ReadLaws T} {WL : WriteLaws T}.

(** C12. [Cells::apply] keeps the cell table and its commitment in step: started
    from a root that commits to exactly the table's cells, it ends in a root
    that commits to exactly the changed cells, which are then the table's;
    it reports, in key order, the net change of every key whose value really
    changed and of no other; it touches no other table. Its only failure is a
    conflicting branch row: then some branch of the changed cells' trie has its
    digest taken by another row, the branch rows added are of that trie, and no
    cell row was written. *)
Theorem cells_apply_keeps_commitment tx root O changes :
  cells_state tx root O -> Forall change_wf changes -> distinct_paths O (batch changes) ->
  let '(r, tx') := Cells_apply root changes tx in
  (forall tb, tb <> CELL -> tb <> CELL_TRIE -> view tx' tb = view tx tb) /\
  match r with
  | Ok u => cells_state tx' (cu_root u) (change_cells O changes) /\
      cu_changed_cells u = (fun c => {| vc_key := fst c; vc_before := O !! fst c; vc_after := snd c |})
        <$> net_changes O changes
  | Err (CE_Merkle ConflictingBranch) => cell_conflict (change_cells O changes) tx' /\ cell_grown (change_cells O changes) tx tx' /\ view tx' CELL = view tx CELL
  | _ => False
  end.
Proof using HLw WL. apply cells_apply_ok. Qed.

(** Reopening a state by its digest returns the very root that commits to
    the table's cells (empty, single cell or branch), provided the digests
    involved do not collide; and whatever it returns has that digest. *)
Theorem cells_reopen_recovers_root tx root O :
  cells_state tx root O -> distinct_paths O (∅ : gmap CellKey unit) ->
  (root <> REmpty -> RootRef_hash root <> hash []) ->
  (forall l, root = RLeaf l -> view tx CELL_TRIE !! lf_hash l = None) ->
  Cells_reopen tx (RootRef_hash root) = Ok root /\
  (forall h root', Cells_reopen tx h = Ok root' -> RootRef_hash root' = h).
Proof using HLw. intros. split; [by eapply reopen_ok|apply reopen_sound]. Qed.
End Claims.

(** ** Concrete instances *)

Definition sample_key : CellKey := {| ck_record_id := 64; ck_name := of_string "age" |}.

Lemma sample_key_wf : CellKey_wf sample_key.
Proof. split; vm_compute; congruence. Qed.

Lemma sample_value_wf : CellValue_wf (from_bool true).
Proof. reflexivity. Qed.

Lemma empty_state : cells_state tx0 REmpty ∅.
Proof.
  split; [split|].
  - intros k v Hk. by rewrite lookup_empty in Hk.
  - intros kb vb. split; [done|]. intros (k & v & Hk & _). by rewrite lookup_empty in Hk.
  - exists ∅. split; [apply represents_empty|]. intros p h. split; [by rewrite lookup_empty|].
    intros (k & v & Hk & _). by rewrite lookup_empty in Hk.
Qed.

(** A batch that puts a cell twice and deletes an absent one. *)
Definition sample_changes : list CellChange :=
  [Put sample_key (from_bool false); Put sample_key (from_bool true)].

Lemma sample_distinct : distinct_paths (∅ : gmap CellKey CellValue) (batch sample_changes).
Proof.
  assert (forall k, is_Some ((∅ : gmap CellKey CellValue) !! k) \/ is_Some (batch sample_changes !! k) -> k = sample_key) as Hk.
  { intros k [[v Hv]|[v Hv]]; [by rewrite lookup_empty in Hv|]. unfold batch in Hv. cbn in Hv.
    rewrite !lookup_insert_Some, lookup_empty in Hv. naive_solver. }
  intros k1 k2 H1%Hk H2%Hk _. congruence.
Qed.

Lemma cells_apply_keeps_commitment_witness : exists u tx',
  Cells_apply REmpty sample_changes tx0 = (Ok u, tx') /\ cells_state tx' (cu_root u) (change_cells ∅ sample_changes) /\
  cu_changed_cells u = [{| vc_key := sample_key; vc_before := None; vc_after := Some (from_bool true) |}].
Proof.
  assert (Hw : Forall change_wf sample_changes) by (repeat constructor; apply sample_key_wf || reflexivity || (split; [apply sample_key_wf|reflexivity])).
  pose proof (cells_apply_keeps_commitment tx0 REmpty ∅ sample_changes empty_state Hw sample_distinct) as Hc.
  assert (Hok : is_ok (Cells_apply REmpty sample_changes tx0).1 = true) by (vm_compute; reflexivity).
  destruct (Cells_apply REmpty sample_changes tx0) as [[u|e| |] tx']; [|discriminate Hok..].
  destruct Hc as (_ & Hst & E). exists u, tx'. split; [reflexivity|]. split; [exact Hst|].
  rewrite E. vm_compute. reflexivity.
Defined.

Lemma cells_reopen_recovers_root_witness : Cells_reopen tx0 (RootRef_hash REmpty) = Ok REmpty.
Proof.
  apply (cells_reopen_recovers_root tx0 REmpty ∅ empty_state).
  - intros k1 k2 [[v Hv]|[v Hv]]; by rewrite lookup_empty in Hv.
  - done.
  - done.
Defined.
