(* ===== verification/Buffer.v ===== *)
(** Storage writes staged over a committed snapshot: crates/branch/src/buffer.rs.

    [Buffered] is itself a transaction: it satisfies the storage contract over
    any snapshot that does ([Buffered_read_laws], [Buffered_write_laws]), so
    every theorem proved against the contract holds when a seal runs over it. *)
From Stdlib Require Import ZArith Lia.
From S2P Require Import Prelude Ordered Storage.

(** [Rows] and [Writes]: [None] is a staged deletion. *)
Abbreviation StagedRows := (gmap bytes (option bytes)).
Abbreviation Writes := (gmap Table StagedRows).

Section Buffered.
Context {R : Type} `{RT : ReadTransaction R}.

Record Buffered := { bf_origin : R; bf_writes : Writes }.

Definition Buffered_new (origin : R) : Buffered := {| bf_origin := origin; bf_writes := ∅ |}.

(** [into_writes] *)
Definition into_writes (b : Buffered) : Writes := bf_writes b.

(** [validate] *)
Definition buffer_validate (table : Table) : res StorageError unit :=
  if bool_decide (table = EmptyString) || contains_nul table then Err (InvalidTableName table) else Ok ().

Definition Buffered_get (b : Buffered) (table : Table) (key : bytes) : res StorageError (option bytes) :=
  _ ← buffer_validate table;
  match bf_writes b !! table ≫= fun rows => rows !! key with
  | Some value => Ok value
  | None => tx_get (bf_origin b) table key
  end.

(** [BufferedCursor]; its [Position::Start] is the contract's [Key]. *)
Record BufferedCursor := {
  bc_origin : R;
  bc_table : Table;
  bc_cursor : Cursor R;
  bc_rows : option StagedRows;
  bc_position : Position
}.

Definition Buffered_cursor (b : Buffered) (table : Table) (key : bytes) : res StorageError BufferedCursor :=
  _ ← buffer_validate table;
  cursor ← tx_cursor (bf_origin b) table key;
  Ok {| bc_origin := bf_origin b; bc_table := table; bc_cursor := cursor;
        bc_rows := bf_writes b !! table; bc_position := Key key |}.

(** A row already returned, or one the staged rows shadow. *)
Definition skipped (position : Position) (rows : option StagedRows) (key : bytes) : bool :=
  match position with At a => bool_decide (a = key) | _ => false end
  || match rows with Some rows => bool_decide (is_Some (rows !! key)) | None => false end.

(** The loop of [step] over the origin's rows. Each row it skips has another
    key among the staged ones or is the present one, so [size rows + 2]
    iterations are enough. *)
Fixpoint origin_row (fuel : nat) (forward : bool) (position : Position) (rows : option StagedRows)
    : stres (Cursor R) StorageError (option Entry) := fun cursor =>
  match fuel with
  | O => (Diverge, cursor)
  | S fuel =>
      match (if forward then cur_next cursor else cur_prev cursor) with
      | (Ok (Some (key, value)), cursor) =>
          if skipped position rows key then origin_row fuel forward position rows cursor
          else (Ok (Some (key, value)), cursor)
      | (r, cursor) => (r, cursor)
      end
  end.

Definition origin_fuel (rows : option StagedRows) : nat := from_option size 0 rows + 2.

(** [find_map] over the staged rows of a range that are not deletions. *)
Definition staged_row (forward : bool) (bound : Bound bytes) (rows : option StagedRows) : option Entry :=
  rows ← rows;
  let some_value '(key, value) := (fun v => (key, v)) <$> (value : option bytes) in
  if forward then head (omap some_value (range bound Unbounded rows))
  else last (omap some_value (range Unbounded bound rows)).

(** [step] *)
Definition BufferedCursor_step (forward : bool) : stres BufferedCursor StorageError (option Entry) := fun c =>
  if match bc_position c, forward with After, true | Before, false => true | _, _ => false end
  then (Ok None, c)
  else
    let seek :=
      match bc_position c with
      | Key key => cursor ← tx_cursor (bc_origin c) (bc_table c) key; Ok (cursor, Included key)
      | At key => cursor ← tx_cursor (bc_origin c) (bc_table c) key; Ok (cursor, Excluded key)
      | Before | After => Ok (bc_cursor c, Unbounded)
      end in
    match seek with
    | Ok (cursor, bound) =>
        let overlay := staged_row forward bound (bc_rows c) in
        let set cursor position :=
          {| bc_origin := bc_origin c; bc_table := bc_table c; bc_cursor := cursor;
             bc_rows := bc_rows c; bc_position := position |} in
        match origin_row (origin_fuel (bc_rows c)) forward (bc_position c) (bc_rows c) cursor with
        | (Ok origin, cursor) =>
            let row :=
              match origin, overlay with
              | Some a, Some b => Some (if Bool.eqb (ltb (fst a) (fst b)) forward then a else b)
              | Some a, None => Some a
              | None, b => b
              end in
            (Ok row, set cursor match row with
                                | Some (key, _) => At key
                                | None => if forward then After else Before
                                end)
        | (Err e, cursor) => (Err e, set cursor (bc_position c))
        | (Panic, cursor) => (Panic, set cursor (bc_position c))
        | (Diverge, cursor) => (Diverge, set cursor (bc_position c))
        end
    | Err e => (Err e, c)
    | Panic => (Panic, c)
    | Diverge => (Diverge, c)
    end.

#[global] Instance Buffered_read : ReadTransaction Buffered := {|
  Cursor := BufferedCursor;
  tx_get := Buffered_get;
  tx_cursor := Buffered_cursor;
  cur_next := BufferedCursor_step true;
  cur_prev := BufferedCursor_step false
|}.

(** [self.writes.entry(table).or_default().insert(key, value)] *)
Definition stage (table : Table) (key : bytes) (value : option bytes) (b : Buffered) : Buffered :=
  {| bf_origin := bf_origin b;
     bf_writes := <[table := <[key := value]> (default ∅ (bf_writes b !! table))]> (bf_writes b) |}.

Definition Buffered_put (table : Table) (key value : bytes) : stres Buffered StorageError unit := fun b =>
  match buffer_validate table with
  | Ok _ => (Ok (), stage table key (Some value) b)
  | Err e => (Err e, b)
  | Panic => (Panic, b)
  | Diverge => (Diverge, b)
  end.

Definition Buffered_insert (table : Table) (key value : bytes) : stres Buffered StorageError unit := fun b =>
  match Buffered_get b table key with
  | Ok (Some _) => (Err AlreadyExists, b)
  | Ok None => Buffered_put table key value b
  | Err e => (Err e, b)
  | Panic => (Panic, b)
  | Diverge => (Diverge, b)
  end.

Definition Buffered_delete (table : Table) (key : bytes) : stres Buffered StorageError bool := fun b =>
  match Buffered_get b table key with
  | Ok (Some _) => (Ok true, stage table key None b)
  | Ok None => (Ok false, b)
  | Err e => (Err e, b)
  | Panic => (Panic, b)
  | Diverge => (Diverge, b)
  end.

(** [WriteTransaction::is_empty], as the trait defines it by default. *)
Definition default_is_empty (b : Buffered) : res StorageError bool :=
  Err (Backend "backend cannot inspect its table catalogue").

#[global] Instance Buffered_write : WriteTransaction Buffered := {|
  tx_is_empty := default_is_empty;
  tx_put := Buffered_put;
  tx_insert := Buffered_insert;
  tx_delete := Buffered_delete
|}.
End Buffered.
Arguments Buffered R : clear implicits.

(** * The first row in a direction *)

(** In which order a direction visits keys, and which keys are ahead of a position. *)
Definition dle (forward : bool) (a b : bytes) : Prop := if forward then kle a b else kle b a.

Definition beyond (forward : bool) (p : Position) (k : bytes) : bool :=
  match p with
  | Key a => if forward then leb a k else leb k a
  | At a => if forward then ltb a k else ltb k a
  | Before => forward
  | After => negb forward
  end.

Definition moved (forward : bool) (rows : Rows) (p : Position) : option Entry :=
  if forward then next_row rows p else prev_row rows p.

(** [o] is the first of the rows whose keys satisfy [P]. *)
Definition first_row (forward : bool) (P : bytes -> bool) (rows : Rows) (o : option Entry) : Prop :=
  match o with
  | Some (k, v) => rows !! k = Some v /\ P k = true /\
      forall k' v', rows !! k' = Some v' -> P k' = true -> dle forward k k'
  | None => forall k v, rows !! k = Some v -> P k = false
  end.

Lemma dle_antisymm forward a b : dle forward a b -> dle forward b a -> a = b.
Proof. destruct forward; cbn; intros; by apply (anti_symm kle). Qed.

Lemma first_row_unique forward P rows o o' : first_row forward P rows o -> first_row forward P rows o' -> o = o'.
Proof.
  destruct o as [[k v]|], o' as [[k' v']|]; cbn; [|intros (Hk & HP & _) Hn; by rewrite (Hn k v) in HP|
    intros Hn (Hk & HP & _); by rewrite (Hn k' v') in HP|done].
  intros (Hk & HP & Hle) (Hk' & HP' & Hle').
  assert (k = k') as <- by (eapply dle_antisymm; eauto). congruence.
Qed.

(** The ends of a sorted list of rows. *)
Lemma head_first P rows (l : list Entry) : StronglySorted klt l.*1 ->
  (forall k v, (k, v) ∈ l <-> rows !! k = Some v /\ P k = true) -> first_row true P rows (head l).
Proof.
  intros Hs Hl. destruct (head l) as [[k v]|] eqn:E; cbn.
  - destruct (sorted_head l k v Hs E) as [Hin Hle]. apply Hl in Hin as [? ?]. split_and!; [done..|].
    intros k' v' Hk' HP. apply (Hle k' v'), Hl. done.
  - intros k v Hk. destruct (P k) eqn:EP; [|done]. apply head_None in E. subst l.
    destruct (not_elem_of_nil (k, v)). by apply Hl.
Qed.

Lemma last_first P rows (l : list Entry) : StronglySorted klt l.*1 ->
  (forall k v, (k, v) ∈ l <-> rows !! k = Some v /\ P k = true) -> first_row false P rows (last l).
Proof.
  intros Hs Hl. destruct (last l) as [[k v]|] eqn:E; cbn.
  - destruct (sorted_last l k v Hs E) as [Hin Hle]. apply Hl in Hin as [? ?]. split_and!; [done..|].
    intros k' v' Hk' HP. apply (Hle k' v'), Hl. done.
  - intros k v Hk. destruct (P k) eqn:EP; [|done]. apply last_None in E. subst l.
    destruct (not_elem_of_nil (k, v)). by apply Hl.
Qed.

Lemma moved_first forward rows p : first_row forward (beyond forward p) rows (moved forward rows p).
Proof.
  destruct forward, p; cbn [moved next_row prev_row]; try (intros k v Hk; done).
  all: (apply head_first || apply last_first); try apply range_sorted; try apply entries_sorted; intros k' v'.
  all: rewrite ?elem_of_range, ?elem_of_entries; cbn; naive_solver.
Qed.

(** * The staged view *)

Definition overlay_rows (w : StagedRows) (rows : Rows) : Rows :=
  merge (fun staged row => match staged with Some v => v | None => row end) w rows.

Lemma overlay_lookup w rows k :
  overlay_rows w rows !! k = match w !! k with Some v => v | None => rows !! k end.
Proof. unfold overlay_rows. rewrite lookup_merge. by destruct (w !! k), (rows !! k). Qed.

Lemma overlay_rows_empty rows : overlay_rows ∅ rows = rows.
Proof. apply map_eq. intros k. by rewrite overlay_lookup, lookup_empty. Qed.

(** The staged values alone. *)
Definition staged_values (w : StagedRows) : Rows := omap id w.

Lemma staged_values_lookup w k v : staged_values w !! k = Some v <-> w !! k = Some (Some v).
Proof. unfold staged_values. rewrite lookup_omap. destruct (w !! k) as [[]|]; naive_solver. Qed.

Lemma omap_values_sorted (l : list (bytes * option bytes)) : StronglySorted klt l.*1 ->
  StronglySorted klt (omap (fun '(key, value) => (fun v => (key, v)) <$> (value : option bytes)) l).*1.
Proof.
  induction l as [|[k [v|]] l IH]; [done|..]; cbn; intros [Hs Hk]%StronglySorted_inv; [|auto].
  constructor; [auto|]. apply Forall_fmap, Forall_forall. intros [k' v'] Hin. cbn.
  apply list_elem_of_omap in Hin as ([k0 [v0|]] & Hin & E); [|done]. cbn in E. injection E as -> ->.
  rewrite Forall_fmap, Forall_forall in Hk. by apply (Hk _ Hin).
Qed.

Lemma elem_of_omap_values (l : list (bytes * option bytes)) k v :
  (k, v) ∈ omap (fun '(key, value) => (fun v => (key, v)) <$> (value : option bytes)) l <-> (k, Some v) ∈ l.
Proof.
  rewrite list_elem_of_omap. split.
  - intros ([k0 [v0|]] & Hin & E); [|done]. cbn in E. by injection E as -> ->.
  - intros Hin. by exists (k, Some v).
Qed.

(** The bound [step] passes for a position. *)
Definition bound_of (p : Position) : Bound bytes :=
  match p with Key k => Included k | At k => Excluded k | Before | After => Unbounded end.

(** The move is not refused at once. *)
Definition can_move (forward : bool) (p : Position) : bool :=
  match p, forward with After, true | Before, false => false | _, _ => true end.

Lemma staged_row_first (forward : bool) (p : Position) (w : StagedRows) : can_move forward p = true ->
  first_row forward (beyond forward p) (staged_values w) (staged_row forward (bound_of p) (Some w)).
Proof.
  intros Hc. unfold staged_row. cbn [mbind option_bind]. destruct forward.
  - apply head_first; [apply omap_values_sorted, range_sorted|]. intros k v.
    rewrite elem_of_omap_values, elem_of_range, staged_values_lookup. destruct p; cbn in *; naive_solver.
  - apply last_first; [apply omap_values_sorted, range_sorted|]. intros k v.
    rewrite elem_of_omap_values, elem_of_range, staged_values_lookup. destruct p; cbn in *; naive_solver.
Qed.

(** Past a returned row the same rows are ahead, less that one. *)
Lemma beyond_at forward p k k' : beyond forward p k = true -> beyond forward (At k) k' = true -> beyond forward p k' = true.
Proof.
  destruct p, forward; cbn; rewrite ?leb_kle, ?ltb_klt; try done; intros.
  - apply klt_kle. by eapply kle_klt_trans.
  - apply klt_kle. by eapply klt_kle_trans.
  - by etrans.
  - by etrans.
Qed.

Lemma beyond_at_self forward k : beyond forward (At k) k = false.
Proof. destruct forward; cbn; apply ltb_false, kle_refl. Qed.

Section Laws.
Context {R : Type} `{RL : ReadLaws R}.

Lemma move_spec (forward : bool) (c : Cursor R) rows p : cursor_at c rows p ->
  exists c', (if forward then cur_next c else cur_prev c) = (Ok (moved forward rows p), c') /\
    cursor_at c' rows (moved_to (moved forward rows p) (if forward then After else Before)).
Proof using. intros Hc. destruct forward; [by apply next_spec|by apply prev_spec]. Qed.

(** The skipped keys still ahead. *)
Definition skips (forward : bool) (p : Position) (S : gset bytes) : nat :=
  size (filter (fun k => beyond forward p k = true) S).

Lemma skips_step (forward : bool) (p : Position) (S : gset bytes) k : k ∈ S -> beyond forward p k = true ->
  (skips forward (At k) S < skips forward p S)%nat.
Proof using.
  intros Hk Hb. unfold skips. apply subset_size. split.
  - intros k' [H1 H2]%elem_of_filter. apply elem_of_filter. split; [|done]. by eapply beyond_at.
  - intros Hsub. specialize (Hsub k). rewrite !elem_of_filter, beyond_at_self in Hsub. naive_solver.
Qed.

Lemma origin_row_ok (fuel : nat) (forward : bool) (position : Position) (staged : option StagedRows) (c : Cursor R) (rows : Rows) (p : Position) (S : gset bytes) :
  cursor_at c rows p -> (forall k, skipped position staged k = true -> k ∈ S) ->
  (skips forward p S < fuel)%nat ->
  exists o c' p', origin_row fuel forward position staged c = (Ok o, c') /\ cursor_at c' rows p' /\
    first_row forward (fun k => beyond forward p k && negb (skipped position staged k)) rows o /\
    (o = None -> p' = if forward then After else Before).
Proof using.
  intros Hc HS. revert c p Hc. induction fuel as [|fuel IH]; intros c p Hc Hf; [lia|]. cbn [origin_row].
  destruct (move_spec forward c rows p Hc) as (c1 & -> & Hc1).
  pose proof (moved_first forward rows p) as Hfirst. destruct (moved forward rows p) as [[k v]|]; cbn [moved_to] in Hc1.
  - destruct Hfirst as (Hk & Hb & Hle). destruct (skipped position staged k) eqn:Es.
    + destruct (IH c1 (At k) Hc1) as (o & c' & p' & -> & Hc' & Ho & Hn).
      { pose proof (skips_step forward p S k (HS k Es) Hb). lia. }
      exists o, c', p'. split_and!; [done..| |done]. destruct o as [[k1 v1]|]; cbn in Ho |- *.
      * destruct Ho as (Hk1 & [Hb1 Hs1]%andb_true_iff & Hle1). split_and!; [done| |].
        { rewrite Hs1, (beyond_at _ _ _ _ Hb Hb1). done. }
        intros k' v' Hk' [Hb' Hs']%andb_true_iff. apply (Hle1 k' v' Hk'). rewrite Hs', andb_true_r.
        destruct (beyond forward (At k) k') eqn:E; [done|]. exfalso. assert (dle forward k k') as Hd by (by eapply Hle).
        assert (k = k') as <-; [|by rewrite Es in Hs'].
        destruct forward; cbn in E, Hd; apply ltb_false in E; by apply (anti_symm kle).
      * intros k' v' Hk'. specialize (Ho k' v' Hk'). destruct (skipped position staged k') eqn:Es'; [by rewrite andb_false_r|].
        rewrite andb_true_r in Ho |- *. destruct (beyond forward p k') eqn:E; [|done]. exfalso.
        assert (dle forward k k') as Hd by (by eapply Hle). assert (k = k') as <-; [|congruence].
        destruct forward; cbn in Ho, Hd; apply ltb_false in Ho; by apply (anti_symm kle).
    + exists (Some (k, v)), c1, (At k). split_and!; [done..| |done]. cbn. rewrite Hb, Es. split_and!; [done..|].
      intros k' v' Hk' [Hb' _]%andb_true_iff. by eapply Hle.
  - exists None, c1, (if forward then After else Before). split_and!; [done..| |done].
    intros k v Hk. by rewrite (Hfirst k v Hk).
Qed.

Lemma skips_bound (forward : bool) (p position : Position) (staged : option StagedRows) :
  exists S : gset bytes, (forall k, skipped position staged k = true -> k ∈ S) /\
    (skips forward p S < origin_fuel staged)%nat.
Proof using.
  exists ((match position with At a => {[a]} | _ => ∅ end) ∪ (match staged with Some w => dom w | None => ∅ end)). split.
  - intros k [Hk|Hk]%orb_true_iff; apply elem_of_union; [left|right].
    + destruct position; try done. apply bool_decide_eq_true in Hk as ->. by apply elem_of_singleton.
    + destruct staged; [|done]. apply bool_decide_eq_true in Hk. by apply elem_of_dom.
  - unfold skips, origin_fuel.
    assert (forall X Y : gset bytes, (size (filter (fun k => beyond forward p k = true) (X ∪ Y)) <= size X + size Y)%nat) as Hsz.
    { intros X Y. etrans; [apply (subseteq_size _ (X ∪ Y)); intros k [_ ?]%elem_of_filter; done|].
      rewrite size_union_alt. pose proof (subseteq_size (Y ∖ X) Y ltac:(set_solver)). lia. }
    specialize (Hsz (match position with At a => {[a]} | _ => ∅ end) (match staged with Some w => dom w | None => ∅ end)).
    assert (size (match position with At a => {[a]} | _ => ∅ end : gset bytes) <= 1)%nat by (destruct position; by rewrite ?size_singleton, ?size_empty; lia).
    assert (size (match staged with Some w => dom w | None => ∅ end : gset bytes) = from_option size 0 staged) as E
      by (destruct staged; cbn; [apply size_dom|apply size_empty]). lia.
Qed.

(** The nearer of the first staged row and the first row of the origin that
    is not shadowed is the first row of the staged view. *)
Lemma merge_first (forward : bool) (p position : Position) (w : StagedRows) (rows : Rows) (o b : option Entry) :
  (forall k, beyond forward p k = true -> skipped position (Some w) k = bool_decide (is_Some (w !! k))) ->
  first_row forward (fun k => beyond forward p k && negb (skipped position (Some w) k)) rows o ->
  first_row forward (beyond forward p) (staged_values w) b ->
  first_row forward (beyond forward p) (overlay_rows w rows)
    (match o, b with
     | Some a, Some b => Some (if Bool.eqb (ltb (fst a) (fst b)) forward then a else b)
     | Some a, None => Some a
     | None, b => b
     end).
Proof using.
  intros Hskip Ho Hb.
  assert (Hview : forall k v, beyond forward p k = true -> overlay_rows w rows !! k = Some v ->
    staged_values w !! k = Some v \/ (rows !! k = Some v /\ (beyond forward p k && negb (skipped position (Some w) k)) = true)).
  { intros k v Hk Hv. rewrite overlay_lookup in Hv. rewrite staged_values_lookup, Hk, (Hskip k Hk).
    destruct (w !! k) as [x|] eqn:E; [left; congruence|right]. split; [done|]. by rewrite bool_decide_false by (by intros [? ?]). }
  assert (Hstaged : forall k v, staged_values w !! k = Some v -> overlay_rows w rows !! k = Some v).
  { intros k v Hv%staged_values_lookup. by rewrite overlay_lookup, Hv. }
  assert (Horigin : forall k v, rows !! k = Some v -> (beyond forward p k && negb (skipped position (Some w) k)) = true ->
    overlay_rows w rows !! k = Some v /\ beyond forward p k = true /\ w !! k = None).
  { intros k v Hv [Hk Hs]%andb_true_iff. rewrite (Hskip k Hk) in Hs. rewrite overlay_lookup.
    destruct (w !! k) eqn:E; [by rewrite bool_decide_true in Hs|]. done. }
  destruct o as [[ka va]|], b as [[kb vb]|]; cbn [fst].
  - destruct Ho as (Hka & HPa & Hla), Hb as (Hkb & HPb & Hlb). destruct (Horigin _ _ Hka HPa) as (Va & Ba & Na).
    assert (ka <> kb) as Hne. { intros ->. apply staged_values_lookup in Hkb. congruence. }
    assert (Hall : forall k' v', overlay_rows w rows !! k' = Some v' -> beyond forward p k' = true ->
      dle forward kb k' \/ dle forward ka k').
    { intros k' v' Hk' HP'. destruct (Hview k' v' HP' Hk') as [Hv|[Hv HPv]]; [left; by eapply Hlb|right; by eapply Hla]. }
    destruct (Bool.eqb (ltb ka kb) forward) eqn:E.
    + apply Bool.eqb_prop in E. assert (dle forward ka kb) as Hd.
      { destruct forward; cbn; [by apply ltb_klt, klt_kle in E|by apply ltb_false in E]. }
      cbn. split_and!; [done..|]. intros k' v' Hk' HP'. destruct (Hall k' v' Hk' HP') as [Hl|Hl]; [|done].
      destruct forward; cbn in *; by etrans.
    + assert (dle forward kb ka) as Hd.
      { destruct (ltb ka kb) eqn:El, forward; try done; cbn; [by apply ltb_klt, klt_kle in El|by apply ltb_false in El]. }
      cbn. split_and!; [by apply Hstaged|done|]. intros k' v' Hk' HP'. destruct (Hall k' v' Hk' HP') as [Hl|Hl]; [done|].
      destruct forward; cbn in *; by etrans.
  - destruct Ho as (Hka & HPa & Hla). destruct (Horigin _ _ Hka HPa) as (Va & Ba & Na). cbn. split_and!; [done..|].
    intros k' v' Hk' HP'. destruct (Hview k' v' HP' Hk') as [Hv|[Hv HPv]]; [|by eapply Hla].
    rewrite (Hb k' v' Hv) in HP'. done.
  - destruct Hb as (Hkb & HPb & Hlb). cbn. split_and!; [by apply Hstaged|done|].
    intros k' v' Hk' HP'. destruct (Hview k' v' HP' Hk') as [Hv|[Hv HPv]]; [by eapply Hlb|]. by rewrite (Ho k' v' Hv) in HPv.
  - intros k v Hk. destruct (beyond forward p k) eqn:HP; [|done]. destruct (Hview k v HP Hk) as [Hv|[Hv HPv]].
    + by rewrite (Hb k v Hv) in HP.
    + by rewrite (Ho k v Hv) in HPv.
Qed.

Lemma first_row_ext (forward : bool) (P Q : bytes -> bool) (rows : Rows) (o : option Entry) :
  (forall k, P k = Q k) -> first_row forward P rows o -> first_row forward Q rows o.
Proof using.
  intros HPQ. destruct o as [[k v]|]; cbn.
  - intros (Hk & HP & Hle). rewrite <- HPQ. split_and!; [done..|]. intros k' v' Hk'. rewrite <- HPQ. by apply (Hle k' v').
  - intros Hn k v Hk. rewrite <- HPQ. by apply (Hn k v).
Qed.

Lemma skipped_default (position : Position) (w : option StagedRows) k :
  skipped position w k = skipped position (Some (default ∅ w)) k.
Proof using.
  destruct w; [done|]. unfold skipped. cbn [default from_option]. rewrite lookup_empty, (bool_decide_false (is_Some None)); [done|].
  by intros [? ?].
Qed.

Lemma staged_row_default (forward : bool) (bound : Bound bytes) (w : option StagedRows) :
  staged_row forward bound w = staged_row forward bound (Some (default ∅ w)).
Proof using.
  destruct w; [done|]. unfold staged_row. cbn [mbind option_bind default from_option id]. unfold range.
  rewrite entries_empty. by destruct forward.
Qed.

Lemma buffer_validate_ok table : table_ok table -> buffer_validate table = Ok ().
Proof using. done. Qed.

Definition buffered_view (b : Buffered R) : View := fun table =>
  overlay_rows (default ∅ (bf_writes b !! table)) (view (bf_origin b) table).

(** A cursor over the staged view. At an exhausted end the origin's cursor is
    exhausted in the same direction. *)
Definition buffered_at (c : BufferedCursor) (rows : Rows) (p : Position) : Prop :=
  table_ok (bc_table c) /\ bc_position c = p /\
  rows = overlay_rows (default ∅ (bc_rows c)) (view (bc_origin c) (bc_table c)) /\
  exists po, cursor_at (bc_cursor c) (view (bc_origin c) (bc_table c)) po /\
    (p = After -> po = After) /\ (p = Before -> po = Before).

(** The origin's cursor where the loop of [step] starts. *)
Lemma seek_ok (c : BufferedCursor) (rows : Rows) (p : Position) : buffered_at c rows p ->
  exists cursor po, match p with
    | Key key => cursor ← tx_cursor (bc_origin c) (bc_table c) key; Ok (cursor, Included key)
    | At key => cursor ← tx_cursor (bc_origin c) (bc_table c) key; Ok (cursor, Excluded key)
    | Before | After => Ok (bc_cursor c, Unbounded)
    end = Ok (cursor, bound_of p) /\
    cursor_at cursor (view (bc_origin c) (bc_table c)) po /\
    forall (forward : bool) staged k, can_move forward p = true ->
      beyond forward po k && negb (skipped p staged k) = beyond forward p k && negb (skipped p staged k).
Proof using.
  intros (Ht & Hp & -> & po & Hpo & Ha & Hb). destruct p as [key| |key|].
  - destruct (cursor_spec (bc_origin c) (bc_table c) key Ht) as (cur & -> & Hc). by exists cur, (Key key).
  - exists (bc_cursor c), po. rewrite (Hb eq_refl) in *. done.
  - destruct (cursor_spec (bc_origin c) (bc_table c) key Ht) as (cur & -> & Hc). exists cur, (Key key). split_and!; [done..|].
    intros forward staged k _. unfold skipped. case_bool_decide as E; [by rewrite !andb_false_r|]. cbn [orb]. f_equal.
    cbn. destruct forward; apply eq_true_iff_eq; rewrite leb_kle, ltb_klt, kle_iff; naive_solver.
  - exists (bc_cursor c), po. rewrite (Ha eq_refl) in *. done.
Qed.

Lemma step_ok (forward : bool) (c : BufferedCursor) (rows : Rows) (p : Position) : buffered_at c rows p ->
  exists c', BufferedCursor_step forward c = (Ok (moved forward rows p), c') /\
    buffered_at c' rows (moved_to (moved forward rows p) (if forward then After else Before)).
Proof using.
  intros Hat. pose proof Hat as (Ht & Hp & Hrows & po0 & Hpo0 & Ha & Hb). unfold BufferedCursor_step. rewrite Hp.
  destruct (can_move forward p) eqn:Ecm.
  2: { exists c. destruct p, forward; try done; cbn [moved moved_to next_row prev_row]; (split; [done|]); done. }
  assert ((match p, forward with After, true | Before, false => true | _, _ => false end) = false) as ->
    by (by destruct p, forward).
  destruct (seek_ok c rows p Hat) as (cursor & po & -> & Hcur & Hpred). cbv beta iota zeta.
  destruct (skips_bound forward po p (bc_rows c)) as (S & HS & Hfuel).
  destruct (origin_row_ok (origin_fuel (bc_rows c)) forward p (bc_rows c) cursor _ po S Hcur HS Hfuel)
    as (o & c' & p' & -> & Hc' & Ho & Hnone).
  set (w := default ∅ (bc_rows c)) in *. rewrite (staged_row_default forward (bound_of p) (bc_rows c)). fold w.
  set (row := match o, staged_row forward (bound_of p) (Some w) with Some a, Some b => _ | Some a, None => _ | None, b => b end).
  assert (Hrow : row = moved forward rows p).
  { eapply first_row_unique; [|apply moved_first]. rewrite Hrows. apply (merge_first forward p p).
    - intros k Hk. unfold skipped. destruct p; cbn [orb]; try done. case_bool_decide as E; [|done]. subst.
      by rewrite beyond_at_self in Hk.
    - eapply first_row_ext; [|exact Ho]. intros k. cbn beta. rewrite Hpred by done. by rewrite (skipped_default p (bc_rows c)).
    - by apply staged_row_first. }
  rewrite <- Hrow. eexists. split; [done|].
  split_and!; [done| |exact Hrows|].
  - cbn [bc_position]. unfold moved_to. destruct row as [[]|]; done.
  - exists p'. split; [done|]. assert (row = None -> o = None) as Hro.
    { unfold row. destruct o as [a|]; [|done]. by destruct (staged_row forward (bound_of p) (Some w)). }
    destruct row as [[]|]; [done|]. specialize (Hnone (Hro eq_refl)). rewrite Hnone. destruct forward; done.
Qed.

#[global] Instance Buffered_read_laws : ReadLaws (Buffered R).
Proof using RL.
  refine {| view := buffered_view; cursor_at := buffered_at |}.
  - intros b table k Ht. cbn [tx_get Buffered_read]. unfold Buffered_get. rewrite buffer_validate_ok by done.
    unfold mbind at 1, res_mbind. unfold buffered_view. rewrite overlay_lookup.
    destruct (bf_writes b !! table) as [w|]; cbn [mbind option_bind default from_option id].
    + destruct (w !! k); [done|]. by apply get_spec.
    + rewrite lookup_empty. by apply get_spec.
  - intros b table k Ht. cbn [tx_cursor Buffered_read]. unfold Buffered_cursor. rewrite buffer_validate_ok by done.
    unfold mbind, res_mbind. destruct (cursor_spec (bf_origin b) table k Ht) as (c & -> & Hc). eexists. split; [done|].
    split_and!; [done..|]. cbn. by exists (Key k).
  - intros c rows p Hc. apply (step_ok true c rows p Hc).
  - intros c rows p Hc. apply (step_ok false c rows p Hc).
Defined.

Lemma stage_view table k v b tb :
  buffered_view (stage table k v b) tb =
  upd_view (buffered_view b) table (match v with Some v => <[k := v]> | None => delete k end (buffered_view b table)) tb.
Proof using.
  unfold buffered_view, stage, upd_view. cbn [bf_writes bf_origin]. destruct (decide (tb = table)) as [->|Hne].
  - rewrite lookup_insert_eq. cbn [default from_option id]. apply map_eq. intros k'. rewrite overlay_lookup.
    destruct (decide (k' = k)) as [->|Hk].
    + rewrite lookup_insert_eq. destruct v; by rewrite ?lookup_insert_eq, ?lookup_delete_eq.
    + rewrite lookup_insert_ne by done. destruct v; rewrite ?lookup_insert_ne, ?lookup_delete_ne by done; by rewrite overlay_lookup.
  - by rewrite lookup_insert_ne by done.
Qed.

#[global] Instance Buffered_write_laws : WriteLaws (Buffered R).
Proof using RL.
  split.
  - intros b table k v Ht. cbn [tx_put Buffered_write]. unfold Buffered_put. rewrite buffer_validate_ok by done.
    eexists. split; [done|]. intros tb. apply (stage_view table k (Some v)).
  - intros b table k v Ht. cbn [tx_insert Buffered_write]. unfold Buffered_insert, Buffered_put. rewrite buffer_validate_ok by done.
    change (Buffered_get b table k) with (tx_get b table k). rewrite get_spec by done. destruct (view b table !! k) as [old|] eqn:E.
    + eexists. split; [done|]. intros tb. unfold upd_view. by case_decide; subst.
    + eexists. split; [done|]. intros tb. apply (stage_view table k (Some v)).
  - intros b table k Ht. cbn [tx_delete Buffered_write]. unfold Buffered_delete.
    change (Buffered_get b table k) with (tx_get b table k). rewrite get_spec by done. destruct (view b table !! k) as [old|] eqn:E.
    + eexists. rewrite bool_decide_true by (by eexists). split; [done|]. intros tb. apply (stage_view table k None).
    + eexists. rewrite bool_decide_false by (by intros [? ?]). split; [done|]. intros tb. unfold upd_view.
      case_decide; [subst|done]. by rewrite delete_id.
Qed.
End Laws.

(** * Properties *)

(** C16. The write buffer is a transaction over the rows of its snapshot with
    the staged rows laid over them. Reads see staged values and not staged
    deletions. Writes never reach the snapshot and act as on a map: a put stores
    the row; an insertion stores it where the combined table has none and is
    refused, changing nothing, where it has one; a deletion says whether there was
    a row and removes it. A cursor opened at a key stands at that key in the
    combined table, and from any position a step in either direction returns the
    neighbouring row of the combined table and moves there. *)
Theorem buffer_is_overlaid_transaction {R : Type} `{RL : ReadLaws R} (b : Buffered R) (table : Table) (k v : bytes) :
  table_ok table ->
  Buffered_get b table k = Ok (buffered_view b table !! k) /\
  (exists b', Buffered_put table k v b = (Ok (), b') /\ bf_origin b' = bf_origin b /\
     forall tb, buffered_view b' tb = upd_view (buffered_view b) table (<[k := v]> (buffered_view b table)) tb) /\
  (exists b', Buffered_delete table k b = (Ok (bool_decide (is_Some (buffered_view b table !! k))), b') /\ bf_origin b' = bf_origin b /\
     forall tb, buffered_view b' tb = upd_view (buffered_view b) table (delete k (buffered_view b table)) tb) /\
  (is_Some (buffered_view b table !! k) -> Buffered_insert table k v b = (Err AlreadyExists, b)) /\
  (buffered_view b table !! k = None -> exists b', Buffered_insert table k v b = (Ok (), b') /\ bf_origin b' = bf_origin b /\
     forall tb, buffered_view b' tb = upd_view (buffered_view b) table (<[k := v]> (buffered_view b table)) tb) /\
  (exists c, Buffered_cursor b table k = Ok c /\ buffered_at c (buffered_view b table) (Key k)) /\
  (forall (forward : bool) (c : BufferedCursor) (rows : Rows) (p : Position), buffered_at c rows p ->
     exists c', BufferedCursor_step forward c = (Ok (moved forward rows p), c') /\
       buffered_at c' rows (moved_to (moved forward rows p) (if forward then After else Before))).
Proof.
  intros Ht. assert (Hget : Buffered_get b table k = Ok (buffered_view b table !! k)) by exact (get_spec b table k Ht).
  assert (Hput : exists b', Buffered_put table k v b = (Ok (), b') /\ bf_origin b' = bf_origin b /\
     forall tb, buffered_view b' tb = upd_view (buffered_view b) table (<[k := v]> (buffered_view b table)) tb).
  { unfold Buffered_put. rewrite buffer_validate_ok by done. eexists. split_and!; [done..|]. intros tb. apply (stage_view table k (Some v)). }
  split_and!; [exact Hget|exact Hput| | | | |].
  - unfold Buffered_delete. destruct (delete_spec b table k Ht) as (b' & E & Hv). exists b'. split; [exact E|]. split; [clear Hv|exact Hv].
    cbn [tx_delete Buffered_write] in E. unfold Buffered_delete in E. rewrite Hget in E. apply (f_equal snd) in E. destruct (buffered_view b table !! k); cbn [snd] in E; by subst.
  - intros [old Hold]. unfold Buffered_insert. by rewrite Hget, Hold.
  - intros Hnone. unfold Buffered_insert. by rewrite Hget, Hnone.
  - exact (cursor_spec b table k Ht).
  - intros forward c rows p Hc. exact (step_ok forward c rows p Hc).
Qed.

(** A buffer that stages a deletion of the snapshot's first row and a new row. *)
Definition sample_snapshot : MemoryTx := {| mt_state := {[ "t" := <[ [x03] := [xa3] ]> {[ [x01] := [xa1] ]} ]} |}.
Definition sample_buffer : Buffered MemoryTx := stage "t" [x02] (Some [xa2]) (stage "t" [x01] None (Buffered_new sample_snapshot)).

Lemma buffer_is_overlaid_transaction_witness :
  Buffered_get sample_buffer "t" [x01] = Ok None /\
  (exists b', Buffered_insert "t" [x01] [xb1] sample_buffer = (Ok (), b') /\ buffered_view b' "t" !! [x01] = Some [xb1]) /\
  Buffered_insert "t" [x02] [xb2] sample_buffer = (Err AlreadyExists, sample_buffer) /\
  exists c c1 c2 c3, Buffered_cursor sample_buffer "t" [x01] = Ok c /\
    BufferedCursor_step true c = (Ok (Some ([x02], [xa2])), c1) /\ BufferedCursor_step true c1 = (Ok (Some ([x03], [xa3])), c2) /\
    BufferedCursor_step false c2 = (Ok (Some ([x02], [xa2])), c3).
Proof.
  destruct (buffer_is_overlaid_transaction sample_buffer "t" [x01] [xb1] eq_refl) as (Hget & _ & _ & _ & Hins & (c & Hopen & Hat) & Hstep).
  destruct (buffer_is_overlaid_transaction sample_buffer "t" [x02] [xb2] eq_refl) as (_ & _ & _ & Hdup & _).
  split; [exact Hget|]. split; [|split].
  - destruct (Hins ltac:(vm_compute; reflexivity)) as (b' & E & _ & Hv). exists b'. split; [exact E|].
    rewrite Hv. vm_compute. reflexivity.
  - apply Hdup. exists [xa2]. vm_compute. reflexivity.
  - destruct (Hstep true c _ _ Hat) as (c1 & E1 & Hat1).
    assert (M1 : moved true (buffered_view sample_buffer "t") (Key [x01]) = Some ([x02], [xa2])) by (vm_compute; reflexivity). rewrite M1 in E1, Hat1.
    destruct (Hstep true c1 _ _ Hat1) as (c2 & E2 & Hat2).
    assert (M2 : moved true (buffered_view sample_buffer "t") (moved_to (Some ([x02], [xa2])) After) = Some ([x03], [xa3])) by (vm_compute; reflexivity). rewrite M2 in E2, Hat2.
    destruct (Hstep false c2 _ _ Hat2) as (c3 & E3 & _).
    assert (M3 : moved false (buffered_view sample_buffer "t") (moved_to (Some ([x03], [xa3])) After) = Some ([x02], [xa2])) by (vm_compute; reflexivity). rewrite M3 in E3.
    exists c, c1, c2, c3. split; [exact Hopen|]. split; [exact E1|]. split; [exact E2|exact E3].
Defined.
