(* ===== verification/Mdbx.v ===== *)
(** The MDBX backend: crates/storage-mdbx/src/lib.rs.

    libmdbx is not part of the repository: the class [Libmdbx] has the calls
    that the adapter makes, [LibmdbxLaws] what their documentation says of them.
    The definitions are the adapter's own: size limits, error conversion, the
    check of the catalogue before a table handle is used, the cursor with its
    explicit ends, and the capacity counters. *)
From Stdlib Require Import ZArith Lia.
From S2P Require Import Prelude Ordered Storage CellTypes CellName Buffer.

#[local] Open Scope Z_scope.

(** * The library *)

Inductive NativeError : Type :=
  | MapFull
  | KeyExist
  | NativeNotFound
  | NativeOther (code : string).

(** An environment [Env], its transactions [T], table handles and cursors. The
    catalogue is the table without a name. *)
Class Libmdbx (Env T : Type) : Type := {
  Dbi : Type;
  NativeCursor : Type;
  begin_ro_txn : Env -> res NativeError T;
  begin_rw_txn : stres Env NativeError T;
  txn_commit : T -> stres Env NativeError unit;
  txn_abort : T -> Env -> Env;
  open_table : T -> option Table -> res NativeError Dbi;
  create_table : Table -> stres T NativeError Dbi;
  native_get : T -> Dbi -> bytes -> res NativeError (option bytes);
  native_put : Dbi -> bytes -> bytes -> bool -> stres T NativeError unit;
  native_del : Dbi -> bytes -> stres T NativeError bool;
  native_entries : T -> Dbi -> res NativeError Z;
  native_cursor : T -> Dbi -> res NativeError NativeCursor;
  set_range : bytes -> stres NativeCursor NativeError (option Entry);
  native_first : stres NativeCursor NativeError (option Entry);
  native_last : stres NativeCursor NativeError (option Entry);
  native_next : stres NativeCursor NativeError (option Entry);
  native_prev : stres NativeCursor NativeError (option Entry)
}.
Arguments Dbi Env T {_}.
Arguments NativeCursor Env T {_}.

(** * Options and limits *)

Record MdbxOptions := { max_tables : Z; max_map_size : Z; growth_step : Z; page_size : Z }.
Definition DEFAULT_MAX_MAP_SIZE : Z := 1024 * 1024 * 1024 * 1024.
Definition DEFAULT_PAGE_SIZE : Z := 4096.
Definition MdbxOptions_default : MdbxOptions :=
  {| max_tables := 128; max_map_size := DEFAULT_MAX_MAP_SIZE; growth_step := 16 * 1024 * 1024; page_size := DEFAULT_PAGE_SIZE |}.

Record Limits := { lim_key : nat; lim_value : nat }.

(** [Limits::key] *)
Definition Limits_key (limits : Limits) (l : bytes) : res StorageError unit :=
  if (lim_key limits <? length l)%nat then Err (KeyTooLarge (length l) (lim_key limits)) else Ok ().

(** [backend] *)
Definition backend (e : NativeError) : StorageError :=
  match e with
  | MapFull => Full
  | KeyExist => AlreadyExists
  | NativeNotFound => Backend "NotFound"
  | NativeOther code => Backend code
  end.

(** [isize::try_from] *)
Definition isize_of (x : Z) : option Z := if x <? 2 ^ 63 then Some x else None.

Record MdbxStore (Env : Type) := { ms_inner : Env; ms_limits : Limits }.
Arguments ms_inner {Env} _.
Arguments ms_limits {Env} _.

(** [open_with_options]; the directory, the environment and its limits are the
    library's and the file system's. *)
Definition open_with_options {Env : Type} (options : MdbxOptions) (create_dir_all : res string unit)
    (open_environment : MdbxOptions -> Z -> Z -> res NativeError Env) (maxkeysize maxvalsize : Env -> Z) : res StorageError (MdbxStore Env) :=
  let invalid := Backend "invalid MDBX capacity settings" in
  _ ← (if (max_tables options =? 0) || (max_map_size options =? 0) || (growth_step options =? 0) || (page_size options =? 0)
       then Err invalid else Ok ());
  max_size ← match isize_of (max_map_size options) with Some x => Ok x | None => Err invalid end;
  growth ← match isize_of (growth_step options) with Some x => Ok x | None => Err invalid end;
  _ ← map_err Backend create_dir_all;
  inner ← map_err backend (open_environment options max_size growth);
  if (maxkeysize inner <=? 0) || (maxvalsize inner <=? 0) then Err (backend (NativeOther "Invalid"))
  else Ok {| ms_inner := inner; ms_limits := {| lim_key := Z.to_nat (maxkeysize inner); lim_value := Z.to_nat (maxvalsize inner) |} |}.

(** ** [stats] *)

(** The fields of [MDBX_envinfo] that are read *)
Record EnvInfo := {
  mi_dxb_pagesize : Z; mi_last_pgno : Z;
  op_newly : Z; op_cow : Z; op_unspill : Z; op_merge : Z; op_fsync : Z; op_msync : Z
}.

(** [u64] arithmetic as a build with overflow checks runs it; without them the
    result wraps. *)
Definition checked_u64 (x : Z) : res StorageError Z := if (0 <=? x) && (x <? 2 ^ 64) then Ok x else Panic.

(** [stats]: [env_info] is the library's status code and the counters it wrote. *)
Definition MdbxStore_stats {Env : Type} (env_info : Env -> Z * EnvInfo) (from_err_code : Z -> NativeError) (s : MdbxStore Env)
    : res StorageError (option StoreStats) :=
  let '(code, info) := env_info (ms_inner s) in
  if negb (code =? 0) then Err (backend (from_err_code code))
  else
    let page := mi_dxb_pagesize info in
    pages ← checked_u64 (mi_last_pgno info + 1);
    size ← checked_u64 (pages * page);
    written ← checked_u64 (op_newly info + op_cow info);
    written ← checked_u64 (written + op_unspill info);
    written ← checked_u64 (written - op_merge info);
    bytes_written ← checked_u64 (written * page);
    syncs ← checked_u64 (op_fsync info + op_msync info);
    Ok (Some {| db_size := size; session_bytes_written := bytes_written; session_syncs := syncs |}).

(** * Transactions *)

Record MdbxTx (T : Type) := { mx_inner : T; mx_limits : Limits }.
Arguments mx_inner {T} _.
Arguments mx_limits {T} _.

(** Where the adapter's cursor is, apart from the native one. *)
Inductive MdbxPosition : Type :=
  | Start (key : bytes)
  | AtRow
  | BeforeRows
  | AfterRows.

Section Adapter.
Context {Env T : Type} `{Libmdbx Env T}.

(** A native call that changes the transaction. *)
Definition native {A} (c : stres T NativeError A) : stres (MdbxTx T) StorageError A := fun t =>
  let '(r, inner) := c (mx_inner t) in
  (map_err backend r, {| mx_inner := inner; mx_limits := mx_limits t |}).

Definition MdbxStore_begin_read (s : MdbxStore Env) : res StorageError (MdbxTx T) :=
  inner ← map_err backend (begin_ro_txn (ms_inner s));
  Ok {| mx_inner := inner; mx_limits := ms_limits s |}.
Definition MdbxStore_begin_write : stres (MdbxStore Env) StorageError (MdbxTx T) := fun s =>
  let '(r, env) := begin_rw_txn (ms_inner s) in
  (inner ← map_err backend r; Ok {| mx_inner := inner; mx_limits := ms_limits s |}, {| ms_inner := env; ms_limits := ms_limits s |}).
Definition MdbxTx_commit (t : MdbxTx T) : stres (MdbxStore Env) StorageError unit := fun s =>
  let '(r, env) := txn_commit (mx_inner t) (ms_inner s) in
  (map_err backend r, {| ms_inner := env; ms_limits := ms_limits s |}).
Definition MdbxTx_abort (t : MdbxTx T) (s : MdbxStore Env) : MdbxStore Env :=
  {| ms_inner := txn_abort (mx_inner t) (ms_inner s); ms_limits := ms_limits s |}.

(** [table]: the catalogue of this transaction is asked first, since opening a
    name can find a handle that is newer than its snapshot. *)
Definition MdbxTx_table (t : MdbxTx T) (table : Table) : res StorageError (option (Dbi Env T)) :=
  _ ← Table_validate table;
  _ ← Limits_key (mx_limits t) (of_string table);
  catalog ← map_err backend (open_table (mx_inner t) None);
  named ← map_err backend (native_get (mx_inner t) catalog (of_string table));
  match named with
  | None => Ok None
  | Some _ =>
      match open_table (mx_inner t) (Some table) with
      | Ok handle => Ok (Some handle)
      | Err NativeNotFound => Ok None
      | Err e => Err (backend e)
      | Panic => Panic
      | Diverge => Diverge
      end
  end.

Definition MdbxTx_get (t : MdbxTx T) (table : Table) (key : bytes) : res StorageError (option bytes) :=
  _ ← Table_validate table;
  _ ← Limits_key (mx_limits t) key;
  handle ← MdbxTx_table t table;
  match handle with
  | Some handle => map_err backend (native_get (mx_inner t) handle key)
  | None => Ok None
  end.

Record MdbxCursor := { xc_inner : option (NativeCursor Env T); xc_position : MdbxPosition }.

Definition MdbxTx_cursor (t : MdbxTx T) (table : Table) (key : bytes) : res StorageError MdbxCursor :=
  _ ← Table_validate table;
  _ ← Limits_key (mx_limits t) key;
  handle ← MdbxTx_table t table;
  inner ← match handle with
          | Some handle => c ← map_err backend (native_cursor (mx_inner t) handle); Ok (Some c)
          | None => Ok None
          end;
  Ok {| xc_inner := inner; xc_position := Start key |}.

(** [write] *)
Definition MdbxTx_write (table : Table) (key value : bytes) (no_overwrite : bool) : stres (MdbxTx T) StorageError unit :=
  _ ← lift_res (Table_validate table);
  _ ← reading (fun t => Limits_key (mx_limits t) (of_string table));
  _ ← reading (fun t => Limits_key (mx_limits t) key);
  _ ← reading (fun t => if (lim_value (mx_limits t) <? length value)%nat
                        then Err (ValueTooLarge (length value) (lim_value (mx_limits t))) else Ok ());
  handle ← native (create_table table);
  native (native_put handle key value no_overwrite).

Definition MdbxTx_is_empty (t : MdbxTx T) : res StorageError bool :=
  catalog ← map_err backend (open_table (mx_inner t) None);
  entries ← map_err backend (native_entries (mx_inner t) catalog);
  Ok (entries =? 0).

Definition MdbxTx_put (table : Table) (key value : bytes) : stres (MdbxTx T) StorageError unit := MdbxTx_write table key value false.
Definition MdbxTx_insert (table : Table) (key value : bytes) : stres (MdbxTx T) StorageError unit := MdbxTx_write table key value true.
Definition MdbxTx_delete (table : Table) (key : bytes) : stres (MdbxTx T) StorageError bool :=
  _ ← lift_res (Table_validate table);
  _ ← reading (fun t => Limits_key (mx_limits t) key);
  handle ← reading (fun t => MdbxTx_table t table);
  match handle with
  | Some handle => native (native_del handle key)
  | None => mret false
  end.

(** ** Cursors *)

(** The native moves of [advance], from the adapter's position *)
Definition MdbxCursor_row (position : MdbxPosition) (forward : bool) : stres (NativeCursor Env T) NativeError (option Entry) :=
  match position with
  | Start key =>
      row ← set_range key;
      if forward then mret row
      else
        match row with
        | Some (found, value) => if bool_decide (found = key) then mret (Some (found, value)) else native_prev
        | None => native_last
        end
  | BeforeRows => if forward then native_first else mret None
  | AfterRows => if forward then mret None else native_last
  | AtRow => if forward then native_next else native_prev
  end.

(** [advance]: a failed move keeps the adapter's position. *)
Definition MdbxCursor_advance (forward : bool) : stres MdbxCursor StorageError (option Entry) := fun c =>
  match xc_inner c with
  | None => (Ok None, c)
  | Some cursor =>
      match MdbxCursor_row (xc_position c) forward cursor with
      | (Ok row, cursor) =>
          (Ok row, {| xc_inner := Some cursor;
                      xc_position := match row with Some _ => AtRow | None => if forward then AfterRows else BeforeRows end |})
      | (r, cursor) => (map_err backend r, {| xc_inner := Some cursor; xc_position := xc_position c |})
      end
  end.
Definition MdbxCursor_next : stres MdbxCursor StorageError (option Entry) := MdbxCursor_advance true.
Definition MdbxCursor_prev : stres MdbxCursor StorageError (option Entry) := MdbxCursor_advance false.
End Adapter.

(** * What the library promises *)

Class LibmdbxLaws (Env T : Type) `{Libmdbx Env T} (limits : Limits) : Type := {
  (** the named tables of a transaction, the handles that are good in it, and
      the rows a cursor is over with the row it is on *)
  catalog : T -> gmap Table Rows;
  names : T -> Dbi Env T -> Table -> Prop;
  stands : NativeCursor Env T -> Rows -> option bytes -> Prop;
  catalog_spec t : exists d, open_table t None = Ok d /\ native_entries t d = Ok (Z.of_nat (size (catalog t))) /\
    forall table, (length (of_string table) <= lim_key limits)%nat ->
      exists r, native_get t d (of_string table) = Ok r /\ (is_Some r <-> is_Some (catalog t !! table));
  open_spec t table rows : catalog t !! table = Some rows -> exists d, open_table t (Some table) = Ok d /\ names t d table;
  native_get_spec t d table rows k : names t d table -> catalog t !! table = Some rows -> (length k <= lim_key limits)%nat ->
    native_get t d k = Ok (rows !! k);
  native_cursor_spec t d table rows : names t d table -> catalog t !! table = Some rows ->
    exists c, native_cursor t d = Ok c /\ stands c rows None;
  set_range_spec c rows o k : stands c rows o -> (length k <= lim_key limits)%nat ->
    exists c', set_range k c = (Ok (moved true rows (Key k)), c') /\ stands c' rows (fst <$> moved true rows (Key k));
  first_spec c rows o : stands c rows o ->
    exists c', native_first c = (Ok (moved true rows Before), c') /\ stands c' rows (fst <$> moved true rows Before);
  last_spec c rows o : stands c rows o ->
    exists c', native_last c = (Ok (moved false rows After), c') /\ stands c' rows (fst <$> moved false rows After);
  native_next_spec c rows k : stands c rows (Some k) ->
    exists c', native_next c = (Ok (moved true rows (At k)), c') /\ stands c' rows (fst <$> moved true rows (At k));
  native_prev_spec c rows k : stands c rows (Some k) ->
    exists c', native_prev c = (Ok (moved false rows (At k)), c') /\ stands c' rows (fst <$> moved false rows (At k));
  (** writes may find the map full *)
  create_table_spec t table : (length (of_string table) <= lim_key limits)%nat ->
    match create_table table t with
    | (Ok d, t') => names t' d table /\ catalog t' = <[table := default ∅ (catalog t !! table)]> (catalog t)
    | (Err MapFull, _) => True
    | _ => False
    end;
  native_put_spec t d table rows k v no_overwrite : names t d table -> catalog t !! table = Some rows ->
    (length k <= lim_key limits)%nat -> (length v <= lim_value limits)%nat ->
    match native_put d k v no_overwrite t with
    | (Ok _, t') => (no_overwrite = true -> rows !! k = None) /\ catalog t' = <[table := <[k := v]> rows]> (catalog t)
    | (Err KeyExist, t') => no_overwrite = true /\ is_Some (rows !! k) /\ catalog t' = catalog t
    | (Err MapFull, _) => no_overwrite = true -> rows !! k = None
    | _ => False
    end;
  native_del_spec t d table rows k : names t d table -> catalog t !! table = Some rows -> (length k <= lim_key limits)%nat ->
    match native_del d k t with
    | (Ok found, t') => found = bool_decide (is_Some (rows !! k)) /\ catalog t' = <[table := delete k rows]> (catalog t)
    | (Err MapFull, _) => is_Some (rows !! k)
    | _ => False
    end
}.

Section Contract.
Context {Env T : Type} `{LX : Libmdbx Env T} (limits : Limits) `{LL : !LibmdbxLaws Env T limits}.

Definition short (l : bytes) : Prop := (length l <= lim_key limits)%nat.
#[export] Instance short_dec l : Decision (short l).
Proof using. unfold short. apply _. Defined.

Definition mdbx_view (t : MdbxTx T) : View := fun table => default ∅ (catalog (Env:=Env) (limits:=limits) (mx_inner t) !! table).

(** The adapter's cursor is at a position over some rows. *)
Definition mdbx_at (c : MdbxCursor (Env:=Env) (T:=T)) (rows : Rows) (p : Position) : Prop :=
  match xc_inner c with
  | None => rows = ∅
  | Some cursor =>
      match xc_position c with
      | Start key => p = Key key /\ short key /\ exists o, stands (limits:=limits) cursor rows o
      | AtRow => exists k, p = At k /\ stands (limits:=limits) cursor rows (Some k)
      | BeforeRows => p = Before /\ exists o, stands (limits:=limits) cursor rows o
      | AfterRows => p = After /\ exists o, stands (limits:=limits) cursor rows o
      end
  end.

Lemma limits_key_short l : Limits_key limits l = if bool_decide (short l) then Ok () else Err (KeyTooLarge (length l) (lim_key limits)).
Proof using. unfold Limits_key, short. destruct (Nat.ltb_spec (lim_key limits) (length l)); case_bool_decide; (done || lia). Qed.

(** ** Cursors *)

Lemma first_row_among forward P Q rows o : (forall k v, rows !! k = Some v -> P k = Q k) -> first_row forward P rows o -> first_row forward Q rows o.
Proof using.
  intros HPQ. destruct o as [[k v]|]; cbn.
  - intros (Hk & HP & Hmin). split_and!; [done|by rewrite <- (HPQ k v)|]. intros k' v' Hk' HQ. apply (Hmin k' v' Hk'). by rewrite (HPQ k' v').
  - intros Hn k v Hk. rewrite <- (HPQ k v Hk). by eapply Hn.
Qed.

Lemma moved_is forward P rows p : (forall k v, rows !! k = Some v -> P k = beyond forward p k) -> forall o, first_row forward P rows o -> moved forward rows p = o.
Proof using. intros HP o Ho. eapply first_row_unique; [apply moved_first|]. by eapply first_row_among. Qed.

(** Backwards from a starting key, by what is ahead of it. *)
Lemma prev_from_key rows key :
  moved false rows (Key key) =
  match moved true rows (Key key) with
  | Some (found, value) => if bool_decide (found = key) then Some (found, value) else moved false rows (At found)
  | None => moved false rows After
  end.
Proof using.
  pose proof (moved_first true rows (Key key)) as Hn. destruct (moved true rows (Key key)) as [[found value]|]; cbn [first_row beyond] in Hn.
  - destruct Hn as (Hf & Hle%leb_kle & Hmin). case_bool_decide as E.
    + subst found. apply (moved_is false (beyond false (Key key))); [done|]. cbn. split_and!; [done|by apply leb_kle|]. intros k v _ Hk. by apply leb_kle.
    + apply (moved_is false (beyond false (At found))); [|apply moved_first]. intros k v Hk. cbn [beyond].
      assert (klt key found) as Hlt by (apply kle_iff in Hle as [?|?]; [done|congruence]).
      destruct (leb k key) eqn:El.
      * apply leb_kle in El. apply ltb_klt. apply kle_iff in El as [Hl|Hl]; [by etrans|by subst].
      * apply leb_false in El. apply ltb_false. apply (Hmin k v Hk). apply leb_kle, kle_iff. by left.
  - apply (moved_is false (beyond false After)); [|apply moved_first]. intros k v Hk. cbn [beyond negb]. symmetry. apply leb_kle, kle_iff. left. apply leb_false. by eapply Hn.
Qed.

(** One move of the adapter's cursor is one move over the rows. *)
Lemma advance_ok forward c rows p : mdbx_at c rows p ->
  exists c', MdbxCursor_advance forward c = (Ok (moved forward rows p), c') /\
    mdbx_at c' rows (moved_to (moved forward rows p) (if forward then After else Before)).
Proof using.
  unfold MdbxCursor_advance, mdbx_at. destruct c as [[cursor|] position]; cbn [xc_inner xc_position].
  2:{ intros ->. exists {| xc_inner := None; xc_position := position |}. split; [|done]. destruct forward; cbn [moved]; by rewrite ?next_row_empty, ?prev_row_empty. }
  assert (Hdone : forall row c', (exists o, stands (limits:=limits) c' rows o) -> stands (limits:=limits) c' rows (fst <$> row) ->
    let position' := match row with Some _ => AtRow | None => if forward then AfterRows else BeforeRows end in
    mdbx_at {| xc_inner := Some c'; xc_position := position' |} rows (moved_to row (if forward then After else Before))).
  { intros [[k v]|] c' Ho Hr; unfold mdbx_at; cbn; [by exists k|]. by destruct forward. }
  destruct position as [key| | |]; cbn [MdbxCursor_row].
  - intros (-> & Hk & o & Ho). destruct (set_range_spec (limits:=limits) cursor rows o key Ho Hk) as (c1 & E1 & S1).
    unfold mbind, stres_mbind. rewrite E1. destruct forward.
    + eexists. split; [reflexivity|]. apply Hdone; eauto.
    + rewrite prev_from_key. destruct (moved true rows (Key key)) as [[found value]|]; cbn [fmap option_fmap option_map fst] in *.
      * case_bool_decide; [eexists; split; [reflexivity|]; apply Hdone; eauto|].
        destruct (native_prev_spec (limits:=limits) c1 rows found S1) as (c2 & E2 & S2). rewrite E2. eexists. split; [reflexivity|]. apply Hdone; eauto.
      * destruct (last_spec (limits:=limits) c1 rows None S1) as (c2 & E2 & S2). rewrite E2. eexists. split; [reflexivity|]. apply Hdone; eauto.
  - intros (k & -> & Hk). destruct forward.
    + destruct (native_next_spec (limits:=limits) cursor rows k Hk) as (c2 & E2 & S2). rewrite E2. eexists. split; [reflexivity|]. apply Hdone; eauto.
    + destruct (native_prev_spec (limits:=limits) cursor rows k Hk) as (c2 & E2 & S2). rewrite E2. eexists. split; [reflexivity|]. apply Hdone; eauto.
  - intros (-> & o & Ho). destruct forward; [|by eexists; split; [reflexivity|]; cbn; eauto].
    destruct (first_spec (limits:=limits) cursor rows o Ho) as (c2 & E2 & S2). rewrite E2. eexists. split; [reflexivity|]. apply Hdone; eauto.
  - intros (-> & o & Ho). destruct forward; [by eexists; split; [reflexivity|]; cbn; eauto|].
    destruct (last_spec (limits:=limits) cursor rows o Ho) as (c2 & E2 & S2). rewrite E2. eexists. split; [reflexivity|]. apply Hdone; eauto.
Qed.

(** ** Transactions *)

Abbreviation cat t := (catalog (Env:=Env) (limits:=limits) (mx_inner t)).

Lemma table_found t table : mx_limits t = limits -> table_ok table -> short (of_string table) ->
  match cat t !! table with
  | Some rows => exists d, MdbxTx_table (Env:=Env) t table = Ok (Some d) /\ names (limits:=limits) (mx_inner t) d table
  | None => MdbxTx_table (Env:=Env) t table = Ok None
  end.
Proof using.
  intros Hl Ht Hs. unfold MdbxTx_table. rewrite Ht, Hl, limits_key_short, bool_decide_true by done. unfold mbind, res_mbind.
  destruct (catalog_spec (limits:=limits) (mx_inner t)) as (c & -> & _ & Hc). cbn [map_err]. destruct (Hc table Hs) as (r & -> & Hr). cbn [map_err].
  destruct (cat t !! table) as [rows|] eqn:E.
  - destruct r as [r|]; [|by destruct (proj2 Hr (ex_intro _ rows eq_refl))].
    destruct (open_spec (limits:=limits) (mx_inner t) table rows E) as (d & -> & Hn). by exists d.
  - destruct r as [r|]; [|done]. destruct (proj1 Hr (ex_intro _ r eq_refl)) as [? ?]. done.
Qed.

Section Calls.
Context (t : MdbxTx T) (table : Table) (key : bytes).
Hypothesis Hlimits : mx_limits t = limits.
Hypothesis Htable : table_ok table.
Hypothesis Hname : short (of_string table).

Lemma mdbx_get_ok : MdbxTx_get (Env:=Env) t table key =
  if bool_decide (short key) then Ok (mdbx_view t table !! key) else Err (KeyTooLarge (length key) (lim_key limits)).
Proof using All.
  unfold MdbxTx_get, mdbx_view. rewrite Htable, Hlimits, limits_key_short. unfold mbind, res_mbind. case_bool_decide as Hk; [|done].
  pose proof (table_found t table Hlimits Htable Hname) as Hf. destruct (cat t !! table) as [rows|] eqn:E.
  - destruct Hf as (d & -> & Hn). by rewrite (native_get_spec (limits:=limits) (mx_inner t) d table rows key Hn E Hk).
  - rewrite Hf. cbn. by rewrite lookup_empty.
Qed.

Lemma mdbx_cursor_ok : short key -> exists c, MdbxTx_cursor (Env:=Env) t table key = Ok c /\ mdbx_at c (mdbx_view t table) (Key key).
Proof using All.
  intros Hk. unfold MdbxTx_cursor, mdbx_view. rewrite Htable, Hlimits, limits_key_short, bool_decide_true by done. unfold mbind, res_mbind.
  pose proof (table_found t table Hlimits Htable Hname) as Hf. destruct (cat t !! table) as [rows|] eqn:E.
  - destruct Hf as (d & -> & Hn). destruct (native_cursor_spec (limits:=limits) (mx_inner t) d table rows Hn E) as (c & -> & Hc). cbn [map_err].
    eexists. split; [reflexivity|]. unfold mdbx_at. cbn. split; [done|]. split; [done|by exists None].
  - rewrite Hf. eexists. split; [reflexivity|]. done.
Qed.

(** A view after a change of one table *)
Lemma changed_view (t' : MdbxTx T) rows : cat t' = <[table := rows]> (cat t) -> forall tb, mdbx_view t' tb = upd_view (mdbx_view t) table rows tb.
Proof using. intros E tb. unfold mdbx_view, upd_view. rewrite E. case_decide as Et; [subst; by rewrite lookup_insert_eq|by rewrite lookup_insert_ne]. Qed.

Lemma mdbx_write_ok value no_overwrite : short key -> (length value <= lim_value limits)%nat ->
  match MdbxTx_write (Env:=Env) table key value no_overwrite t with
  | (Ok _, t') => (no_overwrite = true -> mdbx_view t table !! key = None) /\ mx_limits t' = limits /\
      forall tb, mdbx_view t' tb = upd_view (mdbx_view t) table (<[key := value]> (mdbx_view t table)) tb
  | (Err AlreadyExists, t') => no_overwrite = true /\ is_Some (mdbx_view t table !! key) /\ mx_limits t' = limits /\ forall tb, mdbx_view t' tb = mdbx_view t tb
  | (Err Full, t') => mx_limits t' = limits
  | _ => False
  end.
Proof using All.
  intros Hk Hv. unfold MdbxTx_write, lift_res, reading. unfold mbind, stres_mbind. rewrite Htable, Hlimits, !limits_key_short, !bool_decide_true by done.
  rewrite (proj2 (Nat.ltb_ge _ _) Hv). unfold native at 1. pose proof (create_table_spec (limits:=limits) (mx_inner t) table Hname) as Hc.
  destruct (create_table table (mx_inner t)) as [[d|[]| |] t1]; cbn [map_err backend]; try done. destruct Hc as [Hn Hc].
  unfold native. cbn [mx_inner mx_limits]. change (default ∅ (cat t !! table)) with (mdbx_view t table) in Hc.
  assert (Hrows : catalog (Env:=Env) (limits:=limits) t1 !! table = Some (mdbx_view t table)) by (rewrite Hc; apply lookup_insert_eq).
  pose proof (native_put_spec (limits:=limits) t1 d table _ key value no_overwrite Hn Hrows Hk Hv) as Hp.
  destruct (native_put d key value no_overwrite t1) as [[[]|[]| |] t2]; cbn [map_err backend mx_limits]; try done.
  - destruct Hp as [Hno Hp]. split; [done|]. split; [done|]. apply changed_view. cbn [mx_inner]. by rewrite Hp, Hc, insert_insert_eq.
  - destruct Hp as (-> & Hs & Hp). split_and!; [done..|]. intros tb. etrans; [apply (changed_view _ (mdbx_view t table)); cbn [mx_inner]; by rewrite Hp, Hc|]. unfold upd_view. by case_decide; subst.
Qed.

Lemma mdbx_write_oversize value no_overwrite : ~ short key \/ (lim_value limits < length value)%nat ->
  MdbxTx_write (Env:=Env) table key value no_overwrite t =
  (Err (if bool_decide (short key) then ValueTooLarge (length value) (lim_value limits) else KeyTooLarge (length key) (lim_key limits)), t).
Proof using All.
  intros Ho. unfold MdbxTx_write, lift_res, reading. unfold mbind, stres_mbind. rewrite Htable, Hlimits, !limits_key_short, (bool_decide_true (short (of_string table))) by done.
  case_bool_decide as Hk; [|done]. destruct Ho as [?|Hv%Nat.ltb_lt]; [done|]. by rewrite Hv.
Qed.

Lemma mdbx_delete_ok : short key ->
  match MdbxTx_delete (Env:=Env) table key t with
  | (Ok found, t') => found = bool_decide (is_Some (mdbx_view t table !! key)) /\ mx_limits t' = limits /\
      forall tb, mdbx_view t' tb = upd_view (mdbx_view t) table (delete key (mdbx_view t table)) tb
  | (Err Full, t') => is_Some (mdbx_view t table !! key) /\ mx_limits t' = limits
  | _ => False
  end.
Proof using All.
  intros Hk. unfold MdbxTx_delete, lift_res, reading. unfold mbind, stres_mbind. rewrite Htable, Hlimits, limits_key_short, bool_decide_true by done.
  pose proof (table_found t table Hlimits Htable Hname) as Hf. destruct (cat t !! table) as [rows|] eqn:E.
  - destruct Hf as (d & -> & Hn). assert (mdbx_view t table = rows) as Ev by (unfold mdbx_view; by rewrite E). rewrite Ev.
    unfold native. pose proof (native_del_spec (limits:=limits) (mx_inner t) d table rows key Hn E Hk) as Hd.
    destruct (native_del d key (mx_inner t)) as [[found|[]| |] t1]; cbn [map_err backend mx_limits]; try done.
    destruct Hd as [-> Hd]. split_and!; [done..|]. by apply changed_view.
  - rewrite Hf. cbn. assert (mdbx_view t table = ∅) as Ev by (unfold mdbx_view; by rewrite E). rewrite Ev, lookup_empty, delete_empty. split; [done|]. split; [done|].
    intros tb. unfold upd_view. case_decide; by subst.
Qed.
End Calls.

Lemma mdbx_is_empty_ok t : MdbxTx_is_empty (Env:=Env) t = Ok (bool_decide (cat t = ∅)).
Proof using.
  unfold MdbxTx_is_empty. destruct (catalog_spec (limits:=limits) (mx_inner t)) as (c & -> & He & _). unfold mbind, res_mbind. cbn [map_err]. rewrite He. cbn [map_err].
  f_equal. case_bool_decide as E; [by rewrite E|]. apply Z.eqb_neq. intros Hz. apply E, map_size_empty_inv. lia.
Qed.
End Contract.
