(* ===== verification/MdbxClaims.v ===== *)
(** The property of the MDBX backend, and a library that keeps its tables in a
    map as its instance. *)
From Stdlib Require Import ZArith Lia.
From S2P Require Import Prelude Ordered Storage CellTypes CellName Buffer Mdbx.

#[local] Open Scope Z_scope.

(** C18. The MDBX adapter keeps the storage contract within the environment's
    sizes. Over a library that does what it documents, and for admissible table
    names: a read answers from the table's rows, an absent table being empty,
    whatever handle the library would give for it; a cursor starts at its key
    and each move forward or backward is the contract's move, past the ends and
    back included; an insertion or replacement changes exactly that row, a
    refused insertion nothing, a deletion reports and removes the row; the only
    other outcome of a write is a full store. Longer keys are refused on reading and
    writing, longer values on writing, without change. *)
Theorem mdbx_meets_contract {Env T : Type} `{LX : Libmdbx Env T} (limits : Limits) `{LL : !LibmdbxLaws Env T limits} (t : MdbxTx T) table key value :
  mx_limits t = limits -> table_ok table -> short limits (of_string table) ->
  let view := mdbx_view (Env:=Env) limits in
  MdbxTx_get (Env:=Env) t table key =
    (if bool_decide (short limits key) then Ok (view t table !! key) else Err (KeyTooLarge (length key) (lim_key limits))) /\
  (short limits key -> exists c, MdbxTx_cursor (Env:=Env) t table key = Ok c /\ mdbx_at limits c (view t table) (Key key)) /\
  (forall c rows p, mdbx_at (Env:=Env) (T:=T) limits c rows p ->
     (exists c', MdbxCursor_next c = (Ok (next_row rows p), c') /\ mdbx_at limits c' rows (moved_to (next_row rows p) After)) /\
     (exists c', MdbxCursor_prev c = (Ok (prev_row rows p), c') /\ mdbx_at limits c' rows (moved_to (prev_row rows p) Before))) /\
  (forall no_overwrite, let write := if no_overwrite : bool then MdbxTx_insert (Env:=Env) table key value else MdbxTx_put (Env:=Env) table key value in
     if bool_decide (short limits key /\ (length value <= lim_value limits)%nat) then
       match write t with
       | (Ok _, t') => (no_overwrite = true -> view t table !! key = None) /\ mx_limits t' = limits /\
           forall tb, view t' tb = upd_view (view t) table (<[key := value]> (view t table)) tb
       | (Err AlreadyExists, t') => no_overwrite = true /\ is_Some (view t table !! key) /\ mx_limits t' = limits /\ forall tb, view t' tb = view t tb
       | (Err Full, t') => mx_limits t' = limits
       | _ => False
       end
     else write t = (Err (if bool_decide (short limits key) then ValueTooLarge (length value) (lim_value limits)
                          else KeyTooLarge (length key) (lim_key limits)), t)) /\
  (short limits key ->
     match MdbxTx_delete (Env:=Env) table key t with
     | (Ok found, t') => found = bool_decide (is_Some (view t table !! key)) /\ mx_limits t' = limits /\
         forall tb, view t' tb = upd_view (view t) table (delete key (view t table)) tb
     | (Err Full, t') => is_Some (view t table !! key) /\ mx_limits t' = limits
     | _ => False
     end).
Proof.
  intros Hl Ht Hn view. split_and!.
  - by apply mdbx_get_ok.
  - by apply mdbx_cursor_ok.
  - intros c rows p Hc. split; [exact (advance_ok limits true c rows p Hc)|exact (advance_ok limits false c rows p Hc)].
  - intros no write. assert (write = MdbxTx_write (Env:=Env) table key value no) as -> by (by destruct no). case_bool_decide as Hs.
    + apply mdbx_write_ok; [done..|apply Hs|apply Hs].
    + apply mdbx_write_oversize; [done..|]. destruct (decide (short limits key)) as [Hk|]; [right|by left]. apply Nat.nle_gt. intros Hv. by apply Hs.
  - by apply mdbx_delete_ok.
Qed.

(** ** A library in memory *)

(** A handle names its table; one can be had for a table that is not there, as
    handles are cached. *)
Abbreviation Tables := (gmap Table Rows).
Definition tables_get (t : Tables) (d : option Table) (k : bytes) : res NativeError (option bytes) :=
  match d with
  | None => Ok (if bool_decide (k ∈ (of_string ∘ fst) <$> map_to_list t) then Some [] else None)
  | Some table => match t !! table with Some rows => Ok (rows !! k) | None => Err (NativeOther "BadDbi") end
  end.
Definition tables_put (d : option Table) (k v : bytes) (no_overwrite : bool) : stres Tables NativeError unit := fun t =>
  match d with
  | None => (Err (NativeOther "Access"), t)
  | Some table =>
      let rows := default ∅ (t !! table) in
      if no_overwrite && bool_decide (is_Some (rows !! k)) then (Err KeyExist, t) else (Ok (), <[table := <[k := v]> rows]> t)
  end.
Definition tables_del (d : option Table) (k : bytes) : stres Tables NativeError bool := fun t =>
  match d with
  | None => (Err (NativeOther "Access"), t)
  | Some table => let rows := default ∅ (t !! table) in (Ok (bool_decide (is_Some (rows !! k))), <[table := delete k rows]> t)
  end.

(** A cursor over rows; a move forgets the row when there is none. *)
Record RowsCursor := { rc_rows : Rows; rc_row : option bytes }.
Definition rows_move (forward : bool) (p : Position) : stres RowsCursor NativeError (option Entry) := fun c =>
  let row := moved forward (rc_rows c) p in (Ok row, {| rc_rows := rc_rows c; rc_row := fst <$> row |}).
Definition rows_step (forward : bool) : stres RowsCursor NativeError (option Entry) := fun c =>
  match rc_row c with Some k => rows_move forward (At k) c | None => (Err (NativeOther "NoData"), c) end.

#[local] Instance tables_library : Libmdbx Tables Tables := {|
  Dbi := option Table;
  NativeCursor := RowsCursor;
  begin_ro_txn env := Ok env;
  begin_rw_txn env := (Ok env, env);
  txn_commit t _ := (Ok (), t);
  txn_abort _ env := env;
  open_table _ name := Ok name;
  create_table table t := (Ok (Some table), <[table := default ∅ (t !! table)]> t);
  native_get := tables_get;
  native_put := tables_put;
  native_del := tables_del;
  native_entries t _ := Ok (Z.of_nat (size t));
  native_cursor t d := match d with
                       | Some table => match t !! table with Some rows => Ok {| rc_rows := rows; rc_row := None |} | None => Err (NativeOther "BadDbi") end
                       | None => Err (NativeOther "Incompatible")
                       end;
  set_range k := rows_move true (Key k);
  native_first := rows_move true Before;
  native_last := rows_move false After;
  native_next := rows_step true;
  native_prev := rows_step false
|}.

Lemma of_string_inj s s' : of_string s = of_string s' -> s = s'.
Proof. intros E. rewrite <- (String.string_of_list_byte_of_string s), <- (String.string_of_list_byte_of_string s'). unfold of_string in E. by rewrite E. Qed.

#[local] Instance tables_laws limits : LibmdbxLaws Tables Tables limits.
Proof.
  refine {| catalog := fun t : Tables => t; names := fun (_ : Tables) (d : Dbi Tables Tables) table => d = Some table;
            stands := fun (c : NativeCursor Tables Tables) rows o => c = {| rc_rows := rows; rc_row := o |} |}.
  - intros t. exists None. split; [done|]. split; [done|]. intros table _. eexists. split; [reflexivity|].
    case_bool_decide as E.
    + split; [|done]. intros _. apply list_elem_of_fmap in E as ([table' rows] & E & Hin). apply of_string_inj in E. cbn in E. subst table'.
      apply elem_of_map_to_list in Hin. by exists rows.
    + split; [by intros []|]. intros [rows Hr]. destruct E. apply list_elem_of_fmap. exists (table, rows). split; [done|]. by apply elem_of_map_to_list.
  - intros t table rows _. by exists (Some table).
  - intros t d table rows k -> Hr _. cbn. by rewrite Hr.
  - intros t d table rows -> Hr. cbn. rewrite Hr. by eexists.
  - intros c rows o k -> _. by eexists.
  - intros c rows o ->. by eexists.
  - intros c rows o ->. by eexists.
  - intros c rows k ->. by eexists.
  - intros c rows k ->. by eexists.
  - intros t table _. done.
  - intros t d table rows k v no -> Hr _ _. cbn. rewrite Hr. cbn. case_bool_decide as E; destruct no; cbn; [done|done| |done].
    split; [|done]. intros _. by apply eq_None_not_Some.
  - intros t d table rows k -> Hr _. cbn. by rewrite Hr.
Defined.

Definition small_limits : Limits := {| lim_key := 8; lim_value := 8 |}.
Definition two_rows : Rows := <[of_string "a" := of_string "1"]> {[ of_string "c" := of_string "3" ]}.
Definition tables_tx : MdbxTx Tables := {| mx_inner := {[ "t"%string := two_rows ]}; mx_limits := small_limits |}.

Lemma mdbx_meets_contract_witness :
  MdbxTx_get (Env:=Tables) tables_tx "t" (of_string "c") = Ok (Some (of_string "3")) /\
  MdbxTx_get (Env:=Tables) tables_tx "absent" (of_string "c") = Ok None /\
  MdbxTx_get (Env:=Tables) tables_tx "t" (of_string "too long a key") = Err (KeyTooLarge 14 8) /\
  exists c c', MdbxTx_cursor (Env:=Tables) tables_tx "t" (of_string "b") = Ok c /\ MdbxCursor_prev c = (Ok (Some (of_string "a", of_string "1")), c').
Proof.
  assert (Hs : forall s, (length (of_string s) <= 8)%nat -> short small_limits (of_string s)) by (intros s Hs; exact Hs).
  pose proof (mdbx_meets_contract (Env:=Tables) small_limits tables_tx "t" (of_string "c") [] eq_refl eq_refl (Hs "t"%string ltac:(cbn; lia))) as (H1 & _).
  pose proof (mdbx_meets_contract (Env:=Tables) small_limits tables_tx "absent" (of_string "c") [] eq_refl eq_refl (Hs "absent"%string ltac:(cbn; lia))) as (H2 & _).
  pose proof (mdbx_meets_contract (Env:=Tables) small_limits tables_tx "t" (of_string "too long a key") [] eq_refl eq_refl (Hs "t"%string ltac:(cbn; lia))) as (H3 & _).
  pose proof (mdbx_meets_contract (Env:=Tables) small_limits tables_tx "t" (of_string "b") [] eq_refl eq_refl (Hs "t"%string ltac:(cbn; lia))) as (_ & Hc & Hm & _).
  split; [exact H1|]. split; [exact H2|]. split; [exact H3|].
  destruct (Hc (Hs "b"%string ltac:(cbn; lia))) as (c & E & Hat). destruct (Hm c _ _ Hat) as (_ & c' & E' & _). exists c, c'. split; [exact E|exact E'].
Defined.
