(* ===== verification/Term.v ===== *)
(** Ordered index keys and their ranges: crates/index/src/{term,term_range}.rs.

    A term is [name || 0 || tag || value]; within one name and type the byte
    order of terms is the order of the values, and a range built from value
    bounds selects exactly the terms of that run whose values it admits. *)
From Stdlib Require Import ZArith Lia.
From S2P Require Import Prelude Ordered Storage Scan CellTypes CellValue CellName MerkleNode BranchTypes.

#[local] Open Scope Z_scope.

(** * Terms: term.rs *)

(** [IndexTerm(Vec<u8>)] *)
Abbreviation IndexTerm := bytes.

(** [name_str]: a name that is not UTF-8 is refused. *)
Definition name_str (name : bytes) : res TermError bytes :=
  if is_utf8 name then Ok name else Err InvalidName.

(** [validate_name] *)
Definition validate_name (name : bytes) : res TermError unit :=
  let name := default name (strip_dollar name) in
  match name with
  | [] => Err InvalidName
  | first :: rest =>
      if negb (is_ascii_alphabetic first) || negb (forallb (fun b => is_ascii_alphanumeric b || is_separator b) rest)
      then Err InvalidName
      else Ok ()
  end.

(** [supported] *)
Definition supported (ty : CellType) : res TermError unit :=
  match ty with
  | Bytes => Err (UnsupportedType ty)
  | _ => Ok ()
  end.

(** [IndexTerm::prefix] *)
Definition term_prefix (name : bytes) (ty : CellType) : res TermError bytes :=
  _ ← validate_name name;
  _ ← supported ty;
  Ok (name ++ [x00; byte_of (Z.lor 128 (CellType_id ty))]).

(** [from_str_name], [from_cell], [from_cell_name], [check_cell_name] *)
Definition from_str_name (name : bytes) (value : CellValueRef) : res TermError IndexTerm :=
  prefix ← term_prefix name (cr_ty value);
  Ok (prefix ++ cr_value value).

Definition from_cell (name : bytes) (cell : CellValueRef) : res TermError (option IndexTerm) :=
  if negb (cr_indexable cell) then Ok None
  else term ← from_str_name name cell; Ok (Some term).

Definition from_cell_name (name : bytes) (value : CellValueRef) : res TermError IndexTerm :=
  name ← name_str name;
  from_str_name name value.

Definition check_cell_name (name : bytes) : res TermError unit :=
  name ← name_str name;
  validate_name name.

(** [iter().position(|&b| b == 0)] *)
Fixpoint position_zero (l : bytes) : option nat :=
  match l with
  | [] => None
  | b :: rest => if u8 b =? 0 then Some 0%nat else S <$> position_zero rest
  end.

(** [IndexTerm::decode] *)
Definition term_decode (l : bytes) : res TermError IndexTerm :=
  split ← ok_or (position_zero l) InvalidEncoding;
  name ← name_str (take split l);
  _ ← validate_name name;
  match drop (S split) l with
  | [] => Err InvalidEncoding
  | tag :: value =>
      if Z.land (u8 tag) 128 =? 0 then Err InvalidEncoding
      else
        ty ← map_err TE_Value (CellType_from_id (Z.land (u8 tag) 127));
        _ ← supported ty;
        _ ← map_err TE_Value (CellType_validate ty value);
        Ok l
  end.

(** [validate_float]: the exponent and fraction masks of the two widths *)
Definition exponent_mask (w : FloatWidth) : Z := match w with F32 => 0x7f800000 | F64 => 0x7ff0000000000000 end.
Definition fraction_mask (w : FloatWidth) : Z := match w with F32 => 0x007fffff | F64 => 0x000fffffffffffff end.

Definition validate_float (value : bytes) (w : FloatWidth) : res TermError bytes :=
  let bits := be_decode value in
  if (Z.land bits (exponent_mask w) =? exponent_mask w) && negb (Z.land bits (fraction_mask w) =? 0)
  then Err NaN
  else Ok (if Z.land bits (sign_bit w - 1) =? 0 then replicate (length value) x00 else value).

(** [IndexTerm::new], from native value bytes; the widths are positive, so
    [ordered[0]] is in range. *)
Definition term_new (name : bytes) (ty : CellType) (value : bytes) : res TermError IndexTerm :=
  prefix ← term_prefix name ty;
  _ ← match CellType_width ty with
      | Some expected =>
          if negb (length value =? expected)%nat
          then Err (TE_Value (LengthMismatch ty expected (length value)))
          else Ok ()
      | None => Ok ()
      end;
  ordered ← match ty with
            | Int _ | Decimal _ | Date32 | Timestamp64 => Ok (flip_sign value)
            | Float w =>
                ordered ← validate_float value w;
                match ordered with
                | [] => Panic
                | b :: _ => Ok (if negb (Z.land (u8 b) 128 =? 0) then complement ordered else flip_sign ordered)
                end
            | _ => Ok value
            end;
  _ ← map_err TE_Value (CellType_validate ty ordered);
  Ok (prefix ++ ordered).

(** * Ranges: term_range.rs *)

Inductive RangeError : Type :=
  | NoBound
  | TypeMismatch (lower upper : CellType)
  | RE_Term (e : TermError).

Record TermRange := { tr_lower : Bound bytes; tr_upper : Bound bytes }.

(** [bound_value] *)
Definition bound_value {A} (b : Bound A) : option A :=
  match b with Included a | Excluded a => Some a | Unbounded => None end.

(** [past], on the reversed prefix: bytes are popped from its end *)
Fixpoint past_rev (rev_prefix : bytes) : Bound bytes :=
  match rev_prefix with
  | [] => Unbounded
  | last :: rest => if u8 last <? 255 then Excluded (reverse rest ++ [byte_of (u8 last + 1)]) else past_rev rest
  end.
Definition past (prefix : bytes) : Bound bytes := past_rev (reverse prefix).

(** The term of a bound's value. *)
Definition term_bound (name : bytes) (b : Bound CellValueRef) (unbounded : Bound bytes) : res TermError (Bound bytes) :=
  match b with
  | Included value => term ← from_str_name name value; Ok (Included term)
  | Excluded value => term ← from_str_name name value; Ok (Excluded term)
  | Unbounded => Ok unbounded
  end.

(** The bounds admit no key. *)
Definition empty_range (lower upper : Bound bytes) : bool :=
  match lower, upper with
  | Included low, Included high => ltb high low
  | Included low, Excluded high | Excluded low, Included high | Excluded low, Excluded high => leb high low
  | Unbounded, _ | _, Unbounded => false
  end.

(** [TermRange::between] *)
Definition between (name : bytes) (lower upper : Bound CellValueRef) : res RangeError (option TermRange) :=
  ty ← match bound_value lower, bound_value upper with
       | None, None => Err NoBound
       | Some low, Some high =>
           if negb (bool_decide (cr_ty low = cr_ty high)) then Err (TypeMismatch (cr_ty low) (cr_ty high))
           else Ok (cr_ty low)
       | Some value, None | None, Some value => Ok (cr_ty value)
       end;
  name ← map_err RE_Term (name_str name);
  run ← map_err RE_Term (term_prefix name ty);
  low ← map_err RE_Term (term_bound name lower (Included run));
  high ← map_err RE_Term (term_bound name upper (past run));
  Ok (if empty_range low high then None else Some {| tr_lower := low; tr_upper := high |}).

(** [bounds] and [into_bounds] *)
Definition TermRange_bounds (r : TermRange) : Bound bytes * Bound bytes := (tr_lower r, tr_upper r).

(** * Lemmas *)

Lemma validate_name_ok name : validate_name name = Ok () <-> user_name name.
Proof.
  unfold validate_name, user_name. destruct (strip_dollar name) as [rest|]; cbn [default from_option id].
  - destruct rest as [|b rest]; [done|]. unfold name_grammar.
    change (forallb (fun b => is_ascii_alphanumeric b || is_separator b) rest) with (forallb is_rest rest).
    destruct (is_ascii_alphabetic b), (forallb is_rest rest); cbn; naive_solver.
  - destruct name as [|b rest]; [done|]. unfold name_grammar.
    change (forallb (fun b => is_ascii_alphanumeric b || is_separator b) rest) with (forallb is_rest rest).
    destruct (is_ascii_alphabetic b), (forallb is_rest rest); cbn; naive_solver.
Qed.

Lemma user_name_utf8 name : user_name name -> name_str name = Ok name.
Proof. intros Hu%user_name_plain. unfold name_str, is_utf8. by rewrite plain_utf8. Qed.

(** The bytes before the value. *)
Definition run_of (name : bytes) (ty : CellType) : bytes := name ++ [x00; byte_of (Z.lor 128 (CellType_id ty))].

Lemma term_prefix_ok name ty p : term_prefix name ty = Ok p <-> user_name name /\ ty <> Bytes /\ p = run_of name ty.
Proof.
  unfold term_prefix. rewrite res_bind_ok. setoid_rewrite res_bind_ok. split.
  - intros ([] & Hn%validate_name_ok & [] & Hs & [= <-]). split_and!; [done| |done]. by intros ->.
  - intros (Hn & Ht & ->). exists (). split; [by apply validate_name_ok|]. exists (). split; [by destruct ty|done].
Qed.

Lemma from_str_name_ok name v t :
  from_str_name name v = Ok t <-> user_name name /\ cr_ty v <> Bytes /\ t = run_of name (cr_ty v) ++ cr_value v.
Proof.
  unfold from_str_name. rewrite res_bind_ok. setoid_rewrite term_prefix_ok. split.
  - intros (p & (Hn & Ht & ->) & [= <-]). done.
  - intros (Hn & Ht & ->). eauto.
Qed.

Lemma tag_facts ty : Z.land (u8 (byte_of (Z.lor 128 (CellType_id ty)))) 128 =? 0 = false /\
  Z.land (u8 (byte_of (Z.lor 128 (CellType_id ty)))) 127 = CellType_id ty.
Proof. by destruct ty as [| | | |[]|[]|[]|[]|[]| |]. Qed.

Lemma tag_inj ty ty' : byte_of (Z.lor 128 (CellType_id ty)) = byte_of (Z.lor 128 (CellType_id ty')) -> ty = ty'.
Proof.
  intros E. destruct (tag_facts ty) as [_ H1], (tag_facts ty') as [_ H2]. rewrite E, H2 in H1.
  pose proof (CellType_from_id_id ty) as F. rewrite <- H1, CellType_from_id_id in F. congruence.
Qed.

Lemma position_zero_app name rest : Forall plain_ascii name -> position_zero (name ++ x00 :: rest) = Some (length name).
Proof.
  induction 1 as [|b name Hb _ IH]; [done|]. cbn [app position_zero]. red in Hb.
  destruct (Z.eqb_spec (u8 b) 0); [lia|]. by rewrite IH.
Qed.

Lemma position_zero_split l n : position_zero l = Some n -> exists rest, l = take n l ++ x00 :: rest.
Proof.
  revert n. induction l as [|b l IH]; intros n; [done|]. cbn [position_zero]. destruct (Z.eqb_spec (u8 b) 0) as [E|].
  - intros [= <-]. exists l. cbn. f_equal. by apply (inj u8).
  - destruct (position_zero l) as [k|]; [|done]. intros [= <-]. destruct (IH k eq_refl) as [rest Hl]. exists rest.
    cbn. f_equal. exact Hl.
Qed.

(** Two runs with different names or types share no key. *)
Lemma run_of_disjoint name ty name' ty' k : user_name name -> user_name name' ->
  run_of name ty `prefix_of` k -> run_of name' ty' `prefix_of` k -> name = name' /\ ty = ty'.
Proof.
  intros Hn%user_name_plain Hn'%user_name_plain [r ->] [r' E]. unfold run_of in *.
  rewrite <- !app_assoc in E. cbn [app] in E.
  pose proof (position_zero_app name (byte_of (Z.lor 128 (CellType_id ty)) :: r) Hn) as P.
  rewrite E, position_zero_app in P by done. injection P as P.
  apply app_inj_1 in E as [-> E]; [|lia]. injection E as E1 _. split; [done|]. by apply tag_inj.
Qed.

(** ** Past a prefix *)

Lemma past_snoc q b : past (q ++ [b]) = if u8 b <? 255 then Excluded (q ++ [byte_of (u8 b + 1)]) else past q.
Proof. unfold past. rewrite reverse_snoc. cbn [past_rev]. by rewrite reverse_involutive. Qed.

(** Of the keys from a prefix on, those below [past] are the ones that have it. *)
Lemma past_spec p k : kle p k -> below (past p) k = true <-> p `prefix_of` k.
Proof.
  induction p as [|b q IH] using rev_ind; intros Hle; [split; [intros _; apply prefix_nil|done]|].
  rewrite past_snoc. destruct (Z.ltb_spec (u8 b) 255) as [Hb|Hb].
  - cbn [below]. rewrite ltb_klt. by apply next_after.
  - rewrite IH; [by apply last_byte_max; [lia|]|]. etrans; [|exact Hle]. apply prefix_kle. by apply prefix_app_r.
Qed.

(** ** Ranges *)

Definition bound_map {A B} (f : A -> B) (b : Bound A) : Bound B :=
  match b with Included a => Included (f a) | Excluded a => Excluded (f a) | Unbounded => Unbounded end.

Lemma empty_range_none lower upper k : empty_range lower upper = true -> above lower k && below upper k = false.
Proof.
  intros He. apply not_true_is_false. intros [Ha Hb]%andb_true_iff.
  destruct lower as [a|a|], upper as [b|b|]; try done; cbn in He, Ha, Hb; rewrite ?leb_kle, ?ltb_klt in *.
  - apply (klt_irrefl (K:=bytes) b). apply (klt_kle_trans (K:=bytes) b a b He). by transitivity k.
  - apply (klt_irrefl (K:=bytes) k). apply (klt_kle_trans (K:=bytes) k b k Hb). by transitivity a.
  - apply (klt_irrefl (K:=bytes) a). apply (klt_kle_trans (K:=bytes) a k a Ha). by transitivity b.
  - apply (klt_irrefl (K:=bytes) a). transitivity k; [done|]. by apply (klt_kle_trans (K:=bytes) k b a).
Qed.

Lemma above_app (run : bytes) (b : Bound bytes) v :
  above (match b with Included a => Included (run ++ a) | Excluded a => Excluded (run ++ a) | Unbounded => Included run end)
    (run ++ v) = above b v.
Proof.
  destruct b as [a|a|]; cbn; unfold leb, ltb; rewrite ?cmp_app_l; try done.
  assert (kle run (run ++ v)) as Hk by (by apply prefix_kle, prefix_app_r). unfold kle in Hk. by destruct (cmp run (run ++ v)).
Qed.

Lemma below_app (run : bytes) (b : Bound bytes) v :
  below (match b with Included a => Included (run ++ a) | Excluded a => Excluded (run ++ a) | Unbounded => past run end)
    (run ++ v) = below b v.
Proof.
  destruct b as [a|a|]; cbn; unfold leb, ltb; rewrite ?cmp_app_l; try done.
  apply past_spec; [by apply prefix_kle, prefix_app_r|by apply prefix_app_r].
Qed.

Lemma range_in_run (run : bytes) (lo hi : Bound bytes) k :
  above (match lo with Included a => Included (run ++ a) | Excluded a => Excluded (run ++ a) | Unbounded => Included run end) k = true ->
  below (match hi with Included a => Included (run ++ a) | Excluded a => Excluded (run ++ a) | Unbounded => past run end) k = true ->
  run `prefix_of` k.
Proof.
  intros Ha Hb. assert (kle run k) as Hk.
  { destruct lo as [a|a|]; cbn in Ha; rewrite ?leb_kle, ?ltb_klt in Ha; [| |done].
    - etrans; [|exact Ha]. by apply prefix_kle, prefix_app_r.
    - etrans; [|apply klt_kle; exact Ha]. by apply prefix_kle, prefix_app_r. }
  destruct hi as [a|a|]; cbn in Hb; rewrite ?leb_kle, ?ltb_klt in Hb.
  - eapply prefix_between; [exact Hk|exact Hb|by apply prefix_app_r].
  - eapply prefix_between; [exact Hk|by apply klt_kle|by apply prefix_app_r].
  - by apply (past_spec run k Hk).
Qed.

(** Does a range (or no range) admit a key? *)
Definition admits (r : option TermRange) (k : bytes) : bool :=
  match r with Some r => above (tr_lower r) k && below (tr_upper r) k | None => false end.

Lemma term_bound_ok name b u : user_name name -> (forall v, bound_value b = Some v -> cr_ty v <> Bytes) ->
  term_bound name b u = Ok (match b with
    | Included v => Included (run_of name (cr_ty v) ++ cr_value v)
    | Excluded v => Excluded (run_of name (cr_ty v) ++ cr_value v)
    | Unbounded => u
    end).
Proof.
  intros Hn Hb. destruct b as [v|v|]; cbn [term_bound]; [..|done];
    rewrite (proj2 (from_str_name_ok name v (run_of name (cr_ty v) ++ cr_value v))); auto.
Qed.

Lemma between_ok name ty lo hi : user_name name -> ty <> Bytes ->
  (is_Some (bound_value lo) \/ is_Some (bound_value hi)) ->
  (forall v, bound_value lo = Some v \/ bound_value hi = Some v -> cr_ty v = ty) ->
  exists r, between name lo hi = Ok r /\
    forall k, admits r k = true <->
      exists value, k = run_of name ty ++ value /\
        above (bound_map cr_value lo) value = true /\ below (bound_map cr_value hi) value = true.
Proof.
  intros Hn Hty Hsome Hall. unfold between.
  assert (match bound_value lo, bound_value hi with
    | None, None => Err NoBound
    | Some low, Some high =>
        if negb (bool_decide (cr_ty low = cr_ty high)) then Err (TypeMismatch (cr_ty low) (cr_ty high)) else Ok (cr_ty low)
    | Some value, None | None, Some value => Ok (cr_ty value)
    end = Ok ty) as ->.
  { destruct (bound_value lo) as [a|], (bound_value hi) as [b|].
    - rewrite (Hall a), (Hall b) by auto. by rewrite bool_decide_true.
    - by rewrite (Hall a) by auto.
    - by rewrite (Hall b) by auto.
    - by destruct Hsome as [[? ?]|[? ?]]. }
  unfold mbind, res_mbind. rewrite (user_name_utf8 _ Hn). cbn [map_err].
  rewrite (proj2 (term_prefix_ok name ty (run_of name ty))) by done. cbn [map_err].
  rewrite !term_bound_ok by (done || (intros v Hv; rewrite (Hall v) by auto; done)). cbn [map_err].
  set (run := run_of name ty).
  assert (forall u, match lo with
      | Included v => Included (run_of name (cr_ty v) ++ cr_value v)
      | Excluded v => Excluded (run_of name (cr_ty v) ++ cr_value v)
      | Unbounded => u end =
    match bound_map cr_value lo with Included a => Included (run ++ a) | Excluded a => Excluded (run ++ a) | Unbounded => u end) as ->.
  { intros u. destruct lo as [v|v|]; [..|done]; cbn; by rewrite (Hall v) by auto. }
  assert (forall u, match hi with
      | Included v => Included (run_of name (cr_ty v) ++ cr_value v)
      | Excluded v => Excluded (run_of name (cr_ty v) ++ cr_value v)
      | Unbounded => u end =
    match bound_map cr_value hi with Included a => Included (run ++ a) | Excluded a => Excluded (run ++ a) | Unbounded => u end) as ->.
  { intros u. destruct hi as [v|v|]; [..|done]; cbn; by rewrite (Hall v) by auto. }
  set (low := match bound_map cr_value lo with Included a => _ | Excluded a => _ | Unbounded => _ end).
  set (high := match bound_map cr_value hi with Included a => _ | Excluded a => _ | Unbounded => _ end).
  eexists. split; [done|]. intros k.
  assert (admits (if empty_range low high then None else Some {| tr_lower := low; tr_upper := high |}) k =
    above low k && below high k) as ->.
  { destruct (empty_range low high) eqn:E; [|done]. cbn. symmetry. by apply empty_range_none. }
  rewrite andb_true_iff. split.
  - intros [Ha Hb]. destruct (range_in_run run _ _ k Ha Hb) as [value ->]. exists value. split; [done|].
    rewrite <- (above_app run), <- (below_app run). done.
  - intros (value & -> & Ha & Hb). unfold low, high. rewrite above_app, below_app. done.
Qed.

(** ** Decoding *)

(** What a canonical term is: an admitted name, an indexable type and a
    payload the type accepts. *)
Definition canonical_term (name : bytes) (ty : CellType) (value l : bytes) : Prop :=
  user_name name /\ ty <> Bytes /\ CellType_validate ty value = Ok () /\ l = run_of name ty ++ value.

Lemma supported_ok ty : supported ty = Ok () <-> ty <> Bytes.
Proof. destruct ty; cbn; split; done. Qed.

Lemma land_tag b : Z.land (u8 b) 128 =? 0 = false -> byte_of (Z.lor 128 (Z.land (u8 b) 127)) = b.
Proof. by destruct b. Qed.

Lemma term_decode_sound l t : term_decode l = Ok t -> t = l /\ exists name ty value, canonical_term name ty value l.
Proof.
  unfold term_decode. intros H. apply res_bind_ok in H as (n & Hn & H).
  assert (position_zero l = Some n) as Hz by (by destruct (position_zero l); inversion Hn).
  apply position_zero_split in Hz as (rest & Hl).
  assert (length (take n l) = n) as Hlen.
  { rewrite length_take. assert (length l = length (take n l ++ x00 :: rest)) as E by by rewrite <- Hl.
    rewrite length_app, length_take in E. cbn in E. lia. }
  assert (drop (S n) l = rest) as Hd.
  { rewrite Hl, drop_app_ge by lia. rewrite Hlen. by replace (S n - n)%nat with 1%nat by lia. }
  apply res_bind_ok in H as (name & Hname & H). unfold name_str in Hname.
  destruct (is_utf8 (take n l)); inversion Hname; subst name.
  apply res_bind_ok in H as ([] & Hv%validate_name_ok & H). rewrite Hd in H. destruct rest as [|tag value]; [done|].
  destruct (Z.land (u8 tag) 128 =? 0) eqn:Et; [done|].
  apply res_bind_ok in H as (ty & Hty & H). apply map_err_ok, CellType_id_from_id in Hty.
  apply res_bind_ok in H as ([] & Hs & H). apply res_bind_ok in H as ([] & Hval%map_err_ok & [= <-]).
  split; [done|]. exists (take n l), ty, value. split_and!; [done|by apply supported_ok|done|].
  rewrite Hl at 1. unfold run_of. rewrite <- app_assoc. cbn [app]. rewrite Hty, land_tag by done. done.
Qed.

Lemma term_decode_complete name ty value l : canonical_term name ty value l -> term_decode l = Ok l.
Proof.
  intros (Hn & Hty & Hval & ->). assert (Hp := user_name_plain name Hn).
  assert (run_of name ty ++ value = name ++ x00 :: byte_of (Z.lor 128 (CellType_id ty)) :: value) as E
    by (unfold run_of; by rewrite <- app_assoc).
  unfold term_decode. rewrite !E, position_zero_app by done. unfold mbind, res_mbind. cbn [ok_or].
  rewrite take_app_length, user_name_utf8 by done. rewrite (proj2 (validate_name_ok name)) by done.
  rewrite drop_app_ge by lia. replace (S (length name) - length name)%nat with 1%nat by lia. cbn [drop].
  destruct (tag_facts ty) as [-> ->]. rewrite CellType_from_id_id. cbn [map_err].
  rewrite (proj2 (supported_ok ty)) by done. by rewrite Hval.
Qed.

Lemma canonical_unique name ty value name' ty' value' l :
  canonical_term name ty value l -> canonical_term name' ty' value' l -> name = name' /\ ty = ty' /\ value = value'.
Proof.
  intros (Hn & _ & _ & E) (Hn' & _ & _ & E').
  destruct (run_of_disjoint name ty name' ty' l) as [-> ->]; [done..| | |]; [by rewrite E; apply prefix_app_r|by rewrite E'; apply prefix_app_r|].
  split_and!; [done..|]. rewrite E in E'. by apply app_inv_head in E'.
Qed.

(** ** Native construction *)

(** The term of a value with stored payload [value]. *)
Definition stored_term (name : bytes) (ty : CellType) (value : bytes) : res TermError IndexTerm :=
  from_str_name name (as_view (field_from_typed ty value)).

Lemma stored_term_eq name ty value : user_name name -> ty <> Bytes -> stored_term name ty value = Ok (run_of name ty ++ value).
Proof.
  intros. unfold stored_term, field_from_typed. rewrite as_view_to_owned. by apply from_str_name_ok.
Qed.

(** The masks of [validate_float] single out NaNs and zeros. *)
Lemma land_field bits lo n : 0 <= lo -> 0 <= n -> Z.land bits (Z.shiftl (Z.ones n) lo) = (bits / 2 ^ lo) mod 2 ^ n * 2 ^ lo.
Proof.
  intros Hlo Hn. rewrite <- Z.shiftl_mul_pow2 by done. apply Z.bits_inj'. intros i Hi.
  rewrite Z.land_spec, !Z.shiftl_spec by done. destruct (Z.ltb_spec i lo).
  - rewrite (Z.testbit_neg_r (Z.ones n)), (Z.testbit_neg_r (_ mod _)) by lia. apply andb_false_r.
  - rewrite <- Z.land_ones, Z.land_spec, <- Z.shiftr_div_pow2 by lia. rewrite Z.shiftr_spec by lia.
    by replace (i - lo + lo) with i by lia.
Qed.

Definition fraction_bits (w : FloatWidth) : Z := match w with F32 => 23 | F64 => 52 end.
Definition exponent_bits (w : FloatWidth) : Z := match w with F32 => 8 | F64 => 11 end.

Lemma mask_nan w bits :
  (Z.land bits (exponent_mask w) =? exponent_mask w) && negb (Z.land bits (fraction_mask w) =? 0) = is_nan w bits.
Proof.
  set (f := fraction_bits w). set (e := exponent_bits w).
  assert (Hf : 0 < 2 ^ f) by (by destruct w). assert (He : 1 < 2 ^ e) by (by destruct w).
  assert (0 <= f /\ 0 <= e) as [Hf0 He0] by (by destruct w).
  replace (exponent_mask w) with (Z.shiftl (Z.ones e) f) by (by destruct w).
  replace (fraction_mask w) with (Z.ones f) by (by destruct w).
  rewrite land_field, Z.land_ones by done. unfold is_nan.
  replace (sign_bit w) with (2 ^ f * 2 ^ e) by (by destruct w).
  replace (infinity_bits w) with ((2 ^ e - 1) * 2 ^ f) by (by destruct w).
  replace (Z.shiftl (Z.ones e) f) with ((2 ^ e - 1) * 2 ^ f) by (rewrite Z.shiftl_mul_pow2, Z.ones_equiv by done; lia).
  rewrite Z.rem_mul_r by lia. pose proof (Z.mod_pos_bound bits (2 ^ f) Hf). pose proof (Z.mod_pos_bound (bits / 2 ^ f) (2 ^ e) ltac:(lia)).
  set (x := (bits / 2 ^ f) mod 2 ^ e) in *. set (y := bits mod 2 ^ f) in *. clearbody x y. generalize dependent (2 ^ f). generalize dependent (2 ^ e).
  intros E He Hx F HF Hy. apply eq_true_iff_eq. rewrite andb_true_iff, negb_true_iff, Z.eqb_eq, Z.eqb_neq, Z.ltb_lt. split; [nia|].
  intros Hlt. assert (x = E - 1) by nia. subst x. nia.
Qed.

Lemma mask_zero w l : length l = FloatWidth_bytes w ->
  (Z.land (be_decode l) (sign_bit w - 1) =? 0) = (be_decode l mod sign_bit w =? 0).
Proof.
  intros Hl. replace (sign_bit w - 1) with (Z.ones (8 * Z.of_nat (FloatWidth_bytes w) - 1)) by (by destruct w).
  rewrite Z.land_ones by (destruct w; cbn; lia). done.
Qed.

Lemma all_zero l : be_decode l = 0 -> l = replicate (length l) x00.
Proof.
  intros H%forallb_zero. induction l as [|b l IH]; [done|]. cbn in *. apply andb_true_iff in H as [Hb H].
  rewrite <- IH by done. f_equal. apply (inj u8). by apply Z.eqb_eq in Hb.
Qed.

(** The float branch of [term_new] is [encode_float]. *)
Lemma float_branch w value : length value = FloatWidth_bytes w ->
  (ordered ← validate_float value w;
   match ordered with
   | [] => Panic
   | b :: _ => Ok (if negb (Z.land (u8 b) 128 =? 0) then complement ordered else flip_sign ordered)
   end) = if is_nan w (be_decode value) then Err NaN else Ok (encode_float value).
Proof.
  intros Hl. unfold validate_float, mbind, res_mbind. rewrite mask_nan. destruct (is_nan w (be_decode value)); [done|].
  rewrite mask_zero by done. assert (0 < length value)%nat as Hpos by (rewrite Hl; destruct w; cbn; lia).
  assert (sign_bit w = half256 (length value)) as -> by (rewrite Hl; by destruct w).
  destruct value as [|b l]; [cbn in Hpos; lia|]. clear Hl.
  assert (Hd : be_decode (b :: l) = u8 b * pow256 (length l) + be_decode l) by (unfold pow256; apply be_decode_cons).
  pose proof (be_decode_range l) as Hr. fold (pow256 (length l)) in Hr. pose proof (u8_range b). pose proof (pow256_pos (length l)) as Hp.
  assert (half256 (length (b :: l)) = 128 * pow256 (length l)) as Hh by (unfold half256; cbn [length]; by replace (S (length l) - 1)%nat with (length l) by lia).
  rewrite Hh, Hd. cbn [encode_float].
  destruct (Z.eqb_spec ((u8 b * pow256 (length l) + be_decode l) mod (128 * pow256 (length l))) 0) as [E|E].
  - cbn [length replicate]. change (negb (Z.land (u8 x00) 128 =? 0)) with false. cbv iota.
    apply Z.mod_divide in E; [|lia]. destruct E as [k Hk].
    assert (be_decode l = 0 /\ (u8 b = 0 \/ u8 b = 128)) as [Hz Hb].
    { assert (be_decode l = pow256 (length l) * (128 * k - u8 b)) as Hm by nia.
      assert (128 * k - u8 b = 0) as Hz by nia. split; [nia|lia]. }
    rewrite (proj2 (forallb_zero l) Hz), andb_true_r. destruct (Z.eqb_spec (u8 b) 128) as [|Hne]; [done|].
    destruct Hb as [Hb|]; [|done]. assert (b = x00) as -> by (by apply (inj u8)). cbn [u8]. rewrite (all_zero l Hz) at 2. done.
  - assert ((u8 b =? 128) && forallb (fun b => u8 b =? 0) l = false) as ->.
    { apply not_true_is_false. intros [Hb%Z.eqb_eq Hf%forallb_zero]%andb_true_iff. apply E.
      rewrite Hb, Hf, Z.add_0_r. apply Z.mod_same. lia. }
    by destruct (Z.land (u8 b) 128 =? 0).
Qed.

Lemma term_new_float name w value : user_name name -> length value = FloatWidth_bytes w ->
  term_new name (Float w) value =
    if is_nan w (be_decode value) then Err NaN else Ok (run_of name (Float w) ++ encode_float value).
Proof.
  intros Hn Hl. unfold term_new, mbind at 1, res_mbind at 1.
  rewrite (proj2 (term_prefix_ok name (Float w) (run_of name (Float w)))) by done.
  replace (CellType_width (Float w)) with (Some (length value)) by (rewrite Hl; by destruct w).
  rewrite Nat.eqb_refl. cbn [negb]. unfold mbind at 1, res_mbind at 1. rewrite float_branch by done.
  destruct (is_nan w (be_decode value)) eqn:E; [done|]. unfold mbind, res_mbind. by rewrite validate_encode_float.
Qed.

(** * Properties *)

(** C35. Index terms are canonical: a stored key decodes exactly when it is the
    term of an admitted name, an indexable type and a payload that type
    accepts, it decodes to itself, and it has only one such reading. *)
Theorem term_codec_canonical (l : bytes) :
  (forall t, term_decode l = Ok t <-> t = l /\ exists name ty value, canonical_term name ty value l) /\
  (forall name ty value name' ty' value', canonical_term name ty value l -> canonical_term name' ty' value' l ->
     name = name' /\ ty = ty' /\ value = value') /\
  (forall name v, CellValueRef_wf v -> from_str_name name v = Ok l -> canonical_term name (cr_ty v) (cr_value v) l).
Proof.
  split_and!.
  - intros t. split; [apply term_decode_sound|]. intros (-> & name & ty & value & H). by eapply term_decode_complete.
  - intros *. apply canonical_unique.
  - intros name v Hv (Hn & Ht & ->)%from_str_name_ok. split_and!; try done.
    unfold CellValueRef_wf, CellValueRef_new in Hv. destruct (_ && _); [done|].
    apply res_bind_ok in Hv as ([] & Hv & _). done.
Qed.

(** Building a term from native bytes gives the term of the stored cell:
    signed and unsigned integers, decimals, dates and timestamps at their
    widths, and floats from their IEEE bits, where NaN is refused on both
    paths and both zeros give one term. *)
Theorem native_terms_agree (name : bytes) :
  user_name name ->
  (forall x, term_new name (Uint W4) (be_encode 4 x) = from_str_name name (as_view (from_u32 x)) /\
     term_new name (Uint W8) (be_encode 8 x) = from_str_name name (as_view (from_u64 x)) /\
     term_new name (Uint W16) (be_encode 16 x) = from_str_name name (as_view (from_u128 x))) /\
  (forall x, term_new name (Int W4) (be_encode 4 x) = from_str_name name (as_view (from_i32 x)) /\
     term_new name (Int W8) (be_encode 8 x) = from_str_name name (as_view (from_i64 x)) /\
     term_new name (Int W16) (be_encode 16 x) = from_str_name name (as_view (from_i128 x)) /\
     term_new name (Decimal W4) (be_encode 4 x) = from_str_name name (as_view (from_dec32_unscaled x)) /\
     term_new name (Decimal W8) (be_encode 8 x) = from_str_name name (as_view (from_dec64_unscaled x)) /\
     term_new name (Decimal W16) (be_encode 16 x) = from_str_name name (as_view (from_dec128_unscaled x)) /\
     term_new name Date32 (be_encode 4 x) = from_str_name name (as_view (from_date32 x)) /\
     term_new name Timestamp64 (be_encode 8 x) = from_str_name name (as_view (from_timestamp64 x))) /\
  (forall bits, uint_range 4 bits ->
     term_new name (Float F32) (be_encode 4 bits) =
       match from_f32 bits with Ok v => from_str_name name (as_view v) | _ => Err NaN end) /\
  (forall bits, uint_range 8 bits ->
     term_new name (Float F64) (be_encode 8 bits) =
       match from_f64 bits with Ok v => from_str_name name (as_view v) | _ => Err NaN end) /\
  from_f64 (sign_bit F64) = from_f64 0 /\ from_f32 (sign_bit F32) = from_f32 0.
Proof.
  intros Hn. split_and!; try done.
  - intros bits Hb. rewrite term_new_float by (done || apply length_be_encode). rewrite be_decode_encode by done.
    unfold from_f32. destruct (is_nan F32 bits); [done|]. symmetry. by apply stored_term_eq.
  - intros bits Hb. rewrite term_new_float by (done || apply length_be_encode). rewrite be_decode_encode by done.
    unfold from_f64. destruct (is_nan F64 bits); [done|]. symmetry. by apply stored_term_eq.
Qed.

(** "price" *)
Definition price_name : bytes := [x70; x72; x69; x63; x65].

Lemma native_terms_agree_witness :
  term_new price_name (Float F64) (be_encode 8 0x3ff8000000000000) =
    match from_f64 0x3ff8000000000000 with Ok v => from_str_name price_name (as_view v) | _ => Err NaN end.
Proof.
  assert (user_name price_name) as Hn by (vm_compute; tauto).
  apply (native_terms_agree price_name Hn). vm_compute. split; congruence.
Defined.

(** C25. A range built from value bounds selects exactly one attribute's run:
    a key lies in it iff it is the term of that name and type for a payload
    between the bounds (none when the bounds cross). A bound without a type is
    refused, and so are bounds of two types. *)
Theorem range_selects_run (name : bytes) (ty : CellType) (lo hi : Bound CellValueRef) :
  user_name name -> ty <> Bytes ->
  (is_Some (bound_value lo) \/ is_Some (bound_value hi)) ->
  (forall v, bound_value lo = Some v \/ bound_value hi = Some v -> cr_ty v = ty) ->
  (exists r, between name lo hi = Ok r /\
    forall k, admits r k = true <->
      exists value, k = run_of name ty ++ value /\
        above (bound_map cr_value lo) value = true /\ below (bound_map cr_value hi) value = true) /\
  between name Unbounded Unbounded = Err NoBound /\
  (forall a b, cr_ty a <> cr_ty b -> between name (Included a) (Excluded b) = Err (TypeMismatch (cr_ty a) (cr_ty b))).
Proof.
  intros Hn Hty Hs Hall. split_and!; [by apply between_ok|done|].
  intros a b Hab. unfold between. cbn [bound_value]. by rewrite bool_decide_false.
Qed.

Lemma range_selects_run_witness :
  (exists r, between price_name (Included (as_view (from_i32 (-5)))) (Excluded (as_view (from_i32 7))) = Ok r /\
    admits r (run_of price_name (Int W4) ++ CellValue_value (from_i32 0)) = true) /\
  between price_name Unbounded Unbounded = Err NoBound.
Proof.
  destruct (range_selects_run price_name (Int W4) (Included (as_view (from_i32 (-5)))) (Excluded (as_view (from_i32 7))))
    as [(r & Hr & Hin) [Hu _]].
  - vm_compute. tauto.
  - done.
  - left. by eexists.
  - intros v [[= <-]|[= <-]]; reflexivity.
  - split; [|exact Hu]. exists r. split; [exact Hr|]. apply Hin. eexists. split; [reflexivity|]. by vm_compute.
Defined.
