(* ===== verification/Bitmap.v ===== *)
(** Posting bitmaps and their trie:
    crates/index/src/{path,container,bitmap,bitmap_trie,tables}.rs.

    A record ID is a 48-bit container path and a 16-bit offset. The roaring
    crate is a parameter: a bitmap is the set of its values, and [Roaring] is
    its serialisation, with the documented round trip as its only law. *)
From Stdlib Require Import ZArith Lia.
From S2P Require Import Prelude Ordered Storage MerkleNode MerkleTrie Frame MerkleWalk BranchTypes.

#[local] Open Scope Z_scope.

(** * Tables and constants: tables.rs, lib.rs *)

Definition INDEX : Table := "Index".
Definition BITMAP_CONTAINER : Table := "BitmapContainer".
Definition BITMAP_TRIE : Table := "BitmapTrie".
Definition INDEX_TRIE : Table := "IndexTrie".

Definition INDEX_TRIE_PATH_BYTES : nat := 32.
Definition BITMAP_TRIE_PATH_BYTES : nat := 6.
Definition INDEX_LEAF_DOMAIN : byte := x02.
Definition INDEX_BRANCH_DOMAIN : byte := x03.
Definition BITMAP_LEAF_DOMAIN : byte := x04.
Definition BITMAP_BRANCH_DOMAIN : byte := x05.
Definition PATH_BITS : Z := 48.
Definition MAX_PATH : Z := Z.shiftl 1 PATH_BITS - 1.
Definition CHUNK_BITS : Z := 16.

(** * Record IDs: path.rs *)

Definition is_valid_path (path : Z) : bool := path <=? MAX_PATH.

(** [split]: the cast to [u16] keeps the low sixteen bits. *)
Definition path_split (value : Z) : Z * Z := (Z.shiftr value CHUNK_BITS, value mod 2 ^ 16).

Definition path_join (path value : Z) : res BitmapError Z :=
  if negb (is_valid_path path) then Err (PathOutOfRange path)
  else Ok (Z.lor (Z.shiftl path CHUNK_BITS) value).

Definition path_bytes (path : Z) : res BitmapError bytes :=
  if negb (is_valid_path path) then Err (PathOutOfRange path)
  else Ok (drop 2 (be_encode 8 path)).

(** * The roaring crate *)

Class Roaring : Type := {
  (** [remove_run_compression], [optimize] and [serialize_into] *)
  roaring_serialize : gset Z -> bytes;
  roaring_deserialize : bytes -> res string (gset Z)
}.

Class RoaringLaws `{Roaring} : Prop :=
  roaring_round s : (forall x, x ∈ s -> 0 <= x < 2 ^ 32) -> roaring_deserialize (roaring_serialize s) = Ok s.

(** [iter] and [max]: values in increasing order *)
Definition roaring_iter (s : gset Z) : list Z := merge_sort Z.le (elements s).
Definition roaring_max (s : gset Z) : option Z := last (roaring_iter s).

(** [RoaringTreemap::append]: values must keep increasing. *)
Fixpoint treemap_append_from (previous : option Z) (s : gset Z) (l : list Z) : option (gset Z) :=
  match l with
  | [] => Some s
  | x :: l =>
      match previous with
      | Some p => if x <=? p then None else treemap_append_from (Some x) ({[x]} ∪ s) l
      | None => treemap_append_from (Some x) ({[x]} ∪ s) l
      end
  end.
Definition treemap_append (s : gset Z) (l : list Z) : option (gset Z) := treemap_append_from (roaring_max s) s l.

(** * Containers: container.rs *)

Record BitmapContainer := { bc_path : Z; bc_values : gset Z }.

Section Container.
Context `{Roaring}.

Definition Container_new (path : Z) (values : gset Z) : res BitmapError BitmapContainer :=
  if negb (is_valid_path path) then Err (PathOutOfRange path)
  else match roaring_max values with
       | Some value => if 65535 <? value then Err (OffsetOutOfRange value) else Ok {| bc_path := path; bc_values := values |}
       | None => Ok {| bc_path := path; bc_values := values |}
       end.

Definition Container_empty (path : Z) : res BitmapError BitmapContainer := Container_new path ∅.

(** [insert] and [remove]: whether the set changed *)
Definition Container_insert (offset : Z) (c : BitmapContainer) : bool * BitmapContainer :=
  (negb (bool_decide (offset ∈ bc_values c)), {| bc_path := bc_path c; bc_values := {[offset]} ∪ bc_values c |}).
Definition Container_remove (offset : Z) (c : BitmapContainer) : bool * BitmapContainer :=
  (bool_decide (offset ∈ bc_values c), {| bc_path := bc_path c; bc_values := bc_values c ∖ {[offset]} |}).

Definition Container_is_empty (c : BitmapContainer) : bool := bool_decide (bc_values c = ∅).

Definition Container_iter (c : BitmapContainer) : list Z :=
  (fun offset => Z.lor (Z.shiftl (bc_path c) 16) offset) <$> roaring_iter (bc_values c).

(** [encode_into] and [canonical_bytes] *)
Definition Container_encode_into (c : BitmapContainer) (out : bytes) : res BitmapError bytes :=
  if Container_is_empty c then Err EmptyContainer
  else path ← path_bytes (bc_path c); Ok (out ++ path ++ roaring_serialize (bc_values c)).
Definition canonical_bytes (c : BitmapContainer) : res BitmapError bytes := Container_encode_into c [].

(** [decode] *)
Definition Container_decode (l : bytes) : res BitmapError BitmapContainer :=
  if (length l <? 6)%nat then Err TruncatedPath
  else
    values ← map_err Decode (roaring_deserialize (drop 6 l));
    container ← Container_new (be_decode (x00 :: x00 :: take 6 l)) values;
    canonical ← canonical_bytes container;
    if bool_decide (canonical = l) then Ok container else Err NonCanonicalEncoding.

(** [leaf_hash] *)
Definition container_hash `{HashProvider} (l : bytes) : Hash := hash_parts [[BITMAP_LEAF_DOMAIN]; l].
Definition Container_leaf_hash `{HashProvider} (c : BitmapContainer) : res BitmapError Hash :=
  l ← canonical_bytes c; Ok (container_hash l).
End Container.

(** * Query bitmaps: bitmap.rs *)

(** [Bitmap]: a set of record IDs; [bitor_assign] is the union. *)
Abbreviation Bitmap := (gset Z).

Fixpoint from_containers_loop (values : Bitmap) (previous : option Z) (containers : list BitmapContainer)
    : res BitmapError Bitmap :=
  match containers with
  | [] => Ok values
  | container :: rest =>
      let path := bc_path container in
      _ ← match previous with
          | Some prev =>
              if path =? prev then Err (DuplicatePath path)
              else if path <? prev then Err (UnsortedPaths prev path) else Ok ()
          | None => Ok ()
          end;
      values ← unwrap (treemap_append values (Container_iter container));
      from_containers_loop values (Some path) rest
  end.

Definition from_containers (containers : list BitmapContainer) : res BitmapError Bitmap :=
  from_containers_loop ∅ None containers.

(** * The bitmap trie: bitmap_trie.rs *)

Section BitmapTrie.
Context `{Roaring} `{HashProvider}.

(** [BitmapTrie::decode] *)
Definition bitmap_decode (h : Hash) (l : bytes) : res IndexError BitmapContainer :=
  if negb (bool_decide (container_hash l = h)) then Err (Corruption "container hash mismatch")
  else map_err IE_Bitmap (Container_decode l).

Section Reading.
Context {T : Type} `{ReadTransaction T}.

(** [BitmapTrie::load] *)
Definition bitmap_load (tx : T) (leaf : LeafRef) : res IndexError BitmapContainer :=
  row ← map_err IE_Storage (tx_get tx BITMAP_CONTAINER (lf_hash leaf));
  row ← ok_or row (Corruption "missing container");
  container ← bitmap_decode (lf_hash leaf) row;
  path ← map_err IE_Bitmap (path_bytes (bc_path container));
  if negb (bool_decide (path = lf_path leaf))
  then Err (Corruption "container path disagrees with leaf reference")
  else Ok container.

(** [BitmapTrie::reopen] *)
Definition bitmap_reopen (tx : T) (h : Hash) : res IndexError (RootRef * option BitmapContainer) :=
  if bool_decide (h = hash []) then Err (Corruption "empty bitmap root in Index row")
  else
    row ← map_err IE_Storage (tx_get tx BITMAP_CONTAINER h);
    match row with
    | Some row =>
        container ← bitmap_decode h row;
        path ← map_err IE_Bitmap (path_bytes (bc_path container));
        Ok (RLeaf {| lf_path := path; lf_hash := h |}, Some container)
    | None =>
        _ ← map_err IE_Merkle (validate_root BITMAP_TRIE_PATH_BYTES BITMAP_TRIE BITMAP_BRANCH_DOMAIN tx (RBranch h));
        Ok (RBranch h, None)
    end.

(** [walk(..).map(load).collect()] *)
Fixpoint load_leaves (tx : T) (leaves : list (res MerkleError LeafRef)) : res IndexError (list BitmapContainer) :=
  match leaves with
  | [] => Ok []
  | leaf :: rest =>
      leaf ← map_err IE_Merkle leaf;
      container ← bitmap_load tx leaf;
      containers ← load_leaves tx rest;
      Ok (container :: containers)
  end.

(** [BitmapTrie::bitmap]; at most [n] containers and [fuel] trie steps each *)
Definition bitmap_at (n fuel : nat) (tx : T) (h : Hash) : res IndexError Bitmap :=
  '(root, cached) ← bitmap_reopen tx h;
  match cached with
  | Some container => map_err IE_Bitmap (from_containers [container])
  | None =>
      containers ← load_leaves tx
        (walk_collect BITMAP_TRIE_PATH_BYTES BITMAP_TRIE BITMAP_BRANCH_DOMAIN n fuel tx (walk root));
      map_err IE_Bitmap (from_containers containers)
  end.
End Reading.

Section Writing.
Context {T : Type} `{WriteTransaction T}.

(** One requested membership: container path, offset, present. *)
Abbreviation Posting := (Z * Z * bool)%type.

(** The inner loop: apply the run's changes to the container. *)
Definition set_offsets (run : list Posting) (c : BitmapContainer) : bool * BitmapContainer :=
  foldl (fun '(changed, c) '(_, offset, present) =>
    let '(now, c) := if (present : bool) then Container_insert offset c else Container_remove offset c in
    (changed || now, c)) (false, c) run.

(** Store an immutable container row; an equal row may be there already. *)
Definition insert_container (h : Hash) (l : bytes) : stres T IndexError unit := fun tx =>
  match tx_insert BITMAP_CONTAINER h l tx with
  | (Ok _, tx) => (Ok (), tx)
  | (Err AlreadyExists, tx) =>
      match map_err IE_Storage (tx_get tx BITMAP_CONTAINER h) with
      | Ok old => if bool_decide (old = Some l) then (Ok (), tx) else (Err ConflictingContent, tx)
      | Err e => (Err e, tx)
      | Panic => (Panic, tx)
      | Diverge => (Diverge, tx)
      end
  | (Err e, tx) => (Err (IE_Storage e), tx)
  | (Panic, tx) => (Panic, tx)
  | (Diverge, tx) => (Diverge, tx)
  end.

(** The outer loop of [apply], one turn per run of equal container paths. *)
Fixpoint apply_runs (root : RootRef) (runs : list (list Posting)) (previous : option Z)
    (cached : option BitmapContainer) : stres T IndexError (list Edit) :=
  match runs with
  | [] => mret []
  | [] :: runs => apply_runs root runs previous cached
  | (((hi, lo, present) :: _) as run) :: runs =>
      _ ← lift_res match previous with
                   | Some p => if hi <=? p then Err (IE_Bitmap (UnsortedPaths p hi)) else Ok ()
                   | None => Ok ()
                   end;
      path ← lift_res (map_err IE_Bitmap (path_bytes hi));
      old ← reading (fun tx => map_err IE_Merkle (get BITMAP_TRIE_PATH_BYTES BITMAP_TRIE BITMAP_BRANCH_DOMAIN tx root path));
      '(container, cached) ← match old with
                             | Some leaf =>
                                 match cached with
                                 | Some container => mret (container, None)
                                 | None => container ← reading (fun tx => bitmap_load tx leaf); mret (container, None)
                                 end
                             | None => container ← lift_res (map_err IE_Bitmap (Container_empty hi)); mret (container, cached)
                             end;
      let '(changed, container) := set_offsets run container in
      if negb changed then apply_runs root runs (Some hi) cached
      else if Container_is_empty container then
        edits ← apply_runs root runs (Some hi) cached;
        mret ((path, None) :: edits)
      else
        l ← lift_res (map_err IE_Bitmap (canonical_bytes container));
        let h := container_hash l in
        _ ← insert_container h l;
        edits ← apply_runs root runs (Some hi) cached;
        mret ((path, Some h) :: edits)
  end.

(** [BitmapTrie::apply] *)
Definition bitmap_apply (before : option Hash) (changes : list Posting) : stres T IndexError (option Hash) :=
  '(root, cached) ← match before with
                    | Some h => reading (fun tx => bitmap_reopen tx h)
                    | None => mret (REmpty, None)
                    end;
  edits ← apply_runs root (chunk_by (fun a b => (a.1.1 =? b.1.1)) changes) None cached;
  root ← st_map_err IE_Merkle (apply BITMAP_TRIE_PATH_BYTES BITMAP_TRIE BITMAP_BRANCH_DOMAIN root edits);
  mret (if bool_decide (root = REmpty) then None else Some (RootRef_hash root)).
End Writing.
End BitmapTrie.

(** * What an update leaves of a transaction, whatever its arguments *)

Section Keeps.
Context `{Roaring} `{HashProvider} {T : Type} `{WT : WriteTransaction T} (R : T -> T -> Prop) `{!PreOrder R}.
Hypothesis Hcontainer : forall k v tx, R tx (tx_insert BITMAP_CONTAINER k v tx).2.
Hypothesis Hbitmap : forall k v tx, R tx (tx_insert BITMAP_TRIE k v tx).2.

Lemma insert_container_keeps h l : keeps R (insert_container h l).
Proof using Hcontainer.
  intros tx. unfold insert_container. pose proof (Hcontainer h l tx) as Hi.
  destruct (tx_insert BITMAP_CONTAINER h l tx) as [[a|[]| |] tx']; cbn [snd] in *; try done.
  destruct (map_err IE_Storage (tx_get tx' BITMAP_CONTAINER h)); [case_bool_decide|..]; done.
Qed.

Lemma apply_runs_keeps root runs previous cached : keeps R (apply_runs root runs previous cached).
Proof using All.
  revert previous cached. induction runs as [|run runs IH]; intros previous cached; cbn [apply_runs]; [keeps|].
  destruct run as [|[[hi lo] present] run]; [apply IH|]. keeps; apply insert_container_keeps.
Qed.

Lemma bitmap_apply_keeps before changes : keeps R (bitmap_apply before changes).
Proof using All. unfold bitmap_apply. keeps; [apply apply_runs_keeps|by apply apply_keeps]. Qed.
End Keeps.

(** * A concrete serialisation

    Four big-endian bytes per value, in increasing order: a parameter that
    satisfies the round trip. *)
Fixpoint words (l : bytes) : list Z :=
  match l with
  | a :: b :: c :: d :: l => be_decode [a; b; c; d] :: words l
  | _ => []
  end.

#[export] Instance word_roaring : Roaring := {|
  roaring_serialize s := concat (be_encode 4 <$> roaring_iter s);
  roaring_deserialize l := Ok (list_to_set (words l))
|}.

Lemma words_concat l : Forall (fun x => 0 <= x < 2 ^ 32) l -> words (concat (be_encode 4 <$> l)) = l.
Proof.
  induction 1 as [|x l Hx _ IH]; [done|]. cbn [fmap list_fmap concat].
  pose proof (length_be_encode 4 x) as Hl. pose proof (be_decode_encode 4 x) as Hd.
  destruct (be_encode 4 x) as [|a [|b [|c [|d [|e r]]]]]; try done. cbn [app words]. rewrite Hd by exact Hx. f_equal. exact IH.
Qed.

#[export] Instance word_roaring_laws : RoaringLaws.
Proof.
  intros s Hs. cbn [roaring_deserialize roaring_serialize word_roaring]. rewrite words_concat.
  - f_equal. apply set_eq. intros x. unfold roaring_iter. rewrite elem_of_list_to_set, merge_sort_Permutation. apply elem_of_elements.
  - apply Forall_forall. intros x Hx. apply Hs. unfold roaring_iter in Hx. rewrite merge_sort_Permutation in Hx. by apply elem_of_elements.
Qed.
