(* ===== verification/BitmapSpec.v ===== *)
(** What the posting bitmaps promise: crates/index/src/{path,container,bitmap,
    bitmap_trie}.rs against finite sets of record IDs.

    A bitmap root stands for a set of 64-bit IDs: its trie has one leaf for each
    occupied container path, and the leaf's digest is that of the container row.
    Containers and branches live in different tables under digests of different
    domains; [clash] says that a stored container and a stored branch (or the
    empty trie) share a digest, the one way a bitmap root can be misread. *)
From Stdlib Require Import ZArith Lia.
From S2P Require Import Prelude Ordered Groups Storage MerkleNode MerkleTrie Frame MerkleTree MerkleEdit MerkleBatch MerkleSpec MerkleWalk.
From S2P Require Import BranchTypes Bitmap.

#[local] Open Scope Z_scope.

(** * Record IDs and containers *)

(** An ID is its container path and its offset. *)
Definition id_of (path offset : Z) : Z := path * 65536 + offset.

Lemma id_of_lor path offset : 0 <= offset < 65536 -> Z.lor (Z.shiftl path 16) offset = id_of path offset.
Proof.
  intros Ho. unfold id_of. rewrite Z.shiftl_mul_pow2 by lia. change (2 ^ 16) with 65536.
  symmetry. apply Z.add_nocarry_lor. apply Z.bits_inj'. intros i Hi. rewrite Z.land_spec, Z.bits_0.
  destruct (decide (i < 16)).
  - change 65536 with (2 ^ 16). by rewrite Z.mul_pow2_bits_low by lia.
  - replace (Z.testbit offset i) with false; [by rewrite andb_false_r|]. symmetry.
    destruct (decide (offset = 0)) as [->|]; [apply Z.bits_0|]. apply Z.bits_above_log2; [lia|].
    apply Z.lt_le_trans with 16; [|lia]. apply Z.log2_lt_pow2; lia.
Qed.

Lemma path_split_ok id : 0 <= id < 2 ^ 64 ->
  path_split id = (id / 65536, id mod 65536) /\ 0 <= id / 65536 < 2 ^ 48 /\ 0 <= id mod 65536 < 65536.
Proof.
  intros Hid. unfold path_split, CHUNK_BITS. rewrite Z.shiftr_div_pow2 by lia. change (2 ^ 16) with 65536.
  split; [done|]. split; [|apply Z.mod_pos_bound; lia].
  split; [apply Z.div_pos; lia|]. apply Z.div_lt_upper_bound; [lia|]. change (2 ^ 64) with (65536 * 2 ^ 48) in Hid. lia.
Qed.

Lemma id_of_split id : id_of (id / 65536) (id mod 65536) = id.
Proof. unfold id_of. pose proof (Z.div_mod id 65536). lia. Qed.

Lemma split_id_of path offset : 0 <= offset < 65536 -> id_of path offset / 65536 = path /\ id_of path offset mod 65536 = offset.
Proof.
  intros Ho. unfold id_of. rewrite Z.add_comm, Z.div_add, Z.mod_add, Z.div_small, Z.mod_small by lia. lia.
Qed.

(** Paths as trie keys: six bytes, in the order of the paths. *)
Definition path6 (path : Z) : bytes := be_encode 6 path.

Lemma path_bytes_ok path : 0 <= path < 2 ^ 48 -> path_bytes path = Ok (path6 path).
Proof.
  intros Hp. unfold path_bytes, is_valid_path. change MAX_PATH with (2 ^ 48 - 1).
  replace (path <=? 2 ^ 48 - 1) with true by (symmetry; apply Z.leb_le; lia). done.
Qed.

Lemma path6_cmp p q : 0 <= p < 2 ^ 48 -> 0 <= q < 2 ^ 48 -> cmp (path6 p) (path6 q) = (p ?= q).
Proof.
  intros Hp Hq. unfold path6. rewrite be_cmp by (by rewrite !length_be_encode). by rewrite (be_decode_encode 6 p Hp), (be_decode_encode 6 q Hq).
Qed.

Lemma path6_inj p q : 0 <= p < 2 ^ 48 -> 0 <= q < 2 ^ 48 -> path6 p = path6 q -> p = q.
Proof. intros Hp Hq E. apply Z.compare_eq. by rewrite <- path6_cmp, E, cmp_refl. Qed.

Lemma path6_decode path : 0 <= path < 2 ^ 48 -> be_decode (x00 :: x00 :: path6 path) = path.
Proof.
  intros Hp. unfold path6.
  rewrite (be_decode_cons x00 (x00 :: be_encode 6 path)), (be_decode_cons x00 (be_encode 6 path)), (be_decode_encode 6 path Hp).
  change (u8 x00) with 0. lia.
Qed.

(** The offsets of a container, and the container itself. *)
Definition chunk (B : gset Z) (path : Z) : gset Z :=
  set_map (fun id => id mod 65536) (filter (fun id => id / 65536 = path) B).
Definition container_at (B : gset Z) (path : Z) : BitmapContainer := {| bc_path := path; bc_values := chunk B path |}.

Lemma elem_of_chunk B path offset : offset ∈ chunk B path <-> 0 <= offset < 65536 /\ id_of path offset ∈ B.
Proof.
  unfold chunk. rewrite elem_of_map. setoid_rewrite elem_of_filter. split.
  - intros (id & -> & <- & Hid). rewrite id_of_split. split; [apply Z.mod_pos_bound; lia|done].
  - intros [Ho Hid]. exists (id_of path offset). destruct (split_id_of path offset Ho) as [-> ->]. done.
Qed.

Lemma chunk_empty path : chunk ∅ path = ∅.
Proof. apply set_eq. intros o. rewrite elem_of_chunk. set_solver. Qed.

Definition ids_ok (B : gset Z) : Prop := forall id, id ∈ B -> 0 <= id < 2 ^ 64.

Lemma chunk_path B path : ids_ok B -> chunk B path <> ∅ -> 0 <= path < 2 ^ 48.
Proof.
  intros Hok Hne. apply set_choose_L in Hne as [o Ho]. apply elem_of_chunk in Ho as [Ho Hid]. apply Hok in Hid.
  destruct (path_split_ok _ Hid) as (_ & Hp & _). destruct (split_id_of path o Ho) as [Hd _]. by rewrite Hd in Hp.
Qed.

Lemma chunks_ext B B' : (forall path, chunk B path = chunk B' path) -> B = B'.
Proof.
  intros Hc. apply set_eq. intros id. specialize (Hc (id / 65536)).
  assert (id mod 65536 ∈ chunk B (id / 65536) <-> id mod 65536 ∈ chunk B' (id / 65536)) as E by (by rewrite Hc).
  rewrite !elem_of_chunk, id_of_split in E. pose proof (Z.mod_pos_bound id 65536). naive_solver lia.
Qed.

(** ** Values in increasing order *)

#[local] Instance Zle_total : Total Z.le.
Proof. intros x y. lia. Qed.

Lemma elem_of_roaring_iter s x : x ∈ roaring_iter s <-> x ∈ s.
Proof. unfold roaring_iter. rewrite merge_sort_Permutation. apply elem_of_elements. Qed.

Lemma roaring_iter_sorted s : StronglySorted Z.lt (roaring_iter s).
Proof.
  assert (Hn : NoDup (roaring_iter s)) by (unfold roaring_iter; rewrite merge_sort_Permutation; apply NoDup_elements).
  assert (Hs : StronglySorted Z.le (roaring_iter s)) by (apply (StronglySorted_merge_sort Z.le)).
  induction Hs as [|x l Hs IH Hx]; [constructor|]. apply NoDup_cons in Hn as [Hxl Hn]. constructor; [by apply IH|].
  rewrite Forall_forall in Hx |- *. intros y Hy. specialize (Hx y Hy). destruct (decide (x = y)) as [->|]; [done|lia].
Qed.

Lemma roaring_max_elem s x : roaring_max s = Some x -> x ∈ s /\ forall y, y ∈ s -> y <= x.
Proof.
  unfold roaring_max. intros Hl. split; [by apply elem_of_roaring_iter, last_Some_elem_of|].
  intros y Hy. rewrite <- elem_of_roaring_iter in Hy. pose proof (roaring_iter_sorted s) as Hs.
  apply last_Some in Hl as [l' E]. rewrite E in Hs, Hy. apply elem_of_app in Hy as [Hy|Hy]; [|apply list_elem_of_singleton in Hy; lia].
  clear E. induction l' as [|z l' IH]; [by apply not_elem_of_nil in Hy|]. cbn in Hs. apply StronglySorted_inv in Hs as [Hs Hz].
  apply elem_of_cons in Hy as [->|Hy]; [|auto]. rewrite Forall_forall in Hz. apply Z.lt_le_incl, Hz. set_solver.
Qed.

Lemma roaring_max_none s : roaring_max s = None -> s = ∅.
Proof.
  unfold roaring_max. intros Hn%last_None. apply set_eq. intros x. rewrite <- elem_of_roaring_iter, Hn. set_solver.
Qed.

(** * The container codec *)

Section Codec.
Context `{Roaring} {RO : RoaringLaws}.

Definition container_row (c : BitmapContainer) : bytes := path6 (bc_path c) ++ roaring_serialize (bc_values c).

(** What [BitmapContainer::new] admits. *)
Record container_wf (c : BitmapContainer) : Prop := {
  cw_path : 0 <= bc_path c < 2 ^ 48;
  cw_values : forall o, o ∈ bc_values c -> 0 <= o < 65536
}.

Lemma container_at_wf B path : 0 <= path < 2 ^ 48 -> container_wf (container_at B path).
Proof using. intros Hp. split; [done|]. by intros o [Ho _]%elem_of_chunk. Qed.

Lemma Container_new_ok path values : 0 <= path < 2 ^ 48 -> (forall o, o ∈ values -> 0 <= o < 65536) ->
  Container_new path values = Ok {| bc_path := path; bc_values := values |}.
Proof using.
  intros Hp Hv. unfold Container_new, is_valid_path. change MAX_PATH with (2 ^ 48 - 1).
  replace (path <=? 2 ^ 48 - 1) with true by (symmetry; apply Z.leb_le; lia). cbn [negb].
  destruct (roaring_max values) as [x|] eqn:E; [|done]. apply roaring_max_elem in E as [Hx _]. specialize (Hv x Hx).
  by replace (65535 <? x) with false by (symmetry; apply Z.ltb_ge; lia).
Qed.

Lemma canonical_bytes_ok c : container_wf c -> bc_values c <> ∅ -> canonical_bytes c = Ok (container_row c).
Proof using.
  intros [Hp _] Hne. unfold canonical_bytes, Container_encode_into, Container_is_empty.
  rewrite bool_decide_false by done. unfold mbind, res_mbind. by rewrite path_bytes_ok.
Qed.

Lemma Container_decode_row c : container_wf c -> bc_values c <> ∅ -> Container_decode (container_row c) = Ok c.
Proof using RO.
  intros Hw Hne. pose proof Hw as [Hp Hv]. unfold Container_decode. assert (length (path6 (bc_path c)) = 6%nat) as Hl by apply length_be_encode.
  replace (length (container_row c) <? 6)%nat with false
    by (symmetry; apply Nat.ltb_ge; unfold container_row; rewrite length_app, Hl; lia).
  assert (drop 6 (container_row c) = roaring_serialize (bc_values c)) as -> by (unfold container_row; by apply drop_app_length').
  assert (take 6 (container_row c) = path6 (bc_path c)) as -> by (unfold container_row; by apply take_app_length').
  rewrite roaring_round by (intros x Hx; specialize (Hv x Hx); lia).
  rewrite path6_decode by done. unfold mbind, res_mbind. cbn [map_err]. rewrite Container_new_ok by done.
  assert ({| bc_path := bc_path c; bc_values := bc_values c |} = c) as -> by (by destruct c).
  rewrite canonical_bytes_ok by done. by rewrite bool_decide_true.
Qed.

(** Decoding is strict: only a canonical row of an admitted container decodes. *)
Lemma Container_decode_inv l c : Container_decode l = Ok c ->
  l = container_row c /\ bc_values c <> ∅ /\ 0 <= bc_path c < 2 ^ 48.
Proof using.
  unfold Container_decode. destruct (length l <? 6)%nat eqn:El; [done|]. apply Nat.ltb_ge in El. intros Hd.
  apply res_bind_ok in Hd as (values & _ & Hd). apply res_bind_ok in Hd as (c' & Hc & Hd).
  apply res_bind_ok in Hd as (row & Hrow & Hd). case_bool_decide as E; [|done]. injection Hd as ->. rewrite E in Hrow. clear E row.
  unfold canonical_bytes, Container_encode_into in Hrow. destruct (Container_is_empty c) eqn:Ee; [done|].
  apply res_bind_ok in Hrow as (path & Hpath & Hrow). injection Hrow as Erow.
  assert (0 <= bc_path c < 2 ^ 48) as Hp.
  { unfold Container_new in Hc. destruct (is_valid_path _) eqn:Ev; [|done]. cbn [negb] in Hc.
    unfold is_valid_path in Ev. change MAX_PATH with (2 ^ 48 - 1) in Ev. apply Z.leb_le in Ev.
    assert (bc_path c = be_decode (x00 :: x00 :: take 6 l)) as -> by (destruct (roaring_max values) as [x|]; [destruct (65535 <? x); [done|]|]; by injection Hc as <-).
    pose proof (be_decode_range (x00 :: x00 :: take 6 l)). lia. }
  rewrite path_bytes_ok in Hpath by done. injection Hpath as <-. split_and!; [by rewrite <- Erow| |lia..].
  unfold Container_is_empty in Ee. by apply bool_decide_eq_false in Ee.
Qed.
End Codec.

(** * Memberships *)

(** One requested membership applied to a set of IDs, and to offsets. *)
Definition set_id (B : gset Z) (id : Z) (present : bool) : gset Z := if present then {[id]} ∪ B else B ∖ {[id]}.
Abbreviation Posting := (Z * Z * bool)%type.
Definition set_ids (B : gset Z) (changes : list Posting) : gset Z :=
  foldl (fun B '(hi, lo, present) => set_id B (id_of hi lo) present) B changes.

Lemma elem_of_set_id B id present x : x ∈ set_id B id present <-> if decide (x = id) then present = true else x ∈ B.
Proof. unfold set_id. destruct present; case_decide; set_solver. Qed.

Definition posting_ok (c : Posting) : Prop := 0 <= c.1.1 < 2 ^ 48 /\ 0 <= c.1.2 < 65536.

Lemma set_ids_ok B changes : ids_ok B -> Forall posting_ok changes -> ids_ok (set_ids B changes).
Proof.
  intros HB Hc. revert B HB. induction Hc as [|[[hi lo] present] changes [Hhi Hlo] _ IH]; intros B HB; [done|].
  cbn [set_ids foldl]. apply IH. intros id Hid%elem_of_set_id. case_decide as E; [|by apply HB]. subst id.
  cbn in Hhi, Hlo. unfold id_of. change (2 ^ 64) with (65536 * 2 ^ 48). lia.
Qed.

(** Postings of other containers leave a container alone. *)
Lemma chunk_set_id B hi lo present path : 0 <= lo < 65536 ->
  chunk (set_id B (id_of hi lo) present) path =
  if decide (hi = path) then set_id (chunk B path) lo present else chunk B path.
Proof.
  intros Hlo. apply set_eq. intros o. destruct (decide (hi = path)) as [->|Hne];
    rewrite ?elem_of_set_id, !elem_of_chunk, elem_of_set_id; try done.
  - unfold id_of. destruct (decide (o = lo)) as [->|]; rewrite ?elem_of_chunk; [rewrite !decide_True by done; tauto|]. by rewrite !decide_False by lia.
  - destruct (decide (id_of path o = id_of hi lo)) as [E|]; [|done]. split; intros [Ho _]; exfalso;
      pose proof (split_id_of path o Ho) as [E1 _]; pose proof (split_id_of hi lo Hlo) as [E2 _]; congruence.
Qed.

Lemma chunk_set_ids B changes path : Forall posting_ok changes ->
  chunk (set_ids B changes) path =
  foldl (fun s '(_, lo, present) => set_id s lo present) (chunk B path) (filter (fun c : Posting => c.1.1 = path) changes).
Proof.
  intros Hc. revert B. induction Hc as [|[[hi lo] present] changes [_ Hlo] _ IH]; intros B; [done|].
  cbn [set_ids foldl]. fold (set_ids (set_id B (id_of hi lo) present) changes). rewrite IH, filter_cons, chunk_set_id by done.
  cbn [fst snd]. by destruct (decide (hi = path)).
Qed.

(** The inner loop of [apply] is the set update, and it knows whether anything changed. *)
Lemma set_offsets_ok run c changed0 :
  foldl (fun '(changed, c) '(_, offset, present) =>
    let '(now, c) := if (present : bool) then Container_insert offset c else Container_remove offset c in
    (changed || now, c)) (changed0, c) run =
  (changed0 || (set_offsets run c).1,
   {| bc_path := bc_path c; bc_values := foldl (fun s '(_, lo, present) => set_id s lo present) (bc_values c) (run : list Posting) |}) /\
  ((set_offsets run c).1 = false -> foldl (fun s '(_, lo, present) => set_id s lo present) (bc_values c) (run : list Posting) = bc_values c).
Proof.
  unfold set_offsets. revert c changed0. induction run as [|[[hi lo] present] run IH]; intros c changed0.
  { cbn. split; [|done]. rewrite orb_false_r. by destruct c. }
  cbn [foldl]. unfold Container_insert, Container_remove in *.
  set (c' := {| bc_path := bc_path c; bc_values := set_id (bc_values c) lo present |}).
  set (now := if present then negb (bool_decide (lo ∈ bc_values c)) else bool_decide (lo ∈ bc_values c)).
  assert (forall ch, (let '(now, c0) := if present then (negb (bool_decide (lo ∈ bc_values c)), {| bc_path := bc_path c; bc_values := {[lo]} ∪ bc_values c |})
      else (bool_decide (lo ∈ bc_values c), {| bc_path := bc_path c; bc_values := bc_values c ∖ {[lo]} |}) in (ch || now, c0)) = (ch || now, c')) as Hstep
    by (intros ch; unfold c', now, set_id; by destruct present).
  rewrite !Hstep. cbn [orb]. destruct (IH c' (changed0 || now)) as [E1 E2]. destruct (IH c' now) as [E3 _]. rewrite E3. cbn [fst].
  split; [rewrite E1; by rewrite <- orb_assoc|]. intros [Hnow Hrest]%orb_false_iff.
  assert (set_id (bc_values c) lo present = bc_values c) as Hsame.
  { unfold now in Hnow. apply set_eq. intros x. rewrite elem_of_set_id. destruct (decide (x = lo)) as [->|]; [|done]. destruct present.
    - apply negb_false_iff, bool_decide_eq_true in Hnow. tauto.
    - apply bool_decide_eq_false in Hnow. split; [done|]. by intros ?%Hnow. }
  etrans; [exact (E2 Hrest)|exact Hsame].
Qed.

(** * Assembling a bitmap *)

Lemma treemap_append_from_ok previous s l : StronglySorted Z.lt l -> (forall p x, previous = Some p -> x ∈ l -> p < x) ->
  treemap_append_from previous s l = Some (list_to_set l ∪ s).
Proof.
  revert previous s. induction l as [|x l IH]; intros previous s Hs Hp.
  { cbn. f_equal. set_solver. }
  apply StronglySorted_inv in Hs as [Hs Hx]. rewrite Forall_forall in Hx. cbn [treemap_append_from].
  assert (treemap_append_from (Some x) ({[x]} ∪ s) l = Some (list_to_set (x :: l) ∪ s)) as E.
  { rewrite IH; [f_equal; set_solver|done|]. intros p y [= <-]. apply Hx. }
  destruct previous as [p|]; [|done]. specialize (Hp p x eq_refl (list_elem_of_here _ _)).
  by replace (x <=? p) with false by (symmetry; apply Z.leb_gt; lia).
Qed.

Lemma treemap_append_ok s l : StronglySorted Z.lt l -> (forall x y, x ∈ s -> y ∈ l -> x < y) ->
  treemap_append s l = Some (list_to_set l ∪ s).
Proof.
  intros Hl Hs. apply treemap_append_from_ok; [done|]. intros p x [Hp _]%roaring_max_elem Hx. by apply Hs.
Qed.

Lemma elem_of_Container_iter B path id : id ∈ Container_iter (container_at B path) <-> id ∈ B /\ id / 65536 = path.
Proof.
  unfold Container_iter. rewrite list_elem_of_fmap. cbn [bc_path bc_values container_at]. split.
  - intros (o & -> & [Ho Hid]%elem_of_roaring_iter%elem_of_chunk). rewrite id_of_lor by done.
    by destruct (split_id_of path o Ho) as [-> _].
  - intros [Hid <-]. exists (id mod 65536). pose proof (Z.mod_pos_bound id 65536 ltac:(lia)) as Ho.
    rewrite id_of_lor, id_of_split by done. split; [done|]. by rewrite elem_of_roaring_iter, elem_of_chunk, id_of_split.
Qed.

Lemma Container_iter_sorted B path : StronglySorted Z.lt (Container_iter (container_at B path)).
Proof.
  unfold Container_iter. cbn [bc_path bc_values container_at]. pose proof (roaring_iter_sorted (chunk B path)) as Hs.
  assert (forall o, o ∈ roaring_iter (chunk B path) -> 0 <= o < 65536) as Hr by (by intros o [Ho _]%elem_of_roaring_iter%elem_of_chunk).
  revert Hr. induction Hs as [|o l _ IH Hl]; intros Hr; [constructor|]. rewrite fmap_cons. constructor.
  { apply IH. intros x Hx. by apply Hr, list_elem_of_further. }
  apply Forall_fmap, Forall_forall. intros x Hx. rewrite Forall_forall in Hl. specialize (Hl x Hx). cbn.
  rewrite !id_of_lor by (apply Hr; first [apply list_elem_of_here|by apply list_elem_of_further]). unfold id_of. lia.
Qed.

Lemma from_containers_loop_ok B paths values previous : StronglySorted Z.lt paths ->
  (forall x, x ∈ values -> exists p, previous = Some p /\ x / 65536 <= p) ->
  (forall p q, previous = Some p -> q ∈ paths -> p < q) ->
  exists s, from_containers_loop values previous (container_at B <$> paths) = Ok s /\
    forall id, id ∈ s <-> id ∈ values \/ (id ∈ B /\ id / 65536 ∈ paths).
Proof.
  intros Hs. revert values previous. induction Hs as [|path paths _ IH Hpath]; intros values previous Hv Hp.
  { exists values. split; [done|]. intros id. rewrite list_elem_of_In. cbn. tauto. }
  rewrite Forall_forall in Hpath. rewrite fmap_cons. cbn [from_containers_loop bc_path container_at].
  assert (match previous with Some prev => if path =? prev then Err (DuplicatePath path)
      else if path <? prev then Err (UnsortedPaths prev path) else Ok () | None => Ok () end = Ok () :> res BitmapError unit) as ->.
  { destruct previous as [p|]; [|done]. specialize (Hp p path eq_refl (list_elem_of_here _ _)).
    replace (path =? p) with false by (symmetry; apply Z.eqb_neq; lia).
    by replace (path <? p) with false by (symmetry; apply Z.ltb_ge; lia). }
  unfold mbind at 1 2, res_mbind at 1 2. rewrite treemap_append_ok; [|apply Container_iter_sorted|].
  2: { intros x y Hx [Hy <-]%elem_of_Container_iter. destruct (Hv x Hx) as (p & -> & Hxp).
    specialize (Hp p (y / 65536) eq_refl (list_elem_of_here _ _)). destruct (decide (x < y)); [done|].
    assert (y / 65536 <= x / 65536) by (apply Z.div_le_mono; lia). lia. }
  cbn [unwrap]. destruct (IH (list_to_set (Container_iter (container_at B path)) ∪ values) (Some path)) as (s & -> & Hin).
  - intros x [Hx|Hx]%elem_of_union; exists path; (split; [done|]).
    + apply elem_of_list_to_set, elem_of_Container_iter in Hx. lia.
    + destruct (Hv x Hx) as (p & -> & Hxp). specialize (Hp p path eq_refl (list_elem_of_here _ _)). lia.
  - intros p q [= <-]. apply Hpath.
  - exists s. split; [done|]. intros id.
    rewrite Hin, elem_of_union, elem_of_list_to_set, elem_of_Container_iter, elem_of_cons. tauto.
Qed.

(** The containers of a set, in path order, make that set again. *)
Lemma from_containers_ok B paths : StronglySorted Z.lt paths -> (forall path, path ∈ paths <-> chunk B path <> ∅) ->
  from_containers (container_at B <$> paths) = Ok B.
Proof.
  intros Hs Hall. destruct (from_containers_loop_ok B paths ∅ None Hs) as (s & E & Hin); [set_solver|done|].
  unfold from_containers. rewrite E. f_equal. apply set_eq. intros id. rewrite Hin, Hall. split.
  - intros [?%elem_of_empty|[? _]]; done.
  - intros Hid. right. split; [done|]. intros Ec. assert (id mod 65536 ∈ chunk B (id / 65536)) as Ho.
    { apply elem_of_chunk. rewrite id_of_split. split; [apply Z.mod_pos_bound; lia|done]. }
    rewrite Ec in Ho. by apply elem_of_empty in Ho.
Qed.

(** * Bitmap roots *)

Section Bitmaps.
Context `{Roaring} {RO : RoaringLaws} `{HashProvider} {HL : HashLaws}.
Context {T : Type} `{WT : WriteTransaction T} {RL : ReadLaws T} {WL : WriteLaws T}.

Abbreviation trie_map := (represents BITMAP_TRIE_PATH_BYTES BITMAP_TRIE BITMAP_BRANCH_DOMAIN).
Abbreviation containers tx := (view tx BITMAP_CONTAINER).
Abbreviation branches tx := (view tx BITMAP_TRIE).

(** Rows are only added, and only to the two tables of the bitmaps. *)
Record grows (tx tx' : T) : Prop := {
  gr_containers : containers tx ⊆ containers tx';
  gr_branches : branches tx ⊆ branches tx';
  gr_others : forall tb, tb <> BITMAP_CONTAINER -> tb <> BITMAP_TRIE -> view tx' tb = view tx tb
}.

#[global] Instance grows_preorder : PreOrder grows.
Proof.
  split; [intros tx; by split|]. intros a b c [C1 B1 O1] [C2 B2 O2]. split; [by etrans|by etrans|].
  intros tb Hc Hb. by rewrite O2, O1.
Qed.

(** A stored container shares its digest with a stored branch or the empty trie. *)
Definition clash (tx : T) : Prop :=
  (exists h, is_Some (containers tx !! h) /\ is_Some (branches tx !! h)) \/
  is_Some (containers tx !! hash []) \/ is_Some (branches tx !! hash []).

Lemma clash_mono tx tx' : grows tx tx' -> clash tx -> clash tx'.
Proof using.
  intros [Hc Hb _] Hcl. assert (forall m m' : Rows, m ⊆ m' -> forall h, is_Some (m !! h) -> is_Some (m' !! h)) as Hs
    by (intros m m' Hm h [v Hv]; exists v; by eapply lookup_weaken).
  destruct Hcl as [(h & Q1 & Q2)|[Q1|Q1]]; [left; exists h; eauto|right; left; eauto|right; right; eauto].
Qed.

(** ** Triples *)

(** The operation adds rows, ends, and unless the final store has a clash
    establishes [Q] or reports an error that [E] explains. *)
Definition iwp (E : IndexError -> T -> Prop) {A} (Q : A -> T -> Prop) (c : stres T IndexError A) (tx : T) : Prop :=
  let '(r, tx') := c tx in
  grows tx tx' /\
  (~ clash tx' -> match r with Ok a => Q a tx' | Err e => E e tx' | _ => False end).

Lemma iwp_errors (E E' : IndexError -> T -> Prop) {A} (Q : A -> T -> Prop) c tx :
  (forall e tx', E e tx' -> E' e tx') -> iwp E Q c tx -> iwp E' Q c tx.
Proof using. unfold iwp. destruct (c tx) as [r tx']. intros HE [Hg Hr]. split; [done|]. intros Hc. specialize (Hr Hc). destruct r; auto. Qed.

Section Triples.
Context (E : IndexError -> T -> Prop).

Lemma iwp_mono {A} (Q Q' : A -> T -> Prop) c tx : iwp E Q c tx -> (forall a tx', grows tx tx' -> Q a tx' -> Q' a tx') -> iwp E Q' c tx.
Proof using.
  unfold iwp. destruct (c tx) as [r tx']. intros [Hg Hr] HQ. split; [done|]. intros Hc. specialize (Hr Hc). destruct r; auto.
Qed.

Lemma iwp_ret {A} (Q : A -> T -> Prop) a tx : (~ clash tx -> Q a tx) -> iwp E Q (mret a) tx.
Proof using. by split. Qed.

Lemma iwp_lift {A} (Q : A -> T -> Prop) (r : res IndexError A) a tx : r = Ok a -> (~ clash tx -> Q a tx) -> iwp E Q (lift_res r) tx.
Proof using. intros ->. by split. Qed.

Lemma iwp_reading {A} (Q : A -> T -> Prop) (f : T -> res IndexError A) tx :
  (~ clash tx -> exists a, f tx = Ok a /\ Q a tx) -> iwp E Q (reading f) tx.
Proof using. intros Hf. split; [done|]. intros Hc. by destruct (Hf Hc) as (a & -> & HQ). Qed.

Lemma iwp_bind {A B} (Q : B -> T -> Prop) (c : stres T IndexError A) (f : A -> stres T IndexError B) tx :
  (forall a, Frame.keeps grows (f a)) ->
  iwp E (fun a tx' => grows tx tx' -> iwp E Q (f a) tx') c tx -> iwp E Q (c ≫= f) tx.
Proof using.
  intros Hk. unfold iwp at 1 3. unfold mbind, stres_mbind. destruct (c tx) as [r tx1]. intros [Hg Hr].
  destruct r as [a|e| |]; try (split; [done|]; intros Hc; by specialize (Hr Hc)).
  specialize (Hk a tx1). destruct (f a tx1) as [r tx2] eqn:Ef. cbn [snd] in Hk. split; [by etrans|]. intros Hc.
  assert (~ clash tx1) as Hc1 by (intros ?; by eapply Hc, clash_mono). specialize (Hr Hc1 Hg). unfold iwp in Hr. rewrite Ef in Hr.
  by apply Hr.
Qed.
End Triples.

Lemma table_ok_container : table_ok BITMAP_CONTAINER.
Proof using. done. Qed.
Lemma table_ok_bitmap_trie : table_ok BITMAP_TRIE.
Proof using. done. Qed.
Lemma width6 : (1 <= BITMAP_TRIE_PATH_BYTES <= 32)%nat.
Proof using. unfold BITMAP_TRIE_PATH_BYTES. lia. Qed.

(** The trie's operations. *)
Lemma iwp_trie (E : IndexError -> T -> Prop) L {A} (Q : A -> T -> Prop) (c : stres T MerkleError A) tx :
  (forall tx', conflict BITMAP_TRIE_PATH_BYTES BITMAP_TRIE BITMAP_BRANCH_DOMAIN L tx' -> E (IE_Merkle ConflictingBranch) tx') ->
  wp BITMAP_TRIE_PATH_BYTES BITMAP_TRIE BITMAP_BRANCH_DOMAIN L Q c tx -> iwp E Q (st_map_err IE_Merkle c) tx.
Proof using.
  intros HE. unfold wp, iwp, st_map_err. destruct (c tx) as [r tx']. intros ([Hb Ho] & _ & Hr). split.
  - split; [by rewrite Ho|done|]. intros tb _ Htb. by apply Ho.
  - intros _. destruct r as [a|[]| |]; try done. by apply HE.
Qed.

Lemma insert_grows table k v tx : table = BITMAP_CONTAINER \/ table = BITMAP_TRIE -> grows tx (tx_insert table k v tx).2.
Proof using WL.
  intros Htable. assert (table_ok table) as Hok by (by destruct Htable as [-> | ->]).
  destruct (insert_spec tx table k v Hok) as (tx' & -> & Hv). cbn [snd].
  assert (view tx table ⊆ view tx' table) as Hsub.
  { rewrite Hv. unfold upd_view. rewrite decide_True by done. destruct (view tx table !! k) eqn:E; [done|]. by apply insert_subseteq. }
  assert (forall tb, tb <> table -> view tx' tb = view tx tb) as Hother by (intros tb Htb; rewrite Hv; unfold upd_view; by rewrite decide_False).
  destruct Htable as [-> | ->]; split; try done; try (by rewrite Hother); intros tb T1 T2; by apply Hother.
Qed.

Lemma insert_container_ok (E : IndexError -> T -> Prop) c tx :
  (forall tx' old, containers tx' !! container_hash (container_row c) = Some old -> old <> container_row c -> E ConflictingContent tx') ->
  iwp E (fun _ tx' => containers tx' !! container_hash (container_row c) = Some (container_row c))
    (insert_container (container_hash (container_row c)) (container_row c)) tx.
Proof using WL.
  intros HE. unfold iwp, insert_container. set (h := container_hash (container_row c)).
  pose proof (insert_grows BITMAP_CONTAINER h (container_row c) tx (or_introl eq_refl)) as Hg.
  destruct (insert_spec tx BITMAP_CONTAINER h (container_row c) table_ok_container) as (tx' & Ei & Hv). rewrite Ei in Hg |- *. cbn [snd] in Hg.
  assert (containers tx' = match containers tx !! h with Some _ => containers tx | None => <[h := container_row c]> (containers tx) end) as Hc
    by (rewrite Hv; unfold upd_view; by rewrite decide_True).
  destruct (containers tx !! h) as [old|] eqn:Eo.
  - rewrite get_spec by done. cbn [map_err]. rewrite Hc, Eo. case_bool_decide as Es; (split; [done|]); intros _; [congruence|].
    apply (HE tx' old); [by rewrite Hc|congruence].
  - split; [done|]. intros _. rewrite Hc. apply lookup_insert_eq.
Qed.

(** ** The set a root stands for *)

(** The leaf of one occupied container. *)
Definition chunk_leaf (B : gset Z) (path : Z) : LeafRef :=
  {| lf_path := path6 path; lf_hash := container_hash (container_row (container_at B path)) |}.

(** The trie under [root] has a leaf for every occupied container of [B], and
    the containers' rows are stored. *)
Record bitmap_rep (tx : T) (root : RootRef) (B : gset Z) : Prop := {
  br_ids : ids_ok B;
  br_rows path : chunk B path <> ∅ ->
    containers tx !! lf_hash (chunk_leaf B path) = Some (container_row (container_at B path));
  br_trie : exists m, trie_map tx root m /\
    forall p h, m !! p = Some h <-> exists path, chunk B path <> ∅ /\ {| lf_path := p; lf_hash := h |} = chunk_leaf B path
}.

Lemma bitmap_rep_sub tx tx' root B : containers tx ⊆ containers tx' -> branches tx ⊆ branches tx' -> bitmap_rep tx root B -> bitmap_rep tx' root B.
Proof using.
  intros Hc Hb [Hids Hrows (m & Hm & Hspec)]. split; [done| |].
  - intros path Hne. eapply lookup_weaken; [by apply Hrows|done].
  - exists m. split; [by eapply represents_mono|done].
Qed.

Lemma bitmap_rep_mono tx tx' root B : grows tx tx' -> bitmap_rep tx root B -> bitmap_rep tx' root B.
Proof using. intros [Hc Hb _]. by apply bitmap_rep_sub. Qed.

Lemma bitmap_rep_empty tx : bitmap_rep tx REmpty ∅.
Proof using.
  split; [by intros id Hid%elem_of_empty|intros path; by rewrite chunk_empty|]. exists ∅.
  split; [apply represents_empty|]. intros p h. rewrite lookup_empty. split; [done|].
  intros (path & Hne & _). by rewrite chunk_empty in Hne.
Qed.

(** Only the empty set has the empty root. *)
Lemma bitmap_rep_nil tx B : bitmap_rep tx REmpty B -> B = ∅.
Proof using.
  intros [_ _ (m & ->%represents_nil & Hspec)]. apply chunks_ext. intros path. rewrite chunk_empty.
  destruct (decide (chunk B path = ∅)) as [|Hne]; [done|]. exfalso.
  assert ((∅ : gmap bytes Hash) !! path6 path = Some (lf_hash (chunk_leaf B path))) as E by (apply Hspec; by exists path).
  by rewrite lookup_empty in E.
Qed.

Lemma bitmap_rep_not_nil tx root B : bitmap_rep tx root B -> B = ∅ -> root = REmpty.
Proof using.
  intros [_ _ (m & Hm & Hspec)] ->. apply (represents_unique BITMAP_TRIE_PATH_BYTES BITMAP_TRIE BITMAP_BRANCH_DOMAIN tx tx root REmpty m Hm).
  assert (m = ∅) as ->; [|apply represents_empty]. apply map_eq. intros p. rewrite lookup_empty. apply eq_None_not_Some.
  intros [h (path & Hne & _)%Hspec]. by rewrite chunk_empty in Hne.
Qed.

Lemma bitmap_get tx root B path : bitmap_rep tx root B -> 0 <= path < 2 ^ 48 ->
  get BITMAP_TRIE_PATH_BYTES BITMAP_TRIE BITMAP_BRANCH_DOMAIN tx root (path6 path) =
  Ok (if decide (chunk B path = ∅) then None else Some (chunk_leaf B path)).
Proof using HL.
  intros [Hids _ (m & Hm & Hspec)] Hp.
  rewrite (represents_get _ _ _ width6 table_ok_bitmap_trie tx root m) by (done || apply length_be_encode). f_equal.
  case_decide as E.
  - destruct (m !! path6 path) as [h|] eqn:Em; [|done]. apply Hspec in Em as (q & Hq & Eq). apply (f_equal lf_path) in Eq. change (path6 path = path6 q) in Eq.
    apply path6_inj in Eq as <-; [done..|]. by eapply chunk_path.
  - assert (m !! path6 path = Some (lf_hash (chunk_leaf B path))) as -> by (apply Hspec; by exists path). done.
Qed.

Lemma bitmap_load_ok tx root B path : bitmap_rep tx root B -> chunk B path <> ∅ ->
  bitmap_load tx (chunk_leaf B path) = Ok (container_at B path).
Proof using RO.
  intros [Hids Hrows _] Hne. pose proof (chunk_path B path Hids Hne) as Hp. unfold bitmap_load. rewrite get_spec by done.
  unfold mbind, res_mbind. cbn [map_err]. rewrite Hrows by done. cbn [ok_or]. unfold bitmap_decode.
  rewrite bool_decide_true by done. cbn [negb]. rewrite Container_decode_row by (done || by apply container_at_wf). cbn [map_err].
  rewrite path_bytes_ok by done. cbn [map_err]. by rewrite bool_decide_true.
Qed.

(** A container kept by [reopen] is the only one. *)
Definition cached_ok (B : gset Z) (cached : option BitmapContainer) : Prop :=
  match cached with
  | Some c => exists path, chunk B path <> ∅ /\ c = container_at B path /\ forall q, chunk B q <> ∅ -> q = path
  | None => True
  end.

Lemma bitmap_reopen_ok tx root B : bitmap_rep tx root B -> root <> REmpty -> ~ clash tx ->
  exists cached, bitmap_reopen tx (RootRef_hash root) = Ok (root, cached) /\ cached_ok B cached /\
    (is_Some cached -> exists l, root = RLeaf l).
Proof using RO HL.
  intros Hrep Hne Hc. pose proof Hrep as [Hids Hrows (m & Hm & Hspec)]. unfold bitmap_reopen. destruct root as [|l|h]; [done|..].
  - apply represents_leaf in Hm as Em.
    destruct (proj1 (Hspec (lf_path l) (lf_hash l))) as (path & Hp & Hl); [by rewrite Em, lookup_singleton_eq|].
    assert (l = chunk_leaf B path) as -> by (by destruct l).
    assert (forall q, chunk B q <> ∅ -> q = path) as Honly.
    { intros q Hq. assert (m !! path6 q = Some (lf_hash (chunk_leaf B q))) as Eq by (apply Hspec; by exists q).
      rewrite Em in Eq. apply lookup_singleton_Some in Eq as [Eq _]. symmetry.
      apply path6_inj; [by eapply chunk_path..|done]. }
    cbn [RootRef_hash]. rewrite bool_decide_false.
    2: { intros E. apply Hc. right. left. rewrite <- E, Hrows by done. by eexists. }
    rewrite get_spec by done. unfold mbind, res_mbind. cbn [map_err]. rewrite Hrows by done. unfold bitmap_decode.
    rewrite bool_decide_true by done. cbn [negb].
    rewrite Container_decode_row by (done || by apply container_at_wf; eapply chunk_path). cbn [map_err bc_path container_at].
    rewrite path_bytes_ok by (by eapply chunk_path). cbn [map_err].
    exists (Some (container_at B path)). split_and!; [done|by exists path|by eexists].
  - destruct (represents_branch _ _ _ width6 table_ok_bitmap_trie tx h m Hm) as [Hrow Hval]. cbn [RootRef_hash].
    rewrite bool_decide_false by (intros ->; apply Hc; right; by right).
    rewrite get_spec by done. unfold mbind, res_mbind. cbn [map_err].
    destruct (containers tx !! h) as [row|] eqn:E; [exfalso; apply Hc; left; exists h; split; [by eexists|done]|].
    rewrite Hval. cbn [map_err]. exists None. split_and!; [done..|]. by intros [? ?].
Qed.

(** ** Runs of one container *)

Definition run_path (run : list Posting) : Z := match run with c :: _ => c.1.1 | [] => 0 end.
Definition run_values (B : gset Z) (run : list Posting) : gset Z :=
  foldl (fun s '(_, lo, present) => set_id s lo present) (chunk B (run_path run)) run.
Definition run_changed (B : gset Z) (run : list Posting) : bool := (set_offsets run (container_at B (run_path run))).1.
Definition run_container (B : gset Z) (run : list Posting) : BitmapContainer :=
  {| bc_path := run_path run; bc_values := run_values B run |}.

(** The trie edit a run ends in: none, when it changes nothing. *)
Definition run_edit (B : gset Z) (run : list Posting) : option Edit :=
  if run_changed B run
  then Some (path6 (run_path run), if decide (run_values B run = ∅) then None else Some (container_hash (container_row (run_container B run))))
  else None.

Definition run_stored (tx : T) (B : gset Z) (run : list Posting) : Prop :=
  run_changed B run = true -> run_values B run <> ∅ ->
  containers tx !! container_hash (container_row (run_container B run)) = Some (container_row (run_container B run)).

Definition run_ok (run : list Posting) : Prop := homogeneous (fun c : Posting => c.1.1) run /\ Forall posting_ok run.

Lemma run_values_range B run : run_ok run -> forall o, o ∈ run_values B run -> 0 <= o < 65536.
Proof using.
  intros [_ Hok]. unfold run_values. generalize (run_path run) as path. intros path.
  assert (forall o, o ∈ chunk B path -> 0 <= o < 65536) as Hs by (by intros o [Ho _]%elem_of_chunk).
  revert Hs. generalize (chunk B path) as s. induction Hok as [|[[hi lo] present] run [_ Hlo] _ IH]; intros s Hs; [done|].
  cbn [foldl]. apply IH. intros o Ho%elem_of_set_id. case_decide; [by subst|by apply Hs].
Qed.

Lemma run_container_wf B run : run_ok run -> container_wf (run_container B run).
Proof using.
  intros Hok. pose proof Hok as [(c & rest & -> & _) Hp]. split; [by apply Forall_cons in Hp as [[? _] _]|].
  by apply run_values_range.
Qed.

Lemma set_offsets_run B run : set_offsets run (container_at B (run_path run)) = (run_changed B run, run_container B run).
Proof using.
  destruct (set_offsets_ok run (container_at B (run_path run)) false) as [E _]. unfold set_offsets at 1. rewrite E. done.
Qed.

Lemma insert_container_grows h l : keeps grows (insert_container h l).
Proof using WL. apply insert_container_keeps; try apply grows_preorder; intros; apply insert_grows; auto. Qed.
Lemma apply_runs_grows root runs previous cached : keeps grows (apply_runs root runs previous cached).
Proof using WL. apply apply_runs_keeps; try apply grows_preorder; intros; apply insert_grows; auto. Qed.
Lemma bitmap_trie_grows root edits : keeps grows (apply BITMAP_TRIE_PATH_BYTES BITMAP_TRIE BITMAP_BRANCH_DOMAIN root edits).
Proof using WL. apply apply_keeps; [apply grows_preorder|]. intros. apply insert_grows. auto. Qed.
#[local] Hint Resolve insert_container_grows apply_runs_grows bitmap_trie_grows : keeps.

Lemma apply_runs_ok Why root B runs previous cached tx : bitmap_rep tx root B -> cached_ok B cached -> Forall run_ok runs ->
  StronglySorted (fun g h => forall a b : Posting, a ∈ g -> b ∈ h -> klt a.1.1 b.1.1) runs ->
  (forall p run, previous = Some p -> run ∈ runs -> p < run_path run) ->
  (forall run tx' old, run ∈ runs -> run_values B run <> ∅ -> containers tx' !! container_hash (container_row (run_container B run)) = Some old ->
     old <> container_row (run_container B run) -> Why ConflictingContent tx') ->
  iwp Why (fun edits tx' => edits = omap (run_edit B) runs /\ Forall (run_stored tx' B) runs)
    (apply_runs root runs previous cached) tx.
Proof using RO HL WL.
  revert previous cached tx. induction runs as [|run runs IH]; intros previous cached tx Hrep Hcached Hok Hs Hprev HE.
  { cbn [apply_runs]. by apply iwp_ret. }
  apply Forall_cons in Hok as [Hrun Hok]. apply StronglySorted_inv in Hs as [Hs Hlt]. rewrite Forall_forall in Hlt.
  pose proof Hrun as [(c & rest & Erun & _) Hposts]. destruct c as [[hi lo] present].
  assert (run_path run = hi) as Hhi by (by rewrite Erun).
  assert (0 <= hi < 2 ^ 48) as Hp by (rewrite Erun in Hposts; by apply Forall_cons in Hposts as [[? _] _]).
  assert (Hnext : forall p run', Some hi = Some p -> run' ∈ runs -> p < run_path run').
  { intros p run' [= <-] Hin. rewrite Forall_forall in Hok. destruct (Hok run' Hin) as [(c' & rest' & -> & _) _]. cbn.
    apply Z.compare_lt_iff. apply (Hlt _ Hin (hi, lo, present) c'); [rewrite Erun|]; apply list_elem_of_here. }
  rewrite Erun. cbn [apply_runs]. rewrite <- Erun.
  assert (match previous with Some p => if hi <=? p then Err (IE_Bitmap (UnsortedPaths p hi)) else Ok () | None => Ok () end
    = Ok () :> res IndexError unit) as Eprev.
  { destruct previous as [p|]; [|done]. specialize (Hprev p run eq_refl (list_elem_of_here _ _)).
    replace (hi <=? p) with false; [done|]. symmetry. apply Z.leb_gt. lia. }
  apply iwp_bind; [intros; keeps|]. apply iwp_lift with (a := tt); [exact Eprev|]. intros _ _.
  apply iwp_bind; [intros; keeps|]. apply iwp_lift with (a := path6 hi); [by rewrite path_bytes_ok|]. intros _ _.
  apply iwp_bind; [intros; keeps|]. apply iwp_reading. intros _.
  exists (if decide (chunk B hi = ∅) then None else Some (chunk_leaf B hi)).
  split; [by rewrite (bitmap_get tx root B)|]. intros _.
  apply iwp_bind; [intros [? ?]; keeps|].
  apply (iwp_mono Why (fun '(c, cached') tx' => tx' = tx /\ c = container_at B hi /\ cached_ok B cached')).
  { destruct (decide (chunk B hi = ∅)) as [Ec|Ec].
    - apply iwp_bind; [intros; keeps|]. apply iwp_lift with (a := container_at B hi).
      + unfold Container_empty. rewrite Container_new_ok by (done || by intros o ?%elem_of_empty). cbn [map_err].
        unfold container_at. by rewrite Ec.
      + intros _ _. by apply iwp_ret.
    - destruct cached as [c|].
      + apply iwp_ret. intros _. split_and!; [done| |done]. destruct Hcached as (path & _ & -> & Honly). by rewrite (Honly hi Ec).
      + apply iwp_bind; [intros; keeps|]. apply iwp_reading. intros _. exists (container_at B hi).
        split; [by eapply bitmap_load_ok|]. intros _. by apply iwp_ret. }
  intros [c cached'] tx1 _ (-> & -> & Hcached') _. 
  assert (set_offsets run (container_at B hi) = (run_changed B run, run_container B run)) as Eoff by (rewrite <- Hhi; apply set_offsets_run).
  rewrite Eoff. clear Eoff.
  specialize (fun tx Hrep => IH (Some hi) cached' tx Hrep Hcached' Hok Hs Hnext (fun run' tx' old Hin => HE run' tx' old (list_elem_of_further _ _ _ Hin))).
  destruct (run_changed B run) eqn:Ech; cbn [negb].
  2: { eapply iwp_mono; [by apply IH|]. intros edits tx' _ [-> Hst]. cbn [omap list_omap]. unfold run_edit at 2. rewrite Ech.
    split; [done|]. constructor; [|done]. intros E. congruence. }
  unfold Container_is_empty. cbn [bc_values run_container]. case_bool_decide as Ee.
  - apply iwp_bind; [intros; keeps|]. eapply iwp_mono; [by apply IH|]. intros edits tx' _ [-> Hst] _. apply iwp_ret. intros _.
    cbn [omap list_omap]. unfold run_edit at 2. rewrite Ech, decide_True, Hhi by done. split; [done|].
    constructor; [|done]. by intros _ E.
  - pose proof (run_container_wf B run Hrun) as Hw. apply iwp_bind; [intros; keeps|].
    apply iwp_lift with (a := container_row (run_container B run)); [by rewrite canonical_bytes_ok|]. intros _ _.
    apply iwp_bind; [intros; keeps|]. eapply iwp_mono; [apply insert_container_ok; intros tx' old; apply HE; [apply list_elem_of_here|done]|]. intros u tx1 Hg1 Hrow _.
    apply iwp_bind; [intros; keeps|]. eapply iwp_mono; [apply IH; by eapply bitmap_rep_mono|].
    intros edits tx2 Hg2 [-> Hst] _. apply iwp_ret. intros _. cbn [omap list_omap]. unfold run_edit at 2.
    rewrite Ech, decide_False, Hhi by done. split; [done|]. constructor; [|done]. intros _ _.
    eapply lookup_weaken; [exact Hrow|apply Hg2].
Qed.

(** ** Updates *)

(** The leaves of a set's trie. *)
Definition chunk_leaves (B : gset Z) (l : LeafRef) : Prop := exists path, chunk B path <> ∅ /\ l = chunk_leaf B path.

(** A container or a branch of a set's trie has its digest taken by another row. *)
Definition bitmap_conflict (B : gset Z) (e : IndexError) (tx : T) : Prop :=
  match e with
  | IE_Merkle ConflictingBranch => conflict BITMAP_TRIE_PATH_BYTES BITMAP_TRIE BITMAP_BRANCH_DOMAIN (chunk_leaves B) tx
  | ConflictingContent => exists path old, chunk B path <> ∅ /\ containers tx !! lf_hash (chunk_leaf B path) = Some old /\
      old <> container_row (container_at B path)
  | _ => False
  end.

(** What an [Index] row, or its absence, says of a set. *)
Definition posted_as (tx : T) (row : option Hash) (B : gset Z) : Prop :=
  match row with
  | None => B = ∅
  | Some h => exists root, bitmap_rep tx root B /\ root <> REmpty /\ h = RootRef_hash root
  end.

Lemma posted_as_ids tx row B : posted_as tx row B -> ids_ok B.
Proof using. destruct row as [h|]; [intros (root & Hrep & _); apply Hrep|]. intros -> id Hid. by apply elem_of_empty in Hid. Qed.

Lemma posted_as_sub tx tx' row B : containers tx ⊆ containers tx' -> branches tx ⊆ branches tx' -> posted_as tx row B -> posted_as tx' row B.
Proof using.
  intros Hc Hb. destruct row as [h|]; [|done]. intros (root & Hrep & Hr). exists root. split; [by eapply bitmap_rep_sub|done].
Qed.

Lemma posted_as_mono tx tx' row B : grows tx tx' -> posted_as tx row B -> posted_as tx' row B.
Proof using. intros [Hc Hb _]. by apply posted_as_sub. Qed.

(** Sets have one row. *)
Lemma posted_as_unique tx row row' B : posted_as tx row B -> posted_as tx row' B -> row = row'.
Proof using.
  destruct row as [h|], row' as [h'|]; try done.
  - intros (root & Hrep & _ & ->) (root' & Hrep' & _ & ->). do 2 f_equal.
    destruct Hrep as [_ _ (m & Hm & Hs)], Hrep' as [_ _ (m' & Hm' & Hs')].
    assert (m = m') as <-; [|by eapply represents_unique].
    apply map_eq. intros p. apply option_eq. intros h. by rewrite Hs, Hs'.
  - intros (root & Hrep & Hne & _) HB. cbn in HB. by apply bitmap_rep_not_nil in Hrep.
  - intros HB (root & Hrep & Hne & _). cbn in HB. by apply bitmap_rep_not_nil in Hrep.
Qed.

Lemma posted_as_get tx row B : posted_as tx row B -> exists root, bitmap_rep tx root B /\ (row = None -> root = REmpty) /\
  (forall h, row = Some h -> root <> REmpty /\ h = RootRef_hash root).
Proof using.
  destruct row as [h|]; cbn.
  - intros (root & Hrep & Hne & ->). exists root. split_and!; [done..|]. by intros h [= <-].
  - intros ->. exists REmpty. split_and!; [apply bitmap_rep_empty|done..].
Qed.

(** The runs of a batch sorted by path. *)
Definition runs_of (changes : list Posting) : list (list Posting) := chunk_by (fun a b : Posting => (a.1.1 =? b.1.1)%Z) changes.

Lemma same_path (a b : Posting) : (a.1.1 =? b.1.1)%Z = true <-> a.1.1 = b.1.1.
Proof using. apply Z.eqb_eq. Qed.

Lemma runs_of_ok changes : Forall posting_ok changes -> Forall run_ok (runs_of changes).
Proof using.
  intros Hok. pose proof (chunk_by_homogeneous _ _ same_path changes) as Hh. apply Forall_forall. intros run Hrun.
  rewrite Forall_forall in Hh. split; [by apply Hh|]. rewrite Forall_forall in Hok. apply Forall_forall. intros c Hc. apply Hok.
  rewrite <- (chunk_by_concat (fun a b : Posting => (a.1.1 =? b.1.1)%Z) changes). apply elem_of_concat. by exists run.
Qed.

(** A run holds what the batch asks of its container. *)
Lemma run_of_path changes run : Forall posting_ok changes -> StronglySorted (fun a b : Posting => kle a.1.1 b.1.1) changes ->
  run ∈ runs_of changes -> filter (fun c : Posting => c.1.1 = run_path run) changes = run.
Proof using.
  intros Hok Hs Hrun. pose proof (chunk_by_homogeneous _ _ same_path changes) as Hh.
  pose proof (chunk_by_sorted _ _ same_path changes Hs) as Hsort.
  assert (exists a, a ∈ run /\ run_path run = a.1.1) as (a & Ha & ->).
  { rewrite Forall_forall in Hh. destruct (Hh run Hrun) as (c & rest & -> & _). exists c. split; [apply list_elem_of_here|done]. }
  rewrite <- (chunk_by_concat (fun a b : Posting => (a.1.1 =? b.1.1)%Z) changes) at 1.
  by apply (group_filter (fun c : Posting => c.1.1) _ run a Hh Hsort).
Qed.

Lemma run_of_change changes c : c ∈ changes -> exists run, run ∈ runs_of changes /\ c ∈ run.
Proof using.
  intros Hc. rewrite <- (chunk_by_concat (fun a b : Posting => (a.1.1 =? b.1.1)%Z) changes) in Hc.
  by apply elem_of_concat in Hc.
Qed.

Lemma run_path_of run c : run_ok run -> c ∈ run -> run_path run = c.1.1.
Proof using.
  intros [(a & rest & -> & Hr) _] [->|Hc]%elem_of_cons; [done|]. rewrite Forall_forall in Hr. cbn. symmetry. by apply Hr.
Qed.

Lemma run_or_not changes path :
  (exists run, run ∈ runs_of changes /\ run_path run = path) \/ (forall run, run ∈ runs_of changes -> run_path run <> path).
Proof using.
  destruct (decide (path ∈ run_path <$> runs_of changes)) as [Hin|Hno].
  - apply list_elem_of_fmap in Hin as (run & -> & Hrun). left. by exists run.
  - right. intros run Hrun <-. apply Hno, list_elem_of_fmap. by exists run.
Qed.

Section Updated.
Context (B : gset Z) (changes : list Posting).
Hypothesis HB : ids_ok B.
Hypothesis Hok : Forall posting_ok changes.
Hypothesis Hsorted : StronglySorted (fun a b : Posting => kle a.1.1 b.1.1) changes.

Lemma updated_run run : run ∈ runs_of changes -> chunk (set_ids B changes) (run_path run) = run_values B run.
Proof using Hok Hsorted.
  intros Hrun. rewrite chunk_set_ids by done. unfold run_values. by rewrite run_of_path.
Qed.

Lemma unchanged_run run : run_changed B run = false -> run_values B run = chunk B (run_path run).
Proof using. intros E. by destruct (set_offsets_ok run (container_at B (run_path run)) false) as [_ Hs]; apply Hs. Qed.

Lemma no_run path : (forall run, run ∈ runs_of changes -> run_path run <> path) -> chunk (set_ids B changes) path = chunk B path.
Proof using Hok.
  intros Hnone. rewrite chunk_set_ids by done.
  assert (filter (fun c : Posting => c.1.1 = path) changes = []) as ->; [|done].
  apply filter_nil_all, Forall_forall. intros c Hc E. destruct (run_of_change changes c Hc) as (run & Hrun & Hcr).
  apply (Hnone run Hrun). pose proof (runs_of_ok changes Hok) as Hruns. rewrite Forall_forall in Hruns.
  rewrite (run_path_of run c); [done|by apply Hruns|done].
Qed.

Lemma edit_of_path path o : (path6 path, o) ∈ omap (run_edit B) (runs_of changes) -> 0 <= path < 2 ^ 48 ->
  exists run, run ∈ runs_of changes /\ run_path run = path /\ run_changed B run = true /\
    o = if decide (run_values B run = ∅) then None else Some (container_hash (container_row (run_container B run))).
Proof using Hok.
  intros (run & Hrun & E)%list_elem_of_omap Hp. unfold run_edit in E. destruct (run_changed B run) eqn:Ech; [|done].
  apply (inj Some) in E. pose proof (runs_of_ok changes Hok) as Hruns. rewrite Forall_forall in Hruns.
  pose proof (f_equal fst E) as E1. pose proof (f_equal snd E) as E2. change (path6 (run_path run) = path6 path) in E1.
  apply path6_inj in E1; [|apply (run_container_wf B run (Hruns run Hrun))|done]. exists run. split_and!; [done..|]. exact (eq_sym E2).
Qed.

Lemma run_edits_wf : edits_wf BITMAP_TRIE_PATH_BYTES (omap (run_edit B) (runs_of changes)).
Proof using HL.
  unfold edits_wf. apply Forall_forall. intros [p o] (run & _ & E)%list_elem_of_omap. unfold run_edit in E.
  destruct (run_changed B run); [|done]. apply (inj Some) in E. pose proof (f_equal fst E) as E1. pose proof (f_equal snd E) as E2. cbn [fst snd] in E1, E2. subst p o.
  split; [apply length_be_encode|]. case_decide; [done|]. apply hash_length.
Qed.

(** The trie after a batch's edits is that of the updated set. *)
Lemma updated_trie m :
  (forall p h, m !! p = Some h <-> exists path, chunk B path <> ∅ /\ {| lf_path := p; lf_hash := h |} = chunk_leaf B path) ->
  forall p h, edit_map m (omap (run_edit B) (runs_of changes)) !! p = Some h <->
    exists path, chunk (set_ids B changes) path <> ∅ /\ {| lf_path := p; lf_hash := h |} = chunk_leaf (set_ids B changes) path.
Proof using HB Hok Hsorted.
  intros Hm. set (B' := set_ids B changes). pose proof (set_ids_ok B changes HB Hok) as HB'. fold B' in HB'.
  assert (Hpath : forall path, 0 <= path < 2 ^ 48 ->
    edit_map m (omap (run_edit B) (runs_of changes)) !! path6 path =
    if decide (chunk B' path = ∅) then None else Some (lf_hash (chunk_leaf B' path))).
  { intros path Hp. rewrite edit_map_lookup. destruct (last_write (path6 path) _) as [o|] eqn:E.
    - apply last_write_elem, edit_of_path in E as (run & Hrun & <- & Hch & ->); [|done]. unfold B', chunk_leaf, container_at.
      rewrite updated_run by done. by case_decide.
    - assert (chunk B' path = chunk B path) as Echunk.
      { destruct (run_or_not changes path) as [(run & Hrun & <-)|Hnone].
        - unfold B'. rewrite updated_run by done. apply unchanged_run. destruct (run_changed B run) eqn:Ech; [|done]. exfalso.
          apply last_write_none in E. apply E, list_elem_of_fmap. unfold run_edit.
          eexists (path6 (run_path run), _). split; [done|]. apply list_elem_of_omap. exists run. by rewrite Ech.
        - by apply no_run. }
      unfold chunk_leaf, container_at. rewrite Echunk. case_decide as Ee.
      + apply eq_None_not_Some. intros [h (q & Hq & Eq)%Hm]. apply (f_equal lf_path) in Eq. change (path6 path = path6 q) in Eq.
        apply path6_inj in Eq; [|done|by apply (chunk_path B)]. by subst q.
      + apply Hm. by exists path. }
  intros p h. split.
  - intros Hh. assert (exists path, p = path6 path /\ 0 <= path < 2 ^ 48) as (path & -> & Hp).
    { rewrite edit_map_lookup in Hh. destruct (last_write p _) as [o|] eqn:E.
      - apply last_write_elem, list_elem_of_omap in E as (run & Hrun & E). unfold run_edit in E. destruct (run_changed B run); [|done].
        apply (inj Some) in E. exists (run_path run). split; [exact (eq_sym (f_equal fst E))|].
        pose proof (runs_of_ok changes Hok) as Hruns. rewrite Forall_forall in Hruns. apply (run_container_wf B run (Hruns run Hrun)).
      - apply Hm in Hh as (path & Hne & Eq). exists path. split; [exact (f_equal lf_path Eq)|by apply (chunk_path B)]. }
    rewrite Hpath in Hh by done. case_decide; [done|]. injection Hh as <-. by exists path.
  - intros (path & Hne & Eq). pose proof (f_equal lf_path Eq) as E1. pose proof (f_equal lf_hash Eq) as E2. cbn in E1, E2. subst p h.
    change (lf_path (chunk_leaf B' path)) with (path6 path). rewrite Hpath by (by apply (chunk_path B')). by rewrite decide_False.
Qed.
End Updated.

Lemma bitmap_apply_ok tx before B changes : posted_as tx before B -> Forall posting_ok changes ->
  StronglySorted (fun a b : Posting => kle a.1.1 b.1.1) changes ->
  iwp (bitmap_conflict (set_ids B changes)) (fun after tx' => posted_as tx' after (set_ids B changes)) (bitmap_apply before changes) tx.
Proof using RO HL WL.
  intros Hbefore Hok Hs. destruct (posted_as_get _ _ _ Hbefore) as (root & Hrep & Hnone & Hsome).
  unfold bitmap_apply. apply iwp_bind; [intros [? ?]; keeps|].
  apply (iwp_mono _ (fun '(r, cached) tx' => tx' = tx /\ r = root /\ cached_ok B cached)).
  { destruct before as [h|]; [|rewrite Hnone by done; by apply iwp_ret]. destruct (Hsome h eq_refl) as [Hne ->].
    apply iwp_reading. intros Hc. destruct (bitmap_reopen_ok tx root B Hrep Hne Hc) as (cached & E & Hcached & _).
    by exists (root, cached). }
  intros [r cached] tx1 _ (-> & -> & Hcached) _. apply iwp_bind; [intros; keeps|].
  eapply iwp_mono; [apply (apply_runs_ok _ root B); [done..|by apply runs_of_ok| |done|]|].
  { apply (chunk_by_sorted _ _ same_path changes Hs). }
  { intros run tx' old Hrun Hne Hold Hdiff. exists (run_path run), old. unfold chunk_leaf, container_at. by rewrite updated_run by done. }
  intros edits tx1 Hg1 [-> Hst] _. pose proof (bitmap_rep_mono _ _ _ _ Hg1 Hrep) as Hrep1.
  destruct Hrep1 as [Hids Hrows (m & Hm & Hspec)]. apply iwp_bind; [intros; keeps|].
  eapply iwp_mono; [eapply iwp_trie; [|apply (represents_apply _ _ _ width6 table_ok_bitmap_trie _ _ m); [done|by apply run_edits_wf]]|].
  { intros tx'. apply conflict_ext. intros l. unfold map_leaves, chunk_leaves. rewrite (updated_trie B changes Hids Hok Hs m Hspec). by destruct l. }
  intros root' tx2 Hg2 Hm' _. apply iwp_ret. intros _. cbv beta in Hm'.
  assert (bitmap_rep tx2 root' (set_ids B changes)) as Hrep'.
  { split; [by apply set_ids_ok| |eexists; split; [exact Hm'|by apply updated_trie]].
    intros path Hne. destruct (run_or_not changes path) as [(run & Hrun & <-)|Hno].
    - unfold chunk_leaf, container_at in *. rewrite updated_run in * by done. cbn [lf_hash].
      destruct (run_changed B run) eqn:Ech.
      + rewrite Forall_forall in Hst. eapply lookup_weaken; [by apply (Hst run Hrun)|apply Hg2].
      + rewrite unchanged_run in * by done. eapply lookup_weaken; [by apply Hrows|apply Hg2].
    - assert (chunk (set_ids B changes) path = chunk B path) as Ec
        by (by apply no_run).
      unfold chunk_leaf, container_at in *. rewrite Ec in *. eapply lookup_weaken; [by apply Hrows|apply Hg2]. }
  case_bool_decide as Er; cbn [posted_as].
  - subst root'. by apply bitmap_rep_nil in Hrep'.
  - by exists root'.
Qed.

(** ** Reads *)

(** The occupied container paths, in order. *)
Definition occupied_paths (B : gset Z) : gset Z := set_map (fun id => id / 65536) B.

Lemma elem_of_occupied B path : path ∈ occupied_paths B <-> chunk B path <> ∅.
Proof using.
  unfold occupied_paths. rewrite elem_of_map. split.
  - intros (id & -> & Hid) E. assert (id mod 65536 ∈ chunk B (id / 65536)) as Hin.
    { apply elem_of_chunk. rewrite id_of_split. split; [apply Z.mod_pos_bound; lia|done]. }
    rewrite E in Hin. by apply elem_of_empty in Hin.
  - intros Hne. apply set_choose_L in Hne as [o [Ho Hid]%elem_of_chunk]. exists (id_of path o).
    split; [|done]. by destruct (split_id_of path o Ho) as [-> _].
Qed.

Lemma bitmap_entries tx root B m : bitmap_rep tx root B ->
  (forall p h, m !! p = Some h <-> exists path, chunk B path <> ∅ /\ {| lf_path := p; lf_hash := h |} = chunk_leaf B path) ->
  entries m = (fun path => (path6 path, lf_hash (chunk_leaf B path))) <$> roaring_iter (occupied_paths B).
Proof using.
  intros Hrep Hm. assert (forall path, path ∈ occupied_paths B -> 0 <= path < 2 ^ 48) as Hrange.
  { intros path Hp%elem_of_occupied. eapply chunk_path; [apply Hrep|done]. }
  apply sorted_rows_unique; [apply entries_sorted|..].
  - rewrite <- list_fmap_compose. pose proof (roaring_iter_sorted (occupied_paths B)) as Hs.
    assert (forall path, path ∈ roaring_iter (occupied_paths B) -> 0 <= path < 2 ^ 48) as Hr
      by (intros path; rewrite elem_of_roaring_iter; apply Hrange).
    revert Hr. induction Hs as [|path l _ IH Hpath]; intros Hr; [constructor|]. rewrite fmap_cons. constructor.
    { apply IH. intros q Hq. by apply Hr, list_elem_of_further. }
    apply Forall_fmap, Forall_forall. intros q Hq. rewrite Forall_forall in Hpath.
    change (cmp (path6 path) (path6 q) = Lt). rewrite path6_cmp by (apply Hr; first [apply list_elem_of_here|by apply list_elem_of_further]). by apply Z.compare_lt_iff, Hpath.
  - intros p h. rewrite elem_of_entries, Hm, list_elem_of_fmap. setoid_rewrite elem_of_roaring_iter. setoid_rewrite elem_of_occupied.
    split; intros (path & Ha & Hb); exists path.
    + split; [|done]. f_equal; [exact (f_equal lf_path Hb)|exact (f_equal lf_hash Hb)].
    + split; [done|]. unfold chunk_leaf. f_equal; [exact (f_equal fst Ha)|exact (f_equal snd Ha)].
Qed.

Lemma load_leaves_ok tx root B paths : bitmap_rep tx root B -> Forall (fun path => chunk B path <> ∅) paths ->
  load_leaves tx ((fun path => Ok (chunk_leaf B path)) <$> paths) = Ok (container_at B <$> paths).
Proof using RO.
  intros Hrep. induction 1 as [|path paths Hp _ IH]; [done|]. rewrite !fmap_cons. cbn [load_leaves]. unfold mbind, res_mbind in *.
  cbn [map_err]. by rewrite (bitmap_load_ok tx root B) by done; rewrite IH.
Qed.

(** [Index::bitmap_at] reads back the set a row stands for; [n] and [fuel] need
    only exceed the number of its containers. *)
Lemma bitmap_at_ok tx h B n fuel : posted_as tx (Some h) B -> ~ clash tx ->
  (size (occupied_paths B) < n)%nat -> (2 * size (occupied_paths B) + 1 < fuel)%nat ->
  bitmap_at n fuel tx h = Ok B.
Proof using RO HL.
  intros (root & Hrep & Hne & ->) Hc Hn Hfuel. unfold bitmap_at. unfold mbind at 1, res_mbind at 1.
  destruct (bitmap_reopen_ok tx root B Hrep Hne Hc) as (cached & -> & Hcached & _).
  destruct cached as [c|].
  - destruct Hcached as (path & Hp & -> & Honly). change [container_at B path] with (container_at B <$> [path]). rewrite (from_containers_ok B [path]); [done|repeat constructor|].
    intros q. rewrite list_elem_of_singleton. split; [by intros ->|by apply Honly].
  - pose proof Hrep as [Hids Hrows (m & Hm & Hspec)]. pose proof (bitmap_entries tx root B m Hrep Hspec) as He.
    assert (size m = size (occupied_paths B)) as Hsize.
    { rewrite <- length_map_to_list, <- entries_perm, He, length_fmap. unfold roaring_iter. by rewrite merge_sort_Permutation. }
    rewrite (represents_walk _ _ _ width6 table_ok_bitmap_trie tx root m n fuel Hm) by lia. rewrite He, <- list_fmap_compose.
    assert (Forall (fun path => chunk B path <> ∅) (roaring_iter (occupied_paths B))) as Hall.
    { apply Forall_forall. intros path. by rewrite elem_of_roaring_iter, elem_of_occupied. }
    pose proof (load_leaves_ok tx root B _ Hrep Hall) as Hload. unfold mbind, res_mbind.
    match goal with |- context [load_leaves tx ?l] => replace (load_leaves tx l) with (Ok (container_at B <$> roaring_iter (occupied_paths B)) : res IndexError _) by (symmetry; exact Hload) end.
    rewrite (from_containers_ok B); [done|apply roaring_iter_sorted|]. intros q. by rewrite elem_of_roaring_iter, elem_of_occupied.
Qed.
End Bitmaps.
