(* ===== verification/Index.v ===== *)
(** The attribute index: crates/index/src/index_trie.rs and
    crates/index/src/index/{mod,reader,writer}.rs.

    The flat [Index] table maps a term to the root of its posting bitmap; the
    trie of table [IndexTrie] commits to those rows, keyed by the digest of the
    term. *)
From Stdlib Require Import ZArith Lia.
From S2P Require Import Prelude Ordered Storage Scan CellTypes CellValue CellName MerkleNode MerkleTrie Frame MerkleWalk.
From S2P Require Import BranchTypes Term Bitmap.

#[local] Open Scope Z_scope.

Section Index.
Context `{Roaring} `{HashProvider}.

(** * The term commitment: index_trie.rs and term.rs *)

(** [IndexTerm::routing_path] and [leaf_hash] *)
Definition routing_path (term : IndexTerm) : Hash := hash term.
Definition term_leaf_hash (term : IndexTerm) (bitmap_root : Hash) : Hash :=
  hash_parts [[INDEX_LEAF_DOMAIN]; routing_path term; bitmap_root].

(** [IndexTrie::leaf] *)
Definition index_leaf (term : IndexTerm) (bitmap : Hash) : LeafRef :=
  {| lf_path := routing_path term; lf_hash := term_leaf_hash term bitmap |}.

(** [decode_root] *)
Definition decode_root (l : bytes) : res IndexError Hash :=
  if negb (length l =? 32)%nat then Err (Corruption "bitmap root is not 32 bytes")
  else if bool_decide (l = hash []) then Err (Corruption "empty bitmap root in Index row")
  else Ok l.

Section Reading.
Context {T : Type} `{ReadTransaction T}.

(** [IndexTrie::check] *)
Definition index_check (tx : T) (root : RootRef) (term : IndexTerm) (before : option Hash) : res IndexError unit :=
  leaf ← map_err IE_Merkle (get INDEX_TRIE_PATH_BYTES INDEX_TRIE INDEX_BRANCH_DOMAIN tx root (routing_path term));
  if bool_decide (leaf = index_leaf term <$> before) then Ok () else Err IE_RootMismatch.

(** [Index::reopen] *)
Definition Index_reopen (tx : T) (h : Hash) : res IndexError RootRef :=
  if bool_decide (h = hash []) then
    cursor ← map_err IE_Storage (tx_cursor tx INDEX []);
    first ← map_err IE_Storage (fst (cur_next cursor));
    match first with Some _ => Err IE_RootMismatch | None => Ok REmpty end
  else
    row ← map_err IE_Storage (tx_get tx INDEX_TRIE h);
    match row with
    | Some _ =>
        _ ← map_err IE_Merkle (validate_root INDEX_TRIE_PATH_BYTES INDEX_TRIE INDEX_BRANCH_DOMAIN tx (RBranch h));
        Ok (RBranch h)
    | None =>
        cursor ← map_err IE_Storage (tx_cursor tx INDEX []);
        match cur_next cursor with
        | (Ok None, _) => Err IE_RootMismatch
        | (Ok (Some (key, value)), cursor) =>
            second ← map_err IE_Storage (fst (cur_next cursor));
            match second with
            | Some _ => Err IE_RootMismatch
            | None =>
                term ← map_err IE_Term (term_decode key);
                bitmap ← decode_root value;
                let leaf := index_leaf term bitmap in
                if bool_decide (lf_hash leaf = h) then Ok (RLeaf leaf) else Err IE_RootMismatch
            end
        | (Err e, _) => Err (IE_Storage e)
        | (Panic, _) => Panic
        | (Diverge, _) => Diverge
        end
    end.

(** * Reads: mod.rs, reader.rs *)

(** [bitmap_root] *)
Definition bitmap_root (tx : T) (term : IndexTerm) : res IndexError (option Hash) :=
  row ← map_err IE_Storage (tx_get tx INDEX term);
  match row with
  | None => Ok None
  | Some row => h ← decode_root row; Ok (Some h)
  end.

(** [Index::bitmap] *)
Definition Index_bitmap (n fuel : nat) (tx : T) (term : IndexTerm) : res IndexError (option Bitmap) :=
  root ← bitmap_root tx term;
  match root with
  | None => Ok None
  | Some h => bitmap ← bitmap_at n fuel tx h; Ok (Some bitmap)
  end.

(** [TermScan] *)
Record TermScan := { ts_scan : Scan T; ts_done : bool }.

(** [Index::terms] and [terms_with_prefix] *)
Definition Index_terms (tx : T) (range : TermRange) : res IndexError TermScan :=
  let '(lower, upper) := TermRange_bounds range in
  s ← map_err IE_Storage (scan tx INDEX lower upper);
  Ok {| ts_scan := s; ts_done := false |}.
Definition terms_with_prefix (tx : T) (prefix : bytes) : res IndexError TermScan :=
  s ← map_err IE_Storage (scan_prefix tx INDEX prefix);
  Ok {| ts_scan := s; ts_done := false |}.

(** [TermScan::next] *)
Definition TermScan_next (s : TermScan) : option (res IndexError (IndexTerm * Hash)) * TermScan :=
  if ts_done s then (None, s)
  else match Scan_next (ts_scan s) with
  | (None, scan) => (None, {| ts_scan := scan; ts_done := false |})
  | (Some row, scan) =>
      let result :=
        '(key, value) ← map_err IE_Storage row;
        term ← map_err IE_Term (term_decode key);
        root ← decode_root value;
        Ok (term, root) in
      (Some result, {| ts_scan := scan; ts_done := match result with Err _ => true | _ => false end |})
  end.

Fixpoint TermScan_collect (fuel : nat) (s : TermScan) : res IndexError (list (IndexTerm * Hash)) :=
  match fuel with
  | O => Diverge
  | S fuel' =>
      match TermScan_next s with
      | (None, _) => Ok []
      | (Some (Ok row), s') => rows ← TermScan_collect fuel' s'; Ok (row :: rows)
      | (Some (Err e), _) => Err e
      | (Some Panic, _) => Panic
      | (Some Diverge, _) => Diverge
      end
  end.
End Reading.

(** * Writes: writer.rs *)

Inductive PostingChange : Type :=
  | PostingAdd (term : IndexTerm) (record_id : Z)
  | PostingRemove (term : IndexTerm) (record_id : Z).

Record TermRootChange := { tc_term : IndexTerm; tc_before : option Hash; tc_after : option Hash }.
Record IndexUpdate := { iu_root : RootRef; iu_changed_terms : list TermRootChange }.

(** A change keyed by what it decides: term, container path and offset. *)
Definition posting_key (c : PostingChange) : (IndexTerm * (Z * Z)) * bool :=
  match c with
  | PostingAdd term record_id => ((term, path_split record_id), true)
  | PostingRemove term record_id => ((term, path_split record_id), false)
  end.

(** The sort and dedup: the last operation on a posting stays. *)
Definition normalize_postings (changes : list PostingChange) : list ((IndexTerm * (Z * Z)) * bool) :=
  normalize (posting_key <$> changes).

Section Writing.
Context {T : Type} `{WriteTransaction T}.

(** [IndexTrie::set] *)
Definition index_edit (change : TermRootChange) : Edit :=
  (routing_path (tc_term change), (fun h => lf_hash (index_leaf (tc_term change) h)) <$> tc_after change).
Definition index_set (root : RootRef) (changes : list TermRootChange) : stres T IndexError RootRef :=
  st_map_err IE_Merkle (apply INDEX_TRIE_PATH_BYTES INDEX_TRIE INDEX_BRANCH_DOMAIN root (index_edit <$> changes)).

(** The loop over the groups of one term. *)
Fixpoint apply_terms (root : RootRef) (groups : list (list ((IndexTerm * (Z * Z)) * bool)))
    : stres T IndexError (list TermRootChange) :=
  match groups with
  | [] => mret []
  | [] :: groups => apply_terms root groups
  | ((((term, _), _) :: _) as group) :: groups =>
      before ← reading (fun tx => bitmap_root tx term);
      _ ← reading (fun tx => index_check tx root term before);
      after ← bitmap_apply before ((fun '((_, (hi, lo)), present) => (hi, lo, present)) <$> group);
      changed ← apply_terms root groups;
      mret (if bool_decide (before = after) then changed
            else {| tc_term := term; tc_before := before; tc_after := after |} :: changed)
  end.

(** The last loop: the flat rows. *)
Fixpoint write_terms (changes : list TermRootChange) : stres T IndexError unit :=
  match changes with
  | [] => mret ()
  | change :: changes =>
      _ ← st_map_err IE_Storage
            match tc_after change with
            | Some h => tx_put INDEX (tc_term change) h
            | None => _ ← tx_delete INDEX (tc_term change); mret ()
            end;
      write_terms changes
  end.

(** [Index::apply] *)
Definition Index_apply (root : RootRef) (changes : list PostingChange) : stres T IndexError IndexUpdate :=
  let groups := chunk_by (fun a b => bool_decide (a.1.1 = b.1.1)) (normalize_postings changes) in
  changed ← apply_terms root groups;
  root ← index_set root changed;
  _ ← write_terms changed;
  mret {| iu_root := root; iu_changed_terms := changed |}.
End Writing.
End Index.

(** * What an update leaves of a transaction, whatever its arguments *)

Section Keeps.
Context `{Roaring} `{HashProvider} {T : Type} `{WT : WriteTransaction T} (R : T -> T -> Prop) `{!PreOrder R}.
Hypothesis Hcontainer : forall k v tx, R tx (tx_insert BITMAP_CONTAINER k v tx).2.
Hypothesis Hbitmap : forall k v tx, R tx (tx_insert BITMAP_TRIE k v tx).2.

Hypothesis Hinsert : forall k v tx, R tx (tx_insert INDEX_TRIE k v tx).2.
Hypothesis Hput : forall k v tx, R tx (tx_put INDEX k v tx).2.
Hypothesis Hdelete : forall k tx, R tx (tx_delete INDEX k tx).2.

Lemma apply_terms_keeps root groups : keeps R (apply_terms root groups).
Proof using All.
  induction groups as [|group groups IH]; cbn [apply_terms]; [keeps|].
  destruct group as [|[[term p] present] group]; [apply IH|]. keeps. by apply bitmap_apply_keeps.
Qed.

Lemma Index_apply_keeps root changes : keeps R (Index_apply root changes).
Proof using All.
  unfold Index_apply, index_set. keeps; [apply apply_terms_keeps|by apply apply_keeps|].
  match goal with |- keeps R (write_terms ?l) => induction l as [|change l IH]; cbn [write_terms] end; keeps.
Qed.
End Keeps.
