(* ===== verification/IndexSpec.v ===== *)
(** What the attribute index promises: crates/index/src/{index_trie,index/*}.rs
    against a finite set of postings.

    [index_state tx root P] says that the [Index] rows, the bitmaps they point
    to and the term trie under [root] all say exactly the postings [P]; [apply]
    turns it into the state of the changed postings, and reads answer from [P]. *)
From Stdlib Require Import ZArith Lia.
From S2P Require Import Prelude Ordered Groups Storage Scan CellTypes CellValue CellName MerkleNode MerkleTrie Frame.
From S2P Require Import MerkleTree MerkleEdit MerkleBatch MerkleSpec BranchTypes Term Bitmap BitmapSpec Index.

#[local] Open Scope Z_scope.

(** * Postings *)

Abbreviation Postings := (gset (IndexTerm * Z)).

(** The records posted under a term. *)
Definition ids (P : Postings) (term : IndexTerm) : gset Z := set_map snd (filter (fun p => p.1 = term) P).

Lemma elem_of_ids (P : Postings) term id : id ∈ ids P term <-> (term, id) ∈ P.
Proof.
  unfold ids. rewrite elem_of_map. setoid_rewrite elem_of_filter. split.
  - by intros ([t i] & -> & <- & Hp).
  - intros Hp. by exists (term, id).
Qed.

Lemma ids_nonempty (P : Postings) term : ids P term <> ∅ <-> exists id, (term, id) ∈ P.
Proof.
  split.
  - intros Hne. apply set_choose_L in Hne as [id Hid]. exists id. by apply elem_of_ids.
  - intros [id Hid] E. apply elem_of_ids in Hid. rewrite E in Hid. by apply elem_of_empty in Hid.
Qed.

(** The postings after some changes, one after the other. *)
Definition post (P : Postings) (changes : list PostingChange) : Postings :=
  foldl (fun P c => match c with PostingAdd term id => {[(term, id)]} ∪ P | PostingRemove term id => P ∖ {[(term, id)]} end) P changes.

Definition change_term (c : PostingChange) : IndexTerm := match c with PostingAdd term _ | PostingRemove term _ => term end.
Definition change_id (c : PostingChange) : Z := match c with PostingAdd _ id | PostingRemove _ id => id end.

(** A change of a valid term for a 64-bit record ID. *)
Definition posting_wf (c : PostingChange) : Prop := term_decode (change_term c) = Ok (change_term c) /\ 0 <= change_id c < 2 ^ 64.

Definition postings_wf (P : Postings) : Prop := forall term id, (term, id) ∈ P -> term_decode term = Ok term /\ 0 <= id < 2 ^ 64.

Lemma path_split_inj id id' : 0 <= id < 2 ^ 64 -> 0 <= id' < 2 ^ 64 -> path_split id = path_split id' -> id = id'.
Proof.
  intros Hid Hid'. destruct (path_split_ok id Hid) as [-> _]. destruct (path_split_ok id' Hid') as [-> _]. intros [= E1 E2].
  rewrite <- (id_of_split id), <- (id_of_split id'). congruence.
Qed.

Lemma elem_of_post P changes term id : Forall posting_wf changes -> 0 <= id < 2 ^ 64 ->
  (term, id) ∈ post P changes <->
  match last_write (term, path_split id) (posting_key <$> changes) with Some b => b = true | None => (term, id) ∈ P end.
Proof.
  intros Hw Hid. revert P. induction Hw as [|c changes [_ Hc] _ IH]; intros P; [done|].
  rewrite fmap_cons, last_write_cons. cbn [post foldl]. fold (post (match c with PostingAdd term id => {[(term, id)]} ∪ P
    | PostingRemove term id => P ∖ {[(term, id)]} end) changes). rewrite IH.
  destruct (last_write (term, path_split id) (posting_key <$> changes)) as [b|]; [done|].
  assert (forall t i, 0 <= i < 2 ^ 64 -> (t, path_split i) = (term, path_split id) <-> (term, id) = (t, i)) as Heq.
  { intros t i Hi. split; [|by intros [= -> ->]]. intros E. pose proof (f_equal fst E) as E1. pose proof (f_equal snd E) as E2.
    cbn [fst snd] in E1, E2. subst t. f_equal. symmetry. by apply path_split_inj. }
  destruct c as [t i|t i]; cbn [posting_key fst snd change_id] in *.
  - specialize (Heq t i Hc). rewrite elem_of_union, elem_of_singleton. destruct (decide _); naive_solver.
  - specialize (Heq t i Hc). rewrite elem_of_difference, elem_of_singleton. destruct (decide _); naive_solver.
Qed.

Lemma post_wf P changes : postings_wf P -> Forall posting_wf changes -> postings_wf (post P changes).
Proof.
  intros HP Hw. revert P HP. induction Hw as [|c changes [Ht Hi] _ IH]; intros P HP; [done|]. cbn [post foldl]. apply IH.
  intros term id Hin. destruct c as [t i|t i]; cbn [change_term change_id] in Ht, Hi.
  - apply elem_of_union in Hin as [Hin%elem_of_singleton|Hin]; [injection Hin as -> ->; by split|by apply HP].
  - apply elem_of_difference in Hin as [Hin _]. by apply HP.
Qed.

(** * Batches by term *)

(** A normalised batch and its groups. *)
Abbreviation Item := ((IndexTerm * (Z * Z)) * bool)%type.
Definition item_term (c : Item) : IndexTerm := c.1.1.
Definition item_posting (c : Item) : Posting := (c.1.2.1, c.1.2.2, c.2).
Definition term_groups (l : list Item) : list (list Item) := chunk_by (fun a b => bool_decide (a.1.1 = b.1.1)) l.

Lemma same_term (a b : Item) : bool_decide (a.1.1 = b.1.1) = true <-> item_term a = item_term b.
Proof. apply bool_decide_eq_true. Qed.

(** Applying a batch of memberships, one ID at a time. *)
Lemma elem_of_set_ids B (l : list Posting) id : Forall posting_ok l ->
  id ∈ set_ids B l <->
  match last_write (id / 65536, id mod 65536) ((fun c : Posting => (c.1, c.2)) <$> l) with Some b => b = true | None => id ∈ B end.
Proof.
  intros Hok. revert B. induction Hok as [|[[hi lo] present] l [_ Hlo] _ IH]; intros B; [done|].
  cbn in Hlo. rewrite fmap_cons, last_write_cons. cbn [set_ids foldl fst snd]. fold (set_ids (set_id B (id_of hi lo) present) l). rewrite IH.
  destruct (last_write _ _) as [b|]; [done|]. rewrite elem_of_set_id. destruct (decide (id = id_of hi lo)) as [->|Hne].
  - destruct (split_id_of hi lo Hlo) as [-> ->]. by rewrite decide_True.
  - rewrite decide_False; [done|]. intros [= -> ->]. by rewrite id_of_split in Hne.
Qed.

Section Batch.
Context (changes : list PostingChange).
Hypothesis Hw : Forall posting_wf changes.

Abbreviation items := (normalize_postings changes).

Lemma item_of_change c : c ∈ items -> posting_ok (item_posting c) /\ exists ch, ch ∈ changes /\ item_term c = change_term ch.
Proof using Hw.
  unfold normalize_postings. rewrite normalize_entries. destruct c as [[t [hi lo]] b].
  intros Hin%elem_of_entries. rewrite batch_map_lookup in Hin. unfold last_write in Hin.
  apply last_Some_elem_of, list_elem_of_fmap in Hin as ([k b'] & Eb & [Hk Hin]%list_elem_of_filter). cbn in Hk, Eb. subst k b'.
  apply list_elem_of_fmap in Hin as (ch & E & Hch). rewrite Forall_forall in Hw. destruct (Hw ch Hch) as [_ Hid].
  destruct (path_split_ok _ Hid) as (Es & Hhi & Hlo).
  destruct ch as [t' i|t' i]; cbn in E, Hid, Es, Hhi, Hlo; rewrite Es in E; injection E as -> -> -> ->; (split; [by split|by eexists]).
Qed.

Lemma items_sorted : StronglySorted (fun a b : Item => kle (item_term a) (item_term b)) items /\
  StronglySorted (fun a b : Item => item_term a = item_term b -> kle (item_posting a).1.1 (item_posting b).1.1) items.
Proof using.
  unfold normalize_postings. rewrite normalize_entries. generalize (batch_map (posting_key <$> changes)) as m. intros m.
  pose proof (entries_sorted m) as Hs. induction (entries m) as [|[[t [hi lo]] b] l IH]; [by split; constructor|].
  rewrite fmap_cons in Hs. apply StronglySorted_inv in Hs as [Hs Hx]. destruct (IH Hs) as [IH1 IH2].
  rewrite Forall_fmap, Forall_forall in Hx. split; (constructor; [done|]); apply Forall_forall; intros [[t' [hi' lo']] b'] Hin;
    specialize (Hx _ Hin); unfold klt, cmp, prod_ordered in Hx; cbn in Hx |- *.
  - unfold kle. intros E. by rewrite E in Hx.
  - intros <-. rewrite cmp_refl in Hx. unfold kle. change (cmp hi hi') with (Z.compare hi hi').
    change (match Z.compare hi hi' with Eq => Z.compare lo lo' | c => c end = Lt) in Hx. by destruct (Z.compare hi hi').
Qed.

(** The group of a term holds what the batch asks for the term. *)
Lemma group_ids P group c : postings_wf P -> group ∈ term_groups items -> c ∈ group ->
  set_ids (ids P (item_term c)) (item_posting <$> group) = ids (post P changes) (item_term c).
Proof using Hw.
  intros HP Hg Hc. pose proof (chunk_by_homogeneous _ _ same_term items) as Hh.
  pose proof (chunk_by_sorted _ _ same_term items (proj1 items_sorted)) as Hsort.
  pose proof (group_filter item_term _ group c Hh Hsort Hg Hc) as Hf.
  unfold term_groups in Hf. rewrite chunk_by_concat in Hf.
  assert (Hitems : forall x, x ∈ group -> x ∈ items) by (intros x; rewrite <- Hf; by intros [_ ?]%list_elem_of_filter).
  assert (Forall posting_ok (item_posting <$> group)) as Hok.
  { apply Forall_fmap, Forall_forall. intros x Hx. by apply item_of_change, Hitems. }
  assert (ids_ok (ids P (item_term c))) as HB by (intros id Hid%elem_of_ids; by apply HP in Hid as [_ ?]).
  assert (postings_wf (post P changes)) as HP' by (by apply post_wf).
  apply set_eq. intros id. destruct (decide (0 <= id < 2 ^ 64)) as [Hid|Hid].
  2: { split; intros Hin; exfalso; apply Hid; [by eapply set_ids_ok|]. by apply elem_of_ids, HP' in Hin as [_ ?]. }
  rewrite elem_of_set_ids by done. rewrite (elem_of_ids (post P changes)), elem_of_post by done. destruct (path_split_ok id Hid) as [Es _]. rewrite Es.
  assert (last_write (id / 65536, id mod 65536) ((fun c : Posting => (c.1, c.2)) <$> (item_posting <$> group)) =
    last_write (item_term c, (id / 65536, id mod 65536)) (posting_key <$> changes)) as ->; [|by destruct (last_write _ _); rewrite ?elem_of_ids].
  rewrite <- (batch_map_lookup (posting_key <$> changes)). apply option_eq. intros b. rewrite <- elem_of_entries, <- normalize_entries.
  fold (normalize_postings changes). rewrite <- list_fmap_compose.
  assert (NoDup (((fun c : Posting => (c.1, c.2)) ∘ item_posting <$> group).*1)) as Hnd.
  { rewrite <- list_fmap_compose.
    assert (Hkeys : NoDup (items.*1)) by (unfold normalize_postings; rewrite normalize_entries; apply NoDup_fst_entries).
    rewrite <- Hf. assert (forall l : list Item, NoDup (l.*1) ->
      NoDup ((fst ∘ ((fun c : Posting => (c.1, c.2)) ∘ item_posting)) <$> filter (fun x => item_term x = item_term c) l)) as Hgen; [|by apply Hgen].
    clear. intros l. induction l as [|[[t [hi lo]] b] l IH]; [constructor|]. rewrite fmap_cons. intros [Hn Hl]%NoDup_cons.
    rewrite filter_cons. case_decide as Ht; [|by apply IH]. rewrite fmap_cons. constructor; [|by apply IH].
    intros ([[t' [hi' lo']] b'] & E & [Ht' Hin]%list_elem_of_filter)%list_elem_of_fmap. cbn in E, Ht, Ht'. injection E as <- <-.
    apply Hn, list_elem_of_fmap. exists ((t', (hi, lo)), b'). split; [|done]. cbn. by rewrite Ht, Ht'. }
  rewrite <- sorted_elem_last_write by exact Hnd. rewrite list_elem_of_fmap. split.
  - intros ([[t [hi lo]] b'] & E & Hx). cbn in E. injection E as -> -> ->. pose proof (Hitems _ Hx) as Hi.
    rewrite <- Hf in Hx. apply list_elem_of_filter in Hx as [Ht _]. cbn in Ht. by subst t.
  - intros Hin. exists ((item_term c, (id / 65536, id mod 65536)), b). split; [done|]. rewrite <- Hf. by apply list_elem_of_filter.
Qed.

(** Groups and terms of a batch. *)
Lemma group_in_batch group c : group ∈ term_groups items -> c ∈ group -> c ∈ items.
Proof using.
  clear Hw. intros Hg Hc. rewrite <- (chunk_by_concat (fun a b : Item => bool_decide (a.1.1 = b.1.1)) items).
  apply elem_of_concat. by exists group.
Qed.

Lemma change_grouped ch : ch ∈ changes -> exists group c, group ∈ term_groups items /\ c ∈ group /\ item_term c = change_term ch.
Proof using.
  clear Hw. intros Hch. destruct (last_write (posting_key ch).1 (posting_key <$> changes)) as [b|] eqn:E.
  - assert (((posting_key ch).1, b) ∈ items) as Hin.
    { unfold normalize_postings. rewrite normalize_entries. apply elem_of_entries. by rewrite batch_map_lookup. }
    rewrite <- (chunk_by_concat (fun a b : Item => bool_decide (a.1.1 = b.1.1)) items) in Hin.
    apply elem_of_concat in Hin as (group & Hg & Hin). exists group, ((posting_key ch).1, b). split_and!; [done..|].
    by destruct ch.
  - exfalso. unfold last_write in E. apply last_None, fmap_nil_inv in E.
    assert (posting_key ch ∈ filter (fun kv : Item => kv.1 = (posting_key ch).1) (posting_key <$> changes)) as Hin.
    { apply list_elem_of_filter. split; [done|]. apply list_elem_of_fmap. by exists ch. }
    rewrite E in Hin. by apply not_elem_of_nil in Hin.
Qed.

(** Within a group the postings are sorted by container. *)
Lemma group_sorted group : group ∈ term_groups items -> StronglySorted (fun a b : Posting => kle a.1.1 b.1.1) (item_posting <$> group).
Proof using.
  clear Hw. intros Hg. pose proof (chunk_by_homogeneous _ _ same_term items) as Hh.
  pose proof (chunk_by_sorted _ _ same_term items (proj1 items_sorted)) as Hsort. pose proof Hh as Hhom.
  rewrite Forall_forall in Hhom. destruct (Hhom group Hg) as (c & rest & Eg & _).
  assert (c ∈ group) as Hc by (rewrite Eg; apply list_elem_of_here).
  pose proof (group_filter item_term _ group c Hh Hsort Hg Hc) as Hf. unfold term_groups in Hf. rewrite chunk_by_concat in Hf.
  rewrite <- Hf. pose proof (proj2 items_sorted) as Hs. revert Hs. clear. generalize items as l. intros l Hs. induction Hs as [|x l Hs IH Hx]; [constructor|]. rewrite filter_cons.
  case_decide as Ex; [|done]. rewrite fmap_cons. constructor; [done|]. rewrite Forall_forall in Hx.
  apply Forall_fmap, Forall_forall. intros y [Ey Hy]%list_elem_of_filter. apply Hx; [done|]. congruence.
Qed.

Lemma no_change_ids P t : postings_wf P -> (forall ch, ch ∈ changes -> change_term ch <> t) -> ids (post P changes) t = ids P t.
Proof using Hw.
  intros HP Hno. assert (postings_wf (post P changes)) as HP' by (by apply post_wf). apply set_eq. intros id. rewrite !elem_of_ids.
  assert (0 <= id < 2 ^ 64 -> (t, id) ∈ post P changes <-> (t, id) ∈ P) as Hiff.
  { intros Hid. rewrite elem_of_post by done. destruct (last_write _ _) as [b|] eqn:E; [|done]. exfalso.
    unfold last_write in E. apply last_Some_elem_of, list_elem_of_fmap in E as ([k b'] & -> & [Hk Hin]%list_elem_of_filter).
    apply list_elem_of_fmap in Hin as (ch & Ech & Hch). apply (Hno ch Hch). cbn in Hk. subst k.
    apply (f_equal (fun x => x.1.1)) in Ech. destruct ch; exact (eq_sym Ech). }
  split; intros Hin; [apply Hiff; [by apply HP' in Hin as [_ ?]|done]|apply Hiff; [by apply HP in Hin as [_ ?]|done]].
Qed.
End Batch.

(** * The state of the index *)

Section IndexState.
Context `{Roaring} {RO : RoaringLaws} `{HashProvider} {HL : HashLaws}.
Context {T : Type} `{WT : WriteTransaction T} {RL : ReadLaws T} {WL : WriteLaws T}.

Abbreviation term_trie := (represents INDEX_TRIE_PATH_BYTES INDEX_TRIE INDEX_BRANCH_DOMAIN).

(** The term trie has one leaf for each row. *)
Definition trie_of_rows (tx : T) (root : RootRef) (rows : Rows) : Prop :=
  exists m, term_trie tx root m /\ keyed routing_path term_leaf_hash m rows.

Record index_state (tx : T) (root : RootRef) (P : Postings) : Prop := {
  is_postings : postings_wf P;
  is_rows term : posted_as tx (view tx INDEX !! term) (ids P term);
  is_trie : trie_of_rows tx root (view tx INDEX)
}.

(** The terms in the rows and in some changes have distinct digests. *)
Definition distinct_terms (rows : Rows) (terms : list IndexTerm) : Prop :=
  forall t1 t2, (is_Some (rows !! t1) \/ t1 ∈ terms) -> (is_Some (rows !! t2) \/ t2 ∈ terms) -> routing_path t1 = routing_path t2 -> t1 = t2.

Lemma distinct_terms_sub rows (terms terms' : list IndexTerm) : (forall t, t ∈ terms' -> t ∈ terms) -> distinct_terms rows terms -> distinct_terms rows terms'.
Proof using. intros Hs Hd t1 t2 A1 A2. apply Hd; [destruct A1; auto|destruct A2; auto]. Qed.

Lemma table_ok_INDEX : table_ok INDEX.
Proof using. done. Qed.
Lemma table_ok_INDEX_TRIE : table_ok INDEX_TRIE.
Proof using. done. Qed.
Lemma index_width : (1 <= INDEX_TRIE_PATH_BYTES <= 32)%nat.
Proof using. unfold INDEX_TRIE_PATH_BYTES. lia. Qed.

Lemma length_routing_path term : length (routing_path term) = INDEX_TRIE_PATH_BYTES.
Proof using HL. apply hash_length. Qed.

(** A term without postings has no row, and only such a term. *)
Lemma posted_row tx row B : posted_as tx row B -> (row = None <-> B = ∅).
Proof using.
  destruct row as [h|]; cbn; [|tauto]. intros (root & Hrep & Hne & _). split; [done|]. intros HB. by apply bitmap_rep_not_nil in Hrep.
Qed.

(** A row is a digest that [decode_root] accepts. *)
Lemma posted_decode tx h B : posted_as tx (Some h) B -> ~ clash tx -> decode_root h = Ok h.
Proof using HL.
  intros (root & [Hids Hrows (m & Hm & Hspec)] & Hne & ->) Hc. unfold decode_root.
  assert (length (RootRef_hash root) = 32%nat /\ RootRef_hash root <> hash []) as [Hlen Hh].
  { destruct root as [|l|h]; [done|..]; cbn [RootRef_hash].
    - apply represents_leaf in Hm as Em.
      destruct (proj1 (Hspec (lf_path l) (lf_hash l))) as (path & Hp & Hl); [by rewrite Em, lookup_singleton_eq|].
      assert (lf_hash l = lf_hash (chunk_leaf B path)) as -> by exact (f_equal lf_hash Hl). split; [apply hash_length|].
      intros E. apply Hc. right. left. rewrite <- E, Hrows by done. by eexists.
    - destruct (represents_branch _ _ _ width6 table_ok_bitmap_trie tx h m Hm) as [Hrow _]. split.
      + destruct Hm as (t & E & _). destruct t as [|l|p cs]; try done. injection E as ->. apply hash_length.
      + intros ->. apply Hc. right. by right. }
  rewrite Hlen. cbn [Nat.eqb negb]. by rewrite bool_decide_false.
Qed.

Lemma bitmap_root_ok tx term B : posted_as tx (view tx INDEX !! term) B -> ~ clash tx -> bitmap_root tx term = Ok (view tx INDEX !! term).
Proof using HL.
  intros Hp Hc. unfold bitmap_root. rewrite get_spec by done. unfold mbind, res_mbind. cbn [map_err].
  destruct (view tx INDEX !! term) as [h|] eqn:E; [|done]. by rewrite (posted_decode tx h B).
Qed.

Lemma index_check_ok tx root rows terms term : trie_of_rows tx root rows -> distinct_terms rows terms -> term ∈ terms ->
  index_check tx root term (rows !! term) = Ok ().
Proof using HL.
  intros (m & Hm & Hk) Hd Ht. unfold index_check.
  rewrite (represents_get _ _ _ index_width table_ok_INDEX_TRIE tx root m _ Hm (length_routing_path term)).
  unfold mbind, res_mbind. cbn [map_err]. rewrite bool_decide_true; [done|].
  destruct (rows !! term) as [b|] eqn:Eb.
  - assert (m !! routing_path term = Some (term_leaf_hash term b)) as -> by (apply Hk; eauto). done.
  - destruct (m !! routing_path term) as [h|] eqn:Em; [|done]. apply Hk in Em as (t & b & Hb & Ep & _).
    assert (term = t) as <- by (apply Hd; [by right|left; by eexists|done]). congruence.
Qed.

(** ** The loop over terms *)

(** What the loop reports: the terms whose row is to change, each once. *)
Definition group_term (g : list Item) : IndexTerm := match g with c :: _ => item_term c | [] => [] end.

Record terms_changed (tx : T) (rows : Rows) (new : IndexTerm -> gset Z) (terms : list IndexTerm) (changed : list TermRootChange) : Prop := {
  tc_nodup : NoDup (tc_term <$> changed);
  tc_changes c : c ∈ changed -> tc_term c ∈ terms /\ tc_before c = rows !! tc_term c /\ tc_before c <> tc_after c /\
    posted_as tx (tc_after c) (new (tc_term c));
  tc_others t : t ∈ terms -> t ∉ tc_term <$> changed -> posted_as tx (rows !! t) (new t)
}.

Lemma apply_terms_grows root groups : keeps grows (apply_terms root groups).
Proof using WL.
  induction groups as [|group groups IH]; cbn [apply_terms]; [keeps|].
  destruct group as [|[[term p] present] group]; [apply IH|]. keeps.
  apply bitmap_apply_keeps; try apply grows_preorder; intros; apply insert_grows; auto.
Qed.
#[local] Hint Resolve apply_terms_grows : keeps.

Lemma bitmap_apply_grows before changes : keeps grows (bitmap_apply before changes).
Proof using WL. apply bitmap_apply_keeps; try apply grows_preorder; intros; apply insert_grows; auto. Qed.
#[local] Hint Resolve bitmap_apply_grows : keeps.

Lemma grows_index tx tx' : grows tx tx' -> view tx' INDEX = view tx INDEX.
Proof using. intros Hg. by apply Hg. Qed.

Lemma grows_trie tx tx' root rows : grows tx tx' -> trie_of_rows tx root rows -> trie_of_rows tx' root rows.
Proof using.
  intros Hg (m & Hm & Hk). exists m. split; [|done]. eapply represents_mono; [|done]. by rewrite (gr_others _ _ Hg).
Qed.

(** What a group asks of its term. *)
Definition group_ok (B : gset Z) (g : list Item) : Prop :=
  homogeneous item_term g /\ Forall posting_ok (item_posting <$> g) /\
  StronglySorted (fun a b : Posting => kle a.1.1 b.1.1) (item_posting <$> g).

(** A container or a branch of some term's bitmap has its digest taken. *)
Definition some_bitmap_conflict (sets : IndexTerm -> gset Z) (e : IndexError) (tx : T) : Prop := exists t, bitmap_conflict (sets t) e tx.

Lemma apply_terms_ok tx root (old new : IndexTerm -> gset Z) groups terms :
  (forall t, posted_as tx (view tx INDEX !! t) (old t)) -> trie_of_rows tx root (view tx INDEX) ->
  distinct_terms (view tx INDEX) terms ->
  Forall (fun g => group_ok (old (group_term g)) g /\ group_term g ∈ terms /\
    new (group_term g) = set_ids (old (group_term g)) (item_posting <$> g)) groups ->
  StronglySorted (fun g h => forall a b, a ∈ g -> b ∈ h -> klt (item_term a) (item_term b)) groups ->
  iwp (some_bitmap_conflict new) (fun changed tx' => terms_changed tx' (view tx INDEX) new (group_term <$> groups) changed) (apply_terms root groups) tx.
Proof using RO HL WL.
  intros Hold Htrie Hd Hg. revert tx Hold Htrie Hd. induction Hg as [|g groups [(Hhom & Hok & Hsort) [Hterm Hnew]] Hg IH];
    intros tx Hold Htrie Hd Hs.
  { cbn [apply_terms]. apply iwp_ret. intros _. split; [constructor|by intros c ?%not_elem_of_nil|by intros t ?%not_elem_of_nil]. }
  apply StronglySorted_inv in Hs as [Hs Hlt]. destruct Hhom as (c & rest & -> & Hrest). destruct c as [[t [hi lo]] b].
  cbn [group_term item_term fst] in *. cbn [apply_terms].
  apply iwp_bind; [intros; keeps|]. apply iwp_reading. intros Hc. exists (view tx INDEX !! t).
  split; [by eapply bitmap_root_ok|]. intros _.
  apply iwp_bind; [intros; keeps|]. apply iwp_reading. intros _. exists tt.
  split; [by eapply index_check_ok|]. intros _.
  apply iwp_bind; [intros; keeps|].
  match goal with |- iwp _ _ (bitmap_apply _ ?l) _ =>
    replace l with (item_posting <$> ((t, (hi, lo), b) :: rest)) by (apply list_fmap_ext; by intros i [[? [? ?]] ?] _) end.
  eapply iwp_mono; [eapply iwp_errors; [|by apply (bitmap_apply_ok tx _ (old t))]; intros e tx'; rewrite <- Hnew; by exists t|]. intros after tx1 Hg1 Hafter _. cbv beta in Hafter. rewrite <- Hnew in Hafter.
  pose proof (grows_index _ _ Hg1) as Hidx. apply iwp_bind; [intros; keeps|].
  eapply iwp_mono; [apply IH; [|rewrite Hidx; by eapply grows_trie|by rewrite Hidx|done]|].
  { intros t'. rewrite Hidx. by eapply posted_as_mono. }
  intros changed tx2 Hg2 [Hnd Hch Hoth] _. rewrite Hidx in Hch, Hoth. apply iwp_ret. intros _.
  assert (Hfresh : t ∉ group_term <$> groups).
  { intros (g & -> & Hin)%list_elem_of_fmap. rewrite Forall_forall in Hlt, Hg. destruct (Hg g Hin) as [((c & r & -> & _) & _) _].
    apply (klt_irrefl (item_term c)). apply (Hlt _ Hin (item_term c, (hi, lo), b) c); [|apply list_elem_of_here].
    apply list_elem_of_here. }
  case_bool_decide as Eb.
  - split; [done| |].
    + intros c Hin. destruct (Hch c Hin) as (Q1 & Q2). split; [by apply list_elem_of_further|done].
    + intros t' [->|Hin]%elem_of_cons Hnot; [|by apply Hoth].
      change (group_term _) with t. rewrite Eb. by eapply posted_as_mono.
  - split.
    + rewrite fmap_cons. constructor; [|done]. intros (c & Ec & Hin)%list_elem_of_fmap. destruct (Hch c Hin) as (Q1 & _).
      cbn in Ec. by rewrite Ec in Hfresh.
    + intros c [->|Hin]%elem_of_cons.
      * cbn. split_and!; [apply list_elem_of_here|done|done|]. by eapply posted_as_mono.
      * destruct (Hch c Hin) as (Q1 & Q2). split; [by apply list_elem_of_further|done].
    + intros t' Hin Hnot. rewrite fmap_cons in Hnot. apply not_elem_of_cons in Hnot as [Hne Hnot].
      apply elem_of_cons in Hin as [->|Hin]; [done|by apply Hoth].
Qed.

(** ** The whole batch *)

Definition root_changes (changed : list TermRootChange) : list (IndexTerm * option Hash) := (fun c => (tc_term c, tc_after c)) <$> changed.

Lemma write_terms_ok (l : list TermRootChange) tx :
  exists tx', write_terms l tx = (Ok (), tx') /\ view tx' INDEX = edit_map (view tx INDEX) (root_changes l) /\
    forall tb, tb <> INDEX -> view tx' tb = view tx tb.
Proof using WL.
  revert tx. induction l as [|c l IH]; intros tx; [by exists tx|]. cbn [write_terms].
  assert (exists tx1, st_map_err IE_Storage match tc_after c with
      | Some h => tx_put INDEX (tc_term c) h
      | None => (_ ← tx_delete INDEX (tc_term c); mret () : stres T StorageError unit)
      end tx = (Ok (), tx1) /\
    view tx1 INDEX = match tc_after c with Some v => <[tc_term c := v]> (view tx INDEX) | None => delete (tc_term c) (view tx INDEX) end /\
    forall tb, tb <> INDEX -> view tx1 tb = view tx tb) as (tx1 & E1 & V1 & O1).
  { destruct (tc_after c) as [v|].
    - destruct (put_spec tx INDEX (tc_term c) v table_ok_INDEX) as (tx1 & E & Hv). exists tx1. unfold st_map_err. rewrite E.
      split_and!; [done|rewrite Hv; unfold upd_view; by rewrite decide_True|].
      intros tb Htb. rewrite Hv. unfold upd_view. by rewrite decide_False.
    - destruct (delete_spec tx INDEX (tc_term c) table_ok_INDEX) as (tx1 & E & Hv). exists tx1.
      unfold st_map_err, mbind, stres_mbind. rewrite E. cbn.
      split_and!; [done|rewrite Hv; unfold upd_view; by rewrite decide_True|].
      intros tb Htb. rewrite Hv. unfold upd_view. by rewrite decide_False. }
  destruct (IH tx1) as (tx' & E' & V' & O'). exists tx'. unfold mbind at 1, stres_mbind at 1. rewrite E1. split_and!; [done| |].
  - rewrite V', V1. unfold edit_map, root_changes. rewrite fmap_cons. cbn [foldl]. by destruct (tc_after c).
  - intros tb Htb. by rewrite O', O1.
Qed.

(** The loop's report as row edits. *)
Section Report.
Context (tx : T) (rows : Rows) (new : IndexTerm -> gset Z) (terms : list IndexTerm) (changed : list TermRootChange).
Hypothesis Hch : terms_changed tx rows new terms changed.

Lemma root_changes_write t o : (t, o) ∈ root_changes changed <-> last_write t (root_changes changed) = Some o.
Proof using Hch. apply sorted_elem_last_write. unfold root_changes. rewrite <- list_fmap_compose. apply Hch. Qed.

Lemma root_changes_elem t o : (t, o) ∈ root_changes changed ->
  exists c, c ∈ changed /\ tc_term c = t /\ tc_after c = o /\ t ∈ terms /\ rows !! t <> o /\ posted_as tx o (new t).
Proof using Hch.
  intros (c & [= -> ->] & Hin)%list_elem_of_fmap. destruct (tc_changes _ _ _ _ _ Hch c Hin) as (Q1 & Q2 & Q3 & Q4).
  exists c. split_and!; try done. by rewrite <- Q2.
Qed.

Lemma root_changes_none t : last_write t (root_changes changed) = None -> t ∈ terms -> posted_as tx (rows !! t) (new t).
Proof using Hch.
  intros E Ht. apply (tc_others _ _ _ _ _ Hch t Ht). intros (c & -> & Hin)%list_elem_of_fmap.
  apply last_write_none in E. apply E. unfold root_changes. rewrite <- list_fmap_compose. apply list_elem_of_fmap. by exists c.
Qed.

Lemma root_changes_trie m : distinct_terms rows terms -> keyed routing_path term_leaf_hash m rows ->
  keyed routing_path term_leaf_hash (edit_map m (index_edit <$> changed)) (edit_map rows (root_changes changed)).
Proof using Hch.
  intros Hd Hm.
  assert (index_edit <$> changed = keyed_edit routing_path term_leaf_hash <$> root_changes changed) as ->
    by (unfold root_changes; rewrite <- list_fmap_compose; by apply list_fmap_ext).
  apply (keyed_edits routing_path term_leaf_hash rows _ (batch_map (root_changes changed))); [..|done].
  - intros t. by rewrite edit_map_lookup, batch_map_lookup.
  - intros t o. rewrite batch_map_lookup, <- root_changes_write. split; [|by intros [? _]].
    intros Hin. split; [done|]. by destruct (root_changes_elem t o Hin) as (_ & _ & _ & _ & _ & Hne & _).
  - assert (forall t, is_Some ((batch_map (root_changes changed) : gmap _ _) !! t) -> t ∈ terms) as Ht.
    { intros t [o Ho]. rewrite batch_map_lookup in Ho. apply root_changes_write, root_changes_elem in Ho as (_ & _ & _ & _ & ? & _). done. }
    intros t1 t2 A1 A2. apply Hd; [destruct A1; auto|destruct A2; auto].
Qed.

Lemma index_edits_wf : edits_wf INDEX_TRIE_PATH_BYTES (index_edit <$> changed).
Proof using HL.
  unfold edits_wf. apply Forall_fmap, Forall_forall. intros c _.
  change (length (routing_path (tc_term c)) = INDEX_TRIE_PATH_BYTES /\
    match term_leaf_hash (tc_term c) <$> tc_after c with Some h => length h = 32%nat | None => True end).
  split; [apply length_routing_path|]. destruct (tc_after c); [|done]. apply hash_length.
Qed.
End Report.

(** [Index::apply], step by step: the loop over terms, the trie and the rows. *)
Lemma trie_wp_index {A} L (Q : A -> T -> Prop) (c : stres T MerkleError A) tx :
  wp INDEX_TRIE_PATH_BYTES INDEX_TRIE INDEX_BRANCH_DOMAIN L Q c tx ->
  let '(r, tx') := st_map_err IE_Merkle c tx in
  (forall tb, tb <> INDEX_TRIE -> view tx' tb = view tx tb) /\
  match r with
  | Ok a => Q a tx'
  | Err (IE_Merkle ConflictingBranch) => conflict INDEX_TRIE_PATH_BYTES INDEX_TRIE INDEX_BRANCH_DOMAIN L tx'
  | _ => False
  end.
Proof using.
  unfold wp, st_map_err. destruct (c tx) as [r tx']. intros ([_ Ho] & _ & Hr). split; [done|]. by destruct r as [|[]| |].
Qed.

Lemma index_set_ok tx root m changed : term_trie tx root m -> edits_wf INDEX_TRIE_PATH_BYTES (index_edit <$> changed) ->
  let '(r, tx') := index_set root changed tx in
  (forall tb, tb <> INDEX_TRIE -> view tx' tb = view tx tb) /\
  match r with
  | Ok root' => term_trie tx' root' (edit_map m (index_edit <$> changed))
  | Err (IE_Merkle ConflictingBranch) =>
      conflict INDEX_TRIE_PATH_BYTES INDEX_TRIE INDEX_BRANCH_DOMAIN (map_leaves (edit_map m (index_edit <$> changed))) tx'
  | _ => False
  end.
Proof using HL WL.
  intros Hm Hw. unfold index_set.
  apply (trie_wp_index _ (fun root' tx' => term_trie tx' root' (edit_map m (index_edit <$> changed)))).
  exact (represents_apply _ _ _ index_width table_ok_INDEX_TRIE _ _ _ _ Hm Hw).
Qed.

(** What an update reports: every row that changed, with both its values. *)
Definition reports (rows rows' : Rows) (changed : list TermRootChange) : Prop :=
  NoDup (tc_term <$> changed) /\
  forall t before after, {| tc_term := t; tc_before := before; tc_after := after |} ∈ changed <->
    before = rows !! t /\ after = rows' !! t /\ before <> after.

Lemma reports_rows tx rows rows' new terms changed : terms_changed tx rows new terms changed ->
  rows' = edit_map rows (root_changes changed) -> reports rows rows' changed.
Proof using.
  intros Hr ->. split; [apply Hr|]. intros t b a. rewrite edit_map_lookup. split.
  - intros Hin. destruct (tc_changes _ _ _ _ _ Hr _ Hin) as (_ & Hb & Hne & _). cbn in Hb, Hne. split; [done|]. split; [|done].
    assert ((t, a) ∈ root_changes changed) as Ht by (apply list_elem_of_fmap; eexists; split; [|exact Hin]; done).
    apply (root_changes_write _ _ _ _ _ Hr) in Ht. by rewrite Ht.
  - intros (-> & -> & Hne). destruct (last_write t (root_changes changed)) as [o|] eqn:E; [|done].
    apply (root_changes_write _ _ _ _ _ Hr), (root_changes_elem _ _ _ _ _ Hr) in E as (c & Hc & <- & <- & _).
    destruct (tc_changes _ _ _ _ _ Hr c Hc) as (_ & <- & _). by destruct c.
Qed.

Definition index_tables : list Table := [INDEX; INDEX_TRIE; BITMAP_CONTAINER; BITMAP_TRIE].

(** A branch of the trie over the rows of some postings has its digest taken. *)
Definition term_conflict (P : Postings) (tx : T) : Prop :=
  exists rows : Rows, (forall t, posted_as tx (rows !! t) (ids P t)) /\
    conflict INDEX_TRIE_PATH_BYTES INDEX_TRIE INDEX_BRANCH_DOMAIN (keyed_leaves routing_path term_leaf_hash rows) tx.

(** What explains the failure of an update that ends in the postings [P]. *)
Definition index_conflict (P : Postings) (e : IndexError) (tx : T) : Prop :=
  some_bitmap_conflict (ids P) e tx \/ (e = IE_Merkle ConflictingBranch /\ term_conflict P tx).

Lemma index_conflict_kind P e tx : index_conflict P e tx -> e = IE_Merkle ConflictingBranch \/ e = ConflictingContent.
Proof using. intros [[t Ht]|[-> _]]; [|by left]. destruct e as [|[]| | | | |]; try (exfalso; exact Ht); auto. Qed.

(** The outcome of an update. *)
Definition index_outcome (tx tx' : T) (r : res IndexError IndexUpdate) (P : Postings) (changes : list PostingChange) : Prop :=
  match r with
  | Ok u => index_state tx' (iu_root u) (post P changes) /\ reports (view tx INDEX) (view tx' INDEX) (iu_changed_terms u)
  | Err e => index_conflict (post P changes) e tx'
  | _ => False
  end.

Lemma change_term_grouped changes ch : ch ∈ changes -> change_term ch ∈ group_term <$> term_groups (normalize_postings changes).
Proof using.
  intros Hch. destruct (change_grouped changes ch Hch) as (g & c & Hg & Hc & <-). apply list_elem_of_fmap. exists g. split; [|done].
  pose proof (chunk_by_homogeneous _ _ same_term (normalize_postings changes)) as Hh. rewrite Forall_forall in Hh.
  destruct (Hh g Hg) as (a & rest & -> & Hrest). cbn [group_term]. apply elem_of_cons in Hc as [->|Hc]; [done|].
  rewrite Forall_forall in Hrest. by apply Hrest.
Qed.

Lemma groups_ok P changes : postings_wf P -> Forall posting_wf changes ->
  Forall (fun g => group_ok (ids P (group_term g)) g /\ group_term g ∈ change_term <$> changes /\
    ids (post P changes) (group_term g) = set_ids (ids P (group_term g)) (item_posting <$> g)) (term_groups (normalize_postings changes)).
Proof using.
  intros HP Hw. pose proof (chunk_by_homogeneous _ _ same_term (normalize_postings changes)) as Hh.
  apply Forall_forall. intros g Hg. rewrite Forall_forall in Hh. pose proof (Hh g Hg) as Hhom.
  destruct Hhom as (c & rest & Eg & Hrest). assert (c ∈ g) as Hc by (rewrite Eg; apply list_elem_of_here).
  assert (group_term g = item_term c) as -> by (by rewrite Eg). split_and!.
  - split_and!; [by apply Hh| |by apply (group_sorted changes)]. apply Forall_fmap, Forall_forall. intros x Hx.
    by apply (item_of_change changes Hw), (group_in_batch changes g).
  - destruct (item_of_change changes Hw c (group_in_batch changes g c Hg Hc)) as (_ & ch & Hch & ->).
    apply list_elem_of_fmap. by exists ch.
  - symmetry. by apply (group_ids changes).
Qed.

Lemma Index_apply_ok tx root P changes : index_state tx root P -> Forall posting_wf changes ->
  distinct_terms (view tx INDEX) (change_term <$> changes) ->
  let '(r, tx') := Index_apply root changes tx in
  (forall tb, tb ∉ index_tables -> view tx' tb = view tx tb) /\ (~ clash tx' -> index_outcome tx tx' r P changes).
Proof using RO HL WL.
  intros [HP Hrows Htrie] Hw Hd. unfold Index_apply. set (items := normalize_postings changes).
  assert (Hloop : iwp (some_bitmap_conflict (ids (post P changes))) (fun changed tx' => terms_changed tx' (view tx INDEX) (ids (post P changes)) (group_term <$> term_groups items) changed)
    (apply_terms root (term_groups items)) tx).
  { apply (apply_terms_ok tx root (ids P) _ _ (change_term <$> changes)); [done..|by apply groups_ok|].
    apply (chunk_by_sorted _ _ same_term items (proj1 (items_sorted changes))). }
  unfold mbind at 1, stres_mbind at 1. change (chunk_by _ items) with (term_groups items).
  unfold iwp in Hloop. destruct (apply_terms root (term_groups items) tx) as [r tx1]. destruct Hloop as [Hg1 Hr].
  assert (Hsame1 : forall tb, tb ∉ index_tables -> view tx1 tb = view tx tb).
  { intros tb Hn. apply Hg1; intros ->; apply Hn; unfold index_tables; rewrite !elem_of_cons; tauto. }
  destruct r as [changed|e| |].
  2: { split; [done|]. intros Hc. left. by apply Hr. }
  2, 3: split; [done|]; intros Hc; by specialize (Hr Hc).
  unfold mbind at 1, stres_mbind at 1. destruct Htrie as (m & Hm & Hk).
  assert (Hm1 : term_trie tx1 root m) by (eapply represents_mono; [|exact Hm]; by rewrite (gr_others _ _ Hg1)).
  pose proof (index_set_ok tx1 root m changed Hm1 (index_edits_wf changed)) as Hset.
  destruct (index_set root changed tx1) as [r2 tx2]. destruct Hset as [Ho2 Hr2].
  assert (Hclash2 : ~ clash tx2 -> ~ clash tx1) by (unfold clash; by rewrite !Ho2).
  assert (Hterms : forall t, t ∈ group_term <$> term_groups items -> t ∈ change_term <$> changes).
  { intros t (g & -> & Hin)%list_elem_of_fmap. pose proof (groups_ok P changes HP Hw) as Hg. rewrite Forall_forall in Hg. by apply Hg. }
  assert (Hposted : ~ clash tx1 -> forall t, posted_as tx1 (edit_map (view tx INDEX) (root_changes changed) !! t) (ids (post P changes) t)).
  { intros Hc1 t. specialize (Hr Hc1). rewrite edit_map_lookup. destruct (last_write t (root_changes changed)) as [o|] eqn:E.
    - by apply (root_changes_write _ _ _ _ _ Hr), (root_changes_elem _ _ _ _ _ Hr) in E as (_ & _ & _ & _ & _ & _ & ?).
    - destruct (decide (t ∈ group_term <$> term_groups items)) as [Ht|Ht]; [by apply (root_changes_none _ _ _ _ _ Hr)|].
      rewrite (no_change_ids changes Hw P t HP); [by eapply posted_as_mono|].
      intros ch Hch <-. apply Ht. by apply change_term_grouped. }
  assert (Hkeyed : ~ clash tx1 -> keyed routing_path term_leaf_hash (edit_map m (index_edit <$> changed)) (edit_map (view tx INDEX) (root_changes changed))).
  { intros Hc1. apply (root_changes_trie _ _ _ _ _ (Hr Hc1)); [|done]. by eapply distinct_terms_sub. }
  destruct r2 as [root'|e| |]; try done.
  2: { split.
    - intros tb Hn. rewrite Ho2; [by apply Hsame1|]. intros ->. apply Hn. unfold index_tables. rewrite !elem_of_cons. tauto.
    - intros Hc%Hclash2. destruct e as [|[]| | | | |]; try done. right. split; [done|].
      exists (edit_map (view tx INDEX) (root_changes changed)). split.
      + intros t. apply (posted_as_sub tx1); [by rewrite Ho2..|by apply Hposted].
      + eapply conflict_ext; [|exact Hr2]. intros l. apply keyed_map_leaves. by apply Hkeyed. }
  unfold mbind at 1, stres_mbind at 1. destruct (write_terms_ok changed tx2) as (tx3 & -> & HI3 & Ho3). cbn [mret stres_mret].
  assert (HI : view tx3 INDEX = edit_map (view tx INDEX) (root_changes changed)).
  { rewrite HI3, Ho2 by done. by rewrite (grows_index _ _ Hg1). }
  split.
  { intros tb Hn. rewrite Ho3, Ho2 by (intros ->; apply Hn; unfold index_tables; rewrite !elem_of_cons; tauto). by apply Hsame1. }
  intros Hc3. assert (Hc1 : ~ clash tx1) by (apply Hclash2; revert Hc3; unfold clash; by rewrite !Ho3).
  specialize (Hr Hc1). cbn [index_outcome iu_root iu_changed_terms].
  split; [split|by apply (reports_rows tx1 _ _ _ _ _ Hr)].
  - by apply post_wf.
  - intros t. rewrite HI. apply (posted_as_sub tx1); [by rewrite Ho3, Ho2..|by apply Hposted].
  - exists (edit_map m (index_edit <$> changed)). split; [|rewrite HI].
    + eapply represents_mono; [|exact Hr2]. by rewrite Ho3.
    + by apply Hkeyed.
Qed.
End IndexState.
