(* ===== verification/IndexReads.v ===== *)
(** Reads of the attribute index against its postings:
    crates/index/src/index/reader.rs and [IndexTrie]'s reopening.

    Over a transaction in [index_state], [Index::bitmap] answers with exactly
    the posted IDs, a scan of terms with exactly the posted terms in its range,
    and [Index::reopen] with the root that commits to the rows. *)
From Stdlib Require Import ZArith Lia.
From S2P Require Import Prelude Ordered Storage Scan CellTypes CellValue CellName MerkleNode MerkleTrie Frame MerkleTree MerkleSpec BranchTypes Term.
From S2P Require Import Bitmap BitmapSpec Index IndexSpec.

(** ** Scans of a native range *)

Lemma between_not_reversed name lo hi r : between name lo hi = Ok (Some r) -> reversed (tr_lower r) (tr_upper r) = false.
Proof.
  unfold between. intros Hb. apply res_bind_ok in Hb as (ty & _ & Hb). apply res_bind_ok in Hb as (? & _ & Hb).
  apply res_bind_ok in Hb as (prefix & _ & Hb). apply res_bind_ok in Hb as (lower & _ & Hb).
  apply res_bind_ok in Hb as (upper & _ & Hb). injection Hb as Hb. destruct (empty_range lower upper) eqn:E; [done|].
  injection Hb as <-. cbn [tr_lower tr_upper]. unfold reversed. destruct lower, upper; cbn in E |- *; try done;
    apply ltb_false; apply leb_false in E; by apply klt_kle.
Qed.

Section Reads.
Context `{Roaring} {RO : RoaringLaws} `{HashProvider} {HL : HashLaws}.
Context {T : Type} `{WT : WriteTransaction T} {RL : ReadLaws T} {WL : WriteLaws T}.

(** ** Bitmaps *)

Lemma Index_bitmap_ok tx root P term n fuel : index_state tx root P -> ~ clash tx ->
  size (occupied_paths (ids P term)) < n -> 2 * size (occupied_paths (ids P term)) + 1 < fuel ->
  Index_bitmap n fuel tx term = Ok (if decide (ids P term = ∅) then None else Some (ids P term)).
Proof using RO HL.
  intros [HP Hrows _] Hc Hn Hfuel. specialize (Hrows term). unfold Index_bitmap.
  rewrite (bitmap_root_ok tx term (ids P term)) by done. unfold mbind, res_mbind.
  pose proof (posted_row _ _ _ Hrows) as Hnone. destruct (view tx INDEX !! term) as [h|].
  - rewrite (bitmap_at_ok tx h (ids P term)) by done. rewrite decide_False; [done|]. intros E. by apply Hnone in E.
  - rewrite decide_True; [done|]. by apply Hnone.
Qed.

(** ** Scans of terms *)

(** Every row of the table decodes as it is. *)
Lemma index_row_ok tx root P term h : index_state tx root P -> ~ clash tx -> view tx INDEX !! term = Some h ->
  term_decode term = Ok term /\ decode_root h = Ok h /\ exists id, (term, id) ∈ P.
Proof using HL.
  intros [HP Hrows _] Hc Ht. specialize (Hrows term). pose proof (posted_row _ _ _ Hrows) as Hne. rewrite Ht in Hrows, Hne.
  assert (ids P term <> ∅) as Hids by (intros E; by apply Hne in E). apply ids_nonempty in Hids as [id Hid].
  split_and!; [by apply HP in Hid as [? _]|by eapply posted_decode|by exists id].
Qed.

Lemma TermScan_collect_ok fuel (s : Scan T) rows : Scan_collect fuel s = Ok rows ->
  Forall (fun row => term_decode row.1 = Ok row.1 /\ decode_root row.2 = Ok row.2) rows ->
  TermScan_collect fuel {| ts_scan := s; ts_done := false |} = Ok rows.
Proof using.
  revert s rows. induction fuel as [|fuel IH]; intros s rows Hs Hrows; [done|]. cbn [Scan_collect] in Hs.
  cbn [TermScan_collect]. unfold TermScan_next. cbn [ts_done ts_scan].
  destruct (Scan_next s) as [[row|] s']; [|by injection Hs as <-]. destruct row as [[key value]|e| |]; try done.
  apply res_bind_ok in Hs as (rest & Hrest & [= <-]). apply Forall_cons in Hrows as [[Hk Hv] Hrows]. cbn in Hk, Hv.
  unfold mbind, res_mbind. cbn [map_err]. rewrite Hk. cbn [map_err]. rewrite Hv. by rewrite (IH s' rest).
Qed.

(** The rows of the terms with a property, in order. *)
Lemma index_rows_ok tx root P rows : index_state tx root P -> ~ clash tx ->
  (forall k v, (k, v) ∈ rows -> view tx INDEX !! k = Some v) ->
  Forall (fun row => term_decode row.1 = Ok row.1 /\ decode_root row.2 = Ok row.2) rows.
Proof using HL.
  intros Hst Hc Hin. apply Forall_forall. intros [k v] Hk%Hin. by destruct (index_row_ok tx root P k v Hst Hc Hk) as (? & ? & _).
Qed.

Lemma Index_terms_ok tx root P r : index_state tx root P -> ~ clash tx -> reversed (tr_lower r) (tr_upper r) = false ->
  exists s, Index_terms tx r = Ok s /\ forall fuel, size (view tx INDEX) < fuel ->
    TermScan_collect fuel s = Ok (range (tr_lower r) (tr_upper r) (view tx INDEX)).
Proof using HL.
  intros Hst Hc Hr. pose proof (scan_collect tx INDEX (tr_lower r) (tr_upper r) table_ok_INDEX) as Hscan. rewrite Hr in Hscan.
  destruct Hscan as (s & Es & Hcol). unfold Index_terms. cbn [TermRange_bounds]. unfold TermRange_bounds. rewrite Es.
  eexists. split; [done|]. intros fuel Hf. apply TermScan_collect_ok; [by apply Hcol|].
  apply (index_rows_ok tx root P); [done..|]. by intros k v [? _]%elem_of_range.
Qed.

Lemma terms_with_prefix_ok tx root P prefix : index_state tx root P -> ~ clash tx ->
  exists s, terms_with_prefix tx prefix = Ok s /\ forall fuel, size (view tx INDEX) < fuel ->
    TermScan_collect fuel s = Ok (prefix_rows prefix (view tx INDEX)).
Proof using HL.
  intros Hst Hc. destruct (scan_prefix_collect tx INDEX prefix table_ok_INDEX) as (s & Es & Hcol).
  unfold terms_with_prefix. rewrite Es. eexists. split; [done|]. intros fuel Hf. apply TermScan_collect_ok; [by apply Hcol|].
  apply (index_rows_ok tx root P); [done..|]. intros k v [_ Hin]%list_elem_of_filter. by apply elem_of_entries in Hin.
Qed.

(** ** Reopening *)

Lemma Index_reopen_ok tx root P : index_state tx root P -> ~ clash tx -> distinct_terms (view tx INDEX) [] ->
  (root <> REmpty -> RootRef_hash root <> hash []) ->
  (forall l, root = RLeaf l -> view tx INDEX_TRIE !! lf_hash l = None) ->
  Index_reopen tx (RootRef_hash root) = Ok root.
Proof using HL.
  intros Hst Hc Hd Hne Hleaf. pose proof (is_trie _ _ _ Hst) as (m & Hm & Hk). unfold Index_reopen.
  destruct (cursor_spec tx INDEX [] table_ok_INDEX) as (c & Ec & Hat).
  destruct (next_spec c _ _ Hat) as (c1 & E1 & Hat1).
  destruct root as [|l|h]; cbn [RootRef_hash] in *.
  - rewrite bool_decide_true by done. unfold mbind, res_mbind. rewrite Ec. cbn [map_err]. rewrite E1. cbn [fst map_err].
    apply represents_nil in Hm as ->. apply keyed_none in Hk as Hrows. by rewrite Hrows, empty_rows.
  - rewrite bool_decide_false by (by apply Hne). unfold mbind, res_mbind. rewrite get_spec, Hleaf by done. cbn [map_err].
    rewrite Ec. cbn [map_err]. rewrite E1. apply represents_leaf in Hm as ->.
    destruct (keyed_one _ _ _ _ _ Hk) as (t & b & Hrows & Ep & Eh).
    { intros t1 t2 A1 A2. apply Hd; by left. }
    rewrite Hrows in E1, Hat1, Hat. destruct (singleton_rows t b) as [R1 R2]. rewrite Hrows, R1 in *. cbn [moved_to] in Hat1.
    destruct (next_spec c1 _ _ Hat1) as (c2 & E2 & _). rewrite E2, R2. cbn [fst map_err].
    destruct (index_row_ok tx (RLeaf l) P t b Hst Hc) as (Edec & Eroot & _); [by rewrite Hrows, lookup_singleton_eq|].
    rewrite Edec. cbn [map_err]. rewrite Eroot. destruct l as [lp lh]. cbn in Ep, Eh. subst lp lh. by rewrite bool_decide_true.
  - rewrite bool_decide_false by (by apply Hne). unfold mbind, res_mbind. rewrite get_spec by done. cbn [map_err].
    destruct (represents_branch _ _ _ index_width table_ok_INDEX_TRIE tx h m Hm) as [[row ->] Hval]. cbn [map_err]. by rewrite Hval.
Qed.
End Reads.
