(* ===== verification/IndexClaims.v ===== *)
(** The properties of the attribute index, with concrete instances of each. *)
From Stdlib Require Import ZArith Lia.
From S2P Require Import Prelude Ordered Storage Scan CellTypes CellValue CellName MerkleNode MerkleTrie Frame MerkleTree MerkleSpec Samples BranchTypes Term.
From S2P Require Import Bitmap BitmapSpec Index IndexSpec IndexReads.

(** A digest check for concrete transactions. *)
Definition clash_free {T : Type} `{ReadLaws T} `{HashProvider} (tx : T) : bool :=
  forallb (fun kv => bool_decide (view tx BITMAP_TRIE !! kv.1 = None)) (map_to_list (view tx BITMAP_CONTAINER)) &&
  bool_decide (view tx BITMAP_CONTAINER !! hash [] = None) && bool_decide (view tx BITMAP_TRIE !! hash [] = None).

Lemma clash_free_ok {T : Type} `{ReadLaws T} `{HashProvider} (tx : T) : clash_free tx = true -> ~ clash tx.
Proof.
  unfold clash_free. rewrite !andb_true_iff, forallb_forall, !bool_decide_eq_true. intros [[Hall Hc] Hb].
  intros [(h & [v Hv] & Hbr)|[Hx|Hx]]; [|rewrite Hc in Hx; by destruct Hx|rewrite Hb in Hx; by destruct Hx].
  specialize (Hall (h, v)). rewrite bool_decide_eq_true in Hall. cbn in Hall. rewrite Hall in Hbr; [by destruct Hbr|].
  apply list_elem_of_In, elem_of_map_to_list. exact Hv.
Qed.

Section Claims.
Context `{Roaring} {RO : RoaringLaws} `{HashProvider} {HL : HashLaws}.
Context {T : Type} `{WT : WriteTransaction T} {RL : ReadLaws T} {WL : WriteLaws T}.

(** C11. [Index::apply] refines a set of postings: started from a state whose
    rows, bitmaps and term trie say exactly [P], it ends in one that says
    exactly [P] after the changes (in any order, the last of a posting wins),
    and reports each row that changed with its old and new bitmap root, and
    no other. It touches only the index tables. Two exceptions: a store that ends
    with one digest for a container and a branch, or for one of them and the
    empty trie, is left out ([clash]); and the operation may fail with a conflict,
    and then a container or a branch of the tries it was to make, those of the
    changed postings, has its digest taken by another row. *)
Theorem index_apply_refines_postings tx root P changes :
  index_state tx root P -> Forall posting_wf changes -> distinct_terms (view tx INDEX) (change_term <$> changes) ->
  let '(r, tx') := Index_apply root changes tx in
  (forall tb, tb ∉ index_tables -> view tx' tb = view tx tb) /\ (~ clash tx' -> index_outcome tx tx' r P changes).
Proof using RO HL WL. apply Index_apply_ok. Qed.

(** C13. [BitmapTrie::apply] refines a set of record IDs: from a row that stands
    for [B] (none for the empty set) it returns the row of the updated set,
    none exactly when that is empty; and reading that row back, with fuel for
    its containers, assembles exactly the updated set. A failure is a conflict:
    a container or a branch of the updated set's trie has its digest taken by
    another row. *)
Theorem bitmap_update_refines_set tx before B changes n fuel :
  posted_as tx before B -> Forall posting_ok changes ->
  StronglySorted (fun a b : Posting => kle a.1.1 b.1.1) changes ->
  size (occupied_paths (set_ids B changes)) < n -> 2 * size (occupied_paths (set_ids B changes)) + 1 < fuel ->
  iwp (bitmap_conflict (set_ids B changes)) (fun after tx' => match after with
       | None => set_ids B changes = ∅
       | Some h => set_ids B changes <> ∅ /\ (~ clash tx' -> bitmap_at n fuel tx' h = Ok (set_ids B changes))
       end) (bitmap_apply before changes) tx.
Proof using RO HL WL.
  intros Hb Hok Hs Hn Hf. eapply iwp_mono; [by apply (bitmap_apply_ok tx before B)|]. intros after tx' _ Hpost. cbv beta in Hpost.
  pose proof (posted_row _ _ _ Hpost) as Hrow. destruct after as [h|]; [|done]. split; [intros E; by apply Hrow in E|].
  intros Hc. by apply bitmap_at_ok.
Qed.

(** C24. Reads answer from the postings: [Index::bitmap] returns exactly the IDs
    posted under a term and none when there are none; [Index::reopen] finds the
    root that commits to the rows; and scanning a native range yields, in term
    order, exactly the posted terms of the attribute's type with a payload
    between the bounds. *)
Theorem index_reads_postings tx root P :
  index_state tx root P -> ~ clash tx ->
  (forall term n fuel, size (occupied_paths (ids P term)) < n -> 2 * size (occupied_paths (ids P term)) + 1 < fuel ->
    Index_bitmap n fuel tx term = Ok (if decide (ids P term = ∅) then None else Some (ids P term))) /\
  (distinct_terms (view tx INDEX) [] -> (root <> REmpty -> RootRef_hash root <> hash []) ->
    (forall l, root = RLeaf l -> view tx INDEX_TRIE !! lf_hash l = None) -> Index_reopen tx (RootRef_hash root) = Ok root) /\
  (forall name ty lo hi r, user_name name -> ty <> Bytes ->
    (forall v, bound_value lo = Some v \/ bound_value hi = Some v -> cr_ty v = ty) -> between name lo hi = Ok (Some r) ->
    exists s rows, Index_terms tx r = Ok s /\
      (forall fuel, size (view tx INDEX) < fuel -> TermScan_collect fuel s = Ok rows) /\ StronglySorted klt rows.*1 /\
      forall t, t ∈ rows.*1 <-> exists value id, t = run_of name ty ++ value /\ (t, id) ∈ P /\
        above (bound_map cr_value lo) value = true /\ below (bound_map cr_value hi) value = true).
Proof using RO HL WL.
  intros Hst Hc. split_and!; [by intros; eapply Index_bitmap_ok|by intros; eapply Index_reopen_ok|].
  intros name ty lo hi r Hn Hty Hall Hb.
  destruct (Index_terms_ok tx root P r Hst Hc (between_not_reversed _ _ _ _ Hb)) as (s & Es & Hcol).
  exists s, (range (tr_lower r) (tr_upper r) (view tx INDEX)). split_and!; [done..|apply range_sorted|].
  assert (is_Some (bound_value lo) \/ is_Some (bound_value hi)) as Hsome.
  { unfold between in Hb. destruct (bound_value lo), (bound_value hi); try done; eauto. }
  destruct (between_ok name ty lo hi Hn Hty Hsome Hall) as (r' & Er' & Hadm). rewrite Hb in Er'. injection Er' as <-.
  intros t. specialize (Hadm t). cbn [admits] in Hadm. rewrite andb_true_iff in Hadm. rewrite list_elem_of_fmap. split.
  - intros ([k h] & -> & Hin). cbn [fst] in *. apply elem_of_range in Hin as (Hk & Ha & Hbl). destruct (proj1 Hadm (conj Ha Hbl)) as (value & -> & Q1 & Q2).
    destruct (index_row_ok tx root P _ h Hst Hc Hk) as (_ & _ & id & Hid). by exists value, id.
  - intros (value & id & -> & Hid & Q1 & Q2). destruct (proj2 Hadm) as [Ha Hbl]; [by exists value|].
    pose proof (posted_row _ _ _ (is_rows _ _ _ Hst (run_of name ty ++ value))) as Hrow.
    destruct (view tx INDEX !! (run_of name ty ++ value)) as [h|] eqn:Eh.
    + exists (run_of name ty ++ value, h). split; [done|]. by apply elem_of_range.
    + exfalso. destruct Hrow as [Hrow _]. assert (id ∈ ids P (run_of name ty ++ value)) as Hin by (by apply elem_of_ids).
      rewrite Hrow in Hin by done. by apply elem_of_empty in Hin.
Qed.
End Claims.

(** ** Concrete instances *)

Definition price_term (v : Z) : IndexTerm := run_of price_name (Int W4) ++ CellValue_value (from_i32 v).

(** Two records with a price, one of them priced again. *)
Definition sample_postings : list PostingChange :=
  [PostingAdd (price_term 5) 70; PostingAdd (price_term (-3)) 65; PostingRemove (price_term 5) 70; PostingAdd (price_term 5) 70;
   PostingAdd (price_term 5) 200000].

Lemma sample_postings_wf : Forall posting_wf sample_postings.
Proof. repeat constructor; cbn; lia. Qed.

Lemma view_tx0 table : view tx0 table = ∅.
Proof. done. Qed.

Lemma empty_index : index_state tx0 REmpty ∅.
Proof.
  split.
  - intros t id Hin. by apply elem_of_empty in Hin.
  - intros t. cbn. apply set_eq. intros id. rewrite elem_of_ids. set_solver.
  - exists ∅. split; [apply represents_empty|]. intros p h. split; [by rewrite lookup_empty|].
    intros (k & v & Hk & _). by rewrite (view_tx0 INDEX), lookup_empty in Hk.
Qed.

Lemma two_terms (t1 t2 a b : IndexTerm) : routing_path a <> routing_path b -> t1 = a \/ t1 = b -> t2 = a \/ t2 = b ->
  routing_path t1 = routing_path t2 -> t1 = t2.
Proof. intros Hne [-> | ->] [-> | ->] E; congruence. Qed.

Lemma sample_distinct_terms : distinct_terms (view tx0 INDEX) (change_term <$> sample_postings).
Proof.
  assert (forall t, is_Some (view tx0 INDEX !! t) \/ t ∈ change_term <$> sample_postings -> t = price_term 5 \/ t = price_term (-3)) as Ht.
  { intros t [[v Hv]|Hin]; [by rewrite (view_tx0 INDEX), lookup_empty in Hv|]. cbn in Hin. rewrite !elem_of_cons, elem_of_nil in Hin. tauto. }
  intros t1 t2 A1%Ht A2%Ht. apply (two_terms t1 t2 (price_term 5) (price_term (-3))); [by vm_compute|done..].
Qed.

(** The transaction after the sample update. *)
Definition sample_update : res IndexError IndexUpdate * MemoryTx := Index_apply REmpty sample_postings tx0.
Definition sample_index : MemoryTx := snd sample_update.
Definition sample_index_root : RootRef := match fst sample_update with Ok u => iu_root u | _ => REmpty end.

Lemma sample_index_clear : ~ clash sample_index.
Proof. apply clash_free_ok. by vm_compute. Qed.

Lemma sample_update_ok : is_ok (fst sample_update) = true.
Proof. by vm_compute. Qed.

Lemma sample_index_state : index_state sample_index sample_index_root (post ∅ sample_postings).
Proof.
  pose proof (Index_apply_ok tx0 REmpty ∅ sample_postings empty_index sample_postings_wf sample_distinct_terms) as Hok.
  pose proof sample_update_ok as Hr. pose proof sample_index_clear as Hc. unfold sample_index, sample_index_root in *.
  change (Index_apply REmpty sample_postings tx0) with sample_update in Hok. destruct sample_update as [[u|e| |] tx']; try discriminate Hr.
  destruct Hok as [_ Hok]. by destruct (Hok Hc).
Qed.

Lemma index_apply_refines_postings_witness :
  is_ok (Index_apply REmpty sample_postings tx0).1 = true /\
  index_state sample_index sample_index_root (post ∅ sample_postings) /\ view sample_index "Cell" = view tx0 "Cell".
Proof.
  pose proof (index_apply_refines_postings tx0 REmpty ∅ sample_postings empty_index sample_postings_wf sample_distinct_terms) as Hok.
  pose proof sample_update_ok as Hr. pose proof sample_index_clear as Hc. unfold sample_index, sample_index_root in *.
  change (Index_apply REmpty sample_postings tx0) with sample_update in *. destruct sample_update as [[u|e| |] tx']; try discriminate Hr.
  destruct Hok as [Ho Hok]. split_and!; [done|by destruct (Hok Hc)|]. apply Ho. unfold index_tables. rewrite !elem_of_cons, elem_of_nil.
  intros E. repeat destruct E as [E|E]; done.
Defined.

(** A set of two containers built in one batch, then read back. *)
Definition sample_batch : list Posting := [(0, 5, true); (0, 9, true); (0, 5, false); (3, 2, true)]%Z.

Lemma bitmap_update_refines_set_witness :
  exists h tx', bitmap_apply None sample_batch tx0 = (Ok (Some h), tx') /\ bitmap_at 3 6 tx' h = Ok {[9; 196610]}%Z.
Proof.
  assert (Hs : StronglySorted (fun a b : Posting => kle a.1.1 b.1.1) sample_batch) by (repeat constructor; by vm_compute).
  assert (Hok : Forall posting_ok sample_batch) by (repeat constructor; by vm_compute).
  assert (Hset : set_ids ∅ sample_batch = {[9; 196610]}%Z) by (by vm_compute).
  assert (Hn : size (occupied_paths (set_ids ∅ sample_batch)) < 3 /\ 2 * size (occupied_paths (set_ids ∅ sample_batch)) + 1 < 6)
    by (vm_compute; lia).
  pose proof (bitmap_update_refines_set tx0 None ∅ sample_batch 3 6 eq_refl Hok Hs (proj1 Hn) (proj2 Hn)) as Hb.
  assert (Hrun : match bitmap_apply None sample_batch tx0 with (Ok (Some _), tx') => clash_free tx' | _ => false end = true) by (by vm_compute).
  unfold iwp in Hb. destruct (bitmap_apply None sample_batch tx0) as [[[h|]|e| |] tx']; try discriminate Hrun.
  apply clash_free_ok in Hrun. destruct Hb as [_ Hb]. destruct (Hb Hrun) as [_ Hread]. exists h, tx'. split; [reflexivity|].
  rewrite <- Hset. exact (Hread Hrun).
Defined.

Lemma index_reads_postings_witness :
  Index_bitmap 3 6 sample_index (price_term 5) = Ok (Some {[70; 200000]}%Z) /\
  Index_bitmap 3 6 sample_index (price_term 9) = Ok None /\
  exists r s rows, between price_name (Included (as_view (from_i32 (-5)))) (Excluded (as_view (from_i32 5))) = Ok (Some r) /\
    Index_terms sample_index r = Ok s /\ TermScan_collect 9 s = Ok rows /\ price_term (-3) ∈ rows.*1.
Proof.
  destruct (index_reads_postings sample_index sample_index_root _ sample_index_state sample_index_clear) as (Hb & _ & Hscan).
  assert (Hids : ids (post ∅ sample_postings) (price_term 5) = {[70; 200000]}%Z /\ ids (post ∅ sample_postings) (price_term 9) = ∅) by (by vm_compute).
  destruct Hids as [H5 H9]. split_and!.
  - rewrite Hb; rewrite H5; [reflexivity|vm_compute; lia..].
  - rewrite Hb; rewrite H9; [reflexivity|vm_compute; lia..].
  - assert (Hr : exists r, between price_name (Included (as_view (from_i32 (-5)))) (Excluded (as_view (from_i32 5))) = Ok (Some r)).
    { eexists. vm_compute. reflexivity. }
    destruct Hr as [r Er]. exists r.
    destruct (Hscan price_name (Int W4) (Included (as_view (from_i32 (-5)))) (Excluded (as_view (from_i32 5))) r) as (s & rows & Es & Hcol & Hsorted & Hin).
    + vm_compute. tauto.
    + done.
    + intros v [[= <-]|[= <-]]; reflexivity.
    + exact Er.
    + exists s, rows. split; [exact Er|]. split; [exact Es|]. split; [apply Hcol; vm_compute; lia|].
      apply Hin. exists (CellValue_value (from_i32 (-3))), 65%Z. split; [reflexivity|].
      split; [apply (proj1 (bool_decide_eq_true _)); vm_compute; reflexivity|]. split; vm_compute; reflexivity.
Defined.
