(* ===== verification/Seal.v ===== *)
(** The durable head, sealing and publication:
    crates/branch/src/{head,seal,commit}.rs.

    [compute] runs the cell and index updates of a branch over a write buffer
    and keeps the buffered rows; [persist] replays them under a writer, after
    checking that the head is still the branch's origin. *)
From Stdlib Require Import ZArith Lia.
From S2P Require Import Prelude Ordered Storage Scan CellTypes CellValue CellName MerkleNode MerkleTrie Frame MerkleSpec.
From S2P Require Import BranchTypes CellScan Overlay Cells Buffer Term Bitmap Index Samples.

#[local] Open Scope Z_scope.

(** The order of table names: their UTF-8 bytes. *)
#[global] Instance Table_ordered : Ordered Table := cmp_via String.list_byte_of_string.
#[global] Instance Table_ordered_laws : OrderedLaws Table.
Proof.
  apply cmp_via_laws. intros a b E. rewrite <- (String.string_of_list_byte_of_string a), E.
  apply String.string_of_list_byte_of_string.
Qed.

(** * The head row: head.rs *)

Definition SUPERBLOCK : Table := "Superblock".
Definition HEAD_KEY : bytes := of_string "head".
Definition HEAD_BYTES : nat := 8 + 32 + 32.

Record Head := { hd_commit_id : CommitId; hd_state_root : Hash; hd_index_root : Hash }.

Definition GENESIS : CommitId := {| commit_number := 0 |}.

Section HeadRow.
Context {T : Type} `{ReadTransaction T}.

(** [read_head_state] *)
Definition read_head_state (tx : T) : res BranchError Head :=
  row ← map_err BE_Storage (tx_get tx SUPERBLOCK HEAD_KEY);
  row ← ok_or row MissingHead;
  if negb (length row =? HEAD_BYTES)%nat then Err (InvalidHead (length row))
  else Ok {| hd_commit_id := {| commit_number := be_decode (take 8 row) |};
             hd_state_root := take 32 (drop 8 row);
             hd_index_root := drop 40 row |}.

(** [read_head] *)
Definition read_head (tx : T) : res BranchError CommitId :=
  head ← read_head_state tx;
  Ok (hd_commit_id head).
End HeadRow.

(** The row of a head. *)
Definition head_row (head : Head) : bytes :=
  be_encode 8 (commit_number (hd_commit_id head)) ++ hd_state_root head ++ hd_index_root head.

(** [write_head]: [copy_from_slice] panics unless a root fills its 32 bytes. *)
Definition write_head {T : Type} `{WriteTransaction T} (head : Head) : stres T BranchError unit :=
  if (length (hd_state_root head) =? 32)%nat && (length (hd_index_root head) =? 32)%nat
  then st_map_err BE_Storage (tx_put SUPERBLOCK HEAD_KEY (head_row head))
  else lift_res Panic.

(** * Sealing: seal.rs *)

Record SealedCommit := {
  sl_commit_id : CommitId;
  sl_state_root : Hash;
  sl_index_root : Hash;
  sl_cells : CellsUpdate;
  sl_index : IndexUpdate;
  sl_writes : Writes
}.

(** [u64::checked_add(1)] *)
Definition checked_succ (x : Z) : option Z := if x <? 2 ^ 64 - 1 then Some (x + 1) else None.

(** [term] *)
Definition cell_term (key : CellKey) (value : option CellValue) : res BranchError (option IndexTerm) :=
  match value with
  | Some value =>
      if CellValue_is_indexable value
      then t ← map_err BE_Term (from_cell_name (ck_name key) (as_view value)); Ok (Some t)
      else Ok None
  | None => Ok None
  end.

(** The postings of the changed cells. *)
Fixpoint cell_postings (changes : list CellValueChange) : res BranchError (list PostingChange) :=
  match changes with
  | [] => Ok []
  | change :: changes =>
      before ← cell_term (vc_key change) (vc_before change);
      after ← cell_term (vc_key change) (vc_after change);
      rest ← cell_postings changes;
      if bool_decide (before = after) then Ok rest
      else
        let record_id := ck_record_id (vc_key change) in
        Ok (match before with Some t => [PostingRemove t record_id] | None => [] end ++
            match after with Some t => [PostingAdd t record_id] | None => [] end ++ rest)
  end.

(** The cell that records a head's roots. *)
Definition roots_key (commit : CommitId) : CellKey :=
  {| ck_record_id := sr_id ROOTS; ck_name := be_encode 8 (commit_number commit) |}.
Definition roots_value (head : Head) : res BranchError CellValue :=
  v ← map_err BE_Value (CellValueRef_new Bytes (hd_state_root head ++ hd_index_root head) false);
  Ok (to_owned v).

Section Seal.
Context `{Roaring} `{HashProvider} {T : Type} `{ReadTransaction T}.

(** [compute]: the buffer starts empty and is read back on success only. *)
Definition compute (origin : T) (overlay : CellOverlay) : res BranchError SealedCommit :=
  head ← read_head_state origin;
  number ← ok_or (checked_succ (commit_number (hd_commit_id head))) CommitNumberExhausted;
  cell_root ← map_err BE_Cells (Cells_reopen origin (hd_state_root head));
  index_root ← map_err BE_Index (Index_reopen origin (hd_index_root head));
  let key := roots_key (hd_commit_id head) in
  existing ← map_err BE_Storage (tx_get origin CELL (CellKey_encode key));
  match existing with
  | Some _ => Err RootsCellExists
  | None =>
      value ← roots_value head;
      let changes := CellOverlay_changes overlay ++ [Put key value] in
      let '(result, tx) :=
        (cells_update ← st_map_err BE_Cells (Cells_apply cell_root changes);
         postings ← lift_res (cell_postings (cu_changed_cells cells_update));
         index_update ← st_map_err BE_Index (Index_apply index_root postings);
         mret (cells_update, index_update)) (Buffered_new origin) in
      '(cells_update, index_update) ← result;
      Ok {| sl_commit_id := {| commit_number := number |};
            sl_state_root := RootRef_hash (cu_root cells_update);
            sl_index_root := RootRef_hash (iu_root index_update);
            sl_cells := cells_update;
            sl_index := index_update;
            sl_writes := into_writes tx |}
  end.
End Seal.

(** * Publication: commit.rs *)

Section Persist.
Context {T : Type} `{WriteTransaction T}.

Fixpoint replay_rows (table : Table) (rows : list (bytes * option bytes)) : stres T BranchError unit :=
  match rows with
  | [] => mret ()
  | (key, value) :: rows =>
      _ ← st_map_err BE_Storage
            match value with
            | Some value => tx_put table key value
            | None => _ ← tx_delete table key; mret ()
            end;
      replay_rows table rows
  end.

Fixpoint replay (writes : list (Table * StagedRows)) : stres T BranchError unit :=
  match writes with
  | [] => mret ()
  | (table, rows) :: writes => _ ← replay_rows table (entries rows); replay writes
  end.

(** [stage]; tables in name order *)
Definition stage_commit (origin : CommitId) (sealed : SealedCommit) : stres T BranchError unit :=
  head ← reading read_head;
  if negb (bool_decide (head = origin)) then lift_res (Err Conflict)
  else
    _ ← replay (entries (sl_writes sealed));
    write_head {| hd_commit_id := sl_commit_id sealed;
                  hd_state_root := sl_state_root sealed;
                  hd_index_root := sl_index_root sealed |}.

(** [persist], over a store: the writer is dropped unless it commits. *)
Definition persist {S : Type} `{Store S T} (tx : T) (origin : CommitId) (sealed : SealedCommit) : stres S BranchError CommitId := fun s =>
  match stage_commit origin sealed tx with
  | (Ok _, tx) =>
      match tx_commit tx s with
      | (Ok _, s) => (Ok (sl_commit_id sealed), s)
      | (Err e, s) => (Err (BE_Storage e), s)
      | (Panic, s) => (Panic, s)
      | (Diverge, s) => (Diverge, s)
      end
  | (Err e, tx) => (Err e, tx_abort tx s)
  | (Panic, tx) => (Panic, tx_abort tx s)
  | (Diverge, tx) => (Diverge, tx_abort tx s)
  end.
End Persist.

(** * Lemmas *)

(** ** The head row *)

Definition head_wf (head : Head) : Prop :=
  uint_range 8 (commit_number (hd_commit_id head)) /\
  length (hd_state_root head) = 32%nat /\ length (hd_index_root head) = 32%nat.

(** The head a row holds. *)
Definition head_of (row : option bytes) : res BranchError Head :=
  row ← ok_or row MissingHead;
  if negb (length row =? HEAD_BYTES)%nat then Err (InvalidHead (length row))
  else Ok {| hd_commit_id := {| commit_number := be_decode (take 8 row) |};
             hd_state_root := take 32 (drop 8 row);
             hd_index_root := drop 40 row |}.

Lemma length_head_row h : head_wf h -> length (head_row h) = HEAD_BYTES.
Proof. intros (_ & Hs & Hi). unfold head_row. rewrite !length_app, length_be_encode, Hs, Hi. done. Qed.

Lemma head_of_row h : head_wf h -> head_of (Some (head_row h)) = Ok h.
Proof.
  intros Hh. unfold head_of, mbind, res_mbind. cbn [ok_or]. rewrite length_head_row, Nat.eqb_refl by done. cbn [negb].
  destruct h as [[c] s i], Hh as (Hc & Hs & Hi). cbn in Hc, Hs, Hi. unfold head_row. cbn [hd_commit_id commit_number hd_state_root hd_index_root].
  rewrite take_app_le, take_ge by (rewrite length_be_encode; done). rewrite be_decode_encode by done.
  rewrite !drop_app, length_be_encode. rewrite (drop_ge (be_encode 8 c) 8), (drop_ge (be_encode 8 c) 40) by (rewrite length_be_encode; lia).
  change (40 - 8)%nat with 32%nat. change (8 - 8)%nat with 0%nat. rewrite Hs. change (32 - 32)%nat with 0%nat.
  rewrite !drop_0, (drop_ge s 32), !app_nil_l by lia. rewrite take_app_le, take_ge by lia. done.
Qed.

Lemma head_of_inv row h : head_of row = Ok h -> head_wf h /\ row = Some (head_row h).
Proof.
  unfold head_of. intros Hb. apply res_bind_ok in Hb as (r & Hr & Hb). destruct row as [row|]; [|done]. injection Hr as ->.
  destruct (Nat.eqb_spec (length r) HEAD_BYTES) as [Hl|]; [|done]. injection Hb as <-. unfold HEAD_BYTES in Hl.
  assert (length (take 8 r) = 8%nat) as H8 by (rewrite length_take; lia).
  split.
  - split_and!; cbn.
    + pose proof (be_decode_range (take 8 r)) as Hd. rewrite H8 in Hd. exact Hd.
    + rewrite length_take, length_drop. lia.
    + rewrite length_drop. lia.
  - unfold head_row. cbn [hd_commit_id commit_number hd_state_root hd_index_root]. f_equal.
    assert (be_encode 8 (be_decode (take 8 r)) = take 8 r) as -> by (rewrite <- H8 at 1; apply be_encode_decode).
    rewrite <- (take_drop 8 r) at 1. f_equal. rewrite <- (take_drop 32 (drop 8 r)) at 1. by rewrite drop_drop.
Qed.

Section HeadLaws.
Context {T : Type} `{RL : ReadLaws T}.

Lemma table_ok_SUPERBLOCK : table_ok SUPERBLOCK.
Proof using. done. Qed.

Lemma read_head_state_eq (tx : T) : read_head_state tx = head_of (view tx SUPERBLOCK !! HEAD_KEY).
Proof using. unfold read_head_state. rewrite get_spec by apply table_ok_SUPERBLOCK. done. Qed.

Lemma read_head_eq (tx : T) : read_head tx = head ← head_of (view tx SUPERBLOCK !! HEAD_KEY); Ok (hd_commit_id head).
Proof using. unfold read_head. by rewrite read_head_state_eq. Qed.
End HeadLaws.

(** ** Replaying buffered rows *)

(** The rows a buffer's writes make of a store's. *)
Definition apply_writes (w : Writes) (v : View) : View := fun table => overlay_rows (default ∅ (w !! table)) (v table).

Lemma edit_map_entries (rows : StagedRows) (m : Rows) : edit_map m (entries rows) = overlay_rows rows m.
Proof.
  apply map_eq. intros k. by rewrite edit_map_lookup, overlay_lookup, last_write_entries.
Qed.

Section Replay.
Context {T : Type} `{WT : WriteTransaction T} {RL : ReadLaws T} {WL : WriteLaws T}.

Lemma replay_rows_ok table rows (tx : T) : table_ok table ->
  exists tx', replay_rows table rows tx = (Ok (), tx') /\
    forall tb, view tx' tb = upd_view (view tx) table (edit_map (view tx table) rows) tb.
Proof using WL.
  intros Ht. revert tx. induction rows as [|[k v] rows IH]; intros tx; cbn [replay_rows].
  - exists tx. split; [done|]. intros tb. unfold upd_view. by case_decide; subst.
  - assert (exists tx1, (st_map_err BE_Storage match v with
        | Some value => tx_put table k value
        | None => _ ← tx_delete table k; mret ()
        end : stres T BranchError unit) tx = (Ok (), tx1) /\
      forall tb, view tx1 tb = upd_view (view tx) table (edit_map (view tx table) [(k, v)]) tb) as (tx1 & E1 & V1).
    { destruct v as [v|].
      - destruct (put_spec tx table k v Ht) as (tx1 & E & V). exists tx1. unfold st_map_err. by rewrite E.
      - destruct (delete_spec tx table k Ht) as (tx1 & E & V). exists tx1.
        unfold st_map_err, mbind, stres_mbind. by rewrite E. }
    rewrite (stres_bind_step _ _ _ _ _ E1). destruct (IH tx1) as (tx2 & E2 & V2). exists tx2. split; [exact E2|].
    intros tb. rewrite V2. unfold upd_view in *. rewrite !V1. case_decide; [|done].
    rewrite decide_True by done. by destruct v.
Qed.

Lemma replay_ok (writes : list (Table * StagedRows)) (tx : T) : NoDup writes.*1 -> Forall table_ok writes.*1 ->
  exists tx', replay writes tx = (Ok (), tx') /\
    forall tb, view tx' tb = overlay_rows (default ∅ ((list_to_map writes : Writes) !! tb)) (view tx tb).
Proof using WL.
  revert tx. induction writes as [|[table rows] writes IH]; intros tx Hd Hok; cbn [replay].
  - exists tx. split; [done|]. intros tb. cbn [list_to_map foldr]. rewrite lookup_empty.
    apply map_eq. intros k. rewrite overlay_lookup. cbn [default from_option id]. by rewrite lookup_empty.
  - rewrite fmap_cons in Hd, Hok. apply NoDup_cons in Hd as [Hnot Hd]. apply Forall_cons in Hok as [Ht Hok]. cbn [fst] in *.
    destruct (replay_rows_ok table (entries rows) tx Ht) as (tx1 & E1 & V1).
    destruct (IH tx1 Hd Hok) as (tx2 & E2 & V2). exists tx2. rewrite (stres_bind_step _ _ _ _ _ E1). split; [exact E2|].
    intros tb. rewrite V2, V1. cbn [list_to_map foldr uncurry]. unfold upd_view. destruct (decide (tb = table)) as [->|Hne].
    + rewrite edit_map_entries. rewrite lookup_insert_eq. cbn [default from_option id].
      assert ((list_to_map writes : Writes) !! table = None) as -> by (by apply not_elem_of_list_to_map_1).
      apply map_eq. intros k. rewrite !overlay_lookup. cbn [default from_option id]. by rewrite lookup_empty.
    + by rewrite lookup_insert_ne.
Qed.
End Replay.

(** ** The tables a seal writes *)

Definition seal_tables : list Table := [CELL; CELL_TRIE; INDEX; INDEX_TRIE; BITMAP_TRIE; BITMAP_CONTAINER].

Definition tables_in (w : Writes) : Prop := forall table, is_Some (w !! table) -> table ∈ seal_tables.

Lemma seal_tables_ok table : table ∈ seal_tables -> table_ok table /\ table <> SUPERBLOCK.
Proof. unfold seal_tables. rewrite !elem_of_cons, elem_of_nil. intros [->|[->|[->|[->|[->|[->|[]]]]]]]; done. Qed.

Section Tables.
Context {T : Type} `{ReadTransaction T}.

(** The buffer keeps its snapshot and writes only the sealed tables. *)
Definition stays (b b' : Buffered T) : Prop :=
  bf_origin b' = bf_origin b /\ (tables_in (bf_writes b) -> tables_in (bf_writes b')).

#[local] Instance stays_preorder : PreOrder stays.
Proof. split; [by intros b|]. intros a b c [H1 H2] [H3 H4]. split; [congruence|auto]. Qed.

Lemma stage_stays table k v (b : Buffered T) : table ∈ seal_tables -> stays b (Buffer.stage table k v b).
Proof.
  intros Ht. split; [done|]. intros Hb tb. cbn [Buffer.stage bf_writes]. destruct (decide (tb = table)) as [->|]; [done|].
  rewrite lookup_insert_ne by done. apply Hb.
Qed.

Lemma put_stays table k v (b : Buffered T) : table ∈ seal_tables -> stays b (tx_put table k v b).2.
Proof.
  intros Ht. cbn [tx_put Buffered_write]. unfold Buffered_put. rewrite buffer_validate_ok by (by apply seal_tables_ok).
  by apply stage_stays.
Qed.
Lemma insert_stays table k v (b : Buffered T) : table ∈ seal_tables -> stays b (tx_insert table k v b).2.
Proof.
  intros Ht. cbn [tx_insert Buffered_write]. unfold Buffered_insert.
  destruct (Buffered_get b table k) as [[row|]| | |]; cbn [snd]; try done. by apply put_stays.
Qed.
Lemma delete_stays table k (b : Buffered T) : table ∈ seal_tables -> stays b (tx_delete table k b).2.
Proof.
  intros Ht. cbn [tx_delete Buffered_write]. unfold Buffered_delete.
  destruct (Buffered_get b table k) as [[row|]| | |]; cbn [snd]; try done. by apply stage_stays.
Qed.

Context `{Roaring} `{HashProvider}.

(** The buffered part of [compute]. *)
Definition sealing (cell_root index_root : RootRef) (changes : list CellChange)
    : stres (Buffered T) BranchError (CellsUpdate * IndexUpdate) :=
  cells_update ← st_map_err BE_Cells (Cells_apply cell_root changes);
  postings ← lift_res (cell_postings (cu_changed_cells cells_update));
  index_update ← st_map_err BE_Index (Index_apply index_root postings);
  mret (cells_update, index_update).

Lemma sealing_stays cell_root index_root changes : keeps stays (sealing cell_root index_root changes).
Proof.
  unfold sealing. keeps.
  - apply Cells_apply_keeps; try apply _; intros; first [apply insert_stays|apply put_stays|apply delete_stays];
      unfold seal_tables; set_solver.
  - apply Index_apply_keeps; try apply _; intros; first [apply insert_stays|apply put_stays|apply delete_stays];
      unfold seal_tables; set_solver.
Qed.

Lemma compute_inv (origin : T) overlay sealed : compute origin overlay = Ok sealed ->
  exists h cell_root index_root value cu iu b,
    read_head_state origin = Ok h /\
    checked_succ (commit_number (hd_commit_id h)) = Some (commit_number (sl_commit_id sealed)) /\
    Cells_reopen origin (hd_state_root h) = Ok cell_root /\ Index_reopen origin (hd_index_root h) = Ok index_root /\
    tx_get origin CELL (CellKey_encode (roots_key (hd_commit_id h))) = Ok None /\
    roots_value h = Ok value /\
    sealing cell_root index_root (CellOverlay_changes overlay ++ [Put (roots_key (hd_commit_id h)) value])
      (Buffered_new origin) = (Ok (cu, iu), b) /\
    sealed = {| sl_commit_id := sl_commit_id sealed; sl_state_root := RootRef_hash (cu_root cu);
                sl_index_root := RootRef_hash (iu_root iu); sl_cells := cu; sl_index := iu; sl_writes := bf_writes b |}.
Proof.
  unfold compute. intros Hc. apply res_bind_ok in Hc as (h & Hh & Hc). apply res_bind_ok in Hc as (n & Hn & Hc).
  apply res_bind_ok in Hc as (cr & Hcr%map_err_ok & Hc). apply res_bind_ok in Hc as (ir & Hir%map_err_ok & Hc).
  apply res_bind_ok in Hc as (ex & Hex%map_err_ok & Hc). destruct ex as [|]; [done|].
  apply res_bind_ok in Hc as (value & Hv & Hc).
  change (cells_update ← st_map_err BE_Cells (Cells_apply cr (CellOverlay_changes overlay ++ [Put (roots_key (hd_commit_id h)) value]));
    postings ← lift_res (cell_postings (cu_changed_cells cells_update));
    index_update ← st_map_err BE_Index (Index_apply ir postings);
    mret (cells_update, index_update)) with (sealing cr ir (CellOverlay_changes overlay ++ [Put (roots_key (hd_commit_id h)) value])) in Hc.
  destruct (sealing cr ir _ _) as [r b] eqn:Es. apply res_bind_ok in Hc as ([cu iu] & -> & [= <-]).
  exists h, cr, ir, value, cu, iu, b. cbn [sl_commit_id commit_number].
  assert (checked_succ (commit_number (hd_commit_id h)) = Some n) as -> by (by destruct (checked_succ _); inversion Hn).
  done.
Qed.

Lemma compute_tables (origin : T) overlay sealed : compute origin overlay = Ok sealed -> tables_in (sl_writes sealed).
Proof.
  intros (h & cr & ir & value & cu & iu & b & _ & _ & _ & _ & _ & _ & Es & ->)%compute_inv. cbn [sl_writes].
  pose proof (sealing_stays cr ir (CellOverlay_changes overlay ++ [Put (roots_key (hd_commit_id h)) value]) (Buffered_new origin)) as [_ Hs].
  rewrite Es in Hs. apply Hs. intros tb [rows Hr]. cbn in Hr. by rewrite lookup_empty in Hr.
Qed.
End Tables.

(** ** Publication *)

Definition sealed_head (sealed : SealedCommit) : Head :=
  {| hd_commit_id := sl_commit_id sealed; hd_state_root := sl_state_root sealed; hd_index_root := sl_index_root sealed |}.

(** The rows of a store after a sealed commit is published over it. *)
Definition committed_view (sealed : SealedCommit) (v : View) : View :=
  upd_view (apply_writes (sl_writes sealed) v) SUPERBLOCK
    (<[HEAD_KEY := head_row (sealed_head sealed)]> (apply_writes (sl_writes sealed) v SUPERBLOCK)).

(** A store's rows name a commit as their head. *)
Definition head_is (v : View) (c : CommitId) : Prop :=
  exists h, head_of (v SUPERBLOCK !! HEAD_KEY) = Ok h /\ hd_commit_id h = c.

Section Publish.
Context {T : Type} `{WT : WriteTransaction T} {RL : ReadLaws T} {WL : WriteLaws T}.

Lemma read_head_is (tx : T) c : read_head tx = Ok c <-> head_is (view tx) c.
Proof using.
  rewrite read_head_eq, res_bind_ok. unfold head_is. split.
  - intros (h & Hh & [= <-]). eauto.
  - intros (h & Hh & <-). eauto.
Qed.

Lemma stage_commit_inv origin sealed (tx tx' : T) : tables_in (sl_writes sealed) ->
  stage_commit origin sealed tx = (Ok (), tx') ->
  head_is (view tx) origin /\ length (sl_state_root sealed) = 32%nat /\ length (sl_index_root sealed) = 32%nat /\
  forall tb, view tx' tb = committed_view sealed (view tx) tb.
Proof using WL.
  intros Hw Hs. unfold stage_commit in Hs. apply stres_bind_ok in Hs as (h & tx0 & Hh & Hs).
  unfold reading in Hh. injection Hh as Hh ->. case_bool_decide as Eh; [|done]. subst h. cbn [negb] in Hs.
  apply read_head_is in Hh. apply stres_bind_ok in Hs as (u & tx1 & Hr & Hs).
  destruct (replay_ok (entries (sl_writes sealed)) tx0) as (tx1' & Er & V1).
  { apply NoDup_fst_entries. }
  { apply Forall_forall. intros tb Htb. apply list_elem_of_fmap in Htb as ([t rows] & -> & Hin%elem_of_entries).
    apply seal_tables_ok, Hw. by eexists. }
  rewrite Hr in Er. injection Er as -> ->. unfold write_head in Hs. cbn [hd_state_root hd_index_root] in Hs.
  destruct (Nat.eqb_spec (length (sl_state_root sealed)) 32) as [H1|]; [|done].
  destruct (Nat.eqb_spec (length (sl_index_root sealed)) 32) as [H2|]; [|done]. cbn [andb] in Hs.
  split_and!; [done..|]. intros tb.
  destruct (put_spec tx1' SUPERBLOCK HEAD_KEY (head_row (sealed_head sealed)) table_ok_SUPERBLOCK) as (tx2 & Ep & V2).
  unfold st_map_err in Hs. fold (sealed_head sealed) in Hs. rewrite Ep in Hs. injection Hs as <-.
  rewrite V2. unfold committed_view, apply_writes, upd_view. rewrite list_to_map_entries in V1.
  case_decide; by rewrite !V1.
Qed.

(** The head after a commit is the sealed one. *)
Lemma committed_head sealed v : head_wf (sealed_head sealed) ->
  head_of (committed_view sealed v SUPERBLOCK !! HEAD_KEY) = Ok (sealed_head sealed).
Proof using.
  intros Hh. unfold committed_view, upd_view. rewrite decide_True by done. rewrite lookup_insert_eq. by apply head_of_row.
Qed.

Lemma head_is_fun v c c' : head_is v c -> head_is v c' -> c = c'.
Proof using. intros (h & Hh & <-) (h' & Hh' & <-). congruence. Qed.

Context {S : Type} `{!Store S T} {SL : StoreLaws S T}.

Lemma persist_inv (tx : T) origin sealed (s s' : S) r : tables_in (sl_writes sealed) ->
  (forall tb, view tx tb = published s tb) -> persist tx origin sealed s = (r, s') ->
  match r with
  | Ok c => c = sl_commit_id sealed /\ head_is (published s) origin /\
      length (sl_state_root sealed) = 32%nat /\ length (sl_index_root sealed) = 32%nat /\
      forall tb, published s' tb = committed_view sealed (published s) tb
  | _ => forall tb, published s' tb = published s tb
  end.
Proof using WL.
  intros Hw Hv. unfold persist. destruct (stage_commit origin sealed tx) as [[u|e| |] tx'] eqn:Es.
  - destruct u. apply stage_commit_inv in Es as (Hh & H1 & H2 & V); [|done].
    destruct (tx_commit tx' s) as [[u'|e| |] s1] eqn:Ec; intros [= <- <-]; pose proof (commit_spec s tx' _ _ Ec) as Hp; try done.
    split_and!; try done.
    + destruct Hh as (h & Hh & <-). exists h. by rewrite <- Hv.
    + intros tb. rewrite Hp, V. unfold committed_view, upd_view, apply_writes. by rewrite !Hv.
  - intros [= <- <-] tb. apply abort_spec.
  - intros [= <- <-] tb. apply abort_spec.
  - intros [= <- <-] tb. apply abort_spec.
Qed.
End Publish.

(** * Properties *)

(** The head row is a faithful record: what [write_head] stores is what
    [read_head_state] reads back, and a row reads as a head only if it is that
    head's own row, of exactly 72 bytes. *)
Theorem head_row_roundtrip {T : Type} `{WT : WriteTransaction T} {RL : ReadLaws T} {WL : WriteLaws T} (tx : T) (h : Head) :
  head_wf h ->
  (exists tx', write_head h tx = (Ok (), tx') /\ read_head_state tx' = Ok h /\
     forall tb, tb <> SUPERBLOCK -> view tx' tb = view tx tb) /\
  (read_head_state tx = Ok h -> view tx SUPERBLOCK !! HEAD_KEY = Some (head_row h)) /\
  (forall row, view tx SUPERBLOCK !! HEAD_KEY = Some row -> length row <> 72%nat -> read_head_state tx = Err (InvalidHead (length row))) /\
  (view tx SUPERBLOCK !! HEAD_KEY = None -> read_head_state tx = Err MissingHead).
Proof.
  intros Hh. split_and!.
  - unfold write_head. pose proof Hh as (_ & -> & ->). cbn [Nat.eqb andb].
    destruct (put_spec tx SUPERBLOCK HEAD_KEY (head_row h) table_ok_SUPERBLOCK) as (tx' & Ep & V). exists tx'.
    unfold st_map_err. rewrite Ep. split_and!; [done| |].
    + rewrite read_head_state_eq, V. unfold upd_view. rewrite decide_True by done. rewrite lookup_insert_eq. by apply head_of_row.
    + intros tb Htb. rewrite V. unfold upd_view. by rewrite decide_False.
  - rewrite read_head_state_eq. by intros [_ ?]%head_of_inv.
  - intros row Hrow Hl. rewrite read_head_state_eq, Hrow. unfold head_of, mbind, res_mbind. cbn [ok_or].
    by destruct (Nat.eqb_spec (length row) HEAD_BYTES).
  - intros Hn. by rewrite read_head_state_eq, Hn.
Qed.

Definition sample_head : Head :=
  {| hd_commit_id := {| commit_number := 41 |}; hd_state_root := replicate 32 xaa; hd_index_root := replicate 32 xbb |}.

Lemma head_row_roundtrip_witness : exists tx', write_head sample_head tx0 = (Ok (), tx') /\ read_head_state tx' = Ok sample_head.
Proof.
  destruct (head_row_roundtrip tx0 sample_head) as [(tx' & Hw & Hr & _) _].
  - split_and!; [split; done|done|done].
  - by exists tx'.
Defined.
