(* ===== verification/CellIndex.v ===== *)
(** The postings that a set of cells asks for: [postings] of
    crates/branch/src/seal.rs against the attribute index's set of postings.

    [index_of W] is the index that the cells [W] should have: one posting for
    every indexable cell. The postings of a sealed batch's net changes turn the
    index of the old cells into the index of the new ones. *)
From Stdlib Require Import ZArith Lia.
From S2P Require Import Prelude Ordered Storage Scan CellTypes CellValue CellName MerkleNode MerkleTrie BranchTypes CellScan Overlay Cells Term.
From S2P Require Import Bitmap Index IndexSpec Seal.

#[local] Open Scope Z_scope.

Abbreviation CellMap := (gmap CellKey CellValue).

(** The term of a cell, if it is indexable. *)
Definition term_of (k : CellKey) (v : CellValue) : option IndexTerm :=
  match cell_term k (Some v) with Ok t => t | _ => None end.

Definition index_of (W : CellMap) : Postings :=
  list_to_set (omap (fun '(k, v) => (fun t => (t, ck_record_id k)) <$> term_of k v) (map_to_list W)).

Lemma elem_of_index_of W t id : (t, id) ∈ index_of W <-> exists k v, W !! k = Some v /\ term_of k v = Some t /\ ck_record_id k = id.
Proof.
  unfold index_of. rewrite elem_of_list_to_set, list_elem_of_omap. split.
  - intros ([k v] & Hin & E). apply elem_of_map_to_list in Hin. destruct (term_of k v) eqn:Et; [|done].
    injection E as <- <-. by exists k, v.
  - intros (k & v & Hk & Et & <-). exists (k, v). split; [by apply elem_of_map_to_list|]. cbn. by rewrite Et.
Qed.

(** Cells whose terms can be built: sealing refuses others. *)
Definition terms_ok (W : CellMap) : Prop := forall k v, W !! k = Some v -> is_ok (cell_term k (Some v)) = true.

Lemma cell_term_of k o : (forall v, o = Some v -> is_ok (cell_term k (Some v)) = true) ->
  cell_term k o = Ok (v ← o; term_of k v).
Proof.
  intros Ho. destruct o as [v|]; [|done]. specialize (Ho v eq_refl). cbn [mbind option_bind]. unfold term_of.
  by destruct (cell_term k (Some v)).
Qed.

Lemma term_of_inv k v t : term_of k v = Some t ->
  exists n, n = ck_name k /\ user_name n /\ cr_ty (as_view v) <> Bytes /\ t = run_of n (cr_ty (as_view v)) ++ cr_value (as_view v).
Proof.
  unfold term_of, cell_term. destruct (CellValue_is_indexable v); [|done].
  destruct (map_err BE_Term (from_cell_name (ck_name k) (as_view v))) as [t'|e| |] eqn:E; try done. intros [= ->].
  apply map_err_ok in E. unfold from_cell_name in E. apply res_bind_ok in E as (n & Hn & E). apply from_str_name_ok in E as (Hu & Hty & ->).
  exists n. split_and!; [|done..]. unfold name_str in Hn. destruct (is_utf8 _); [|done]. by injection Hn as ->.
Qed.

(** A posting comes from one cell. *)
Lemma term_of_key k v k' v' t : term_of k v = Some t -> term_of k' v' = Some t -> ck_record_id k = ck_record_id k' -> k = k'.
Proof.
  intros (n & -> & Hu & Hty & E)%term_of_inv (n' & -> & Hu' & Hty' & E')%term_of_inv Hid.
  destruct (run_of_disjoint (ck_name k) (cr_ty (as_view v)) (ck_name k') (cr_ty (as_view v')) t) as [Hn _]; [done..| | |].
  - rewrite E. by apply prefix_app_r.
  - rewrite E'. by apply prefix_app_r.
  - destruct k, k'. cbn in *. congruence.
Qed.

Lemma term_of_decodes k v t : CellValue_wf v -> term_of k v = Some t -> term_decode t = Ok t.
Proof.
  intros Hv (n & -> & Hu & Hty & ->)%term_of_inv. eapply term_decode_complete. split_and!; [done..| |reflexivity].
  apply as_view_wf in Hv as [Hv _]. unfold CellValueRef_wf, CellValueRef_new in Hv. destruct (_ && _); [done|].
  by apply res_bind_ok in Hv as ([] & ? & _).
Qed.

Definition cells_wf (W : CellMap) : Prop := forall k v, W !! k = Some v -> CellKey_wf k /\ CellValue_wf v.

Lemma index_of_wf W : cells_wf W -> postings_wf (index_of W).
Proof.
  intros Hw t id (k & v & Hk & Et & <-)%elem_of_index_of. apply Hw in Hk as [Hk Hv]. split; [by eapply term_of_decodes|].
  unfold CellKey_wf, uint_range in Hk. change (pow256 8) with (2 ^ 64) in Hk. done.
Qed.

(** * The postings of a change *)

Definition set_cell (W : CellMap) (k : CellKey) (a : option CellValue) : CellMap :=
  match a with Some v => <[k := v]> W | None => delete k W end.

Lemma lookup_set_cell W k a k' : set_cell W k a !! k' = if decide (k = k') then a else W !! k'.
Proof. unfold set_cell. destruct a, (decide (k = k')) as [->|]; by simplify_map_eq. Qed.

(** The postings of one cell's change. *)
Definition change_postings (k : CellKey) (before after : option IndexTerm) : list PostingChange :=
  if bool_decide (before = after) then []
  else match before with Some t => [PostingRemove t (ck_record_id k)] | None => [] end ++
       match after with Some t => [PostingAdd t (ck_record_id k)] | None => [] end.

Lemma post_app P l1 l2 : post P (l1 ++ l2) = post (post P l1) l2.
Proof. apply foldl_app. Qed.

(** The postings of one change move the index from the old cells to the new. *)
Lemma post_set_cell W k a : post (index_of W) (change_postings k (v ← W !! k; term_of k v) (v ← a; term_of k v)) = index_of (set_cell W k a).
Proof.
  set (before := v ← W !! k; term_of k v). set (after := v ← a; term_of k v).
  assert (Hnew : forall t id, (t, id) ∈ index_of (set_cell W k a) <->
    (after = Some t /\ id = ck_record_id k) \/ ((t, id) ∈ index_of W /\ ~ (before = Some t /\ id = ck_record_id k))).
  { intros t id. rewrite !elem_of_index_of. split.
    - intros (k' & v & Hk & Et & Eid). rewrite lookup_set_cell in Hk. case_decide as Ek.
      + subst k'. subst a. left. by split.
      + right. split; [by exists k', v|]. intros [Hb Eid']. subst id. unfold before in Hb.
        destruct (W !! k) as [w|] eqn:Ew; [|done]. cbn in Hb. apply Ek. by eapply term_of_key.
    - intros [[Ha ->]|[(k' & v & Hk & Et & Eid) Hno]].
      + unfold after in Ha. destruct a as [v|] eqn:Ea; [|done]. exists k, v. split_and!; [|done..].
        rewrite lookup_set_cell. by rewrite decide_True.
      + exists k', v. split_and!; [|done..]. rewrite lookup_set_cell, decide_False; [done|]. intros <-. apply Hno. split; [|done].
        unfold before. by rewrite Hk. }
  assert (Hold : forall t, before = Some t -> (t, ck_record_id k) ∈ index_of W).
  { intros t Hb. unfold before in Hb. destruct (W !! k) as [w|] eqn:Ew; [|done]. apply elem_of_index_of. by exists k, w. }
  apply set_eq. intros [t id]. rewrite Hnew. clear Hnew. unfold change_postings. case_bool_decide as Eb.
  - cbn [post foldl]. rewrite <- Eb. destruct (decide (before = Some t /\ id = ck_record_id k)) as [[Hb ->]|]; [|naive_solver].
    specialize (Hold t Hb). naive_solver.
  - destruct before as [t1|], after as [t2|]; cbn [app post foldl]; rewrite ?elem_of_union, ?elem_of_difference, ?elem_of_singleton; naive_solver.
Qed.

Definition set_cells (W : CellMap) (l : list (CellKey * option CellValue)) : CellMap := foldl (fun W '(k, a) => set_cell W k a) W l.

Lemma lookup_set_cells W l k : set_cells W l !! k = match last_write k l with Some a => a | None => W !! k end.
Proof.
  unfold set_cells. revert W. induction l as [|[k' a] l IH]; intros W; [done|]. cbn [foldl]. rewrite IH, last_write_cons.
  destruct (last_write k l) as [o|]; [done|]. cbn [fst snd]. rewrite lookup_set_cell. by case_decide.
Qed.

(** The report's postings, for changes of distinct cells. *)
Lemma cell_postings_ok W l : NoDup l.*1 -> terms_ok W -> (forall k v, (k, Some v) ∈ l -> is_ok (cell_term k (Some v)) = true) ->
  exists ps, cell_postings ((fun c => {| vc_key := fst c; vc_before := W !! fst c; vc_after := snd c |}) <$> l) = Ok ps /\
    post (index_of W) ps = index_of (set_cells W l) /\
    (forall c, c ∈ ps -> exists k v, ((W !! k = Some v) \/ (k, Some v) ∈ l) /\ term_of k v = Some (change_term c) /\ change_id c = ck_record_id k).
Proof.
  intros Hnd HW Hl.
  assert (Hgen : forall W' l', NoDup l'.*1 -> (forall c, c ∈ l' -> c ∈ l) -> (forall k, k ∈ l'.*1 -> W' !! k = W !! k) ->
    exists ps, cell_postings ((fun c => {| vc_key := fst c; vc_before := W !! fst c; vc_after := snd c |}) <$> l') = Ok ps /\
      post (index_of W') ps = index_of (set_cells W' l') /\
      (forall c, c ∈ ps -> exists k v, ((W !! k = Some v) \/ (k, Some v) ∈ l) /\ term_of k v = Some (change_term c) /\ change_id c = ck_record_id k));
    [|apply (Hgen W l); auto].
  intros W' l'. revert W'. induction l' as [|[k a] l' IH]; intros W' Hnd' Hsub Hsame.
  { exists []. split_and!; [done..|]. by intros c ?%not_elem_of_nil. }
  rewrite fmap_cons in Hnd'. apply NoDup_cons in Hnd' as [Hk Hnd'].
  destruct (IH (set_cell W' k a)) as (ps & Eps & Hpost & Hin); [done|by intros c Hc; apply Hsub; right| |].
  { intros k' Hk'. rewrite lookup_set_cell, decide_False by (by intros <-). apply Hsame. rewrite fmap_cons. by right. }
  rewrite fmap_cons. cbn [cell_postings vc_key vc_before vc_after fst snd].
  rewrite !cell_term_of; [|intros v Hv; first [by eapply HW|subst a; apply Hl, Hsub; by left]..].
  unfold mbind, res_mbind. rewrite Eps.
  exists (change_postings k (v ← W !! k; term_of k v) (v ← a; term_of k v) ++ ps). split_and!.
  - unfold change_postings. case_bool_decide as Eb.
    + by rewrite bool_decide_true.
    + rewrite bool_decide_false by done. by rewrite app_assoc.
  - rewrite post_app. assert (W !! k = W' !! k) as -> by (symmetry; apply Hsame; rewrite fmap_cons; by left).
    rewrite post_set_cell. exact Hpost.
  - intros c [Hc|Hc]%elem_of_app; [|by apply Hin]. unfold change_postings in Hc. case_bool_decide; [by apply not_elem_of_nil in Hc|].
    apply elem_of_app in Hc as [Hc|Hc].
    + destruct (W !! k) as [v|] eqn:Ev; [|by apply not_elem_of_nil in Hc]. cbn in Hc. destruct (term_of k v) as [t|] eqn:Et; [|by apply not_elem_of_nil in Hc].
      apply list_elem_of_singleton in Hc as ->. exists k, v. split_and!; [by left|done..].
    + destruct a as [v|]; [|by apply not_elem_of_nil in Hc]. cbn in Hc. destruct (term_of k v) as [t|] eqn:Et; [|by apply not_elem_of_nil in Hc].
      apply list_elem_of_singleton in Hc as ->. exists k, v. split_and!; [right; apply Hsub; by left|done..].
Qed.
