(* ===== verification/SealSpec.v ===== *)
(** What sealing and publishing a branch leaves in the store:
    crates/branch/src/{seal,commit}.rs end to end.

    [store_state tx head cell_root index_root W] says that the store's head row
    is [head], that the cell table and its trie hold exactly the cells [W], and
    that the index holds exactly the postings [W] asks for. Sealing a branch over
    such a store and publishing the result gives such a store again, for the
    branch's working cells and the new head. *)
From Stdlib Require Import ZArith Lia.
From S2P Require Import Prelude Ordered Groups Storage Scan CellTypes CellValue CellName MerkleNode MerkleTrie Frame MerkleTree MerkleEdit MerkleSpec BranchTypes.
From S2P Require Import CellScan Overlay Cells Buffer Term Bitmap BitmapSpec Index IndexSpec IndexReads Seal CellIndex.

#[local] Open Scope Z_scope.

(** ** The states of two transactions with the same rows *)

Section Across.
Context `{Roaring} `{HashProvider} {T1 T2 : Type} `{!ReadTransaction T1} `{!ReadTransaction T2}.
Context {R1 : ReadLaws T1} {R2 : ReadLaws T2} (tx1 : T1) (tx2 : T2).

Lemma cells_state_across root O : view tx2 CELL = view tx1 CELL -> view tx2 CELL_TRIE = view tx1 CELL_TRIE ->
  cells_state tx1 root O -> cells_state tx2 root O.
Proof using.
  intros EC ET [Hdec (m & Hm & Hk)]. split; [by rewrite EC|]. exists m. split; [|done].
  apply (represents_across _ _ _ tx1); [|exact Hm]. by rewrite ET.
Qed.

Lemma posted_as_across row B : view tx2 BITMAP_CONTAINER = view tx1 BITMAP_CONTAINER -> view tx2 BITMAP_TRIE = view tx1 BITMAP_TRIE ->
  posted_as tx1 row B -> posted_as tx2 row B.
Proof using.
  intros EC ET. destruct row as [h|]; [|done]. intros (root & [Hids Hrows (m & Hm & Hspec)] & Hr). exists root. split; [|done].
  split; [done|by rewrite EC|]. exists m. split; [|done]. apply (represents_across _ _ _ tx1); [|exact Hm]. by rewrite ET.
Qed.

Lemma index_state_across root P : (forall tb, tb ∈ index_tables -> view tx2 tb = view tx1 tb) ->
  index_state tx1 root P -> index_state tx2 root P.
Proof using.
  intros E [HP Hrows (m & Hm & Hk)]. unfold index_tables in E. split; [done| |].
  - intros t. rewrite E by set_solver. apply posted_as_across; [apply E; set_solver..|done].
  - exists m. rewrite E by set_solver. split; [|done]. apply (represents_across _ _ _ tx1); [|exact Hm]. by rewrite E by set_solver.
Qed.

Lemma clash_across : (forall tb, tb ∈ index_tables -> view tx2 tb = view tx1 tb) -> clash tx2 -> clash tx1.
Proof using. intros E. unfold clash, index_tables in *. by rewrite !E by set_solver. Qed.
End Across.

(** ** The buffered part of a seal *)

(** What a seal that makes the cells [W] may fail with: a branch of their trie,
    of the index over them or of one of its bitmaps, or a container of those, has
    its digest taken by another row. *)
Definition seal_conflict `{HashProvider} `{Roaring} {T : Type} `{ReadLaws T} (W : CellMap) (e : BranchError) (tx : T) : Prop :=
  match e with
  | BE_Cells (CE_Merkle ConflictingBranch) => cell_conflict W tx
  | BE_Index e => index_conflict (index_of W) e tx
  | _ => False
  end.

Lemma seal_conflict_kind `{HashProvider} `{Roaring} {T : Type} `{ReadLaws T} (W : CellMap) (e : BranchError) (tx : T) : seal_conflict W e tx ->
  e = BE_Cells (CE_Merkle ConflictingBranch) \/ e = BE_Index (IE_Merkle ConflictingBranch) \/ e = BE_Index ConflictingContent.
Proof.
  destruct e as [| | | | |[|[]| | |]|e| | | | | | | | |]; cbn [seal_conflict]; try done; [by left|]. intros [->| ->]%index_conflict_kind; auto.
Qed.

(** The terms of two sets of cells have distinct digests. *)
Definition distinct_index `{HashProvider} (W W' : CellMap) : Prop :=
  forall t1 t2 id1 id2, (t1, id1) ∈ index_of W ∪ index_of W' -> (t2, id2) ∈ index_of W ∪ index_of W' -> routing_path t1 = routing_path t2 -> t1 = t2.

Section Sealing.
Context `{Roaring} {RO : RoaringLaws} `{HashProvider} {HL : HashLaws}.
Context {T : Type} `{WT : WriteTransaction T} {RL : ReadLaws T} {WL : WriteLaws T}.

Lemma net_cells O changes : set_cells O (net_changes O changes) = change_cells O changes.
Proof using.
  apply map_eq. intros k. rewrite lookup_set_cells, change_cells_lookup. fold (batch changes).
  destruct (last_write k (net_changes O changes)) as [a|] eqn:E.
  - apply last_write_elem, elem_of_net_changes in E as [-> _]. done.
  - destruct (batch changes !! k) as [a|] eqn:Eb; [|done]. destruct (decide (O !! k = a)) as [|Hne]; [done|]. exfalso.
    apply last_write_none in E. apply E, list_elem_of_fmap. exists (k, a). split; [done|]. by apply elem_of_net_changes.
Qed.

Lemma net_keys O changes : NoDup (net_changes O changes).*1.
Proof using.
  unfold net_changes. pose proof (NoDup_fst_entries (batch changes)) as Hn. induction (entries (batch changes)) as [|[k a] l IH]; [constructor|].
  rewrite fmap_cons in Hn. apply NoDup_cons in Hn as [Hk Hn]. cbn [omap list_omap]. unfold actual at 1. cbn [fst snd].
  case_bool_decide; [by apply IH|]. rewrite fmap_cons. constructor; [|by apply IH].
  intros ([k' a'] & Ek & Hin)%list_elem_of_fmap. apply Hk. apply list_elem_of_omap in Hin as ([k2 a2] & Hin & E).
  unfold actual in E. case_bool_decide; [done|]. injection E as -> ->. cbn in Ek. subst k'. apply list_elem_of_fmap. by exists (k, a').
Qed.

Lemma index_row_posted {T' : Type} `{ReadLaws T'} (tx : T') root P t : index_state tx root P -> is_Some (view tx INDEX !! t) -> exists id, (t, id) ∈ P.
Proof using.
  intros [_ Hrows _] [h Hh]. specialize (Hrows t). apply ids_nonempty. intros E. apply posted_row in Hrows as Hr. rewrite Hh in Hr.
  by apply Hr in E.
Qed.

Lemma cells_state_wf {T' : Type} `{ReadLaws T'} (tx : T') root O : cells_state tx root O -> cells_wf O.
Proof using. by intros [[Hw _] _]. Qed.

(** The postings of a batch, as the index needs them. *)
Lemma seal_postings O changes (W' := change_cells O changes) : cells_wf O -> cells_wf W' -> terms_ok O -> terms_ok W' ->
  exists ps, cell_postings ((fun c => {| vc_key := fst c; vc_before := O !! fst c; vc_after := snd c |}) <$> net_changes O changes) = Ok ps /\
    post (index_of O) ps = index_of W' /\ Forall posting_wf ps /\ forall t, t ∈ change_term <$> ps -> exists id, (t, id) ∈ index_of O ∪ index_of W'.
Proof using.
  intros HO HW Ht HtW.
  assert (Hnet : forall k v, (k, Some v) ∈ net_changes O changes -> W' !! k = Some v).
  { intros k v [Hb _]%elem_of_net_changes. unfold W'. rewrite change_cells_lookup. fold (batch changes). by rewrite Hb. }
  destruct (cell_postings_ok O (net_changes O changes)) as (ps & Eps & Hpost & Hin); [apply net_keys|done|by intros k v Hk%Hnet; eapply HtW|].
  exists ps. split; [done|]. split; [by rewrite Hpost, net_cells|].
  assert (Hcell : forall c, c ∈ ps -> exists k v, (O !! k = Some v \/ W' !! k = Some v) /\ term_of k v = Some (change_term c) /\ change_id c = ck_record_id k).
  { intros c Hc. destruct (Hin c Hc) as (k & v & Hkv & ? & ?). exists k, v. split; [|done]. destruct Hkv; [by left|right; by apply Hnet]. }
  split.
  - apply Forall_forall. intros c Hc. destruct (Hcell c Hc) as (k & v & Hkv & Et & Eid).
    assert (CellKey_wf k /\ CellValue_wf v) as [Hk Hv] by (destruct Hkv; eauto). split; [by eapply term_of_decodes|].
    rewrite Eid. unfold CellKey_wf, uint_range in Hk. by change (pow256 8) with (2 ^ 64) in Hk.
  - intros t (c & -> & Hc)%list_elem_of_fmap. destruct (Hcell c Hc) as (k & v & Hkv & Et & Eid). exists (ck_record_id k).
    rewrite elem_of_union, !elem_of_index_of. destruct Hkv; [left|right]; by exists k, v.
Qed.

(** The seal's writes, from a buffer whose rows are in step with the cells [O]. *)
Lemma sealing_ok (b0 : Buffered T) cell_root index_root O changes (W' := change_cells O changes) :
  cells_state b0 cell_root O -> index_state b0 index_root (index_of O) ->
  Forall change_wf changes -> distinct_paths O (batch changes) -> terms_ok O -> terms_ok W' -> distinct_index O W' ->
  let '(r, b) := sealing cell_root index_root changes b0 in
  ~ clash b ->
  match r with
  | Ok (cu, iu) => cells_state b (cu_root cu) W' /\ index_state b (iu_root iu) (index_of W')
  | Err e => seal_conflict W' e b
  | _ => False
  end.
Proof using RO HL WT WL.
  intros Hcells Hindex Hwf Hpaths HtO HtW Hdi. unfold sealing. unfold mbind at 1, stres_mbind at 1, st_map_err at 1.
  pose proof (cells_apply_ok b0 cell_root O changes Hcells Hwf Hpaths) as Ha.
  destruct (Cells_apply cell_root changes b0) as [r1 b1]. destruct Ha as [Ho1 Hr1].
  destruct r1 as [cu|e| |]; [|intros _; destruct e as [|[]| | |]; try done; by destruct Hr1|done..].
  destruct Hr1 as [Hcells1 Erep]. fold W' in Hcells1.
  pose proof (cells_state_wf b0 cell_root O Hcells) as HO. pose proof (cells_state_wf b1 (cu_root cu) W' Hcells1) as HW.
  destruct (seal_postings O changes HO HW HtO HtW) as (ps & Eps & Hpost & Hpwf & Hterms). rewrite <- Erep in Eps.
  cbn [map_err]. unfold mbind at 1, stres_mbind at 1, lift_res. rewrite Eps.
  unfold mbind at 1, stres_mbind at 1, st_map_err at 1.
  assert (Hindex1 : index_state b1 index_root (index_of O)).
  { apply (index_state_across b0 b1); [|exact Hindex]. intros tb Htb. apply Ho1; intros ->; unfold index_tables in Htb; set_solver. }
  assert (Hdt : distinct_terms (view b1 INDEX) (change_term <$> ps)).
  { assert (forall t, is_Some (view b1 INDEX !! t) \/ t ∈ change_term <$> ps -> exists id, (t, id) ∈ index_of O ∪ index_of W') as Hall.
    { intros t [Ht|Ht]; [|by apply Hterms]. destruct (index_row_posted b1 _ _ _ Hindex1 Ht) as [id Hid]. exists id. by apply elem_of_union_l. }
    intros t1 t2 [id1 A1]%Hall [id2 A2]%Hall. by eapply Hdi. }
  pose proof (Index_apply_ok b1 index_root (index_of O) ps Hindex1 Hpwf Hdt) as Hi.
  destruct (Index_apply index_root ps b1) as [r2 b2]. destruct Hi as [Ho2 Hr2].
  destruct r2 as [iu|e| |]; intros Hc; specialize (Hr2 Hc); cbn [index_outcome] in Hr2; [|by rewrite Hpost in Hr2|done..].
  split; [|rewrite Hpost in Hr2; apply Hr2]. apply (cells_state_across b1 b2); [..|exact Hcells1]; apply Ho2; unfold index_tables; set_solver.
Qed.

(** ** Sealing over a store *)

(** The store's head, cells and index say the same. *)
Record store_state (tx : T) (head : Head) (cell_root index_root : RootRef) (W : CellMap) : Prop := {
  ss_head : read_head_state tx = Ok head;
  ss_state_root : hd_state_root head = RootRef_hash cell_root;
  ss_index_root : hd_index_root head = RootRef_hash index_root;
  ss_cells : cells_state tx cell_root W;
  ss_index : index_state tx index_root (index_of W)
}.

(** A root that its digest identifies. *)
Definition root_clear (table : Table) (tx : T) (root : RootRef) : Prop :=
  (root <> REmpty -> RootRef_hash root <> hash []) /\ forall l, root = RLeaf l -> view tx table !! lf_hash l = None.

(** The cell that a seal adds. *)
Definition roots_cell (head : Head) : CellValue :=
  to_owned {| cr_ty := Bytes; cr_value := hd_state_root head ++ hd_index_root head; cr_indexable := false |}.

Lemma roots_value_ok head : roots_value head = Ok (roots_cell head).
Proof using. done. Qed.

Definition sealed_cells (head : Head) (O : CellMap) (o : CellOverlay) : CellMap :=
  <[roots_key (hd_commit_id head) := roots_cell head]> (working O (ov_entries o)).

(** The digests a seal relies on. *)
Record digests_ok (tx : T) (head : Head) (cell_root index_root : RootRef) (O : CellMap) (o : CellOverlay) : Prop := {
  dg_clash : ~ clash tx;
  dg_cell_root : root_clear CELL_TRIE tx cell_root;
  dg_index_root : root_clear INDEX_TRIE tx index_root;
  dg_paths : distinct_paths O (<[roots_key (hd_commit_id head) := None]> (ov_entries o));
  dg_terms : distinct_index O (sealed_cells head O o)
}.

Definition seal_changes (head : Head) (o : CellOverlay) : list CellChange :=
  CellOverlay_changes o ++ [Put (roots_key (hd_commit_id head)) (roots_cell head)].

Lemma seal_batch head o k : batch (seal_changes head o) !! k =
  if decide (roots_key (hd_commit_id head) = k) then Some (Some (roots_cell head)) else ov_entries o !! k.
Proof using.
  unfold batch. rewrite batch_map_lookup. unfold seal_changes. rewrite fmap_app, last_write_app. cbn [fmap list_fmap change_pair].
  rewrite last_write_cons. cbn [fst snd]. case_decide; [done|]. unfold CellOverlay_changes. rewrite <- list_fmap_compose.
  assert ((change_pair ∘ fun '(key, value) => match value with Some value => Put key value | None => Delete key end) <$> entries (ov_entries o)
    = entries (ov_entries o)) as ->; [|by rewrite last_write_entries].
  rewrite <- (list_fmap_id (entries (ov_entries o))) at 2. apply list_fmap_ext. by intros i [k' [v|]] _.
Qed.

Lemma seal_distinct head (O : CellMap) o : distinct_paths O (<[roots_key (hd_commit_id head) := None]> (ov_entries o)) ->
  distinct_paths O (batch (seal_changes head o)).
Proof using.
  intros Hp. assert (forall k, is_Some (batch (seal_changes head o) !! k) -> is_Some (<[roots_key (hd_commit_id head) := None]> (ov_entries o) !! k)) as Hs.
  { intros k. rewrite seal_batch. case_decide as E; [subst k; rewrite lookup_insert_eq; by eexists|]. by rewrite lookup_insert_ne. }
  intros k1 k2 A1 A2. apply Hp; [destruct A1; auto|destruct A2; auto].
Qed.

Lemma sealed_cells_ok head O o : change_cells O (seal_changes head o) = sealed_cells head O o.
Proof using.
  apply map_eq. intros k. rewrite change_cells_lookup. fold (batch (seal_changes head o)). rewrite seal_batch. unfold sealed_cells.
  case_decide as E; [subst k; by rewrite lookup_insert_eq|]. by rewrite lookup_insert_ne, lookup_working.
Qed.

Lemma roots_key_wf head : CellKey_wf (roots_key (hd_commit_id head)).
Proof using. split; by vm_compute. Qed.

Lemma seal_changes_wf head o : staged_wf o -> Forall change_wf (seal_changes head o).
Proof using.
  intros Hs. apply Forall_app. split; [|by repeat constructor; try apply roots_key_wf].
  unfold CellOverlay_changes. apply Forall_fmap, Forall_forall. intros [k [v|]] Hin%elem_of_entries%Hs; cbn; naive_solver.
Qed.

Lemma decoded_none rows O k : decoded rows O -> CellKey_wf k -> O !! k = None -> rows !! CellKey_encode k = None.
Proof using.
  intros [Hwf Hr] Hk HO. destruct (rows !! CellKey_encode k) as [vb|] eqn:E; [|done]. exfalso.
  apply Hr in E as (k' & v & Hk' & Ek & _). apply Hwf in Hk' as Hw. apply CellKey_encode_inj in Ek as <-; [|done|apply Hw]. congruence.
Qed.

Lemma compute_ok origin head cell_root index_root O o :
  store_state origin head cell_root index_root O -> digests_ok origin head cell_root index_root O o -> staged_wf o ->
  terms_ok O -> terms_ok (sealed_cells head O o) -> O !! roots_key (hd_commit_id head) = None ->
  0 <= commit_number (hd_commit_id head) < 2 ^ 64 - 1 ->
  let b := (sealing cell_root index_root (seal_changes head o) (Buffered_new origin)).2 in
  bf_origin b = origin /\
  (~ clash b ->
    match compute origin o with
    | Ok sealed => sl_writes sealed = bf_writes b /\ commit_number (sl_commit_id sealed) = commit_number (hd_commit_id head) + 1 /\
        sl_state_root sealed = RootRef_hash (cu_root (sl_cells sealed)) /\ sl_index_root sealed = RootRef_hash (iu_root (sl_index sealed)) /\
        cells_state b (cu_root (sl_cells sealed)) (sealed_cells head O o) /\
        index_state b (iu_root (sl_index sealed)) (index_of (sealed_cells head O o))
    | Err e => seal_conflict (sealed_cells head O o) e b
    | _ => False
    end).
Proof using RO HL WL.
  intros [Ehead Ecr Eir Hcells Hindex] [Hc [Hc1 Hc2] [Hi1 Hi2] Hp Ht] Hs HtO HtW Hno Hnum.
  pose proof (sealing_ok (Buffered_new origin) cell_root index_root O (seal_changes head o)) as Hok. cbv zeta in Hok. rewrite sealed_cells_ok in Hok.
  assert (Hnew : forall tb, view (Buffered_new origin) tb = view origin tb) by (intros tb; apply overlay_rows_empty).
  pose proof (sealing_stays cell_root index_root (seal_changes head o) (Buffered_new origin)) as [Horigin _].
  assert (Hr : compute origin o = let '(result, tx) := sealing cell_root index_root (seal_changes head o) (Buffered_new origin) in
    '(cu, iu) ← result;
    Ok {| sl_commit_id := {| commit_number := commit_number (hd_commit_id head) + 1 |}; sl_state_root := RootRef_hash (cu_root cu);
          sl_index_root := RootRef_hash (iu_root iu); sl_cells := cu; sl_index := iu; sl_writes := into_writes tx |}).
  { assert (distinct_paths O (∅ : gmap CellKey unit)).
    { intros k1 k2 [A1|[? A1]] [A2|[? A2]]; [apply Hp; by left|..]; by rewrite lookup_empty in A1 || rewrite lookup_empty in A2. }
    unfold compute. rewrite Ehead. unfold mbind at 1, res_mbind at 1. unfold checked_succ.
    rewrite (proj2 (Z.ltb_lt _ _)) by lia. cbn [ok_or]. unfold mbind at 1, res_mbind at 1.
    rewrite Ecr, (reopen_ok origin cell_root O) by done.
    cbn [map_err]. unfold mbind at 1, res_mbind at 1.
    rewrite Eir, (Index_reopen_ok origin index_root (index_of O)); [|done|done| |done|done].
    2: { intros t1 t2 [A1|A1%not_elem_of_nil] [A2|A2%not_elem_of_nil]; try done.
         destruct (index_row_posted origin _ _ _ Hindex A1) as [i1 J1]. destruct (index_row_posted origin _ _ _ Hindex A2) as [i2 J2].
         apply (Ht t1 t2 i1 i2); by apply elem_of_union_l. }
    cbn [map_err]. unfold mbind at 1, res_mbind at 1. rewrite get_spec by done.
    rewrite (decoded_none _ O) by (done || apply Hcells || apply roots_key_wf). cbn [map_err]. unfold mbind at 1, res_mbind at 1.
    rewrite roots_value_ok. done. }
  rewrite Hr. destruct (sealing cell_root index_root (seal_changes head o) (Buffered_new origin)) as [r b] eqn:Es. cbn [snd] in Horigin.
  cbn [snd]. split; [done|]. intros Hnc.
  assert (match r with
    | Ok (cu, iu) => cells_state b (cu_root cu) (sealed_cells head O o) /\ index_state b (iu_root iu) (index_of (sealed_cells head O o))
    | Err e => seal_conflict (sealed_cells head O o) e b
    | _ => False
    end) as Hres.
  { apply Hok; try done.
    - apply (cells_state_across origin); [apply Hnew..|done].
    - apply (index_state_across origin); [|done]. intros tb _. apply Hnew.
    - by apply seal_changes_wf.
    - by apply seal_distinct. }
  destruct r as [[cu iu]|e| |]; done.
Qed.

(** ** Publishing *)

Lemma stage_commit_ok origin sealed (tx : T) : tables_in (sl_writes sealed) -> read_head tx = Ok origin ->
  length (sl_state_root sealed) = 32%nat -> length (sl_index_root sealed) = 32%nat ->
  exists tx', stage_commit origin sealed tx = (Ok (), tx') /\ forall tb, view tx' tb = committed_view sealed (view tx) tb.
Proof using WL.
  intros Hw Hh H32 H32'. destruct (replay_ok (entries (sl_writes sealed)) tx) as (tx1 & Er & V1).
  { apply NoDup_fst_entries. }
  { apply Forall_forall. intros tb Htb. apply list_elem_of_fmap in Htb as ([t rows] & -> & Hin%elem_of_entries).
    apply seal_tables_ok, Hw. by eexists. }
  destruct (put_spec tx1 SUPERBLOCK HEAD_KEY (head_row (sealed_head sealed)) table_ok_SUPERBLOCK) as (tx2 & Ep & V2).
  assert (stage_commit origin sealed tx = (Ok (), tx2)) as E.
  { unfold stage_commit. unfold mbind at 1, stres_mbind at 1, reading. rewrite Hh. rewrite bool_decide_true by done. cbn [negb].
    unfold mbind at 1, stres_mbind at 1. rewrite Er. unfold write_head. cbn [hd_state_root hd_index_root]. rewrite H32, H32'. cbn [Nat.eqb andb].
    unfold st_map_err. fold (sealed_head sealed). by rewrite Ep. }
  exists tx2. split; [done|]. eapply stage_commit_inv in E as (_ & _ & _ & Hv); [exact Hv|done].
Qed.

Lemma sealed_tables (b : Buffered T) sealed tb : tables_in (sl_writes sealed) -> sl_writes sealed = bf_writes b -> tb ∈ seal_tables ->
  committed_view sealed (view (bf_origin b)) tb = view b tb.
Proof using.
  intros Hw E Htb. unfold committed_view, upd_view. rewrite decide_False by (by apply seal_tables_ok). unfold apply_writes. by rewrite E.
Qed.
(** Sealing, then publishing on a transaction with the same rows. *)
Lemma publish_ok origin head cell_root index_root O o :
  store_state origin head cell_root index_root O -> digests_ok origin head cell_root index_root O o -> staged_wf o ->
  terms_ok O -> terms_ok (sealed_cells head O o) -> O !! roots_key (hd_commit_id head) = None ->
  0 <= commit_number (hd_commit_id head) < 2 ^ 64 - 1 ->
  let b := (sealing cell_root index_root (seal_changes head o) (Buffered_new origin)).2 in
  ~ clash b ->
  match compute origin o with
  | Ok sealed =>
      commit_number (sl_commit_id sealed) = commit_number (hd_commit_id head) + 1 /\
      forall tx, (forall tb, view tx tb = view origin tb) ->
        exists tx' cell_root' index_root', stage_commit (hd_commit_id head) sealed tx = (Ok (), tx') /\
          store_state tx' (sealed_head sealed) cell_root' index_root' (sealed_cells head O o) /\
          view tx' SUPERBLOCK = <[HEAD_KEY := head_row (sealed_head sealed)]> (view origin SUPERBLOCK)
  | Err e => seal_conflict (sealed_cells head O o) e b
  | _ => False
  end.
Proof using RO HL WL.
  intros Hst Hd Hs HtO HtW Hno Hnum b Hb.
  pose proof (compute_ok origin head cell_root index_root O o Hst Hd Hs HtO HtW Hno Hnum) as [Eb Hc]. fold b in Eb, Hc. specialize (Hc Hb).
  destruct (compute origin o) as [sealed|e| |] eqn:Ec; [|done..]. destruct Hc as (Ew & En & Esr & Eir & Hcells & Hindex).
  split; [done|]. intros tx Hv. pose proof (compute_tables origin o sealed Ec) as Htab.
  assert (length (sl_state_root sealed) = 32%nat /\ length (sl_index_root sealed) = 32%nat) as [L1 L2].
  { rewrite Esr, Eir. destruct Hcells as [_ (m & Hm & _)]. destruct Hindex as [_ _ (m' & Hm' & _)].
    split; [exact (represents_root_length _ _ _ b _ _ Hm)|exact (represents_root_length _ _ _ b _ _ Hm')]. }
  destruct (stage_commit_ok (hd_commit_id head) sealed tx Htab) as (tx' & Es & Hv'); [|done..|].
  { rewrite read_head_eq, Hv, <- read_head_state_eq, (ss_head _ _ _ _ _ Hst). done. }
  exists tx', (cu_root (sl_cells sealed)), (iu_root (sl_index sealed)). split; [done|].
  assert (Hsame : forall tb, tb ∈ seal_tables -> view tx' tb = view b tb).
  { intros tb Htb. rewrite Hv'. rewrite <- (sealed_tables b sealed tb Htab Ew Htb), Eb. unfold committed_view, upd_view, apply_writes.
    by rewrite !Hv. }
  split; [split; [|done|done| |]|].
  - rewrite read_head_state_eq, Hv'. apply committed_head. split; cbn [sealed_head hd_commit_id hd_state_root hd_index_root]; [unfold uint_range; change (pow256 8) with (2 ^ 64); lia|done..].
  - apply (cells_state_across b tx'); [apply Hsame; unfold seal_tables; set_solver..|done].
  - apply (index_state_across b tx'); [|done]. intros tb Htb. apply Hsame. unfold index_tables, seal_tables in *. set_solver.
  - rewrite Hv'. unfold committed_view, upd_view. rewrite decide_True by done. unfold apply_writes.
    assert (sl_writes sealed !! SUPERBLOCK = None) as ->; [|cbn; by rewrite overlay_rows_empty, Hv].
    destruct (sl_writes sealed !! SUPERBLOCK) as [rows|] eqn:Er; [|done].
    destruct (seal_tables_ok SUPERBLOCK) as [_ Hne]; [apply Htab; by eexists|done].
Qed.
End Sealing.
