(* ===== verification/SealClaims.v ===== *)
(** The property of sealing and publishing, with a concrete instance. *)
From Stdlib Require Import ZArith Lia.
From S2P Require Import Prelude Ordered Storage Scan CellTypes CellValue CellName MerkleNode MerkleTrie Frame MerkleTree MerkleSpec Samples BranchTypes.
From S2P Require Import CellScan Overlay Cells Buffer Term Bitmap BitmapSpec Index IndexSpec IndexReads IndexClaims Seal CellIndex SealSpec.

#[local] Open Scope Z_scope.

Section Claims.
Context `{Roaring} {RO : RoaringLaws} `{HashProvider} {HL : HashLaws}.
Context {T : Type} `{WT : WriteTransaction T} {RL : ReadLaws T} {WL : WriteLaws T}.

(** C3. Sealing and publishing refine one assignment of cells. Over a store whose
    head, cell table, cell trie and index all say the cells [O], [compute]
    ends, and its result publishes on
    any transaction with those rows: publication succeeds and leaves a store
    whose head has the next number, and whose cell table, trie and index all
    say exactly the branch's working cells and the record of the previous
    roots; of the superblock only the head row changes. *)
Theorem seal_commits_working_cells origin head cell_root index_root O o :
  store_state origin head cell_root index_root O -> digests_ok origin head cell_root index_root O o -> staged_wf o ->
  terms_ok O -> terms_ok (sealed_cells head O o) -> O !! roots_key (hd_commit_id head) = None ->
  0 <= commit_number (hd_commit_id head) < 2 ^ 64 - 1 ->
  let b := (sealing cell_root index_root (seal_changes head o) (Buffered_new origin)).2 in
  ~ clash b ->
  match compute origin o with
  | Ok sealed =>
      commit_number (sl_commit_id sealed) = commit_number (hd_commit_id head) + 1 /\
      forall tx, (forall tb, view tx tb = view origin tb) ->
        exists tx' cell_root' index_root', stage_commit (hd_commit_id head) sealed tx = (Ok (), tx') /\
          store_state tx' (sealed_head sealed) cell_root' index_root' (sealed_cells head O o) /\
          view tx' SUPERBLOCK = <[HEAD_KEY := head_row (sealed_head sealed)]> (view origin SUPERBLOCK)
  | Err e => seal_conflict (sealed_cells head O o) e b
  | _ => False
  end.
Proof using RO HL WL. apply publish_ok. Qed.
End Claims.

(** ** A concrete instance *)

Lemma inj_on_list {A B} `{EqDecision A} (f : A -> B) (l : list A) x y : NoDup (f <$> l) -> x ∈ l -> y ∈ l -> f x = f y -> x = y.
Proof.
  induction l as [|z l IH]; [by intros _ ?%not_elem_of_nil|]. rewrite fmap_cons. intros [Hz Hl]%NoDup_cons Hx Hy E.
  apply elem_of_cons in Hx as [->|Hx], Hy as [->|Hy]; [done|..].
  - destruct Hz. rewrite E. apply list_elem_of_fmap. by exists y.
  - destruct Hz. rewrite <- E. apply list_elem_of_fmap. by exists x.
  - by apply IH.
Qed.

Lemma terms_ok_list W : forallb (fun kv => is_ok (cell_term kv.1 (Some kv.2))) (map_to_list W) = true -> terms_ok W.
Proof.
  rewrite forallb_forall. intros Hall k v Hk. apply (Hall (k, v)). by apply list_elem_of_In, elem_of_map_to_list.
Qed.

(** The first store: commit zero over no cells. *)
Definition first_head : Head := {| hd_commit_id := GENESIS; hd_state_root := hash []; hd_index_root := hash [] |}.
Definition first_store : MemoryTx := (write_head first_head tx0).2.

(** A branch that has written a priced record and dropped a cell. *)
Definition cell_at (id : Z) (name : string) : CellKey := {| ck_record_id := id; ck_name := of_string name |}.
Definition priced (v : CellValue) : CellValue :=
  to_owned {| cr_ty := cr_ty (as_view v); cr_value := cr_value (as_view v); cr_indexable := true |}.
Definition sample_overlay : CellOverlay :=
  {| ov_entries := {[ cell_at 64 "price" := Some (priced (from_i32 5)); cell_at 64 "age" := Some (from_bool true); cell_at 65 "price" := None ]};
     ov_journal := ov_journal CellOverlay_new |}.

Lemma first_state : store_state first_store first_head REmpty REmpty ∅.
Proof.
  split; [by vm_compute|done|done|..].
  - apply (cells_state_across tx0 first_store); [reflexivity..|apply empty_state].
  - apply (index_state_across tx0 first_store); [|exact empty_index].
    intros tb Htb. unfold index_tables in Htb. rewrite !elem_of_cons, elem_of_nil in Htb. repeat destruct Htb as [->|Htb]; [reflexivity..|done].
Qed.

Lemma sample_staged : staged_wf sample_overlay.
Proof.
  intros k v. unfold sample_overlay. cbn [ov_entries]. rewrite !lookup_insert_Some, lookup_singleton_Some.
  intros [[<- <-]|[_ [[<- <-]|[_ [<- <-]]]]]; (split; [split; by vm_compute|]); intros x [= <-]; reflexivity.
Qed.

Lemma sample_terms : terms_ok (sealed_cells first_head ∅ sample_overlay).
Proof. apply terms_ok_list. by vm_compute. Qed.

Lemma sample_digests : digests_ok first_store first_head REmpty REmpty ∅ sample_overlay.
Proof.
  split.
  - apply clash_free_ok. by vm_compute.
  - done.
  - done.
  - assert (forall k, is_Some ((∅ : CellMap) !! k) \/ is_Some (<[roots_key (hd_commit_id first_head) := None]> (ov_entries sample_overlay) !! k) ->
      k ∈ (map_to_list (<[roots_key (hd_commit_id first_head) := None]> (ov_entries sample_overlay))).*1) as Hk.
    { intros k [[v Hv]|[v Hv]]; [by rewrite lookup_empty in Hv|]. apply list_elem_of_fmap. exists (k, v). split; [done|]. by apply elem_of_map_to_list. }
    intros k1 k2 A1%Hk A2%Hk. eapply inj_on_list; [|exact A1|exact A2]. apply (bool_decide_unpack _). by vm_compute.
  - assert (forall t id, (t, id) ∈ index_of ∅ ∪ index_of (sealed_cells first_head ∅ sample_overlay) -> t = price_term 5) as Ht.
    { intros t id Hin. assert (set_Forall (fun p => p.1 = price_term 5) (index_of ∅ ∪ index_of (sealed_cells first_head ∅ sample_overlay))) as Hall
        by (apply (bool_decide_unpack _); vm_compute; exact I).
      exact (Hall (t, id) Hin). }
    intros t1 t2 id1 id2 A1%Ht A2%Ht _. congruence.
Qed.

Lemma seal_commits_working_cells_witness :
  exists sealed tx' cell_root index_root, compute first_store sample_overlay = Ok sealed /\
    stage_commit GENESIS sealed first_store = (Ok (), tx') /\
    store_state tx' (sealed_head sealed) cell_root index_root (sealed_cells first_head ∅ sample_overlay).
Proof.
  assert (Hno : terms_ok ∅) by (intros k v Hk; by rewrite lookup_empty in Hk).
  assert (Hnum : 0 <= commit_number (hd_commit_id first_head) < 2 ^ 64 - 1) by (cbn; lia).
  assert (Hc : clash_free (sealing REmpty REmpty (seal_changes first_head sample_overlay) (Buffered_new first_store)).2 = true)
    by (vm_compute; reflexivity).
  assert (Hok : is_ok (compute first_store sample_overlay) = true) by (vm_compute; reflexivity).
  pose proof (seal_commits_working_cells first_store first_head REmpty REmpty ∅ sample_overlay first_state sample_digests sample_staged
    Hno sample_terms eq_refl Hnum (clash_free_ok _ Hc)) as Hseal.
  destruct (compute first_store sample_overlay) as [sealed|e| |]; [|discriminate Hok..].
  destruct Hseal as [_ Hpub]. destruct (Hpub first_store (fun tb => eq_refl)) as (tx' & cr & ir & Es & Hst & _).
  exists sealed, tx', cr, ir. split; [reflexivity|]. split; [exact Es|exact Hst].
Defined.
