(* ===== verification/Branches.v ===== *)
(** The branch manager: crates/branch/src/manager.rs.

    [Db] is the manager's shared state: the store, the registry and the branch
    counter. Each operation is a function on it; an operation holds its
    branch's lock from beginning to end, and a commit opens a second
    transaction after its snapshot, so it is also given in two parts between
    which other branches run. Lock poisoning is not modelled. *)
From Stdlib Require Import ZArith Lia.
From S2P Require Import Prelude Ordered Storage Scan CellTypes CellValue CellName MerkleNode MerkleTrie.
From S2P Require Import BranchTypes CellScan Overlay Cells Buffer Term Bitmap Index Seal Samples.

#[local] Open Scope Z_scope.

(** * Branch states *)

Record BranchState := {
  bs_commit_id : CommitId;
  bs_overlay : CellOverlay;
  bs_sealed : option SealedCommit
}.

(** [require_open] *)
Definition require_open (state : BranchState) : res BranchError unit :=
  match bs_sealed state with Some _ => Err Sealed | None => Ok () end.

Record BranchInfo := { bi_commit_id : CommitId; bi_branch_id : BranchId; bi_version : Z; bi_sealed : bool }.

(** [OperationError] of error.rs *)
Inductive OperationError (E : Type) : Type :=
  | OE_Branch (e : BranchError)
  | OE_Operation (e : E).
Arguments OE_Branch {E} _.
Arguments OE_Operation {E} _.

Definition set_overlay (o : CellOverlay) (state : BranchState) : BranchState :=
  {| bs_commit_id := bs_commit_id state; bs_overlay := o; bs_sealed := bs_sealed state |}.

(** [allocate_branch_id]: [fetch_update] returns the old value. *)
Definition allocate_branch_id (counter : Z) : res BranchError BranchId * Z :=
  match checked_succ counter with
  | Some next => (Ok {| branch_number := counter |}, next)
  | None => (Err BranchNumberExhausted, counter)
  end.

Section Manager.
Context `{Roaring} `{HashProvider} {S T : Type} `{WT : WriteTransaction T} `{!Store S T}.

(** [BranchState::seal] *)
Definition BranchState_seal (origin : T) : stres BranchState BranchError SealedCommit := fun state =>
  match bs_sealed state with
  | Some sealed => (Ok sealed, state)
  | None =>
      match compute origin (bs_overlay state) with
      | Ok sealed =>
          (Ok sealed, {| bs_commit_id := bs_commit_id state; bs_overlay := bs_overlay state; bs_sealed := Some sealed |})
      | Err e => (Err e, state)
      | Panic => (Panic, state)
      | Diverge => (Diverge, state)
      end
  end.

(** * The manager *)

Record Db := {
  db_store : S;
  db_branches : gmap BranchId (option BranchState);
  db_next_branch_id : Z
}.

Definition set_store (s : S) (db : Db) : Db :=
  {| db_store := s; db_branches := db_branches db; db_next_branch_id := db_next_branch_id db |}.

(** The slot behind a registry entry; an entry already removed keeps none. *)
Definition set_slot (id : BranchId) (slot : option BranchState) (db : Db) : Db :=
  {| db_store := db_store db; db_branches := alter (fun _ => slot) id (db_branches db);
     db_next_branch_id := db_next_branch_id db |}.

(** [remove] *)
Definition db_remove (id : BranchId) (db : Db) : Db :=
  {| db_store := db_store db; db_branches := delete id (db_branches db); db_next_branch_id := db_next_branch_id db |}.

(** [head] *)
Definition db_head (db : Db) : res BranchError CommitId :=
  tx ← map_err BE_Storage (begin_read (db_store db));
  read_head tx.

(** The part of [begin] after the head was read. The allocation and the insertion
    are one step: until [begin] returns it nobody else knows the ID. *)
Definition begin_at (head : CommitId) : stres Db BranchError BranchId := fun db =>
  let state := {| bs_commit_id := head; bs_overlay := CellOverlay_new; bs_sealed := None |} in
  let '(r, next) := allocate_branch_id (db_next_branch_id db) in
  match r with
  | Ok id =>
      (Ok id, {| db_store := db_store db; db_branches := <[id := Some state]> (db_branches db);
                 db_next_branch_id := next |})
  | Err e => (Err e, db)
  | Panic => (Panic, db)
  | Diverge => (Diverge, db)
  end.

(** [begin] *)
Definition db_begin : stres Db BranchError BranchId := fun db =>
  match db_head db with
  | Ok head => begin_at head db
  | Err e => (Err e, db)
  | Panic => (Panic, db)
  | Diverge => (Diverge, db)
  end.

(** [with_slot]: a panic of the operation is resumed after the slot is
    unlocked, so it is an outcome like the others. *)
Definition with_slot {E A : Type} (inj : BranchError -> E) (id : BranchId) (stale_error : BranchError)
    (operation : T -> stres (option BranchState * Db) E A) : stres Db E A := fun db =>
  match db_branches db !! id with
  | Some (Some state) =>
      match begin_read (db_store db) with
      | Ok origin =>
          match read_head origin with
          | Ok head =>
              if negb (bool_decide (head = bs_commit_id state))
              then (Err (inj stale_error), db_remove id (set_slot id None db))
              else
                let '(r, (slot, db)) := operation origin (Some state, db) in
                (r, set_slot id slot db)
          | Err e => (Err (inj e), db)
          | Panic => (Panic, db)
          | Diverge => (Diverge, db)
          end
      | Err e => (Err (inj (BE_Storage e)), db)
      | Panic => (Panic, db)
      | Diverge => (Diverge, db)
      end
  | _ => (Err (inj HandleInvalid), db)
  end.

(** [with_branch] *)
Definition with_branch {E A : Type} (inj : BranchError -> E) (id : BranchId)
    (operation : T -> stres BranchState E A) : stres Db E A :=
  with_slot inj id HandleInvalid (fun origin '(slot, db) =>
    match slot with
    | Some state => let '(r, state) := operation origin state in (r, (Some state, db))
    | None => (Err (inj HandleInvalid), (None, db))
    end).

(** [branch_info] *)
Definition db_branch_info (id : BranchId) : stres Db BranchError BranchInfo :=
  with_branch (fun e => e) id (fun _ => reading (fun state => Ok {|
    bi_commit_id := bs_commit_id state; bi_branch_id := id;
    bi_version := CellOverlay_version (bs_overlay state);
    bi_sealed := bool_decide (is_Some (bs_sealed state)) |})).

(** [read]: the callback sees the overlay and the snapshot. *)
Definition db_read {E A : Type} (id : BranchId) (operation : CellOverlay -> T -> res E A)
    : stres Db (OperationError E) A :=
  with_branch OE_Branch id (fun origin => reading (fun state =>
    map_err OE_Operation (operation (bs_overlay state) origin))).

(** [write] *)
Definition db_write {E A : Type} (id : BranchId) (operation : CellProg T E A) : stres Db (OperationError E) A :=
  with_branch OE_Branch id (fun origin state =>
    match require_open state with
    | Ok _ =>
        let '(r, o) := CellOverlay_write origin operation (bs_overlay state) in
        (map_err OE_Operation r, set_overlay o state)
    | Err e => (Err (OE_Branch e), state)
    | Panic => (Panic, state)
    | Diverge => (Diverge, state)
    end).

(** [checkpoint] and [rollback] *)
Definition db_checkpoint (id : BranchId) : stres Db BranchError unit :=
  with_branch (fun e => e) id (fun _ state =>
    match require_open state with
    | Ok _ => (Ok (), set_overlay (CellOverlay_checkpoint (bs_overlay state)) state)
    | r => (r, state)
    end).

Definition db_rollback (id : BranchId) : stres Db BranchError unit :=
  with_branch (fun e => e) id (fun _ state =>
    match require_open state with
    | Ok _ => let '(r, o) := CellOverlay_rollback (bs_overlay state) in (r, set_overlay o state)
    | r => (r, state)
    end).

(** [seal] *)
Definition db_seal (id : BranchId) : stres Db BranchError SealedCommit :=
  with_branch (fun e => e) id BranchState_seal.

(** [commit], first part: the operation up to its writer *)
Definition commit_seal (origin : T) : stres (option BranchState * Db) BranchError (CommitId * SealedCommit) :=
  fun '(slot, db) =>
    match slot with
    | Some state =>
        let '(r, state') := BranchState_seal origin state in
        (sealed ← r; Ok (bs_commit_id state, sealed), (Some state', db))
    | None => (Err HandleInvalid, (None, db))
    end.

(** [commit], second part: the writer, the publication and the slot *)
Definition commit_publish (id : BranchId) (commit_id : CommitId) (sealed : SealedCommit)
    : stres (option BranchState * Db) BranchError CommitId := fun '(slot, db) =>
  match begin_write (db_store db) with
  | (Ok tx, s) =>
      let '(r, s) := persist tx commit_id sealed s in
      let db := set_store s db in
      match r with
      | Ok commit_id => (Ok commit_id, (None, db_remove id db))
      | Err Conflict => (Err Conflict, (None, db_remove id db))
      | r => (r, (slot, db))
      end
  | (Err e, s) => (Err (BE_Storage e), (slot, set_store s db))
  | (Panic, s) => (Panic, (slot, set_store s db))
  | (Diverge, s) => (Diverge, (slot, set_store s db))
  end.

Definition db_commit (id : BranchId) : stres Db BranchError CommitId :=
  with_slot (fun e => e) id Conflict (fun origin =>
    '(commit_id, sealed) ← commit_seal origin;
    commit_publish id commit_id sealed).

(** [discard] *)
Definition db_discard (id : BranchId) : stres Db BranchError unit := fun db =>
  match with_slot (fun e => e) id HandleInvalid (fun _ '(_, db) => (Ok (), (None, db))) db with
  | (Ok _, db) => (Ok (), db_remove id db)
  | (r, db) => (r, db)
  end.

(** [Branches::new] *)
Definition db_new (store : S) (next : Z) : res BranchError Db :=
  tx ← map_err BE_Storage (begin_read store);
  _ ← read_head tx;
  Ok {| db_store := store; db_branches := ∅; db_next_branch_id := next |}.

(** ** A commit in two parts, with its branch locked in between *)

Definition commit_open (id : BranchId) : stres Db BranchError (CommitId * SealedCommit) :=
  with_slot (fun e => e) id Conflict commit_seal.

Definition commit_close (id : BranchId) (commit_id : CommitId) (sealed : SealedCommit) : stres Db BranchError CommitId :=
  fun db =>
    let '(r, (slot, db)) := commit_publish id commit_id sealed (default None (db_branches db !! id), db) in
    (r, set_slot id slot db).
End Manager.
Arguments Db S : clear implicits.

(** * What an operation does to the registry *)

(** How an operation changes its branch: the origin stays, a sealed branch is
    frozen, and a seal is the one computed over the snapshot. *)
Record branch_step `{Roaring} `{HashProvider} {T} `{ReadTransaction T} (origin : T) (st st' : BranchState) : Prop := {
  step_origin : bs_commit_id st' = bs_commit_id st;
  step_frozen : is_Some (bs_sealed st) -> st' = st;
  step_sealed : bs_sealed st' = bs_sealed st \/ exists sl, compute origin (bs_overlay st) = Ok sl /\ bs_sealed st' = Some sl
}.

Section Registry.
Context `{Roaring} `{HashProvider} {S T : Type} `{WT : WriteTransaction T} `{ST : !Store S T}.

(** The three ways a call on a branch ends. *)
Inductive called (id : BranchId) (db db' : Db S) : Prop :=
  | called_refused : db' = db -> called id db db'
  | called_stale st origin : db_branches db !! id = Some (Some st) -> begin_read (db_store db) = Ok origin ->
      read_head origin <> Ok (bs_commit_id st) -> db' = db_remove id db -> called id db db'
  | called_live st st' origin : db_branches db !! id = Some (Some st) -> begin_read (db_store db) = Ok origin ->
      read_head origin = Ok (bs_commit_id st) -> branch_step origin st st' -> db' = set_slot id (Some st') db ->
      called id db db'
  | called_gone st origin : db_branches db !! id = Some (Some st) -> begin_read (db_store db) = Ok origin ->
      read_head origin = Ok (bs_commit_id st) -> db' = db_remove id db -> called id db db'.

Lemma remove_set_slot id slot (db : Db S) : db_remove id (set_slot id slot db) = db_remove id db.
Proof. unfold db_remove, set_slot. cbn. f_equal. apply delete_alter_eq. Qed.

Lemma set_slot_same id st (db : Db S) : db_branches db !! id = Some (Some st) -> set_slot id (Some st) db = db.
Proof.
  intros Hid. destruct db as [s b n]. unfold set_slot. cbn in *. f_equal. apply map_eq. intros i.
  destruct (decide (i = id)) as [->|]; [by rewrite lookup_alter_eq, Hid|by rewrite lookup_alter_ne].
Qed.

Lemma set_slot_twice id a b s (db : Db S) : set_slot id a (set_store s (set_slot id b db)) = set_slot id a (set_store s db).
Proof.
  unfold set_slot, set_store. cbn. f_equal. apply map_eq. intros i.
  destruct (decide (i = id)) as [->|]; [rewrite !lookup_alter_eq; by destruct (db_branches db !! id)|by rewrite !lookup_alter_ne].
Qed.

Lemma remove_store_slot id b s (db : Db S) : db_remove id (set_store s (set_slot id b db)) = db_remove id (set_store s db).
Proof. unfold db_remove, set_store, set_slot. cbn. f_equal. apply delete_alter_eq. Qed.

Lemma with_branch_called {E A} (inj : BranchError -> E) id (op : T -> stres BranchState E A) (db : Db S) :
  (forall origin st, branch_step origin st (op origin st).2) -> called id db (with_branch inj id op db).2.
Proof.
  intros Hop. unfold with_branch, with_slot. destruct (db_branches db !! id) as [[st|]|] eqn:Eid; [|by apply called_refused..].
  destruct (begin_read (db_store db)) as [origin|e| |] eqn:Er; [|by apply called_refused..].
  destruct (read_head origin) as [hd|e| |] eqn:Eh; [|by apply called_refused..].
  case_bool_decide as Ehd; cbn [negb].
  - subst hd. specialize (Hop origin st). destruct (op origin st) as [r st']. cbn [snd] in *. by eapply called_live.
  - cbn [snd]. eapply called_stale; [done|done| |apply remove_set_slot]. congruence.
Qed.

Lemma branch_step_refl origin st : branch_step origin st st.
Proof. split; auto. Qed.

Lemma overlay_step origin st o : bs_sealed st = None -> branch_step origin st (set_overlay o st).
Proof. intros Hs. split; [done| |by left]. rewrite Hs. by intros [? ?]. Qed.

Lemma require_open_ok st : require_open st = Ok () <-> bs_sealed st = None.
Proof. unfold require_open. by destruct (bs_sealed st). Qed.

Lemma seal_step origin st : branch_step origin st (BranchState_seal origin st).2.
Proof.
  unfold BranchState_seal. destruct (bs_sealed st) as [sl|] eqn:Es; [apply branch_step_refl|].
  destruct (compute origin (bs_overlay st)) as [sl|e| |] eqn:Ec; cbn [snd]; try apply branch_step_refl.
  split; [done| |cbn; eauto]. rewrite Es. by intros [? ?].
Qed.

(** The calls on one branch that hold its lock from beginning to end. *)
Inductive branch_call (id : BranchId) (db : Db S) : Db S -> Prop :=
  | call_info : branch_call id db (db_branch_info id db).2
  | call_read {E A} (f : CellOverlay -> T -> res E A) : branch_call id db (db_read id f db).2
  | call_write {E A} (p : CellProg T E A) : branch_call id db (db_write id p db).2
  | call_checkpoint : branch_call id db (db_checkpoint id db).2
  | call_rollback : branch_call id db (db_rollback id db).2
  | call_seal : branch_call id db (db_seal id db).2
  | call_discard : branch_call id db (db_discard id db).2.

Lemma discard_called id (db : Db S) : called id db (db_discard id db).2.
Proof.
  unfold db_discard, with_slot. destruct (db_branches db !! id) as [[st|]|] eqn:Eid; [|by apply called_refused..].
  destruct (begin_read (db_store db)) as [origin|e| |] eqn:Er; [|by apply called_refused..].
  destruct (read_head origin) as [hd|e| |] eqn:Eh; [|by apply called_refused..].
  case_bool_decide as Ehd; cbn [negb snd].
  - subst hd. eapply called_gone; [done..|apply remove_set_slot].
  - eapply called_stale; [done|done| |apply remove_set_slot]. congruence.
Qed.

Lemma branch_call_called id db db' : branch_call id db db' -> called id db db'.
Proof.
  destruct 1; [..|apply discard_called]; apply with_branch_called; intros origin st; try apply branch_step_refl; [| | |apply seal_step].
  - destruct (require_open st) eqn:Eo; [|apply branch_step_refl..]. destruct (CellOverlay_write _ _ _).
    apply overlay_step. apply require_open_ok. by destruct a.
  - destruct (require_open st) eqn:Eo; [|apply branch_step_refl..]. apply overlay_step, require_open_ok. by destruct a.
  - destruct (require_open st) eqn:Eo; [|apply branch_step_refl..]. destruct (CellOverlay_rollback _).
    apply overlay_step, require_open_ok. by destruct a.
Qed.

(** ** Sequences of calls, with commits in two parts *)

Record World := { w_db : Db S; w_open : gmap BranchId (CommitId * SealedCommit) }.

(** One step; a commit that publishes is labelled with its number. [begin] reads
    the head and registers its branch under separate locks: [w_begin_late] is the
    registration when other steps, commits among them, came between. It admits
    any number for the head read then. *)
Inductive world_step (w : World) : option CommitId -> World -> Prop :=
  | w_begin r db' : db_begin (w_db w) = (r, db') -> world_step w None {| w_db := db'; w_open := w_open w |}
  | w_begin_late c r db' : uint_range 8 (commit_number c) -> begin_at c (w_db w) = (r, db') ->
      world_step w None {| w_db := db'; w_open := w_open w |}
  | w_call id db' : w_open w !! id = None -> branch_call id (w_db w) db' ->
      world_step w None {| w_db := db'; w_open := w_open w |}
  | w_commit_open id r db' : w_open w !! id = None -> commit_open id (w_db w) = (r, db') ->
      world_step w None {| w_db := db'; w_open := match r with Ok p => <[id := p]> (w_open w) | _ => w_open w end |}
  | w_commit_close id c sealed r db' : w_open w !! id = Some (c, sealed) ->
      commit_close id c sealed (w_db w) = (r, db') ->
      world_step w (match r with Ok c => Some c | _ => None end) {| w_db := db'; w_open := delete id (w_open w) |}.

(** A run, with the numbers its commits returned, in order. *)
Inductive world_run : World -> list CommitId -> World -> Prop :=
  | run_nil w : world_run w [] w
  | run_cons w l w1 ls w2 : world_step w l w1 -> world_run w1 ls w2 -> world_run w (option_list l ++ ls) w2.
End Registry.
Arguments World S : clear implicits.

(** * The manager's invariant *)

Section Invariant.
Context `{Roaring} `{HashProvider} {S T : Type} `{WT : WriteTransaction T} {RL : ReadLaws T} {WL : WriteLaws T}.
Context `{ST : !Store S T} {SL : StoreLaws S T}.

(** A live branch: its origin is a commit number, and its seal, if any, takes
    the next number and writes only the tables of cells and index. *)
Definition state_ok (st : BranchState) : Prop :=
  uint_range 8 (commit_number (bs_commit_id st)) /\
  forall sl, bs_sealed st = Some sl ->
    tables_in (sl_writes sl) /\
    checked_succ (commit_number (bs_commit_id st)) = Some (commit_number (sl_commit_id sl)).

Record db_ok (db : Db S) : Prop := {
  ok_ids id slot : db_branches db !! id = Some slot -> 0 <= branch_number id < db_next_branch_id db;
  ok_slots id slot : db_branches db !! id = Some slot -> exists st, slot = Some st /\ state_ok st;
  ok_next : 0 <= db_next_branch_id db
}.

Record world_ok (w : World S) : Prop := {
  ok_db : db_ok (w_db w);
  ok_open id c sl : w_open w !! id = Some (c, sl) -> exists st,
    db_branches (w_db w) !! id = Some (Some st) /\ bs_commit_id st = c /\ bs_sealed st = Some sl
}.

Lemma branch_step_ok origin st st' : branch_step origin st st' -> read_head (origin : T) = Ok (bs_commit_id st) ->
  state_ok st -> state_ok st'.
Proof using RL.
  intros [Ho Hf Hs] Hh [Hr Hsl]. split; [by rewrite Ho|]. intros sl Esl. rewrite Ho. destruct Hs as [Hs|(sl' & Hc & Hs)].
  - apply Hsl. by rewrite <- Hs.
  - rewrite Hs in Esl. injection Esl as ->. split; [by eapply compute_tables|].
    apply compute_inv in Hc as (h & _ & _ & _ & _ & _ & _ & Hh' & Hn & _). unfold read_head in Hh. rewrite Hh' in Hh.
    injection Hh as <-. exact Hn.
Qed.

(** A call changes at most its own entry, never the published rows. *)
Lemma called_ok id db db' : db_ok db -> called id db db' ->
  db_ok db' /\ db_store db' = db_store db /\ db_next_branch_id db' = db_next_branch_id db /\
  (forall i, i <> id -> db_branches db' !! i = db_branches db !! i).
Proof using RL.
  intros [Hid Hsl Hn] Hc. destruct Hc as [->|st origin Hst _ _ ->|st st' origin Hst Hr Hh Hstep ->|st origin Hst _ _ ->].
  - done.
  - split_and!; [|done..|intros i Hi; cbn; by rewrite lookup_delete_ne].
    split; cbn; [intros i slot [_ Hi]%lookup_delete_Some; eauto..|done].
  - split_and!; [|done..|intros i Hi; cbn; by rewrite lookup_alter_ne].
    assert (state_ok st') as Hok.
    { destruct (Hsl _ _ Hst) as (? & [= <-] & Hst'). by eapply branch_step_ok. }
    split; cbn; [intros i slot Hi..|done]; destruct (decide (i = id)) as [->|Hne];
      rewrite ?lookup_alter_eq, ?lookup_alter_ne in Hi by done; eauto; rewrite Hst in Hi; injection Hi as <-; eauto.
  - split_and!; [|done..|intros i Hi; cbn; by rewrite lookup_delete_ne].
    split; cbn; [intros i slot [_ Hi]%lookup_delete_Some; eauto..|done].
Qed.

Lemma begin_at_ok head db r db' : db_ok db -> uint_range 8 (commit_number head) -> begin_at head db = (r, db') ->
  db_ok db' /\ db_store db' = db_store db /\ db_next_branch_id db <= db_next_branch_id db' /\
  (forall i, branch_number i < db_next_branch_id db -> db_branches db' !! i = db_branches db !! i).
Proof using RL.
  intros Hok Hr. unfold begin_at, allocate_branch_id. destruct (checked_succ (db_next_branch_id db)) as [next|] eqn:En; intros [= <- <-]; [|done].
  pose proof Hok as [Hid Hsl Hn]. assert (next = db_next_branch_id db + 1) as ->.
  { unfold checked_succ in En. destruct (_ <? _); congruence. }
  split_and!; [|done|cbn; lia|].
  - split; cbn; [| |lia].
    + intros i slot [[<- _]|[_ Hi%Hid]]%lookup_insert_Some; cbn; lia.
    + intros i slot [[<- <-]|[_ Hi]]%lookup_insert_Some; [|eauto]. eexists. split; [done|]. split; [done|]. done.
  - intros i Hi. cbn. rewrite lookup_insert_ne; [done|]. intros <-. cbn in Hi. lia.
Qed.

Lemma begin_ok db r db' : db_ok db -> db_begin db = (r, db') ->
  db_ok db' /\ db_store db' = db_store db /\ db_next_branch_id db <= db_next_branch_id db' /\
  (forall i, branch_number i < db_next_branch_id db -> db_branches db' !! i = db_branches db !! i).
Proof using RL.
  intros Hok. unfold db_begin. destruct (db_head db) as [head|e| |] eqn:Eh; [|intros [= <- <-]; done..].
  apply begin_at_ok; [done|]. unfold db_head in Eh. apply res_bind_ok in Eh as (tx & _ & Eh). apply read_head_is in Eh as (h & Hh & <-).
  apply head_of_inv in Hh as [Hw _]. apply Hw.
Qed.

Lemma commit_open_called id db r db' : commit_open id db = (r, db') ->
  called id db db' /\ forall c sl, r = Ok (c, sl) -> exists st,
    db_branches db' !! id = Some (Some st) /\ bs_commit_id st = c /\ bs_sealed st = Some sl.
Proof using.
  unfold commit_open, with_slot. destruct (db_branches db !! id) as [[st|]|] eqn:Eid;
    [|intros [= <- <-]; split; [by apply called_refused|done]..].
  destruct (begin_read (db_store db)) as [origin|e| |] eqn:Er; [|intros [= <- <-]; split; [by apply called_refused|done]..].
  destruct (read_head origin) as [hd|e| |] eqn:Eh; [|intros [= <- <-]; split; [by apply called_refused|done]..].
  case_bool_decide as Ehd; cbn [negb].
  2:{ intros [= <- <-]. split; [|done]. eapply called_stale; [done|done| |apply remove_set_slot]. congruence. }
  subst hd. cbn [commit_seal]. pose proof (seal_step origin st) as Hstep.
  destruct (BranchState_seal origin st) as [rs st'] eqn:Es. intros [= <- <-]. split; [by eapply called_live|].
  intros c sl Hr. apply res_bind_ok in Hr as (sl' & -> & [= <- <-]). exists st'. cbn [set_slot db_branches].
  rewrite lookup_alter_eq, Eid. split_and!; [done|apply Hstep|].
  unfold BranchState_seal in Es. destruct (bs_sealed st) eqn:Eb; [congruence|].
  destruct (compute origin (bs_overlay st)); [|congruence..]. injection Es as <- <-. done.
Qed.

Lemma commit_close_inv id c sl db r db' st : tables_in (sl_writes sl) -> db_branches db !! id = Some (Some st) ->
  commit_close id c sl db = (r, db') ->
  db_next_branch_id db' = db_next_branch_id db /\
  match r with
  | Ok c' => c' = sl_commit_id sl /\ head_is (published (db_store db)) c /\
      length (sl_state_root sl) = 32%nat /\ length (sl_index_root sl) = 32%nat /\
      db_branches db' = delete id (db_branches db) /\
      forall tb, published (db_store db') tb = committed_view sl (published (db_store db)) tb
  | _ => (db_branches db' = delete id (db_branches db) \/ db_branches db' = db_branches db) /\
      forall tb, published (db_store db') tb = published (db_store db) tb
  end.
Proof using WL SL.
  intros Hw Hst. assert (forall s, db_branches (set_slot id (Some st) (set_store s db)) = db_branches db) as Hsame.
  { intros s. cbn. apply (f_equal db_branches (set_slot_same id st db Hst)). }
  assert (forall s slot, db_branches (set_slot id slot (db_remove id (set_store s db))) = delete id (db_branches db)) as Hdel.
  { intros s slot. cbn. apply alter_delete_eq. }
  unfold commit_close, commit_publish. rewrite Hst. change (default None (Some (Some st))) with (Some st). cbv zeta beta iota.
  destruct (begin_write (db_store db)) as [rw s] eqn:Eb. apply begin_write_spec in Eb as [Htx Hpub].
  destruct rw as [tx|e| |]; [|intros [= <- <-]; split; [done|]; split; [by right; apply Hsame|exact Hpub]..].
  destruct (persist tx c sl s) as [rp s'] eqn:Ep. apply (persist_inv tx c sl) in Ep; [|done|].
  2:{ intros tb. by rewrite (Htx tx eq_refl), Hpub. }
  destruct rp as [c'|e| |]; [|destruct e| |]; intros [= <- <-]; split; try done.
  1: { destruct Ep as (-> & (h & Hh & <-) & Hl1 & Hl2 & V). split_and!; [done| |done|done|apply Hdel|].
    - exists h. by rewrite <- Hpub.
    - intros tb. cbn. rewrite V. unfold committed_view, upd_view, apply_writes. by rewrite !Hpub. }
  all: split; [first [by right; apply Hsame|by left; apply Hdel]|]; intros tb; cbn; by rewrite Ep, Hpub.
Qed.
(** ** Runs *)

Lemma world_step_ok w l w' : world_ok w -> world_step w l w' -> world_ok w'.
Proof using WL SL.
  intros [Hdb Hopen] Hstep. destruct Hstep as [r db' Hb|cb r db' Hc Hb|id db' Hno Hc|id r db' Hno Hc|id c sl r db' Hid Hc].
  - pose proof (begin_ok _ _ _ Hdb Hb) as (Hok & _ & _ & Hsame). split; cbn; [done|]. intros i c sl Hi.
    destruct (Hopen i c sl Hi) as (st & Hst & ?). exists st. split; [|done]. rewrite Hsame; [done|]. by eapply ok_ids.
  - pose proof (begin_at_ok _ _ _ _ Hdb Hc Hb) as (Hok & _ & _ & Hsame). split; cbn; [done|]. intros i c' sl Hi.
    destruct (Hopen i c' sl Hi) as (st & Hst & ?). exists st. split; [|done]. rewrite Hsame; [done|]. by eapply ok_ids.
  - apply branch_call_called in Hc. destruct (called_ok _ _ _ Hdb Hc) as (Hok & _ & _ & Hsame). split; cbn; [done|].
    intros i c sl Hi. rewrite Hsame by (intros ->; congruence). by apply Hopen.
  - apply commit_open_called in Hc as [Hc Hr]. destruct (called_ok _ _ _ Hdb Hc) as (Hok & _ & _ & Hsame). split; cbn; [done|].
    intros i c sl Hi. destruct (decide (i = id)) as [->|Hne].
    + destruct r as [p|e| |]; [|congruence..]. rewrite lookup_insert_eq in Hi. injection Hi as ->. by apply Hr.
    + rewrite Hsame by done. apply Hopen. by destruct r; rewrite ?lookup_insert_ne in Hi by done.
  - destruct (Hopen id c sl Hid) as (st & Hst & Hc0 & Hsl).
    destruct (ok_slots _ Hdb id _ Hst) as (? & [= <-] & _ & Hsealed). destruct (Hsealed sl Hsl) as [Htab _].
    destruct (commit_close_inv id c sl _ r db' st Htab Hst Hc) as [Hnext Hr].
    assert (db_branches db' = delete id (db_branches (w_db w)) \/ db_branches db' = db_branches (w_db w)) as Hbr.
    { destruct r; [left; apply Hr|apply Hr..]. }
    split; cbn.
    + destruct Hdb as [Hi Hs Hn]. split; [| |by rewrite Hnext].
      * intros i slot Hslot. rewrite Hnext. destruct Hbr as [E|E]; rewrite E in Hslot; [apply lookup_delete_Some in Hslot as [_ Hslot]|]; eauto.
      * intros i slot Hslot. destruct Hbr as [E|E]; rewrite E in Hslot; [apply lookup_delete_Some in Hslot as [_ Hslot]|]; eauto.
    + intros i c' sl' [Hne Hi]%lookup_delete_Some. destruct (Hopen i c' sl' Hi) as (st' & Hst' & ?). exists st'. split; [|done].
      destruct Hbr as [->| ->]; [by rewrite lookup_delete_ne|done].
Qed.

(** The commit number after some others. *)
Definition commit_after (c : CommitId) (n : nat) : CommitId := {| commit_number := commit_number c + Z.of_nat n |}.

Lemma head_is_ext v v' c : (forall tb, v' tb = v tb) -> head_is v c -> head_is v' c.
Proof using. intros Hv (h & Hh & <-). exists h. by rewrite Hv. Qed.

(** A step publishes nothing, or publishes the number after the head's. *)
Lemma world_step_head w l w' c : world_ok w -> world_step w l w' -> head_is (published (db_store (w_db w))) c ->
  match l with
  | None => forall tb, published (db_store (w_db w')) tb = published (db_store (w_db w)) tb
  | Some c' => c' = commit_after c 1 /\ head_is (published (db_store (w_db w'))) c'
  end.
Proof using WL SL.
  intros [Hdb Hopen] Hstep Hh. destruct Hstep as [r db' Hb|cb r db' Hc Hb|id db' Hno Hc|id r db' Hno Hc|id c0 sl r db' Hid Hc]; cbn [w_db].
  - destruct (begin_ok _ _ _ Hdb Hb) as (_ & -> & _). done.
  - destruct (begin_at_ok _ _ _ _ Hdb Hc Hb) as (_ & -> & _). done.
  - apply branch_call_called in Hc. destruct (called_ok _ _ _ Hdb Hc) as (_ & -> & _). done.
  - apply commit_open_called in Hc as [Hc _]. destruct (called_ok _ _ _ Hdb Hc) as (_ & -> & _). done.
  - destruct (Hopen id c0 sl Hid) as (st & Hst & Hc0 & Hsl).
    destruct (ok_slots _ Hdb id _ Hst) as (? & [= <-] & Hr0 & Hsealed). destruct (Hsealed sl Hsl) as [Htab Hsucc].
    destruct (commit_close_inv id c0 sl _ r db' st Htab Hst Hc) as [_ Hr]. destruct r as [c'|e| |]; [|apply Hr..].
    destruct Hr as (-> & Hh0 & Hl1 & Hl2 & _ & V). pose proof (head_is_fun _ _ _ Hh Hh0) as ->.
    rewrite Hc0 in Hsucc, Hr0. unfold checked_succ in Hsucc. destruct (Z.ltb_spec (commit_number c0) (2 ^ 64 - 1)) as [Hlt|]; [|done].
    injection Hsucc as Hsucc. assert (sl_commit_id sl = commit_after c0 1) as Hsl1.
    { destruct (sl_commit_id sl) as [n]. cbn in Hsucc. unfold commit_after. by rewrite <- Hsucc. }
    split; [done|]. exists (sealed_head sl). rewrite V. split; [|done]. apply committed_head. split_and!; cbn; [|done..].
    rewrite Hsl1. cbn. unfold uint_range in *. change (pow256 8) with (2 ^ 64) in *. lia.
Qed.

Lemma world_run_ok w ls w' : world_run w ls w' -> world_ok w -> world_ok w'.
Proof using WL SL. induction 1; eauto using world_step_ok. Qed.

Lemma world_run_chain w ls w' : world_run w ls w' -> forall c, world_ok w -> head_is (published (db_store (w_db w))) c ->
  ls = (fun i => commit_after c (i + 1)) <$> seq 0 (length ls) /\
  head_is (published (db_store (w_db w'))) (commit_after c (length ls)).
Proof using WL SL.
  induction 1 as [w|w l w1 ls w2 Hs Hrun IH]; intros c Hok Hh.
  - split; [done|]. destruct c as [n]. unfold commit_after. cbn. by rewrite Z.add_0_r.
  - pose proof (world_step_head _ _ _ _ Hok Hs Hh) as Hl. pose proof (world_step_ok _ _ _ Hok Hs) as Hok1.
    destruct l as [c'|]; cbn [option_list app].
    + destruct Hl as [-> Hh1]. destruct (IH _ Hok1 Hh1) as [E Hh2].
      change (option_list (Some (commit_after c 1)) ++ ls) with (commit_after c 1 :: ls). cbn [length seq]. split.
      * rewrite fmap_cons. f_equal. rewrite <- fmap_S_seq, <- list_fmap_compose. rewrite E at 1. apply list_fmap_ext. intros i x _. unfold commit_after. cbn. f_equal. lia.
      * unfold commit_after in *. cbn [commit_number] in Hh2. by replace (commit_number c + Z.of_nat (Datatypes.S (length ls))) with (commit_number c + Z.of_nat 1 + Z.of_nat (length ls)) by lia.
    + apply (head_is_ext _ _ _ Hl) in Hh. change (option_list None ++ ls) with ls. by apply IH.
Qed.

(** An ID that was handed out and is no longer registered stays so. *)
Lemma world_step_dead w l w' i : world_ok w -> world_step w l w' -> branch_number i < db_next_branch_id (w_db w) ->
  db_branches (w_db w) !! i = None ->
  branch_number i < db_next_branch_id (w_db w') /\ db_branches (w_db w') !! i = None.
Proof using WL SL.
  intros [Hdb Hopen] Hstep Hi Hn.
  assert (forall id db', called id (w_db w) db' ->
    branch_number i < db_next_branch_id db' /\ db_branches db' !! i = None) as Hcalled.
  { intros id db' Hc. destruct (called_ok _ _ _ Hdb Hc) as (_ & _ & -> & Hsame). split; [done|].
    destruct (decide (i = id)) as [->|]; [|by rewrite Hsame]. destruct Hc as [->|? ? E|? ? ? E|? ? E]; congruence. }
  destruct Hstep as [r db' Hb|cb r db' Hc Hb|id db' Hno Hc|id r db' Hno Hc|id c0 sl r db' Hid Hc]; cbn [w_db].
  - destruct (begin_ok _ _ _ Hdb Hb) as (_ & _ & Hle & Hsame). split; [lia|]. by rewrite Hsame.
  - destruct (begin_at_ok _ _ _ _ Hdb Hc Hb) as (_ & _ & Hle & Hsame). split; [lia|]. by rewrite Hsame.
  - by eapply Hcalled, branch_call_called.
  - apply commit_open_called in Hc as [Hc _]. by eapply Hcalled.
  - destruct (Hopen id c0 sl Hid) as (st & Hst & Hc0 & Hsl).
    destruct (ok_slots _ Hdb id _ Hst) as (? & [= <-] & _ & Hsealed). destruct (Hsealed sl Hsl) as [Htab _].
    destruct (commit_close_inv id c0 sl _ r db' st Htab Hst Hc) as [-> Hr]. split; [done|].
    assert (db_branches db' = delete id (db_branches (w_db w)) \/ db_branches db' = db_branches (w_db w)) as [->| ->]
      by (destruct r; [left; apply Hr|apply Hr..]); [|done].
    rewrite lookup_delete_ne; [done|congruence].
Qed.

Lemma world_run_dead w ls w' i : world_run w ls w' -> world_ok w -> branch_number i < db_next_branch_id (w_db w) ->
  db_branches (w_db w) !! i = None -> db_branches (w_db w') !! i = None.
Proof using WL SL.
  induction 1 as [w|w l w1 ls w2 Hs Hrun IH]; intros Hok Hi Hn; [done|].
  destruct (world_step_dead _ _ _ _ Hok Hs Hi Hn). apply IH; [|done..]. by eapply world_step_ok.
Qed.
End Invariant.

(** * Properties *)

(** C2. Commits form one chain over the head, in every interleaving of calls on
    any number of branches, even when other commits publish between a commit's
    seal and its writer, or between the head read of a [begin] and its branch: the numbers the successful commits return, in the
    order they publish, are the ones right after the initial head's, and the
    store's head is the last of them. A commit over a head that moved publishes
    nothing, so no update is lost. *)
Theorem commits_form_a_chain `{Roaring} `{HashProvider} {S T : Type} `{WT : WriteTransaction T} {RL : ReadLaws T} {WL : WriteLaws T}
    `{ST : !Store S T} {SL : StoreLaws S T} (w w' : World S) (commits : list CommitId) (c : CommitId) :
  world_ok w -> head_is (published (db_store (w_db w))) c -> world_run w commits w' ->
  commits = (fun i => commit_after c (i + 1)) <$> seq 0 (length commits) /\
  head_is (published (db_store (w_db w'))) (commit_after c (length commits)).
Proof. intros Hok Hh Hrun. by eapply world_run_chain. Qed.

(** A store holding only a genesis head over empty cells and an empty index. *)
Definition genesis_head : Head := {| hd_commit_id := GENESIS; hd_state_root := hash []; hd_index_root := hash [] |}.
Definition genesis_store : MemoryStore :=
  {| committed := {[ SUPERBLOCK := {[ HEAD_KEY := head_row genesis_head ]} ]};
     publication_poisoned := false; writer_locked := false; writer_poisoned := false |}.
Definition world0 : World MemoryStore :=
  {| w_db := {| db_store := genesis_store; db_branches := ∅; db_next_branch_id := 0 |}; w_open := ∅ |}.

Lemma world0_ok : world_ok world0.
Proof. split; [split; [done..|cbn; lia]|done]. Qed.

Lemma world0_head : head_is (published (db_store (w_db world0))) GENESIS.
Proof. exists genesis_head. split; [|done]. by vm_compute. Qed.

(** Two branches over the genesis head race: the first to close wins. *)
Definition branch0 : BranchId := {| branch_number := 0 |}.
Definition branch1 : BranchId := {| branch_number := 1 |}.
Definition put_flag (id : Z) : CellProg MemoryTx unit unit :=
  PPut {| ck_record_id := id; ck_name := of_string "flag" |} (from_bool true) (PRet ()).

Definition race_db : Db MemoryStore :=
  let db := w_db world0 in
  let db := (db_begin db).2 in
  let db := (db_begin db).2 in
  let db := (db_write branch0 (put_flag 64) db).2 in
  (db_write branch1 (put_flag 65) db).2.

Lemma race_outcome :
  let '(r0, db) := commit_open branch0 race_db in
  let '(r1, db) := commit_open branch1 db in
  match r0, r1 with
  | Ok (c0, sl0), Ok (c1, sl1) =>
      let '(p1, db) := commit_close branch1 c1 sl1 db in
      let '(p0, db) := commit_close branch0 c0 sl0 db in
      (p1, p0) = (Ok {| commit_number := 1 |}, Err Conflict) /\ db_branches db = ∅
  | _, _ => False
  end.
Proof. by vm_compute. Qed.

Lemma commits_form_a_chain_witness : exists w',
  world_run world0 [{| commit_number := 1 |}] w' /\ head_is (published (db_store (w_db w'))) (commit_after GENESIS 1).
Proof.
  pose proof race_outcome as R. destruct (commit_open branch0 race_db) as [r0 d0] eqn:E0.
  destruct (commit_open branch1 d0) as [r1 d1] eqn:E1. destruct r0 as [[c0 sl0]| | |]; [|destruct R..].
  destruct r1 as [[c1 sl1]| | |]; [|destruct R..]. destruct (commit_close branch1 c1 sl1 d1) as [p1 d2] eqn:E2.
  destruct (commit_close branch0 c0 sl0 d2) as [p0 d3] eqn:E3. destruct R as [[= -> ->] _].
  assert (exists w', world_run world0 [{| commit_number := 1 |}] w') as [w' Hrun].
  { eexists. eapply (run_cons _ None); [eapply w_begin; apply surjective_pairing|].
    eapply (run_cons _ None); [eapply w_begin; apply surjective_pairing|].
    eapply (run_cons _ None); [apply (w_call _ branch0); [reflexivity|apply (call_write _ _ (put_flag 64))]|].
    eapply (run_cons _ None); [apply (w_call _ branch1); [reflexivity|apply (call_write _ _ (put_flag 65))]|].
    eapply (run_cons _ None); [apply (w_commit_open _ branch0); [reflexivity|exact E0]|].
    eapply (run_cons _ None); [apply (w_commit_open _ branch1); [reflexivity|exact E1]|].
    eapply (run_cons _ (Some _) _ []); [apply (w_commit_close _ branch1 c1 sl1 (Ok {| commit_number := 1 |})); [reflexivity|exact E2]|].
    eapply (run_cons _ None _ []); [apply (w_commit_close _ branch0 c0 sl0 (Err Conflict)); [reflexivity|exact E3]|]. apply run_nil. }
  exists w'. split; [exact Hrun|]. exact (proj2 (commits_form_a_chain world0 w' _ GENESIS world0_ok world0_head Hrun)).
Defined.

Section Calls.
Context `{Roaring} `{HashProvider} {S T : Type} `{WT : WriteTransaction T} `{ST : !Store S T}.

(** A branch whose origin is the head of the snapshot it is given. *)
Definition live (db : Db S) (id : BranchId) (st : BranchState) (origin : T) : Prop :=
  db_branches db !! id = Some (Some st) /\ begin_read (db_store db) = Ok origin /\ read_head origin = Ok (bs_commit_id st).

Lemma with_branch_live {E A} (inj : BranchError -> E) id (op : T -> stres BranchState E A) db st origin :
  live db id st origin -> with_branch inj id op db = ((op origin st).1, set_slot id (Some (op origin st).2) db).
Proof.
  intros (Hid & Hr & Hh). unfold with_branch, with_slot. rewrite Hid, Hr, Hh, bool_decide_true by done. cbn [negb].
  by destruct (op origin st).
Qed.

(** A sealed, live branch. *)
Lemma with_branch_same {E A} (inj : BranchError -> E) id (op : T -> stres BranchState E A) db st origin r :
  live db id st origin -> op origin st = (r, st) -> with_branch inj id op db = (r, db).
Proof.
  intros Hl Hop. rewrite (with_branch_live inj id op db st origin Hl), Hop. cbn [fst snd].
  rewrite set_slot_same; [done|apply Hl].
Qed.

Lemma with_branch_missing {E A} (inj : BranchError -> E) id (op : T -> stres BranchState E A) (db : Db S) :
  db_branches db !! id = None -> with_branch inj id op db = (Err (inj HandleInvalid), db).
Proof. intros Hid. unfold with_branch, with_slot. by rewrite Hid. Qed.

(** The first operation on a branch of an older head retires it. *)
Lemma with_slot_stale {E A} (inj : BranchError -> E) id stale_error (op : T -> stres (option BranchState * Db S) E A) (db : Db S) st origin head :
  db_branches db !! id = Some (Some st) -> begin_read (db_store db) = Ok origin -> read_head origin = Ok head -> head <> bs_commit_id st ->
  with_slot inj id stale_error op db = (Err (inj stale_error), db_remove id db).
Proof. intros Hid Hr Hh Hne. unfold with_slot. rewrite Hid, Hr, Hh, bool_decide_false by done. cbn [negb]. by rewrite remove_set_slot. Qed.
End Calls.

(** C26. Sealing freezes a branch: on a live sealed branch a write group, a
    checkpoint and a rollback are refused with [Sealed] and change nothing, and
    sealing again returns the cached result without recomputing it. *)
Theorem sealed_branch_is_frozen `{Roaring} `{HashProvider} {S T : Type} `{WT : WriteTransaction T} `{ST : !Store S T}
    (db : Db S) (id : BranchId) (st : BranchState) (origin : T) (sl : SealedCommit) {E A : Type} (p : CellProg T E A) :
  live db id st origin -> bs_sealed st = Some sl ->
  db_write id p db = (Err (OE_Branch Sealed), db) /\
  db_checkpoint id db = (Err Sealed, db) /\
  db_rollback id db = (Err Sealed, db) /\
  db_seal id db = (Ok sl, db).
Proof.
  intros Hl Hs. split_and!; eapply with_branch_same; try exact Hl; unfold require_open, BranchState_seal; by rewrite Hs.
Qed.

Definition sample_sealed : SealedCommit :=
  {| sl_commit_id := {| commit_number := 1 |}; sl_state_root := hash []; sl_index_root := hash [];
     sl_cells := {| cu_root := REmpty; cu_changed_cells := [] |};
     sl_index := {| iu_root := REmpty; iu_changed_terms := [] |}; sl_writes := ∅ |}.
Definition sealed_state : BranchState :=
  {| bs_commit_id := GENESIS; bs_overlay := CellOverlay_new; bs_sealed := Some sample_sealed |}.
Definition sealed_db : Db MemoryStore :=
  {| db_store := genesis_store; db_branches := {[ branch0 := Some sealed_state ]}; db_next_branch_id := 1 |}.

Lemma sealed_branch_is_frozen_witness :
  db_rollback branch0 sealed_db = (Err Sealed, sealed_db) /\ db_seal branch0 sealed_db = (Ok sample_sealed, sealed_db).
Proof.
  destruct (sealed_branch_is_frozen sealed_db branch0 sealed_state {| mt_state := committed genesis_store |} sample_sealed
    (PRet () : CellProg MemoryTx unit unit)) as (_ & _ & Hr & Hs).
  - split_and!; [reflexivity|reflexivity|by vm_compute].
  - reflexivity.
  - split; [exact Hr|exact Hs].
Defined.

(** C27. A retired handle never comes back: once an issued branch ID is out of
    the registry (committed, discarded, stale or beaten), every later call with
    it, after any further activity of the manager, is refused with
    [HandleInvalid] and changes nothing. IDs are not reissued. *)
Theorem retired_handles_stay_invalid `{Roaring} `{HashProvider} {S T : Type} `{WT : WriteTransaction T} {RL : ReadLaws T}
    {WL : WriteLaws T} `{ST : !Store S T} {SL : StoreLaws S T} (w w' : World S) (commits : list CommitId) (id : BranchId)
    {E A : Type} (p : CellProg T E A) :
  world_ok w -> world_run w commits w' ->
  branch_number id < db_next_branch_id (w_db w) -> db_branches (w_db w) !! id = None ->
  db_write id p (w_db w') = (Err (OE_Branch HandleInvalid), w_db w') /\
  db_branch_info id (w_db w') = (Err HandleInvalid, w_db w') /\
  db_checkpoint id (w_db w') = (Err HandleInvalid, w_db w') /\
  db_rollback id (w_db w') = (Err HandleInvalid, w_db w') /\
  db_seal id (w_db w') = (Err HandleInvalid, w_db w') /\
  db_commit id (w_db w') = (Err HandleInvalid, w_db w') /\
  db_discard id (w_db w') = (Err HandleInvalid, w_db w').
Proof.
  intros Hok Hrun Hi Hn. pose proof (world_run_dead _ _ _ _ Hrun Hok Hi Hn) as Hid.
  split_and!; try (by apply with_branch_missing); [unfold db_commit|unfold db_discard]; unfold with_slot; by rewrite Hid.
Qed.

Lemma retired_handles_stay_invalid_witness :
  db_commit branch0 (db_begin (db_discard branch0 race_db).2).2 =
    (Err HandleInvalid, (db_begin (db_discard branch0 race_db).2).2).
Proof.
  set (wd := {| w_db := (db_discard branch0 race_db).2; w_open := ∅ |} : World MemoryStore).
  assert (world_run world0 [] wd) as Hwd.
  { eapply (run_cons _ None _ []); [eapply w_begin; apply surjective_pairing|].
    eapply (run_cons _ None _ []); [eapply w_begin; apply surjective_pairing|].
    eapply (run_cons _ None _ []); [apply (w_call _ branch0); [reflexivity|apply (call_write _ _ (put_flag 64))]|].
    eapply (run_cons _ None _ []); [apply (w_call _ branch1); [reflexivity|apply (call_write _ _ (put_flag 65))]|].
    eapply (run_cons _ None _ []); [apply (w_call _ branch0); [reflexivity|apply call_discard]|]. apply run_nil. }
  assert (world_run wd [] {| w_db := (db_begin (w_db wd)).2; w_open := ∅ |}) as Hb.
  { eapply (run_cons _ None _ []); [eapply w_begin; apply surjective_pairing|]. apply run_nil. }
  pose proof (world_run_ok _ _ _ Hwd world0_ok) as Hok.
  destruct (retired_handles_stay_invalid wd _ [] branch0 (PRet () : CellProg MemoryTx unit unit) Hok Hb) as (_ & _ & _ & _ & _ & Hc & _).
  - by vm_compute.
  - by vm_compute.
  - exact Hc.
Defined.

(** A commit is its two parts run back to back: the whole handler, run
    without interference, returns the result and leaves the state of opening
    (head check and seal under the branch lock) followed by closing (writer,
    second head check, publication, removal). *)
Theorem commit_is_open_then_close `{Roaring} `{HashProvider} {S T : Type} `{WT : WriteTransaction T} `{ST : !Store S T}
    (db : Db S) (id : BranchId) :
  db_commit id db =
    match commit_open id db with
    | (Ok (c, sl), db1) => commit_close id c sl db1
    | (Err e, db1) => (Err e, db1)
    | (Panic, db1) => (Panic, db1)
    | (Diverge, db1) => (Diverge, db1)
    end.
Proof.
  unfold db_commit, commit_open, with_slot. destruct (db_branches db !! id) as [[st|]|] eqn:Eid; [|done..].
  destruct (begin_read (db_store db)) as [origin|e| |]; [|done..]. destruct (read_head origin) as [hd|e| |]; [|done..].
  case_bool_decide; cbn [negb]; [|done]. unfold mbind, stres_mbind. cbn [commit_seal].
  destruct (BranchState_seal origin st) as [[sl|e| |] st']; cbn [mbind res_mbind]; [|done..].
  unfold commit_close. cbn [set_slot db_branches]. rewrite lookup_alter_eq, Eid. change (default None (Some (Some st'))) with (Some st').
  unfold commit_publish. cbn [set_slot db_store].
  destruct (begin_write (db_store db)) as [[tx|e| |] s]; [|by rewrite set_slot_twice..].
  destruct (persist tx (bs_commit_id st) sl s) as [[c|e| |] s']; [|destruct e|..]; by rewrite ?set_slot_twice, ?remove_store_slot.
Qed.
