(* ===== verification/Records.v ===== *)
(** Record CRUD over branches: crates/record/src/{state,crud,committed,types,error}.rs.

    Reads and write callbacks are [CellProg] programs over the branch's cells;
    [Records_*] run them through the branch manager. [fuel] bounds the rows a
    record scan may yield; the theorems ask for more than the record holds. *)
From Stdlib Require Import ZArith Lia.
From S2P Require Import Prelude Ordered Storage Scan CellTypes CellValue CellName MerkleNode MerkleTrie.
From S2P Require Import BranchTypes CellScan Overlay Cells Buffer Term Bitmap Index Seal Branches.

#[local] Open Scope Z_scope.

(** * Types and errors: types.rs, error.rs *)

(** [RecordKey([u8; 32])] *)
Abbreviation RecordKey := bytes.
Abbreviation RecordCells := (gmap CellName CellValue).

Inductive CellPatch : Type :=
  | PatchSet (value : CellValue)
  | PatchRemove.
Abbreviation RecordPatch := (gmap CellName CellPatch).

Inductive ReadTarget : Type :=
  | TargetHead
  | TargetBranch (id : BranchId)
  | TargetCommit (id : CommitId).

Record Record_ := { rec_key : RecordKey; rec_cells : RecordCells }.

(** [InvalidArgument] carries the error whose text the source renders. *)
Inductive RecordError : Type :=
  | R_NotFound
  | R_AlreadyExists
  | R_Reserved
  | R_InvalidArgument (why : CellNameError + CellLimitError)
  | R_CorruptState (why : string)
  | R_RecordIdExhausted
  | R_CommitUnavailable (requested head : CommitId)
  | R_Cells (e : CellError)
  | R_Storage (e : StorageError)
  | R_Branch (e : BranchError).

(** [From<OperationError<RecordError>>] *)
Definition from_operation (e : OperationError RecordError) : RecordError :=
  match e with OE_Branch e => R_Branch e | OE_Operation e => e end.

(** * Record state: state.rs *)

Definition binding (key : RecordKey) : CellKey := {| ck_record_id := sr_id RECORD_KEYS; ck_name := key |}.
Definition identity_address (id : Z) : CellKey := {| ck_record_id := id; ck_name := KEY |}.
Definition allocator_key : CellKey := {| ck_record_id := sr_id ALLOC; ck_name := NEXT_RECORD_ID |}.

(** [value.as_x().filter(|_| !value.is_indexable())] *)
Definition plain {A} (value : CellValue) (o : option A) : option A :=
  if CellValue_is_indexable value then None else o.

(** [record_id] *)
Definition record_id (key : RecordKey) (binding_value : option CellValue) : res RecordError (option Z) :=
  match binding_value with
  | None =>
      match by_key key with
      | Some _ => Err (R_CorruptState "reserved record binding missing")
      | None => Ok None
      end
  | Some value =>
      id ← ok_or (plain value (as_u64 value)) (R_CorruptState "invalid record binding");
      match by_key key with
      | Some record => if negb (id =? sr_id record) then Err (R_CorruptState "reserved record ID mismatch") else Ok (Some id)
      | None => if id <? FIRST_USER_RECORD_ID then Err (R_CorruptState "user key bound to reserved ID") else Ok (Some id)
      end
  end.

(** [identity_key] *)
Definition identity_key (identity : CellValue) : option RecordKey := plain identity (as_bytes32 identity).

(** [check_identity] *)
Definition check_identity (key : RecordKey) (value : option CellValue) : res RecordError unit :=
  identity ← ok_or value (R_CorruptState "bound record has no #key");
  if negb (bool_decide (identity_key identity = Some key)) then Err (R_CorruptState "binding and #key disagree") else Ok ().

(** [allocator] decoding of [next_id]: the ID and the one after it *)
Definition decode_allocator (value : option CellValue) : res RecordError (Z * Z) :=
  value ← ok_or value (R_CorruptState "allocator missing");
  id ← ok_or (plain value (as_u64 value)) (R_CorruptState "invalid allocator");
  if id <? FIRST_USER_RECORD_ID then Err (R_CorruptState "allocator points to reserved ID")
  else next ← ok_or (checked_succ id) R_RecordIdExhausted; Ok (id, next).

(** One [#params] cell. *)
Definition decode_limit (value : option CellValue) : res RecordError Z :=
  value ← ok_or value (R_CorruptState "required #params cell missing");
  ok_or (plain value (as_u32 value)) (R_CorruptState "invalid #params cell").

(** [validate] of crud.rs *)
Definition validate_cell (limits : CellLimits) (name : CellName) (value : option CellValue) : res RecordError unit :=
  _ ← map_err (fun e => R_InvalidArgument (inl e)) (CellLimits_parse_user_name limits name);
  match value with
  | Some value => map_err (fun e => R_InvalidArgument (inr e)) (CellLimits_validate_value limits (as_view value))
  | None => Ok ()
  end.

Fixpoint validate_cells (limits : CellLimits) (cells : list (CellName * option CellValue)) : res RecordError unit :=
  match cells with
  | [] => Ok ()
  | (name, value) :: cells => _ ← validate_cell limits name value; validate_cells limits cells
  end.

(** [reject_reserved] *)
Definition reject_reserved (key : RecordKey) : res RecordError unit :=
  match by_key key with Some _ => Err R_Reserved | None => Ok () end.

(** * Programs over a branch's cells *)

Section Programs.
Context {T : Type} `{ReadTransaction T}.

Fixpoint prog_bind {E A B} (f : A -> CellProg T E B) (p : CellProg T E A) : CellProg T E B :=
  match p with
  | PRet a => f a
  | PErr e => PErr e
  | PPanic => PPanic
  | PDiverge => PDiverge
  | PGet key k => PGet key (fun r => prog_bind f (k r))
  | PScan prefix k => PScan prefix (fun r => prog_bind f (k r))
  | PPut key value k => PPut key value (prog_bind f k)
  | PDelete key k => PDelete key (prog_bind f k)
  end.
#[global] Instance prog_mret E : MRet (CellProg T E) := fun A a => PRet a.
#[global] Instance prog_mbind E : MBind (CellProg T E) := fun A B => prog_bind.

(** [?] on a result that touches no cells, and on a branch error *)
Definition prog_res {E A} (r : res E A) : CellProg T E A :=
  match r with Ok a => PRet a | Err e => PErr e | Panic => PPanic | Diverge => PDiverge end.

Abbreviation P := (CellProg T RecordError).

Definition get_cell (key : CellKey) : P (option CellValue) := PGet key (fun r => prog_res (map_err R_Branch r)).
Definition put_cell (key : CellKey) (value : CellValue) : P unit := PPut key value (PRet ()).
Definition delete_cell (key : CellKey) : P unit := PDelete key (PRet ()).

(** [scan_prefix(..)?.collect()?] and [scan_prefix(..)?.next().transpose()?] *)
Definition scan_cells (fuel : nat) (prefix : bytes) : P (list (CellKey * CellValue)) :=
  PScan prefix (fun r => prog_res (map_err R_Branch (s ← r; CellScan_collect fuel s))).
Definition first_cell (prefix : bytes) : P (option (CellKey * CellValue)) :=
  PScan prefix (fun r => prog_res (map_err R_Branch (s ← r;
    match (CellScan_next s).1 with
    | None => Ok None
    | Some row => row ← row; Ok (Some row)
    end))).

(** [resolve], [limits], [next_id] *)
Definition resolve (key : RecordKey) : P (option Z) :=
  value ← get_cell (binding key);
  id ← prog_res (record_id key value);
  match id with
  | None => mret None
  | Some id =>
      identity ← get_cell (identity_address id);
      _ ← prog_res (check_identity key identity);
      mret (Some id)
  end.

Definition read_limit (name : CellName) : P Z :=
  value ← get_cell {| ck_record_id := sr_id PARAMS; ck_name := name |};
  prog_res (decode_limit value).
Definition limits : P CellLimits :=
  name_len ← read_limit MAX_CELL_NAME_LEN;
  str_len ← read_limit MAX_STR_LEN;
  bytes_len ← read_limit MAX_BYTES_LEN;
  mret {| max_cell_name_len := name_len; max_str_len := str_len; max_bytes_len := bytes_len |}.

Definition next_id : P (Z * Z) :=
  value ← get_cell allocator_key;
  prog_res (decode_allocator value).

(** ** The callbacks of crud.rs *)

Fixpoint put_cells (id : Z) (cells : list (CellName * CellValue)) : P unit :=
  match cells with
  | [] => mret ()
  | (name, value) :: cells => _ ← put_cell {| ck_record_id := id; ck_name := name |} value; put_cells id cells
  end.

Definition create_prog (key : RecordKey) (values : RecordCells) : P RecordKey :=
  limits ← limits;
  _ ← prog_res (validate_cells limits ((fun '(name, value) => (name, Some value)) <$> entries values));
  existing ← resolve key;
  match existing with
  | Some _ => PErr R_AlreadyExists
  | None =>
      '(id, next) ← next_id;
      first ← first_cell (be_encode 8 id);
      match first with
      | Some _ => PErr (R_CorruptState "allocator points to occupied record")
      | None =>
          _ ← put_cells id (entries values);
          _ ← put_cell (identity_address id) (from_bytes32 key);
          _ ← put_cell (binding key) (from_u64 id);
          _ ← put_cell allocator_key (from_u64 next);
          mret key
      end
  end.

Definition patch_value (change : CellPatch) : option CellValue :=
  match change with PatchSet value => Some value | PatchRemove => None end.

Fixpoint patch_cells (id : Z) (changes : list (CellName * CellPatch)) : P unit :=
  match changes with
  | [] => mret ()
  | (name, change) :: changes =>
      let address := {| ck_record_id := id; ck_name := name |} in
      current ← get_cell address;
      _ ← match change with
          | PatchSet value => if negb (bool_decide (current = Some value)) then put_cell address value else mret ()
          | PatchRemove => match current with Some _ => delete_cell address | None => mret () end
          end;
      patch_cells id changes
  end.

Definition patch_prog (key : RecordKey) (changes : RecordPatch) : P unit :=
  id ← resolve key;
  id ← prog_res (ok_or id R_NotFound);
  limits ← limits;
  _ ← prog_res (validate_cells limits ((fun '(name, change) => (name, patch_value change)) <$> entries changes));
  patch_cells id (entries changes).

Fixpoint delete_cells (addresses : list CellKey) : P unit :=
  match addresses with
  | [] => mret ()
  | address :: addresses => _ ← delete_cell address; delete_cells addresses
  end.

Definition delete_prog (fuel : nat) (key : RecordKey) : P unit :=
  id ← resolve key;
  id ← prog_res (ok_or id R_NotFound);
  rows ← scan_cells fuel (be_encode 8 id);
  _ ← delete_cells rows.*1;
  delete_cell (binding key).

(** [read_branch_record] *)
Fixpoint read_names (id : Z) (names : list CellName) (values : RecordCells) : P RecordCells :=
  match names with
  | [] => mret values
  | name :: names =>
      value ← get_cell {| ck_record_id := id; ck_name := name |};
      read_names id names (match value with Some value => <[name := value]> values | None => values end)
  end.

(** The rows of a record by name. *)
Definition by_name (rows : list (CellKey * CellValue)) : RecordCells :=
  foldl (fun m '(k, v) => <[ck_name k := v]> m) ∅ rows.

Definition read_branch_record (fuel : nat) (key : RecordKey) (projection : option (list CellName)) : P Record_ :=
  id ← resolve key;
  id ← prog_res (ok_or id R_NotFound);
  values ← match projection with
           | Some names => read_names id names ∅
           | None => rows ← scan_cells fuel (be_encode 8 id); mret (by_name rows)
           end;
  mret {| rec_key := key; rec_cells := values |}.
End Programs.

(** * Committed reads: committed.rs *)

Section Committed.
Context {T : Type} `{ReadTransaction T}.

(** Draining a record scan of crates/cells, at most [fuel] rows. *)
Fixpoint record_collect (fuel : nat) (s : Scan T * bool) : res CellError (list (CellKey * CellValue)) :=
  match fuel with
  | O => Diverge
  | S fuel' =>
      match record_scan_next s with
      | (None, _) => Ok []
      | (Some (Ok row), s') => rows ← record_collect fuel' s'; Ok (row :: rows)
      | (Some (Err e), _) => Err e
      | (Some Panic, _) => Panic
      | (Some Diverge, _) => Diverge
      end
  end.

(** [read_cells] *)
Fixpoint committed_names (tx : T) (id : Z) (names : list CellName) (values : RecordCells) : res RecordError RecordCells :=
  match names with
  | [] => Ok values
  | name :: names =>
      value ← map_err R_Cells (CellReader_get tx {| ck_record_id := id; ck_name := name |});
      committed_names tx id names (match value with Some value => <[name := value]> values | None => values end)
  end.

Definition read_cells (fuel : nat) (tx : T) (id : Z) (projection : option (list CellName)) : res RecordError RecordCells :=
  match projection with
  | Some names => committed_names tx id names ∅
  | None =>
      s ← map_err R_Cells (CellReader_scan_record tx id);
      rows ← map_err R_Cells (record_collect fuel (s, false));
      Ok (by_name rows)
  end.

(** [read_committed_by_id] *)
Definition read_committed_by_id (fuel : nat) (tx : T) (id : Z) (projection : option (list CellName)) : res RecordError Record_ :=
  identity ← map_err R_Cells (CellReader_get tx (identity_address id));
  identity ← ok_or identity (R_CorruptState "record has no #key");
  key ← ok_or (identity_key identity) (R_CorruptState "invalid #key");
  cells ← read_cells fuel tx id projection;
  Ok {| rec_key := key; rec_cells := cells |}.

(** [read_committed_by_key] *)
Definition read_committed_by_key (fuel : nat) (tx : T) (key : RecordKey) (projection : option (list CellName)) : res RecordError Record_ :=
  value ← map_err R_Cells (CellReader_get tx (binding key));
  id ← record_id key value;
  id ← ok_or id R_NotFound;
  identity ← map_err R_Cells (CellReader_get tx (identity_address id));
  _ ← check_identity key identity;
  cells ← read_cells fuel tx id projection;
  Ok {| rec_key := key; rec_cells := cells |}.
End Committed.

(** * The facade: crud.rs *)

Section Facade.
Context `{Roaring} `{HashProvider} {S T : Type} `{WT : WriteTransaction T} `{!Store S T}.

(** [committed_snapshot] *)
Definition committed_snapshot (store : S) (commit : option CommitId) : res RecordError (T * CommitId) :=
  tx ← map_err R_Storage (begin_read store);
  head ← map_err R_Branch (read_head tx);
  match commit with
  | Some requested => if negb (bool_decide (requested = head)) then Err (R_CommitUnavailable requested head) else Ok (tx, head)
  | None => Ok (tx, head)
  end.

(** [read_committed] *)
Definition read_committed (fuel : nat) (store : S) (commit : option CommitId) (key : RecordKey)
    (projection : option (list CellName)) : res RecordError Record_ :=
  '(tx, _) ← committed_snapshot store commit;
  read_committed_by_key fuel tx key projection.

(** [get] *)
Definition Records_get (fuel : nat) (target : ReadTarget) (key : RecordKey) (projection : option (list CellName))
    : stres (Db S) RecordError Record_ :=
  match target with
  | TargetBranch id =>
      st_map_err from_operation (db_read id (fun o origin => (run_prog origin (read_branch_record fuel key projection) o).1))
  | TargetHead => reading (fun db => read_committed fuel (db_store db) None key projection)
  | TargetCommit commit => reading (fun db => read_committed fuel (db_store db) (Some commit) key projection)
  end.

(** [create], [patch], [delete] *)
Definition Records_create (branch : BranchId) (key : RecordKey) (values : RecordCells) : stres (Db S) RecordError RecordKey :=
  _ ← lift_res (reject_reserved key);
  st_map_err from_operation (db_write branch (create_prog key values)).

Definition Records_patch (branch : BranchId) (key : RecordKey) (changes : RecordPatch) : stres (Db S) RecordError unit :=
  _ ← lift_res (reject_reserved key);
  st_map_err from_operation (db_write branch (patch_prog key changes)).

Definition Records_delete (fuel : nat) (branch : BranchId) (key : RecordKey) : stres (Db S) RecordError unit :=
  _ ← lift_res (reject_reserved key);
  st_map_err from_operation (db_write branch (delete_prog fuel key)).
End Facade.
