(* ===== verification/Query.v ===== *)
(** Queries over committed state:
    crates/query/src/{plan,eval,posting_source,queries,error}.rs and query_op/*.rs.

    [Plan_try_from] admits a filter without reading state, [match_set] evaluates
    the plan over any [PostingSource], and [Queries_query] and [Queries_count]
    run both over one snapshot of a store. The lazy iterator of a scan is a
    state with a step; [fuel] bounds the terms, containers and rows a query may
    step through, and the theorems ask for more than the store holds. *)
From Stdlib Require Import ZArith Lia.
From S2P Require Import Prelude Ordered Storage Scan CellTypes CellValue CellName MerkleNode MerkleTrie.
From S2P Require Import BranchTypes CellScan Overlay Cells Buffer Term Bitmap Index Seal Branches Records.

#[local] Open Scope Z_scope.

(** * Requests: query_op/*.rs *)

(** [Budget]: carried by the requests, not enforced. *)
Inductive Budget : Type :=
  | Limited (units : Z)
  | Unlimited.

Inductive Direction : Type := Asc | Desc.
Record SortKey := { sk_field : CellName; sk_ty : CellType; sk_direction : Direction }.

Inductive Filter : Type :=
  | FEq (field : CellName) (value : CellValue)
  | FIn (field : CellName) (values : list CellValue)
  | FRange (field : CellName) (lower upper : Bound CellValue).

Record QueryOp := {
  qo_filter : Filter;
  qo_sort : list SortKey;
  qo_projection : option (list CellName);
  qo_limit : option Z;
  qo_offset : option Z;
  qo_with_total : bool;
  qo_budget : option Budget
}.
Record CountOp := { co_filter : Filter; co_budget : option Budget }.

(** The builder's steps. *)
Definition SortKey_asc (field : CellName) (ty : CellType) : SortKey := {| sk_field := field; sk_ty := ty; sk_direction := Asc |}.
Definition SortKey_desc (field : CellName) (ty : CellType) : SortKey := {| sk_field := field; sk_ty := ty; sk_direction := Desc |}.

Definition QueryOp_from_filter (filter : Filter) : QueryOp :=
  {| qo_filter := filter; qo_sort := []; qo_projection := None; qo_limit := None; qo_offset := None;
     qo_with_total := false; qo_budget := None |}.
Definition QueryOp_sort (keys : list SortKey) (q : QueryOp) : QueryOp :=
  {| qo_filter := qo_filter q; qo_sort := keys; qo_projection := qo_projection q; qo_limit := qo_limit q;
     qo_offset := qo_offset q; qo_with_total := qo_with_total q; qo_budget := qo_budget q |}.
Definition QueryOp_only (names : list bytes) (q : QueryOp) : QueryOp :=
  {| qo_filter := qo_filter q; qo_sort := qo_sort q; qo_projection := Some (projection names); qo_limit := qo_limit q;
     qo_offset := qo_offset q; qo_with_total := qo_with_total q; qo_budget := qo_budget q |}.
Definition QueryOp_limit (limit : Z) (q : QueryOp) : QueryOp :=
  {| qo_filter := qo_filter q; qo_sort := qo_sort q; qo_projection := qo_projection q; qo_limit := Some limit;
     qo_offset := qo_offset q; qo_with_total := qo_with_total q; qo_budget := qo_budget q |}.
Definition QueryOp_offset (offset : Z) (q : QueryOp) : QueryOp :=
  {| qo_filter := qo_filter q; qo_sort := qo_sort q; qo_projection := qo_projection q; qo_limit := qo_limit q;
     qo_offset := Some offset; qo_with_total := qo_with_total q; qo_budget := qo_budget q |}.
Definition QueryOp_with_total (q : QueryOp) : QueryOp :=
  {| qo_filter := qo_filter q; qo_sort := qo_sort q; qo_projection := qo_projection q; qo_limit := qo_limit q;
     qo_offset := qo_offset q; qo_with_total := true; qo_budget := qo_budget q |}.
Definition QueryOp_budget (budget : Budget) (q : QueryOp) : QueryOp :=
  {| qo_filter := qo_filter q; qo_sort := qo_sort q; qo_projection := qo_projection q; qo_limit := qo_limit q;
     qo_offset := qo_offset q; qo_with_total := qo_with_total q; qo_budget := Some budget |}.
Definition CountOp_filter (filter : Filter) : CountOp := {| co_filter := filter; co_budget := None |}.
Definition CountOp_budget (budget : Budget) (c : CountOp) : CountOp := {| co_filter := co_filter c; co_budget := Some budget |}.

Record QueryPage := { qp_records : list Record_; qp_total_matched : option Z; qp_evaluated_at : CommitId }.

(** * Errors: error.rs *)

Inductive QueryError : Type :=
  | Q_InvalidArgument (field : CellName) (source : TermError)
  | Q_InvalidQuery (reason : string)
  | Q_NotImplemented (operation : string)
  | Q_CommitUnavailable (requested head : CommitId)
  | Q_Internal (source : IndexError + RecordError).

(** [From<IndexError>] and [From<RecordError>] *)
Definition from_index_error (e : IndexError) : QueryError := Q_Internal (inl e).
Definition from_record_error (e : RecordError) : QueryError :=
  match e with
  | R_CommitUnavailable requested head => Q_CommitUnavailable requested head
  | e => Q_Internal (inr e)
  end.

(** * Admission: plan.rs *)

(** [BTreeSet<IndexTerm>] in its order *)
Inductive Plan : Type :=
  | TermRead (term : IndexTerm)
  | TermReads (terms : list IndexTerm)
  | PlanScan (range : TermRange)
  | PlanEmpty.

Definition btree_set (l : list IndexTerm) : list IndexTerm :=
  (entries (list_to_map ((fun t => (t, ())) <$> l) : gmap bytes unit)).*1.

(** [term] *)
Definition plan_term (field : CellName) (value : CellValue) : res QueryError IndexTerm :=
  map_err (Q_InvalidArgument field) (from_cell_name field (as_view value)).

Fixpoint plan_term_list (field : CellName) (values : list CellValue) : res QueryError (list IndexTerm) :=
  match values with
  | [] => Ok []
  | value :: values => t ← plan_term field value; ts ← plan_term_list field values; Ok (t :: ts)
  end.

(** [terms] *)
Definition plan_terms (field : CellName) (values : list CellValue) : res QueryError (option (list IndexTerm)) :=
  match values with
  | [] => _ ← map_err (Q_InvalidArgument field) (check_cell_name field); Ok None
  | first :: rest =>
      if existsb (fun value => negb (bool_decide (cv_ty value = cv_ty first))) rest
      then Err (Q_InvalidQuery "`In` values must all have one type")
      else ts ← plan_term_list field values; Ok (Some (btree_set ts))
  end.

(** [range] *)
Definition range_error (field : CellName) (e : RangeError) : QueryError :=
  match e with
  | RE_Term source => Q_InvalidArgument field source
  | NoBound => Q_InvalidQuery "`Range` needs at least one bound"
  | TypeMismatch _ _ => Q_InvalidQuery "`Range` bounds must have one type"
  end.
Definition plan_range (field : CellName) (lower upper : Bound CellValue) : res QueryError (option TermRange) :=
  map_err (range_error field) (between field (bound_map as_view lower) (bound_map as_view upper)).

(** [Plan::try_from] *)
Definition Plan_try_from (filter : Filter) : res QueryError Plan :=
  match filter with
  | FEq field value => t ← plan_term field value; Ok (TermRead t)
  | FIn field values => ts ← plan_terms field values; Ok (match ts with Some ts => TermReads ts | None => PlanEmpty end)
  | FRange field lower upper => r ← plan_range field lower upper; Ok (match r with Some r => PlanScan r | None => PlanEmpty end)
  end.

(** * The storage seam: posting_source.rs *)

(** The iterator that [scan] returns is lazy: [ps_next] advances it. *)
Class PostingSource (P : Type) : Type := {
  ps_iter : Type;
  ps_postings : P -> IndexTerm -> res IndexError Bitmap;
  ps_scan : P -> TermRange -> res IndexError ps_iter;
  ps_next : P -> ps_iter -> option (res IndexError Bitmap) * ps_iter
}.

Record IndexSource (T : Type) := { src_tx : T; src_fuel : nat }.
Arguments src_tx {T}.
Arguments src_fuel {T}.

#[export] Instance IndexSource_postings `{Roaring} `{HashProvider} {T : Type} `{ReadTransaction T} : PostingSource (IndexSource T) := {|
  ps_iter := TermScan;
  ps_postings src term :=
    b ← Index_bitmap (src_fuel src) (src_fuel src) (src_tx src) term; Ok (default ∅ b);
  ps_scan src range := Index_terms (src_tx src) range;
  ps_next src scan :=
    match TermScan_next scan with
    | (None, scan) => (None, scan)
    | (Some entry, scan) =>
        (Some ('(_, root) ← entry; bitmap_at (src_fuel src) (src_fuel src) (src_tx src) root), scan)
    end
|}.

(** * Evaluation: eval.rs *)

Section Eval.
Context {P : Type} `{PostingSource P}.

(** [union], over term reads and over a scan *)
Fixpoint union_terms (source : P) (union : Bitmap) (terms : list IndexTerm) : res QueryError Bitmap :=
  match terms with
  | [] => Ok union
  | term :: terms => b ← map_err from_index_error (ps_postings source term); union_terms source (union ∪ b) terms
  end.

Fixpoint union_scan (fuel : nat) (source : P) (union : Bitmap) (it : ps_iter) : res QueryError Bitmap :=
  match fuel with
  | O => Diverge
  | S fuel' =>
      match ps_next source it with
      | (None, _) => Ok union
      | (Some b, it) => b ← map_err from_index_error b; union_scan fuel' source (union ∪ b) it
      end
  end.

(** [match_set] *)
Definition match_set (fuel : nat) (source : P) (plan : Plan) : res QueryError Bitmap :=
  match plan with
  | TermRead term => map_err from_index_error (ps_postings source term)
  | TermReads terms => union_terms source ∅ terms
  | PlanScan range => it ← map_err from_index_error (ps_scan source range); union_scan fuel source ∅ it
  | PlanEmpty => Ok ∅
  end.
End Eval.

(** * Queries: queries.rs *)

Section Queries.
Context `{Roaring} `{HashProvider} {S T : Type} `{WT : WriteTransaction T} `{!Store S T}.

Record Evaluation := { ev_snapshot : T; ev_head : CommitId; ev_matches : Bitmap }.

(** [evaluate] *)
Definition evaluate (fuel : nat) (store : S) (commit : option CommitId) (filter : Filter) : res QueryError Evaluation :=
  plan ← Plan_try_from filter;
  '(snapshot, head) ← map_err from_record_error (committed_snapshot store commit);
  matches ← match_set fuel {| src_tx := snapshot; src_fuel := fuel |} plan;
  Ok {| ev_snapshot := snapshot; ev_head := head; ev_matches := matches |}.

(** The records of the matching IDs, up to the first that fails. *)
Fixpoint read_records (fuel : nat) (tx : T) (projection : option (list CellName)) (ids : list Z) : res RecordError (list Record_) :=
  match ids with
  | [] => Ok []
  | id :: ids =>
      record ← read_committed_by_id fuel tx id projection;
      records ← read_records fuel tx projection ids;
      Ok (record :: records)
  end.

(** [query] *)
Definition Queries_query (fuel : nat) (store : S) (commit : option CommitId) (op : QueryOp) : res QueryError QueryPage :=
  if negb (bool_decide (qo_sort op = [] :> list SortKey)) then Err (Q_NotImplemented "query: sort")
  else if bool_decide (is_Some (qo_limit op)) then Err (Q_NotImplemented "query: limit")
  else if bool_decide (is_Some (qo_offset op)) then Err (Q_NotImplemented "query: offset")
  else
    evaluation ← evaluate fuel store commit (qo_filter op);
    records ← map_err from_record_error
      (read_records fuel (ev_snapshot evaluation) (qo_projection op) (roaring_iter (ev_matches evaluation)));
    Ok {| qp_records := records;
          qp_total_matched := if qo_with_total op then Some (Z.of_nat (size (ev_matches evaluation))) else None;
          qp_evaluated_at := ev_head evaluation |}.

(** [count] *)
Definition Queries_count (fuel : nat) (store : S) (commit : option CommitId) (op : CountOp) : res QueryError Z :=
  evaluation ← evaluate fuel store commit (co_filter op);
  Ok (Z.of_nat (size (ev_matches evaluation))).
End Queries.
