(* ===== verification/RecordsSpec.v ===== *)
(** What the record layer promises: a keyed store of cell maps.

    [record_inv] is the invariant of the working cells (bindings, identities,
    allocator, parameters); under it a branch holds a map from record keys to
    records ([lookup_record]), and create, patch, delete and get are exactly the
    operations of that map. *)
From Stdlib Require Import ZArith Lia.
From S2P Require Import Prelude Ordered Storage Scan CellTypes CellValue CellName MerkleNode MerkleTrie.
From S2P Require Import BranchTypes CellScan Overlay Cells Buffer Term Bitmap Index Seal Branches Records Samples.

#[local] Open Scope Z_scope.

Abbreviation Working := (gmap CellKey CellValue).

(** * Running programs over the working cells *)

(** The staged entries have well-formed keys and values, and over the
    committed cells [O] they make the working cells [W]. *)
Definition over (O : Working) (o : CellOverlay) (W : Working) : Prop :=
  staged_wf o /\
  working O (ov_entries o) = W.

Section Runs.
Context {T : Type} `{RL : ReadLaws T}.

(** From any overlay that shows [W], the program ends with [r] and shows [W']. *)
Definition runs {E A} (p : CellProg T E A) (W : Working) (r : res E A) (W' : Working) : Prop :=
  forall (origin : T) O o, decoded (view origin CELL) O -> over O o W ->
    exists o', run_prog origin p o = (r, o') /\ over O o' W'.

Lemma run_bind {E A B} (f : A -> CellProg T E B) (p : CellProg T E A) (origin : T) o :
  run_prog origin (prog_bind f p) o =
  match run_prog origin p o with
  | (Ok a, o') => run_prog origin (f a) o'
  | (Err e, o') => (Err e, o')
  | (Panic, o') => (Panic, o')
  | (Diverge, o') => (Diverge, o')
  end.
Proof using. revert o. induction p; intros o; cbn [prog_bind run_prog]; auto. Qed.

Lemma runs_ret {E A} (a : A) W : runs (PRet a : CellProg T E A) W (Ok a) W.
Proof using. intros origin O o _ Ho. by exists o. Qed.

Lemma runs_err {E A} (e : E) W : runs (PErr e : CellProg T E A) W (Err e) W.
Proof using. intros origin O o _ Ho. by exists o. Qed.

Lemma runs_res {E A} (r : res E A) W : runs (prog_res r) W r W.
Proof using. intros origin O o _ Ho. exists o. by destruct r. Qed.

Lemma runs_bind {E A B} (p : CellProg T E A) (f : A -> CellProg T E B) W a W1 r W2 :
  runs p W (Ok a) W1 -> runs (f a) W1 r W2 -> runs (p ≫= f) W r W2.
Proof using.
  intros Hp Hf origin O o Hd Ho. destruct (Hp origin O o Hd Ho) as (o1 & E1 & H1).
  destruct (Hf origin O o1 Hd H1) as (o2 & E2 & H2). exists o2. split; [|done]. unfold mbind, prog_mbind. by rewrite run_bind, E1.
Qed.

Lemma runs_bind_err {E A B} (p : CellProg T E A) (f : A -> CellProg T E B) W e W1 :
  runs p W (Err e) W1 -> runs (p ≫= f) W (Err e) W1.
Proof using.
  intros Hp origin O o Hd Ho. destruct (Hp origin O o Hd Ho) as (o1 & E1 & H1). exists o1. split; [|done].
  unfold mbind, prog_mbind. by rewrite run_bind, E1.
Qed.

Lemma runs_get key W : CellKey_wf key -> runs (get_cell key) W (Ok (W !! key)) W.
Proof using RL.
  intros Hk origin O o Hd [Hw <-]. exists o. split; [|by split]. cbn [get_cell run_prog].
  by rewrite (overlay_get_ok origin O o key Hd Hk).
Qed.

Lemma working_set O k v o :
  working O (ov_entries (CellWrite_set k v o)) = match v with Some v => <[k := v]> | None => delete k end (working O (ov_entries o)).
Proof using.
  assert (ov_entries (CellWrite_set k v o) = <[k := v]> (ov_entries o)) as ->.
  { unfold CellWrite_set, Journal_record. case_bool_decide as E; cbn; [by rewrite insert_id|done]. }
  apply map_eq. intros i. rewrite lookup_working. destruct (decide (i = k)) as [->|Hne].
  - rewrite lookup_insert_eq. destruct v; by rewrite ?lookup_insert_eq, ?lookup_delete_eq.
  - rewrite lookup_insert_ne by done. destruct v; rewrite ?lookup_insert_ne, ?lookup_delete_ne by done; by rewrite lookup_working.
Qed.

Lemma over_set O k v o W : CellKey_wf k -> (forall x, v = Some x -> CellValue_wf x) -> over O o W ->
  over O (CellWrite_set k v o) (match v with Some v => <[k := v]> | None => delete k end W).
Proof using.
  intros Hk Hv [Hw <-]. split; [|apply working_set]. intros i x. unfold CellWrite_set, Journal_record.
  case_bool_decide; cbn [ov_entries]; [apply Hw|]. intros [[<- <-]|[_ Hi]]%lookup_insert_Some; eauto.
Qed.

Lemma runs_put key value W : CellKey_wf key -> CellValue_wf value -> runs (put_cell key value) W (Ok ()) (<[key := value]> W).
Proof using.
  intros Hk Hv origin O o Hd Ho. eexists. split; [done|]. apply (over_set O key (Some value)); [done| |done]. by intros x [= <-].
Qed.

Lemma runs_delete key W : CellKey_wf key -> runs (delete_cell key) W (Ok ()) (delete key W).
Proof using. intros Hk origin O o Hd Ho. eexists. split; [done|]. by apply (over_set O key None). Qed.

Lemma over_scan (origin : T) O o W prefix : decoded (view origin CELL) O -> over O o W ->
  exists s, CellOverlay_scan_prefix o origin prefix = Ok s /\
    forall fuel, (length (cells_under prefix W) < fuel)%nat -> CellScan_collect fuel s = Ok (cells_under prefix W).
Proof using RL.
  intros Hd [Hw <-]. apply merged_scan_ok; [done|]. intros k v Hk. by destruct (Hw k v Hk).
Qed.

Lemma runs_scan fuel prefix W : (length (cells_under prefix W) < fuel)%nat ->
  runs (scan_cells fuel prefix) W (Ok (cells_under prefix W)) W.
Proof using RL.
  intros Hf origin O o Hd Ho. destruct (over_scan origin O o W prefix Hd Ho) as (s & Hs & Hc). exists o.
  split; [|done]. unfold scan_cells. cbn [run_prog]. rewrite Hs. unfold mbind, res_mbind. rewrite (Hc fuel Hf). reflexivity.
Qed.

Lemma runs_first prefix W : runs (first_cell prefix) W (Ok (head (cells_under prefix W))) W.
Proof using RL.
  intros origin O o Hd Ho. destruct (over_scan origin O o W prefix Hd Ho) as (s & Hs & Hc). exists o.
  split; [|done]. unfold first_cell. cbn [run_prog]. rewrite Hs. unfold mbind, res_mbind. specialize (Hc _ (Nat.lt_succ_diag_r _)). cbn [CellScan_collect] in Hc.
  destruct (CellScan_next s) as [[[row|e| |]|] s']; cbn [fst]; try done.
  - apply res_bind_ok in Hc as (rows & _ & [= Hl]). by rewrite <- Hl.
  - injection Hc as Hl. by rewrite <- Hl.
Qed.
End Runs.

(** * System cells *)

Lemma field_not_indexable ty value : CellValue_is_indexable (field_from_typed ty value) = false.
Proof. exact (metadata_indexable ty false). Qed.

Lemma u64_not_indexable x : CellValue_is_indexable (from_u64 x) = false.
Proof. apply field_not_indexable. Qed.
Lemma bytes32_not_indexable key : CellValue_is_indexable (from_bytes32 key) = false.
Proof. apply field_not_indexable. Qed.

Lemma field_plain {A} ty value (o : option A) : plain (field_from_typed ty value) o = o.
Proof. unfold plain. by rewrite field_not_indexable. Qed.

Lemma plain_u64 id : uint_range 8 id -> plain (from_u64 id) (as_u64 (from_u64 id)) = Some id.
Proof.
  intros Hid. unfold from_u64. rewrite field_plain. unfold as_u64, ref_as_u64. rewrite exact_field. cbn [fmap option_fmap option_map].
  by rewrite be_decode_encode.
Qed.

Lemma plain_u32 x : uint_range 4 x -> plain (from_u32 x) (as_u32 (from_u32 x)) = Some x.
Proof.
  intros Hx. unfold from_u32. rewrite field_plain. unfold as_u32, ref_as_u32. rewrite exact_field. cbn [fmap option_fmap option_map].
  by rewrite be_decode_encode.
Qed.

Lemma identity_key_field key : identity_key (from_bytes32 key) = Some key.
Proof. unfold identity_key, from_bytes32. rewrite field_plain. apply exact_field. Qed.

Lemma from_u64_inj x y : uint_range 8 x -> uint_range 8 y -> from_u64 x = from_u64 y -> x = y.
Proof. intros Hx%plain_u64 Hy%plain_u64 E. congruence. Qed.

Lemma from_bytes32_inj k k' : from_bytes32 k = from_bytes32 k' -> k = k'.
Proof. intros E. pose proof (identity_key_field k) as Hk. rewrite E, identity_key_field in Hk. congruence. Qed.

Lemma from_u64_wf x : CellValue_wf (from_u64 x).
Proof. apply field_wf. eapply validate_fixed; [reflexivity|apply length_be_encode|done|done]. Qed.

Lemma from_u32_wf x : CellValue_wf (from_u32 x).
Proof. apply field_wf. eapply validate_fixed; [reflexivity|apply length_be_encode|done|done]. Qed.

Lemma from_bytes32_wf key : length key = 32%nat -> CellValue_wf (from_bytes32 key).
Proof. intros Hk. apply field_wf. eapply validate_fixed; [reflexivity|exact Hk|done|done]. Qed.

(** * The invariant *)

(** The three [#params] cells. *)
Definition param_key (name : CellName) : CellKey := {| ck_record_id := sr_id PARAMS; ck_name := name |}.

Record record_inv (W : Working) (L : CellLimits) (next : Z) : Prop := {
  (** keys are [u64] addresses *)
  inv_keys k v : W !! k = Some v -> CellKey_wf k;
  (** the allocator is past every cell *)
  inv_alloc : W !! allocator_key = Some (from_u64 next);
  inv_next : FIRST_USER_RECORD_ID <= next < 2 ^ 64;
  inv_fresh k v : W !! k = Some v -> ck_record_id k < next;
  (** the admission limits are readable *)
  inv_params : W !! param_key MAX_CELL_NAME_LEN = Some (from_u32 (max_cell_name_len L)) /\
    W !! param_key MAX_STR_LEN = Some (from_u32 (max_str_len L)) /\
    W !! param_key MAX_BYTES_LEN = Some (from_u32 (max_bytes_len L)) /\
    uint_range 4 (max_cell_name_len L) /\ uint_range 4 (max_str_len L) /\ uint_range 4 (max_bytes_len L);
  (** a binding names an existing record that carries its key *)
  inv_binding key v : length key = 32%nat -> W !! binding key = Some v -> exists id, v = from_u64 id /\ 0 <= id < next /\
    W !! identity_address id = Some (from_bytes32 key) /\
    match by_key key with Some r => id = sr_id r | None => FIRST_USER_RECORD_ID <= id end;
  (** the reserved records are bound *)
  inv_reserved r : r ∈ ALL -> W !! binding (sr_key r) = Some (from_u64 (sr_id r));
  (** every user cell belongs to a bound record *)
  inv_owned k v : W !! k = Some v -> FIRST_USER_RECORD_ID <= ck_record_id k ->
    exists key, length key = 32%nat /\ by_key key = None /\ W !! binding key = Some (from_u64 (ck_record_id k));
  (** only named user cells are indexed *)
  inv_indexable k v : W !! k = Some v -> CellValue_is_indexable v = true -> FIRST_USER_RECORD_ID <= ck_record_id k /\ user_name (ck_name k)
}.

(** The record a key is bound to, and its cells by name. *)
Definition bound (W : Working) (key : RecordKey) : option Z := v ← W !! binding key; as_u64 v.
Definition record_at (W : Working) (id : Z) : RecordCells := by_name (cells_under (be_encode 8 id) W).
Definition lookup_record (W : Working) (key : RecordKey) : option RecordCells := record_at W <$> bound W key.

(** ** A record's cells *)

Lemma under_record k id : CellKey_wf k -> uint_range 8 id ->
  starts_with (CellKey_encode k) (be_encode 8 id) = true <-> ck_record_id k = id.
Proof.
  intros Hk Hid. unfold starts_with. rewrite bool_decide_eq_true. destruct k as [rid name]. unfold CellKey_encode, CellKey_encode_into.
  cbn [app ck_record_id ck_name]. split.
  - intros [r E]. apply app_inj_1 in E as [E _]; [|by rewrite !length_be_encode].
    apply (f_equal be_decode) in E. rewrite !be_decode_encode in E by done. done.
  - intros ->. by apply prefix_app_r.
Qed.

Lemma by_name_lookup (rows : list (CellKey * CellValue)) name : NoDup (ck_name <$> rows.*1) ->
  forall v, by_name rows !! name = Some v <-> exists k, (k, v) ∈ rows /\ ck_name k = name.
Proof.
  unfold by_name. intros Hd v.
  enough (forall m, foldl (fun m '(k, v) => <[ck_name k := v]> m) m rows !! name = Some v <->
    (exists k, (k, v) ∈ rows /\ ck_name k = name) \/ (name ∉ ck_name <$> rows.*1) /\ (m : RecordCells) !! name = Some v) as ->.
  { rewrite lookup_empty. naive_solver. }
  induction rows as [|[k x] rows IH]; intros m; cbn [foldl]; [set_solver|].
  rewrite !fmap_cons in Hd |- *. apply NoDup_cons in Hd as [Hk Hd]. cbn [fst] in *. rewrite (IH Hd), not_elem_of_cons. split.
  - intros [(k' & Hin & Hn)|[Hnot [[<- <-]|[Hne Hm]]%lookup_insert_Some]].
    + left. exists k'. split; [by right|done].
    + left. exists k. split; [by left|done].
    + right. done.
  - intros [(k' & [[= -> ->]|Hin]%elem_of_cons & Hn)|[[Hne Hnot] Hm]].
    + right. split; [by subst|]. apply lookup_insert_Some. by left.
    + left. eauto.
    + right. split; [done|]. apply lookup_insert_Some. right. done.
Qed.

Lemma record_at_lookup W id name : (forall k v, W !! k = Some v -> CellKey_wf k) -> uint_range 8 id ->
  record_at W id !! name = W !! {| ck_record_id := id; ck_name := name |}.
Proof.
  intros Hw Hid. assert (forall k v, (k, v) ∈ cells_under (be_encode 8 id) W <-> W !! k = Some v /\ ck_record_id k = id) as Hin.
  { intros k v. unfold cells_under. rewrite list_elem_of_filter, elem_of_entries. cbn [fst]. split.
    - intros [Hp Hv]. split; [done|]. by apply under_record in Hp; [|by eapply Hw|done].
    - intros [Hv Hi]. split; [|done]. apply under_record; [by eapply Hw|done|done]. }
  apply option_eq. intros v. unfold record_at. rewrite by_name_lookup.
  - split.
    + intros ([rid n] & [Hv Hi]%Hin & Hn). cbn in Hi, Hn. by subst.
    + intros Hv. eexists. split; [by apply Hin|done].
  - assert (NoDup (cells_under (be_encode 8 id) W).*1) as Hd.
    { apply StronglySorted_klt_NoDup, filter_rows_sorted, entries_sorted. }
    apply NoDup_fmap_2_strong; [|done]. intros x y Hx Hy E.
    apply list_elem_of_fmap in Hx as ([x' vx] & -> & [_ Hx]%Hin). apply list_elem_of_fmap in Hy as ([y' vy] & -> & [_ Hy]%Hin).
    cbn in *. destruct x', y'. cbn in *. congruence.
Qed.

(** * The shared reads *)

Lemma by_key_in key r : by_key key = Some r -> r ∈ ALL /\ sr_key r = key.
Proof. unfold by_key. intros Hh. apply head_Some_elem_of, list_elem_of_filter in Hh as [? ?]. done. Qed.

Lemma uint8_lt id : 0 <= id < 2 ^ 64 -> uint_range 8 id.
Proof. unfold uint_range. by change (pow256 8) with (2 ^ 64). Qed.

Section Reads.
Context (W : Working) (L : CellLimits) (next : Z) (Hinv : record_inv W L next).

Lemma bound_cases key : length key = 32%nat ->
  (bound W key = None /\ W !! binding key = None /\ by_key key = None) \/
  exists id, bound W key = Some id /\ W !! binding key = Some (from_u64 id) /\ uint_range 8 id /\ id < next /\
    W !! identity_address id = Some (from_bytes32 key) /\
    match by_key key with Some r => id = sr_id r | None => FIRST_USER_RECORD_ID <= id end.
Proof using Hinv.
  intros Hlen. unfold bound. destruct (W !! binding key) as [v|] eqn:E.
  - right. destruct (inv_binding _ _ _ Hinv key v Hlen E) as (id & -> & Hid & Hk & Hr). exists id.
    pose proof (inv_next _ _ _ Hinv) as Hn. assert (uint_range 8 id) as Hu by (apply uint8_lt; lia).
    split_and!; try done; [|lia]. pose proof (plain_u64 id Hu) as Hp. unfold from_u64 in *. rewrite field_plain in Hp. exact Hp.
  - left. split_and!; [done..|]. destruct (by_key key) as [r|] eqn:Eb; [|done]. apply by_key_in in Eb as [Hr <-].
    rewrite (inv_reserved _ _ _ Hinv r Hr) in E. done.
Qed.

Lemma record_id_bound key : length key = 32%nat -> record_id key (W !! binding key) = Ok (bound W key).
Proof using Hinv.
  intros Hlen. destruct (bound_cases key Hlen) as [(-> & -> & Hb)|(id & -> & -> & Hu & Hlt & Hk & Hr)]; unfold record_id; [by rewrite Hb|].
  rewrite plain_u64 by done. unfold mbind, res_mbind. cbn [ok_or]. destruct (by_key key) as [r|].
  - subst id. by rewrite Z.eqb_refl.
  - by rewrite (proj2 (Z.ltb_ge _ _)).
Qed.

Lemma identity_ok key id : length key = 32%nat -> bound W key = Some id -> check_identity key (W !! identity_address id) = Ok ().
Proof using Hinv.
  intros Hlen Hb. destruct (bound_cases key Hlen) as [(E & _)|(id' & E & _ & _ & _ & Hk & _)]; [congruence|].
  rewrite Hb in E. injection E as ->. unfold check_identity. rewrite Hk. unfold mbind, res_mbind. cbn [ok_or].
  rewrite identity_key_field. by rewrite bool_decide_true.
Qed.

Lemma bound_range key id : length key = 32%nat -> bound W key = Some id -> uint_range 8 id /\ id < next.
Proof using Hinv. intros Hlen Hb. destruct (bound_cases key Hlen) as [(E & _)|(id' & E & _ & ? & ? & _)]; [congruence|]. by simplify_eq. Qed.

Context {T : Type} `{RL : ReadLaws T}.
Abbreviation runs := (runs (T:=T)).

Lemma runs_resolve key : length key = 32%nat -> runs (resolve key) W (Ok (bound W key)) W.
Proof using Hinv RL.
  intros Hlen. unfold resolve. eapply runs_bind; [by apply runs_get|]. rewrite record_id_bound by done. eapply runs_bind; [apply runs_res|].
  destruct (bound W key) as [id|] eqn:Eb; [|apply runs_ret].
  eapply runs_bind; [apply runs_get; by destruct (bound_range key id Hlen Eb)|]. rewrite (identity_ok key id Hlen Eb).
  eapply runs_bind; [apply runs_res|apply runs_ret].
Qed.

Lemma runs_limits : runs limits W (Ok L) W.
Proof using Hinv RL.
  destruct (inv_params _ _ _ Hinv) as (H1 & H2 & H3 & U1 & U2 & U3).
  assert (forall name x, W !! param_key name = Some (from_u32 x) -> uint_range 4 x -> runs (read_limit name) W (Ok x) W) as Hread.
  { intros name x Hx Hu. unfold read_limit. eapply runs_bind; [by apply runs_get|]. fold (param_key name). rewrite Hx.
    unfold decode_limit, mbind at 1, res_mbind. cbn [ok_or]. rewrite plain_u32 by done. apply runs_res. }
  unfold limits. eapply runs_bind; [by eapply Hread|]. eapply runs_bind; [by eapply Hread|]. eapply runs_bind; [by eapply Hread|].
  destruct L. apply runs_ret.
Qed.

Lemma runs_next_id : runs next_id W (if next <? 2 ^ 64 - 1 then Ok (next, next + 1) else Err R_RecordIdExhausted) W.
Proof using Hinv RL.
  unfold next_id. eapply runs_bind; [by apply runs_get|]. rewrite (inv_alloc _ _ _ Hinv). unfold decode_allocator, mbind at 1, res_mbind. cbn [ok_or].
  pose proof (inv_next _ _ _ Hinv) as [Hlo Hhi]. rewrite plain_u64 by (apply uint8_lt; unfold FIRST_USER_RECORD_ID in *; lia).
  unfold mbind, res_mbind. cbn [ok_or]. rewrite (proj2 (Z.ltb_ge _ _)) by done. unfold checked_succ.
  destruct (next <? 2 ^ 64 - 1); apply runs_res.
Qed.
End Reads.

(** * Creation *)

Definition put_all (id : Z) (cells : list (CellName * CellValue)) (W : Working) : Working :=
  foldl (fun W '(name, value) => <[{| ck_record_id := id; ck_name := name |} := value]> W) W cells.

Lemma put_all_lookup id cells W k :
  put_all id cells W !! k =
  if bool_decide (ck_record_id k = id) then match last_write (ck_name k) cells with Some v => Some v | None => W !! k end else W !! k.
Proof.
  unfold put_all. revert W. induction cells as [|[n v] cells IH]; intros W; cbn [foldl]; [by case_bool_decide|].
  rewrite IH. case_bool_decide as Hid.
  - rewrite last_write_cons. destruct (last_write (ck_name k) cells); [done|]. cbn [fst snd]. destruct k as [rid name]. cbn in *. subst rid.
    destruct (decide (n = name)) as [->|Hne]; [by rewrite lookup_insert_eq|]. rewrite lookup_insert_ne; [done|congruence].
  - rewrite lookup_insert_ne; [done|]. intros <-. by apply Hid.
Qed.

(** The cells after a creation. *)
Definition created (W : Working) (id : Z) (key : RecordKey) (values : RecordCells) (next : Z) : Working :=
  <[allocator_key := from_u64 next]> (<[binding key := from_u64 id]>
    (<[identity_address id := from_bytes32 key]> (put_all id (entries values) W))).

(** Addresses of different parts of the state differ. *)
Lemma allocator_not_binding key : allocator_key <> binding key.
Proof. done. Qed.

Lemma created_lookup W id key values next k : FIRST_USER_RECORD_ID <= id ->
  (forall k v, W !! k = Some v -> ck_record_id k <> id) -> (forall name, is_Some (values !! name) -> name <> KEY) ->
  created W id key values next !! k =
  if bool_decide (k = allocator_key) then Some (from_u64 next)
  else if bool_decide (k = binding key) then Some (from_u64 id)
  else if bool_decide (ck_record_id k = id) then
    (<[KEY := from_bytes32 key]> values : RecordCells) !! ck_name k
  else W !! k.
Proof.
  intros Hid Hno Hnames. unfold created. case_bool_decide as Ea; [by subst; rewrite lookup_insert_eq|].
  rewrite lookup_insert_ne by congruence. case_bool_decide as Eb; [by subst; rewrite lookup_insert_eq|].
  rewrite lookup_insert_ne by congruence. case_bool_decide as Ei.
  - destruct k as [rid name]. cbn [ck_record_id ck_name] in *. subst rid. destruct (decide (name = KEY)) as [->|Hk].
    + rewrite lookup_insert_eq. by rewrite lookup_insert_eq.
    + rewrite !lookup_insert_ne by (unfold identity_address; congruence). rewrite put_all_lookup. cbn [ck_record_id ck_name].
      rewrite bool_decide_true, last_write_entries by done. destruct (values !! name); [done|].
      destruct (W !! {| ck_record_id := id; ck_name := name |}) eqn:E; [|done]. by apply Hno in E.
  - rewrite lookup_insert_ne by (intros <-; by apply Ei). rewrite put_all_lookup. by rewrite bool_decide_false.
Qed.

(** Admitted names are user names within the limit. *)
Lemma validate_cells_names L cells : validate_cells L cells = Ok () ->
  Forall (fun c => user_name c.1 /\ Z.of_nat (length c.1) <= max_cell_name_len L) cells.
Proof.
  induction cells as [|[name value] cells IH]; intros Hv; [done|]. cbn [validate_cells] in Hv.
  apply res_bind_ok in Hv as ([] & Hc & Hv). constructor; [|by apply IH]. unfold validate_cell in Hc.
  apply res_bind_ok in Hc as (n & Hn%map_err_ok & _). by apply parse_user_ok in Hn as (_ & ? & ?).
Qed.

Lemma user_name_not_key name : user_name name -> name <> KEY.
Proof. intros Hu ->. vm_compute in Hu. by destruct Hu. Qed.

Lemma validated_names {V} (L : CellLimits) (values : gmap CellName V) (f : V -> option CellValue) :
  validate_cells L ((fun '(name, value) => (name, f value)) <$> entries values) = Ok () ->
  forall name, is_Some (values !! name) -> user_name name.
Proof.
  intros Hv name [v Hn]. apply validate_cells_names in Hv. rewrite Forall_forall in Hv.
  apply (Hv (name, f v)), list_elem_of_fmap. exists (name, v). split; [done|]. by apply elem_of_entries.
Qed.

Section Create.
Context (W : Working) (L : CellLimits) (next : Z) (Hinv : record_inv W L next).
Context (key : RecordKey) (values : RecordCells).
Hypothesis Hkey : length key = 32%nat.
Hypothesis Hres : by_key key = None.

(** What creation returns, in the order of its checks. *)
Definition create_result : res RecordError RecordKey :=
  _ ← validate_cells L ((fun '(name, value) => (name, Some value)) <$> entries values);
  match bound W key with
  | Some _ => Err R_AlreadyExists
  | None => if next <? 2 ^ 64 - 1 then Ok key else Err R_RecordIdExhausted
  end.

Definition create_cells : Working :=
  if is_ok create_result then created W next key values (next + 1) else W.

Context {T : Type} `{RL : ReadLaws T}.
Abbreviation runs := (runs (T:=T)).
Hypothesis Hvals : forall name v, values !! name = Some v -> CellValue_wf v.

Lemma next_unused k v : W !! k = Some v -> ck_record_id k <> next.
Proof using Hinv. clear Hkey. intros Hk. apply (inv_fresh _ _ _ Hinv) in Hk. lia. Qed.

Lemma next_range : uint_range 8 next /\ FIRST_USER_RECORD_ID <= next.
Proof using Hinv. clear Hkey. pose proof (inv_next _ _ _ Hinv). unfold FIRST_USER_RECORD_ID in *. split; [apply uint8_lt|]; lia. Qed.

Lemma runs_put_cells id cells W0 : uint_range 8 id -> Forall (fun c => CellValue_wf c.2) cells ->
  runs (put_cells id cells) W0 (Ok ()) (put_all id cells W0).
Proof using.
  intros Hid Hc. revert W0. induction Hc as [|[name value] cells Hv _ IH]; intros W0; cbn [put_cells]; [apply runs_ret|].
  eapply runs_bind; [by apply runs_put|]. apply IH.
Qed.

Lemma no_cells_under id : uint_range 8 id -> (forall k v, W !! k = Some v -> ck_record_id k <> id) -> cells_under (be_encode 8 id) W = [].
Proof using Hinv.
  intros Hid Hno. destruct (cells_under (be_encode 8 id) W) as [|[k v] l] eqn:E; [done|].
  assert ((k, v) ∈ cells_under (be_encode 8 id) W) as Hin by (rewrite E; by left).
  unfold cells_under in Hin. apply list_elem_of_filter in Hin as [Hp Hv%elem_of_entries]. cbn in Hp.
  apply under_record in Hp; [|by eapply inv_keys|done]. by apply Hno in Hv.
Qed.

Lemma runs_create : runs (create_prog key values) W create_result create_cells.
Proof using All.
  unfold create_prog, create_cells, create_result. eapply runs_bind; [by apply (runs_limits W L next Hinv)|].
  destruct (validate_cells L _) as [[]|e| |] eqn:Ev; [|by apply runs_bind_err, runs_res| |].
  2,3: intros origin O o _ Ho; by exists o.
  eapply runs_bind; [apply runs_res|]. eapply runs_bind; [by apply (runs_resolve W L next Hinv)|].
  unfold mbind at 6 7, res_mbind. destruct (bound W key) as [id|]; [apply runs_err|].
  pose proof (runs_next_id W L next Hinv (T := T)) as Hn. destruct (next <? 2 ^ 64 - 1) eqn:En; [|by apply runs_bind_err].
  eapply runs_bind; [exact Hn|]. destruct next_range as [Hu Hlo].
  eapply runs_bind; [apply runs_first|]. rewrite no_cells_under by (done || apply next_unused). cbn [head is_ok].
  assert (runs (put_cells next (entries values)) W (Ok ()) (put_all next (entries values) W)) as Hput.
  { apply runs_put_cells; [done|]. apply Forall_forall. intros [name v] Hin%elem_of_entries. by eapply Hvals. }
  eapply runs_bind; [exact Hput|]. eapply runs_bind; [apply runs_put; [exact Hu|by apply from_bytes32_wf]|].
  eapply runs_bind; [apply runs_put; [done|apply from_u64_wf]|]. eapply runs_bind; [apply runs_put; [done|apply from_u64_wf]|].
  apply runs_ret.
Qed.
End Create.

(** ** What creation means for the records *)

Lemma bound_lookup W key v : W !! binding key = v -> bound W key = v' ← v; as_u64 v'.
Proof. by intros <-. Qed.

Lemma as_u64_field id : uint_range 8 id -> as_u64 (from_u64 id) = Some id.
Proof. intros Hid%plain_u64. unfold from_u64 in *. by rewrite field_plain in Hid. Qed.

Lemma record_at_ext W W' id : uint_range 8 id -> (forall k v, W !! k = Some v -> CellKey_wf k) ->
  (forall k v, W' !! k = Some v -> CellKey_wf k) ->
  (forall name, W' !! {| ck_record_id := id; ck_name := name |} = W !! {| ck_record_id := id; ck_name := name |}) ->
  record_at W' id = record_at W id.
Proof. intros Hid Hw Hw' He. apply map_eq. intros name. by rewrite !record_at_lookup. Qed.

Lemma identity_not_allocator id : identity_address id <> allocator_key.
Proof. intros E. apply (f_equal ck_name) in E. by vm_compute in E. Qed.

Lemma identity_not_binding id key : length key = 32%nat -> identity_address id <> binding key.
Proof. intros Hk E. apply (f_equal (length ∘ ck_name)) in E. cbn -[KEY] in E. rewrite Hk in E. by vm_compute in E. Qed.

(** A key of a user record is at none of the system addresses. *)
Lemma user_address_not_system id name : FIRST_USER_RECORD_ID <= id ->
  {| ck_record_id := id; ck_name := name |} <> allocator_key /\ forall key, {| ck_record_id := id; ck_name := name |} <> binding key.
Proof.
  unfold FIRST_USER_RECORD_ID. intros Hid. split; [|intros key]; intros E; apply (f_equal ck_record_id) in E; cbn in E; lia.
Qed.

Section Created.
Context (W : Working) (L : CellLimits) (next : Z) (Hinv : record_inv W L next).
Context (key : RecordKey) (values : RecordCells).
Hypothesis Hkey : length key = 32%nat.
Hypothesis Hres : by_key key = None.
Hypothesis Hfree : bound W key = None.
Hypothesis Hmore : next < 2 ^ 64 - 1.
Hypothesis Husers : forall name, is_Some (values !! name) -> user_name name.

Abbreviation W' := (created W next key values (next + 1)).

Lemma created_at k : W' !! k =
  if bool_decide (k = allocator_key) then Some (from_u64 (next + 1))
  else if bool_decide (k = binding key) then Some (from_u64 next)
  else if bool_decide (ck_record_id k = next) then (<[KEY := from_bytes32 key]> values : RecordCells) !! ck_name k
  else W !! k.
Proof using Hinv Husers.
  apply created_lookup; [by apply (next_range W L next Hinv)|apply (next_unused W L next Hinv)|].
  intros name Hn. by apply user_name_not_key, Husers.
Qed.

Lemma small_not_next (rid : Z) : rid < FIRST_USER_RECORD_ID -> rid <> next.
Proof using Hinv. clear Hmore Hkey. pose proof (inv_next _ _ _ Hinv). lia. Qed.

Lemma created_other k : ck_record_id k <> next -> k <> allocator_key -> k <> binding key -> W' !! k = W !! k.
Proof using Hinv Husers. intros. rewrite created_at. by rewrite !bool_decide_false. Qed.

Lemma created_some k v : W' !! k = Some v -> k = allocator_key \/ k = binding key \/ ck_record_id k = next \/ W !! k = Some v.
Proof using Hinv Husers. rewrite created_at. repeat case_bool_decide; auto. Qed.

Lemma created_keys k v : W' !! k = Some v -> CellKey_wf k.
Proof using Hinv Husers.
  intros [->|[->|[Hk|Hv]]]%created_some; [done|done| |by eapply inv_keys]. red. rewrite Hk. by apply (next_range W L next Hinv).
Qed.

Lemma created_binding key' : W' !! binding key' = if bool_decide (key' = key) then Some (from_u64 next) else W !! binding key'.
Proof using Hinv Husers.
  case_bool_decide as E.
  - subst. rewrite created_at. rewrite bool_decide_false by done. by rewrite bool_decide_true.
  - apply created_other; [by apply small_not_next|done|]. unfold binding. congruence.
Qed.

Lemma created_identity id : id < next -> W' !! identity_address id = W !! identity_address id.
Proof using Hinv Husers Hkey.
  intros Hid. apply created_other; [cbn; lia|apply identity_not_allocator|by apply identity_not_binding].
Qed.

Lemma created_inv : record_inv W' L (next + 1).
Proof using Hinv Husers Hfree Hmore Hres Hkey.
  pose proof (inv_next _ _ _ Hinv) as [Hlo Hhi].
  assert (W !! binding key = None) as Hnone.
  { destruct (bound_cases W L next Hinv key Hkey) as [(_ & ? & _)|(id & E & _)]; congruence. }
  split.
  - apply created_keys.
  - rewrite created_at. by rewrite bool_decide_true.
  - lia.
  - intros k v [->|[->|[->|Hv%(inv_fresh _ _ _ Hinv)]]]%created_some; unfold FIRST_USER_RECORD_ID in *; cbn; lia.
  - destruct (inv_params _ _ _ Hinv) as (P1 & P2 & P3 & Hrest).
    rewrite !created_other; [done|by apply small_not_next|done|done|by apply small_not_next|done|done|by apply small_not_next|done|done].
  - intros key' v Hlen. rewrite created_binding. case_bool_decide as E.
    + subst key'. intros [= <-]. exists next. rewrite Hres. split_and!; [done|unfold FIRST_USER_RECORD_ID in *; lia|lia| |done].
      rewrite created_at. rewrite (bool_decide_false _ (identity_not_allocator next)), (bool_decide_false _ (identity_not_binding next key Hkey)).
      rewrite bool_decide_true by done. apply lookup_insert_eq.
    + intros Hv. destruct (inv_binding _ _ _ Hinv key' v Hlen Hv) as (id & -> & Hid & Hk & Hr). exists id.
      rewrite created_identity by lia. split_and!; [done|lia|lia|done|done].
  - intros r Hr. rewrite created_binding. rewrite bool_decide_false by (intros <-; rewrite (inv_reserved _ _ _ Hinv r Hr) in Hnone; done).
    by apply (inv_reserved _ _ _ Hinv).
  - intros k v [->|[->|[Hk|Hv]]]%created_some Hu; [unfold FIRST_USER_RECORD_ID in Hu; cbn in Hu; lia..| |].
    + exists key. rewrite created_binding, bool_decide_true, Hk by done. done.
    + destruct (inv_owned _ _ _ Hinv k v Hv Hu) as (key' & Hlen & Hb & Hbk). exists key'. rewrite created_binding.
      rewrite bool_decide_false by (intros ->; congruence). done.
  - intros k v. rewrite created_at. destruct (user_address_not_system next (ck_name k)) as [Ha Hb]; [lia|].
    case_bool_decide; [intros [= <-] Hi; by rewrite u64_not_indexable in Hi|]. case_bool_decide; [intros [= <-] Hi; by rewrite u64_not_indexable in Hi|].
    case_bool_decide as Ek; [|apply (inv_indexable _ _ _ Hinv)].
    rewrite lookup_insert_Some. intros [[_ <-]|[_ Hv]] Hi; [by rewrite bytes32_not_indexable in Hi|].
    split; [lia|]. apply Husers. by eexists.
Qed.

Lemma created_lookup_record key' : length key' = 32%nat -> by_key key' = None ->
  lookup_record W' key' = if bool_decide (key' = key) then Some (<[KEY := from_bytes32 key]> values) else lookup_record W key'.
Proof using Hinv Husers Hkey Hmore.
  intros Hlen Hus. unfold lookup_record. rewrite (bound_lookup W' key' _ (created_binding key')). case_bool_decide as E.
  - subst. cbn [mbind option_bind]. destruct (next_range W L next Hinv) as [Hu Hlo]. rewrite as_u64_field by done.
    cbn [fmap option_fmap option_map]. f_equal. apply map_eq. intros name.
    rewrite record_at_lookup by (done || apply created_keys). rewrite created_at.
    destruct (user_address_not_system next name Hlo) as [Ha Hb]. rewrite (bool_decide_false _ Ha), (bool_decide_false _ (Hb key)).
    by rewrite bool_decide_true.
  - change (v' ← W !! binding key'; as_u64 v') with (bound W key').
    destruct (bound_cases W L next Hinv key' Hlen) as [(-> & _)|(id & -> & _ & Hu & Hlt & _ & Hr)]; [done|]. rewrite Hus in Hr.
    cbn [fmap option_fmap option_map]. f_equal.
    apply record_at_ext; [done|by apply inv_keys with L next|apply created_keys|]. intros name.
    destruct (user_address_not_system id name Hr) as [Ha Hb]. apply created_other; [cbn; lia|done|done].
Qed.
End Created.

(** * Edits of one record's cells *)

Section EditRecord.
Context (W : Working) (L : CellLimits) (next : Z) (Hinv : record_inv W L next).
Context (key : RecordKey) (id : Z).
Hypothesis Hkey : length key = 32%nat.
Hypothesis Hres : by_key key = None.
Hypothesis Hid : bound W key = Some id.

Lemma bound_user : uint_range 8 id /\ id < next /\ FIRST_USER_RECORD_ID <= id /\
  W !! binding key = Some (from_u64 id) /\ W !! identity_address id = Some (from_bytes32 key).
Proof using All.
  destruct (bound_cases W L next Hinv key Hkey) as [(E & _)|(id' & E & Hb & Hu & Hlt & Hk & Hr)]; [congruence|].
  rewrite Hid in E. injection E as <-. rewrite Hres in Hr. done.
Qed.

Lemma user_key_id k : FIRST_USER_RECORD_ID <= ck_record_id k -> k <> allocator_key /\ (forall key', k <> binding key') /\ forall name, k <> param_key name.
Proof using.
  clear Hkey. unfold FIRST_USER_RECORD_ID. intros Hk. split_and!; [|intros key'|intros name]; intros ->; cbn in Hk; lia.
Qed.

(** Two keys are never bound to one record. *)
Lemma bound_inj key' : length key' = 32%nat -> bound W key' = Some id -> key' = key.
Proof using All.
  intros Hlen Hb'. destruct bound_user as (_ & _ & _ & _ & Hk).
  destruct (bound_cases W L next Hinv key' Hlen) as [(E & _)|(id' & E & _ & _ & _ & Hk' & _)]; [congruence|].
  rewrite Hb' in E. injection E as <-. rewrite Hk in Hk'. apply from_bytes32_inj. congruence.
Qed.

(** Cells of this record change, its identity does not. *)
Context (W' : Working).
Hypothesis Hother : forall k, ck_record_id k <> id -> W' !! k = W !! k.

Lemma edited_keys k v : W' !! k = Some v -> CellKey_wf k.
Proof using All.
  destruct (decide (ck_record_id k = id)) as [E|E]; [|rewrite Hother by done; apply (inv_keys _ _ _ Hinv)].
  intros _. red. rewrite E. apply bound_user.
Qed.

Lemma small_other (rid : Z) : rid < FIRST_USER_RECORD_ID -> rid <> id.
Proof using W L next Hinv key id Hkey Hres Hid. intros Hr ->. destruct bound_user as (_ & _ & Hlo & _). lia. Qed.

Lemma edited_inv : W' !! identity_address id = W !! identity_address id ->
  (forall k v, ck_record_id k = id -> W' !! k = Some v -> CellValue_is_indexable v = true -> user_name (ck_name k)) -> record_inv W' L next.
Proof using All.
  intros Hident Hindexed. destruct bound_user as (Hu & Hlt & Hlo & Hb & Hk). pose proof (inv_params _ _ _ Hinv) as Hp. split.
  - apply edited_keys.
  - rewrite Hother by (by apply small_other). apply Hinv.
  - apply Hinv.
  - intros k v Hv. destruct (decide (ck_record_id k = id)) as [->|E]; [done|]. rewrite Hother in Hv by done. by eapply inv_fresh.
  - rewrite !Hother by (by apply small_other). exact Hp.
  - intros key' v Hlen. rewrite Hother by (by apply small_other). intros Hv.
    destruct (inv_binding _ _ _ Hinv key' v Hlen Hv) as (id' & -> & Hid' & Hk' & Hr'). exists id'. split_and!; [done|lia|lia| |done].
    destruct (decide (id' = id)) as [->|E]; [by rewrite Hident|]. by rewrite Hother.
  - intros r Hr. rewrite Hother by (by apply small_other). by apply (inv_reserved _ _ _ Hinv).
  - intros k v Hv Hu'. destruct (decide (ck_record_id k = id)) as [->|E].
    + exists key. split; [done|]. split; [done|]. rewrite Hother by (by apply small_other). done.
    + rewrite Hother in Hv by done. destruct (inv_owned _ _ _ Hinv k v Hv Hu') as (key' & ? & ? & ?). exists key'.
      split; [done|]. split; [done|]. by rewrite Hother by (by apply small_other).
  - intros k v Hv Hi. destruct (decide (ck_record_id k = id)) as [E|E]; [split; [by rewrite E|by eapply Hindexed]|].
    rewrite Hother in Hv by done. by eapply inv_indexable.
Qed.

Lemma edited_bound key' : bound W' key' = bound W key'.
Proof using All. unfold bound. by rewrite Hother by (by apply small_other). Qed.

Lemma edited_lookup_record key' : length key' = 32%nat -> key' <> key -> lookup_record W' key' = lookup_record W key'.
Proof using All.
  intros Hlen Hne. unfold lookup_record. rewrite edited_bound. destruct (bound W key') as [id'|] eqn:Eb; [|done].
  cbn [fmap option_fmap option_map]. f_equal. destruct (bound_range W L next Hinv key' id' Hlen Eb) as [Hu' _].
  apply record_at_ext; [done|by apply inv_keys with L next|apply edited_keys|]. intros name. apply Hother. cbn. intros ->.
  by apply bound_inj in Eb.
Qed.
End EditRecord.

(** ** Patches *)

Definition patch_all (id : Z) (changes : list (CellName * CellPatch)) (W : Working) : Working :=
  foldl (fun W '(name, change) =>
    let address := {| ck_record_id := id; ck_name := name |} in
    match patch_value change with Some v => <[address := v]> W | None => delete address W end) W changes.

Lemma patch_all_lookup id changes W k :
  patch_all id changes W !! k =
  if bool_decide (ck_record_id k = id) then
    match last_write (ck_name k) changes with Some change => patch_value change | None => W !! k end
  else W !! k.
Proof.
  unfold patch_all. revert W. induction changes as [|[n c] changes IH]; intros W; cbn [foldl]; [by case_bool_decide|].
  rewrite IH. case_bool_decide as Hid.
  - rewrite last_write_cons. destruct (last_write (ck_name k) changes); [done|]. cbn [fst snd]. destruct k as [rid name]. cbn in *. subst rid.
    destruct (decide (n = name)) as [->|Hne]; destruct (patch_value c);
      rewrite ?lookup_insert_eq, ?lookup_delete_eq, ?lookup_insert_ne, ?lookup_delete_ne by congruence; done.
  - destruct (patch_value c); rewrite ?lookup_insert_ne, ?lookup_delete_ne; try done; intros <-; by apply Hid.
Qed.

(** A record after a patch. *)
Definition patched (changes : RecordPatch) (cells : RecordCells) : RecordCells :=
  merge (fun change cell => match change with Some c => patch_value c | None => cell end) changes cells.

Lemma patched_lookup changes cells name :
  patched changes cells !! name = match changes !! name with Some c => patch_value c | None => cells !! name end.
Proof. unfold patched. rewrite lookup_merge. by destruct (changes !! name), (cells !! name). Qed.

Section RunEdits.
Context {T : Type} `{RL : ReadLaws T}.
Abbreviation runs := (runs (T:=T)).

Lemma runs_patch_cells id changes W : uint_range 8 id ->
  Forall (fun c => forall v, c.2 = PatchSet v -> CellValue_wf v) changes ->
  runs (patch_cells id changes) W (Ok ()) (patch_all id changes W).
Proof using RL.
  intros Hid Hc. revert W. induction Hc as [|[name c] changes Hv _ IH]; intros W; cbn [patch_cells]; [apply runs_ret|].
  eapply runs_bind; [by apply runs_get|]. cbn [patch_all foldl]. set (address := {| ck_record_id := id; ck_name := name |}).
  eapply runs_bind; [|apply IH]. destruct c as [v|]; cbn [patch_value].
  - case_bool_decide as E; cbn [negb]; [rewrite insert_id by done; apply runs_ret|]. apply runs_put; [done|by apply Hv].
  - destruct (W !! address) eqn:E; [by apply runs_delete|]. rewrite delete_id by done. apply runs_ret.
Qed.

Lemma runs_delete_cells addresses W : Forall CellKey_wf addresses ->
  runs (delete_cells addresses) W (Ok ()) (foldl (fun W k => delete k W) W addresses).
Proof using.
  intros Hc. revert W. induction Hc as [|k addresses Hk _ IH]; intros W; cbn [delete_cells foldl]; [apply runs_ret|].
  eapply runs_bind; [by apply runs_delete|]. apply IH.
Qed.

Lemma runs_read_names id names values W : uint_range 8 id ->
  exists values', runs (read_names id names values) W (Ok values') W /\
    forall name, values' !! name =
      match (if bool_decide (name ∈ names) then W !! {| ck_record_id := id; ck_name := name |} else None) with
      | Some v => Some v
      | None => values !! name
      end.
Proof using RL.
  intros Hid. revert values. induction names as [|n names IH]; intros values; cbn [read_names].
  - exists values. split; [apply runs_ret|]. intros name. by rewrite bool_decide_false by apply not_elem_of_nil.
  - destruct (IH match W !! {| ck_record_id := id; ck_name := n |} with Some value => <[n := value]> values | None => values end)
      as (values' & Hr & Hv). exists values'. split; [eapply runs_bind; [by apply runs_get|exact Hr]|].
    intros name. rewrite Hv. destruct (decide (name = n)) as [->|Hne].
    + rewrite (bool_decide_true (n ∈ n :: names)) by set_solver.
      destruct (W !! {| ck_record_id := id; ck_name := n |}) as [v|]; [|by case_bool_decide].
      case_bool_decide; [done|]. apply lookup_insert_eq.
    + rewrite (bool_decide_ext (name ∈ n :: names) (name ∈ names)) by set_solver.
      destruct (if bool_decide (name ∈ names) then _ else None); [done|].
      destruct (W !! {| ck_record_id := id; ck_name := n |}); [by rewrite lookup_insert_ne|done].
Qed.
End RunEdits.

Lemma delete_all_lookup (addresses : list CellKey) (W : Working) k :
  foldl (fun W k => delete k W) W addresses !! k = if bool_decide (k ∈ addresses) then None else W !! k.
Proof.
  revert W. induction addresses as [|a addresses IH]; intros W; cbn [foldl]; [done|]. rewrite IH.
  destruct (decide (k = a)) as [->|Hne].
  - rewrite (bool_decide_true (a ∈ a :: addresses)) by set_solver. case_bool_decide; [done|]. apply lookup_delete_eq.
  - rewrite (bool_decide_ext (k ∈ a :: addresses) (k ∈ addresses)) by set_solver. by rewrite lookup_delete_ne.
Qed.
