(* ===== verification/CommittedSpec.v ===== *)
(** What committed record reads return: crates/record/src/committed.rs.

    Over a transaction whose cell rows are exactly the cells [W], a committed
    read is a lookup in the keyed store of records that [W] holds. *)
From Stdlib Require Import ZArith Lia.
From S2P Require Import Prelude Ordered Storage Scan CellTypes CellValue CellName MerkleNode MerkleTrie.
From S2P Require Import BranchTypes CellScan Overlay Cells Buffer Term Bitmap Index Seal Branches Records RecordsSpec.

#[local] Open Scope Z_scope.

(** The cells of a record that a read selects: all, or the named ones. *)
Definition project (names : option (list CellName)) (cells : RecordCells) : RecordCells :=
  match names with
  | None => cells
  | Some names => filter (fun kv => kv.1 ∈ names) cells
  end.

Lemma project_lookup names cells name :
  project names cells !! name = match names with None => cells !! name | Some names => if bool_decide (name ∈ names) then cells !! name else None end.
Proof.
  destruct names as [names|]; [|done]. cbn [project]. case_bool_decide as Hin.
  - destruct (cells !! name) as [v|] eqn:E.
    + by apply map_lookup_filter_Some.
    + apply map_lookup_filter_None. by left.
  - apply map_lookup_filter_None. right. intros v _. done.
Qed.

Section Committed.
Context {T : Type} `{RL : ReadLaws T}.
Context (tx : T) (W : Working).
Hypothesis Hdec : decoded (view tx CELL) W.

Lemma CellReader_get_ok k : CellKey_wf k -> CellReader_get tx k = Ok (W !! k).
Proof using Hdec. apply read_value_ok, Hdec. Qed.

Lemma record_collect_ok fuel s (A : list (CellKey * CellValue)) : Scan_collect fuel s = Ok (row_of <$> A) ->
  Forall (fun c => CellKey_wf c.1 /\ CellValue_wf c.2) A -> record_collect fuel (s, false) = Ok A.
Proof using.
  revert s A. induction fuel as [|fuel IH]; intros s A Hs HA; [done|]. cbn [Scan_collect] in Hs.
  cbn [record_collect record_scan_next]. destruct (Scan_next s) as [[row|] s'].
  2: { injection Hs as E. symmetry in E. by apply fmap_nil_inv in E as ->. }
  destruct row as [row|e| |]; try done. apply res_bind_ok in Hs as (rest & Hrest & E). injection E as E.
  destruct A as [|[k v] A]; [done|]. rewrite fmap_cons in E. injection E as -> ->. apply Forall_cons in HA as [[Hk Hv] HA]. cbn [fst snd] in *.
  unfold mbind, res_mbind, row_of. cbn [map_err fst snd]. rewrite CellKey_decode_encode by done. cbn [map_err]. rewrite Hv. cbn [map_err].
  by rewrite (IH s' A).
Qed.

(** Reading named cells keeps what was there and adds the record's. *)
Lemma committed_names_ok id names values : uint_range 8 id ->
  exists values', committed_names tx id names values = Ok values' /\
    forall name, values' !! name =
      match (if bool_decide (name ∈ names) then W !! {| ck_record_id := id; ck_name := name |} else None) with
      | Some v => Some v
      | None => values !! name
      end.
Proof using Hdec.
  intros Hid. revert values. induction names as [|n names IH]; intros values; cbn [committed_names].
  - exists values. split; [done|]. intros name. by rewrite bool_decide_false by apply not_elem_of_nil.
  - destruct (IH match W !! {| ck_record_id := id; ck_name := n |} with Some value => <[n := value]> values | None => values end)
      as (values' & Hr & Hv). exists values'. split.
    + unfold mbind, res_mbind. rewrite CellReader_get_ok by done. exact Hr.
    + intros name. rewrite Hv. destruct (decide (name = n)) as [->|Hne].
      * rewrite (bool_decide_true (n ∈ n :: names)) by set_solver.
        destruct (W !! {| ck_record_id := id; ck_name := n |}) as [v|]; [|by case_bool_decide].
        case_bool_decide; [done|]. apply lookup_insert_eq.
      * rewrite (bool_decide_ext (name ∈ n :: names) (name ∈ names)) by set_solver.
        destruct (if bool_decide (name ∈ names) then _ else None); [done|].
        destruct (W !! {| ck_record_id := id; ck_name := n |}); [by rewrite lookup_insert_ne|done].
Qed.

Lemma read_cells_ok fuel id projection : uint_range 8 id -> (size (view tx CELL) < fuel)%nat ->
  read_cells fuel tx id projection = Ok (project projection (record_at W id)).
Proof using Hdec.
  intros Hid Hf. assert (forall k v, W !! k = Some v -> CellKey_wf k) as Hk by (intros k v Hk; by apply Hdec in Hk as [? _]).
  destruct projection as [names|]; cbn [read_cells].
  - destruct (committed_names_ok id names ∅ Hid) as (values & -> & Hv). f_equal. apply map_eq. intros name.
    rewrite Hv, project_lookup, record_at_lookup, lookup_empty by done. by destruct (if bool_decide _ then _ else _).
  - unfold CellReader_scan_record. destruct (scan_prefix_collect tx CELL (be_encode 8 id) table_ok_CELL) as (s & -> & Hcol).
    cbn [map_err]. unfold mbind, res_mbind. rewrite (record_collect_ok fuel s (cells_under (be_encode 8 id) W)); [done|..].
    + rewrite (Hcol fuel Hf). by rewrite (cells_rows _ _ W).
    + apply Forall_forall. intros [k v] [_ Hin]%list_elem_of_filter. apply elem_of_entries in Hin. by apply Hdec.
Qed.

Lemma read_by_id_ok fuel id key projection : uint_range 8 id -> W !! identity_address id = Some (from_bytes32 key) ->
  (size (view tx CELL) < fuel)%nat ->
  read_committed_by_id fuel tx id projection = Ok {| rec_key := key; rec_cells := project projection (record_at W id) |}.
Proof using Hdec.
  intros Hid Hi Hf. unfold read_committed_by_id, mbind, res_mbind. rewrite CellReader_get_ok by done. cbn [map_err]. rewrite Hi. cbn [ok_or].
  rewrite identity_key_field. cbn [ok_or]. by rewrite read_cells_ok.
Qed.

(** A committed read by key answers from the keyed store. *)
Lemma read_by_key_ok fuel L next key projection : record_inv W L next -> length key = 32%nat -> (size (view tx CELL) < fuel)%nat ->
  read_committed_by_key fuel tx key projection =
  match lookup_record W key with
  | Some cells => Ok {| rec_key := key; rec_cells := project projection cells |}
  | None => Err R_NotFound
  end.
Proof using Hdec.
  intros Hinv Hlen Hf. unfold read_committed_by_key, mbind, res_mbind. rewrite CellReader_get_ok by done. cbn [map_err].
  rewrite (record_id_bound W L next Hinv key Hlen). unfold lookup_record. destruct (bound W key) as [id|] eqn:E; [|done]. cbn [ok_or].
  destruct (bound_range W L next Hinv key id Hlen E) as [Hid _].
  rewrite CellReader_get_ok by done. cbn [map_err]. rewrite (identity_ok W L next Hinv key id Hlen E). by rewrite read_cells_ok.
Qed.
End Committed.
