(* ===== verification/QuerySpec.v ===== *)
(** What queries promise: crates/query against the cells of a store.

    [ServesPostings] is the contract between evaluation and the index: a source
    that answers from a set of postings. [match_set_ok] is proved against it,
    and [IndexSource] discharges it over an index in [index_state]. A filter
    selects cells ([cell_matches]); the records that own them are its matches. *)
From Stdlib Require Import ZArith Lia.
From S2P Require Import Prelude Ordered Storage Scan CellTypes CellValue CellName MerkleNode MerkleTrie.
From S2P Require Import BranchTypes CellScan Overlay Cells Buffer Term Bitmap BitmapSpec Index IndexSpec IndexReads Seal CellIndex SealSpec.
From S2P Require Import Branches Records RecordsSpec CommittedSpec Query.

#[local] Open Scope Z_scope.

(** * Sources of postings *)

(** An iterator that yields these bitmaps, then ends. *)
Inductive yields {P : Type} `{PostingSource P} (source : P) : ps_iter -> list Bitmap -> Prop :=
  | yields_end it it' : ps_next source it = (None, it') -> yields source it []
  | yields_step it it' b bs : ps_next source it = (Some (Ok b), it') -> yields source it' bs -> yields source it (b :: bs).

Definition range_ok (r : TermRange) : Prop := reversed (tr_lower r) (tr_upper r) = false.

Class ServesPostings {P : Type} `{PostingSource P} (source : P) (posts : Postings) (fuel : nat) : Prop := {
  serves_term term : ps_postings source term = Ok (ids posts term);
  serves_scan r : range_ok r -> exists it bs, ps_scan source r = Ok it /\ yields source it bs /\ (length bs < fuel)%nat /\
    forall id, id ∈ ⋃ bs <-> exists term, admits (Some r) term = true /\ (term, id) ∈ posts
}.

(** The terms a plan reads. *)
Definition plan_admits (plan : Plan) (term : IndexTerm) : Prop :=
  match plan with
  | TermRead t => term = t
  | TermReads ts => term ∈ ts
  | PlanScan r => admits (Some r) term = true
  | PlanEmpty => False
  end.
Definition plan_ok (plan : Plan) : Prop := match plan with PlanScan r => range_ok r | _ => True end.

Section MatchSet.
Context {P : Type} `{PostingSource P} (source : P) (posts : Postings) (fuel : nat) `{!ServesPostings source posts fuel}.

Lemma union_terms_ok acc terms : exists B, union_terms source acc terms = Ok B /\
  forall id, id ∈ B <-> id ∈ acc \/ exists term, term ∈ terms /\ (term, id) ∈ posts.
Proof using All.
  revert acc. induction terms as [|t terms IH]; intros acc; cbn [union_terms].
  - exists acc. split; [done|]. set_solver.
  - unfold mbind, res_mbind. rewrite serves_term. cbn [map_err]. destruct (IH (acc ∪ ids posts t)) as (B & -> & HB).
    exists B. split; [done|]. intros id. rewrite HB, elem_of_union, elem_of_ids. setoid_rewrite elem_of_cons. naive_solver.
Qed.

Lemma union_scan_ok it bs acc n : yields source it bs -> (length bs < n)%nat -> union_scan n source acc it = Ok (acc ∪ ⋃ bs).
Proof using.
  clear ServesPostings0 fuel posts. intros Hy. revert acc n. induction Hy as [it it' E|it it' b bs E _ IH]; intros acc n Hn; (destruct n as [|n]; [lia|]); cbn [union_scan]; rewrite E.
  - f_equal. set_solver.
  - unfold mbind, res_mbind. cbn [map_err]. rewrite IH by (cbn in Hn; lia). f_equal. rewrite union_list_cons. set_solver.
Qed.

(** Evaluation over any source: the IDs posted under the plan's terms. *)
Lemma match_set_ok plan : plan_ok plan -> exists B, match_set fuel source plan = Ok B /\
  forall id, id ∈ B <-> exists term, plan_admits plan term /\ (term, id) ∈ posts.
Proof using All.
  intros Hp. destruct plan as [t|ts|r|]; cbn [match_set plan_admits].
  - exists (ids posts t). rewrite serves_term. split; [done|]. intros id. rewrite elem_of_ids. naive_solver.
  - destruct (union_terms_ok ∅ ts) as (B & -> & HB). exists B. split; [done|]. intros id. rewrite HB. set_solver.
  - destruct (serves_scan r Hp) as (it & bs & -> & Hy & Hl & HB). exists (∅ ∪ ⋃ bs). unfold mbind, res_mbind. cbn [map_err].
    rewrite (union_scan_ok it bs) by done. split; [done|]. intros id. rewrite <- HB. set_solver.
  - exists ∅. split; [done|]. set_solver.
Qed.
End MatchSet.

(** * The index as a source *)

Section IndexSource.
Context `{Roaring} {RO : RoaringLaws} `{HashProvider} {HL : HashLaws}.
Context {T : Type} `{WT : WriteTransaction T} {RL : ReadLaws T} {WL : WriteLaws T}.

(** Fuel past the rows of the index and the containers of every bitmap. *)
Definition index_fuel (tx : T) (posts : Postings) (fuel : nat) : Prop :=
  (size (view tx INDEX) < fuel)%nat /\ forall term, (2 * size (occupied_paths (ids posts term)) + 1 < fuel)%nat.

Lemma index_scan_yields tx root posts fuel n (s : Scan T) rows : index_state tx root posts -> ~ clash tx -> index_fuel tx posts fuel ->
  Scan_collect n s = Ok rows -> (forall k v, (k, v) ∈ rows -> view tx INDEX !! k = Some v) ->
  yields {| src_tx := tx; src_fuel := fuel |} {| ts_scan := s; ts_done := false |} ((fun kv => ids posts kv.1) <$> rows).
Proof using RO HL.
  intros Hst Hc [_ Hfuel]. revert s rows. induction n as [|n IH]; intros s rows Hs Hin; [done|]. cbn [Scan_collect] in Hs.
  destruct (Scan_next s) as [[row|] s'] eqn:En.
  2: { injection Hs as <-. eapply yields_end. cbn [ps_next IndexSource_postings]. unfold TermScan_next. cbn [ts_done ts_scan]. by rewrite En. }
  destruct row as [[k v]|e| |]; try done. apply res_bind_ok in Hs as (rest & Hrest & [= <-]). rewrite fmap_cons.
  assert (Hk : view tx INDEX !! k = Some v) by (apply Hin, list_elem_of_here).
  destruct (index_row_ok tx root posts k v Hst Hc Hk) as (Edec & Eroot & _).
  eapply yields_step; [|apply (IH s' rest Hrest); intros k' v' Hr; by apply Hin, list_elem_of_further].
  cbn [ps_next IndexSource_postings src_tx src_fuel fst]. unfold TermScan_next. cbn [ts_done ts_scan]. rewrite En.
  unfold mbind, res_mbind. cbn [map_err]. rewrite Edec. cbn [map_err]. rewrite Eroot.
  pose proof (is_rows _ _ _ Hst k) as Hrow. rewrite Hk in Hrow. specialize (Hfuel k).
  rewrite (bitmap_at_ok tx v (ids posts k) fuel fuel) by (done || lia). done.
Qed.

Lemma index_serves tx root posts fuel : index_state tx root posts -> ~ clash tx -> index_fuel tx posts fuel ->
  ServesPostings {| src_tx := tx; src_fuel := fuel |} posts fuel.
Proof using RO HL.
  intros Hst Hc Hf. pose proof Hf as [Hrows Hfuel]. split.
  - intros term. cbn [ps_postings IndexSource_postings src_tx src_fuel]. specialize (Hfuel term).
    rewrite (Index_bitmap_ok tx root posts) by (done || lia). unfold mbind, res_mbind. case_decide as E; [by rewrite E|done].
  - intros r Hr. pose proof (scan_collect tx INDEX (tr_lower r) (tr_upper r) table_ok_INDEX) as Hscan.
    unfold range_ok in Hr. rewrite Hr in Hscan. destruct Hscan as (s & Es & Hcol).
    set (rows := range (tr_lower r) (tr_upper r) (view tx INDEX)) in *.
    exists {| ts_scan := s; ts_done := false |}, ((fun kv => ids posts kv.1) <$> rows).
    assert (Hin : forall k v, (k, v) ∈ rows -> view tx INDEX !! k = Some v) by (by intros k v [? _]%elem_of_range).
    split_and!.
    + cbn [ps_scan IndexSource_postings src_tx]. unfold Index_terms, TermRange_bounds. by rewrite Es.
    + by apply (index_scan_yields tx root posts fuel fuel s rows Hst Hc Hf); [apply Hcol|].
    + rewrite length_fmap. unfold rows, range. eapply Nat.le_lt_trans; [apply length_filter|].
      rewrite entries_perm, length_map_to_list. done.
    + intros id. rewrite elem_of_union_list. cbn [admits]. setoid_rewrite andb_true_iff. split.
      * intros (B & ([k v] & -> & Hk)%list_elem_of_fmap & Hid%elem_of_ids). apply elem_of_range in Hk as (_ & Ha & Hb). by exists k.
      * intros (t & [Ha Hb] & Hid). exists (ids posts t). rewrite elem_of_ids. split; [|done]. apply list_elem_of_fmap.
        pose proof (posted_row _ _ _ (is_rows _ _ _ Hst t)) as Hrow. destruct (view tx INDEX !! t) as [h|] eqn:Eh.
        { exists (t, h). split; [done|]. by apply elem_of_range. }
        exfalso. apply elem_of_ids in Hid. rewrite (proj1 Hrow eq_refl) in Hid. by apply elem_of_empty in Hid.
Qed.
End IndexSource.

(** * What a filter selects *)

(** Values are compared with their type; their kind plays no part. *)
Definition same_value (v w : CellValue) : bool := bool_decide (cv_ty v = cv_ty w) && bool_decide (CellValue_value v = CellValue_value w).
Definition of_bound_type (v : CellValue) (b : Bound CellValue) : bool :=
  match bound_value b with Some w => bool_decide (cv_ty v = cv_ty w) | None => true end.

Definition filter_holds (f : Filter) (k : CellKey) (v : CellValue) : bool :=
  match f with
  | FEq field value => bool_decide (ck_name k = field) && same_value v value
  | FIn field values => bool_decide (ck_name k = field) && existsb (same_value v) values
  | FRange field lower upper =>
      bool_decide (ck_name k = field) && (of_bound_type v lower && of_bound_type v upper) &&
      (above (bound_map CellValue_value lower) (CellValue_value v) && below (bound_map CellValue_value upper) (CellValue_value v))
  end.

(** The records that own an attribute cell the filter selects. *)
Definition cell_matches (f : Filter) (k : CellKey) (v : CellValue) : bool := CellValue_is_indexable v && filter_holds f k v.
Definition matching (W : CellMap) (f : Filter) : gset Z :=
  list_to_set (omap (fun '(k, v) => if cell_matches f k v then Some (ck_record_id k) else None) (map_to_list W)).

Lemma elem_of_matching W f id : id ∈ matching W f <-> exists k v, W !! k = Some v /\ cell_matches f k v = true /\ ck_record_id k = id.
Proof.
  unfold matching. rewrite elem_of_list_to_set, list_elem_of_omap. split.
  - intros ([k v] & Hin & E). apply elem_of_map_to_list in Hin. destruct (cell_matches f k v) eqn:Em; [|done]. injection E as <-. by exists k, v.
  - intros (k & v & Hk & Em & <-). exists (k, v). split; [by apply elem_of_map_to_list|]. by rewrite Em.
Qed.

(** ** Admission *)

Lemma from_cell_name_ok name v t : from_cell_name name (as_view v) = Ok t <->
  user_name name /\ cv_ty v <> Bytes /\ t = run_of name (cv_ty v) ++ CellValue_value v.
Proof.
  unfold from_cell_name. split.
  - intros (n & Hn & (Hu & Hty & ->)%from_str_name_ok)%res_bind_ok. unfold name_str in Hn. destruct (is_utf8 _); [|done].
    by injection Hn as ->.
  - intros (Hu & Hty & ->). rewrite (user_name_utf8 _ Hu). by apply from_str_name_ok.
Qed.

(** Terms are equal when their names, types and payloads are. *)
Lemma same_run name ty value name' ty' value' : user_name name -> user_name name' ->
  run_of name ty ++ value = run_of name' ty' ++ value' <-> name = name' /\ ty = ty' /\ value = value'.
Proof.
  intros Hu Hu'. split; [|by intros (-> & -> & ->)]. intros E.
  destruct (run_of_disjoint name ty name' ty' (run_of name ty ++ value)) as [-> ->]; [done|done|by apply prefix_app_r|rewrite E; by apply prefix_app_r|].
  by apply app_inv_head in E.
Qed.

Lemma term_of_some k v t : term_of k v = Some t -> CellValue_is_indexable v = true /\ user_name (ck_name k) /\ cv_ty v <> Bytes /\
  t = run_of (ck_name k) (cv_ty v) ++ CellValue_value v.
Proof.
  intros Ht. pose proof (term_of_inv k v t Ht) as (n & -> & Hu & Hty & ->). split_and!; try done.
  unfold term_of, cell_term in Ht. by destruct (CellValue_is_indexable v).
Qed.

Lemma plan_term_admits k v t field value t' : term_of k v = Some t -> plan_term field value = Ok t' ->
  t = t' <-> bool_decide (ck_name k = field) && same_value v value = true.
Proof.
  intros (_ & Hu & _ & ->)%term_of_some (Hu' & _ & ->)%map_err_ok%from_cell_name_ok.
  unfold same_value. rewrite same_run, !andb_true_iff, !bool_decide_eq_true by done. tauto.
Qed.

Lemma plan_term_list_elem field values ts t : plan_term_list field values = Ok ts ->
  t ∈ ts <-> exists value, value ∈ values /\ plan_term field value = Ok t.
Proof.
  revert ts. induction values as [|value values IH]; intros ts Hts; cbn [plan_term_list] in Hts.
  - injection Hts as <-. set_solver.
  - apply res_bind_ok in Hts as (t' & Ht' & Hts). apply res_bind_ok in Hts as (ts' & Hts' & [= <-]).
    rewrite elem_of_cons, (IH ts' Hts'). setoid_rewrite elem_of_cons. split.
    + intros [->|(w & Hw & Ew)]; [exists value; auto|exists w; auto].
    + intros (w & [->|Hw] & Ew); [left; congruence|right; eauto].
Qed.

Lemma elem_of_btree_set l t : t ∈ btree_set l <-> t ∈ l.
Proof.
  unfold btree_set. rewrite list_elem_of_fmap. split.
  - intros ([k []] & -> & Hin%elem_of_entries). apply elem_of_list_to_map_2, list_elem_of_fmap in Hin as (t' & [= ->] & Hin). done.
  - intros Hin. exists (t, ()). split; [done|]. apply elem_of_entries, elem_of_list_to_map'.
    + by intros [].
    + apply list_elem_of_fmap. by exists t.
Qed.

Lemma between_inv name lo hi r : between name lo hi = Ok r -> exists ty, user_name name /\ ty <> Bytes /\
  (is_Some (bound_value lo) \/ is_Some (bound_value hi)) /\ forall v, bound_value lo = Some v \/ bound_value hi = Some v -> cr_ty v = ty.
Proof.
  unfold between. intros Hb. apply res_bind_ok in Hb as (ty & Hty & Hb). apply res_bind_ok in Hb as (n & Hn%map_err_ok & Hb).
  apply res_bind_ok in Hb as (p & Hp%map_err_ok & _). unfold name_str in Hn. destruct (is_utf8 _); [|done]. injection Hn as ->.
  apply term_prefix_ok in Hp as (Hu & Hb & _). exists ty. split; [done|]. split; [done|].
  destruct (bound_value lo) as [a|], (bound_value hi) as [b|].
  - case_bool_decide as E; [|done]. injection Hty as <-. split; [eauto|]. intros v [[= <-]|[= <-]]; done.
  - injection Hty as <-. split; [eauto|]. by intros v [[= <-]|?].
  - injection Hty as <-. split; [eauto|]. by intros v [?|[= <-]].
  - done.
Qed.

Lemma bound_map_value {A B} (f : A -> B) b : bound_value (bound_map f b) = f <$> bound_value b.
Proof. by destruct b. Qed.
Lemma bound_map_map {A B C} (f : A -> B) (g : B -> C) b : bound_map g (bound_map f b) = bound_map (fun a => g (f a)) b.
Proof. by destruct b. Qed.

Lemma plan_range_admits k v t field lo hi r : term_of k v = Some t -> plan_range field lo hi = Ok r ->
  admits r t = true <-> filter_holds (FRange field lo hi) k v = true.
Proof.
  intros (_ & Hu & _ & ->)%term_of_some Hr. unfold plan_range in Hr. apply map_err_ok in Hr.
  pose proof (between_inv _ _ _ _ Hr) as (ty & Hn & Hty & Hsome & Hall).
  destruct (between_ok field ty _ _ Hn Hty Hsome Hall) as (r' & Er & Hadm). rewrite Hr in Er. injection Er as <-. rewrite Hadm. clear Hadm Hr.
  assert (Htypes : of_bound_type v lo && of_bound_type v hi = true <-> cv_ty v = ty).
  { rewrite !bound_map_value in *. unfold of_bound_type. rewrite andb_true_iff. destruct (bound_value lo) as [a|] eqn:Ea, (bound_value hi) as [b|] eqn:Eb;
      rewrite ?bool_decide_eq_true; cbn [fmap option_fmap option_map] in *.
    - specialize (Hall (as_view b) (or_intror eq_refl)) as E1.
      specialize (Hall (as_view a) (or_introl eq_refl)) as E2. cbn in E1, E2. split; [intros [? ?]; congruence|]. intros E. split; congruence.
    - specialize (Hall (as_view a) (or_introl eq_refl)) as E2. cbn in E2. split; [intros [? _]; congruence|]. intros E. split; [congruence|done].
    - specialize (Hall (as_view b) (or_intror eq_refl)) as E2. cbn in E2. split; [intros [_ ?]; congruence|]. intros E. split; [done|congruence].
    - by destruct Hsome as [[? ?]|[? ?]]. }
  cbn [filter_holds]. rewrite (andb_true_iff (bool_decide _ && _)), (andb_true_iff (bool_decide _)), bool_decide_eq_true, Htypes, !bound_map_map, andb_true_iff.
  change (fun a => cr_value (as_view a)) with CellValue_value. split.
  - intros (value & E & Ha & Hb). apply same_run in E as (-> & <- & <-); done.
  - intros ([-> <-] & Ha & Hb). by exists (CellValue_value v).
Qed.

(** An admitted plan reads exactly the terms of the cells that its filter selects. *)
Lemma plan_sound f plan : Plan_try_from f = Ok plan -> plan_ok plan /\
  forall k v t, term_of k v = Some t -> plan_admits plan t <-> filter_holds f k v = true.
Proof.
  destruct f as [field value|field values|field lo hi]; cbn [Plan_try_from]; intros Hp; apply res_bind_ok in Hp as (x & Hx & [= <-]).
  - split; [done|]. intros k v t Ht. by apply plan_term_admits.
  - unfold plan_terms in Hx. destruct values as [|first rest].
    + apply res_bind_ok in Hx as (? & _ & [= <-]). split; [done|]. intros k v t _. cbn. by rewrite andb_false_r.
    + destruct (existsb _ rest); [done|]. apply res_bind_ok in Hx as (ts & Hts & [= <-]). split; [done|]. intros k v t Ht.
      cbn [plan_admits]. rewrite elem_of_btree_set, (plan_term_list_elem _ _ _ _ Hts). cbn [filter_holds].
      rewrite andb_true_iff, existsb_exists. split.
      * intros (w & Hw & Ew). pose proof (proj1 (plan_term_admits k v t field w t Ht Ew) eq_refl) as [Hn Hs]%andb_true_iff.
        split; [done|]. exists w. split; [by apply list_elem_of_In|done].
      * intros (Hn & w & Hw & Hs). apply list_elem_of_In in Hw. exists w. split; [done|].
        destruct (term_of_some k v t Ht) as (_ & Hu & Hty & ->). apply bool_decide_eq_true in Hn as <-.
        unfold same_value in Hs. apply andb_true_iff in Hs as [E1%bool_decide_eq_true E2%bool_decide_eq_true]. unfold plan_term.
        rewrite (proj2 (from_cell_name_ok (ck_name k) w (run_of (ck_name k) (cv_ty v) ++ CellValue_value v))); [done|].
        rewrite <- E1, E2. done.
  - split.
    + destruct x as [r|]; [|done]. unfold plan_range in Hx. apply map_err_ok in Hx. by apply between_not_reversed in Hx.
    + intros k v t Ht. rewrite <- (plan_range_admits k v t field lo hi x Ht Hx). by destruct x.
Qed.

(** The match set of a plan over the index of [W]. *)
Lemma plan_matching W f plan B : terms_ok W -> Plan_try_from f = Ok plan ->
  (forall id, id ∈ B <-> exists term, plan_admits plan term /\ (term, id) ∈ index_of W) -> B = matching W f.
Proof.
  intros Ht Hp HB. pose proof (plan_sound f plan Hp) as [_ Hs]. apply set_eq. intros id. rewrite HB, elem_of_matching. split.
  - intros (t & Hadm & (k & v & Hk & Et & Eid)%elem_of_index_of). exists k, v. split_and!; [done| |done].
    unfold cell_matches. destruct (term_of_some k v t Et) as (-> & _). by apply (Hs k v t Et).
  - intros (k & v & Hk & [Hi Hf]%andb_true_iff & Eid). specialize (Ht k v Hk). destruct (term_of k v) as [t|] eqn:Et.
    + exists t. split; [by apply (Hs k v t Et)|]. apply elem_of_index_of. by exists k, v.
    + exfalso. unfold term_of, cell_term in *. rewrite Hi in *. destruct (map_err BE_Term _); done.
Qed.

(** * Queries over a store *)

Section Records.
Context (W : CellMap) (L : CellLimits) (next : Z).
Hypothesis Hinv : record_inv W L next.

(** Every selected cell belongs to a bound record. *)
Lemma matching_record f id : id ∈ matching W f -> exists key, length key = 32%nat /\ by_key key = None /\
  uint_range 8 id /\ bound W key = Some id /\ W !! identity_address id = Some (from_bytes32 key).
Proof using Hinv.
  intros (k & v & Hk & [Hi _]%andb_true_iff & <-)%elem_of_matching.
  destruct (inv_indexable _ _ _ Hinv k v Hk Hi) as [Hu _]. destruct (inv_owned _ _ _ Hinv k v Hk Hu) as (key & Hlen & Hres & Hb).
  exists key. destruct (bound_cases W L next Hinv key Hlen) as [(_ & E & _)|(id & Eb & E & Hr & _ & Hid & _)]; [congruence|].
  rewrite E in Hb. apply (inj Some) in Hb. assert (ck_record_id k = id) as ->; [|done].
  assert (Hk8 : uint_range 8 (ck_record_id k)) by (by apply (inv_keys _ _ _ Hinv) in Hk).
  by apply from_u64_inj.
Qed.

Lemma inv_terms_ok : cells_wf W -> terms_ok W.
Proof using Hinv.
  intros Hw k v Hk. unfold cell_term. destruct (CellValue_is_indexable v) eqn:Hi; [|done].
  destruct (inv_indexable _ _ _ Hinv k v Hk Hi) as [_ Hu]. apply Hw in Hk as [_ Hv].
  assert (Hty : cv_ty v <> Bytes).
  { apply as_view_wf in Hv as [Hv _]. unfold CellValueRef_wf, CellValueRef_new in Hv.
    change (cr_indexable (as_view v)) with (CellValue_is_indexable v) in Hv. rewrite Hi in Hv. cbn [andb] in Hv.
    change (cr_ty (as_view v)) with (cv_ty v) in Hv. by case_bool_decide. }
  by rewrite (proj2 (from_cell_name_ok (ck_name k) v (run_of (ck_name k) (cv_ty v) ++ CellValue_value v))).
Qed.

(** The records of a page. *)
Definition key_of (id : Z) : RecordKey := default [] (identity ← W !! identity_address id; identity_key identity).
Definition page_record (projection : option (list CellName)) (id : Z) : Record_ :=
  {| rec_key := key_of id; rec_cells := project projection (record_at W id) |}.

Lemma key_of_identity id key : W !! identity_address id = Some (from_bytes32 key) -> key_of id = key.
Proof using. unfold key_of. intros ->. cbn [mbind option_bind]. by rewrite identity_key_field. Qed.

Lemma read_records_ok {T : Type} `{RL : ReadLaws T} (tx : T) fuel f projection l : decoded (view tx CELL) W -> (size (view tx CELL) < fuel)%nat ->
  (forall id, id ∈ l -> id ∈ matching W f) -> read_records fuel tx projection l = Ok (page_record projection <$> l).
Proof using Hinv.
  intros Hd Hf. induction l as [|id l IH]; intros Hl; [done|]. rewrite fmap_cons. cbn [read_records].
  destruct (matching_record f id) as (key & Hlen & _ & Hr & _ & Hid); [apply Hl, list_elem_of_here|].
  unfold mbind, res_mbind in *. rewrite (read_by_id_ok tx W Hd fuel id key) by done.
  rewrite IH by (intros i Hi; by apply Hl, list_elem_of_further). do 2 f_equal. unfold page_record. by rewrite (key_of_identity id key).
Qed.
End Records.

Section Queries.
Context `{Roaring} {RO : RoaringLaws} `{HashProvider} {HL : HashLaws}.
Context {S T : Type} `{WT : WriteTransaction T} {RL : ReadLaws T} {WL : WriteLaws T} `{!Store S T}.

(** The check of the requested commit. *)
Definition at_commit (commit : option CommitId) (head : CommitId) : res QueryError unit :=
  match commit with
  | Some requested => if bool_decide (requested = head) then Ok () else Err (Q_CommitUnavailable requested head)
  | None => Ok ()
  end.

Lemma evaluate_ok fuel store tx head cell_root index_root W commit f :
  begin_read store = Ok tx -> store_state tx head cell_root index_root W -> ~ clash tx -> terms_ok W -> index_fuel tx (index_of W) fuel ->
  evaluate fuel store commit f =
  (_ ← Plan_try_from f; _ ← at_commit commit (hd_commit_id head);
   Ok {| ev_snapshot := tx; ev_head := hd_commit_id head; ev_matches := matching W f |}).
Proof using RO HL.
  intros Hb Hst Hc Ht Hf. unfold evaluate. destruct (Plan_try_from f) as [plan|e| |] eqn:Ep; [|done..].
  assert (Hsnap : committed_snapshot store commit = match commit with
    | Some requested => if bool_decide (requested = hd_commit_id head) then Ok (tx, hd_commit_id head) else Err (R_CommitUnavailable requested (hd_commit_id head))
    | None => Ok (tx, hd_commit_id head) end).
  { unfold committed_snapshot. rewrite Hb. unfold mbind, res_mbind. cbn [map_err]. unfold read_head. rewrite (ss_head _ _ _ _ _ Hst).
    unfold mbind, res_mbind. cbn [map_err]. destruct commit; [by case_bool_decide|done]. }
  assert (match_set fuel {| src_tx := tx; src_fuel := fuel |} plan = Ok (matching W f)) as Hm.
  { pose proof (index_serves tx index_root (index_of W) fuel (ss_index _ _ _ _ _ Hst) Hc Hf).
    destruct (match_set_ok {| src_tx := tx; src_fuel := fuel |} (index_of W) fuel plan (proj1 (plan_sound f plan Ep))) as (B & -> & HB).
    f_equal. by eapply plan_matching. }
  unfold mbind, res_mbind. rewrite Hsnap. destruct commit as [requested|]; cbn [at_commit]; [case_bool_decide|]; cbn [map_err from_record_error]; [|done|];
    by rewrite Hm.
Qed.
End Queries.

Lemma size_image {A B} `{Countable A, Countable B} (f : A -> B) (X : gset A) : (size (set_map (D := gset B) f X) <= size X)%nat.
Proof.
  unfold set_map. change (size X) with (length (elements X)). generalize (elements X) as l. induction l as [|x l IH]; [done|].
  rewrite fmap_cons, list_to_set_cons. pose proof (size_union_alt ({[ f x ]} : gset B) (list_to_set (f <$> l))) as E.
  assert (size (list_to_set (f <$> l) ∖ {[ f x ]} : gset B) <= size (list_to_set (f <$> l) : gset B))%nat by (apply subseteq_size; set_solver).
  rewrite size_singleton in E. cbn [length]. lia.
Qed.

(** The rows and postings of a state bound the fuel it needs. *)
Lemma index_fuel_enough `{Roaring} {T : Type} `{ReadLaws T} (tx : T) posts fuel :
  (size (view tx INDEX) + 2 * size posts + 1 < fuel)%nat -> index_fuel tx posts fuel.
Proof.
  intros Hf. split; [lia|]. intros term.
  pose proof (size_image (fun id => id / 65536) (ids posts term)) as H1'. fold (occupied_paths (ids posts term)) in H1'.
  pose proof (size_image snd (filter (fun p => p.1 = term) posts)) as H2'. fold (ids posts term) in H2'.
  assert (size (filter (fun p => p.1 = term) posts) <= size posts)%nat by (apply subseteq_size; set_solver). lia.
Qed.

(** ** Queries and counts *)

Section Answers.
Context `{Roaring} {RO : RoaringLaws} `{HashProvider} {HL : HashLaws}.
Context {S T : Type} `{WT : WriteTransaction T} {RL : ReadLaws T} {WL : WriteLaws T} `{!Store S T}.
Context (fuel : nat) (store : S) (tx : T) (head : Head) (cell_root index_root : RootRef) (W : CellMap) (L : CellLimits) (next : Z).
Hypothesis Hb : begin_read store = Ok tx.
Hypothesis Hst : store_state tx head cell_root index_root W.
Hypothesis Hc : ~ clash tx.
Hypothesis Hinv : record_inv W L next.
Hypothesis Hf : (size (view tx CELL) + size (view tx INDEX) + 2 * size (index_of W) + 1 < fuel)%nat.

(** The page and the count over the records [W] of the head. *)
Definition query_result (head : CommitId) (commit : option CommitId) (op : QueryOp) : res QueryError QueryPage :=
  _ ← (if bool_decide (qo_sort op = [] :> list SortKey) then Ok () else Err (Q_NotImplemented "query: sort"));
  _ ← (if bool_decide (qo_limit op = None) then Ok () else Err (Q_NotImplemented "query: limit"));
  _ ← (if bool_decide (qo_offset op = None) then Ok () else Err (Q_NotImplemented "query: offset"));
  _ ← Plan_try_from (qo_filter op);
  _ ← at_commit commit head;
  Ok {| qp_records := page_record W (qo_projection op) <$> roaring_iter (matching W (qo_filter op));
        qp_total_matched := if qo_with_total op then Some (Z.of_nat (size (matching W (qo_filter op)))) else None;
        qp_evaluated_at := head |}.
Definition count_result (head : CommitId) (commit : option CommitId) (op : CountOp) : res QueryError Z :=
  _ ← Plan_try_from (co_filter op); _ ← at_commit commit head; Ok (Z.of_nat (size (matching W (co_filter op)))).

Lemma evaluate_filter commit f : evaluate fuel store commit f =
  (_ ← Plan_try_from f; _ ← at_commit commit (hd_commit_id head); Ok {| ev_snapshot := tx; ev_head := hd_commit_id head; ev_matches := matching W f |}).
Proof using RO HL Hb Hst Hc Hinv Hf.
  pose proof (inv_terms_ok W L next Hinv (cells_state_wf tx cell_root W (ss_cells _ _ _ _ _ Hst))) as Ht.
  apply (evaluate_ok fuel store tx head cell_root index_root W); [done..|]. apply index_fuel_enough; lia.
Qed.

Lemma query_ok commit op : Queries_query fuel store commit op = query_result (hd_commit_id head) commit op.
Proof using RO HL Hb Hst Hc Hinv Hf.
  unfold Queries_query, query_result. rewrite evaluate_filter. case_bool_decide; [|done]. cbn [negb]. destruct (qo_limit op); [done|]. destruct (qo_offset op); [done|].
  rewrite !(bool_decide_true (None = None)) by done. rewrite !bool_decide_false by (by intros []). unfold mbind, res_mbind.
  destruct (Plan_try_from (qo_filter op)); [|done..]. destruct (at_commit _ _); [|done..]. cbn [ev_snapshot ev_head ev_matches].
  rewrite (read_records_ok W L next Hinv tx fuel (qo_filter op)); [done|apply (ss_cells _ _ _ _ _ Hst)|lia|].
  intros id Hid. unfold roaring_iter in Hid. rewrite merge_sort_Permutation in Hid. by apply elem_of_elements in Hid.
Qed.

Lemma count_ok commit op : Queries_count fuel store commit op = count_result (hd_commit_id head) commit op.
Proof using RO HL Hb Hst Hc Hinv Hf.
  unfold Queries_count, count_result. rewrite evaluate_filter. unfold mbind, res_mbind. destruct (Plan_try_from _); [|done..]. by destruct (at_commit _ _).
Qed.
End Answers.
