(* ===== verification/Genesis.v ===== *)
(** Genesis and opening: crates/api/src/{genesis,open,config}.rs.

    [initial_cells] are the cells of commit zero; [prepare] writes them to empty
    storage or validates what is there; [open_store] runs it under one writer
    and commits only what it created. Both configurations, of a deployment and
    of a low-level runner (crates/merkle/src/config.rs), are loaded from YAML
    text by serde's parser, a parameter here. *)
From Stdlib Require Import ZArith Lia.
From stdpp Require Import pretty.
From S2P Require Import Prelude Ordered Storage Scan CellTypes CellValue CellName MerkleNode MerkleTrie.
From S2P Require Import BranchTypes CellScan Overlay Cells Buffer Term Bitmap Index Seal Branches Records RecordsSpec Samples.

#[local] Open Scope Z_scope.

(** * Configuration: config.rs *)

Inductive HashAlgorithm : Type := Keccak256 | Blake3.

#[global] Instance HashAlgorithm_eq_dec : EqDecision HashAlgorithm.
Proof. solve_decision. Defined.

(** [Genesis], as a record of its own name *)
Record GenesisConfig := { hash_function : HashAlgorithm; cell_limits : CellLimits }.
Definition Genesis_new (hash_function : HashAlgorithm) (cell_limits : CellLimits) : GenesisConfig :=
  {| hash_function := hash_function; cell_limits := cell_limits |}.

(** The configuration of a low-level runner: merkle/src/config.rs *)
Record HashConfig := { hc_hash_function : HashAlgorithm }.
Inductive ConfigError : Type := Cfg_Io (why : string) | Cfg_Yaml (why : string).

Inductive OpenMode : Type := CreateIfMissing | ExistingOnly | CreateNew.
#[global] Instance OpenMode_eq_dec : EqDecision OpenMode.
Proof. solve_decision. Defined.

Record OpenConfig := { oc_genesis : GenesisConfig; oc_mode : OpenMode }.

(** [OpenError] of open_error.rs *)
Inductive OpenError : Type :=
  | O_Storage (e : StorageError)
  | O_Cells (e : CellError)
  | O_Index (e : IndexError)
  | O_Branch (e : BranchError)
  | O_InvalidConfig (why : string)
  | O_UnsupportedFormat (format : Z)
  | O_UnsupportedHash (h : Z)
  | O_UnsupportedRoaring (roaring : Z)
  | O_GenesisMismatch
  | O_NotInitialized
  | O_AlreadyInitialized
  | O_CorruptState (why : string)
  | O_Io (why : string)
  | O_Yaml (why : string).

(** ** Loading: [from_str] is [serde_saphyr::from_str] at the configuration's
    type, [read] the outcome of [std::fs::read_to_string] on the given path *)
Section Loading.
Context (hash_from_str : string -> res string HashConfig) (genesis_from_str : string -> res string GenesisConfig).

Definition HashConfig_from_yaml (yaml : string) : res ConfigError HashConfig := map_err Cfg_Yaml (hash_from_str yaml).
Definition HashConfig_load (read : res string string) : res ConfigError HashConfig :=
  yaml ← map_err Cfg_Io read;
  HashConfig_from_yaml yaml.

Definition Genesis_from_yaml (yaml : string) : res OpenError GenesisConfig := map_err O_Yaml (genesis_from_str yaml).
Definition Genesis_load (read : res string string) : res OpenError GenesisConfig :=
  yaml ← map_err O_Io read;
  Genesis_from_yaml yaml.
End Loading.

(** [Genesis::validate]: the largest key and value the limits admit *)
Definition needed_key (limits : CellLimits) : Z :=
  let name := max_cell_name_len limits in
  Z.max (Z.max (name + 8) (name + 2 + Z.max (max_str_len limits) 32)) 40.
Definition needed_value (limits : CellLimits) : Z :=
  Z.max (1 + Z.max (max_bytes_len limits) (max_str_len limits)) (16 * 1024).

Definition Genesis_validate (config : GenesisConfig) (max_key max_value : Z) : res OpenError unit :=
  let limits := cell_limits config in
  if max_cell_name_len limits =? 0 then Err (O_InvalidConfig "max_cell_name_len must be positive")
  else if max_key <? needed_key limits then
    Err (O_InvalidConfig ("configured cells/index terms need " +:+ pretty (needed_key limits) +:+ "-byte keys; backend supports " +:+ pretty max_key))
  else if max_value <? needed_value limits then
    Err (O_InvalidConfig ("configured cells and engine rows need " +:+ pretty (needed_value limits) +:+ "-byte values; backend supports " +:+ pretty max_value))
  else Ok ().

(** * Commit zero: genesis.rs *)

Definition FORMAT : Z := 1.
Definition ROARING : Z := 1.

Definition hash_id (algorithm : HashAlgorithm) : Z := match algorithm with Keccak256 => 1 | Blake3 => 2 end.

(** [initial_cells], in the order of insertion; the addresses are distinct. *)
Definition reserved_cells (record : SystemRecord) : list (CellKey * CellValue) :=
  [(identity_address (sr_id record), from_bytes32 (sr_key record)); (binding (sr_key record), from_u64 (sr_id record))].

Definition initial_list (limits : CellLimits) : list (CellKey * CellValue) :=
  concat (reserved_cells <$> ALL) ++
  [(param_key MAX_CELL_NAME_LEN, from_u32 (max_cell_name_len limits));
   (param_key MAX_STR_LEN, from_u32 (max_str_len limits));
   (param_key MAX_BYTES_LEN, from_u32 (max_bytes_len limits));
   (allocator_key, from_u64 FIRST_USER_RECORD_ID)].

Definition initial_cells (config : GenesisConfig) : gmap CellKey CellValue :=
  foldl (fun m '(k, v) => <[k := v]> m) ∅ (initial_list (cell_limits config)).

(** [identity] *)
Definition framed (l : bytes) : bytes := be_encode 4 (Z.of_nat (length l)) ++ l.
Definition genesis_preimage (config : GenesisConfig) (cells : gmap CellKey CellValue) : bytes :=
  of_string "golemdb/genesis/v1" ++ [x00] ++ be_encode 4 FORMAT ++ be_encode 2 (hash_id (hash_function config)) ++
  be_encode 2 ROARING ++ be_encode 4 (Z.of_nat (size cells)) ++
  concat ((fun '(key, value) => framed (CellKey_encode key) ++ framed (cv_bytes value)) <$> entries cells).

Definition FORMAT_KEY : bytes := of_string "format".
Definition HASH_FN_KEY : bytes := of_string "hash_fn".
Definition ROARING_KEY : bytes := of_string "roaring".
Definition GENESIS_ID_KEY : bytes := of_string "genesis_id".

Record OpenInfo := {
  oi_created : bool;
  oi_head : Head;
  oi_genesis_id : Hash
}.

Section Genesis.
Context `{Roaring} `{HashProvider}.

Definition genesis_identity (config : GenesisConfig) (cells : gmap CellKey CellValue) : Hash :=
  hash (genesis_preimage config cells).

Section Reading.
Context {T : Type} `{ReadTransaction T}.

(** [metadata::<N>] *)
Definition metadata (n : nat) (tx : T) (key : bytes) : res OpenError bytes :=
  row ← map_err O_Storage (tx_get tx SUPERBLOCK key);
  row ← ok_or row (O_CorruptState "missing format or genesis metadata");
  if (length row =? n)%nat then Ok row else Err (O_CorruptState "malformed format or genesis metadata").

(** The loop of [validate_state] over the required cells. *)
Fixpoint check_cells (tx : T) (cells : list (CellKey * CellValue)) : res OpenError unit :=
  match cells with
  | [] => Ok ()
  | (key, value) :: cells =>
      stored ← map_err O_Cells (CellReader_get tx key);
      if negb (bool_decide (stored = Some value))
      then Err (O_CorruptState "missing or inconsistent reserved identity, binding, or parameter")
      else check_cells tx cells
  end.

(** [for _ in 0..n { cursor.next()?.ok_or(..)?; }], then no row is left *)
Fixpoint exactly_rows (n : nat) (cursor : Cursor T) : res OpenError unit :=
  match n with
  | O =>
      match fst (cur_next cursor) with
      | Ok None => Ok ()
      | Ok (Some _) => Err (O_CorruptState "unexpected data at genesis")
      | Err e => Err (O_Storage e)
      | Panic => Panic
      | Diverge => Diverge
      end
  | S n =>
      match cur_next cursor with
      | (Ok (Some _), cursor) => exactly_rows n cursor
      | (Ok None, _) => Err (O_CorruptState "incomplete genesis cells")
      | (Err e, _) => Err (O_Storage e)
      | (Panic, _) => Panic
      | (Diverge, _) => Diverge
      end
  end.

(** The reading part of [validate_state]: the cells to check against the trie. *)
Definition expected_cells (tx : T) (head : Head) (expected : gmap CellKey CellValue)
    : res OpenError (RootRef * gmap CellKey CellValue) :=
  root ← map_err O_Cells (Cells_reopen tx (hd_state_root head));
  _ ← map_err O_Index (Index_reopen tx (hd_index_root head));
  allocator ← map_err O_Cells (CellReader_get tx allocator_key);
  allocator ← ok_or allocator (O_CorruptState "missing allocator");
  next_id ← ok_or (id ← plain allocator (as_u64 allocator); if FIRST_USER_RECORD_ID <=? id then Some id else None)
              (O_CorruptState "invalid allocator");
  if bool_decide (hd_commit_id head = GENESIS) && negb (next_id =? FIRST_USER_RECORD_ID)
  then Err (O_CorruptState "genesis allocator has advanced")
  else
    s ← map_err O_Cells (CellReader_scan_record tx next_id);
    first ← match (record_scan_next (s, false)).1 with
            | None => Ok None
            | Some row => row ← map_err O_Cells row; Ok (Some row)
            end;
    match first with
    | Some _ => Err (O_CorruptState "allocator points to an occupied record")
    | None =>
        let expected := <[allocator_key := allocator]> expected in
        _ ← check_cells tx (entries expected);
        if bool_decide (hd_commit_id head = GENESIS) then
          cursor ← map_err O_Storage (tx_cursor tx CELL []);
          _ ← exactly_rows (size expected) cursor;
          if negb (bool_decide (hd_index_root head = hash [])) then Err (O_CorruptState "unexpected data at genesis")
          else Ok (root, expected)
        else
          let key := roots_key {| commit_number := commit_number (hd_commit_id head) - 1 |} in
          value ← map_err O_Cells (CellReader_get tx key);
          value ← ok_or value (O_CorruptState "missing previous commit roots");
          if CellValue_is_indexable value || negb (match as_bytes value with Some l => (length l =? 64)%nat | None => false end)
          then Err (O_CorruptState "malformed previous commit roots")
          else Ok (root, <[key := value]> expected)
    end.
End Reading.

Definition put_changes (cells : gmap CellKey CellValue) : list CellChange :=
  (fun '(key, value) => Put key value) <$> entries cells.

Section Writing.
Context {T : Type} `{WriteTransaction T}.

(** [validate_state] *)
Definition validate_state (head : Head) (expected : gmap CellKey CellValue) : stres T OpenError unit :=
  '(root, expected) ← reading (fun tx => expected_cells tx head expected);
  _ ← st_map_err O_Cells (Cells_apply root (put_changes expected));
  mret ().

(** The first branch of [prepare]: empty storage is initialised. *)
Definition initialize (config : OpenConfig) (cells : gmap CellKey CellValue) (genesis_id : Hash) : stres T OpenError OpenInfo :=
  empty ← reading (fun tx => map_err O_Storage (tx_is_empty tx));
  if negb empty then lift_res (Err (O_CorruptState "storage contains tables or rows but has no head"))
  else if bool_decide (oc_mode config = ExistingOnly) then lift_res (Err O_NotInitialized)
  else
    _ ← st_map_err O_Storage (tx_put SUPERBLOCK FORMAT_KEY (be_encode 4 FORMAT));
    _ ← st_map_err O_Storage (tx_put SUPERBLOCK HASH_FN_KEY (be_encode 2 (hash_id (hash_function (oc_genesis config)))));
    _ ← st_map_err O_Storage (tx_put SUPERBLOCK ROARING_KEY (be_encode 2 ROARING));
    _ ← st_map_err O_Storage (tx_put SUPERBLOCK GENESIS_ID_KEY genesis_id);
    update ← st_map_err O_Cells (Cells_apply REmpty (put_changes cells));
    let head := {| hd_commit_id := GENESIS; hd_state_root := RootRef_hash (cu_root update); hd_index_root := hash [] |} in
    _ ← st_map_err O_Branch (write_head head);
    mret {| oi_created := true; oi_head := head; oi_genesis_id := genesis_id |}.

(** [prepare] *)
Definition prepare (config : OpenConfig) : stres T OpenError OpenInfo :=
  let cells := initial_cells (oc_genesis config) in
  let genesis_id := genesis_identity (oc_genesis config) cells in
  row ← reading (fun tx => map_err O_Storage (tx_get tx SUPERBLOCK HEAD_KEY));
  match row with
  | None => initialize config cells genesis_id
  | Some _ =>
      format ← reading (fun tx => metadata 4 tx FORMAT_KEY);
      if negb (be_decode format =? FORMAT) then lift_res (Err (O_UnsupportedFormat (be_decode format)))
      else
        h ← reading (fun tx => metadata 2 tx HASH_FN_KEY);
        if negb ((be_decode h =? 1) || (be_decode h =? 2)) then lift_res (Err (O_UnsupportedHash (be_decode h)))
        else
          roaring ← reading (fun tx => metadata 2 tx ROARING_KEY);
          if negb (be_decode roaring =? ROARING) then lift_res (Err (O_UnsupportedRoaring (be_decode roaring)))
          else
            stored_id ← reading (fun tx => metadata 32 tx GENESIS_ID_KEY);
            if negb (be_decode h =? hash_id (hash_function (oc_genesis config))) || negb (bool_decide (stored_id = genesis_id))
            then lift_res (Err O_GenesisMismatch)
            else
              head ← reading (fun tx => map_err O_Branch (read_head_state tx));
              _ ← validate_state head cells;
              if bool_decide (oc_mode config = CreateNew) then lift_res (Err O_AlreadyInitialized)
              else mret {| oi_created := false; oi_head := head; oi_genesis_id := genesis_id |}
  end.

(** [open_store] after the check of the limits *)
Definition open_store {S : Type} `{Store S T} (max_key max_value : Z) (config : OpenConfig) : stres S OpenError OpenInfo := fun s =>
  match Genesis_validate (oc_genesis config) max_key max_value with
  | Ok _ =>
      match begin_write s with
      | (Ok tx, s) =>
          match prepare config tx with
          | (Ok info, tx) =>
              if oi_created info then
                match tx_commit tx s with
                | (Ok _, s) => (Ok info, s)
                | (Err e, s) => (Err (O_Storage e), s)
                | (Panic, s) => (Panic, s)
                | (Diverge, s) => (Diverge, s)
                end
              else (Ok info, tx_abort tx s)
          | (r, tx) => (r, tx_abort tx s)
          end
      | (Err e, s) => (Err (O_Storage e), s)
      | (Panic, s) => (Panic, s)
      | (Diverge, s) => (Diverge, s)
      end
  | Err e => (Err e, s)
  | Panic => (Panic, s)
  | Diverge => (Diverge, s)
  end.
End Writing.
End Genesis.

(** * Lemmas *)

Lemma foldl_insert_last {K V} `{Countable K} (l : list (K * V)) : foldl (fun (m : gmap K V) '(k, v) => <[k := v]> m) ∅ l = batch_map l.
Proof.
  unfold batch_map. generalize (∅ : gmap K V). induction l as [|[k v] l IH]; intros m; cbn [foldl fst snd]; [done|]. apply IH.
Qed.

(** What a commit-zero address holds. *)
Lemma initial_lookup config k v : initial_cells config !! k = Some v -> (k, v) ∈ initial_list (cell_limits config).
Proof.
  unfold initial_cells. rewrite foldl_insert_last, batch_map_lookup. unfold last_write. intros Hl.
  apply last_Some_elem_of, list_elem_of_fmap in Hl as ([k' v'] & -> & [Hk Hin]%list_elem_of_filter). cbn in *. by subst.
Qed.

Lemma initial_at config k v : NoDup ((initial_list (cell_limits config)).*1) -> (k, v) ∈ initial_list (cell_limits config) ->
  initial_cells config !! k = Some v.
Proof.
  intros Hd Hin. unfold initial_cells. rewrite foldl_insert_last, batch_map_lookup. by apply sorted_elem_last_write.
Qed.

Lemma initial_distinct limits : NoDup ((initial_list limits).*1).
Proof.
  change ((initial_list limits).*1) with ((initial_list {| max_cell_name_len := 0; max_str_len := 0; max_bytes_len := 0 |}).*1).
  apply (bool_decide_eq_true_1 (NoDup _)). by vm_compute.
Qed.
