(* ===== verification/GenesisSpec.v ===== *)
(** What commit zero promises: crates/api/src/genesis.rs.

    The cells of commit zero: which addresses they hold, that they satisfy the
    invariant of the record layer, and that no user record is among them. *)
From Stdlib Require Import ZArith Lia.
From S2P Require Import Prelude Ordered Groups Storage Scan CellTypes CellValue CellName MerkleNode MerkleTrie MerkleTree MerkleEdit MerkleSpec.
From S2P Require Import BranchTypes CellScan Overlay Cells Buffer Term Bitmap BitmapSpec Index IndexSpec IndexReads Seal CellIndex SealSpec.
From S2P Require Import Branches Records RecordsSpec CommittedSpec Genesis.

#[local] Open Scope Z_scope.

(** * Loading *)

(** A loaded genesis is what the parser read in the file: nothing is defaulted. *)
Lemma Genesis_load_ok parse read config :
  Genesis_load parse read = Ok config <-> exists text, read = Ok text /\ parse text = Ok config.
Proof.
  unfold Genesis_load, Genesis_from_yaml. destruct read as [text|why| |]; simpl.
  - destruct (parse text) eqn:Hp; simpl; split; try naive_solver congruence.
  - naive_solver.
  - naive_solver.
  - naive_solver.
Qed.

(** * The cells of commit zero *)

(** The limits are [u32]. *)
Definition limits_ok (L : CellLimits) : Prop :=
  uint_range 4 (max_cell_name_len L) /\ uint_range 4 (max_str_len L) /\ uint_range 4 (max_bytes_len L).

Lemma initial_keys limits : Forall (fun k => 0 <= ck_record_id k < FIRST_USER_RECORD_ID) ((initial_list limits).*1).
Proof.
  change ((initial_list limits).*1) with ((initial_list {| max_cell_name_len := 0; max_str_len := 0; max_bytes_len := 0 |}).*1).
  repeat constructor; done.
Qed.

(** A cell of commit zero: a reserved record's, or a field of the last four. *)
Lemma initial_elem limits k v : (k, v) ∈ initial_list limits <->
  (exists r, r ∈ ALL /\ ((k, v) = (identity_address (sr_id r), from_bytes32 (sr_key r)) \/ (k, v) = (binding (sr_key r), from_u64 (sr_id r)))) \/
  (k, v) = (param_key MAX_CELL_NAME_LEN, from_u32 (max_cell_name_len limits)) \/
  (k, v) = (param_key MAX_STR_LEN, from_u32 (max_str_len limits)) \/
  (k, v) = (param_key MAX_BYTES_LEN, from_u32 (max_bytes_len limits)) \/
  (k, v) = (allocator_key, from_u64 FIRST_USER_RECORD_ID).
Proof.
  unfold initial_list. rewrite elem_of_app, elem_of_concat, !elem_of_cons, elem_of_nil. split.
  - intros [(l & (r & -> & Hr)%list_elem_of_fmap & Hin)|Hin]; [left; exists r|right; tauto].
    unfold reserved_cells in Hin. rewrite !elem_of_cons, elem_of_nil in Hin. tauto.
  - intros [(r & Hr & Hin)|Hin]; [left; exists (reserved_cells r)|right; tauto]. split; [apply list_elem_of_fmap; by exists r|].
    unfold reserved_cells. rewrite !elem_of_cons, elem_of_nil. tauto.
Qed.

Lemma reserved_records r : r ∈ ALL -> length (sr_key r) = 32%nat /\ by_key (sr_key r) = Some r /\ 0 <= sr_id r < FIRST_USER_RECORD_ID.
Proof.
  unfold ALL. rewrite !elem_of_cons, elem_of_nil. intros Hr. repeat destruct Hr as [->|Hr]; try done; split_and!; by vm_compute.
Qed.

Section Initial.
Context (config : GenesisConfig).
Abbreviation L := (cell_limits config).
Abbreviation W := (initial_cells config).

Lemma initial_is k v : W !! k = Some v <-> (k, v) ∈ initial_list L.
Proof. split; [apply initial_lookup|apply initial_at, initial_distinct]. Qed.

Lemma initial_id k v : W !! k = Some v -> 0 <= ck_record_id k < FIRST_USER_RECORD_ID.
Proof.
  intros Hk%initial_is. pose proof (initial_keys L) as Hf. rewrite Forall_forall in Hf. apply Hf, list_elem_of_fmap. by exists (k, v).
Qed.

Lemma initial_reserved r : r ∈ ALL -> W !! identity_address (sr_id r) = Some (from_bytes32 (sr_key r)) /\ W !! binding (sr_key r) = Some (from_u64 (sr_id r)).
Proof. intros Hr. split; apply initial_is, initial_elem; left; exists r; tauto. Qed.

Lemma initial_not_indexable k v : W !! k = Some v -> CellValue_is_indexable v = false.
Proof.
  intros [(r & _ & [[= -> ->]|[= -> ->]])|[[= -> ->]|[[= -> ->]|[[= -> ->]|[= -> ->]]]]]%initial_is%initial_elem; apply field_not_indexable.
Qed.

Lemma initial_binding key v : length key = 32%nat -> W !! binding key = Some v ->
  exists r, r ∈ ALL /\ sr_key r = key /\ v = from_u64 (sr_id r).
Proof.
  intros Hlen Hv. apply initial_is, initial_elem in Hv as [(r & Hr & [E|E])|Hv].
  - exfalso. apply (f_equal fst) in E. cbn in E. apply (identity_not_binding (sr_id r) key Hlen). by rewrite <- E.
  - exists r. split; [done|]. apply (f_equal fst) in E as E1. apply (f_equal snd) in E. cbn in E1, E. split; [|done].
    by apply (f_equal ck_name) in E1.
  - exfalso. repeat destruct Hv as [Hv|Hv]; apply (f_equal fst) in Hv; apply (f_equal ck_record_id) in Hv; done.
Qed.

Lemma initial_inv : limits_ok L -> record_inv W L FIRST_USER_RECORD_ID.
Proof.
  intros (U1 & U2 & U3). split.
  - intros k v [Hlo Hhi]%initial_id. unfold CellKey_wf, uint_range. change (pow256 8) with (2 ^ 64). unfold FIRST_USER_RECORD_ID in Hhi. lia.
  - apply initial_is, initial_elem. tauto.
  - unfold FIRST_USER_RECORD_ID. lia.
  - by intros k v [_ ?]%initial_id.
  - split_and!; [apply initial_is, initial_elem; tauto..|done|done|done].
  - intros key v Hlen (r & Hr & <- & ->)%initial_binding; [|done]. destruct (reserved_records r Hr) as (_ & Hby & Hid).
    exists (sr_id r). rewrite Hby. split_and!; [done|lia|lia|by apply initial_reserved|done].
  - intros r Hr. by apply initial_reserved.
  - intros k v [_ Hhi]%initial_id Hlo. lia.
  - intros k v Hk Hi. by rewrite (initial_not_indexable k v Hk) in Hi.
Qed.

Lemma initial_wf : limits_ok L -> cells_wf W.
Proof.
  intros Hl k v Hk. split; [by eapply inv_keys; [apply initial_inv|]|].
  apply initial_is, initial_elem in Hk as [(r & Hr & [E|E])|Hk].
  - apply (f_equal snd) in E. cbn in E. subst v. apply from_bytes32_wf. by apply reserved_records.
  - apply (f_equal snd) in E. cbn in E. subst v. apply from_u64_wf.
  - destruct Hk as [Hk|[Hk|[Hk|Hk]]]; apply (f_equal snd) in Hk; cbn [snd] in Hk; subst v; [apply from_u32_wf..|apply from_u64_wf].
Qed.

(** Nothing of commit zero is indexed. *)
Lemma initial_index : index_of W = ∅.
Proof.
  apply set_eq. intros [t id]. rewrite elem_of_index_of. split; [|by intros ?%elem_of_empty].
  intros (k & v & Hk & Ht & _). unfold term_of, cell_term in Ht. by rewrite (initial_not_indexable k v Hk) in Ht.
Qed.
End Initial.

(** * The record of roots leaves the records alone *)

Lemma sealed_inv W L next head : record_inv W L next -> record_inv (<[roots_key (hd_commit_id head) := roots_cell head]> W) L next.
Proof.
  intros Hinv. set (rk := roots_key (hd_commit_id head)).
  assert (Hid : ck_record_id rk = sr_id ROOTS) by done. assert (Hname : length (ck_name rk) = 8%nat) by apply length_be_encode.
  assert (Hne : forall k, ck_record_id k <> sr_id ROOTS -> <[rk := roots_cell head]> W !! k = W !! k).
  { intros k Hk. rewrite lookup_insert_ne; [done|]. intros <-. by apply Hk. }
  assert (Hidn : forall id, <[rk := roots_cell head]> W !! identity_address id = W !! identity_address id).
  { intros id. rewrite lookup_insert_ne; [done|]. intros E. apply (f_equal (length ∘ ck_name)) in E. cbn -[rk KEY] in E. rewrite Hname in E. done. }
  assert (Hsome : forall k v, <[rk := roots_cell head]> W !! k = Some v -> (k = rk /\ v = roots_cell head) \/ W !! k = Some v).
  { intros k v [[<- <-]|[_ ?]]%lookup_insert_Some; auto. }
  split.
  - intros k v [[-> _]|Hk]%Hsome; [done|by eapply inv_keys].
  - rewrite Hne by done. apply Hinv.
  - apply Hinv.
  - pose proof (inv_next _ _ _ Hinv) as [Hlo _]. intros k v [[-> _]|Hk]%Hsome; [rewrite Hid; unfold FIRST_USER_RECORD_ID in Hlo; cbn; lia|by eapply inv_fresh].
  - rewrite !Hne by done. apply Hinv.
  - intros key v Hlen. rewrite Hne by done. intros Hb. destruct (inv_binding _ _ _ Hinv key v Hlen Hb) as (id & -> & Hr & Hi & Hs).
    exists id. by rewrite Hidn.
  - intros r Hr. rewrite Hne by done. by apply (inv_reserved _ _ _ Hinv).
  - intros k v [[-> _]|Hk]%Hsome Hu; [by rewrite Hid in Hu|]. destruct (inv_owned _ _ _ Hinv k v Hk Hu) as (key & Hlen & Hs & Hb).
    exists key. by rewrite Hne.
  - intros k v [[-> ->]|Hk]%Hsome Hi; [done|by eapply inv_indexable].
Qed.
