(* ===== verification/OpenSpec.v ===== *)
(** What preparing a store promises: crates/api/src/genesis.rs.

    [store_valid] is what every opened store satisfies: head, cells and index in
    step, the record invariant, the format rows, and the record of the previous
    roots. [initialize] establishes it over empty tables and [prepare] accepts
    it without changing a row. *)
From Stdlib Require Import ZArith Lia.
From S2P Require Import Prelude Ordered Groups Storage Scan CellTypes CellValue CellName MerkleNode MerkleTrie MerkleTree MerkleEdit MerkleSpec.
From S2P Require Import BranchTypes CellScan Overlay Cells Buffer Term Bitmap BitmapSpec Index IndexSpec IndexReads Seal CellIndex SealSpec.
From S2P Require Import Branches Records RecordsSpec CommittedSpec Query QuerySpec Genesis GenesisSpec.

#[local] Open Scope Z_scope.

(** A 64-byte field: what the record of roots holds for a commit. *)
Definition roots_row (l : bytes) : CellValue := to_owned {| cr_ty := Bytes; cr_value := l; cr_indexable := false |}.

Definition previous (head : Head) : CommitId := {| commit_number := commit_number (hd_commit_id head) - 1 |}.

(** The batch that puts every cell of a map. *)
Lemma put_changes_batch (E : CellMap) k : batch (put_changes E) !! k = Some <$> E !! k.
Proof.
  unfold batch, put_changes. rewrite batch_map_lookup, <- list_fmap_compose.
  replace (change_pair ∘ (fun '(key, value) => Put key value) <$> entries E) with (entries (Some <$> E)).
  { by rewrite last_write_entries, lookup_fmap. }
  apply sorted_rows_unique; [apply entries_sorted|..].
  - rewrite <- list_fmap_compose. rewrite (list_fmap_ext _ fst) by (by intros i [k' v] _). apply entries_sorted.
  - intros k' a. rewrite elem_of_entries, lookup_fmap, list_elem_of_fmap. split.
    + intros (v & Hv & ->)%fmap_Some. exists (k', v). split; [done|]. by apply elem_of_entries.
    + intros ([k2 v] & [= -> ->] & Hin%elem_of_entries). by rewrite Hin.
Qed.

Lemma put_changes_wf (E : CellMap) : cells_wf E -> Forall change_wf (put_changes E).
Proof.
  intros Hw. apply Forall_forall. intros c ([k v] & -> & Hin%elem_of_entries)%list_elem_of_fmap. by apply Hw in Hin.
Qed.

Lemma put_changes_cells (W : CellMap) : change_cells ∅ (put_changes W) = W.
Proof.
  apply map_eq. intros k. rewrite change_cells_lookup. fold (batch (put_changes W)). rewrite put_changes_batch, lookup_empty.
  by destruct (W !! k).
Qed.

Section Valid.
Context `{Roaring} {RO : RoaringLaws} `{HashProvider} {HL : HashLaws}.
Context {T : Type} `{WT : WriteTransaction T} {RL : ReadLaws T} {WL : WriteLaws T}.

(** The format rows of the superblock. *)
Record metadata_rows (tx : T) (config : GenesisConfig) : Prop := {
  md_format : view tx SUPERBLOCK !! FORMAT_KEY = Some (be_encode 4 FORMAT);
  md_hash : view tx SUPERBLOCK !! HASH_FN_KEY = Some (be_encode 2 (hash_id (hash_function config)));
  md_roaring : view tx SUPERBLOCK !! ROARING_KEY = Some (be_encode 2 ROARING);
  md_genesis : view tx SUPERBLOCK !! GENESIS_ID_KEY = Some (genesis_identity config (initial_cells config))
}.

Record store_valid (tx : T) (config : GenesisConfig) (head : Head) (cell_root index_root : RootRef) (W : CellMap) (next : Z) : Prop := {
  sv_state : store_state tx head cell_root index_root W;
  sv_records : record_inv W (cell_limits config) next;
  sv_metadata : metadata_rows tx config;
  sv_history : if bool_decide (hd_commit_id head = GENESIS) then W = initial_cells config
               else exists l, length l = 64%nat /\ W !! roots_key (previous head) = Some (roots_row l);
  sv_future n : commit_number (hd_commit_id head) <= n < 2 ^ 64 -> W !! roots_key {| commit_number := n |} = None
}.

(** ** Reading a valid store *)

Lemma metadata_ok (tx : T) n key row : view tx SUPERBLOCK !! key = Some row -> length row = n -> metadata n tx key = Ok row.
Proof using.
  intros Hr Hl. unfold metadata. rewrite get_spec by apply table_ok_SUPERBLOCK. unfold mbind, res_mbind. cbn [map_err].
  rewrite Hr. cbn [ok_or]. by rewrite Hl, Nat.eqb_refl.
Qed.

Lemma check_cells_ok (tx : T) W l : decoded (view tx CELL) W -> Forall (fun c => W !! c.1 = Some c.2) l -> check_cells tx l = Ok ().
Proof using.
  intros Hd. induction l as [|[k v] l IH]; [done|]. intros [Hk Hl]%Forall_cons. cbn [check_cells fst snd] in *.
  unfold mbind, res_mbind in *. rewrite (CellReader_get_ok tx W Hd) by (by eapply Hd). cbn [map_err]. rewrite Hk.
  rewrite bool_decide_true by done. cbn [negb]. by apply IH.
Qed.

Lemma exactly_rows_ok (c : Cursor T) rows p : cursor_at c rows p -> exactly_rows (length (ahead rows p)) c = Ok ().
Proof using WL.
  revert c p. intros c p. remember (length (ahead rows p)) as n eqn:En. revert c p En. induction n as [|n IH]; intros c p En Hc; cbn [exactly_rows];
    destruct (next_spec c rows p Hc) as (c' & -> & Hc'); rewrite next_row_ahead in *; destruct (ahead rows p) as [|[k v] l] eqn:Ea; try done.
  cbn [head moved_to] in *. apply (IH c' (At k)); [|done]. rewrite (ahead_step rows p k v l Ea). by injection En.
Qed.

Lemma decoded_size rows W : decoded rows W -> size rows = size W.
Proof using.
  intros Hd. pose proof (f_equal length (cells_rows [] rows W Hd)) as E. unfold prefix_rows, cells_under in E. rewrite length_fmap in E.
  rewrite !filter_all_id in E by (apply Forall_forall; intros x _; apply bool_decide_eq_true, prefix_nil).
  by rewrite !entries_perm, !length_map_to_list in E.
Qed.

Lemma all_ahead (rows : Rows) : length (ahead rows (Key [])) = size rows.
Proof using.
  unfold ahead, range. rewrite filter_all_id; [by rewrite entries_perm, length_map_to_list|].
  apply Forall_forall. intros x _. cbn. rewrite andb_true_r. apply leb_kle, bytes_le_nil.
Qed.

(** Nothing is under the allocator's next ID. *)
Lemma next_record_free (tx : T) config W next : record_inv W (cell_limits config) next -> decoded (view tx CELL) W ->
  exists s, CellReader_scan_record tx next = Ok s /\ (record_scan_next (s, false)).1 = None.
Proof using.
  intros Hinv Hd. pose proof (inv_next _ _ _ Hinv) as Hn. unfold FIRST_USER_RECORD_ID in Hn.
  unfold CellReader_scan_record. destruct (scan_prefix_collect tx CELL (be_encode 8 next) table_ok_CELL) as (s & -> & Hcol).
  exists s. split; [done|]. specialize (Hcol (S (size (view tx CELL))) (Nat.lt_succ_diag_r _)).
  rewrite (cells_rows _ _ W Hd) in Hcol. rewrite (no_cells_under W (cell_limits config) next Hinv) in Hcol.
  - cbn [Scan_collect] in Hcol. cbn [record_scan_next]. destruct (Scan_next s) as [[[row|e| |]|] s']; try done.
    by apply res_bind_ok in Hcol as (? & _ & [=]).
  - apply uint8_lt. lia.
  - intros k v Hk. apply (inv_fresh _ _ _ Hinv) in Hk. lia.
Qed.

(** The required cells are there: those of commit zero, with the allocator of now. *)
Lemma required_present config W next k v : record_inv W (cell_limits config) next ->
  <[allocator_key := from_u64 next]> (initial_cells config) !! k = Some v -> W !! k = Some v.
Proof using.
  intros Hinv [[<- <-]|[Hne Hk]]%lookup_insert_Some; [apply Hinv|].
  apply initial_is, initial_elem in Hk as [(r & Hr & Hk)|Hk].
  - pose proof (inv_reserved _ _ _ Hinv r Hr) as Hb. destruct (reserved_records r Hr) as (Hlen & _ & Hid).
    unfold FIRST_USER_RECORD_ID in Hid. destruct Hk as [[= -> ->]|[= -> ->]]; [|done].
    destruct (inv_binding _ _ _ Hinv (sr_key r) _ Hlen Hb) as (id & E & Hr' & Hi & _).
    pose proof (inv_next _ _ _ Hinv) as Hn. apply from_u64_inj in E as ->; [done|apply uint8_lt; lia..].
  - destruct (inv_params _ _ _ Hinv) as (P1 & P2 & P3 & _).
    destruct Hk as [[= -> ->]|[[= -> ->]|[[= -> ->]|[= -> ->]]]]; done.
Qed.
(** The digests that reading a store relies on. *)
Record read_digests (tx : T) (cell_root index_root : RootRef) (W : CellMap) : Prop := {
  rd_clash : ~ clash tx;
  rd_cell_root : root_clear CELL_TRIE tx cell_root;
  rd_index_root : root_clear INDEX_TRIE tx index_root;
  rd_paths : distinct_paths W (∅ : gmap CellKey unit);
  rd_terms : distinct_index W W
}.

Lemma reopen_both (tx : T) head cell_root index_root W :
  store_state tx head cell_root index_root W -> read_digests tx cell_root index_root W ->
  Cells_reopen tx (hd_state_root head) = Ok cell_root /\ Index_reopen tx (hd_index_root head) = Ok index_root.
Proof using RO HL.
  intros [_ -> -> Hcells Hindex] [Hc [Hc1 Hc2] [Hi1 Hi2] Hp Ht]. split; [by apply (reopen_ok tx cell_root W)|].
  apply (Index_reopen_ok tx index_root (index_of W)); [done..| |done|done].
  intros t1 t2 [A1|A1%not_elem_of_nil] [A2|A2%not_elem_of_nil]; try done.
  destruct (index_row_posted tx _ _ _ Hindex A1) as [i1 J1]. destruct (index_row_posted tx _ _ _ Hindex A2) as [i2 J2].
  apply (Ht t1 t2 i1 i2); by apply elem_of_union_l.
Qed.

Context (tx : T) (config : GenesisConfig) (head : Head) (cell_root index_root : RootRef) (W : CellMap) (next : Z).
Hypothesis Hvalid : store_valid tx config head cell_root index_root W next.
Hypothesis Hdigests : read_digests tx cell_root index_root W.

Lemma valid_decoded : decoded (view tx CELL) W.
Proof using Hvalid. apply (ss_cells _ _ _ _ _ (sv_state _ _ _ _ _ _ _ Hvalid)). Qed.

Lemma valid_at_genesis : hd_commit_id head = GENESIS -> W = initial_cells config /\ next = FIRST_USER_RECORD_ID /\ index_root = REmpty.
Proof using Hvalid HL.
  intros Hg. pose proof (sv_history _ _ _ _ _ _ _ Hvalid) as Hh. rewrite bool_decide_true in Hh by done. split; [done|].
  pose proof (sv_records _ _ _ _ _ _ _ Hvalid) as Hinv. split.
  - pose proof (inv_alloc _ _ _ Hinv) as Ha. rewrite Hh in Ha. pose proof (inv_next _ _ _ Hinv) as Hn.
    rewrite (proj2 (initial_is config allocator_key (from_u64 FIRST_USER_RECORD_ID))) in Ha.
    + apply (inj Some) in Ha. unfold FIRST_USER_RECORD_ID in *. symmetry. apply from_u64_inj; [apply uint8_lt; lia..|done].
    + apply initial_elem. tauto.
  - pose proof (ss_index _ _ _ _ _ (sv_state _ _ _ _ _ _ _ Hvalid)) as Hi. rewrite Hh, initial_index in Hi.
    pose proof (is_trie _ _ _ Hi) as (m & Hm & Hk). assert (view tx INDEX = ∅) as E.
    { apply map_eq. intros t. rewrite lookup_empty. destruct (view tx INDEX !! t) as [h|] eqn:E; [|done]. exfalso.
      destruct (index_row_posted tx index_root ∅ t Hi) as [id Hid]; [by eexists|]. by apply elem_of_empty in Hid. }
    assert (m = ∅) as ->.
    { apply map_eq. intros p. rewrite lookup_empty. destruct (m !! p) as [h|] eqn:Em; [|done]. exfalso.
      apply Hk in Em as (t & b & Ht & _). by rewrite E, lookup_empty in Ht. }
    eapply represents_unique; [exact Hm|]. apply (represents_empty _ _ _ tx).
Qed.

Lemma expected_cells_ok : exists E, expected_cells tx head (initial_cells config) = Ok (cell_root, E) /\ E ⊆ W.
Proof using All.
  pose proof Hvalid as [Hst Hinv _ Hhist _]. pose proof valid_decoded as Hd. destruct (reopen_both tx head cell_root index_root W Hst Hdigests) as [Er Ei].
  pose proof (inv_next _ _ _ Hinv) as Hn. unfold FIRST_USER_RECORD_ID in Hn.
  assert (Hget : forall k v, W !! k = Some v -> map_err O_Cells (CellReader_get tx k) = Ok (Some v)).
  { intros k v Hk. rewrite (CellReader_get_ok tx W Hd) by (by eapply Hd). by rewrite Hk. }
  set (E0 := <[allocator_key := from_u64 next]> (initial_cells config)).
  assert (HE0 : E0 ⊆ W) by (apply map_subseteq_spec; intros k v; by apply required_present).
  unfold expected_cells. rewrite Er, Ei. unfold mbind, res_mbind. cbn [map_err]. rewrite (Hget allocator_key _ (inv_alloc _ _ _ Hinv)). cbn [ok_or].
  rewrite plain_u64 by (apply uint8_lt; lia). cbn [mbind option_bind]. rewrite (proj2 (Z.leb_le _ _)) by (unfold FIRST_USER_RECORD_ID; lia). cbn [ok_or].
  assert (bool_decide (hd_commit_id head = GENESIS) && negb (next =? FIRST_USER_RECORD_ID) = false) as ->.
  { case_bool_decide as Hg; [|done]. destruct (valid_at_genesis Hg) as (_ & -> & _). done. }
  destruct (next_record_free tx config W next Hinv Hd) as (s & -> & Es). cbn [map_err]. rewrite Es. fold E0.
  rewrite (check_cells_ok tx W (entries E0) Hd) by (apply Forall_forall; intros [k v] Hin%elem_of_entries; by eapply lookup_weaken).
  case_bool_decide as Hg.
  - destruct (valid_at_genesis Hg) as (EW & En & Eroot). destruct (cursor_spec tx CELL [] table_ok_CELL) as (c & -> & Hc). cbn [map_err].
    assert (E0 = W) as EE.
    { unfold E0. rewrite EW, En. apply insert_id. apply initial_is, initial_elem. tauto. }
    assert (size E0 = length (ahead (view tx CELL) (Key []))) as -> by (by rewrite EE, all_ahead, (decoded_size _ W)).
    rewrite (exactly_rows_ok c (view tx CELL)) by done. rewrite (ss_index_root _ _ _ _ _ Hst), Eroot. cbn [RootRef_hash].
    rewrite bool_decide_true by done. cbn [negb]. exists E0. split; [reflexivity|exact HE0].
  - destruct Hhist as (l & Hl & Hp). fold (previous head). rewrite (Hget _ _ Hp). cbn [ok_or].
    assert (CellValue_is_indexable (roots_row l) || negb match as_bytes (roots_row l) with Some l => (length l =? 64)%nat | None => false end = false) as ->.
    { change (roots_row l) with (field_from_typed Bytes l). rewrite field_not_indexable. unfold as_bytes, ref_as_bytes.
      rewrite exact_field. by rewrite Hl. }
    eexists. split; [done|]. apply map_subseteq_spec. intros k v [[<- <-]|[_ Hk]]%lookup_insert_Some; [done|]. by eapply lookup_weaken.
Qed.
(** The check of the flat cells against the trie writes nothing. *)
Lemma validate_state_ok : validate_state head (initial_cells config) tx = (Ok (), tx).
Proof using All.
  destruct expected_cells_ok as (E & HE & Hsub). unfold validate_state, reading. unfold mbind at 1, stres_mbind at 1. rewrite HE.
  assert (Hin : forall k a, batch (put_changes E) !! k = Some a -> exists v, a = Some v /\ W !! k = Some v).
  { intros k a. rewrite put_changes_batch. intros (v & Hv & ->)%fmap_Some. exists v. split; [done|]. by eapply lookup_weaken. }
  unfold mbind at 1, stres_mbind at 1, st_map_err. rewrite (cells_apply_same tx cell_root W); [done|..].
  - apply Hvalid.
  - apply put_changes_wf. intros k v Hk. apply valid_decoded. by eapply lookup_weaken.
  - assert (forall k, is_Some (W !! k) \/ is_Some (batch (put_changes E) !! k) -> is_Some (W !! k)) as Hk.
    { intros k [?|[a (v & _ & Hv)%Hin]]; [done|by eexists]. }
    intros k1 k2 A1%Hk A2%Hk. apply Hdigests; by left.
  - by intros k a (v & -> & Hv)%Hin.
Qed.

(** Opening a valid store accepts it, unless it must be new, and writes nothing. *)
Lemma prepare_ok mode : prepare {| oc_genesis := config; oc_mode := mode |} tx =
  (if bool_decide (mode = CreateNew) then Err O_AlreadyInitialized
   else Ok {| oi_created := false; oi_head := head; oi_genesis_id := genesis_identity config (initial_cells config) |}, tx).
Proof using All.
  destruct (sv_metadata _ _ _ _ _ _ _ Hvalid) as [M1 M2 M3 M4]. pose proof (ss_head _ _ _ _ _ (sv_state _ _ _ _ _ _ _ Hvalid)) as Hh.
  assert (exists row, view tx SUPERBLOCK !! HEAD_KEY = Some row) as [row Hrow].
  { rewrite read_head_state_eq in Hh. destruct (view tx SUPERBLOCK !! HEAD_KEY); [by eexists|done]. }
  unfold prepare. cbn [oc_genesis oc_mode]. unfold reading. unfold mbind at 1, stres_mbind at 1.
  rewrite get_spec by apply table_ok_SUPERBLOCK. cbn [map_err]. rewrite Hrow.
  unfold mbind at 1, stres_mbind at 1. rewrite (metadata_ok tx 4 _ _ M1) by apply length_be_encode.
  rewrite be_decode_encode by done. cbn [FORMAT Z.eqb Pos.eqb negb].
  unfold mbind at 1, stres_mbind at 1. rewrite (metadata_ok tx 2 _ _ M2) by apply length_be_encode.
  rewrite be_decode_encode by (by destruct (hash_function config)).
  assert (negb ((hash_id (hash_function config) =? 1) || (hash_id (hash_function config) =? 2)) = false) as -> by (by destruct (hash_function config)).
  unfold mbind at 1, stres_mbind at 1. rewrite (metadata_ok tx 2 _ _ M3) by apply length_be_encode.
  rewrite be_decode_encode by done. cbn [ROARING Z.eqb Pos.eqb negb].
  unfold mbind at 1, stres_mbind at 1. rewrite (metadata_ok tx 32 _ _ M4) by apply hash_length.
  rewrite Z.eqb_refl, bool_decide_true by done. cbn [negb orb].
  unfold mbind at 1, stres_mbind at 1. rewrite Hh. cbn [map_err]. unfold mbind at 1, stres_mbind at 1. rewrite validate_state_ok.
  by case_bool_decide.
Qed.
End Valid.

(** ** Initialising empty storage *)

Lemma initial_no_roots config c : initial_cells config !! roots_key c = None.
Proof.
  destruct (initial_cells config !! roots_key c) as [v|] eqn:E; [|done]. exfalso.
  apply initial_is, initial_elem in E as [(r & Hr & [E|E])|E].
  - apply (f_equal (fun x => length (ck_name x.1))) in E. cbn [fst roots_key ck_name] in E. by rewrite length_be_encode in E.
  - apply (f_equal (fun x => ck_record_id x.1)) in E. done.
  - repeat destruct E as [E|E]; apply (f_equal (fun x => ck_record_id x.1)) in E; done.
Qed.

Section Initialise.
Context `{Roaring} {RO : RoaringLaws} `{HashProvider} {HL : HashLaws}.
Context {T : Type} `{WT : WriteTransaction T} {RL : ReadLaws T} {WL : WriteLaws T}.

Lemma cells_state_empty (tx : T) : view tx CELL = ∅ -> view tx CELL_TRIE = ∅ -> cells_state tx REmpty ∅.
Proof using.
  intros EC _. split; [split|].
  - intros k v Hk. by rewrite lookup_empty in Hk.
  - intros kb vb. rewrite EC. split; [done|]. intros (k & v & Hk & _). by rewrite lookup_empty in Hk.
  - exists ∅. split; [apply represents_empty|]. intros p h. split; [by rewrite lookup_empty|].
    intros (k & v & Hk & _). by rewrite lookup_empty in Hk.
Qed.

Lemma index_state_empty (tx : T) : (forall tb, tb ∈ index_tables -> view tx tb = ∅) -> index_state tx REmpty ∅.
Proof using.
  intros E. assert (view tx INDEX = ∅) as EI by (apply E; unfold index_tables; rewrite !elem_of_cons; auto). split.
  - intros t id Hin. by apply elem_of_empty in Hin.
  - intros t. rewrite EI, lookup_empty. cbn. apply set_eq. intros id. rewrite elem_of_ids. split; intros Hin; by apply elem_of_empty in Hin.
  - exists ∅. split; [apply represents_empty|]. intros p h. split; [by rewrite lookup_empty|].
    intros (k & v & Hk & _). by rewrite EI, lookup_empty in Hk.
Qed.


(** The four format rows, written one after another. *)
Lemma put_superblock (tx : T) key value : exists tx', tx_put SUPERBLOCK key value tx = (Ok (), tx') /\
  view tx' SUPERBLOCK = <[key := value]> (view tx SUPERBLOCK) /\ forall tb, tb <> SUPERBLOCK -> view tx' tb = view tx tb.
Proof using WL.
  destruct (put_spec tx SUPERBLOCK key value table_ok_SUPERBLOCK) as (tx' & E & V). exists tx'. split; [done|].
  split; [|intros tb Htb]; rewrite V; unfold upd_view; by case_decide.
Qed.

(** Two branches of the trie of some cells share a digest. *)
Definition cell_clash (O : CellMap) : Prop :=
  branch_clash CELL_TRIE_PATH_BYTES CELL_BRANCH_DOMAIN (keyed_leaves cell_path cell_commitment O).

Lemma initialize_ok (tx : T) config mode : (forall tb, view tx tb = ∅) -> tx_is_empty tx = Ok true -> mode <> ExistingOnly ->
  limits_ok (cell_limits config) -> distinct_paths (∅ : CellMap) (initial_cells config) ->
  let '(r, tx') := prepare {| oc_genesis := config; oc_mode := mode |} tx in
  match r with
  | Ok info => oi_created info = true /\ oi_genesis_id info = genesis_identity config (initial_cells config) /\
      hd_commit_id (oi_head info) = GENESIS /\
      exists cell_root, store_valid tx' config (oi_head info) cell_root REmpty (initial_cells config) FIRST_USER_RECORD_ID /\
        forall tb, tb ∈ index_tables -> view tx' tb = ∅
  | Err (O_Cells (CE_Merkle ConflictingBranch)) => cell_conflict (initial_cells config) tx' /\ cell_clash (initial_cells config)
  | _ => False
  end.
Proof using RO HL WL.
  intros Hv Hempty Hmode Hlim Hpaths. unfold prepare. cbn [oc_genesis oc_mode]. unfold reading. unfold mbind at 1, stres_mbind at 1.
  rewrite get_spec, Hv, lookup_empty by apply table_ok_SUPERBLOCK. cbn [map_err].
  unfold initialize, reading. unfold mbind at 1, stres_mbind at 1. rewrite Hempty. cbn [map_err negb oc_mode oc_genesis].
  rewrite bool_decide_false by done.
  destruct (put_superblock tx FORMAT_KEY (be_encode 4 FORMAT)) as (tx1 & E1 & S1 & O1).
  destruct (put_superblock tx1 HASH_FN_KEY (be_encode 2 (hash_id (hash_function config)))) as (tx2 & E2 & S2 & O2).
  destruct (put_superblock tx2 ROARING_KEY (be_encode 2 ROARING)) as (tx3 & E3 & S3 & O3).
  destruct (put_superblock tx3 GENESIS_ID_KEY (genesis_identity config (initial_cells config))) as (tx4 & E4 & S4 & O4).
  unfold mbind at 1, stres_mbind at 1, st_map_err at 1. rewrite E1. cbn [map_err].
  unfold mbind at 1, stres_mbind at 1, st_map_err at 1. rewrite E2. cbn [map_err].
  unfold mbind at 1, stres_mbind at 1, st_map_err at 1. rewrite E3. cbn [map_err].
  unfold mbind at 1, stres_mbind at 1, st_map_err at 1. rewrite E4. cbn [map_err].
  assert (H4 : forall tb, tb <> SUPERBLOCK -> view tx4 tb = ∅) by (intros tb Htb; by rewrite O4, O3, O2, O1, Hv).
  pose proof (cells_apply_ok tx4 REmpty ∅ (put_changes (initial_cells config))) as Ha. rewrite put_changes_cells in Ha.
  unfold mbind at 1, stres_mbind at 1, st_map_err at 1.
  destruct (Cells_apply REmpty (put_changes (initial_cells config)) tx4) as [r tx5]. destruct Ha as [O5 Hr].
  { apply cells_state_empty; by apply H4. }
  { apply put_changes_wf. by apply initial_wf. }
  { intros k1 k2 A1 A2. apply Hpaths; rewrite put_changes_batch, fmap_is_Some in *; done. }
  destruct r as [u|e| |]; [|destruct e as [|[]| | |]; try done; destruct Hr as (Hcf & Hg & _)|done..].
  2: { split; [exact Hcf|]. refine (conflict_clash _ _ _ _ _ _ _ Hg Hcf). by apply H4. }
  destruct Hr as [Hcells _]. cbn [map_err].
  set (head := {| hd_commit_id := GENESIS; hd_state_root := RootRef_hash (cu_root u); hd_index_root := hash [] |}).
  assert (Hwf : head_wf head).
  { split_and!; [by vm_compute| |apply hash_length]. destruct Hcells as [_ (m & Hm & _)]. exact (represents_root_length _ _ _ tx5 _ _ Hm). }
  destruct Hwf as (W1 & W2 & W3). unfold write_head. rewrite W2, W3. cbn [Nat.eqb andb].
  destruct (put_superblock tx5 HEAD_KEY (head_row head)) as (tx6 & E6 & S6 & O6).
  unfold mbind at 1, stres_mbind at 1, st_map_err. rewrite E6. cbn [map_err mret stres_mret oi_created oi_head oi_genesis_id]. split_and!; [done..|].
  assert (S5 : view tx5 SUPERBLOCK = view tx4 SUPERBLOCK) by (by apply O5).
  assert (Hidx : forall tb, tb ∈ index_tables -> view tx6 tb = ∅).
  { intros tb Htb. unfold index_tables in Htb. rewrite O6, O5, H4; set_solver. }
  exists (cu_root u). split; [|done]. split.
  - split; [|done|done|..].
    + rewrite read_head_state_eq, S6, lookup_insert_eq. by apply head_of_row.
    + apply (cells_state_across tx5 tx6); [by apply O6..|done].
    + rewrite initial_index. by apply index_state_empty.
  - by apply initial_inv.
  - split; rewrite S6, lookup_insert_ne, S5, S4 by done; rewrite ?S3, ?S2, ?S1; by rewrite ?lookup_insert_eq, ?lookup_insert_ne, ?lookup_insert_eq by done.
  - by rewrite bool_decide_true.
  - intros n _. by apply initial_no_roots.
Qed.
(** Two cells make a branch. *)
Lemma root_of_many (tx : T) root W : cells_state tx root W -> distinct_paths W (∅ : gmap CellKey unit) -> (2 <= size W)%nat ->
  exists h, root = RBranch h.
Proof using.
  intros [_ (m & Hm & Hk)] Hd Hsize. destruct root as [|l|h]; [..|by exists h]; exfalso.
  - apply represents_nil in Hm as ->. apply keyed_none in Hk as ->. rewrite map_size_empty in Hsize. lia.
  - apply represents_leaf in Hm as ->. destruct (keyed_one _ _ _ _ _ Hk) as (k & v & -> & _).
    + intros k1 k2 A1 A2. apply Hd; by left.
    + rewrite map_size_singleton in Hsize. lia.
Qed.

Lemma initial_many config : (2 <= size (initial_cells config))%nat.
Proof using.
  rewrite <- (size_dom (D := gset CellKey)).
  change 2%nat with (size ({[ allocator_key; param_key MAX_STR_LEN ]} : gset CellKey)).
  apply subseteq_size. intros k Hk. apply elem_of_dom.
  apply elem_of_union in Hk as [->%elem_of_singleton| ->%elem_of_singleton]; eexists; apply initial_is, initial_elem; tauto.
Qed.

(** The digests of a fresh store: nothing is indexed, so only its cells count. *)
Lemma fresh_digests (tx : T) config head cell_root : (forall tb, tb ∈ index_tables -> view tx tb = ∅) ->
  distinct_paths (∅ : CellMap) (initial_cells config) -> store_valid tx config head cell_root REmpty (initial_cells config) FIRST_USER_RECORD_ID ->
  hd_state_root head <> hash [] -> read_digests tx cell_root REmpty (initial_cells config).
Proof using.
  intros Hi Hp Hv Hne. assert (view tx BITMAP_CONTAINER = ∅ /\ view tx BITMAP_TRIE = ∅) as [E1 E2].
  { split; apply Hi; unfold index_tables; rewrite !elem_of_cons; auto. }
  assert (Hd : distinct_paths (initial_cells config) (∅ : gmap CellKey unit)).
  { intros k1 k2 A1 A2. apply Hp; [destruct A1 as [?|[? A1]]; [by right|by rewrite lookup_empty in A1]|destruct A2 as [?|[? A2]]; [by right|by rewrite lookup_empty in A2]]. }
  pose proof (sv_state _ _ _ _ _ _ _ Hv) as Hst.
  destruct (root_of_many tx cell_root _ (ss_cells _ _ _ _ _ Hst) Hd (initial_many config)) as [h ->]. split; [| | |done|].
  - unfold clash. rewrite E1, E2. intros [(h' & [? E] & _)|[[? E]|[? E]]]; by rewrite lookup_empty in E.
  - split; [intros _; by rewrite <- (ss_state_root _ _ _ _ _ Hst)|done].
  - by split.
  - intros t1 t2 id1 id2. rewrite initial_index. intros [A|A]%elem_of_union; by apply elem_of_empty in A.
Qed.
End Initialise.

(** ** Committing *)

Section Commit.
Context `{Roaring} {RO : RoaringLaws} `{HashProvider} {HL : HashLaws}.
Context {T : Type} `{WT : WriteTransaction T} {RL : ReadLaws T} {WL : WriteLaws T}.

(** A branch that leaves the record of roots alone, as record operations do. *)
Definition keeps_roots (O : CellMap) (o : CellOverlay) : Prop :=
  forall k, ck_record_id k = sr_id ROOTS -> working O (ov_entries o) !! k = O !! k.

Lemma roots_key_inj a b : 0 <= a < 2 ^ 64 -> 0 <= b < 2 ^ 64 ->
  roots_key {| commit_number := a |} = roots_key {| commit_number := b |} -> a = b.
Proof using.
  intros Ha Hb E. apply (f_equal ck_name) in E. cbn [roots_key ck_name commit_number] in E.
  apply (f_equal be_decode) in E. by rewrite !be_decode_encode in E by (by apply uint8_lt).
Qed.

Lemma sealed_wf head O o : cells_wf O -> staged_wf o -> cells_wf (sealed_cells head O o).
Proof using.
  intros HO Hs k v Hk. unfold sealed_cells in Hk. apply lookup_insert_Some in Hk as [[<- <-]|[_ Hk]].
  - pose proof (seal_changes_wf head o Hs) as Hf. apply Forall_app in Hf as [_ Hf]. by apply Forall_singleton in Hf.
  - rewrite lookup_working in Hk. destruct (ov_entries o !! k) as [a|] eqn:E; [|by apply HO].
    apply Hs in E as [? Hv]. subst a. split; [done|by apply Hv].
Qed.

Lemma commit_valid (origin : T) config head cell_root index_root O next o next' :
  store_valid origin config head cell_root index_root O next -> digests_ok origin head cell_root index_root O o -> staged_wf o ->
  record_inv (working O (ov_entries o)) (cell_limits config) next' -> keeps_roots O o ->
  0 <= commit_number (hd_commit_id head) < 2 ^ 64 - 1 ->
  let b := (sealing cell_root index_root (seal_changes head o) (Buffered_new origin)).2 in
  ~ clash b ->
  match compute origin o with
  | Ok sealed => forall tx, (forall tb, view tx tb = view origin tb) ->
      exists tx' cell_root' index_root', stage_commit (hd_commit_id head) sealed tx = (Ok (), tx') /\
        store_valid tx' config (sealed_head sealed) cell_root' index_root' (sealed_cells head O o) next'
  | Err e => seal_conflict (sealed_cells head O o) e b
  | _ => False
  end.
Proof using RO HL WL.
  intros [Hst Hinv Hmeta Hhist Hfut] Hd Hs HinvW Hkeep Hnum b Hb. pose proof (cells_state_wf _ _ _ (ss_cells _ _ _ _ _ Hst)) as HO.
  assert (record_inv (sealed_cells head O o) (cell_limits config) next') as Hinv' by exact (sealed_inv _ _ _ head HinvW). pose proof (sealed_wf head O o HO Hs) as HW.
  pose proof (publish_ok origin head cell_root index_root O o Hst Hd Hs (inv_terms_ok _ _ _ Hinv HO) (inv_terms_ok _ _ _ Hinv' HW)) as Hp.
  cbv zeta in Hp. fold b in Hp. specialize (Hp (Hfut (commit_number (hd_commit_id head)) ltac:(lia))).
  destruct (hd_commit_id head) as [n] eqn:En. cbn [commit_number] in *. specialize (Hp Hnum Hb).
  destruct (compute origin o) as [sealed|e| |]; [|done..]. destruct Hp as [Enum Hpub]. intros tx Hv.
  destruct (Hpub tx Hv) as (tx' & cr & ir & Es & Hst' & Hsuper). exists tx', cr, ir. split; [done|].
  assert (Hk : forall m, m <> n -> 0 <= m < 2 ^ 64 -> sealed_cells head O o !! roots_key {| commit_number := m |} = O !! roots_key {| commit_number := m |}).
  { intros m Hne Hm. unfold sealed_cells. rewrite En, lookup_insert_ne; [by apply Hkeep|]. intros E. apply Hne. symmetry. by apply roots_key_inj in E; [|lia..]. }
  split; [exact Hst'|exact Hinv'|..].
  - destruct Hmeta as [M1 M2 M3 M4]. split; by rewrite Hsuper, lookup_insert_ne by done.
  - cbn [sealed_head hd_commit_id]. rewrite bool_decide_false by (intros E; rewrite E in Enum; cbn in Enum; lia).
    exists (hd_state_root head ++ hd_index_root head). split.
    + rewrite length_app. pose proof (ss_head _ _ _ _ _ Hst) as Eh. rewrite read_head_state_eq in Eh. apply head_of_inv in Eh as [(_ & -> & ->) _]. done.
    + unfold previous. cbn [sealed_head hd_commit_id]. rewrite Enum. replace (n + 1 - 1) with n by lia. unfold sealed_cells.
      rewrite En. apply lookup_insert_eq.
  - cbn [sealed_head hd_commit_id]. rewrite Enum. intros m Hm. rewrite Hk by lia. apply Hfut. lia.
Qed.
End Commit.
