(* ===== verification/Limits.v ===== *)
(** Sizes: what admission by the limits bounds, and that a backend which passes
    [Genesis::validate] can hold every cell and term (crates/api/src/config.rs,
    crates/cells/src/config.rs). *)
From Stdlib Require Import ZArith Lia.
From S2P Require Import Prelude Ordered Storage Scan CellTypes CellValue CellName MerkleNode MerkleTrie.
From S2P Require Import BranchTypes CellScan Overlay Cells Buffer Term Bitmap BitmapSpec Index IndexSpec Seal CellIndex SealSpec Branches Records RecordsSpec Genesis GenesisSpec CommittedSpec Query QuerySpec.

#[local] Open Scope Z_scope.

Abbreviation zlen l := (Z.of_nat (length l)).

(** The longest payload of a type under the limits; a record of roots has 64 bytes. *)
Definition payload_cap (L : CellLimits) (ty : CellType) : Z :=
  match ty with Str => max_str_len L | Bytes => Z.max 64 (max_bytes_len L) | _ => 32 end.

Record cell_fits (L : CellLimits) (k : CellKey) (v : CellValue) : Prop := {
  fits_name : zlen (ck_name k) <= Z.max 32 (max_cell_name_len L);
  fits_value : zlen (CellValue_value v) <= payload_cap L (cv_ty v);
  fits_indexed : CellValue_is_indexable v = true -> zlen (ck_name k) <= max_cell_name_len L
}.
Definition fits (L : CellLimits) (W : gmap CellKey CellValue) : Prop := forall k v, W !! k = Some v -> cell_fits L k v.

(** ** Widths *)

Lemma width_le ty n : CellType_width ty = Some n -> (n <= 32)%nat.
Proof. destruct ty; try match goal with w : Width |- _ => destruct w | w : FloatWidth |- _ => destruct w end; intros E; vm_compute in E; (discriminate E || (injection E as <-; lia)). Qed.

Lemma validated_width ty value : CellType_validate ty value = Ok () -> match CellType_width ty with Some n => length value = n | None => True end.
Proof. unfold CellType_validate. destruct (CellType_width ty) as [n|]; [|done]. by destruct (Nat.eqb_spec (length value) n). Qed.

Lemma wf_validated v : CellValue_wf v -> CellType_validate (cv_ty v) (CellValue_value v) = Ok ().
Proof.
  intros [Hv _]%as_view_wf. unfold CellValueRef_wf, CellValueRef_new in Hv. case_match; [done|].
  apply res_bind_ok in Hv as ([] & Hv & _). exact Hv.
Qed.

Lemma bytes_length v : zlen (cv_bytes v) <= 1 + zlen (CellValue_value v).
Proof. unfold CellValue_value. destruct (cv_bytes v); cbn [tail length]; lia. Qed.

Lemma fixed_fits L ty value : CellType_validate ty value = Ok () -> ty <> Str -> ty <> Bytes -> zlen value <= payload_cap L ty.
Proof.
  intros Hv%validated_width H1 H2. destruct (CellType_width ty) as [n|] eqn:E; [|by destruct ty as [| | | | | | | |[]| |]].
  apply width_le in E. destruct ty; try done; cbn [payload_cap]; lia.
Qed.

(** ** Admitted cells *)

Lemma validated_fits L id name v : CellValue_wf v -> validate_cell L name (Some v) = Ok () -> cell_fits L {| ck_record_id := id; ck_name := name |} v.
Proof.
  intros Hwf Hv. unfold validate_cell in Hv. apply res_bind_ok in Hv as (n & Hn%map_err_ok & Hval%map_err_ok).
  apply parse_user_ok in Hn as (_ & Hlen & _). unfold CellLimits_validate_value in Hval. cbn [as_view cr_ty cr_value] in Hval.
  split; cbn [ck_name]; [lia| |done]. pose proof (wf_validated v Hwf) as Hty. change (tail (cv_bytes v)) with (CellValue_value v) in Hval.
  destruct (cv_ty v) eqn:Et; try (by apply fixed_fits); cbn [payload_cap]; case_match eqn:E; try done; apply Z.ltb_ge in E; lia.
Qed.

Lemma validate_cells_fits {V} (L : CellLimits) (id : Z) (values : gmap CellName V) (f : V -> option CellValue) :
  validate_cells L ((fun '(name, v) => (name, f v)) <$> entries values) = Ok () ->
  forall name c v, values !! name = Some c -> f c = Some v -> CellValue_wf v -> cell_fits L {| ck_record_id := id; ck_name := name |} v.
Proof.
  intros Hv name c v Hc Ef Hwf. assert (forall l, validate_cells L l = Ok () -> (name, Some v) ∈ l -> validate_cell L name (Some v) = Ok ()) as Hin.
  { induction l as [|[n w] l IH]; intros Hl Hin; [by apply not_elem_of_nil in Hin|]. cbn [validate_cells] in Hl.
    apply res_bind_ok in Hl as ([] & Hc1 & Hl). apply elem_of_cons in Hin as [[= -> ->]|Hin]; [done|by apply IH]. }
  apply validated_fits; [done|]. apply (Hin _ Hv), list_elem_of_fmap. exists (name, c). rewrite Ef. split; [done|]. by apply elem_of_entries.
Qed.

(** ** System cells *)

Lemma field_fits L k ty value : zlen (ck_name k) <= 32 -> zlen value <= payload_cap L ty -> cell_fits L k (field_from_typed ty value).
Proof.
  intros Hn Hv. split; [lia| |by rewrite field_not_indexable]. change (CellValue_value (field_from_typed ty value)) with value.
  change (cv_ty (field_from_typed ty value)) with ty. exact Hv.
Qed.

Lemma u64_fits L k x : zlen (ck_name k) <= 32 -> cell_fits L k (from_u64 x).
Proof. intros Hn. apply field_fits; [done|]. cbn [payload_cap]. rewrite length_be_encode. lia. Qed.
Lemma u32_fits L k x : zlen (ck_name k) <= 32 -> cell_fits L k (from_u32 x).
Proof. intros Hn. apply field_fits; [done|]. cbn [payload_cap]. rewrite length_be_encode. lia. Qed.
Lemma key_fits L k key : length key = 32%nat -> zlen (ck_name k) <= 32 -> cell_fits L k (from_bytes32 key).
Proof. intros Hk Hn. apply field_fits; [done|]. cbn [payload_cap]. rewrite Hk. lia. Qed.

(** ** The invariant *)

Section Fits.
Context (L : CellLimits).
Implicit Types W : gmap CellKey CellValue.

Lemma fits_subset W W' : W ⊆ W' -> fits L W' -> fits L W.
Proof. intros Hs Hf k v Hk. apply Hf. by eapply lookup_weaken. Qed.

Lemma fits_insert W k v : fits L W -> cell_fits L k v -> fits L (<[k := v]> W).
Proof. intros Hf Hc k' v' [[<- <-]|[_ Hk]]%lookup_insert_Some; [done|by apply Hf]. Qed.

Lemma fits_put_all id cells W : fits L W -> (forall name v, (name, v) ∈ cells -> cell_fits L {| ck_record_id := id; ck_name := name |} v) ->
  fits L (put_all id cells W).
Proof.
  revert W. induction cells as [|[name v] cells IH]; intros W Hf Hc; [done|]. apply IH; [|intros n' v' Hin; apply Hc; by right].
  apply fits_insert; [done|]. apply Hc. by left.
Qed.

Lemma fits_created W id key values next : fits L W -> length key = 32%nat ->
  (forall name v, values !! name = Some v -> cell_fits L {| ck_record_id := id; ck_name := name |} v) -> fits L (created W id key values next).
Proof.
  intros Hf Hk Hv. unfold created. apply fits_insert; [|by apply u64_fits]. apply fits_insert; [|apply u64_fits; cbn; lia].
  apply fits_insert; [|by apply key_fits]. apply fits_put_all; [done|]. intros name v Hin%elem_of_entries. by apply Hv.
Qed.

Lemma fits_initial config : cell_limits config = L -> fits L (initial_cells config).
Proof.
  intros <- k v Hk. apply initial_is, initial_elem in Hk as [(r & Hr & [[= -> ->]|[= -> ->]])|Hk].
  - apply key_fits; [by apply reserved_records|done].
  - destruct (reserved_records r Hr) as (Hl & _). apply u64_fits. cbn. lia.
  - destruct Hk as [[= -> ->]|[[= -> ->]|[[= -> ->]|[= -> ->]]]]; [by apply u32_fits..|by apply u64_fits].
Qed.

Lemma fits_sealed W head : length (hd_state_root head) = 32%nat -> length (hd_index_root head) = 32%nat -> fits L W ->
  fits L (<[roots_key (hd_commit_id head) := roots_cell head]> W).
Proof.
  intros Hs Hi Hf. apply fits_insert; [done|]. apply (field_fits L _ Bytes); [by cbn; rewrite length_be_encode|].
  cbn [payload_cap]. rewrite length_app, Hs, Hi. lia.
Qed.
End Fits.

(** ** What the backend must hold *)

(** A backend that passes the check of the limits holds every cell's address,
    value and index term. *)
Lemma fits_backend config max_key max_value k v : Genesis_validate config max_key max_value = Ok () -> limits_ok (cell_limits config) ->
  cell_fits (cell_limits config) k v ->
  zlen (CellKey_encode k) <= max_key /\ zlen (cv_bytes v) <= max_value /\ forall t, term_of k v = Some t -> zlen t <= max_key.
Proof.
  intros Hg (U1 & U2 & U3) [Hn Hv Hi]. unfold Genesis_validate in Hg. case_match; [done|].
  destruct (Z.ltb_spec max_key (needed_key (cell_limits config))) as [|Hk]; [done|].
  destruct (Z.ltb_spec max_value (needed_value (cell_limits config))) as [|Hval]; [done|]. clear Hg.
  unfold needed_key, needed_value in *. set (L := cell_limits config) in *. unfold uint_range in *.
  split; [|split].
  - unfold CellKey_encode, CellKey_encode_into. rewrite !length_app, length_be_encode. cbn [app length]. lia.
  - pose proof (bytes_length v). destruct (cv_ty v); cbn [payload_cap] in Hv; lia.
  - intros t (Hix & _ & Hb & ->)%term_of_some. specialize (Hi Hix). unfold run_of. rewrite !length_app. cbn [length].
    destruct (cv_ty v); try done; cbn [payload_cap] in Hv; lia.
Qed.
