(* ===== verification/KeyedStore.v ===== *)
(** Records as a keyed store: crates/record/src/crud.rs on one branch.

    [KeyedStore] is what the record layer promises: a map from record keys to
    records, and how many record IDs were given out. [ks_step] says what each
    operation answers and does to it. [rec_call] are the operations as the code
    runs them, against a branch of the manager; they refine [ks_step]. *)
From Stdlib Require Import ZArith Lia.
From S2P Require Import Prelude Ordered Storage Scan CellTypes CellValue CellName MerkleNode MerkleTrie.
From S2P Require Import BranchTypes CellScan Overlay Cells Buffer Term Bitmap Index Seal Branches Records RecordsSpec CommittedSpec Query QuerySpec Genesis GenesisSpec Limits.

#[local] Open Scope Z_scope.

(** * The abstract machine *)

Inductive Call : Type :=
  | OpGet (key : RecordKey) (projection : option (list CellName))
  | OpCreate (key : RecordKey) (values : RecordCells)
  | OpPatch (key : RecordKey) (changes : RecordPatch)
  | OpDelete (key : RecordKey).

Inductive Answer : Type :=
  | AnsRecord (record : Record_)
  | AnsKey (key : RecordKey)
  | AnsUnit.

Record KeyedStore := { ks_next : Z; ks_records : gmap RecordKey RecordCells }.

Definition ks_get (ks : KeyedStore) (key : RecordKey) (projection : option (list CellName)) : res RecordError Record_ :=
  match ks_records ks !! key with
  | Some cells => Ok {| rec_key := key; rec_cells := project projection cells |}
  | None => Err R_NotFound
  end.

(** Names are within the limits, values too when they are set. *)
Definition accepted (L : CellLimits) {V} (f : V -> option CellValue) (cells : gmap CellName V) : res RecordError unit :=
  validate_cells L ((fun '(name, v) => (name, f v)) <$> entries cells).

(** An operation that checks, then changes: a failed check changes nothing. *)
Definition guarded (answer : Answer) (ks : KeyedStore) (checked : res RecordError KeyedStore) : res RecordError Answer * KeyedStore :=
  match checked with
  | Ok ks' => (Ok answer, ks')
  | Err e => (Err e, ks)
  | Panic => (Panic, ks)
  | Diverge => (Diverge, ks)
  end.

Definition ks_step (L : CellLimits) (op : Call) (ks : KeyedStore) : res RecordError Answer * KeyedStore :=
  match op with
  | OpGet key projection => (record ← ks_get ks key projection; Ok (AnsRecord record), ks)
  | OpCreate key values =>
      guarded (AnsKey key) ks (
        _ ← reject_reserved key;
        _ ← accepted L Some values;
        match ks_records ks !! key with
        | Some _ => Err R_AlreadyExists
        | None =>
            if ks_next ks <? 2 ^ 64 - 1
            then Ok {| ks_next := ks_next ks + 1; ks_records := <[key := <[KEY := from_bytes32 key]> values]> (ks_records ks) |}
            else Err R_RecordIdExhausted
        end)
  | OpPatch key changes =>
      guarded AnsUnit ks (
        _ ← reject_reserved key;
        cells ← ok_or (ks_records ks !! key) R_NotFound;
        _ ← accepted L patch_value changes;
        Ok {| ks_next := ks_next ks; ks_records := <[key := patched changes cells]> (ks_records ks) |})
  | OpDelete key =>
      guarded AnsUnit ks (
        _ ← reject_reserved key;
        _ ← ok_or (ks_records ks !! key) R_NotFound;
        Ok {| ks_next := ks_next ks; ks_records := delete key (ks_records ks) |})
  end.

Fixpoint run_calls {C A S} (step : C -> S -> A * S) (ops : list C) (s : S) : list A * S :=
  match ops with
  | [] => ([], s)
  | op :: ops =>
      let '(r, s) := step op s in
      let '(rs, s) := run_calls step ops s in
      (r :: rs, s)
  end.

(** Arguments of the right Rust types; reads of user records. *)
Definition op_ok (op : Call) : Prop :=
  match op with
  | OpGet key _ => length key = 32%nat /\ by_key key = None
  | OpCreate key values => length key = 32%nat /\ forall name v, values !! name = Some v -> CellValue_wf v
  | OpPatch key changes => length key = 32%nat /\ forall name v, changes !! name = Some (PatchSet v) -> CellValue_wf v
  | OpDelete key => length key = 32%nat
  end.

(** The working cells of a branch show a keyed store. *)
Record shows (L : CellLimits) (W : Working) (ks : KeyedStore) : Prop := {
  sh_inv : record_inv W L (ks_next ks);
  sh_records key : length key = 32%nat -> by_key key = None -> lookup_record W key = ks_records ks !! key;
  (** every cell is within the limits *)
  sh_fits : fits L W
}.

(** The cells of commit zero hold no user record. *)
Definition no_records : KeyedStore := {| ks_next := FIRST_USER_RECORD_ID; ks_records := ∅ |}.

Lemma initial_shows config : limits_ok (cell_limits config) -> shows (cell_limits config) (initial_cells config) no_records.
Proof.
  intros Hl. split.
  - by apply initial_inv.
  - intros key Hlen Hr. cbn [no_records ks_records]. rewrite lookup_empty. unfold lookup_record, bound.
    destruct (initial_cells config !! binding key) as [v|] eqn:E; [|done]. exfalso.
    apply (initial_binding config key v Hlen) in E as (r & Hin & <- & _). by destruct (reserved_records r Hin) as (_ & E & _); rewrite E in Hr.
  - by apply fits_initial.
Qed.

(** * The programs of crud.rs *)

Section Programs.
Context (W : Working) (L : CellLimits) (next : Z) (Hinv : record_inv W L next).
Context (key : RecordKey).
Hypothesis Hkey : length key = 32%nat.
Context {T : Type} `{RL : ReadLaws T}.
Abbreviation runs := (runs (T:=T)).

Lemma cells_under_size id : (length (cells_under (be_encode 8 id) W) <= size W)%nat.
Proof using. unfold cells_under. etrans; [apply length_filter|]. by rewrite entries_perm, length_map_to_list. Qed.

(** ** Reading *)

Lemma runs_read fuel projection : (size W < fuel)%nat ->
  runs (read_branch_record fuel key projection) W
    (match lookup_record W key with
     | Some cells => Ok {| rec_key := key; rec_cells := project projection cells |}
     | None => Err R_NotFound
     end) W.
Proof using All.
  intros Hf. unfold read_branch_record, lookup_record. eapply runs_bind; [by apply (runs_resolve W L next Hinv)|].
  destruct (bound W key) as [id|] eqn:Eb; [|by apply runs_bind_err, runs_res]. cbn [fmap option_fmap option_map].
  eapply runs_bind; [apply runs_res|]. destruct (bound_range W L next Hinv key id Hkey Eb) as [Hid _].
  destruct projection as [names|].
  - destruct (runs_read_names id names ∅ W Hid (T:=T)) as (values & Hr & Hv). eapply runs_bind; [exact Hr|].
    assert (values = project (Some names) (record_at W id)) as ->; [|apply runs_ret].
    apply map_eq. intros name. rewrite Hv, project_lookup, record_at_lookup, lookup_empty by (done || apply Hinv).
    by destruct (if bool_decide _ then _ else _).
  - eapply runs_bind; [|apply runs_ret]. eapply runs_bind; [|apply runs_ret]. apply runs_scan.
    eapply Nat.le_lt_trans; [apply cells_under_size|done].
Qed.

(** ** Patching *)

Definition patch_result (changes : RecordPatch) : res RecordError unit :=
  _ ← ok_or (bound W key) R_NotFound;
  accepted L patch_value changes.

Definition patch_working (changes : RecordPatch) : Working :=
  match bound W key with
  | Some id => if is_ok (patch_result changes) then patch_all id (entries changes) W else W
  | None => W
  end.

Lemma runs_patch changes : (forall name v, changes !! name = Some (PatchSet v) -> CellValue_wf v) ->
  runs (patch_prog key changes) W (patch_result changes) (patch_working changes).
Proof using All.
  intros Hv. unfold patch_prog, patch_working, patch_result. eapply runs_bind; [by apply (runs_resolve W L next Hinv)|].
  destruct (bound W key) as [id|] eqn:Eb; [|by apply runs_bind_err, runs_res].
  eapply runs_bind; [apply runs_res|]. eapply runs_bind; [by apply (runs_limits W L next Hinv)|].
  cbn [ok_or]. unfold mbind at 2 3, res_mbind. unfold accepted. destruct (validate_cells L _) as [[]|e| |]; cbn [is_ok].
  - eapply runs_bind; [apply runs_res|]. apply runs_patch_cells; [by apply (bound_range W L next Hinv key)|].
    apply Forall_forall. intros [name c] Hin%elem_of_entries v. cbn. intros ->. by eapply Hv.
  - by apply runs_bind_err, runs_res.
  - by intros origin O o _ Ho; exists o.
  - by intros origin O o _ Ho; exists o.
Qed.
End Programs.

(** ** What a patch means for the records *)

Section Patched.
Context (W : Working) (L : CellLimits) (next : Z) (Hinv : record_inv W L next).
Context (key : RecordKey) (id : Z) (changes : RecordPatch).
Hypothesis Hkey : length key = 32%nat.
Hypothesis Hres : by_key key = None.
Hypothesis Hid : bound W key = Some id.
Hypothesis Hnames : forall name, is_Some (changes !! name) -> user_name name.

Abbreviation W' := (patch_all id (entries changes) W).

Lemma patched_other k : ck_record_id k <> id -> W' !! k = W !! k.
Proof using. intros Hk. rewrite patch_all_lookup. by rewrite bool_decide_false. Qed.

Lemma patched_at name : W' !! {| ck_record_id := id; ck_name := name |} =
  match changes !! name with Some c => patch_value c | None => W !! {| ck_record_id := id; ck_name := name |} end.
Proof using. rewrite patch_all_lookup. cbn [ck_record_id ck_name]. by rewrite bool_decide_true, last_write_entries. Qed.

Lemma patched_identity : W' !! identity_address id = W !! identity_address id.
Proof using Hnames.
  unfold identity_address. rewrite patched_at. destruct (changes !! KEY) as [c|] eqn:E; [|done].
  exfalso. apply (user_name_not_key KEY); [|done]. apply Hnames. by eexists.
Qed.

Lemma patched_inv : record_inv W' L next.
Proof using All.
  apply (edited_inv W L next Hinv key id Hkey Hres Hid W' patched_other patched_identity).
  intros [rid name] v Hk Hv Hi. cbn [ck_record_id ck_name] in *. subst rid. rewrite patched_at in Hv.
  destruct (changes !! name) as [c|] eqn:Ec; [apply Hnames; by eexists|]. by destruct (inv_indexable _ _ _ Hinv _ _ Hv Hi).
Qed.

Lemma patched_lookup_record key' : length key' = 32%nat ->
  lookup_record W' key' = if decide (key' = key) then patched changes <$> lookup_record W key else lookup_record W key'.
Proof using All.
  intros Hlen. case_decide as E; [subst key'|by rewrite (edited_lookup_record W L next Hinv key id Hkey Hres Hid W' patched_other)].
  unfold lookup_record. rewrite (edited_bound W L next Hinv key id Hkey Hres Hid W' patched_other key), Hid. cbn [fmap option_fmap option_map]. f_equal.
  destruct (bound_range W L next Hinv key id Hkey Hid) as [Hu _]. apply map_eq. intros name.
  rewrite patched_lookup, !record_at_lookup by (done || apply Hinv || apply patched_inv). by rewrite patched_at.
Qed.
End Patched.

(** ** Deletion *)

Section Deleted.
Context (W : Working) (L : CellLimits) (next : Z) (Hinv : record_inv W L next).
Context (key : RecordKey) (id : Z).
Hypothesis Hkey : length key = 32%nat.
Hypothesis Hres : by_key key = None.
Hypothesis Hid : bound W key = Some id.

Definition deleted : Working := delete (binding key) (filter (fun kv => ck_record_id kv.1 <> id) W).

Lemma deleted_at k : deleted !! k = if decide (k = binding key \/ ck_record_id k = id) then None else W !! k.
Proof using.
  clear Hkey. unfold deleted. destruct (decide (k = binding key)) as [->|Hb]; [rewrite lookup_delete_eq; by rewrite decide_True by auto|].
  rewrite lookup_delete_ne by congruence. case_decide as E.
  - apply map_lookup_filter_None. right. intros v _. cbn. destruct E as [?|?]; [done|]. by intros [].
  - destruct (W !! k) as [v|] eqn:Ev; [|apply map_lookup_filter_None; by left]. apply map_lookup_filter_Some. split; [done|].
    cbn. intros Ek. apply E. by right.
Qed.

Lemma deleted_some k v : deleted !! k = Some v <-> k <> binding key /\ ck_record_id k <> id /\ W !! k = Some v.
Proof using. clear Hkey. rewrite deleted_at. case_decide as E; [naive_solver|]. apply Decidable.not_or in E. naive_solver. Qed.

Lemma deleted_other k : k <> binding key -> ck_record_id k <> id -> deleted !! k = W !! k.
Proof using. clear Hkey. intros Hb Hk. rewrite deleted_at, decide_False; [done|]. by intros [?|?]. Qed.

Lemma deleted_small k : k <> binding key -> ck_record_id k < FIRST_USER_RECORD_ID -> deleted !! k = W !! k.
Proof using All. intros Hb Hk. apply deleted_other; [done|]. by apply (small_other W L next Hinv key id Hkey Hres Hid). Qed.

Lemma deleted_inv : record_inv deleted L next.
Proof using All.
  split.
  - intros k v (_ & _ & Hk)%deleted_some. by eapply inv_keys.
  - rewrite deleted_small by done. apply Hinv.
  - apply Hinv.
  - intros k v (_ & _ & Hk)%deleted_some. by eapply inv_fresh.
  - rewrite !deleted_small by done. apply (inv_params _ _ _ Hinv).
  - intros key' v Hlen (Hb & _ & Hv)%deleted_some. destruct (inv_binding _ _ _ Hinv key' v Hlen Hv) as (id' & -> & Hid' & Hk' & Hr').
    exists id'. split_and!; [done|lia|lia| |done]. rewrite deleted_other; [done|by apply identity_not_binding|]. cbn. intros ->.
    apply Hb. f_equal. apply (bound_inj W L next Hinv key id Hkey Hres Hid); [done|]. unfold bound. rewrite Hv. cbn [mbind option_bind].
    pose proof (inv_next _ _ _ Hinv). apply as_u64_field, uint8_lt. lia.
  - intros r Hr. rewrite deleted_small; [by apply (inv_reserved _ _ _ Hinv)| |done]. intros [= E].
    destruct (reserved_records r Hr) as (_ & E' & _). rewrite E in E'. congruence.
  - intros k v (_ & Hne & Hk)%deleted_some Hu. destruct (inv_owned _ _ _ Hinv k v Hk Hu) as (key' & Hlen & Hu' & Hb').
    exists key'. split_and!; [done..|]. rewrite deleted_small; [done| |done]. intros E. apply Hne.
    rewrite E in Hb'. unfold bound in Hid. rewrite Hb' in Hid. cbn [mbind option_bind] in Hid.
    rewrite as_u64_field in Hid; [by injection Hid|]. by apply (inv_keys _ _ _ Hinv) in Hk.
  - intros k v (_ & _ & Hk)%deleted_some. by apply (inv_indexable _ _ _ Hinv).
Qed.

Lemma deleted_lookup_record key' : length key' = 32%nat -> by_key key' = None ->
  lookup_record deleted key' = if decide (key' = key) then None else lookup_record W key'.
Proof using All.
  intros Hlen Hus. unfold lookup_record, bound. case_decide as E.
  - subst key'. rewrite deleted_at, decide_True by auto. done.
  - rewrite deleted_small; [|by intros [=]|done]. fold (bound W key'). destruct (bound W key') as [id'|] eqn:Eb; [|done].
    cbn [fmap option_fmap option_map]. f_equal. destruct (bound_user W L next Hinv key' id' Hlen Hus Eb) as (Hu' & _ & Hlo & _).
    apply record_at_ext; [done|by apply inv_keys with L next|apply inv_keys with L next, deleted_inv|]. intros name.
    apply deleted_other; [by apply user_address_not_system|]. cbn. intros ->. by apply E, (bound_inj W L next Hinv key id Hkey Hres Hid).
Qed.
End Deleted.

Section RunDelete.
Context (W : Working) (L : CellLimits) (next : Z) (Hinv : record_inv W L next).
Context (key : RecordKey).
Hypothesis Hkey : length key = 32%nat.
Context {T : Type} `{RL : ReadLaws T}.

Definition delete_result : res RecordError unit := _ ← ok_or (bound W key) R_NotFound; Ok ().
Definition delete_working : Working := match bound W key with Some id => deleted W key id | None => W end.

Lemma elem_of_cells_under id k v : uint_range 8 id -> (k, v) ∈ cells_under (be_encode 8 id) W <-> W !! k = Some v /\ ck_record_id k = id.
Proof using Hinv.
  clear Hkey. intros Hid. unfold cells_under. rewrite list_elem_of_filter, elem_of_entries. cbn [fst]. split.
  - intros [Hp Hv]. split; [done|]. by apply under_record in Hp; [|by eapply (inv_keys _ _ _ Hinv)|done].
  - intros [Hv Hi]. split; [|done]. apply under_record; [by eapply (inv_keys _ _ _ Hinv)|done|done].
Qed.

Lemma runs_delete_prog fuel : (size W < fuel)%nat -> runs (T:=T) (delete_prog fuel key) W delete_result delete_working.
Proof using All.
  intros Hf. unfold delete_prog, delete_result, delete_working. eapply runs_bind; [by apply (runs_resolve W L next Hinv)|].
  destruct (bound W key) as [id|] eqn:Eb; [|by apply runs_bind_err, runs_res].
  destruct (bound_range W L next Hinv key id Hkey Eb) as [Hu _]. eapply runs_bind; [apply runs_res|].
  eapply runs_bind; [apply runs_scan; eapply Nat.le_lt_trans; [apply cells_under_size|done]|].
  assert (Hin : forall k, k ∈ (cells_under (be_encode 8 id) W).*1 <-> is_Some (W !! k) /\ ck_record_id k = id).
  { intros k. rewrite list_elem_of_fmap. split.
    - intros ([k' v] & -> & [Hv Hi]%elem_of_cells_under); [|done]. split; [by eexists|done].
    - intros [[v Hv] Hi]. exists (k, v). split; [done|]. by apply elem_of_cells_under. }
  eapply runs_bind; [apply runs_delete_cells|].
  { apply Forall_forall. intros k [[v Hv] _]%Hin. by eapply inv_keys. }
  cbn [ok_or]. unfold mbind, res_mbind.
  assert (deleted W key id = delete (binding key) (foldl (fun W k => delete k W) W (cells_under (be_encode 8 id) W).*1)) as ->; [|by apply runs_delete].
  unfold deleted. f_equal. apply map_eq. intros k. rewrite delete_all_lookup, map_lookup_filter. case_bool_decide as E.
  - apply Hin in E as [[v ->] Hi]. cbn. rewrite option_guard_False; [done|]. by intros [].
  - destruct (W !! k) as [v|] eqn:Ev; [|done]. cbn. rewrite option_guard_True; [done|]. cbn. intros Hi. apply E, Hin. split; [by eexists|done].
Qed.
End RunDelete.

(** * The operations against a branch *)

Section Facade.
Context `{Roaring} `{HashProvider} {S T : Type} `{WT : WriteTransaction T} {RL : ReadLaws T} `{ST : !Store S T}.

(** One call of the record facade on a branch. *)
Definition rec_call (fuel : nat) (id : BranchId) (op : Call) : stres (Db S) RecordError Answer :=
  match op with
  | OpGet key projection => record ← Records_get fuel (TargetBranch id) key projection; mret (AnsRecord record)
  | OpCreate key values => key ← Records_create id key values; mret (AnsKey key)
  | OpPatch key changes => _ ← Records_patch id key changes; mret AnsUnit
  | OpDelete key => _ ← Records_delete fuel id key; mret AnsUnit
  end.

(** An open branch at the head of its store, with these working cells. *)
Definition branch_shows (db : Db S) (id : BranchId) (origin : T) (O W : Working) : Prop :=
  exists st, live db id st origin /\ bs_sealed st = None /\ decoded (view origin CELL) O /\ over O (bs_overlay st) W.

(** A write group on such a branch. *)
Lemma write_shows {A} (db : Db S) id origin O W (p : CellProg T RecordError A) r W' : branch_shows db id origin O W -> runs p W r W' ->
  (is_ok r = false -> W' = W) ->
  exists db', st_map_err from_operation (db_write id p) db = (r, db') /\ branch_shows db' id origin O W' /\ db_store db' = db_store db.
Proof using.
  intros (st & Hl & Hs & Hd & Ho) Hp Hsame. destruct (Hp origin O (bs_overlay st) Hd Ho) as (o' & Er & Ho').
  assert (exists o2, CellOverlay_write origin p (bs_overlay st) = (r, o2) /\ over O o2 W') as (o2 & Ew & Ho2).
  { destruct (is_ok r) eqn:Eok.
    - exists o'. split; [|done]. unfold CellOverlay_write. rewrite Er. by destruct r.
    - exists (bs_overlay st). rewrite (write_failed origin p (bs_overlay st)) by (by rewrite Er). rewrite Er. split; [done|]. by rewrite Hsame. }
  exists (set_slot id (Some (set_overlay o2 st)) db). split.
  - unfold st_map_err, db_write. rewrite (with_branch_live _ id _ db st origin Hl). unfold require_open. rewrite Hs, Ew. cbn [fst snd].
    f_equal. by destruct r.
  - split; [|done]. destruct Hl as (Hid & Hr & Hh). exists (set_overlay o2 st). split; [|done]. unfold live.
    split; [|done]. cbn [set_slot db_branches]. by rewrite lookup_alter_eq, Hid.
Qed.

(** A read of any live branch, open or sealed. *)
Lemma read_live {A} (db : Db S) id st origin O W (p : CellProg T RecordError A) r : live db id st origin ->
  decoded (view origin CELL) O -> over O (bs_overlay st) W -> runs p W r W ->
  st_map_err from_operation (db_read id (fun o origin => (run_prog origin p o).1)) db = (r, db).
Proof using.
  intros Hl Hd Ho Hp. destruct (Hp origin O (bs_overlay st) Hd Ho) as (o' & Er & _).
  unfold st_map_err, db_read. rewrite (with_branch_same _ id _ db st origin (map_err OE_Operation r) Hl).
  - by destruct r.
  - unfold reading. by rewrite Er.
Qed.

(** The effect of a call on the working cells does not depend on the fuel. *)
Definition simulates (L : CellLimits) (id : BranchId) (origin : T) (O W W' : Working) (op : Call) (r : res RecordError Answer) : Prop :=
  forall fuel db, (size W < fuel)%nat -> branch_shows db id origin O W ->
    exists db', rec_call fuel id op db = (r, db') /\ branch_shows db' id origin O W' /\ db_store db' = db_store db.

Lemma shows_bound L W ks key : shows L W ks -> length key = 32%nat -> by_key key = None ->
  is_Some (bound W key) <-> is_Some (ks_records ks !! key).
Proof using. intros Hs Hlen Hr. rewrite <- (sh_records _ _ _ Hs key Hlen Hr). unfold lookup_record. by rewrite fmap_is_Some. Qed.

Lemma reserved_case key : (exists e, reject_reserved key = Err e) \/ (reject_reserved key = Ok () /\ by_key key = None).
Proof using. unfold reject_reserved. destruct (by_key key); eauto. Qed.

Lemma get_live L id st origin O W ks key projection fuel (db : Db S) : shows L W ks -> op_ok (OpGet key projection) -> (size W < fuel)%nat ->
  live db id st origin -> decoded (view origin CELL) O -> over O (bs_overlay st) W ->
  rec_call fuel id (OpGet key projection) db = ((ks_step L (OpGet key projection) ks).1, db).
Proof using RL.
  intros Hs [Hlen Hr] Hf Hl Hd Ho. cbn [rec_call Records_get]. unfold mbind, stres_mbind.
  rewrite (read_live db id st origin O W _ _ Hl Hd Ho (runs_read W L (ks_next ks) (sh_inv _ _ _ Hs) key Hlen fuel projection Hf)).
  rewrite (sh_records _ _ _ Hs key Hlen Hr). cbn [ks_step fst]. unfold ks_get. by destruct (ks_records ks !! key).
Qed.

Lemma get_simulates L id origin O W ks key projection : shows L W ks -> op_ok (OpGet key projection) ->
  simulates L id origin O W W (OpGet key projection) (ks_step L (OpGet key projection) ks).1.
Proof using RL.
  intros Hs Hok fuel db Hf Hb. exists db. split; [|done]. destruct Hb as (st & Hl & _ & Hd & Ho). by eapply get_live.
Qed.

(** What a program answers corresponds to an abstract check. *)
Definition matches {A} (L : CellLimits) (W' : Working) (answer : Answer) (f : A -> Answer) (r : res RecordError A)
    (checked : res RecordError KeyedStore) : Prop :=
  match r, checked with
  | Ok a, Ok ks' => f a = answer /\ shows L W' ks'
  | Err e, Err e' => e = e'
  | Panic, Panic | Diverge, Diverge => True
  | _, _ => False
  end.

Lemma write_simulates {A} L id origin O W W' ks key answer (f : A -> Answer) (p : nat -> CellProg T RecordError A) r checked op :
  (forall fuel, rec_call fuel id op = x ← (_ ← lift_res (reject_reserved key); st_map_err from_operation (db_write id (p fuel))); mret (f x)) ->
  by_key key = None -> shows L W ks -> (forall fuel, (size W < fuel)%nat -> runs (p fuel) W r W') -> (is_ok r = false -> W' = W) -> matches L W' answer f r checked ->
  shows L W' (guarded answer ks checked).2 /\ simulates L id origin O W W' op (guarded answer ks checked).1.
Proof using RL.
  intros Hcall Hr Hs Hrun Hsame Hm. split.
  - destruct r, checked; try done; cbn [guarded snd]; [apply Hm|by rewrite Hsame..].
  - intros fuel db Hf Hb. destruct (write_shows db id origin O W (p fuel) r W' Hb (Hrun fuel Hf) Hsame) as (db' & E & Hb'). exists db'. split; [|exact Hb'].
    rewrite Hcall. unfold reject_reserved. rewrite Hr. unfold mbind, stres_mbind, lift_res. rewrite E.
    destruct r, checked; try done; cbn [guarded fst] in *; [destruct Hm as [-> _]; done|by rewrite Hm].
Qed.

(** A reserved key is refused before the branch is looked up. *)
Lemma reserved_simulates {A} L id origin O W ks key answer (f : A -> Answer) (p : nat -> CellProg T RecordError A) checked op e :
  (forall fuel, rec_call fuel id op = x ← (_ ← lift_res (reject_reserved key); st_map_err from_operation (db_write id (p fuel))); mret (f x)) ->
  reject_reserved key = Err e -> checked = Err e -> shows L W ks ->
  shows L W (guarded answer ks checked).2 /\ simulates L id origin O W W op (guarded answer ks checked).1.
Proof using.
  intros Hcall Hr -> Hs. split; [done|]. intros fuel db _ Hb. exists db. split; [|done]. rewrite Hcall, Hr. done.
Qed.

Lemma reject_ok key : by_key key = None -> reject_reserved key = Ok ().
Proof using. unfold reject_reserved. by intros ->. Qed.

(** The record of roots is the seal's: calls leave it alone. *)
Definition same_roots (W W' : Working) : Prop := forall k, ck_record_id k = sr_id ROOTS -> W' !! k = W !! k.

Lemma create_same_roots W L next key values : FIRST_USER_RECORD_ID <= next -> same_roots W (create_cells W L next key values).
Proof using.
  intros Hn k Hk. unfold create_cells. destruct (is_ok _); [|done]. change (sr_id ROOTS) with 2 in Hk. unfold FIRST_USER_RECORD_ID in Hn.
  unfold created. rewrite !lookup_insert_ne by (intros <-; vm_compute in Hk; lia || (cbn in Hk; lia)).
  rewrite put_all_lookup. rewrite bool_decide_false by lia. done.
Qed.

Lemma patch_same_roots W L next key changes : record_inv W L next -> length key = 32%nat -> by_key key = None -> same_roots W (patch_working W L key changes).
Proof using.
  intros Hinv Hlen Hr k Hk. unfold patch_working. destruct (bound W key) as [i|] eqn:Eb; [|done]. destruct (is_ok _); [|done].
  rewrite patch_all_lookup. destruct (bound_user W L next Hinv key i Hlen Hr Eb) as (_ & _ & Hlo & _).
  change (sr_id ROOTS) with 2 in Hk. unfold FIRST_USER_RECORD_ID in Hlo. by rewrite bool_decide_false by lia.
Qed.

Lemma delete_same_roots W L next key : record_inv W L next -> length key = 32%nat -> by_key key = None -> same_roots W (delete_working W key).
Proof using.
  intros Hinv Hlen Hr k Hk. unfold delete_working. destruct (bound W key) as [i|] eqn:Eb; [|done].
  change (sr_id ROOTS) with 2 in Hk. apply (deleted_small W L next Hinv key i Hlen Hr Eb); [intros ->; cbn in Hk; lia|unfold FIRST_USER_RECORD_ID; lia].
Qed.

Definition simulated (L : CellLimits) id (origin : T) O W ks op : Prop :=
  exists W', (shows L W' (ks_step L op ks).2 /\ simulates L id origin O W W' op (ks_step L op ks).1) /\ same_roots W W'.

Lemma get_simulated L id origin O W ks key projection : shows L W ks -> op_ok (OpGet key projection) -> simulated L id origin O W ks (OpGet key projection).
Proof using RL. intros Hs Hok. exists W. split; [|done]. split; [done|]. by apply get_simulates. Qed.

Lemma create_simulated L id origin O W ks key values : shows L W ks -> op_ok (OpCreate key values) -> simulated L id origin O W ks (OpCreate key values).
Proof using RL.
  intros Hs [Hlen Hv]. unfold simulated. cbn [ks_step].
  destruct (reserved_case key) as [[e Er]|[Er Hr]].
  { exists W. split; [|done]. apply (reserved_simulates L id origin O W ks key _ AnsKey (fun _ => create_prog key values) _ (OpCreate key values) e); [done..| |done]. by rewrite Er. }
  exists (create_cells W L (ks_next ks) key values). split; [|apply create_same_roots, (inv_next _ _ _ (sh_inv _ _ _ Hs))]. rewrite Er. unfold mbind at 1, res_mbind at 1. unfold mbind at 2, res_mbind at 2.
  pose proof (sh_inv _ _ _ Hs) as Hinv.
  apply (write_simulates L id origin O W _ ks key _ AnsKey (fun _ => create_prog key values) (create_result W L (ks_next ks) key values)); [done..| | |].
  - intros fuel _. by apply (runs_create W L (ks_next ks) Hinv).
  - unfold create_cells. by intros ->.
  - pose proof (shows_bound L W ks key Hs Hlen Hr) as Hb. unfold create_cells, create_result, accepted. unfold mbind, res_mbind.
    destruct (validate_cells L _) as [[]|e| |] eqn:Ev; [|done..].
    destruct (bound W key) as [i|] eqn:Eb; destruct (ks_records ks !! key) as [c|] eqn:Ec; [done|..].
    { exfalso. by destruct (proj1 Hb ltac:(by eexists)). }
    { exfalso. by destruct (proj2 Hb ltac:(by eexists)). }
    destruct (Z.ltb_spec (ks_next ks) (2 ^ 64 - 1)) as [Hlt|]; [|done]. cbn [is_ok matches]. split; [done|].
    pose proof (validated_names L values Some Ev) as Hnames. split; cbn [ks_next ks_records].
    + by apply created_inv.
    + intros key' Hlen' Hr'. rewrite (created_lookup_record W L (ks_next ks) Hinv key values) by done. case_bool_decide as E.
      * subst. by rewrite lookup_insert_eq.
      * rewrite lookup_insert_ne by done. by apply Hs.
    + apply fits_created; [apply Hs|done|]. intros name v Hn. by eapply (validate_cells_fits L _ values Some Ev); [..|eapply Hv].
Qed.

Lemma patch_simulated L id origin O W ks key changes : shows L W ks -> op_ok (OpPatch key changes) -> simulated L id origin O W ks (OpPatch key changes).
Proof using RL.
  intros Hs [Hlen Hv]. unfold simulated. cbn [ks_step].
  destruct (reserved_case key) as [[e Er]|[Er Hr]].
  { exists W. split; [|done]. apply (reserved_simulates L id origin O W ks key _ (fun _ => AnsUnit) (fun _ => patch_prog key changes) _ (OpPatch key changes) e); [done..| |done]. by rewrite Er. }
  exists (patch_working W L key changes). split; [|by apply (patch_same_roots W L (ks_next ks) key changes (sh_inv _ _ _ Hs))]. rewrite Er. pose proof (sh_inv _ _ _ Hs) as Hinv.
  apply (write_simulates L id origin O W _ ks key _ (fun _ => AnsUnit) (fun _ => patch_prog key changes) (patch_result W L key changes)); [done..| | |].
  - intros fuel _. by apply (runs_patch W L (ks_next ks) Hinv).
  - unfold patch_working. destruct (bound W key); [|done]. by intros ->.
  - pose proof (sh_records _ _ _ Hs key Hlen Hr) as Hrec. unfold patch_working, patch_result. unfold lookup_record in Hrec.
    destruct (bound W key) as [i|] eqn:Eb; rewrite <- Hrec; cbn [fmap option_fmap option_map ok_or]; [|done]. unfold mbind, res_mbind, accepted.
    destruct (validate_cells L _) as [[]|e| |] eqn:Ev; [|done..]. cbn [is_ok matches]. split; [done|].
    pose proof (validated_names L changes patch_value Ev) as Hnames. split; cbn [ks_next ks_records].
    + by apply (patched_inv W L (ks_next ks) Hinv key i).
    + intros key' Hlen' Hr'. rewrite (patched_lookup_record W L (ks_next ks) Hinv key i) by done. case_decide as E.
      * subst. rewrite lookup_insert_eq. unfold lookup_record. by rewrite Eb.
      * rewrite lookup_insert_ne by done. by apply Hs.
    + intros [rid name] v Hk. rewrite patch_all_lookup in Hk. cbn [ck_record_id ck_name] in Hk. case_bool_decide as Ei; [|by apply Hs].
      rewrite last_write_entries in Hk. destruct (changes !! name) as [c|] eqn:Ec; [|by apply Hs].
      eapply (validate_cells_fits L _ changes patch_value Ev); [done..|]. destruct c; [|done]. injection Hk as ->. by eapply Hv.
Qed.

Lemma delete_simulated L id origin O W ks key : shows L W ks -> op_ok (OpDelete key) -> simulated L id origin O W ks (OpDelete key).
Proof using RL.
  intros Hs Hlen. cbn in Hlen. unfold simulated. cbn [ks_step].
  destruct (reserved_case key) as [[e Er]|[Er Hr]].
  { exists W. split; [|done]. apply (reserved_simulates L id origin O W ks key _ (fun _ => AnsUnit) (fun fuel => delete_prog fuel key) _ (OpDelete key) e); [done..| |done]. by rewrite Er. }
  exists (delete_working W key). split; [|by apply (delete_same_roots W L (ks_next ks) key (sh_inv _ _ _ Hs))]. rewrite Er. pose proof (sh_inv _ _ _ Hs) as Hinv.
  apply (write_simulates L id origin O W _ ks key _ (fun _ => AnsUnit) (fun fuel => delete_prog fuel key) (delete_result W key)); [done..| | |].
  - intros fuel Hf. by apply (runs_delete_prog W L (ks_next ks) Hinv).
  - unfold delete_working, delete_result. by destruct (bound W key).
  - pose proof (sh_records _ _ _ Hs key Hlen Hr) as Hrec. unfold delete_working, delete_result. unfold lookup_record in Hrec.
    destruct (bound W key) as [i|] eqn:Eb; rewrite <- Hrec; [|done]. split; [done|]. split; cbn [ks_next ks_records].
    + by apply (deleted_inv W L (ks_next ks) Hinv key i).
    + intros key' Hlen' Hr'. rewrite (deleted_lookup_record W L (ks_next ks) Hinv key i) by done. case_decide as E.
      * subst. by rewrite lookup_delete_eq.
      * rewrite lookup_delete_ne by done. by apply Hs.
    + intros k v (_ & _ & Hk)%deleted_some. by apply Hs.
Qed.

Lemma call_simulated L id origin O W ks op : shows L W ks -> op_ok op -> simulated L id origin O W ks op.
Proof using RL.
  destruct op; [apply get_simulated|apply create_simulated|apply patch_simulated|apply delete_simulated].
Qed.

(** Any sequence of calls, with fuel past the cells each of them meets. *)
Lemma calls_simulated L id origin O ops W ks : shows L W ks -> Forall op_ok ops ->
  exists f0 W', shows L W' (run_calls (ks_step L) ops ks).2 /\ same_roots W W' /\
    forall fuel db, (f0 <= fuel)%nat -> branch_shows db id origin O W ->
      exists db', run_calls (rec_call fuel id) ops db = ((run_calls (ks_step L) ops ks).1, db') /\ branch_shows db' id origin O W' /\ db_store db' = db_store db.
Proof using RL.
  revert W ks. induction ops as [|op ops IH]; intros W ks Hs Hok.
  - exists 0%nat, W. split; [done|]. split; [done|]. intros fuel db _ Hb. by exists db.
  - apply Forall_cons in Hok as [Hop Hok]. destruct (call_simulated L id origin O W ks op Hs Hop) as (W1 & [Hs1 Hsim] & Hr1).
    cbn [run_calls]. destruct (ks_step L op ks) as [r ks1]. cbn [fst snd] in *. destruct (IH W1 ks1 Hs1 Hok) as (f1 & W' & Hs' & Hr' & Hrest).
    destruct (run_calls (ks_step L) ops ks1) as [rs ks']. cbn [fst snd] in *.
    exists (Nat.max (Datatypes.S (size W)) f1), W'. split; [done|]. split; [intros k Hk; by rewrite Hr', Hr1|]. intros fuel db Hf Hb.
    destruct (Hsim fuel db ltac:(lia) Hb) as (db1 & E1 & Hb1 & Hs1'). destruct (Hrest fuel db1 ltac:(lia) Hb1) as (db' & E' & Hb' & Hs2).
    exists db'. rewrite E1, E'. split; [done|]. split; [done|congruence].
Qed.
End Facade.
