(* ===== verification/History.v ===== *)
(** The records of one branch through calls, checkpoints and rollbacks.

    A [History] keeps whole keyed stores where the branch keeps an overlay and an
    undo journal: the present one, those its frames started with, and whether the
    last frame was just rolled back. [tracks] relates the two; record calls,
    checkpoints and rollbacks of the branch follow the history's. *)
From Stdlib Require Import ZArith Lia.
From S2P Require Import Prelude Ordered Storage Scan CellTypes CellValue CellName MerkleNode MerkleTrie.
From S2P Require Import BranchTypes CellScan Overlay Cells Buffer Term Bitmap Index Seal Branches Records RecordsSpec CommittedSpec Query QuerySpec Genesis GenesisSpec Limits KeyedStore.

#[local] Open Scope Z_scope.

(** * The abstract history *)

#[global] Instance KeyedStore_eq_dec : EqDecision KeyedStore.
Proof. solve_decision. Defined.

Record History := { hs_now : KeyedStore; hs_starts : list KeyedStore; hs_consumed : bool }.

Definition History_new (ks : KeyedStore) : History := {| hs_now := ks; hs_starts := [ks]; hs_consumed := false |}.

(** A checkpoint right after a rollback reuses the frame it returned to. *)
Definition History_checkpoint (h : History) : History :=
  {| hs_now := hs_now h; hs_starts := if hs_consumed h then hs_starts h else hs_now h :: hs_starts h; hs_consumed := false |}.

Definition History_rollback (h : History) : res BranchError unit * History :=
  match (if hs_consumed h then tail (hs_starts h) else hs_starts h) with
  | [] => (Err NoFrameToRollback, h)
  | start :: rest => (Ok (), {| hs_now := start; hs_starts := start :: rest; hs_consumed := true |})
  end.

(** A call that changes the records also ends the rolled-back state. *)
Definition History_call (L : CellLimits) (op : Call) (h : History) : res RecordError Answer * History :=
  let '(r, ks) := ks_step L op (hs_now h) in
  (r, {| hs_now := ks; hs_starts := hs_starts h; hs_consumed := hs_consumed h && bool_decide (ks = hs_now h) |}).

(** ** User keys *)

Definition user_keys (ks : KeyedStore) : Prop := forall key, is_Some (ks_records ks !! key) -> length key = 32%nat /\ by_key key = None.

Lemma no_records_keys : user_keys no_records.
Proof. intros key [v Hk]. cbn in Hk. by rewrite lookup_empty in Hk. Qed.

Lemma guarded_keys answer ks checked : user_keys ks -> (forall ks', checked = Ok ks' -> user_keys ks') -> user_keys (guarded answer ks checked).2.
Proof. intros Hk Hc. destruct checked; cbn; auto. Qed.

Lemma step_user_keys L op ks : op_ok op -> user_keys ks -> user_keys (ks_step L op ks).2.
Proof.
  intros Hok Hk. destruct op as [key names|key values|key changes|key]; cbn [ks_step]; [done|..]; apply guarded_keys; try done; intros ks';
    unfold reject_reserved; destruct (by_key key) eqn:Er; try done; unfold mbind, res_mbind.
  - destruct (accepted L Some values); [|done..]. destruct (ks_records ks !! key); [done|]. destruct (_ <? _); [|done]. intros [= <-] key'. cbn.
    rewrite lookup_insert_is_Some. intros [<-|[_ Hs]]; [by split; [apply Hok|]|by apply Hk].
  - destruct (ks_records ks !! key) eqn:E; [|done]. cbn [ok_or]. destruct (accepted L patch_value changes); [|done..]. intros [= <-] key'. cbn.
    rewrite lookup_insert_is_Some. intros [<-|[_ Hs]]; [by split; [apply Hok|]|by apply Hk].
  - destruct (ks_records ks !! key) eqn:E; [|done]. cbn [ok_or]. intros [= <-] key'. cbn. rewrite lookup_delete_is_Some. intros [_ Hs]. by apply Hk.
Qed.

(** Working cells show at most one keyed store. *)
Lemma shows_unique L W ks ks' : shows L W ks -> shows L W ks' -> user_keys ks -> user_keys ks' -> ks = ks'.
Proof.
  intros [Hi Hr _] [Hi' Hr' _] Hk Hk'. destruct ks as [n m], ks' as [n' m']. cbn in *. f_equal.
  - pose proof (inv_next _ _ _ Hi) as R. pose proof (inv_next _ _ _ Hi') as R'. apply from_u64_inj; [apply uint8_lt; unfold FIRST_USER_RECORD_ID in *; lia..|].
    apply (inj Some). by rewrite <- (inv_alloc _ _ _ Hi), <- (inv_alloc _ _ _ Hi').
  - apply map_eq. intros key. destruct (m !! key) as [c|] eqn:E.
    + destruct (Hk key) as [Hl Hu]; [by eexists|]. by rewrite <- (Hr' key Hl Hu), (Hr key Hl Hu).
    + destruct (m' !! key) as [c'|] eqn:E'; [|done]. destruct (Hk' key) as [Hl Hu]; [by eexists|]. by rewrite <- E', <- E, <- (Hr key Hl Hu), (Hr' key Hl Hu).
Qed.

(** * The staged entries and a history *)

(** Over the committed cells [O], entries show a keyed store. *)
Record entries_show (L : CellLimits) (O : Working) (e : Entries) (ks : KeyedStore) : Prop := {
  es_staged : staged_wf {| ov_entries := e; ov_journal := Journal_default |};
  es_shows : shows L (working O e) ks;
  es_roots : same_roots O (working O e);
  es_keys : user_keys ks
}.

Definition tracks (L : CellLimits) (O : Working) (o : CellOverlay) (h : History) : Prop := exists f,
  ov_rel o f /\ entries_show L O (fr_now f) (hs_now h) /\ Forall2 (entries_show L O) (fr_starts f) (hs_starts h) /\ fr_consumed f = hs_consumed h.

Section Tracks.
Context (L : CellLimits) (O : Working).

Lemma working_empty : working O ∅ = O.
Proof using. apply map_eq. intros k. by rewrite lookup_working, lookup_empty. Qed.

Lemma entries_show_none ks : shows L O ks -> user_keys ks -> entries_show L O ∅ ks.
Proof using.
  intros Hs Hk. split; [|by rewrite working_empty|by rewrite working_empty|done]. intros k v Hv. cbn in Hv. by rewrite lookup_empty in Hv.
Qed.

Lemma tracks_new ks : shows L O ks -> user_keys ks -> tracks L O CellOverlay_new (History_new ks).
Proof using. intros Hs Hk. exists Frames_new. split_and!; [apply ov_rel_new|by apply entries_show_none| |done]. constructor; [by apply entries_show_none|constructor]. Qed.

Lemma tracks_now o h : tracks L O o h -> entries_show L O (ov_entries o) (hs_now h).
Proof using. intros (f & Hr & Hn & _). by rewrite (rel_now _ _ Hr). Qed.

Lemma tracks_over o h : tracks L O o h -> over O o (working O (ov_entries o)).
Proof using. intros Ht. split; [|done]. exact (es_staged _ _ _ _ (tracks_now o h Ht)). Qed.

Lemma tracks_flag o h : tracks L O o h -> j_rolled_back (ov_journal o) = hs_consumed h.
Proof using. intros (f & Hr & _ & _ & <-). apply Hr. Qed.

Lemma tracks_checkpoint o h : tracks L O o h -> tracks L O (CellOverlay_checkpoint o) (History_checkpoint h).
Proof using.
  intros (f & Hr & Hn & Hst & Hc). exists (Frames_checkpoint f). split_and!; [by apply ov_rel_checkpoint|done| |done].
  cbn. rewrite Hc. destruct (hs_consumed h); [done|by constructor].
Qed.

Lemma tracks_rollback o h : tracks L O o h ->
  (CellOverlay_rollback o).1 = (History_rollback h).1 /\ tracks L O (CellOverlay_rollback o).2 (History_rollback h).2.
Proof using.
  intros (f & Hr & Hn & Hst & Hc). destruct (ov_rel_rollback o f Hr) as [-> Hr']. unfold Frames_rollback, History_rollback in *. rewrite Hc in *.
  assert (Forall2 (entries_show L O) (if hs_consumed h then tail (fr_starts f) else fr_starts f) (if hs_consumed h then tail (hs_starts h) else hs_starts h)) as Hrest
    by (destruct (hs_consumed h); [by destruct Hst|done]).
  destruct Hrest as [|start start' rest rest' Hs Hrest]; cbn [fst snd] in *; (split; [done|]); [by exists f|].
  eexists. split; [exact Hr'|]. split; [exact Hs|]. split; [by constructor|done].
Qed.

(** A group of writes: the entries below the frames' marks are kept. *)
Lemma tracks_write o o' h ks : tracks L O o h -> extends o o' -> entries_show L O (ov_entries o') ks ->
  j_rolled_back (ov_journal o') = hs_consumed h && bool_decide (ks = hs_now h) ->
  tracks L O o' {| hs_now := ks; hs_starts := hs_starts h; hs_consumed := hs_consumed h && bool_decide (ks = hs_now h) |}.
Proof using.
  intros (f & Hr & Hn & Hst & Hc) Hx Hs Hf. exists {| fr_now := ov_entries o'; fr_starts := fr_starts f; fr_consumed := j_rolled_back (ov_journal o') |}.
  split_and!; [by eapply ov_rel_extends|done|done|done].
Qed.
End Tracks.

(** * What a program does to the journal *)

Section Quiet.
Context {T : Type} `{ReadTransaction T}.

(** A write ends the rolled-back state for good. *)
Lemma run_awake {E A} (origin : T) (p : CellProg T E A) o : j_rolled_back (ov_journal o) = false ->
  j_rolled_back (ov_journal (run_prog origin p o).2) = false.
Proof using.
  revert o. induction p as [a|e| | |key k IH|prefix k IH|key value k IH|key k IH]; intros o Ho; cbn [run_prog]; auto;
    apply IH; unfold CellWrite_put, CellWrite_delete, CellWrite_set, Journal_record; by case_bool_decide.
Qed.

(** A run that leaves the rolled-back state wrote nothing. *)
Lemma run_quiet {E A} (origin : T) (p : CellProg T E A) o : j_rolled_back (ov_journal (run_prog origin p o).2) = true -> (run_prog origin p o).2 = o.
Proof using.
  revert o. induction p as [a|e| | |key k IH|prefix k IH|key value k IH|key k IH]; intros o Ho; cbn [run_prog] in *; auto;
    exfalso; revert Ho; rewrite run_awake; try done; unfold CellWrite_put, CellWrite_delete, CellWrite_set, Journal_record; by case_bool_decide.
Qed.

Lemma write_undone {E A} (origin : T) (p : CellProg T E A) o : is_ok (CellOverlay_write origin p o).1 = false -> (CellOverlay_write origin p o).2 = o.
Proof using.
  intros Hw. rewrite (write_failed origin p o); [done|]. revert Hw. unfold CellOverlay_write. by destruct (run_prog origin p o) as [[] ?].
Qed.

Lemma write_extends {E A} (origin : T) (p : CellProg T E A) o : extends o (CellOverlay_write origin p o).2.
Proof using.
  destruct (is_ok (CellOverlay_write origin p o).1) eqn:Eok; [|by rewrite write_undone]. revert Eok. unfold CellOverlay_write.
  pose proof (run_extends origin p o) as Hx. destruct (run_prog origin p o) as [[] ?]; try done; by destruct (Journal_rewind _ _ _).
Qed.

Definition readonly {E A} (p : CellProg T E A) : Prop := forall origin o, (run_prog origin p o).2 = o.

Lemma readonly_res {E A} (r : res E A) : readonly (prog_res r).
Proof using. intros origin o. by destruct r. Qed.
Lemma readonly_get key : readonly (get_cell key).
Proof using. intros origin o. apply readonly_res. Qed.
Lemma readonly_bind {E A B} (p : CellProg T E A) (f : A -> CellProg T E B) : readonly p -> (forall a, readonly (f a)) -> readonly (p ≫= f).
Proof using.
  intros Hp Hf origin o. unfold mbind, prog_mbind. rewrite run_bind. specialize (Hp origin o). destruct (run_prog origin p o) as [[a|e| |] o']; cbn [snd] in *; subst; [|done..].
  apply Hf.
Qed.
Lemma readonly_resolve key : readonly (resolve key).
Proof using.
  apply readonly_bind; [apply readonly_get|]. intros value. apply readonly_bind; [apply readonly_res|]. intros [id|]; [|by intros origin o].
  apply readonly_bind; [apply readonly_get|]. intros v. apply readonly_bind; [apply readonly_res|]. by intros [] origin o.
Qed.
Lemma readonly_limit name : readonly (read_limit name).
Proof using. apply readonly_bind; [apply readonly_get|]. intros v. apply readonly_res. Qed.
Lemma readonly_limits : readonly limits.
Proof using. do 3 (apply readonly_bind; [apply readonly_limit|intros ?]). by intros origin o. Qed.

(** A program after a read-only one starts where that one did. *)
Lemma run_after {E A B} (p : CellProg T E A) (f : A -> CellProg T E B) (origin : T) o : readonly p ->
  run_prog origin (p ≫= f) o = match (run_prog origin p o).1 with
    | Ok a => run_prog origin (f a) o
    | Err e => (Err e, o)
    | Panic => (Panic, o)
    | Diverge => (Diverge, o)
    end.
Proof using.
  intros Hp. unfold mbind, prog_mbind. rewrite run_bind. specialize (Hp origin o). destruct (run_prog origin p o) as [[] o']; cbn [fst snd] in *; by subst.
Qed.
End Quiet.

Section Effects.
Context {T : Type} `{RL : ReadLaws T}.
Context (origin : T) (O : Working) (o : CellOverlay) (W : Working).
Hypothesis Hd : decoded (view origin CELL) O.
Hypothesis Ho : over O o W.

Lemma run_get key : CellKey_wf key -> run_prog origin (get_cell key) o = (Ok (W !! key), o).
Proof using All. intros Hk. cbn [get_cell run_prog]. rewrite (overlay_get_ok origin O o key Hd Hk). by destruct Ho as [_ ->]. Qed.

(** Changes that change no cell write nothing. *)
Lemma patch_cells_quiet id changes : uint_range 8 id ->
  Forall (fun c => W !! {| ck_record_id := id; ck_name := c.1 |} = patch_value c.2) changes -> run_prog origin (patch_cells id changes) o = (Ok (), o).
Proof using All.
  intros Hid. induction 1 as [|[name c] changes Hc _ IH]; [done|]. cbn [patch_cells fst snd] in *.
  rewrite run_after by apply readonly_get. rewrite (run_get {| ck_record_id := id; ck_name := name |}) by done. cbn [fst].
  destruct c as [v|]; cbn [patch_value] in Hc; rewrite Hc; [rewrite bool_decide_true by done|]; exact IH.
Qed.

Lemma run_scan fuel id : (size W < fuel)%nat -> run_prog origin (scan_cells fuel (be_encode 8 id)) o = (Ok (cells_under (be_encode 8 id) W), o).
Proof using All.
  intros Hf. destruct (over_scan origin O o W (be_encode 8 id) Hd Ho) as (s & Es & Hs). pose proof (cells_under_size W id) as Hsize.
  unfold scan_cells. cbn [run_prog]. rewrite Es. unfold mbind, res_mbind. rewrite Hs by lia. done.
Qed.

(** Deletion does not depend on the fuel of its scan. *)
Lemma delete_fuel key fuel fuel' : (size W < fuel)%nat -> (size W < fuel')%nat ->
  run_prog origin (delete_prog fuel key) o = run_prog origin (delete_prog fuel' key) o.
Proof using All.
  intros Hf Hf'. unfold delete_prog. rewrite !run_after by apply readonly_resolve. destruct (run_prog origin (resolve key) o).1 as [[id|]| | |]; [|done..].
  rewrite !run_after by apply readonly_res. cbn [ok_or prog_res run_prog fst]. unfold mbind, prog_mbind. rewrite !run_bind, !run_scan by done. done.
Qed.
End Effects.

(** A patch that leaves its record as it is writes nothing. *)
Lemma patch_prog_quiet {T} `{RL : ReadLaws T} (origin : T) O o W L ks key changes cells : decoded (view origin CELL) O -> over O o W -> shows L W ks ->
  length key = 32%nat -> by_key key = None -> ks_records ks !! key = Some cells -> patched changes cells = cells ->
  (run_prog origin (patch_prog key changes) o).2 = o.
Proof.
  intros Hd Ho Hs Hlen Hu Hc Hp. pose proof (sh_inv _ _ _ Hs) as Hinv. unfold patch_prog. rewrite run_after by apply readonly_resolve.
  destruct (runs_resolve W L (ks_next ks) Hinv key Hlen origin O o Hd Ho) as (o1 & -> & _). cbn [fst].
  rewrite <- (sh_records _ _ _ Hs key Hlen Hu) in Hc. unfold lookup_record in Hc. destruct (bound W key) as [id|] eqn:Eb; [|done].
  apply (inj Some) in Hc. destruct (bound_range W L (ks_next ks) Hinv key id Hlen Eb) as [Hid _].
  rewrite run_after by apply readonly_res. cbn [ok_or prog_res run_prog fst]. rewrite run_after by apply readonly_limits.
  destruct (run_prog origin limits o).1 as [lim| | |]; [|done..]. rewrite run_after by apply readonly_res.
  destruct (run_prog origin _ o).1; [|done..]. rewrite (patch_cells_quiet origin O o W Hd Ho); [done..|].
  apply Forall_forall. intros [name c] Hin%elem_of_entries. cbn [fst snd]. rewrite <- (record_at_lookup W id name (inv_keys _ _ _ Hinv) Hid), Hc, <- Hp, patched_lookup.
  by rewrite Hin.
Qed.

(** * Calls on a live branch *)

Definition call_key (op : Call) : RecordKey :=
  match op with OpGet key _ | OpCreate key _ | OpPatch key _ | OpDelete key => key end.
Definition changing (op : Call) : bool := match op with OpGet _ _ => false | _ => true end.

(** Successful changes that leave the records as they are *)
Lemma step_unchanged L op ks a : changing op = true -> ks_step L op ks = (Ok a, ks) ->
  exists key changes cells, op = OpPatch key changes /\ by_key key = None /\ ks_records ks !! key = Some cells /\ patched changes cells = cells.
Proof.
  destruct op as [key names|key values|key changes|key]; [done|..]; intros _; cbn [ks_step]; unfold reject_reserved;
    destruct (by_key key) eqn:Er; try done; unfold mbind, res_mbind.
  - destruct (accepted L Some values); [|done..]. destruct (ks_records ks !! key); [done|]. destruct (_ <? _); [|done]. cbn [guarded]. intros [= _ E].
    apply (f_equal ks_next) in E. cbn in E. lia.
  - destruct (ks_records ks !! key) as [cells|] eqn:E; [|done]. cbn [ok_or]. destruct (accepted L patch_value changes); [|done..]. cbn [guarded]. intros [= _ Ek].
    exists key, changes, cells. split_and!; try done. apply (f_equal (fun ks => ks_records ks !! key)) in Ek. cbn in Ek. rewrite lookup_insert_eq in Ek. congruence.
  - destruct (ks_records ks !! key) as [cells|] eqn:E; [|done]. cbn [ok_or guarded]. intros [= _ Ek].
    apply (f_equal (fun ks => ks_records ks !! key)) in Ek. cbn in Ek. rewrite lookup_delete_eq in Ek. congruence.
Qed.

Lemma step_failed L op ks : is_ok (ks_step L op ks).1 = false -> (ks_step L op ks).2 = ks.
Proof. destruct op as [key names| | |]; cbn [ks_step]; [done|..]; match goal with |- context [guarded _ _ ?c] => destruct c end; done. Qed.

Section Calls.
Context `{Roaring} `{HashProvider} {S T : Type} `{WT : WriteTransaction T} {RL : ReadLaws T} `{ST : !Store S T}.

(** The write group of a call. *)
Definition call_prog (fuel : nat) (op : Call) : CellProg T RecordError Answer :=
  match op with
  | OpGet key names => record ← read_branch_record fuel key names; mret (AnsRecord record)
  | OpCreate key values => key ← create_prog key values; mret (AnsKey key)
  | OpPatch key changes => _ ← patch_prog key changes; mret AnsUnit
  | OpDelete key => _ ← delete_prog fuel key; mret AnsUnit
  end.

Lemma run_map {A B} (f : A -> B) (p : CellProg T RecordError A) (origin : T) o :
  run_prog origin (a ← p; mret (f a)) o = (a ← (run_prog origin p o).1; Ok (f a), (run_prog origin p o).2).
Proof using. unfold mbind at 1, prog_mbind at 1. rewrite run_bind. by destruct (run_prog origin p o) as [[] o']. Qed.

Lemma write_map {A B} (f : A -> B) (p : CellProg T RecordError A) (origin : T) o :
  CellOverlay_write origin (a ← p; mret (f a)) o = (a ← (CellOverlay_write origin p o).1; Ok (f a), (CellOverlay_write origin p o).2).
Proof using.
  unfold CellOverlay_write. rewrite run_map. destruct (run_prog origin p o) as [[a|e| |] o']; cbn [fst snd mbind res_mbind]; [done|..]; by destruct (Journal_rewind _ _ _).
Qed.

(** A group on an open branch *)
Lemma db_write_live {E A} id (p : CellProg T E A) (db : Db S) st origin : live db id st origin -> bs_sealed st = None ->
  db_write id p db = (map_err OE_Operation (CellOverlay_write origin p (bs_overlay st)).1, set_slot id (Some (set_overlay (CellOverlay_write origin p (bs_overlay st)).2 st)) db).
Proof using.
  intros Hl Hs. unfold db_write. rewrite (with_branch_live _ id _ db st origin Hl). unfold require_open. rewrite Hs. by destruct (CellOverlay_write _ _ _).
Qed.

Lemma rec_call_write fuel id op (db : Db S) st origin : live db id st origin -> bs_sealed st = None -> changing op = true -> reject_reserved (call_key op) = Ok () ->
  rec_call fuel id op db = ((CellOverlay_write origin (call_prog fuel op) (bs_overlay st)).1,
    set_slot id (Some (set_overlay (CellOverlay_write origin (call_prog fuel op) (bs_overlay st)).2 st)) db).
Proof using.
  intros Hl Hs Hop Hk. destruct op as [key names|key values|key changes|key]; [done|..]; cbn [rec_call call_prog call_key] in *;
    unfold Records_create, Records_patch, Records_delete; rewrite Hk, write_map; unfold mbind, stres_mbind, lift_res, st_map_err;
    rewrite (db_write_live id _ db st origin Hl Hs); by destruct (CellOverlay_write origin _ (bs_overlay st)) as [[] o'].
Qed.

Lemma rec_call_reserved fuel id op (db : Db S) e : changing op = true -> reject_reserved (call_key op) = Err e -> rec_call fuel id op db = (Err e, db).
Proof using.
  intros Hop Hk. destruct op; [done|..]; cbn [rec_call call_key] in *; unfold Records_create, Records_patch, Records_delete; by rewrite Hk.
Qed.

Lemma step_reserved L op ks e : changing op = true -> reject_reserved (call_key op) = Err e -> ks_step L op ks = (Err e, ks).
Proof using. intros Hop Hk. destruct op; [done|..]; cbn [ks_step call_key] in *; by rewrite Hk. Qed.

Lemma set_overlay_same st : set_overlay (bs_overlay st) st = st.
Proof using. by destruct st. Qed.

(** ** One call *)

Section Tracked.
Context (L : CellLimits) (id : BranchId) (op : Call) (db : Db S) (st : BranchState) (origin : T) (O : Working) (h : History).
Hypothesis Hlive : live db id st origin.
Hypothesis Hopen : bs_sealed st = None.
Hypothesis Hd : decoded (view origin CELL) O.
Hypothesis Ht : tracks L O (bs_overlay st) h.
Hypothesis Hop : op_ok op.
Abbreviation o := (bs_overlay st).
Abbreviation W := (working O (ov_entries o)).
Abbreviation wrote fuel := (CellOverlay_write origin (call_prog fuel op) o).

Lemma write_fuel fuel fuel' : changing op = true -> (size W < fuel)%nat -> (size W < fuel')%nat -> wrote fuel = wrote fuel'.
Proof using Ht RL Hd.
  clear Hop. destruct op as [key names|key values|key changes|key]; [done..|]. intros _ Hf Hf'. cbn [call_prog]. rewrite !write_map. unfold CellOverlay_write.
  by rewrite (delete_fuel origin O o W Hd (tracks_over L O o h Ht) key fuel fuel').
Qed.

(** The flag after a successful group, and the records it leaves *)
Lemma write_flag fuel W' a ks' : changing op = true -> reject_reserved (call_key op) = Ok () -> ks_step L op (hs_now h) = (Ok a, ks') ->
  (wrote fuel).1 = Ok a -> over O (wrote fuel).2 W' -> shows L W' ks' -> user_keys ks' ->
  j_rolled_back (ov_journal (wrote fuel).2) = hs_consumed h && bool_decide (ks' = hs_now h).
Proof using Hd Hop Ht RL.
  intros Hc Hk Estep Hok Hover Hs' Hu'. destruct (tracks_now L O o h Ht) as [_ Hs _ Hu].
  assert ((wrote fuel).2 = (run_prog origin (call_prog fuel op) o).2) as Erun by (revert Hok; unfold CellOverlay_write; by destruct (run_prog origin _ o) as [[] ?]; try destruct (Journal_rewind _ _ _)).
  destruct (j_rolled_back (ov_journal (wrote fuel).2)) eqn:Ef.
  - rewrite Erun in Ef. pose proof (run_quiet origin _ o Ef) as Eq. rewrite Eq in Ef. rewrite (tracks_flag L O o h Ht) in Ef. rewrite Ef.
    symmetry. apply bool_decide_eq_true. rewrite Erun, Eq in Hover. destruct Hover as [_ <-]. by eapply shows_unique.
  - destruct (hs_consumed h) eqn:Ec; [|done]. symmetry. apply bool_decide_eq_false. intros ->. apply step_unchanged in Estep as (key & changes & cells & E & Hr & Hcells & Hp); [|done].
    rewrite Erun in Ef. revert Hop Ef. rewrite E. intros [Hlen _]. cbn [call_prog]. rewrite run_map. cbn [snd].
    rewrite (patch_prog_quiet origin O o W L (hs_now h) key changes cells Hd (tracks_over L O o h Ht) Hs Hlen Hr Hcells Hp).
    rewrite (tracks_flag L O o h Ht), Ec. done.
Qed.
(** A call that changes nothing *)
Lemma call_still f0 r : (forall fuel, (f0 <= fuel)%nat -> rec_call fuel id op db = (r, db)) -> ks_step L op (hs_now h) = (r, hs_now h) ->
  exists f0 o', tracks L O o' (History_call L op h).2 /\
    forall fuel, (f0 <= fuel)%nat -> rec_call fuel id op db = ((History_call L op h).1, set_slot id (Some (set_overlay o' st)) db).
Proof using Hlive Ht.
  intros Hr Estep. exists f0, o. unfold History_call. rewrite Estep. cbn [fst snd]. rewrite bool_decide_true, andb_true_r by done. split; [by destruct h|].
  intros fuel Hf. rewrite set_overlay_same, set_slot_same by apply Hlive. by apply Hr.
Qed.

(** A call follows the history's, with fuel past the branch's cells. *)
Lemma call_tracks : exists f0 o', tracks L O o' (History_call L op h).2 /\
  forall fuel, (f0 <= fuel)%nat -> rec_call fuel id op db = ((History_call L op h).1, set_slot id (Some (set_overlay o' st)) db).
Proof using All.
  destruct (tracks_now L O o h Ht) as [_ Hs Hro Hu]. pose proof (tracks_over L O o h Ht) as Ho. destruct (changing op) eqn:Ec.
  2: { apply (call_still (Datatypes.S (size W)) (ks_step L op (hs_now h)).1); [intros fuel Hf|]; destruct op as [key names| | |]; try done. by eapply get_live. }
  destruct (reserved_case (call_key op)) as [[e Er]|[Er _]].
  { apply (call_still 0%nat (Err e)); [intros fuel _; by apply rec_call_reserved|by apply step_reserved]. }
  destruct (call_simulated L id origin O W (hs_now h) op Hs Hop) as (W' & [Hs' Hsim] & Hro'). set (f0 := Datatypes.S (size W)).
  destruct (Hsim f0 db ltac:(lia)) as (db' & Ecall & (st' & (Hid' & _) & _ & _ & Ho') & _); [by exists st|].
  assert (Hcall : forall fuel, (f0 <= fuel)%nat -> rec_call fuel id op db = ((wrote f0).1, set_slot id (Some (set_overlay (wrote f0).2 st)) db)).
  { intros fuel Hf. rewrite (rec_call_write fuel id op db st origin Hlive Hopen Ec Er). by rewrite (write_fuel fuel f0 Ec) by lia. }
  rewrite (Hcall f0 ltac:(lia)) in Ecall. injection Ecall as Eres <-. cbn in Hid'. rewrite lookup_alter_eq, (proj1 Hlive) in Hid'. injection Hid' as <-. cbn [bs_overlay set_overlay] in Ho'.
  exists f0, (wrote f0).2. unfold History_call. pose proof (step_user_keys L op (hs_now h) Hop Hu) as Hu'. pose proof (step_failed L op (hs_now h)) as Hfail.
  destruct (ks_step L op (hs_now h)) as [r ks'] eqn:Estep. cbn [fst snd] in *. rewrite <- Eres. split; [|exact Hcall].
  apply (tracks_write L O o); [done|apply write_extends| |].
  - destruct Ho' as [Hst' E]. rewrite <- E in Hs', Hro'. split; [exact Hst'|done| |done]. intros k Hk. by rewrite (Hro' k Hk), (Hro k Hk).
  - destruct (is_ok r) eqn:Eok; [destruct r as [a| | |]; [|done..]; by eapply write_flag|].
    rewrite write_undone, Hfail, bool_decide_true, andb_true_r by congruence. by apply (tracks_flag L O o h).
Qed.
End Tracked.
End Calls.
