(* ===== verification/Selection.v ===== *)
(** Queries as selections of records: what a filter means for a keyed store.

    crates/query answers with record IDs out of the index; a client sees keys
    and records. [selected] is the part of a keyed store whose records own a cell
    the filter selects, and the page and the count of a store that shows a keyed
    store are that part and its size. *)
From Stdlib Require Import ZArith Lia.
From S2P Require Import Prelude Ordered Storage Scan CellTypes CellValue CellName MerkleNode MerkleTrie.
From S2P Require Import BranchTypes CellScan Overlay Cells Buffer Term Bitmap Index Seal CellIndex Branches Records RecordsSpec CommittedSpec Query QuerySpec Genesis GenesisSpec Limits KeyedStore History.

#[local] Open Scope Z_scope.

(** A record owns a cell that the filter selects; addresses play no part. *)
Definition record_matches (f : Filter) (cells : RecordCells) : bool :=
  existsb (fun '(name, v) => cell_matches f {| ck_record_id := 0; ck_name := name |} v) (map_to_list cells).

Definition selected (ks : KeyedStore) (f : Filter) : gmap RecordKey RecordCells := filter (fun kv => record_matches f kv.2 = true) (ks_records ks).

(** The records of a page by key. *)
Definition by_record_key (records : list Record_) : gmap RecordKey RecordCells := list_to_map ((fun r => (rec_key r, rec_cells r)) <$> records).

Lemma filter_any_id f id id' name v : cell_matches f {| ck_record_id := id; ck_name := name |} v = cell_matches f {| ck_record_id := id'; ck_name := name |} v.
Proof. by destruct f. Qed.

Lemma record_matches_some f cells : record_matches f cells = true <->
  exists name v, cells !! name = Some v /\ cell_matches f {| ck_record_id := 0; ck_name := name |} v = true.
Proof.
  unfold record_matches. rewrite existsb_exists. split.
  - intros ([name v] & Hin%list_elem_of_In%elem_of_map_to_list & Hm). by exists name, v.
  - intros (name & v & Hv & Hm). exists (name, v). split; [by apply list_elem_of_In, elem_of_map_to_list|done].
Qed.

Section Selected.
Context (L : CellLimits) (W : Working) (ks : KeyedStore).
Hypothesis Hs : shows L W ks.
Hypothesis Hk : user_keys ks.

Lemma record_at_matches f id : uint_range 8 id -> record_matches f (record_at W id) = true <-> id ∈ matching W f.
Proof using Hs.
  intros Hid. pose proof (inv_keys _ _ _ (sh_inv _ _ _ Hs)) as Hw. rewrite record_matches_some, elem_of_matching. split.
  - intros (name & v & Hv & Hm). rewrite record_at_lookup in Hv by done. eexists _, v. split; [exact Hv|]. by rewrite (filter_any_id f id 0).
  - intros ([rid name] & v & Hv & Hm & E). cbn in E. subst rid. exists name, v. split; [by rewrite record_at_lookup|]. by rewrite (filter_any_id f 0 id).
Qed.

(** Selected records and their IDs *)
Lemma selected_id f key cells : selected ks f !! key = Some cells <-> exists id, id ∈ matching W f /\ key_of W id = key /\ cells = record_at W id.
Proof using Hs Hk.
  pose proof (sh_inv _ _ _ Hs) as Hinv. unfold selected. rewrite map_lookup_filter_Some. cbn [snd]. split.
  - intros [Hc Hm]. destruct (Hk key) as [Hl Hu]; [by eexists|]. rewrite <- (sh_records _ _ _ Hs key Hl Hu) in Hc. unfold lookup_record in Hc.
    destruct (bound W key) as [id|] eqn:Eb; [|done]. injection Hc as <-. destruct (bound_user W L _ Hinv key id Hl Hu Eb) as (Hr & _ & _ & _ & Hi).
    exists id. split; [by apply record_at_matches|]. split; [by apply key_of_identity|done].
  - intros (id & Hin & <- & ->). destruct (matching_record W L _ Hinv f id Hin) as (key & Hl & Hu & Hr & Hb & Hi). rewrite (key_of_identity W id key Hi).
    split; [|by apply record_at_matches]. rewrite <- (sh_records _ _ _ Hs key Hl Hu). unfold lookup_record. by rewrite Hb.
Qed.

(** Different records of a page have different keys. *)
Lemma page_keys f : NoDup (key_of W <$> roaring_iter (matching W f)).
Proof using Hs.
  unfold roaring_iter. apply NoDup_fmap_2_strong; [|rewrite merge_sort_Permutation; apply NoDup_elements].
  intros i j Hi Hj E. rewrite merge_sort_Permutation in Hi, Hj. apply elem_of_elements in Hi, Hj.
  destruct (matching_record W L _ (sh_inv _ _ _ Hs) f i Hi) as (key & _ & _ & _ & Hb & Ei).
  destruct (matching_record W L _ (sh_inv _ _ _ Hs) f j Hj) as (key' & _ & _ & _ & Hb' & Ej).
  rewrite (key_of_identity W i key Ei), (key_of_identity W j key' Ej) in E. congruence.
Qed.

Lemma page_selected f names : by_record_key (page_record W names <$> roaring_iter (matching W f)) = project names <$> selected ks f.
Proof using Hs Hk.
  unfold by_record_key. rewrite <- list_fmap_compose. change (_ ∘ _) with (fun id => (key_of W id, project names (record_at W id))).
  apply map_eq. intros key. apply option_eq. intros cells. rewrite <- elem_of_list_to_map.
  2: { rewrite <- list_fmap_compose. exact (page_keys f). }
  rewrite lookup_fmap, fmap_Some, list_elem_of_fmap. setoid_rewrite selected_id. unfold roaring_iter. setoid_rewrite merge_sort_Permutation. setoid_rewrite elem_of_elements. split.
  - intros (id & [= -> ->] & Hid). exists (record_at W id). split; [by exists id|done].
  - intros (c & (id & Hid & <- & ->) & ->). by exists id.
Qed.

Lemma count_selected f : size (selected ks f) = size (matching W f).
Proof using Hs Hk.
  rewrite <- (map_size_fmap (project None)), <- (page_selected f None). unfold by_record_key. rewrite map_size_list_to_map.
  - rewrite !length_fmap. unfold roaring_iter. by rewrite merge_sort_Permutation.
  - rewrite <- !list_fmap_compose. exact (page_keys f).
Qed.
End Selected.
