(* ===== verification/SampleStore.v ===== *)
(** A concrete initialised store, for the instances of the properties that start
    from one. *)
From Stdlib Require Import ZArith Lia.
From S2P Require Import Prelude Ordered Groups Storage Scan CellTypes CellValue CellName MerkleNode MerkleTrie MerkleTree MerkleEdit MerkleSpec Samples.
From S2P Require Import BranchTypes CellScan Overlay Cells Buffer Term Bitmap BitmapSpec Index IndexSpec IndexReads IndexClaims Seal CellIndex SealSpec SealClaims.
From S2P Require Import Branches Records RecordsSpec CommittedSpec Query QuerySpec Genesis GenesisSpec OpenSpec Limits KeyedStore.

#[local] Open Scope Z_scope.

Definition sample_limits : CellLimits := {| max_cell_name_len := 32; max_str_len := 64; max_bytes_len := 64 |}.
Definition sample_config : GenesisConfig := {| hash_function := Keccak256; cell_limits := sample_limits |}.
Definition sample_cells : CellMap := initial_cells sample_config.
Definition sample_run : res OpenError OpenInfo * MemoryTx := prepare {| oc_genesis := sample_config; oc_mode := CreateIfMissing |} tx0.
Definition sample_tx : MemoryTx := sample_run.2.

Definition opened_ok (r : res OpenError OpenInfo) : bool :=
  match r with Ok info => bool_decide (hd_state_root (oi_head info) <> hash []) | _ => false end.
Lemma sample_run_ok : opened_ok sample_run.1 = true.
Proof. vm_compute. reflexivity. Qed.

Lemma sample_limits_ok : limits_ok (cell_limits sample_config).
Proof. split_and!; by vm_compute. Qed.

(** Distinct digests of listed addresses. *)
Lemma listed_paths {A B} (O : gmap CellKey A) (Ch : gmap CellKey B) (l : list CellKey) :
  (forall k, is_Some (O !! k) \/ is_Some (Ch !! k) -> k ∈ l) -> bool_decide (NoDup (cell_path <$> l)) = true -> distinct_paths O Ch.
Proof.
  intros Hl Hn%bool_decide_eq_true k1 k2 A1%Hl A2%Hl E. eapply inj_on_list; [exact Hn|exact A1|exact A2|exact E].
Qed.

Definition initial_addresses : list CellKey := (initial_list sample_limits).*1.

Lemma sample_addresses k : is_Some (sample_cells !! k) -> k ∈ initial_addresses.
Proof. intros [v Hv]. apply initial_is in Hv. apply list_elem_of_fmap. by exists (k, v). Qed.

Lemma sample_paths : distinct_paths (∅ : CellMap) sample_cells.
Proof.
  apply (listed_paths _ _ initial_addresses); [|vm_compute; reflexivity].
  intros k [[v Hv]|Hk]; [by rewrite lookup_empty in Hv|by apply sample_addresses].
Qed.

(** The head of the sample store, and what holds of it. *)
Definition root_of (r : res OpenError OpenInfo) : Hash := match r with Ok info => hd_state_root (oi_head info) | _ => [] end.
Definition sample_root : Hash := root_of sample_run.1.
Definition opened_head : Head := {| hd_commit_id := GENESIS; hd_state_root := sample_root; hd_index_root := hash [] |}.

Lemma sample_valid : exists h, store_valid sample_tx sample_config opened_head (RBranch h) REmpty sample_cells FIRST_USER_RECORD_ID /\
  read_digests sample_tx (RBranch h) REmpty sample_cells.
Proof.
  pose proof sample_run_ok as Hok.
  pose proof (initialize_ok tx0 sample_config CreateIfMissing view_tx0 eq_refl ltac:(discriminate) sample_limits_ok sample_paths) as Hi.
  unfold opened_head, sample_root, sample_tx in *. unfold sample_run in *.
  destruct (prepare _ tx0) as [[info|e| |] tx]; [|discriminate Hok..]. destruct Hi as (_ & _ & Hg & cell_root & Hv & Hidx). cbn [fst snd] in *.
  apply bool_decide_eq_true in Hok. destruct info as [cr [c sr ir] gid]. cbn [oi_head hd_commit_id hd_state_root] in *. subst c.
  assert (ir = hash []) as -> by apply (ss_index_root _ _ _ _ _ (sv_state _ _ _ _ _ _ _ Hv)).
  pose proof (fresh_digests tx sample_config _ cell_root Hidx sample_paths Hv Hok) as Hd.
  destruct (root_of_many tx cell_root _ (ss_cells _ _ _ _ _ (sv_state _ _ _ _ _ _ _ Hv)) (rd_paths _ _ _ _ Hd) (initial_many _)) as [h ->].
  by exists h.
Qed.

(** The sample store in memory, with one open branch. *)
Definition sample_store : MemoryStore :=
  {| committed := mt_state sample_tx; publication_poisoned := false; writer_locked := false; writer_poisoned := false |}.
Definition sample_branch : BranchId := {| branch_number := 0 |}.
Definition sample_state : BranchState := {| bs_commit_id := GENESIS; bs_overlay := CellOverlay_new; bs_sealed := None |}.
Definition sample_db : Db MemoryStore :=
  {| db_store := sample_store; db_branches := {[ sample_branch := Some sample_state ]}; db_next_branch_id := 1 |}.

Lemma sample_read : begin_read sample_store = Ok sample_tx.
Proof. unfold begin_read, Memory_store, MemoryStore_begin_read, sample_store. cbn [publication_poisoned committed]. by destruct sample_tx. Qed.

Lemma sample_shows : shows sample_limits sample_cells no_records.
Proof. exact (initial_shows sample_config sample_limits_ok). Qed.

Lemma sample_branch_shows : branch_shows sample_db sample_branch sample_tx sample_cells sample_cells.
Proof.
  destruct sample_valid as (h & Hv & _). exists sample_state. split; [|split; [reflexivity|split]].
  - split; [apply lookup_singleton_eq|]. split; [exact sample_read|].
    unfold read_head. by rewrite (ss_head _ _ _ _ _ (sv_state _ _ _ _ _ _ _ Hv)).
  - apply (ss_cells _ _ _ _ _ (sv_state _ _ _ _ _ _ _ Hv)).
  - split; [intros k v Hk; cbn [bs_overlay sample_state ov_entries CellOverlay_new] in Hk; by rewrite lookup_empty in Hk|]. apply map_eq. intros k. rewrite lookup_working. cbn [bs_overlay sample_state ov_entries CellOverlay_new].
    by rewrite lookup_empty.
Qed.
