(* ===== verification/SampleCommit.v ===== *)
(** A concrete record, created on a branch of the sample store, and the store
    after its commit. *)
From Stdlib Require Import ZArith Lia.
From S2P Require Import Prelude Ordered Groups Storage Scan CellTypes CellValue CellName MerkleNode MerkleTrie MerkleTree MerkleEdit MerkleSpec Samples.
From S2P Require Import BranchTypes CellScan Overlay Cells Buffer Term Bitmap BitmapSpec Index IndexSpec IndexReads IndexClaims Seal CellIndex SealSpec SealClaims.
From S2P Require Import Branches Records RecordsSpec CommittedSpec Query QuerySpec Genesis GenesisSpec OpenSpec KeyedStore SampleStore.

#[local] Open Scope Z_scope.

Definition key_a : RecordKey := replicate 32 (byte_of 65).
Definition created_values : RecordCells := {[ price_name := priced (from_i32 5) ]}.
Definition created_overlay : CellOverlay := (run_prog sample_tx (create_prog key_a created_values) CellOverlay_new).2.
Definition created_working : CellMap := created sample_cells FIRST_USER_RECORD_ID key_a created_values (FIRST_USER_RECORD_ID + 1).

Lemma created_result : create_result sample_cells sample_limits FIRST_USER_RECORD_ID key_a created_values = Ok key_a.
Proof. vm_compute. reflexivity. Qed.

Lemma created_over : over sample_cells created_overlay created_working.
Proof.
  assert (runs (T:=MemoryTx) (create_prog key_a created_values) sample_cells (create_result sample_cells sample_limits FIRST_USER_RECORD_ID key_a created_values)
    (create_cells sample_cells sample_limits FIRST_USER_RECORD_ID key_a created_values)) as Hrun.
  { apply (runs_create sample_cells sample_limits FIRST_USER_RECORD_ID (sh_inv _ _ _ sample_shows)); [reflexivity..|].
    intros name v Hv. unfold created_values in Hv. apply lookup_singleton_Some in Hv as [_ <-]. vm_compute. reflexivity. }
  destruct sample_branch_shows as (st & _ & _ & Hd & _). destruct (Hrun sample_tx sample_cells CellOverlay_new Hd) as (o' & E & Ho).
  - split; [intros k v Hk; cbn [ov_entries CellOverlay_new] in Hk; by rewrite lookup_empty in Hk|]. apply map_eq. intros k.
    rewrite lookup_working. cbn [ov_entries CellOverlay_new]. by rewrite lookup_empty.
  - unfold created_overlay. rewrite E. cbn [snd]. unfold create_cells in Ho. rewrite created_result in Ho. exact Ho.
Qed.

Lemma created_names name : is_Some (created_values !! name) -> user_name name.
Proof. intros [v Hv]. unfold created_values in Hv. apply lookup_singleton_Some in Hv as [<- _]. vm_compute. tauto. Qed.

Lemma created_free : bound sample_cells key_a = None.
Proof. vm_compute. reflexivity. Qed.

Lemma created_records : record_inv (working sample_cells (ov_entries created_overlay)) sample_limits (FIRST_USER_RECORD_ID + 1).
Proof.
  rewrite (proj2 created_over). apply (created_inv sample_cells sample_limits FIRST_USER_RECORD_ID (sh_inv _ _ _ sample_shows) key_a created_values eq_refl eq_refl created_free);
    [reflexivity|exact created_names].
Qed.

Lemma created_keeps_roots : keeps_roots sample_cells created_overlay.
Proof.
  intros k Hk. rewrite (proj2 created_over).
  apply (created_other sample_cells sample_limits FIRST_USER_RECORD_ID (sh_inv _ _ _ sample_shows) key_a created_values created_names); [rewrite Hk; discriminate|..];
    intros ->; discriminate Hk.
Qed.

Definition staged_addresses : list CellKey := (map_to_list (<[roots_key GENESIS := None]> (ov_entries created_overlay))).*1.
Definition committed_cells : CellMap := sealed_cells opened_head sample_cells created_overlay.

Lemma created_digests h : read_digests sample_tx (RBranch h) REmpty sample_cells -> digests_ok sample_tx opened_head (RBranch h) REmpty sample_cells created_overlay.
Proof.
  intros [Hc Hr Hi _ _]. split; [exact Hc|exact Hr|exact Hi|..].
  - apply (listed_paths _ _ (remove_dups (initial_addresses ++ staged_addresses))); [|vm_compute; reflexivity].
    intros k [Hk|[v Hv]]; apply elem_of_remove_dups, elem_of_app; [left; by apply sample_addresses|right].
    apply list_elem_of_fmap. exists (k, v). split; [reflexivity|]. by apply elem_of_map_to_list.
  - assert (forall t id, (t, id) ∈ index_of sample_cells ∪ index_of committed_cells -> t = price_term 5) as Ht.
    { intros t id Hin. assert (set_Forall (fun p => p.1 = price_term 5) (index_of sample_cells ∪ index_of committed_cells)) as Hall
        by (apply (bool_decide_unpack _); vm_compute; exact I).
      exact (Hall (t, id) Hin). }
    intros t1 t2 id1 id2 A1 A2 _. rewrite (Ht t1 id1 A1). symmetry. exact (Ht t2 id2 A2).
Qed.

(** The commit on the sample store's rows, and the store after it. *)
Definition committed_run : res BranchError unit * MemoryTx :=
  match compute sample_tx created_overlay with
  | Ok sealed => stage_commit GENESIS sealed sample_tx
  | Err e => (Err e, sample_tx)
  | Panic => (Panic, sample_tx)
  | Diverge => (Diverge, sample_tx)
  end.
Definition committed_tx : MemoryTx := committed_run.2.
Definition sealing_buffer (h : Hash) : Buffered MemoryTx :=
  (sealing (RBranch h) REmpty (seal_changes opened_head created_overlay) (Buffered_new sample_tx)).2.

Lemma sample_root_is h : store_state sample_tx opened_head (RBranch h) REmpty sample_cells -> h = sample_root.
Proof. intros Hst. symmetry. exact (ss_state_root _ _ _ _ _ Hst). Qed.

Lemma sealing_clear : clash_free (sealing_buffer sample_root) = true.
Proof. vm_compute. reflexivity. Qed.

Lemma compute_ends : is_ok (compute sample_tx created_overlay) = true.
Proof. vm_compute. reflexivity. Qed.

Lemma committed_valid : exists head cell_root index_root, commit_number (hd_commit_id head) = 1 /\
  store_valid committed_tx sample_config head cell_root index_root committed_cells (FIRST_USER_RECORD_ID + 1).
Proof.
  destruct sample_valid as (h & Hv & Hd). pose proof (sample_root_is h (sv_state _ _ _ _ _ _ _ Hv)) as Eh.
  assert (Hnum : 0 <= commit_number (hd_commit_id opened_head) < 2 ^ 64 - 1) by (cbn; lia).
  assert (Hcl : ~ clash (sealing_buffer h)) by (rewrite Eh; exact (clash_free_ok _ sealing_clear)).
  pose proof (commit_valid sample_tx sample_config opened_head (RBranch h) REmpty sample_cells FIRST_USER_RECORD_ID created_overlay (FIRST_USER_RECORD_ID + 1)
    Hv (created_digests h Hd) (proj1 created_over) created_records created_keeps_roots Hnum Hcl) as Hc.
  pose proof compute_ends as Hok. unfold committed_tx, committed_run. assert (Hinv : forall sealed, compute sample_tx created_overlay = Ok sealed -> commit_number (sl_commit_id sealed) = 1).
  { intros sealed (h' & cr & ir & value & cu & iu & b & Eh' & Enum & _)%compute_inv.
    rewrite (ss_head _ _ _ _ _ (sv_state _ _ _ _ _ _ _ Hv)) in Eh'. assert (h' = opened_head) as -> by (clear -Eh'; congruence). change (Some 1 = Some (commit_number (sl_commit_id sealed))) in Enum. clear -Enum. congruence. }
  destruct (compute sample_tx created_overlay) as [sealed|e| |]; [|discriminate Hok..].
  destruct (Hc sample_tx (fun tb => eq_refl)) as (tx' & cr & ir & Es & Hvalid). change (hd_commit_id opened_head) with GENESIS in Es. rewrite Es. cbn [snd].
  exists (sealed_head sealed), cr, ir. split; [exact (Hinv sealed eq_refl)|exact Hvalid].
Qed.

Lemma committed_clear : clash_free committed_tx = true.
Proof. vm_compute. reflexivity. Qed.
