(* ===== verification/OpenClaims.v ===== *)
(** The properties of opening a store, with concrete instances. *)
From Stdlib Require Import ZArith Lia.
From S2P Require Import Prelude Ordered Groups Storage Scan CellTypes CellValue CellName MerkleNode MerkleTrie MerkleTree MerkleEdit MerkleSpec Samples.
From S2P Require Import BranchTypes CellScan Overlay Cells Buffer Term Bitmap BitmapSpec Index IndexSpec IndexReads IndexClaims Seal CellIndex SealSpec SealClaims.
From S2P Require Import Branches Records RecordsSpec CommittedSpec Query QuerySpec Genesis GenesisSpec OpenSpec KeyedStore SampleStore SampleCommit.

#[local] Open Scope Z_scope.

Section Claims.
Context `{Roaring} {RO : RoaringLaws} `{HashProvider} {HL : HashLaws}.
Context {T : Type} `{WT : WriteTransaction T} {RL : ReadLaws T} {WL : WriteLaws T}.

(** C8. Opening empty storage writes a valid store: the head is commit zero, the
    cell table and its trie hold exactly the cells of commit zero, nothing is
    indexed, the record invariant holds, and the format rows are there. It ends,
    and fails only when two branches of the trie of those cells share a digest,
    with the row of one found under it. Opening the result again, in any mode,
    changes no row and reports the same head and genesis identity, or that the
    store exists when it was to be new. *)
Theorem open_initialises_empty_storage (tx : T) config mode :
  (forall tb, view tx tb = ∅) -> tx_is_empty tx = Ok true -> mode <> ExistingOnly ->
  limits_ok (cell_limits config) -> distinct_paths (∅ : CellMap) (initial_cells config) ->
  let '(r, tx') := prepare {| oc_genesis := config; oc_mode := mode |} tx in
  match r with
  | Ok info => oi_created info = true /\ oi_genesis_id info = genesis_identity config (initial_cells config) /\
      hd_commit_id (oi_head info) = GENESIS /\
      exists cell_root, store_valid tx' config (oi_head info) cell_root REmpty (initial_cells config) FIRST_USER_RECORD_ID /\
        (hd_state_root (oi_head info) <> hash [] -> forall mode', prepare {| oc_genesis := config; oc_mode := mode' |} tx' =
          (if bool_decide (mode' = CreateNew) then Err O_AlreadyInitialized
           else Ok {| oi_created := false; oi_head := oi_head info; oi_genesis_id := oi_genesis_id info |}, tx'))
  | Err (O_Cells (CE_Merkle ConflictingBranch)) => cell_conflict (initial_cells config) tx' /\ cell_clash (initial_cells config)
  | _ => False
  end.
Proof using RO HL WL.
  intros Hv He Hm Hl Hp. pose proof (initialize_ok tx config mode Hv He Hm Hl Hp) as Hi.
  destruct (prepare _ tx) as [[info|e| |] tx']; [|done..]. destruct Hi as (H1' & H2' & H3' & cell_root & Hvalid & Hidx).
  split_and!; [done..|]. exists cell_root. split; [done|]. intros Hc mode'. rewrite H2'.
  apply (prepare_ok tx' config (oi_head info) cell_root REmpty (initial_cells config) FIRST_USER_RECORD_ID Hvalid).
  by apply (fresh_digests tx' config (oi_head info)).
Qed.

(** C21. Opening a valid store whose digests are distinct accepts it whatever it
    has committed since, changes no row, and reports its head, unless the
    store was to be new. *)
Theorem open_accepts_valid_store (tx : T) config head cell_root index_root W next mode :
  store_valid tx config head cell_root index_root W next -> read_digests tx cell_root index_root W ->
  prepare {| oc_genesis := config; oc_mode := mode |} tx =
  (if bool_decide (mode = CreateNew) then Err O_AlreadyInitialized
   else Ok {| oi_created := false; oi_head := head; oi_genesis_id := genesis_identity config (initial_cells config) |}, tx).
Proof using RO HL WL. intros Hv Hd. exact (prepare_ok tx config head cell_root index_root W next Hv Hd mode). Qed.

(** C7. Committing keeps a store valid: sealing and publishing a branch whose
    working cells satisfy the record invariant and that left the record of
    roots alone ends, and publishes a valid store with the next commit number,
    whose cells are the branch's working cells and the record of the previous
    roots. It fails only when the digest of a branch or container of the tries of
    those cells is taken by another row. *)
Theorem commit_keeps_store_valid (origin : T) config head cell_root index_root O next o next' :
  store_valid origin config head cell_root index_root O next -> digests_ok origin head cell_root index_root O o -> staged_wf o ->
  record_inv (working O (ov_entries o)) (cell_limits config) next' -> keeps_roots O o ->
  0 <= commit_number (hd_commit_id head) < 2 ^ 64 - 1 ->
  let b := (sealing cell_root index_root (seal_changes head o) (Buffered_new origin)).2 in
  ~ clash b ->
  match compute origin o with
  | Ok sealed => forall tx, (forall tb, view tx tb = view origin tb) ->
      exists tx' cell_root' index_root', stage_commit (hd_commit_id head) sealed tx = (Ok (), tx') /\
        store_valid tx' config (sealed_head sealed) cell_root' index_root' (sealed_cells head O o) next'
  | Err e => seal_conflict (sealed_cells head O o) e b
  | _ => False
  end.
Proof using RO HL WL. apply commit_valid. Qed.
End Claims.

(** ** Concrete instances *)

Lemma open_initialises_empty_storage_witness : exists info tx' cell_root,
  prepare {| oc_genesis := sample_config; oc_mode := CreateIfMissing |} tx0 = (Ok info, tx') /\
  store_valid tx' sample_config (oi_head info) cell_root REmpty sample_cells FIRST_USER_RECORD_ID /\
  prepare {| oc_genesis := sample_config; oc_mode := ExistingOnly |} tx' =
    (Ok {| oi_created := false; oi_head := oi_head info; oi_genesis_id := oi_genesis_id info |}, tx').
Proof.
  pose proof sample_run_ok as Hok.
  pose proof (open_initialises_empty_storage tx0 sample_config CreateIfMissing view_tx0 eq_refl ltac:(discriminate) sample_limits_ok sample_paths) as Hi.
  unfold sample_run in Hok. destruct (prepare _ tx0) as [[info|e| |] tx']; [|discriminate Hok..].
  destruct Hi as (_ & _ & _ & cell_root & Hv & Hre). exists info, tx', cell_root. split; [reflexivity|]. split; [exact Hv|].
  cbn [fst] in Hok. exact (Hre (bool_decide_eq_true_1 _ Hok) ExistingOnly).
Defined.

Lemma open_accepts_valid_store_witness :
  prepare {| oc_genesis := sample_config; oc_mode := ExistingOnly |} sample_tx =
    (Ok {| oi_created := false; oi_head := opened_head; oi_genesis_id := genesis_identity sample_config sample_cells |}, sample_tx) /\
  prepare {| oc_genesis := sample_config; oc_mode := CreateNew |} sample_tx = (Err O_AlreadyInitialized, sample_tx).
Proof.
  destruct sample_valid as (h & Hv & Hd). split.
  - exact (open_accepts_valid_store sample_tx sample_config opened_head (RBranch h) REmpty sample_cells FIRST_USER_RECORD_ID ExistingOnly Hv Hd).
  - exact (open_accepts_valid_store sample_tx sample_config opened_head (RBranch h) REmpty sample_cells FIRST_USER_RECORD_ID CreateNew Hv Hd).
Defined.

Lemma commit_keeps_store_valid_witness : exists sealed tx' cell_root index_root,
  compute sample_tx created_overlay = Ok sealed /\ stage_commit GENESIS sealed sample_tx = (Ok (), tx') /\
  store_valid tx' sample_config (sealed_head sealed) cell_root index_root committed_cells (FIRST_USER_RECORD_ID + 1).
Proof.
  destruct sample_valid as (h & Hv & Hd). pose proof (sample_root_is h (sv_state _ _ _ _ _ _ _ Hv)) as Eh.
  assert (Hnum : 0 <= commit_number (hd_commit_id opened_head) < 2 ^ 64 - 1) by (cbn; lia).
  assert (Hcl : ~ clash (sealing_buffer h)) by (rewrite Eh; exact (clash_free_ok _ sealing_clear)).
  pose proof (commit_keeps_store_valid sample_tx sample_config opened_head (RBranch h) REmpty sample_cells FIRST_USER_RECORD_ID created_overlay
    (FIRST_USER_RECORD_ID + 1) Hv (created_digests h Hd) (proj1 created_over) created_records created_keeps_roots Hnum Hcl) as Hc.
  pose proof compute_ends as Hok. destruct (compute sample_tx created_overlay) as [sealed|e| |]; [|discriminate Hok..].
  destruct (Hc sample_tx (fun tb => eq_refl)) as (tx' & cr & ir & Es & Hvalid). exists sealed, tx', cr, ir.
  split; [reflexivity|]. split; [exact Es|exact Hvalid].
Defined.
