(* ===== verification/RecordClaims.v ===== *)
(** The properties of records, with concrete instances. *)
From Stdlib Require Import ZArith Lia.
From S2P Require Import Prelude Ordered Storage Scan CellTypes CellValue CellName MerkleNode MerkleTrie Samples.
From S2P Require Import BranchTypes CellScan Overlay Cells Buffer Term Bitmap Index IndexSpec IndexReads IndexClaims Seal CellIndex SealSpec SealClaims Branches Records RecordsSpec CommittedSpec.
From S2P Require Import Genesis GenesisSpec OpenSpec Limits KeyedStore SampleStore SampleCommit.

#[local] Open Scope Z_scope.

Section Claims.
Context `{Roaring} `{HashProvider} {S T : Type} `{WT : WriteTransaction T} {RL : ReadLaws T} `{ST : !Store S T}.

(** C5. The record layer refines a keyed store. From an open branch whose working
    cells show a map from keys to records, any sequence of get, create, patch
    and delete calls answers exactly what the map machine answers, errors
    included (reserved keys, inadmissible names and values, existing and
    missing records, exhausted IDs), and leaves an open branch over the same
    snapshot whose working cells show the machine's map and satisfy the record
    invariant. Enough fuel for the scans always exists. *)
Theorem records_refine_keyed_store L id (origin : T) O W ks ops : shows L W ks -> Forall op_ok ops ->
  exists f0, forall fuel (db : Db S), (f0 <= fuel)%nat -> branch_shows db id origin O W ->
    exists db' W', run_calls (rec_call fuel id) ops db = ((run_calls (ks_step L) ops ks).1, db') /\
      branch_shows db' id origin O W' /\ shows L W' (run_calls (ks_step L) ops ks).2.
Proof using RL.
  intros Hs Hok. destruct (calls_simulated L id origin O ops W ks Hs Hok) as (f0 & W' & Hs' & _ & Hrun). exists f0. intros fuel db Hf Hb.
  destruct (Hrun fuel db Hf Hb) as (db' & E & Hb' & _). by exists db', W'.
Qed.

(** C19. What the limits admit, the backend holds. When opening accepted the
    deployment's limits for a backend's largest key and value, then after any
    sequence of record calls on a branch of the fresh store every address,
    stored value and index term of the branch is within those sizes. *)
Theorem limits_bound_rows config max_key max_value id (origin : T) O ops :
  Genesis_validate config max_key max_value = Ok () -> limits_ok (cell_limits config) -> Forall op_ok ops ->
  exists f0, forall fuel (db : Db S), (f0 <= fuel)%nat -> branch_shows db id origin O (initial_cells config) ->
    exists W', branch_shows (run_calls (rec_call fuel id) ops db).2 id origin O W' /\
      forall k v, W' !! k = Some v ->
        zlen (CellKey_encode k) <= max_key /\ zlen (cv_bytes v) <= max_value /\ (forall t, term_of k v = Some t -> zlen t <= max_key).
Proof using RL.
  intros Hg Hl Hok. destruct (calls_simulated (cell_limits config) id origin O ops _ _ (initial_shows config Hl) Hok) as (f0 & W' & Hs' & _ & Hrun).
  exists f0. intros fuel db Hf Hb. destruct (Hrun fuel db Hf Hb) as (db' & E & Hb' & _). exists W'. rewrite E. split; [done|].
  intros k v Hk. exact (fits_backend config max_key max_value k v Hg Hl (sh_fits _ _ _ Hs' k v Hk)).
Qed.

(** Reading a committed record answers from the store the commit published:
    over a store whose cells show a map from keys to records, [get] at the head
    or at the head's commit returns the projected record or [NotFound], and at
    any other commit [CommitUnavailable]; branches play no part. *)
Theorem committed_get_reads_store fuel (db : Db S) (tx : T) head cell_root index_root W L ks target key projection :
  begin_read (db_store db) = Ok tx -> store_state tx head cell_root index_root W -> shows L W ks ->
  length key = 32%nat -> by_key key = None -> (size (view tx CELL) < fuel)%nat -> (forall id, target <> TargetBranch id) ->
  Records_get fuel target key projection db =
  (match target with
   | TargetCommit requested =>
       if bool_decide (requested = hd_commit_id head) then ks_get ks key projection
       else Err (R_CommitUnavailable requested (hd_commit_id head))
   | _ => ks_get ks key projection
   end, db).
Proof using All.
  intros Hb Hst Hs Hlen Hr Hf Ht. pose proof (read_by_key_ok tx W (proj1 (ss_cells _ _ _ _ _ Hst)) fuel L (ks_next ks) key projection (sh_inv _ _ _ Hs) Hlen Hf) as Hread.
  rewrite (sh_records _ _ _ Hs key Hlen Hr) in Hread.
  destruct target as [|id|commit]; [|by destruct (Ht id)|]; cbn [Records_get]; unfold reading, read_committed, committed_snapshot; rewrite Hb;
    unfold mbind, res_mbind; cbn [map_err]; unfold read_head; rewrite (ss_head _ _ _ _ _ Hst); unfold mbind, res_mbind; cbn [map_err]; unfold ks_get;
    [|case_bool_decide; cbn [negb]; [|done]]; rewrite Hread; by destruct (ks_records ks !! key).
Qed.
End Claims.

(** ** Concrete instances *)


(** Create a record, fail to create it again, change it, read it, delete it. *)
Definition sample_calls : list Call :=
  [OpCreate key_a {[ price_name := priced (from_i32 5) ]}; OpCreate key_a ∅; OpPatch key_a {[ price_name := PatchSet (priced (from_i32 9)) ]};
   OpGet key_a (Some [price_name]); OpDelete key_a; OpGet key_a None; OpDelete (sr_key PARAMS)].
Definition sample_answers : list (res RecordError Answer) :=
  [Ok (AnsKey key_a); Err R_AlreadyExists; Ok AnsUnit;
   Ok (AnsRecord {| rec_key := key_a; rec_cells := {[ price_name := priced (from_i32 9) ]} |});
   Ok AnsUnit; Err R_NotFound; Err R_Reserved].

Lemma sample_calls_ok : Forall op_ok sample_calls.
Proof.
  repeat constructor; try reflexivity; intros name v; cbn [op_ok].
  - intros [_ <-]%lookup_singleton_Some. vm_compute. reflexivity.
  - by rewrite lookup_empty.
  - intros [_ [= <-]]%lookup_singleton_Some. vm_compute. reflexivity.
Qed.

Lemma records_refine_keyed_store_witness :
  exists fuel db' W', run_calls (rec_call fuel sample_branch) sample_calls sample_db = (sample_answers, db') /\
    shows sample_limits W' {| ks_next := FIRST_USER_RECORD_ID + 1; ks_records := ∅ |}.
Proof.
  destruct (records_refine_keyed_store sample_limits sample_branch sample_tx sample_cells sample_cells
    no_records sample_calls sample_shows sample_calls_ok) as (f0 & Hrun).
  destruct (Hrun f0 sample_db (le_n f0) sample_branch_shows) as (db' & W' & E & _ & Hs').
  exists f0, db', W'. split; [rewrite E; f_equal; vm_compute; reflexivity|exact Hs'].
Defined.

Lemma limits_bound_rows_witness : exists fuel W',
  branch_shows (run_calls (rec_call fuel sample_branch) sample_calls sample_db).2 sample_branch sample_tx sample_cells W' /\
  forall k v, W' !! k = Some v -> zlen (CellKey_encode k) <= 1024 /\ zlen (cv_bytes v) <= 65536 /\ (forall t, term_of k v = Some t -> zlen t <= 1024).
Proof.
  destruct (limits_bound_rows sample_config 1024 65536 sample_branch sample_tx sample_cells sample_calls eq_refl sample_limits_ok sample_calls_ok) as (f0 & Hrun).
  destruct (Hrun f0 sample_db (le_n f0) sample_branch_shows) as (W' & Hb & Hf). exists f0, W'. split; [exact Hb|exact Hf].
Defined.

Lemma committed_get_reads_store_witness :
  Records_get 1000 TargetHead key_a None sample_db = (Err R_NotFound, sample_db).
Proof.
  destruct sample_valid as (h & Hv & _).
  assert (Hf : (size (view sample_tx CELL) < 1000)%nat) by (apply Nat.ltb_lt; vm_compute; reflexivity).
  exact (committed_get_reads_store 1000 sample_db sample_tx opened_head (RBranch h) REmpty sample_cells sample_limits
    no_records TargetHead key_a None sample_read (sv_state _ _ _ _ _ _ _ Hv) sample_shows
    eq_refl eq_refl Hf ltac:(discriminate)).
Defined.
