(* ===== verification/QueryClaims.v ===== *)
(** The property of queries, with a concrete instance. *)
From Stdlib Require Import ZArith Lia.
From S2P Require Import Prelude Ordered Groups Storage Scan CellTypes CellValue CellName MerkleNode MerkleTrie MerkleTree MerkleEdit MerkleSpec Samples.
From S2P Require Import BranchTypes CellScan Overlay Cells Buffer Term Bitmap BitmapSpec Index IndexSpec IndexReads IndexClaims Seal CellIndex SealSpec SealClaims.
From S2P Require Import Branches Records RecordsSpec CommittedSpec Query QuerySpec Genesis GenesisSpec OpenSpec KeyedStore SampleStore SampleCommit.

#[local] Open Scope Z_scope.

Section Claims.
Context `{Roaring} {RO : RoaringLaws} `{HashProvider} {HL : HashLaws}.
Context {S T : Type} `{WT : WriteTransaction T} {RL : ReadLaws T} {WL : WriteLaws T} `{!Store S T}.

(** C4. A query answers from the committed cells. Over a store whose head, cells
    and index say the cells [W] and whose records satisfy the record invariant,
    with enough fuel, [query] and [count] end: parts not built yet are refused
    first, then an inadmissible filter, then a commit that is not the head;
    otherwise the page holds, in record ID order, exactly the records that own
    an attribute cell the filter selects, each with its key and its projected
    cells, and the count is their number. *)
Theorem query_answers_filter fuel (store : S) tx head cell_root index_root W L next commit op :
  begin_read store = Ok tx -> store_state tx head cell_root index_root W -> ~ clash tx -> record_inv W L next ->
  (size (view tx CELL) + size (view tx INDEX) + 2 * size (index_of W) + 1 < fuel)%nat ->
  Queries_query fuel store commit op =
    (_ ← (if bool_decide (qo_sort op = [] :> list SortKey) then Ok () else Err (Q_NotImplemented "query: sort"));
     _ ← (if bool_decide (qo_limit op = None) then Ok () else Err (Q_NotImplemented "query: limit"));
     _ ← (if bool_decide (qo_offset op = None) then Ok () else Err (Q_NotImplemented "query: offset"));
     _ ← Plan_try_from (qo_filter op);
     _ ← at_commit commit (hd_commit_id head);
     Ok {| qp_records := page_record W (qo_projection op) <$> roaring_iter (matching W (qo_filter op));
           qp_total_matched := if qo_with_total op then Some (Z.of_nat (size (matching W (qo_filter op)))) else None;
           qp_evaluated_at := hd_commit_id head |}) /\
  forall count, Queries_count fuel store commit count =
    (_ ← Plan_try_from (co_filter count); _ ← at_commit commit (hd_commit_id head); Ok (Z.of_nat (size (matching W (co_filter count))))).
Proof using RO HL. intros. split; [by eapply query_ok|]. intros count. by eapply count_ok. Qed.
End Claims.

(** ** A concrete instance: the record with price 5, found after its commit *)

Definition committed_store : MemoryStore :=
  {| committed := mt_state committed_tx; publication_poisoned := false; writer_locked := false; writer_poisoned := false |}.
Definition price_is_5 : Filter := FEq price_name (from_i32 5).
Definition sample_query : QueryOp := QueryOp_with_total (QueryOp_only [price_name] (QueryOp_from_filter price_is_5)).

Lemma committed_read : begin_read committed_store = Ok committed_tx.
Proof. unfold begin_read, Memory_store, MemoryStore_begin_read, committed_store. cbn [publication_poisoned committed]. by destruct committed_tx. Qed.

Lemma committed_fuel : (size (view committed_tx CELL) + size (view committed_tx INDEX) + 2 * size (index_of committed_cells) + 1 < 1000)%nat.
Proof. apply Nat.ltb_lt. vm_compute. reflexivity. Qed.

Lemma sample_page : page_record committed_cells (qo_projection sample_query) <$> roaring_iter (matching committed_cells price_is_5) =
  [{| rec_key := key_a; rec_cells := {[ price_name := priced (from_i32 5) ]} |}].
Proof. vm_compute. reflexivity. Qed.

Lemma query_answers_filter_witness :
  Queries_query 1000 committed_store None sample_query =
    Ok {| qp_records := [{| rec_key := key_a; rec_cells := {[ price_name := priced (from_i32 5) ]} |}];
          qp_total_matched := Some 1; qp_evaluated_at := {| commit_number := 1 |} |} /\
  Queries_count 1000 committed_store None (CountOp_filter price_is_5) = Ok 1.
Proof.
  destruct committed_valid as (head & cr & ir & Hnum & Hv).
  destruct (query_answers_filter 1000 committed_store committed_tx head cr ir committed_cells sample_limits (FIRST_USER_RECORD_ID + 1) None sample_query
    committed_read (sv_state _ _ _ _ _ _ _ Hv) (clash_free_ok _ committed_clear) (sv_records _ _ _ _ _ _ _ Hv) committed_fuel) as [Hq Hc].
  assert (Hsize : size (matching committed_cells price_is_5) = 1%nat) by (vm_compute; reflexivity).
  destruct head as [[n] sr ir']. cbn [hd_commit_id commit_number] in Hnum. subst n. split.
  - rewrite Hq. change (qo_filter sample_query) with price_is_5. rewrite sample_page, Hsize. reflexivity.
  - rewrite Hc. change (co_filter (CountOp_filter price_is_5)) with price_is_5. rewrite Hsize. reflexivity.
Defined.
