(* ===== verification/CommitSpec.v ===== *)
(** Commits of records: the branch manager, sealing and the record layer together.

    Over the memory store a commit of an open, current branch always ends, and
    publishes a valid store that shows exactly the records of the branch. *)
From Stdlib Require Import ZArith Lia.
From S2P Require Import Prelude Ordered Groups Storage Scan CellTypes CellValue CellName MerkleNode MerkleTrie MerkleTree MerkleEdit MerkleSpec Samples.
From S2P Require Import BranchTypes CellScan Overlay Cells Buffer Term Bitmap BitmapSpec Index IndexSpec IndexReads IndexClaims Seal CellIndex SealSpec SealClaims.
From S2P Require Import Branches Records RecordsSpec CommittedSpec Query QuerySpec Genesis GenesisSpec OpenSpec Limits KeyedStore SampleStore SampleCommit.

#[local] Open Scope Z_scope.

(** The record of roots is not a user record. *)
Lemma sealed_shows L W ks head : length (hd_state_root head) = 32%nat -> length (hd_index_root head) = 32%nat -> shows L W ks -> shows L (<[roots_key (hd_commit_id head) := roots_cell head]> W) ks.
Proof.
  intros Hs1 Hs2 [Hinv Hrec Hfit]. split; [by apply sealed_inv| |by apply fits_sealed]. intros key Hlen Hr. rewrite <- (Hrec key Hlen Hr). unfold lookup_record.
  set (W' := <[roots_key (hd_commit_id head) := roots_cell head]> W).
  assert (bound W' key = bound W key) as -> by (unfold bound, W'; by rewrite lookup_insert_ne by done).
  destruct (bound W key) as [id|] eqn:Eb; [|done]. cbn [fmap option_fmap option_map]. f_equal.
  destruct (bound_user W L (ks_next ks) Hinv key id Hlen Hr Eb) as (Hu & _ & Hlo & _).
  apply record_at_ext; [done|by apply inv_keys with L (ks_next ks)|by apply inv_keys with L (ks_next ks), sealed_inv|].
  intros name. unfold W'. rewrite lookup_insert_ne; [done|]. intros E. apply (f_equal ck_record_id) in E. cbn in E. unfold FIRST_USER_RECORD_ID in Hlo. lia.
Qed.

(** An idle memory store. *)
Definition idle (s : MemoryStore) : Prop := publication_poisoned s = false /\ writer_locked s = false /\ writer_poisoned s = false.

Section Commit.
Context `{Roaring} {RO : RoaringLaws} `{HashProvider} {HL : HashLaws}.

Lemma idle_begin s tx : idle s -> begin_read s = Ok tx -> begin_write s = (Ok tx, set_writer_locked true s).
Proof using. intros (Hp & Hl & Hw). intros Hr. change (MemoryStore_begin_read s = Ok tx) in Hr. change (MemoryStore_begin_write s = (Ok tx, set_writer_locked true s)).
  unfold MemoryStore_begin_write. by rewrite Hl, Hw, Hr. Qed.

(** Sealing a branch whose cached seal, if any, is the one of its cells *)
Lemma seal_result {S T} `{WriteTransaction T, !Store S T} (tx : T) st : (forall sealed, bs_sealed st = Some sealed -> compute tx (bs_overlay st) = Ok sealed) ->
  BranchState_seal tx st = match compute tx (bs_overlay st) with
    | Ok sealed => (Ok sealed, {| bs_commit_id := bs_commit_id st; bs_overlay := bs_overlay st; bs_sealed := Some sealed |})
    | Err e => (Err e, st)
    | Panic => (Panic, st)
    | Diverge => (Diverge, st)
    end.
Proof using.
  intros Hc. unfold BranchState_seal. destruct (bs_sealed st) as [sealed|] eqn:Es; [|done]. rewrite (Hc sealed eq_refl), <- Es. by destruct st.
Qed.

(** A staged commit is published, and the store is idle again. *)
Lemma idle_persist s (tx tx' : MemoryTx) origin sealed : idle s -> stage_commit origin sealed tx = (Ok (), tx') ->
  exists s', persist tx origin sealed (set_writer_locked true s) = (Ok (sl_commit_id sealed), s') /\ idle s' /\ begin_read s' = Ok tx'.
Proof using.
  intros (Hp & Hl & Hw) Es. unfold persist. rewrite Es. unfold tx_commit, Memory_store, MemoryStore_commit. cbn [set_writer_locked publication_poisoned].
  rewrite Hp. eexists. split; [reflexivity|]. split; [done|]. unfold begin_read, MemoryStore_begin_read. cbn. by destruct tx'.
Qed.

Context (db : Db MemoryStore) (id : BranchId) (st : BranchState) (tx : MemoryTx).
Context (config : GenesisConfig) (head : Head) (cell_root index_root : RootRef) (O W : CellMap) (next : Z) (ks : KeyedStore).
Abbreviation o := (bs_overlay st).
Abbreviation b := ((sealing cell_root index_root (seal_changes head o) (Buffered_new tx)).2).
Hypothesis Hidle : idle (db_store db).
Hypothesis Hlive : live db id st tx.
(** open, or sealed over this snapshot *)
Hypothesis Hcached : forall sealed, bs_sealed st = Some sealed -> compute tx o = Ok sealed.
Hypothesis Hvalid : store_valid tx config head cell_root index_root O next.
Hypothesis Hover : over O o W.
Hypothesis Hshows : shows (cell_limits config) W ks.
Hypothesis Hkeep : keeps_roots O o.
Hypothesis Hdigests : digests_ok tx head cell_root index_root O o.
Hypothesis Hnum : 0 <= commit_number (hd_commit_id head) < 2 ^ 64 - 1.
Hypothesis Hclash : ~ clash b.

Lemma commit_publishes :
  let '(r, db') := db_commit id db in
  match r with
  | Ok commit => commit_number commit = commit_number (hd_commit_id head) + 1 /\ db_branches db' = delete id (db_branches db) /\
      db_next_branch_id db' = db_next_branch_id db /\ idle (db_store db') /\
      exists tx' head' cell_root' index_root' W', begin_read (db_store db') = Ok tx' /\ hd_commit_id head' = commit /\
        store_valid tx' config head' cell_root' index_root' W' (ks_next ks) /\ shows (cell_limits config) W' ks
  | Err e => seal_conflict (sealed_cells head O o) e b /\ bs_sealed st = None /\ db' = db
  | _ => False
  end.
Proof using All.
  destruct Hover as [Hwf Hwork]. pose proof Hlive as (Hid & Hr & Hh).
  pose proof (ss_head _ _ _ _ _ (sv_state _ _ _ _ _ _ _ Hvalid)) as Hhead.
  assert (Ec : hd_commit_id head = bs_commit_id st).
  { unfold read_head in Hh. rewrite Hhead in Hh. cbn in Hh. congruence. }
  assert (Hrec : record_inv (working O (ov_entries o)) (cell_limits config) (ks_next ks)) by (rewrite Hwork; apply Hshows).
  pose proof (commit_valid tx config head cell_root index_root O next o (ks_next ks) Hvalid Hdigests Hwf Hrec Hkeep Hnum Hclash) as Hc.
  pose proof (compute_inv tx o) as Hinv.
  unfold db_commit, with_slot. rewrite Hid, Hr, Hh, bool_decide_true by done. cbn [negb].
  unfold mbind, stres_mbind, commit_seal. rewrite seal_result by done.
  destruct (compute tx o) as [sealed|e| |]; [| |done..].
  2: { split; [exact Hc|]. split; [|by apply set_slot_same]. destruct (bs_sealed st) as [sealed|]; [|done]. by specialize (Hcached sealed eq_refl). }
  destruct (Hinv sealed eq_refl) as (h' & cr & ir & value & cu & iu & b' & Eh' & Enum & _). rewrite Hhead in Eh'. injection Eh' as <-. clear Hinv.
  assert (commit_number (sl_commit_id sealed) = commit_number (hd_commit_id head) + 1) as Enum'.
  { unfold checked_succ in Enum. case_match; [|done]. by injection Enum. }
  destruct (Hc tx (fun tb => eq_refl)) as (tx' & cr' & ir' & Es & Hv'). rewrite Ec in Es.
  destruct (idle_persist (db_store db) tx tx' (bs_commit_id st) sealed Hidle Es) as (s' & Ep & Hi' & Hr').
  pose proof (idle_begin _ tx Hidle Hr) as Eb. change (MemoryStore_begin_write (db_store db) = (Ok tx, set_writer_locked true (db_store db))) in Eb.
  unfold commit_publish. cbn -[persist set_writer_locked]. rewrite Eb, Ep. cbn.
  split; [done|]. split; [apply alter_delete_eq|]. split; [done|]. split; [done|].
  exists tx', (sealed_head sealed), cr', ir', (sealed_cells head O o). split; [done|]. split; [done|]. split; [done|].
  unfold sealed_cells. rewrite Hwork. rewrite read_head_state_eq in Hhead. apply head_of_inv in Hhead as [(_ & L1 & L2) _]. by apply sealed_shows.
Qed.
End Commit.
