(* ===== verification/Api.v ===== *)
(** The public facade: crates/api/src/{error,record_op,types,config,open,database}.rs.

    [RecordOp] and its builders, the classification of engine errors into
    [ApiError], the adapter [Inner] over one branch manager, and the [Database]
    handle that picks the hash function of its genesis. Texts of errors are
    kept as data ([Message]); boxed errors as the sum of the types the code
    tells apart ([AnyError]). *)
From Stdlib Require Import ZArith Lia.
From S2P Require Import Prelude Ordered Storage Scan CellTypes CellValue CellName MerkleNode MerkleTrie.
From S2P Require Import BranchTypes CellScan Overlay Cells Buffer Mdbx Term Bitmap Index Seal Branches Records Query Genesis.

#[local] Open Scope Z_scope.

(** * Errors: error.rs *)

(** The texts of [InvalidArgument]: [MRendered] is the record layer's text of
    that error, [MLocated] is [{step}({name}): {message}]. *)
Inductive Message : Type :=
  | MText (text : string)
  | MRendered (why : CellNameError + CellLimitError)
  | MFilter (field : CellName)
  | MLocated (step : string) (name : bytes) (message : Message).

(** [dyn Error]: the errors that are boxed or followed. *)
Inductive AnyError : Type :=
  | Dyn_Storage (e : StorageError)
  | Dyn_Merkle (e : MerkleError)
  | Dyn_Cell (e : CellError)
  | Dyn_Index (e : IndexError)
  | Dyn_Branch (e : BranchError)
  | Dyn_Record (e : RecordError)
  | Dyn_Name (e : CellNameError)
  | Dyn_Value (e : CellValueParseError)
  | Dyn_Term (e : TermError).

Inductive ApiError : Type :=
  | A_StoreFull
  | A_NotImplemented (operation : string)
  | A_NotFound
  | A_AlreadyExists
  | A_Reserved
  | A_InvalidArgument (message : Message) (source : option AnyError)
  | A_InvalidQuery (reason : string)
  | A_HandleInvalid
  | A_Conflict
  | A_Sealed
  | A_NoFrameToRollback
  | A_CommitUnavailable (requested head : CommitId)
  | A_Internal (source : AnyError).

(** ** [store_full] *)

(** [error.source()] of the errors that reach it. The source of a [Backend]
    error is the backend's own, not one of these; a transparent error delegates
    to what it wraps. *)
Definition error_source (e : AnyError) : option AnyError :=
  match e with
  | Dyn_Term (TE_Value v) => Some (Dyn_Value v)
  | _ => None
  end.

(** The wrapper that is followed: [wrapped] *)
Definition wrapped (e : AnyError) : option AnyError :=
  match e with
  | Dyn_Record e =>
      match e with
      | R_Storage e => Some (Dyn_Storage e)
      | R_Cells e => Some (Dyn_Cell e)
      | R_Branch e => Some (Dyn_Branch e)
      | _ => None
      end
  | Dyn_Branch e =>
      match e with
      | BE_Storage e => Some (Dyn_Storage e)
      | BE_Cells e => Some (Dyn_Cell e)
      | BE_Index e => Some (Dyn_Index e)
      | _ => None
      end
  | Dyn_Cell e =>
      match e with
      | CE_Storage e => Some (Dyn_Storage e)
      | CE_Merkle e => Some (Dyn_Merkle e)
      | _ => None
      end
  | Dyn_Index e =>
      match e with
      | IE_Storage e => Some (Dyn_Storage e)
      | IE_Merkle e => Some (Dyn_Merkle e)
      | _ => None
      end
  | Dyn_Merkle (MStorage e) => Some (Dyn_Storage e)
  | e => error_source e
  end.

(** The recursion, with the number of wrappers it may follow; the longest chain
    is record, branch, cells, trie, storage. *)
Fixpoint store_full_in (fuel : nat) (e : AnyError) : bool :=
  match e with
  | Dyn_Storage Full => true
  | _ => match fuel, wrapped e with S fuel, Some e => store_full_in fuel e | _, _ => false end
  end.
Definition store_full (e : AnyError) : bool := store_full_in 4 e.

(** ** Conversions *)

Definition invalid_argument (message : Message) : ApiError := A_InvalidArgument message None.
Definition internal (source : AnyError) : ApiError := if store_full source then A_StoreFull else A_Internal source.
Definition invalid_input (message : string) (source : AnyError) : ApiError := A_InvalidArgument (MText message) (Some source).

(** [From<CellNameError>], [From<CellValueParseError>] *)
Definition api_name_error (e : CellNameError) : ApiError := invalid_input "invalid cell name" (Dyn_Name e).
Definition api_value_error (e : CellValueParseError) : ApiError := invalid_input "invalid cell value" (Dyn_Value e).

(** [From<BranchError>] *)
Definition api_branch_error (e : BranchError) : ApiError :=
  match e with
  | HandleInvalid => A_HandleInvalid
  | Conflict => A_Conflict
  | Sealed => A_Sealed
  | NoFrameToRollback => A_NoFrameToRollback
  | e => internal (Dyn_Branch e)
  end.

(** [From<RecordError>] *)
Definition api_record_error (e : RecordError) : ApiError :=
  match e with
  | R_NotFound => A_NotFound
  | R_AlreadyExists => A_AlreadyExists
  | R_Reserved => A_Reserved
  | R_InvalidArgument why => invalid_argument (MRendered why)
  | R_CommitUnavailable requested head => A_CommitUnavailable requested head
  | R_Branch e => api_branch_error e
  | e => internal (Dyn_Record e)
  end.

(** The boxed source of an internal query error. *)
Definition boxed (source : IndexError + RecordError) : AnyError :=
  match source with inl e => Dyn_Index e | inr e => Dyn_Record e end.

(** [From<QueryError>] *)
Definition api_query_error (e : QueryError) : ApiError :=
  match e with
  | Q_InvalidArgument field source => A_InvalidArgument (MFilter field) (Some (Dyn_Term source))
  | Q_InvalidQuery reason => A_InvalidQuery reason
  | Q_NotImplemented operation => A_NotImplemented operation
  | Q_CommitUnavailable requested head => A_CommitUnavailable requested head
  | Q_Internal source => if store_full (boxed source) then A_StoreFull else A_Internal (boxed source)
  end.

(** * Requests: record_op.rs *)

Record Create := { create_values : RecordCells }.
Record Patch := { patch_changes : RecordPatch }.
Record Get := { get_names : option (list CellName) }.
Inductive Delete : Type := DeleteOp.

Record RecordOp (Op : Type) := { record_key : RecordKey; operation : Op }.
Arguments record_key {Op} _.
Arguments operation {Op} _.

(** [usize::MAX] *)
Definition USIZE_MAX : Z := 2 ^ 64 - 1.

(** [located] *)
Definition located (step : string) (name : bytes) (e : ApiError) : ApiError :=
  match e with
  | A_InvalidArgument message source => A_InvalidArgument (MLocated step name message) source
  | e => e
  end.

(** [validate_name] *)
Definition validate_name_step (step : string) (name : bytes) : res ApiError CellName :=
  map_err (fun e => located step name (api_name_error e)) (parse_user name USIZE_MAX).

(** [insert_named] *)
Definition insert_named {V} (values : gmap CellName V) (step : string) (name : bytes) (value : V) : res ApiError (gmap CellName V) :=
  cell_name ← validate_name_step step name;
  match values !! cell_name with
  | None => Ok (<[cell_name := value]> values)
  | Some _ => Err (located step name (invalid_argument (MText "duplicate cell name")))
  end.

(** The value of [attribute] and [field] steps *)
Definition kinded (step : string) (name : bytes) (value : CellValue) (kind : CellKind) : res ApiError CellValue :=
  map_err (fun e => located step name (api_value_error e)) (with_kind value kind).

(** ** [RecordOp<op::Create>] *)

Definition RecordOp_create (key : RecordKey) : RecordOp Create := {| record_key := key; operation := {| create_values := ∅ |} |}.

Definition Create_write (self : RecordOp Create) (step : string) (name : bytes) (value : CellValue) : res ApiError (RecordOp Create) :=
  cells ← insert_named (create_values (operation self)) step name value;
  Ok {| record_key := record_key self; operation := {| create_values := cells |} |}.

Definition Create_insert (self : RecordOp Create) (name : bytes) (value : CellValue) : res ApiError (RecordOp Create) :=
  Create_write self "insert" name value.
Definition Create_attribute (self : RecordOp Create) (name : bytes) (value : CellValue) : res ApiError (RecordOp Create) :=
  value ← kinded "attribute" name value Attribute;
  Create_write self "attribute" name value.
Definition Create_field (self : RecordOp Create) (name : bytes) (value : CellValue) : res ApiError (RecordOp Create) :=
  value ← kinded "field" name value Field;
  Create_write self "field" name value.

Definition Create_value (self : RecordOp Create) (name : bytes) : option CellValue := create_values (operation self) !! name.
Definition Create_cells (self : RecordOp Create) : list (CellName * CellValue) := entries (create_values (operation self)).
Definition into_create (self : RecordOp Create) : RecordKey * RecordCells := (record_key self, create_values (operation self)).

(** ** [RecordOp<op::Patch>] *)

Definition RecordOp_patch (key : RecordKey) : RecordOp Patch := {| record_key := key; operation := {| patch_changes := ∅ |} |}.

Definition Patch_edit (self : RecordOp Patch) (step : string) (name : bytes) (change : CellPatch) : res ApiError (RecordOp Patch) :=
  changes ← insert_named (patch_changes (operation self)) step name change;
  Ok {| record_key := record_key self; operation := {| patch_changes := changes |} |}.

Definition Patch_set (self : RecordOp Patch) (name : bytes) (value : CellValue) : res ApiError (RecordOp Patch) :=
  Patch_edit self "set" name (PatchSet value).
Definition Patch_attribute (self : RecordOp Patch) (name : bytes) (value : CellValue) : res ApiError (RecordOp Patch) :=
  value ← kinded "attribute" name value Attribute;
  Patch_edit self "attribute" name (PatchSet value).
Definition Patch_field (self : RecordOp Patch) (name : bytes) (value : CellValue) : res ApiError (RecordOp Patch) :=
  value ← kinded "field" name value Field;
  Patch_edit self "field" name (PatchSet value).
Definition Patch_remove (self : RecordOp Patch) (name : bytes) : res ApiError (RecordOp Patch) :=
  Patch_edit self "remove" name PatchRemove.

Definition Patch_value (self : RecordOp Patch) (name : bytes) : option CellValue :=
  match patch_changes (operation self) !! name with
  | Some (PatchSet value) => Some value
  | _ => None
  end.
Definition Patch_removes (self : RecordOp Patch) (name : bytes) : bool :=
  match patch_changes (operation self) !! name with
  | Some PatchRemove => true
  | _ => false
  end.
Definition Patch_changes (self : RecordOp Patch) : list (CellName * option CellValue) :=
  (fun '(name, change) => (name, match change with PatchSet value => Some value | PatchRemove => None end)) <$>
    entries (patch_changes (operation self)).
Definition into_patch (self : RecordOp Patch) : RecordKey * RecordPatch := (record_key self, patch_changes (operation self)).

(** ** [RecordOp<op::Get>] and [RecordOp<op::Delete>] *)

Definition RecordOp_get (key : RecordKey) : RecordOp Get := {| record_key := key; operation := {| get_names := None |} |}.
Definition Get_only (self : RecordOp Get) (names : list bytes) : RecordOp Get :=
  {| record_key := record_key self; operation := {| get_names := Some (projection names) |} |}.
Definition Get_projection (self : RecordOp Get) : option (list CellName) := get_names (operation self).
Definition RecordOp_delete (key : RecordKey) : RecordOp Delete := {| record_key := key; operation := DeleteOp |}.

(** * Results: types.rs *)

Record SealInfo := { si_commit_id : CommitId; si_state_root : Hash; si_index_root : Hash }.

Definition SealInfo_from (sealed : SealedCommit) : SealInfo :=
  {| si_commit_id := sl_commit_id sealed; si_state_root := sl_state_root sealed; si_index_root := sl_index_root sealed |}.

(** Immutable data: immutable_data.rs *)
Abbreviation ImmutableDataKey := bytes.
Abbreviation ImmutableDataOrdinal := Z.
Abbreviation ImmutableDataRow := (list bytes).
Inductive ImmutableDataAddress : Type :=
  | Ordinal (ordinal : ImmutableDataOrdinal)
  | ByKey (key : ImmutableDataKey).

(** * The adapter: database.rs

    [Branches], [Records] and [Queries] of [Inner] are clones over one registry
    and one store, so that its state is the manager's. *)

Section Inner.
Context `{Roaring} `{HashProvider} {S T : Type} `{WT : WriteTransaction T} `{!Store S T}.
Abbreviation Inner := (Db S).
Abbreviation call A := (stres Inner ApiError A).

Definition Inner_new (store : S) (next : Z) : res OpenError Inner := map_err O_Branch (db_new store next).

Definition Inner_create (branch : BranchId) (op : RecordOp Create) : call RecordKey :=
  let '(key, cells) := into_create op in
  st_map_err api_record_error (Records_create branch key cells).
Definition Inner_get (fuel : nat) (target : ReadTarget) (op : RecordOp Get) : call Record_ :=
  st_map_err api_record_error (Records_get fuel target (record_key op) (Get_projection op)).
Definition Inner_patch (branch : BranchId) (op : RecordOp Patch) : call unit :=
  let '(key, patch) := into_patch op in
  st_map_err api_record_error (Records_patch branch key patch).
Definition Inner_delete (fuel : nat) (branch : BranchId) (op : RecordOp Delete) : call unit :=
  st_map_err api_record_error (Records_delete fuel branch (record_key op)).

Definition Inner_query (fuel : nat) (commit : option CommitId) (op : QueryOp) : call QueryPage :=
  st_map_err api_query_error (reading (fun db => Queries_query fuel (db_store db) commit op)).
Definition Inner_count (fuel : nat) (commit : option CommitId) (op : CountOp) : call Z :=
  st_map_err api_query_error (reading (fun db => Queries_count fuel (db_store db) commit op)).

Definition Inner_head : call CommitId := st_map_err api_branch_error (reading (fun db => db_head db)).
Definition Inner_begin : call BranchId := st_map_err api_branch_error db_begin.
Definition Inner_branch_info (branch : BranchId) : call BranchInfo := st_map_err api_branch_error (db_branch_info branch).
Definition Inner_checkpoint (branch : BranchId) : call unit := st_map_err api_branch_error (db_checkpoint branch).
Definition Inner_rollback (branch : BranchId) : call unit := st_map_err api_branch_error (db_rollback branch).
Definition Inner_seal (branch : BranchId) : call SealInfo :=
  st_map_err api_branch_error (sealed ← db_seal branch; mret (SealInfo_from sealed)).
Definition Inner_commit (branch : BranchId) : call CommitId := st_map_err api_branch_error (db_commit branch).
Definition Inner_discard (branch : BranchId) : call unit := st_map_err api_branch_error (db_discard branch).

Definition Inner_immutable_data_append (branch : BranchId) (segment : bytes) (key : option ImmutableDataKey) (row : ImmutableDataRow)
    : call ImmutableDataOrdinal := lift_res (Err (A_NotImplemented "immutable_data_append")).
Definition Inner_immutable_data_get (segment : bytes) (address : ImmutableDataAddress) : call ImmutableDataRow :=
  lift_res (Err (A_NotImplemented "immutable_data_get")).
Definition Inner_immutable_data_range_of (segment : bytes) (commit : CommitId) : call (ImmutableDataOrdinal * ImmutableDataOrdinal) :=
  lift_res (Err (A_NotImplemented "immutable_data_range_of")).
Definition Inner_immutable_data_rows_of (segment : bytes) (commit : CommitId) : call (list ImmutableDataRow) :=
  lift_res (Err (A_NotImplemented "immutable_data_rows_of")).
End Inner.

(** * The handle: database.rs *)

(** [OpenConfig::new], [OpenConfig::with_mode] *)
Definition OpenConfig_new (genesis : GenesisConfig) : OpenConfig := {| oc_genesis := genesis; oc_mode := CreateIfMissing |}.
Definition OpenConfig_with_mode (config : OpenConfig) (mode : OpenMode) : OpenConfig := {| oc_genesis := oc_genesis config; oc_mode := mode |}.

(** The clones of a handle share its [Inner]. *)
Record Database (S : Type) := { dbs_inner : Db S; dbs_genesis : GenesisConfig; dbs_info : OpenInfo }.
Arguments dbs_inner {S} _.
Arguments dbs_genesis {S} _.
Arguments dbs_info {S} _.

Section Database.
Context `{Roaring} {S T : Type} `{WT : WriteTransaction T} `{ST : !Store S T}.

(** [Keccak256Hasher] and [Blake3Hasher] *)
Context (Keccak256Hasher Blake3Hasher : list bytes -> Hash).
Definition hasher (algorithm : HashAlgorithm) : HashProvider :=
  match algorithm with Keccak256 => Keccak256Hasher | Blake3 => Blake3Hasher end.

(** [from_opened] *)
Definition Database_from_opened (genesis : GenesisConfig) (info : OpenInfo) (store : S) (next : Z) : res OpenError (Database S) :=
  inner ← Inner_new store next;
  Ok {| dbs_inner := inner; dbs_genesis := genesis; dbs_info := info |}.

(** [from_store], with the store's limits and the process's branch counter *)
Definition Database_from_store (max_key max_value : Z) (config : OpenConfig) (next : Z) : stres S OpenError (Database S) :=
  info ← (let H : HashProvider := hasher (hash_function (oc_genesis config)) in open_store max_key max_value config);
  reading (fun store => Database_from_opened (oc_genesis config) info store next).

(** [open_mdbx] and [open_with_options]: [try_exists] says whether the path is
    there, [opened] is the backend that opening it gives. *)
Definition open_mdbx (try_exists : res string bool) (opened : res StorageError S) (max_key max_value : Z) (config : OpenConfig)
    : res OpenError (OpenInfo * S) :=
  _ ← (if bool_decide (oc_mode config = ExistingOnly)
       then there ← map_err O_Io try_exists; if negb there then Err O_NotInitialized else Ok ()
       else Ok ());
  store ← map_err O_Storage opened;
  let '(r, store) := (let H : HashProvider := hasher (hash_function (oc_genesis config)) in open_store max_key max_value config store) in
  info ← r;
  Ok (info, store).
Definition Database_open_with_options (try_exists : res string bool) (opened : res StorageError S) (max_key max_value : Z) (config : OpenConfig)
    (next : Z) : res OpenError (Database S) :=
  '(info, store) ← open_mdbx try_exists opened max_key max_value config;
  Database_from_opened (oc_genesis config) info store next.
(** [open]: the backend's default capacity settings *)
Definition Database_open (try_exists : res string bool) (opened : MdbxOptions -> res StorageError S) (max_key max_value : Z) (config : OpenConfig)
    : Z -> res OpenError (Database S) :=
  Database_open_with_options try_exists (opened MdbxOptions_default) max_key max_value config.

(** One call per operation, with the hash function chosen at opening *)
Definition dispatch {A} (op : HashProvider -> stres (Db S) ApiError A) : stres (Database S) ApiError A := fun d =>
  let '(r, inner) := op (hasher (hash_function (dbs_genesis d))) (dbs_inner d) in
  (r, {| dbs_inner := inner; dbs_genesis := dbs_genesis d; dbs_info := dbs_info d |}).

Definition Database_create (branch : BranchId) (op : RecordOp Create) := dispatch (fun _ => Inner_create branch op).
Definition Database_get (fuel : nat) (target : ReadTarget) (op : RecordOp Get) := dispatch (fun _ => Inner_get fuel target op).
Definition Database_patch (branch : BranchId) (op : RecordOp Patch) := dispatch (fun _ => Inner_patch branch op).
Definition Database_delete (fuel : nat) (branch : BranchId) (op : RecordOp Delete) := dispatch (fun _ => Inner_delete fuel branch op).
Definition Database_query (fuel : nat) (commit : option CommitId) (op : QueryOp) := dispatch (fun _ => Inner_query fuel commit op).
Definition Database_count (fuel : nat) (commit : option CommitId) (op : CountOp) := dispatch (fun _ => Inner_count fuel commit op).
Definition Database_head := dispatch (fun _ => Inner_head).
Definition Database_begin := dispatch (fun _ => Inner_begin).
Definition Database_branch_info (branch : BranchId) := dispatch (fun _ => Inner_branch_info branch).
Definition Database_checkpoint (branch : BranchId) := dispatch (fun _ => Inner_checkpoint branch).
Definition Database_rollback (branch : BranchId) := dispatch (fun _ => Inner_rollback branch).
Definition Database_seal (branch : BranchId) := dispatch (fun _ => Inner_seal branch).
Definition Database_commit (branch : BranchId) := dispatch (fun _ => Inner_commit branch).
Definition Database_discard (branch : BranchId) := dispatch (fun _ => Inner_discard branch).
Definition Database_immutable_data_append branch segment key row := dispatch (fun _ => Inner_immutable_data_append branch segment key row).
Definition Database_immutable_data_get segment address := dispatch (fun _ => Inner_immutable_data_get segment address).
Definition Database_immutable_data_range_of segment commit := dispatch (fun _ => Inner_immutable_data_range_of segment commit).
Definition Database_immutable_data_rows_of segment commit := dispatch (fun _ => Inner_immutable_data_rows_of segment commit).
End Database.

(** [open_memory]: the memory store keeps the trait's limits. *)
Definition Database_open_memory `{Roaring} (Keccak256Hasher Blake3Hasher : list bytes -> Hash) (genesis : GenesisConfig) (next : Z)
    : res OpenError (Database MemoryStore) :=
  (Database_from_store Keccak256Hasher Blake3Hasher USIZE_MAX USIZE_MAX (OpenConfig_new genesis) next MemoryStore_new).1.
