(* ===== verification/ApiSpec.v ===== *)
(** What the facade's builders and error conversions do, and record sessions
    through the facade on a memory store. *)
From Stdlib Require Import ZArith Lia.
From S2P Require Import Prelude Ordered Groups Storage Scan CellTypes CellValue CellName MerkleNode MerkleTrie MerkleTree MerkleEdit MerkleSpec Samples.
From S2P Require Import BranchTypes CellScan Overlay Cells Buffer Term Bitmap BitmapSpec Index IndexSpec IndexReads IndexClaims Seal CellIndex SealSpec SealClaims.
From S2P Require Import Branches Records RecordsSpec CommittedSpec Query QuerySpec Genesis GenesisSpec OpenSpec Limits KeyedStore SampleStore SampleCommit CommitSpec Api.

#[local] Open Scope Z_scope.

(** * Builders *)

(** The builder calls that a creation and a patch can be chained through. *)
Inductive CreateStep : Type :=
  | CreateInsert (name : bytes) (value : CellValue)
  | CreateAttribute (name : bytes) (value : CellValue)
  | CreateField (name : bytes) (value : CellValue).
Inductive PatchStep : Type :=
  | StepSet (name : bytes) (value : CellValue)
  | StepAttribute (name : bytes) (value : CellValue)
  | StepField (name : bytes) (value : CellValue)
  | StepRemove (name : bytes).

Definition create_step (self : RecordOp Create) (step : CreateStep) : res ApiError (RecordOp Create) :=
  match step with
  | CreateInsert name value => Create_insert self name value
  | CreateAttribute name value => Create_attribute self name value
  | CreateField name value => Create_field self name value
  end.
Definition patch_step (self : RecordOp Patch) (step : PatchStep) : res ApiError (RecordOp Patch) :=
  match step with
  | StepSet name value => Patch_set self name value
  | StepAttribute name value => Patch_attribute self name value
  | StepField name value => Patch_field self name value
  | StepRemove name => Patch_remove self name
  end.

Fixpoint chain {A B} (f : A -> B -> res ApiError A) (a : A) (steps : list B) : res ApiError A :=
  match steps with
  | [] => Ok a
  | step :: steps => a ← f a step; chain f a steps
  end.

(** What a step says: its label, the cell's name, and the change it means. *)
Record Entry_ (V : Type) := { en_step : string; en_name : bytes; en_value : res CellValueParseError V }.
Arguments en_step {V} _.
Arguments en_name {V} _.
Arguments en_value {V} _.

Definition create_entry (step : CreateStep) : Entry_ CellValue :=
  match step with
  | CreateInsert name value => {| en_step := "insert"; en_name := name; en_value := Ok value |}
  | CreateAttribute name value => {| en_step := "attribute"; en_name := name; en_value := with_kind value Attribute |}
  | CreateField name value => {| en_step := "field"; en_name := name; en_value := with_kind value Field |}
  end.
Definition patch_entry (step : PatchStep) : Entry_ CellPatch :=
  match step with
  | StepSet name value => {| en_step := "set"; en_name := name; en_value := Ok (PatchSet value) |}
  | StepAttribute name value => {| en_step := "attribute"; en_name := name; en_value := value ← with_kind value Attribute; Ok (PatchSet value) |}
  | StepField name value => {| en_step := "field"; en_name := name; en_value := value ← with_kind value Field; Ok (PatchSet value) |}
  | StepRemove name => {| en_step := "remove"; en_name := name; en_value := Ok PatchRemove |}
  end.

Section Collected.
Context {V : Type}.
Implicit Types (l : list (Entry_ V)) (m : gmap CellName V).

(** Each name is a user name, no name is repeated, each value has its kind. *)
Definition clean l : Prop :=
  NoDup (en_name <$> l) /\ Forall (fun e => user_name (en_name e) /\ Z.of_nat (length (en_name e)) <= USIZE_MAX /\ is_ok (en_value e) = true) l.

Definition collected l m : Prop := forall name v, m !! name = Some v <-> exists e, e ∈ l /\ en_name e = name /\ en_value e = Ok v.

(** The fault of the first step that has one, located at it. *)
Definition fault (before : list (Entry_ V)) (e : Entry_ V) (error : ApiError) : Prop :=
  exists message source, error = A_InvalidArgument (MLocated (en_step e) (en_name e) message) source /\
    ((exists why, en_value e = Err why /\ source = Some (Dyn_Value why)) \/
     (exists why, parse_user (en_name e) USIZE_MAX = Err why /\ source = Some (Dyn_Name why)) \/
     (en_name e ∈ en_name <$> before /\ source = None)).

Definition builds l (r : res ApiError (gmap CellName V)) : Prop :=
  match r with
  | Ok m => clean l /\ collected l m
  | Err error => exists before e after, l = before ++ e :: after /\ clean before /\ fault before e error
  | _ => False
  end.

(** A step as every builder performs it. *)
Definition enter m (e : Entry_ V) : res ApiError (gmap CellName V) :=
  v ← map_err (fun why => located (en_step e) (en_name e) (api_value_error why)) (en_value e);
  insert_named m (en_step e) (en_name e) v.

Lemma parse_user_result name n : (exists why, parse_user name n = Err why) \/ (parse_user name n = Ok name /\ user_name name /\ Z.of_nat (length name) <= n).
Proof using.
  destruct (parse_user name n) as [r|why| |] eqn:E; [right| |exfalso..].
  - apply parse_user_ok in E as (-> & Hl & Hu). done.
  - left. by exists why.
  - unfold parse_user in E. case_match; [done|]. destruct (strip_dollar name) as [l|]; unfold check in E; repeat case_match; done.
  - unfold parse_user in E. case_match; [done|]. destruct (strip_dollar name) as [l|]; unfold check in E; repeat case_match; done.
Qed.

Lemma clean_app l e : clean l -> en_name e ∉ en_name <$> l -> user_name (en_name e) -> Z.of_nat (length (en_name e)) <= USIZE_MAX ->
  is_ok (en_value e) = true -> clean (l ++ [e]).
Proof using.
  intros [Hn Hf] He Hu Hl Hok. split.
  - rewrite fmap_app. apply NoDup_app. split; [done|]. split; [|apply NoDup_singleton]. intros n Hin ->%list_elem_of_singleton. done.
  - apply Forall_app. split; [done|]. by apply Forall_singleton.
Qed.

Lemma collected_app l m e v : clean l -> collected l m -> en_name e ∉ en_name <$> l -> en_value e = Ok v -> collected (l ++ [e]) (<[en_name e := v]> m).
Proof using.
  intros Hc Hm He Hv name w. rewrite lookup_insert_Some. split.
  - intros [[<- <-]|[Hne (e' & Hin & En & Ev)%Hm]]; [exists e|exists e']; (split; [|done]); apply elem_of_app; [right; by apply list_elem_of_singleton|by left].
  - intros (e' & [Hin|Hin%list_elem_of_singleton]%elem_of_app & En & Ev).
    + right. split; [|apply Hm; by exists e']. intros <-. apply He, list_elem_of_fmap. by exists e'.
    + subst e'. left. split; [done|congruence].
Qed.

(** One step after clean ones: entered, or at fault. *)
Lemma enter_cases l m e : clean l -> collected l m -> is_ok (en_value e) = true \/ (exists why, en_value e = Err why) ->
  (exists v, enter m e = Ok (<[en_name e := v]> m) /\ clean (l ++ [e]) /\ collected (l ++ [e]) (<[en_name e := v]> m)) \/
  (exists error, enter m e = Err error /\ fault l e error).
Proof using.
  intros Hc Hm He. unfold enter. destruct He as [He|[why He]].
  2:{ right. rewrite He. eexists. split; [reflexivity|]. eexists _, _. split; [reflexivity|]. left. by exists why. }
  destruct (en_value e) as [v|why| |] eqn:Ev; [|done..]. unfold mbind, res_mbind. cbn [map_err].
  unfold insert_named, validate_name_step. destruct (parse_user_result (en_name e) USIZE_MAX) as [[why Ep]|(Ep & Hu & Hl)]; rewrite Ep; cbn [map_err].
  { right. eexists. split; [reflexivity|]. eexists _, _. split; [reflexivity|]. right. left. by exists why. }
  unfold mbind, res_mbind. destruct (m !! en_name e) as [w|] eqn:Em.
  - right. eexists. split; [reflexivity|]. eexists _, _. split; [reflexivity|]. right. right. split; [|done].
    apply Hm in Em as (e' & Hin & En & _). apply list_elem_of_fmap. by exists e'.
  - left. exists v. assert (en_name e ∉ en_name <$> l) as Hnew.
    { intros (e' & En & Hin)%list_elem_of_fmap. destruct Hc as [_ Hf]. rewrite Forall_forall in Hf. destruct (Hf e' Hin) as (_ & _ & Hok).
      destruct (en_value e') as [w| | |] eqn:Ew; [|done..]. assert (m !! en_name e = Some w) by (apply Hm; by exists e'). congruence. }
    split; [done|]. split; [apply clean_app; [done..|by rewrite Ev]|by apply collected_app].
Qed.

(** The whole chain, from what earlier steps collected. *)
Lemma chain_builds done_ m l : clean done_ -> collected done_ m -> Forall (fun e => is_ok (en_value e) = true \/ exists why, en_value e = Err why) l ->
  builds (done_ ++ l) (chain enter m l).
Proof using.
  revert done_ m. induction l as [|e l IH]; intros d m Hc Hm Hl; cbn [chain].
  - rewrite app_nil_r. done.
  - apply Forall_cons in Hl as [He Hl]. destruct (enter_cases d m e Hc Hm He) as [(v & -> & Hc' & Hm')|(error & -> & Hf)].
    + unfold mbind, res_mbind. rewrite cons_middle, app_assoc. by apply IH.
    + exists d, e, l. done.
Qed.
End Collected.

Lemma with_kind_cases v kind : is_ok (with_kind v kind) = true \/ exists why, with_kind v kind = Err why.
Proof. unfold with_kind. destruct (_ && _); [right; by eexists|by left]. Qed.

(** The builders are such chains. *)
Definition build_create (key : RecordKey) (steps : list CreateStep) : res ApiError (RecordOp Create) := chain create_step (RecordOp_create key) steps.
Definition build_patch (key : RecordKey) (steps : list PatchStep) : res ApiError (RecordOp Patch) := chain patch_step (RecordOp_patch key) steps.

Lemma create_step_enter self step :
  create_step self step = values ← enter (create_values (operation self)) (create_entry step); Ok {| record_key := record_key self; operation := {| create_values := values |} |}.
Proof.
  destruct step; cbn [create_step create_entry]; unfold Create_insert, Create_attribute, Create_field, Create_write, enter, kinded; cbn [en_step en_name en_value];
    [|destruct (with_kind value _)..]; done.
Qed.
Lemma patch_step_enter self step :
  patch_step self step = changes ← enter (patch_changes (operation self)) (patch_entry step); Ok {| record_key := record_key self; operation := {| patch_changes := changes |} |}.
Proof.
  destruct step; cbn [patch_step patch_entry]; unfold Patch_set, Patch_attribute, Patch_field, Patch_remove, Patch_edit, enter, kinded; cbn [en_step en_name en_value];
    [|destruct (with_kind value _)..|]; done.
Qed.

Lemma create_chain steps self : chain create_step self steps =
  values ← chain enter (create_values (operation self)) (create_entry <$> steps); Ok {| record_key := record_key self; operation := {| create_values := values |} |}.
Proof.
  revert self. induction steps as [|step steps IH]; intros self; [by destruct self as [? []]|]. cbn [chain fmap list_fmap]. rewrite create_step_enter.
  unfold mbind, res_mbind. destruct (enter _ _); [|done..]. by rewrite IH.
Qed.
Lemma patch_chain steps self : chain patch_step self steps =
  changes ← chain enter (patch_changes (operation self)) (patch_entry <$> steps); Ok {| record_key := record_key self; operation := {| patch_changes := changes |} |}.
Proof.
  revert self. induction steps as [|step steps IH]; intros self; [by destruct self as [? []]|]. cbn [chain fmap list_fmap]. rewrite patch_step_enter.
  unfold mbind, res_mbind. destruct (enter _ _); [|done..]. by rewrite IH.
Qed.

Lemma create_entry_ends step : is_ok (en_value (create_entry step)) = true \/ exists why, en_value (create_entry step) = Err why.
Proof. destruct step; cbn; [by left|apply with_kind_cases..]. Qed.
Lemma patch_entry_ends step : is_ok (en_value (patch_entry step)) = true \/ exists why, en_value (patch_entry step) = Err why.
Proof.
  destruct step as [| ? value | ? value |]; cbn; [by left| | |by left];
    (destruct (with_kind_cases value Attribute) as [Ha|[w Ha]]; destruct (with_kind_cases value Field) as [Hf|[w' Hf]]);
    repeat (destruct (with_kind value _)); try done; unfold mbind, res_mbind; eauto.
Qed.

Lemma empty_builds {V} (l : list (Entry_ V)) : Forall (fun e => is_ok (en_value e) = true \/ exists why, en_value e = Err why) l -> builds l (chain enter ∅ l).
Proof.
  apply (chain_builds [] ∅ l); [by split; [apply NoDup_nil|apply Forall_nil]|]. intros name v. rewrite lookup_empty. split; [done|]. by intros (e & Hin%not_elem_of_nil & _).
Qed.

(** * Capacity *)

(** One error wraps another: every variant of the engine's errors that does. *)
Inductive carries : AnyError -> AnyError -> Prop :=
  | record_storage e : carries (Dyn_Record (R_Storage e)) (Dyn_Storage e)
  | record_cells e : carries (Dyn_Record (R_Cells e)) (Dyn_Cell e)
  | record_branch e : carries (Dyn_Record (R_Branch e)) (Dyn_Branch e)
  | branch_cells e : carries (Dyn_Branch (BE_Cells e)) (Dyn_Cell e)
  | branch_index e : carries (Dyn_Branch (BE_Index e)) (Dyn_Index e)
  | branch_term e : carries (Dyn_Branch (BE_Term e)) (Dyn_Term e)
  | branch_storage e : carries (Dyn_Branch (BE_Storage e)) (Dyn_Storage e)
  | branch_value e : carries (Dyn_Branch (BE_Value e)) (Dyn_Value e)
  | cell_storage e : carries (Dyn_Cell (CE_Storage e)) (Dyn_Storage e)
  | cell_merkle e : carries (Dyn_Cell (CE_Merkle e)) (Dyn_Merkle e)
  | cell_value e : carries (Dyn_Cell (CE_Value e)) (Dyn_Value e)
  | index_storage e : carries (Dyn_Index (IE_Storage e)) (Dyn_Storage e)
  | index_merkle e : carries (Dyn_Index (IE_Merkle e)) (Dyn_Merkle e)
  | index_term e : carries (Dyn_Index (IE_Term e)) (Dyn_Term e)
  | merkle_storage e : carries (Dyn_Merkle (MStorage e)) (Dyn_Storage e)
  | term_value e : carries (Dyn_Term (TE_Value e)) (Dyn_Value e).

(** The store's capacity error is somewhere inside. *)
Definition exhausted (e : AnyError) : Prop := rtc carries e (Dyn_Storage Full).

Lemma exhausted_inv e : exhausted e <-> e = Dyn_Storage Full \/ exists e', carries e e' /\ exhausted e'.
Proof.
  split; [by intros [->|(e' & Hc & Hr)]%rtc_inv; [left|right; exists e']|].
  intros [->|(e' & Hc & Hr)]; [apply rtc_refl|by eapply rtc_l].
Qed.

(** Inversion of one wrapper *)
Ltac exhausted_step :=
  rewrite exhausted_inv; split; [intros [E|(e' & Hc & He)]; [congruence || (injection E as ->; done)|inversion Hc; subst; done]|].

Lemma exhausted_storage e : exhausted (Dyn_Storage e) <-> e = Full.
Proof. exhausted_step. intros ->. by left. Qed.
Lemma exhausted_value e : exhausted (Dyn_Value e) <-> False.
Proof. by exhausted_step. Qed.
Lemma exhausted_term e : exhausted (Dyn_Term e) <-> False.
Proof. rewrite exhausted_inv. split; [|done]. intros [|(e' & Hc & He)]; [done|]. inversion Hc; subst. by apply exhausted_value in He. Qed.

Lemma exhausted_wrapped e : (forall s, e <> Dyn_Storage s) -> exhausted e <-> exists e', wrapped e = Some e' /\ exhausted e'.
Proof.
  intros Hs. rewrite exhausted_inv. split.
  - intros [->|(e' & Hc & He)]; [by destruct (Hs Full)|]. destruct Hc; try (by eexists); (by apply exhausted_term in He || by apply exhausted_value in He).
  - intros (e' & Hw & He). right. exists e'. split; [|done].
    destruct e as [e|e|e|e|e|e|e|e|e]; try done; destruct e; try done; cbn in Hw; injection Hw as <-; constructor.
Qed.

Lemma store_full_wrapped n e : (forall s, e <> Dyn_Storage s) ->
  store_full_in (S n) e = match wrapped e with Some e => store_full_in n e | None => false end.
Proof. destruct e; try done. intros Hs. by edestruct Hs. Qed.

(** The fuel is enough: each error wraps errors of lower layers only. *)
Definition layer (e : AnyError) : nat :=
  match e with
  | Dyn_Record _ => 4
  | Dyn_Branch _ => 3
  | Dyn_Cell _ | Dyn_Index _ => 2
  | Dyn_Merkle _ | Dyn_Term _ => 1
  | Dyn_Storage _ | Dyn_Name _ | Dyn_Value _ => 0
  end.

Lemma wrapped_layer e e' : wrapped e = Some e' -> (layer e' < layer e)%nat.
Proof. destruct e as [e|e|e|e|e|e|e|e|e]; try done; destruct e; try done; intros [= <-]; cbn; lia. Qed.

Lemma store_full_in_spec n e : (layer e <= n)%nat -> store_full_in n e = true <-> exhausted e.
Proof.
  revert e. induction n as [|n IH]; intros e Hn.
  - destruct e; cbn in Hn; try lia; rewrite ?exhausted_storage, ?exhausted_value; [by destruct e| |done].
    split; [done|]. intros [E|(e' & Hc & _)]%exhausted_inv; [done|inversion Hc].
  - assert ((exists s, e = Dyn_Storage s) \/ forall s, e <> Dyn_Storage s) as [[s ->]|Hs] by (destruct e; eauto; right; by intros s).
    + rewrite exhausted_storage. by destruct s.
    + rewrite (store_full_wrapped n e Hs), (exhausted_wrapped e Hs). destruct (wrapped e) as [e'|] eqn:Ew.
      * rewrite IH by (apply wrapped_layer in Ew; lia). split; [by exists e'|]. by intros (? & [= <-] & ?).
      * split; [done|]. by intros (? & ? & _).
Qed.

Lemma store_full_spec e : store_full e = true <-> exhausted e.
Proof. apply store_full_in_spec. destruct e; cbn; lia. Qed.

Lemma internal_spec e : (internal e = A_StoreFull <-> exhausted e) /\ forall source, internal e = A_Internal source -> ~ exhausted source.
Proof.
  unfold internal. rewrite <- store_full_spec. destruct (store_full e) eqn:E; (split; [done|]); [done|].
  intros s [= <-]. rewrite <- store_full_spec. congruence.
Qed.

Lemma branch_error_spec e : (api_branch_error e = A_StoreFull <-> exhausted (Dyn_Branch e)) /\
  forall source, api_branch_error e = A_Internal source -> ~ exhausted source.
Proof.
  destruct e; try apply (internal_spec (Dyn_Branch _)); (split; [|done]); (split; [done|]);
    (intros [E|(e' & Hc & _)]%exhausted_inv; [done|inversion Hc]).
Qed.

Lemma record_error_spec e : (api_record_error e = A_StoreFull <-> exhausted (Dyn_Record e)) /\
  forall source, api_record_error e = A_Internal source -> ~ exhausted source.
Proof.
  destruct e as [| | | | | | | | |e]; try apply (internal_spec (Dyn_Record _)); try ((split; [|done]); (split; [done|]);
    (intros [E|(e' & Hc & _)]%exhausted_inv; [done|inversion Hc])).
  cbn [api_record_error]. destruct (branch_error_spec e) as [Hb Hn]. split; [|done]. rewrite Hb, (exhausted_wrapped (Dyn_Record _)) by done.
  cbn [wrapped]. split; [eauto|]. by intros (? & [= <-] & ?).
Qed.

Lemma query_error_spec e : (api_query_error e = A_StoreFull <-> exists source, e = Q_Internal source /\ exhausted (boxed source)) /\
  forall source, api_query_error e = A_Internal source -> ~ exhausted source.
Proof.
  destruct e as [| | | |s]; try (split; [split; [done|by intros (? & ? & _)]|done]).
  destruct (internal_spec (boxed s)) as [Hi Hn]. split; [|exact Hn]. change (api_query_error (Q_Internal s)) with (internal (boxed s)). rewrite Hi.
  split; [by exists s|]. by intros (? & [= ->] & ?).
Qed.

(** * Sessions *)

(** The facade's form of a record call. *)
Section Sessions.
Context `{Roaring} `{HashProvider}.

Definition api_call (fuel : nat) (id : BranchId) (op : Call) : stres (Db MemoryStore) ApiError Answer :=
  match op with
  | OpGet key projection =>
      record ← Inner_get fuel (TargetBranch id) {| record_key := key; operation := {| get_names := projection |} |}; mret (AnsRecord record)
  | OpCreate key values => key ← Inner_create id {| record_key := key; operation := {| create_values := values |} |}; mret (AnsKey key)
  | OpPatch key changes => _ ← Inner_patch id {| record_key := key; operation := {| patch_changes := changes |} |}; mret AnsUnit
  | OpDelete key => _ ← Inner_delete fuel id {| record_key := key; operation := DeleteOp |}; mret AnsUnit
  end.

Lemma api_call_record fuel id op db : api_call fuel id op db = st_map_err api_record_error (rec_call fuel id op) db.
Proof using.
  destruct op; unfold api_call, rec_call, Inner_get, Inner_create, Inner_patch, Inner_delete, into_create, into_patch, Get_projection;
    cbn [record_key operation get_names create_values patch_changes]; unfold st_map_err, mbind, stres_mbind;
    match goal with |- context [let '(r, s') := ?c db in _] => destruct (c db) as [[] ?] end; done.
Qed.

Lemma api_calls_record fuel id ops db : run_calls (api_call fuel id) ops db =
  (map_err api_record_error <$> (run_calls (rec_call fuel id) ops db).1, (run_calls (rec_call fuel id) ops db).2).
Proof using.
  revert db. induction ops as [|op ops IH]; intros db; [done|]. cbn [run_calls]. rewrite api_call_record. unfold st_map_err.
  destruct (rec_call fuel id op db) as [r db1]. rewrite IH. by destruct (run_calls (rec_call fuel id) ops db1).
Qed.
End Sessions.

(** An idle memory store whose published rows are a valid store that shows
    these records. *)
Record serves `{Roaring} `{HashProvider} (config : GenesisConfig) (s : MemoryStore) (tx : MemoryTx) (head : Head) (cell_root index_root : RootRef)
    (W : CellMap) (ks : KeyedStore) : Prop := {
  srv_idle : idle s;
  srv_read : begin_read s = Ok tx;
  srv_valid : store_valid tx config head cell_root index_root W (ks_next ks);
  srv_shows : shows (cell_limits config) W ks
}.

Section Session.
Context `{Roaring} {RO : RoaringLaws} `{HashProvider} {HL : HashLaws}.
Context (config : GenesisConfig) (tx : MemoryTx) (head : Head) (cell_root index_root : RootRef) (W : CellMap) (ks : KeyedStore).

Lemma begin_serves (db : Db MemoryStore) : serves config (db_store db) tx head cell_root index_root W ks -> db_next_branch_id db < 2 ^ 64 - 1 ->
  exists id db1, Inner_begin db = (Ok id, db1) /\ db_store db1 = db_store db /\ branch_shows db1 id tx W W.
Proof using.
  intros [_ Hr Hv _] Hn. pose proof (ss_head _ _ _ _ _ (sv_state _ _ _ _ _ _ _ Hv)) as Hh.
  assert (read_head tx = Ok (hd_commit_id head)) as Hhead by (unfold read_head; by rewrite Hh).
  assert (db_head db = Ok (hd_commit_id head)) as Hdb by (unfold db_head; by rewrite Hr).
  unfold Inner_begin, st_map_err, db_begin. rewrite Hdb. unfold begin_at, allocate_branch_id, checked_succ. rewrite (proj2 (Z.ltb_lt _ _) Hn).
  eexists _, _. split; [reflexivity|]. split; [reflexivity|]. eexists. split; [split; [apply lookup_insert_eq|done]|]. split; [reflexivity|].
  split; [apply (ss_cells _ _ _ _ _ (sv_state _ _ _ _ _ _ _ Hv))|].
  split; [intros k v Hk; cbn [bs_overlay ov_entries CellOverlay_new] in Hk; by rewrite lookup_empty in Hk|].
  apply map_eq. intros k. rewrite lookup_working. cbn [bs_overlay ov_entries CellOverlay_new]. by rewrite lookup_empty.
Qed.

(** Nothing staged on the branch meets a digest of something else. *)
Definition distinct_digests (db : Db MemoryStore) (id : BranchId) : Prop := forall st, live db id st tx ->
  digests_ok tx head cell_root index_root W (bs_overlay st) /\
  ~ clash (sealing cell_root index_root (seal_changes head (bs_overlay st)) (Buffered_new tx)).2.

(** A read at the head of a served store. *)
Lemma get_serves fuel (db : Db MemoryStore) key names : serves config (db_store db) tx head cell_root index_root W ks ->
  length key = 32%nat -> by_key key = None -> (size (view tx CELL) < fuel)%nat ->
  Inner_get fuel TargetHead {| record_key := key; operation := {| get_names := names |} |} db = (map_err api_record_error (ks_get ks key names), db).
Proof using.
  intros [_ Hr Hv Hs] Hlen Hu Hf. unfold Inner_get, st_map_err, Get_projection. cbn [record_key operation get_names Records_get]. unfold reading, read_committed, committed_snapshot. rewrite Hr.
  pose proof (sv_state _ _ _ _ _ _ _ Hv) as Hst.
  pose proof (read_by_key_ok tx W (proj1 (ss_cells _ _ _ _ _ Hst)) fuel (cell_limits config) (ks_next ks) key names (sh_inv _ _ _ Hs) Hlen Hf) as Hread.
  rewrite (sh_records _ _ _ Hs key Hlen Hu) in Hread. unfold mbind, res_mbind. cbn [map_err]. unfold read_head. rewrite (ss_head _ _ _ _ _ Hst).
  unfold mbind, res_mbind. cbn [map_err]. rewrite Hread. unfold ks_get. by destruct (ks_records ks !! key).
Qed.

Lemma conflict_internal O (e : BranchError) (b : Buffered MemoryTx) : seal_conflict O e b -> api_branch_error e = A_Internal (Dyn_Branch e).
Proof using. intros [->|[->| ->]]%seal_conflict_kind; done. Qed.

(** The commit of such a branch after calls that kept the record of roots. *)
Lemma commit_serves (db : Db MemoryStore) id W' ks' : serves config (db_store db) tx head cell_root index_root W ks ->
  0 <= commit_number (hd_commit_id head) < 2 ^ 64 - 1 -> branch_shows db id tx W W' -> same_roots W W' -> shows (cell_limits config) W' ks' ->
  distinct_digests db id ->
  match Inner_commit id db with
  | (Ok commit, db') => commit_number commit = commit_number (hd_commit_id head) + 1 /\ db_branches db' !! id = None /\
      exists tx' head' cell_root' index_root' W'', hd_commit_id head' = commit /\ serves config (db_store db') tx' head' cell_root' index_root' W'' ks'
  | (Err e, db') => db_store db' = db_store db /\ exists st e', live db id st tx /\ e = A_Internal (Dyn_Branch e') /\
      seal_conflict (sealed_cells head W (bs_overlay st)) e' (sealing cell_root index_root (seal_changes head (bs_overlay st)) (Buffered_new tx)).2
  | _ => False
  end.
Proof using All.
  intros [Hi Hr Hv Hs] Hnum (st & Hl & Hopen & Hd & Ho) Hroots Hs' Hdig. destruct (Hdig st Hl) as [Hdg Hcl].
  assert (keeps_roots W (bs_overlay st)) as Hk by (intros k Hk; rewrite (proj2 Ho); by apply Hroots).
  pose proof (commit_publishes db id st tx config head cell_root index_root W W' (ks_next ks) ks' Hi Hl ltac:(congruence) Hv Ho Hs' Hk Hdg Hnum Hcl) as Hc.
  unfold Inner_commit, st_map_err. destruct (db_commit id db) as [[commit|e| |] db']; cbn [map_err]; [| |done..].
  - destruct Hc as (Hn & Hgone & _ & Hi' & tx' & head' & cr & ir & W'' & Hr' & Eh & Hv' & Hs''). split; [done|]. split; [by rewrite Hgone, lookup_delete_eq|]. exists tx', head', cr, ir, W''. by split; [done|split].
  - destruct Hc as (Hcf & _ & ->). split; [done|]. exists st, e. split; [done|]. split; [by eapply conflict_internal|done].
Qed.
End Session.

(** * Opening in memory *)

Lemma memory_admits genesis : limits_ok (cell_limits genesis) -> max_cell_name_len (cell_limits genesis) <> 0 ->
  Genesis_validate genesis USIZE_MAX USIZE_MAX = Ok ().
Proof.
  intros (H1 & H2 & H3) Hn. unfold Genesis_validate. rewrite (proj2 (Z.eqb_neq _ _) Hn). unfold uint_range in *.
  change (pow256 4) with (2 ^ 32) in *. unfold needed_key, needed_value, USIZE_MAX.
  rewrite !(proj2 (Z.ltb_ge _ _)) by lia. done.
Qed.

Section Opening.
Context `{Roaring} {RO : RoaringLaws} (Keccak256Hasher Blake3Hasher : list bytes -> Hash).
Context (genesis : GenesisConfig) (next : Z).
#[local] Instance chosen : HashProvider := hasher Keccak256Hasher Blake3Hasher (hash_function genesis).
Context {HL : HashLaws}.

Lemma open_memory_ok : limits_ok (cell_limits genesis) -> max_cell_name_len (cell_limits genesis) <> 0 ->
  distinct_paths (∅ : CellMap) (initial_cells genesis) ->
  match Database_open_memory Keccak256Hasher Blake3Hasher genesis next with
  | Ok d => dbs_genesis d = genesis /\ oi_created (dbs_info d) = true /\ db_branches (dbs_inner d) = ∅ /\ db_next_branch_id (dbs_inner d) = next /\
      hd_commit_id (oi_head (dbs_info d)) = GENESIS /\
      exists tx cell_root, serves genesis (db_store (dbs_inner d)) tx (oi_head (dbs_info d)) cell_root REmpty (initial_cells genesis) no_records
  | Err (O_Cells (CE_Merkle ConflictingBranch)) => cell_clash (initial_cells genesis)
  | _ => False
  end.
Proof using RO HL.
  intros Hl Hn Hp. unfold Database_open_memory, Database_from_store. cbn [OpenConfig_new oc_genesis]. unfold mbind, stres_mbind, open_store. cbn [OpenConfig_new oc_genesis].
  rewrite memory_admits by done. pose proof (idle_begin MemoryStore_new tx0 ltac:(done) ltac:(done)) as Eb. rewrite Eb.
  pose proof (initialize_ok tx0 genesis CreateIfMissing view_tx0 eq_refl ltac:(discriminate) Hl Hp) as Hi.
  unfold OpenConfig_new. destruct (prepare _ tx0) as [[info|e| |] tx'] eqn:Ep; [| |done..].
  - destruct Hi as (Hcr & _ & Hg & cell_root & Hv & _). rewrite Hcr.
    set (s' := {| committed := mt_state tx'; publication_poisoned := false; writer_locked := false; writer_poisoned := false |}).
    assert (tx_commit tx' (set_writer_locked true MemoryStore_new) = (Ok (), s')) as -> by reflexivity.
    assert (begin_read s' = Ok tx') as Hr by (change (begin_read s') with (MemoryStore_begin_read s'); unfold MemoryStore_begin_read; cbn; by destruct tx').
    assert (read_head tx' = Ok GENESIS) as Hh by (unfold read_head; rewrite (ss_head _ _ _ _ _ (sv_state _ _ _ _ _ _ _ Hv)), <- Hg; done).
    unfold reading, Database_from_opened, Inner_new, db_new. rewrite Hr. unfold mbind, res_mbind. cbn [map_err]. rewrite Hh. cbn [map_err fst dbs_genesis dbs_info dbs_inner db_branches db_next_branch_id db_store].
    split_and!; [done..|]. exists tx', cell_root. split; [exact (conj eq_refl (conj eq_refl eq_refl))|exact Hr|exact Hv|exact (initial_shows genesis Hl)].
  - destruct e as [|[|[]| | |]| | | | | | | | | | | |]; try exact Hi. exact (proj2 Hi).
Qed.
End Opening.
