(* ===== verification/DatabaseSpec.v ===== *)
(** What the whole database promises: a head, its records, and branches that edit
    copies of them.

    [AbsDb] is that machine: a keyed store at the head and, per open branch, the
    commit it started from and its [History]. [ad_step] says what each request of
    the facade (crates/api/src/database.rs) answers and does, [ev_step] what the
    two parts of a commit do between which other branches run, and [refused] when
    a digest in the store may stop a seal. [api_step] and
    [serve] are the requests and events as the code runs them on a memory store.
    DatabaseSim.v relates the two. *)
From Stdlib Require Import ZArith Lia.
From S2P Require Import Prelude Ordered Groups Storage Scan CellTypes CellValue CellName MerkleNode MerkleTrie MerkleTree MerkleEdit MerkleSpec Samples.
From S2P Require Import BranchTypes CellScan Overlay Cells Buffer Term Bitmap BitmapSpec Index IndexSpec IndexReads IndexClaims Seal CellIndex SealSpec SealClaims.
From S2P Require Import Branches Records RecordsSpec CommittedSpec Query QuerySpec Genesis GenesisSpec OpenSpec Limits KeyedStore History Selection SampleStore SampleCommit CommitSpec Api ApiSpec.

#[local] Open Scope Z_scope.

(** * Requests and replies *)

Inductive Request : Type :=
  | AskHead
  | AskBegin
  | AskGet (commit : option CommitId) (key : RecordKey) (names : option (list CellName))
  | AskQuery (commit : option CommitId) (op : QueryOp)
  | AskCount (commit : option CommitId) (op : CountOp)
  | AskCall (id : BranchId) (op : Call)
  | AskInfo (id : BranchId)
  | AskCheckpoint (id : BranchId)
  | AskRollback (id : BranchId)
  | AskSeal (id : BranchId)
  | AskCommit (id : BranchId)
  | AskDiscard (id : BranchId).

(** A page by record key; a branch without its version; a seal's number. *)
Inductive Reply : Type :=
  | RepCommit (c : CommitId)
  | RepBranch (id : BranchId)
  | RepAnswer (a : Answer)
  | RepPage (records : gmap RecordKey RecordCells) (total : option Z) (evaluated_at : CommitId)
  | RepCount (n : Z)
  | RepInfo (origin : CommitId) (id : BranchId) (sealed : bool)
  | RepUnit.

(** A commit seals under its branch's lock and publishes with a writer: its two
    parts, between which the other branches run. *)
Inductive Event : Type :=
  | EvAsk (req : Request)
  | EvStart (id : BranchId)
  | EvFinish (id : BranchId).

(** The branch whose lock a request takes. *)
Definition locks (req : Request) : option BranchId :=
  match req with
  | AskCall id _ | AskInfo id | AskCheckpoint id | AskRollback id | AskSeal id | AskCommit id | AskDiscard id => Some id
  | _ => None
  end.

(** Arguments of the right Rust types; reads of user records. *)
Definition request_ok (req : Request) : Prop :=
  match req with
  | AskGet _ key _ => length key = 32%nat /\ by_key key = None
  | AskCall _ op => op_ok op
  | _ => True
  end.

(** * The abstract machine *)

Record AbsBranch := { ab_origin : CommitId; ab_history : History; ab_sealed : bool }.

Record AbsDb := { ad_head : CommitId; ad_records : KeyedStore; ad_branches : gmap BranchId AbsBranch; ad_next : Z }.

Definition set_branch (id : BranchId) (b : option AbsBranch) (s : AbsDb) : AbsDb :=
  {| ad_head := ad_head s; ad_records := ad_records s; ad_branches := partial_alter (fun _ => b) id (ad_branches s); ad_next := ad_next s |}.

(** A branch of an older head is retired by the first request that meets it. *)
Definition on_branch {A} (stale : ApiError) (id : BranchId) (f : AbsBranch -> res ApiError A * option AbsBranch) (s : AbsDb) : res ApiError A * AbsDb :=
  match ad_branches s !! id with
  | None => (Err A_HandleInvalid, s)
  | Some b =>
      if bool_decide (ab_origin b = ad_head s) then let '(r, b') := f b in (r, set_branch id b' s)
      else (Err stale, set_branch id None s)
  end.

(** Sealed branches refuse changes. *)
Definition unsealed {A} (f : History -> res ApiError A * History) (b : AbsBranch) : res ApiError A * option AbsBranch :=
  if ab_sealed b then (Err A_Sealed, Some b)
  else let '(r, h) := f (ab_history b) in (r, Some {| ab_origin := ab_origin b; ab_history := h; ab_sealed := false |}).

Definition next_commit (c : CommitId) : res ApiError CommitId :=
  match checked_succ (commit_number c) with
  | Some n => Ok {| commit_number := n |}
  | None => Err (api_branch_error CommitNumberExhausted)
  end.

Definition ad_begin (s : AbsDb) : res ApiError Reply * AbsDb :=
  match checked_succ (ad_next s) with
  | Some next =>
      let id := {| branch_number := ad_next s |} in
      (Ok (RepBranch id),
       {| ad_head := ad_head s; ad_records := ad_records s; ad_next := next;
          ad_branches := <[id := {| ab_origin := ad_head s; ab_history := History_new (ad_records s); ab_sealed := false |}]> (ad_branches s) |})
  | None => (Err (api_branch_error BranchNumberExhausted), s)
  end.

Definition ad_get (commit : option CommitId) (key : RecordKey) (names : option (list CellName)) (s : AbsDb) : res ApiError Reply :=
  match commit with
  | Some c => if bool_decide (c = ad_head s) then Ok () else Err (A_CommitUnavailable c (ad_head s))
  | None => Ok ()
  end ≫= fun _ => record ← map_err api_record_error (ks_get (ad_records s) key names); Ok (RepAnswer (AnsRecord record)).

Definition ad_query (commit : option CommitId) (op : QueryOp) (s : AbsDb) : res ApiError Reply :=
  map_err api_query_error (
    _ ← (if bool_decide (qo_sort op = [] :> list SortKey) then Ok () else Err (Q_NotImplemented "query: sort"));
    _ ← (if bool_decide (qo_limit op = None) then Ok () else Err (Q_NotImplemented "query: limit"));
    _ ← (if bool_decide (qo_offset op = None) then Ok () else Err (Q_NotImplemented "query: offset"));
    _ ← Plan_try_from (qo_filter op);
    _ ← at_commit commit (ad_head s);
    let found := selected (ad_records s) (qo_filter op) in
    Ok (RepPage (project (qo_projection op) <$> found) (if qo_with_total op then Some (Z.of_nat (size found)) else None) (ad_head s))).

Definition ad_count (commit : option CommitId) (op : CountOp) (s : AbsDb) : res ApiError Reply :=
  map_err api_query_error (
    _ ← Plan_try_from (co_filter op);
    _ ← at_commit commit (ad_head s);
    Ok (RepCount (Z.of_nat (size (selected (ad_records s) (co_filter op)))))).

Definition ad_call (L : CellLimits) (id : BranchId) (op : Call) (s : AbsDb) : res ApiError Reply * AbsDb :=
  if changing op then
    match reject_reserved (call_key op) with
    | Err e => (Err (api_record_error e), s)
    | _ => on_branch A_HandleInvalid id (unsealed (fun h =>
        let '(r, h) := History_call L op h in (a ← map_err api_record_error r; Ok (RepAnswer a), h))) s
    end
  else on_branch A_HandleInvalid id (fun b => (a ← map_err api_record_error (ks_step L op (hs_now (ab_history b))).1; Ok (RepAnswer a), Some b)) s.

(** Sealing promises the number after the branch's origin. *)
Definition seal_body (b : AbsBranch) : res ApiError Reply * option AbsBranch :=
  (c ← next_commit (ab_origin b); Ok (RepCommit c),
   Some {| ab_origin := ab_origin b; ab_history := ab_history b; ab_sealed := is_ok (next_commit (ab_origin b)) |}).

Definition ad_seal (id : BranchId) : AbsDb -> res ApiError Reply * AbsDb := on_branch A_HandleInvalid id seal_body.

(** A commit makes the branch's records the head's; the branch is gone. *)
Definition ad_commit (id : BranchId) (s : AbsDb) : res ApiError Reply * AbsDb :=
  match on_branch A_Conflict id (fun b =>
    (c ← next_commit (ab_origin b); Ok (c, hs_now (ab_history b)), if is_ok (next_commit (ab_origin b)) then None else Some b)) s with
  | (Ok (c, ks), s) => (Ok (RepCommit c), {| ad_head := c; ad_records := ks; ad_branches := ad_branches s; ad_next := ad_next s |})
  | (Err e, s) => (Err e, s)
  | (Panic, s) => (Panic, s)
  | (Diverge, s) => (Diverge, s)
  end.

Definition ad_step (L : CellLimits) (req : Request) (s : AbsDb) : res ApiError Reply * AbsDb :=
  match req with
  | AskHead => (Ok (RepCommit (ad_head s)), s)
  | AskBegin => ad_begin s
  | AskGet commit key names => (ad_get commit key names s, s)
  | AskQuery commit op => (ad_query commit op s, s)
  | AskCount commit op => (ad_count commit op s, s)
  | AskCall id op => ad_call L id op s
  | AskInfo id => on_branch A_HandleInvalid id (fun b => (Ok (RepInfo (ab_origin b) id (ab_sealed b)), Some b)) s
  | AskCheckpoint id => on_branch A_HandleInvalid id (unsealed (fun h => (Ok RepUnit, History_checkpoint h))) s
  | AskRollback id => on_branch A_HandleInvalid id (unsealed (fun h =>
      let '(r, h) := History_rollback h in (_ ← map_err api_branch_error r; Ok RepUnit, h))) s
  | AskSeal id => ad_seal id s
  | AskCommit id => ad_commit id s
  | AskDiscard id => on_branch A_HandleInvalid id (fun _ => (Ok RepUnit, None)) s
  end.

(** A commit that is under way has sealed its branch; when it publishes it is the
    commit of a sealed branch, at whatever head it then meets. *)
Definition ev_step (L : CellLimits) (ev : Event) (s : AbsDb) : res ApiError Reply * AbsDb :=
  match ev with
  | EvAsk req => ad_step L req s
  | EvStart id => on_branch A_Conflict id seal_body s
  | EvFinish id => ad_commit id s
  end.

(** The errors of a digest that is taken. *)
Definition digest_error (e : BranchError) : Prop :=
  match e with
  | BE_Cells (CE_Merkle ConflictingBranch) | BE_Index (IE_Merkle ConflictingBranch) | BE_Index ConflictingContent => True
  | _ => False
  end.

(** * The facade's requests *)

Section Facade.
Context `{Roaring} `{HashProvider}.

Definition api_step (fuel : nat) (req : Request) : stres (Db MemoryStore) ApiError Reply :=
  match req with
  | AskHead => c ← Inner_head; mret (RepCommit c)
  | AskBegin => id ← Inner_begin; mret (RepBranch id)
  | AskGet commit key names =>
      record ← Inner_get fuel (match commit with Some c => TargetCommit c | None => TargetHead end) {| record_key := key; operation := {| get_names := names |} |};
      mret (RepAnswer (AnsRecord record))
  | AskQuery commit op =>
      page ← Inner_query fuel commit op;
      mret (RepPage (by_record_key (qp_records page)) (qp_total_matched page) (qp_evaluated_at page))
  | AskCount commit op => n ← Inner_count fuel commit op; mret (RepCount n)
  | AskCall id op => a ← api_call fuel id op; mret (RepAnswer a)
  | AskInfo id => info ← Inner_branch_info id; mret (RepInfo (bi_commit_id info) (bi_branch_id info) (bi_sealed info))
  | AskCheckpoint id => _ ← Inner_checkpoint id; mret RepUnit
  | AskRollback id => _ ← Inner_rollback id; mret RepUnit
  | AskSeal id => info ← Inner_seal id; mret (RepCommit (si_commit_id info))
  | AskCommit id => c ← Inner_commit id; mret (RepCommit c)
  | AskDiscard id => _ ← Inner_discard id; mret RepUnit
  end.

(** With enough fuel, the request is answered so. *)
Definition answers (req : Request) (db : Db MemoryStore) (r : res ApiError Reply) (db' : Db MemoryStore) : Prop :=
  exists f0, forall fuel, (f0 <= fuel)%nat -> api_step fuel req db = (r, db').

(** One event; the commits under way keep what they sealed. *)
Definition serve (fuel : nat) (ev : Event) (w : World MemoryStore) : res ApiError Reply * World MemoryStore :=
  match ev with
  | EvAsk req => let '(r, db) := api_step fuel req (w_db w) in (r, {| w_db := db; w_open := w_open w |})
  | EvStart id =>
      let '(r, db) := commit_open id (w_db w) in
      ('(_, sealed) ← map_err api_branch_error r; Ok (RepCommit (sl_commit_id sealed)),
       {| w_db := db; w_open := match r with Ok p => <[id := p]> (w_open w) | _ => w_open w end |})
  | EvFinish id =>
      match w_open w !! id with
      | Some (c, sealed) =>
          let '(r, db) := commit_close id c sealed (w_db w) in
          (c ← map_err api_branch_error r; Ok (RepCommit c), {| w_db := db; w_open := delete id (w_open w) |})
      | None => (Diverge, w)
      end
  end.

(** A branch is locked while its commit is under way. *)
Definition enabled (ev : Event) (w : World MemoryStore) : Prop :=
  match ev with
  | EvAsk req => forall id, locks req = Some id -> w_open w !! id = None
  | EvStart id => w_open w !! id = None
  | EvFinish id => is_Some (w_open w !! id)
  end.

(** With enough fuel, the event is answered so. *)
Definition served_as (ev : Event) (w : World MemoryStore) (r : res ApiError Reply) (w' : World MemoryStore) : Prop :=
  exists f0, forall fuel, (f0 <= fuel)%nat -> serve fuel ev w = (r, w').

(** ** What the machine leaves open *)

(** Sealing this overlay over this store finds a digest that it needs, of a
    branch or a container of the tries that it makes, taken by another row. *)
Definition seal_meets (tx : MemoryTx) (o : CellOverlay) (e : BranchError) : Prop := exists head cell_root index_root W,
  store_state tx head cell_root index_root W /\
  seal_conflict (sealed_cells head W o) e (sealing cell_root index_root (seal_changes head o) (Buffered_new tx)).2.

Definition seals (ev : Event) : option BranchId :=
  match ev with EvAsk (AskSeal id) | EvAsk (AskCommit id) | EvStart id => Some id | _ => None end.

(** An unsealed branch at the head whose seal meets such a digest is refused. *)
Definition refused (db : Db MemoryStore) (s : AbsDb) (ev : Event) (e : BranchError) : Prop :=
  digest_error e /\ exists id st tx b, seals ev = Some id /\ live db id st tx /\ seal_meets tx (bs_overlay st) e /\
    ad_branches s !! id = Some b /\ ab_origin b = ad_head s /\ ab_sealed b = false.

(** The machine's step, or a refusal that changes nothing. *)
Inductive ev_allows (L : CellLimits) (db : Db MemoryStore) (s : AbsDb) (ev : Event) : res ApiError Reply -> AbsDb -> Prop :=
  | allows_step : ev_allows L db s ev (ev_step L ev s).1 (ev_step L ev s).2
  | allows_refusal e : refused db s ev e -> ev_allows L db s ev (Err (A_Internal (Dyn_Branch e))) s.

(** The database and the machine side by side: the replies to a sequence of
    events, and both states after it. *)
Inductive ev_run (L : CellLimits) : World MemoryStore -> AbsDb -> list Event -> list (res ApiError Reply) -> World MemoryStore -> AbsDb -> Prop :=
  | ev_run_nil w s : ev_run L w s [] [] w s
  | ev_run_cons w s ev r w1 s1 evs rs w2 s2 : served_as ev w r w1 -> ev_allows L (w_db w) s ev r s1 -> ev_run L w1 s1 evs rs w2 s2 ->
      ev_run L w s (ev :: evs) (r :: rs) w2 s2.
End Facade.
