(* ===== verification/DatabaseSim.v ===== *)
(** The simulation between the facade on a memory store and the abstract
    database of DatabaseSpec.v: the relation, and one lemma per kind of request. *)
From Stdlib Require Import ZArith Lia.
From S2P Require Import Prelude Ordered Groups Storage Scan CellTypes CellValue CellName MerkleNode MerkleTrie MerkleTree MerkleEdit MerkleSpec Samples.
From S2P Require Import BranchTypes CellScan Overlay Cells Buffer Term Bitmap BitmapSpec Index IndexSpec IndexReads IndexClaims Seal CellIndex SealSpec SealClaims.
From S2P Require Import Branches Records RecordsSpec CommittedSpec Query QuerySpec Genesis GenesisSpec OpenSpec Limits KeyedStore History Selection SampleStore SampleCommit CommitSpec Api ApiSpec DatabaseSpec.

#[local] Open Scope Z_scope.

(** * The relation *)

Section Relation.
Context `{Roaring} `{HashProvider}.

(** A seal of these cells meets no digest of something else. *)
Definition separate (tx : MemoryTx) (o : CellOverlay) : Prop := exists head cell_root index_root W,
  store_state tx head cell_root index_root W /\ digests_ok tx head cell_root index_root W o /\
  ~ clash (sealing cell_root index_root (seal_changes head o) (Buffered_new tx)).2.

(** What a request needs of the digests of the state it meets. *)
Definition separated (req : Request) (db : Db MemoryStore) : Prop :=
  match req with
  | AskSeal id | AskCommit id => forall st tx, live db id st tx -> bs_sealed st = None -> separate tx (bs_overlay st)
  | AskQuery _ _ | AskCount _ _ => forall tx, begin_read (db_store db) = Ok tx -> ~ clash tx
  | _ => True
  end.

Definition separated_event (ev : Event) (w : World MemoryStore) : Prop :=
  match ev with
  | EvAsk req => separated req (w_db w)
  | EvStart id => separated (AskCommit id) (w_db w)
  | EvFinish _ => True
  end.

(** Every event is enabled and separated in the state that it meets. *)
Fixpoint scheduled (evs : list Event) (w : World MemoryStore) : Prop :=
  match evs with
  | [] => True
  | ev :: evs => enabled ev w /\ separated_event ev w /\ forall r w', served_as ev w r w' -> scheduled evs w'
  end.

(** A branch at the head: its records, and its seal. *)
Record branch_tracks (config : GenesisConfig) (tx : MemoryTx) (O : CellMap) (st : BranchState) (b : AbsBranch) : Prop := {
  bt_origin : bs_commit_id st = ab_origin b;
  bt_history : tracks (cell_limits config) O (bs_overlay st) (ab_history b);
  bt_sealed : ab_sealed b = bool_decide (is_Some (bs_sealed st));
  bt_seal sealed : bs_sealed st = Some sealed -> compute tx (bs_overlay st) = Ok sealed /\ separate tx (bs_overlay st) /\
    commit_number (ab_origin b) < 2 ^ 64 - 1
}.

(** A branch of an older head only has its origin. *)
Definition slot_tracks (config : GenesisConfig) (tx : MemoryTx) (O : CellMap) (head : CommitId) (slot : option (option BranchState)) (b : option AbsBranch) : Prop :=
  match slot, b with
  | None, None => True
  | Some (Some st), Some b => bs_commit_id st = ab_origin b /\ commit_number (ab_origin b) <= commit_number head /\
      (ab_origin b = head -> branch_tracks config tx O st b)
  | _, _ => False
  end.

Record db_tracks (config : GenesisConfig) (tx : MemoryTx) (head : Head) (cell_root index_root : RootRef) (O : CellMap)
    (db : Db MemoryStore) (s : AbsDb) : Prop := {
  dt_serves : serves config (db_store db) tx head cell_root index_root O (ad_records s);
  dt_head : hd_commit_id head = ad_head s;
  dt_keys : user_keys (ad_records s);
  dt_next : db_next_branch_id db = ad_next s;
  dt_slots id : slot_tracks config tx O (ad_head s) (db_branches db !! id) (ad_branches s !! id)
}.

Definition simulates_db (config : GenesisConfig) (db : Db MemoryStore) (s : AbsDb) : Prop :=
  exists tx head cell_root index_root O, db_tracks config tx head cell_root index_root O db s.
End Relation.

(** * Keeping the relation *)

Section Keep.
Context `{Roaring} `{HashProvider}.
Context (config : GenesisConfig) (tx : MemoryTx) (head : Head) (cell_root index_root : RootRef) (O : CellMap).
Abbreviation tracks_at := (db_tracks config tx head cell_root index_root O).

(** The state a request meets at a branch *)
Inductive slot_case (id : BranchId) (db : Db MemoryStore) (s : AbsDb) : Prop :=
  | slot_missing : db_branches db !! id = None -> ad_branches s !! id = None -> slot_case id db s
  | slot_stale st b : db_branches db !! id = Some (Some st) -> ad_branches s !! id = Some b -> bs_commit_id st = ab_origin b ->
      ab_origin b <> ad_head s -> slot_case id db s
  | slot_live st b : live db id st tx -> ad_branches s !! id = Some b -> ab_origin b = ad_head s -> branch_tracks config tx O st b -> slot_case id db s.

Section At.
Context (db : Db MemoryStore) (s : AbsDb) (Ht : tracks_at db s).

Lemma tracks_read : begin_read (db_store db) = Ok tx.
Proof using Ht. exact (srv_read _ _ _ _ _ _ _ _ (dt_serves _ _ _ _ _ _ _ _ Ht)). Qed.

Lemma tracks_state : store_state tx head cell_root index_root O.
Proof using Ht. exact (sv_state _ _ _ _ _ _ _ (srv_valid _ _ _ _ _ _ _ _ (dt_serves _ _ _ _ _ _ _ _ Ht))). Qed.

Lemma tracks_head : read_head tx = Ok (ad_head s).
Proof using Ht. unfold read_head. rewrite (ss_head _ _ _ _ _ tracks_state). cbn. by rewrite (dt_head _ _ _ _ _ _ _ _ Ht). Qed.

Lemma tracks_decoded : decoded (view tx CELL) O.
Proof using Ht. apply (ss_cells _ _ _ _ _ tracks_state). Qed.

Lemma tracks_number : 0 <= commit_number (ad_head s) < 2 ^ 64.
Proof using Ht.
  pose proof (ss_head _ _ _ _ _ tracks_state) as Hh. rewrite read_head_state_eq in Hh. apply head_of_inv in Hh as [(Hw & _) _].
  rewrite <- (dt_head _ _ _ _ _ _ _ _ Ht). unfold uint_range in Hw. by change (pow256 8) with (2 ^ 64) in Hw.
Qed.

Lemma slot_cases id : slot_case id db s.
Proof using Ht.
  pose proof (dt_slots _ _ _ _ _ _ _ _ Ht id) as Hs. destruct (db_branches db !! id) as [[st|]|] eqn:Ed, (ad_branches s !! id) as [b|] eqn:Ea; try done; [|by apply slot_missing].
  destruct Hs as (Ho & _ & Hb). destruct (decide (ab_origin b = ad_head s)) as [E|E]; [|by eapply slot_stale]. eapply slot_live; [|done|done|by apply Hb].
  split; [done|]. split; [apply tracks_read|]. by rewrite tracks_head, Ho, E.
Qed.

(** Requests on a branch change it, or retire it. *)
Lemma set_tracks id st b st' b' : live db id st tx -> ad_branches s !! id = Some b -> ab_origin b = ad_head s -> branch_tracks config tx O st' b' ->
  ab_origin b' = ab_origin b -> tracks_at (set_slot id (Some st') db) (set_branch id (Some b') s).
Proof using Ht.
  intros (Hid & _) Hb Eo Hbt Eo'. destruct Ht as [Hs Hh Hk Hn Hsl]. split; [done..|]. intros i. cbn [set_slot set_branch db_branches ad_branches ad_head].
  destruct (decide (i = id)) as [->|Hne].
  - rewrite lookup_alter_eq, lookup_partial_alter_eq, Hid. cbn. split; [apply Hbt|]. split; [by rewrite Eo', Eo|done].
  - rewrite lookup_alter_ne, lookup_partial_alter_ne by done. apply Hsl.
Qed.

Lemma remove_tracks id : tracks_at (db_remove id db) (set_branch id None s).
Proof using Ht.
  destruct Ht as [Hs Hh Hk Hn Hsl]. split; [done..|]. intros i. cbn [db_remove set_branch db_branches ad_branches ad_head].
  destruct (decide (i = id)) as [->|Hne]; [by rewrite lookup_delete_eq, lookup_partial_alter_eq|]. rewrite lookup_delete_ne, lookup_partial_alter_ne by done. apply Hsl.
Qed.

Lemma set_branch_same id b : ad_branches s !! id = Some b -> set_branch id (Some b) s = s.
Proof using.
  clear Ht. intros Hb. destruct s as [hd rs bs n]. unfold set_branch. cbn in *. f_equal. apply map_eq. intros i. destruct (decide (i = id)) as [->|]; [by rewrite lookup_partial_alter_eq|by rewrite lookup_partial_alter_ne].
Qed.
End At.

(** ** Requests on one branch *)

Section OnBranch.
Context {E A : Type} (inj : BranchError -> E) (conv : E -> ApiError) (op : MemoryTx -> stres BranchState E A) (f : A -> Reply).
Context (aop : AbsBranch -> res ApiError Reply * option AbsBranch) (id : BranchId) (db : Db MemoryStore) (s : AbsDb).
Hypothesis Ht : tracks_at db s.
Hypothesis Hconv : conv (inj HandleInvalid) = A_HandleInvalid.
Abbreviation request := (x ← st_map_err conv (with_branch inj id op); mret (f x)).
Abbreviation abstract := (on_branch A_HandleInvalid id aop s).

(** What the operation does to a live branch *)
Definition follows (st : BranchState) (b : AbsBranch) : Prop := exists b',
  aop b = (x ← map_err conv (op tx st).1; Ok (f x), Some b') /\ ab_origin b' = ab_origin b /\ branch_tracks config tx O (op tx st).2 b'.

Lemma request_error e (db' : Db MemoryStore) : with_branch inj id op db = (Err e, db') -> request db = (Err (conv e), db').
Proof using. intros E1. unfold mbind, stres_mbind, st_map_err. by rewrite E1. Qed.

Lemma branch_request_live st b : live db id st tx -> ad_branches s !! id = Some b -> ab_origin b = ad_head s -> follows st b ->
  exists db', request db = (abstract.1, db') /\ tracks_at db' abstract.2.
Proof using Ht.
  intros Hl Ha Eo (b' & Eb & Eo' & Hb'). unfold on_branch. rewrite Ha, bool_decide_true, Eb by done. cbn [fst snd].
  exists (set_slot id (Some (op tx st).2) db). split; [|by eapply set_tracks]. unfold mbind, stres_mbind, st_map_err.
  rewrite (with_branch_live inj id op db st tx Hl). by destruct ((op tx st).1).
Qed.

Lemma branch_request : (forall st b, live db id st tx -> ad_branches s !! id = Some b -> ab_origin b = ad_head s -> branch_tracks config tx O st b -> follows st b) ->
  exists db', request db = (abstract.1, db') /\ tracks_at db' abstract.2.
Proof using Ht Hconv.
  intros Hop. destruct (slot_cases db s Ht id) as [Hd Ha|st b Hd Ha Eo Hne|st b Hl Ha Eo Hb]; [..|by eapply branch_request_live; eauto]; unfold on_branch; rewrite Ha.
  - exists db. split; [|done]. rewrite (request_error (inj HandleInvalid) db), Hconv; [done|]. by apply with_branch_missing.
  - rewrite bool_decide_false by done. exists (db_remove id db). split; [|by apply remove_tracks]. cbn [fst].
    rewrite (request_error (inj HandleInvalid) (db_remove id db)), Hconv; [done|].
    eapply with_slot_stale; [done|by eapply tracks_read|by eapply tracks_head|by rewrite Eo].
Qed.
End OnBranch.

(** An open branch takes changes; a sealed one refuses them. *)
Lemma unsealed_follows {B} (change : stres CellOverlay BranchError B) (achange : History -> res ApiError Reply * History) (f : B -> Reply) st b :
  branch_tracks config tx O st b ->
  (forall h, tracks (cell_limits config) O (bs_overlay st) h ->
     (achange h).1 = (x ← map_err api_branch_error (change (bs_overlay st)).1; Ok (f x)) /\ tracks (cell_limits config) O (change (bs_overlay st)).2 (achange h).2) ->
  follows api_branch_error (fun _ state => match require_open state with
    | Ok _ => let '(r, o) := change (bs_overlay state) in (r, set_overlay o state)
    | Err e => (Err e, state)
    | Panic => (Panic, state)
    | Diverge => (Diverge, state)
    end) f (unsealed achange) st b.
Proof using.
  intros [Ho Hh Hs Hc] Hch. unfold follows, unsealed, require_open. destruct (bs_sealed st) as [sealed|] eqn:Es.
  - rewrite Hs, bool_decide_true by (by eexists). exists b. split; [done|]. split; [done|]. split; [done..| |]; cbn [snd]; by rewrite Es.
  - rewrite Hs, bool_decide_false by (by intros []). destruct (Hch _ Hh) as [Er Hh']. destruct (change (bs_overlay st)) as [r o'], (achange (ab_history b)) as [r' h'].
    cbn [fst snd] in *. subst r'. eexists. split; [reflexivity|]. split; [done|]. split; cbn [ab_origin ab_history ab_sealed set_overlay bs_commit_id bs_overlay bs_sealed]; [done..| |].
    + rewrite Es. by rewrite bool_decide_false by (by intros []).
    + by rewrite Es.
Qed.
End Keep.

(** * The requests *)

Section Requests.
Context `{Roaring} {RO : RoaringLaws} `{HashProvider} {HL : HashLaws}.
Context (config : GenesisConfig) (tx : MemoryTx) (head : Head) (cell_root index_root : RootRef) (O : CellMap).
Context (db : Db MemoryStore) (s : AbsDb).
Hypothesis Ht : db_tracks config tx head cell_root index_root O db s.
Abbreviation tracks_at := (db_tracks config tx head cell_root index_root O).
Abbreviation L := (cell_limits config).

(** The request is answered as the machine allows, and the states stay related. *)
Definition served (req : Request) : Prop := exists r db' s', answers req db r db' /\ ev_allows L db s (EvAsk req) r s' /\ simulates_db config db' s'.

(** A request that is answered as the machine's step says, at the same commit *)
Lemma served_step req db' : (exists f0, forall fuel, (f0 <= fuel)%nat -> api_step fuel req db = ((ad_step L req s).1, db')) ->
  tracks_at db' (ad_step L req s).2 -> served req.
Proof using. intros Ha Ht'. exists (ad_step L req s).1, db', (ad_step L req s).2. split; [done|]. split; [constructor|]. by exists tx, head, cell_root, index_root, O. Qed.

Lemma served_now req : (exists db', (forall fuel, api_step fuel req db = ((ad_step L req s).1, db')) /\ tracks_at db' (ad_step L req s).2) -> served req.
Proof using. intros (db' & Ha & Ht'). apply (served_step req db'); [by exists 0%nat|done]. Qed.

(** A request that needs no fuel *)
Lemma served_by req : (forall fuel, api_step fuel req db = api_step 0 req db) ->
  (exists db', api_step 0 req db = ((ad_step L req s).1, db') /\ tracks_at db' (ad_step L req s).2) -> served req.
Proof using. intros Hf (db' & Ha & Ht'). apply served_now. exists db'. split; [|done]. intros fuel. by rewrite Hf. Qed.

Lemma head_served : served AskHead.
Proof using Ht.
  apply served_now. exists db. split; [|done]. intros fuel. cbn [api_step ad_step fst]. unfold Inner_head, mbind, stres_mbind, st_map_err, reading, db_head.
  rewrite (tracks_read _ _ _ _ _ _ db s Ht). unfold mbind, res_mbind. cbn [map_err]. by rewrite (tracks_head _ _ _ _ _ _ db s Ht).
Qed.

Lemma begin_served : served AskBegin.
Proof using Ht.
  apply served_now. cbn [api_step ad_step]. unfold ad_begin. unfold Inner_begin, mbind, stres_mbind, st_map_err, db_begin, begin_at, db_head.
  rewrite (tracks_read _ _ _ _ _ _ db s Ht). unfold mbind, res_mbind. cbn [map_err]. rewrite (tracks_head _ _ _ _ _ _ db s Ht).
  unfold allocate_branch_id. rewrite (dt_next _ _ _ _ _ _ _ _ Ht). destruct (checked_succ (ad_next s)) as [next|]; [|by exists db].
  eexists. split; [intros fuel; reflexivity|]. pose proof Ht as [Hs Hh Hk _ Hsl]. split; [done..|]. intros i. cbn [snd db_branches ad_branches ad_head].
  destruct (decide (i = {| branch_number := ad_next s |})) as [->|Hne]; [|by rewrite !lookup_insert_ne].
  rewrite !lookup_insert_eq. cbn. split; [done|]. split; [done|]. intros _. split; [done| |done|done]. by apply tracks_new; [apply Hs|].
Qed.

Lemma get_served commit key names : request_ok (AskGet commit key names) -> served (AskGet commit key names).
Proof using Ht.
  intros [Hlen Hu]. apply (served_step _ db); [|done]. exists (Datatypes.S (size (view tx CELL))). intros fuel Hf. cbn [api_step ad_step fst].
  pose proof (tracks_state _ _ _ _ _ _ db s Ht) as Hst. pose proof (srv_shows _ _ _ _ _ _ _ _ (dt_serves _ _ _ _ _ _ _ _ Ht)) as Hs.
  pose proof (read_by_key_ok tx O (proj1 (ss_cells _ _ _ _ _ Hst)) fuel L (ks_next (ad_records s)) key names (sh_inv _ _ _ Hs) Hlen ltac:(lia)) as Hread.
  rewrite (sh_records _ _ _ Hs key Hlen Hu) in Hread. unfold Inner_get, Get_projection. cbn [record_key operation get_names].
  assert (forall c, committed_snapshot (db_store db) c = match c with
    | Some c => if bool_decide (c = ad_head s) then Ok (tx, ad_head s) else Err (R_CommitUnavailable c (ad_head s))
    | None => Ok (tx, ad_head s) end) as Hsnap.
  { intros c. unfold committed_snapshot. rewrite (tracks_read _ _ _ _ _ _ db s Ht). unfold mbind, res_mbind. cbn [map_err].
    rewrite (tracks_head _ _ _ _ _ _ db s Ht). cbn [map_err]. destruct c; [by case_bool_decide|done]. }
  unfold ad_get, ks_get. destruct commit as [c|]; cbn [Records_get]; unfold mbind, stres_mbind, res_mbind, st_map_err, reading, read_committed; rewrite Hsnap;
    [case_bool_decide; [|done]|]; unfold mbind, res_mbind; rewrite Hread; by destruct (ks_records (ad_records s) !! key).
Qed.

(** Enough fuel for the index *)
Definition query_fuel : nat := Datatypes.S (size (view tx CELL) + size (view tx INDEX) + 2 * size (index_of O) + 1).

Lemma query_served commit op : separated (AskQuery commit op) db -> served (AskQuery commit op).
Proof using Ht RO HL.
  intros Hc. apply (served_step _ db); [|done]. exists query_fuel. intros fuel Hf. unfold query_fuel in Hf. cbn [api_step ad_step fst].
  pose proof (tracks_state _ _ _ _ _ _ db s Ht) as Hst. pose proof (srv_shows _ _ _ _ _ _ _ _ (dt_serves _ _ _ _ _ _ _ _ Ht)) as Hs.
  pose proof (tracks_read _ _ _ _ _ _ db s Ht) as Hr.
  unfold Inner_query, mbind, stres_mbind, st_map_err, reading.
  rewrite (query_ok fuel (db_store db) tx head cell_root index_root O L (ks_next (ad_records s)) Hr Hst (Hc tx Hr) (sh_inv _ _ _ Hs) ltac:(lia)).
  unfold ad_query, query_result. rewrite (dt_head _ _ _ _ _ _ _ _ Ht). unfold mbind, res_mbind.
  destruct (if bool_decide (qo_sort op = []) then _ else _); [|done..]. destruct (if bool_decide (qo_limit op = None) then _ else _); [|done..].
  destruct (if bool_decide (qo_offset op = None) then _ else _); [|done..]. destruct (Plan_try_from (qo_filter op)); [|done..]. destruct (at_commit _ _); [|done..].
  cbn [map_err qp_records qp_total_matched qp_evaluated_at].
  rewrite (page_selected L O (ad_records s) Hs (dt_keys _ _ _ _ _ _ _ _ Ht)). by rewrite (count_selected L O (ad_records s) Hs (dt_keys _ _ _ _ _ _ _ _ Ht)).
Qed.

Lemma count_served commit op : separated (AskCount commit op) db -> served (AskCount commit op).
Proof using Ht RO HL.
  intros Hc. apply (served_step _ db); [|done]. exists query_fuel. intros fuel Hf. unfold query_fuel in Hf. cbn [api_step ad_step fst].
  pose proof (tracks_state _ _ _ _ _ _ db s Ht) as Hst. pose proof (srv_shows _ _ _ _ _ _ _ _ (dt_serves _ _ _ _ _ _ _ _ Ht)) as Hs.
  pose proof (tracks_read _ _ _ _ _ _ db s Ht) as Hr.
  unfold Inner_count, mbind, stres_mbind, st_map_err, reading.
  rewrite (count_ok fuel (db_store db) tx head cell_root index_root O L (ks_next (ad_records s)) Hr Hst (Hc tx Hr) (sh_inv _ _ _ Hs) ltac:(lia)).
  unfold ad_count, count_result. rewrite (dt_head _ _ _ _ _ _ _ _ Ht). unfold mbind, res_mbind.
  destruct (Plan_try_from (co_filter op)); [|done..]. destruct (at_commit _ _); [|done..]. cbn [map_err].
  by rewrite (count_selected L O (ad_records s) Hs (dt_keys _ _ _ _ _ _ _ _ Ht)).
Qed.

Lemma info_served id : served (AskInfo id).
Proof using Ht.
  apply served_by; [done|]. cbn [api_step ad_step].
  apply (branch_request config tx head cell_root index_root O (fun e => e) api_branch_error _ (fun info => RepInfo (bi_commit_id info) (bi_branch_id info) (bi_sealed info)) _ id db s Ht eq_refl).
  intros st b _ _ _ Hb. exists b. pose proof Hb as [Ho _ Hs _]. cbn. by rewrite Ho, Hs.
Qed.

Lemma checkpoint_served id : served (AskCheckpoint id).
Proof using Ht.
  apply served_by; [done|]. cbn [api_step ad_step]. apply (branch_request config tx head cell_root index_root O (fun e => e) api_branch_error _ (fun _ => RepUnit) _ id db s Ht eq_refl).
  intros st b _ _ _ Hb. apply (unsealed_follows config tx O (fun o => (Ok (), CellOverlay_checkpoint o)) _ (fun _ => RepUnit) st b Hb).
  intros h Hh. split; [done|]. by apply tracks_checkpoint.
Qed.

Lemma rollback_served id : served (AskRollback id).
Proof using Ht.
  apply served_by; [done|]. cbn [api_step ad_step]. apply (branch_request config tx head cell_root index_root O (fun e => e) api_branch_error _ (fun _ => RepUnit) _ id db s Ht eq_refl).
  intros st b _ _ _ Hb. apply (unsealed_follows config tx O CellOverlay_rollback _ (fun _ => RepUnit) st b Hb).
  intros h Hh. destruct (tracks_rollback L O (bs_overlay st) h Hh) as [-> Hh']. by destruct (History_rollback h).
Qed.

Lemma discard_served id : served (AskDiscard id).
Proof using Ht.
  apply served_now. cbn [api_step ad_step]. unfold Inner_discard, mbind, stres_mbind, st_map_err, db_discard, on_branch.
  pose proof (tracks_read _ _ _ _ _ _ db s Ht) as Hr. pose proof (tracks_head _ _ _ _ _ _ db s Ht) as Hh.
  destruct (slot_cases _ _ _ _ _ _ db s Ht id) as [Hd Ha|st b Hd Ha Eo Hne|st b Hl Ha Eo Hb]; rewrite Ha.
  - exists db. split; [|done]. intros fuel. unfold with_slot. by rewrite Hd.
  - exists (db_remove id db). rewrite bool_decide_false by done. split; [|by apply remove_tracks]. intros fuel.
    by rewrite (with_slot_stale _ id _ _ db st tx (ad_head s) Hd Hr Hh) by congruence.
  - exists (db_remove id db). rewrite bool_decide_true by done. split; [|by apply remove_tracks]. intros fuel.
    destruct Hl as (Hid & _ & Hhd). unfold with_slot. rewrite Hid, Hr, Hhd, bool_decide_true by done. cbn [negb]. by rewrite remove_set_slot.
Qed.

(** ** Record calls *)

Lemma api_call_reply fuel id op (d : Db MemoryStore) : (a ← api_call fuel id op; mret (RepAnswer a)) d =
  (a ← map_err api_record_error (rec_call fuel id op d).1; Ok (RepAnswer a), (rec_call fuel id op d).2).
Proof using. unfold mbind at 1, stres_mbind at 1. rewrite api_call_record. unfold st_map_err. by destruct (rec_call fuel id op d) as [[] d']. Qed.

(** Calls end alike on branches that are gone or of an older head. *)
Lemma rec_call_error fuel id op d' : (changing op = true -> reject_reserved (call_key op) = Ok ()) ->
  (forall E A (inj : BranchError -> E) (f : MemoryTx -> stres BranchState E A), with_branch inj id f db = (Err (inj HandleInvalid), d')) ->
  rec_call fuel id op db = (Err (R_Branch HandleInvalid), d').
Proof using.
  intros Hk Hw. destruct op as [key names|key values|key changes|key]; cbn [rec_call call_key changing] in *;
    unfold Records_get, Records_create, Records_patch, Records_delete, mbind, stres_mbind, lift_res, st_map_err, db_read, db_write;
    rewrite ?Hk by done; by rewrite Hw.
Qed.

Lemma rec_call_sealed fuel id op st sealed : changing op = true -> reject_reserved (call_key op) = Ok () -> live db id st tx -> bs_sealed st = Some sealed ->
  rec_call fuel id op db = (Err (R_Branch Sealed), db).
Proof using.
  intros Hc Hk Hl Hs. assert (forall E A (p : CellProg MemoryTx E A), db_write id p db = (Err (OE_Branch Sealed), db)) as Hw.
  { intros E A p. unfold db_write. eapply with_branch_same; [exact Hl|]. unfold require_open. by rewrite Hs. }
  destruct op as [key names|key values|key changes|key]; [done|..]; cbn [rec_call call_key] in *;
    unfold Records_create, Records_patch, Records_delete, mbind, stres_mbind, lift_res, st_map_err; rewrite Hk; by rewrite Hw.
Qed.

Definition call_body (op : Call) (b : AbsBranch) : res ApiError Reply * option AbsBranch :=
  if changing op then unsealed (fun h => let '(r, h) := History_call L op h in (a ← map_err api_record_error r; Ok (RepAnswer a), h)) b
  else (a ← map_err api_record_error (ks_step L op (hs_now (ab_history b))).1; Ok (RepAnswer a), Some b).

Lemma ad_call_body id op : (changing op = true -> reject_reserved (call_key op) = Ok ()) -> ad_call L id op s = on_branch A_HandleInvalid id (call_body op) s.
Proof using. intros Hk. unfold ad_call, call_body. destruct (changing op) eqn:E; [by rewrite Hk|done]. Qed.

Lemma live_call_served id op st b : op_ok op -> (changing op = true -> reject_reserved (call_key op) = Ok ()) ->
  live db id st tx -> ad_branches s !! id = Some b -> ab_origin b = ad_head s -> branch_tracks config tx O st b -> served (AskCall id op).
Proof using Ht.
  intros Hop Hk Hl Ha Eo Hb. pose proof Hb as [Eo' Hh Hs Hc]. pose proof (tracks_decoded _ _ _ _ _ _ db s Ht) as Hd.
  assert (forall f0 r st' b', (forall fuel, (f0 <= fuel)%nat -> rec_call fuel id op db = (r, set_slot id (Some st') db)) ->
    call_body op b = (a ← map_err api_record_error r; Ok (RepAnswer a), Some b') -> branch_tracks config tx O st' b' -> ab_origin b' = ab_origin b ->
    served (AskCall id op)) as Hdone.
  { intros f0 r st' b' Hr Hcb Hb' Eb. apply (served_step _ (set_slot id (Some st') db)); cbn [ad_step]; rewrite (ad_call_body id op Hk); unfold on_branch;
      rewrite Ha, bool_decide_true by done; rewrite Hcb; cbn [fst snd]; [|by eapply set_tracks].
    exists f0. intros fuel Hf. cbn [api_step]. by rewrite api_call_reply, Hr. }
  assert (forall f0 r, (forall fuel, (f0 <= fuel)%nat -> rec_call fuel id op db = (r, db)) ->
    call_body op b = (a ← map_err api_record_error r; Ok (RepAnswer a), Some b) -> served (AskCall id op)) as Hsame.
  { intros f0 r Hr Hcb. apply (Hdone f0 r st b); [|done..]. intros fuel Hf. rewrite set_slot_same by apply Hl. by apply Hr. }
  destruct (tracks_now L O _ _ Hh) as [_ Hsh _ _]. pose proof (tracks_over L O _ _ Hh) as Ho.
  destruct (changing op) eqn:Ec.
  2: { destruct op as [key names| | |]; [|done..]. eapply (Hsame (Datatypes.S (size (working O (ov_entries (bs_overlay st))))));
         [intros fuel Hf; by eapply (get_live L id st tx O)|done]. }
  destruct (bs_sealed st) as [sealed|] eqn:Es.
  - apply (Hsame 0%nat (Err (R_Branch Sealed))); [intros fuel _; eapply (rec_call_sealed fuel id op st sealed); auto|].
    unfold call_body, unsealed. rewrite Ec, Hs. by rewrite bool_decide_true by (by eexists).
  - destruct (call_tracks L id op db st tx O (ab_history b) Hl Es Hd Hh Hop) as (f0 & o' & Hh' & Hr).
    eapply (Hdone f0 _ (set_overlay o' st) {| ab_origin := ab_origin b; ab_history := (History_call L op (ab_history b)).2; ab_sealed := false |}); [exact Hr| | |done].
    + unfold call_body, unsealed. rewrite Ec, Hs. rewrite bool_decide_false by (by intros []). by destruct (History_call L op (ab_history b)).
    + split; cbn [set_overlay bs_commit_id bs_overlay bs_sealed ab_origin ab_history ab_sealed]; [done..| |]; rewrite Es; [by rewrite bool_decide_false by (by intros [])|done].
Qed.

Lemma call_served id op : op_ok op -> served (AskCall id op).
Proof using Ht.
  intros Hop. assert ((changing op = true /\ exists e, reject_reserved (call_key op) = Err e) \/ (changing op = true -> reject_reserved (call_key op) = Ok ())) as [[Ec [e Er]]|Hk].
  { destruct (changing op); [|by right]. destruct (reserved_case (call_key op)) as [?|[? _]]; [by left|by right]. }
  { apply served_now. exists db. cbn [api_step ad_step]. unfold ad_call. rewrite Ec, Er. split; [|done]. intros fuel. by rewrite api_call_reply, (rec_call_reserved fuel id op db e). }
  destruct (slot_cases _ _ _ _ _ _ db s Ht id) as [Hd Ha|st b Hd Ha Eo Hne|st b Hl Ha Eo Hb]; [| |by eapply live_call_served].
  - apply served_now. exists db. cbn [api_step ad_step]. rewrite (ad_call_body id op Hk). unfold on_branch. rewrite Ha. split; [|done]. intros fuel.
    rewrite api_call_reply, (rec_call_error fuel id op db Hk); [done|]. intros. by apply with_branch_missing.
  - apply served_now. exists (db_remove id db). cbn [api_step ad_step]. rewrite (ad_call_body id op Hk). unfold on_branch. rewrite Ha, bool_decide_false by done.
    split; [|by apply remove_tracks]. intros fuel. rewrite api_call_reply, (rec_call_error fuel id op (db_remove id db) Hk); [done|].
    intros. eapply with_slot_stale; [done|by eapply tracks_read|by eapply tracks_head|by rewrite Eo].
Qed.

(** ** Seals and commits *)

Lemma decoded_unique rows W W' : decoded rows W -> decoded rows W' -> W = W'.
Proof using.
  assert (forall A B k v, decoded rows A -> decoded rows B -> A !! k = Some v -> B !! k = Some v) as Hsub.
  { intros A B k v [Hwa Ha] [Hwb Hb] Hk. destruct (proj1 (Hb (CellKey_encode k) (cv_bytes v))) as (k' & v' & Hk' & Ek & Ev); [apply Ha; by exists k, v|].
    pose proof (Hwa k v Hk) as [Wk Wv]. pose proof (Hwb k' v' Hk') as [Wk' Wv']. apply CellKey_encode_inj in Ek as ->; [|done..].
    unfold CellValue_wf in Wv, Wv'. rewrite Ev, Wv' in Wv. congruence. }
  intros Hd Hd'. apply map_eq. intros k. apply option_eq. intros v. split; by apply Hsub.
Qed.

Lemma separate_valid o : separate tx o -> exists cr ir, store_valid tx config head cr ir O (ks_next (ad_records s)) /\
  digests_ok tx head cr ir O o /\ ~ clash (sealing cr ir (seal_changes head o) (Buffered_new tx)).2.
Proof using Ht.
  intros (h & cr & ir & W & Hst & Hd & Hc). pose proof (srv_valid _ _ _ _ _ _ _ _ (dt_serves _ _ _ _ _ _ _ _ Ht)) as Hv.
  assert (h = head) as -> by (pose proof (ss_head _ _ _ _ _ Hst) as E; rewrite (ss_head _ _ _ _ _ (sv_state _ _ _ _ _ _ _ Hv)) in E; congruence).
  pose proof (decoded_unique _ _ _ (proj1 (ss_cells _ _ _ _ _ Hst)) (tracks_decoded _ _ _ _ _ _ db s Ht)) as ->.
  exists cr, ir. split; [|done]. destruct Hv. by split.
Qed.

Lemma compute_exhausted o : ~ commit_number (ad_head s) < 2 ^ 64 - 1 -> compute tx o = Err CommitNumberExhausted.
Proof using Ht.
  intros Hn. unfold compute. rewrite (ss_head _ _ _ _ _ (tracks_state _ _ _ _ _ _ db s Ht)). unfold mbind, res_mbind.
  rewrite (dt_head _ _ _ _ _ _ _ _ Ht). unfold checked_succ. by rewrite (proj2 (Z.ltb_ge _ _)) by lia.
Qed.

Lemma next_available c : commit_number c < 2 ^ 64 - 1 -> next_commit c = Ok {| commit_number := commit_number c + 1 |}.
Proof using. intros Hn. unfold next_commit, checked_succ. by rewrite (proj2 (Z.ltb_lt _ _)). Qed.
Lemma next_exhausted c : ~ commit_number c < 2 ^ 64 - 1 -> next_commit c = Err (api_branch_error CommitNumberExhausted).
Proof using. intros Hn. unfold next_commit, checked_succ. by rewrite (proj2 (Z.ltb_ge _ _)) by lia. Qed.

Lemma compute_number o sealed : compute tx o = Ok sealed -> next_commit (ad_head s) = Ok (sl_commit_id sealed).
Proof using Ht.
  intros (h & cr & ir & value & cu & iu & b & Eh & Enum & _)%compute_inv. rewrite (ss_head _ _ _ _ _ (tracks_state _ _ _ _ _ _ db s Ht)) in Eh. injection Eh as <-.
  rewrite (dt_head _ _ _ _ _ _ _ _ Ht) in Enum. unfold next_commit. rewrite Enum. by destruct (sl_commit_id sealed).
Qed.

Lemma conflict_digest C (e : BranchError) (b : Buffered MemoryTx) : seal_conflict C e b -> digest_error e.
Proof using. intros [->|[->| ->]]%seal_conflict_kind; done. Qed.
Lemma meets_digest o e : seal_meets tx o e -> digest_error e.
Proof using. intros (? & ? & ? & ? & _ & Hcf). by eapply conflict_digest. Qed.
Lemma digest_internal (e : BranchError) : digest_error e -> api_branch_error e = A_Internal (Dyn_Branch e).
Proof using. destruct e as [| | | | |[|[]| | |]|[|[]| | | | |]| | | | | | | | |]; done. Qed.

Lemma roots_kept o W' : over O o W' -> same_roots O W' -> keeps_roots O o.
Proof using. intros [_ E] Hr k Hk. rewrite E. by apply Hr. Qed.

(** What sealing a branch at the head ends with *)
Lemma compute_cases st b : branch_tracks config tx O st b -> commit_number (ad_head s) < 2 ^ 64 - 1 -> separate tx (bs_overlay st) ->
  (exists sealed, compute tx (bs_overlay st) = Ok sealed) \/ (exists e, compute tx (bs_overlay st) = Err e /\ seal_meets tx (bs_overlay st) e).
Proof using Ht RO HL.
  intros Hb Hn (cr & ir & Hv & Hd & Hc)%separate_valid. destruct (tracks_now L O _ _ (bt_history _ _ _ _ _ Hb)) as [Hst Hs Hr _].
  pose proof (tracks_number _ _ _ _ _ _ db s Ht) as Hnum. rewrite <- (dt_head _ _ _ _ _ _ _ _ Ht) in Hn, Hnum.
  pose proof (commit_valid tx config head cr ir O _ (bs_overlay st) _ Hv Hd Hst (sh_inv _ _ _ Hs) (roots_kept _ _ (conj Hst eq_refl) Hr) ltac:(lia) Hc) as Hcv.
  destruct (compute tx (bs_overlay st)) as [sealed|e| |]; [by left; exists sealed| |done..]. right. exists e. split; [done|]. exists head, cr, ir, O. split; [apply Hv|exact Hcv].
Qed.

Abbreviation seal_follows := (follows config tx O api_branch_error BranchState_seal (fun sealed => RepCommit (sl_commit_id sealed)) seal_body).

Lemma seal_request id : api_step 0 (AskSeal id) db = (x ← st_map_err api_branch_error (with_branch (fun e => e) id BranchState_seal); mret (RepCommit (sl_commit_id x))) db.
Proof using.
  cbn [api_step]. unfold Inner_seal, mbind, stres_mbind, st_map_err, db_seal. by destruct (with_branch _ _ _ db) as [[] ?].
Qed.

(** A seal that gets a result, cached or computed *)
Lemma seal_ok st b sealed : branch_tracks config tx O st b -> ab_origin b = ad_head s -> (bs_sealed st = None -> separate tx (bs_overlay st)) ->
  compute tx (bs_overlay st) = Ok sealed -> seal_follows st b.
Proof using Ht.
  intros [Ho Hh Hs Hc] Eo Hsep Ec. pose proof (compute_number _ _ Ec) as En. eexists. split; [|split; [|rewrite seal_result by (intros ? E; apply (Hc _ E)); rewrite Ec; cbn [snd]]].
  - unfold seal_body. rewrite Eo, En, seal_result by (intros ? E; apply (Hc _ E)). by rewrite Ec.
  - done.
  - split; cbn [ab_origin ab_history ab_sealed bs_commit_id bs_overlay bs_sealed is_ok]; [congruence|done| |].
    + by rewrite bool_decide_true by (by eexists).
    + intros sealed' [= <-]. split; [done|]. split; [destruct (bs_sealed st) eqn:Es; [by apply (Hc _ eq_refl)|by apply Hsep]|].
      destruct (decide (commit_number (ad_head s) < 2 ^ 64 - 1)) as [|Hn]; [done|]. by rewrite next_exhausted in En.
Qed.

(** A seal past the last number *)
Lemma seal_exhausted st b : branch_tracks config tx O st b -> ab_origin b = ad_head s -> ~ commit_number (ad_head s) < 2 ^ 64 - 1 ->
  bs_sealed st = None /\ seal_follows st b.
Proof using Ht.
  intros Hb Eo Hn. pose proof Hb as [Ho Hh Hs Hc]. assert (bs_sealed st = None) as Es.
  { destruct (bs_sealed st) as [sealed|]; [|done]. exfalso. destruct (Hc sealed eq_refl) as (_ & _ & Hlt). by rewrite Eo in Hlt. }
  split; [done|]. exists b. rewrite seal_result by (by rewrite Es). rewrite compute_exhausted by done. split; [|done].
  unfold seal_body. rewrite Eo, next_exhausted by done. rewrite Es, bool_decide_false in Hs by (by intros []). cbn. rewrite <- Eo. destruct b. cbn in *. by rewrite Hs.
Qed.

Lemma meets_refused ev id st b e : seals ev = Some id -> live db id st tx -> ad_branches s !! id = Some b -> ab_origin b = ad_head s ->
  branch_tracks config tx O st b -> bs_sealed st = None -> seal_meets tx (bs_overlay st) e -> refused db s ev e.
Proof using.
  intros Hev Hl Ha Eo Hb Es He. split; [by eapply meets_digest|]. exists id, st, tx, b. split_and!; [done..|].
  rewrite (bt_sealed _ _ _ _ _ Hb), Es. by rewrite bool_decide_false by (by intros []).
Qed.

Lemma refused_served req e : api_step 0 req db = (Err (A_Internal (Dyn_Branch e)), db) -> (forall fuel, api_step fuel req db = api_step 0 req db) -> refused db s (EvAsk req) e -> served req.
Proof using Ht.
  intros Hr Hf Hre. exists (Err (A_Internal (Dyn_Branch e))), db, s. split; [exists 0%nat; intros fuel _; by rewrite Hf|]. split; [by apply allows_refusal|].
  by exists tx, head, cell_root, index_root, O.
Qed.

(** A live branch's seal gets a result, or one of the errors that are left open. *)
Lemma live_cases id st b : live db id st tx -> ab_origin b = ad_head s -> branch_tracks config tx O st b ->
  (bs_sealed st = None -> separate tx (bs_overlay st)) ->
  (exists sealed, compute tx (bs_overlay st) = Ok sealed /\ commit_number (ad_head s) < 2 ^ 64 - 1) \/
  (~ commit_number (ad_head s) < 2 ^ 64 - 1) \/
  (exists e, compute tx (bs_overlay st) = Err e /\ seal_meets tx (bs_overlay st) e /\ bs_sealed st = None).
Proof using Ht RO HL.
  intros Hl Eo Hb Hsep. destruct (decide (commit_number (ad_head s) < 2 ^ 64 - 1)) as [Hn|]; [|by right; left].
  destruct (bs_sealed st) as [sealed|] eqn:Es.
  - left. exists sealed. by destruct (bt_seal _ _ _ _ _ Hb sealed Es).
  - destruct (compute_cases st b Hb Hn (Hsep eq_refl)) as [[sealed E]|(e & E & He)]; [left; by exists sealed|]. right; right. by exists e.
Qed.

Lemma seal_served id : separated (AskSeal id) db -> served (AskSeal id).
Proof using Ht RO HL.
  intros Hsep. destruct (slot_cases _ _ _ _ _ _ db s Ht id) as [Hd Ha|st b Hd Ha Eo Hne|st b Hl Ha Eo Hb].
  1,2: apply served_by; [done|]; rewrite seal_request; apply (branch_request config tx head cell_root index_root O (fun e => e) api_branch_error _ _ seal_body id db s Ht eq_refl); intros st' b' (Hd' & _) Ha' Eo' _; congruence.
  assert (seal_follows st b -> served (AskSeal id)) as Hdone.
  { intros Hf. apply served_by; [done|]. rewrite seal_request. by apply (branch_request_live config tx head cell_root index_root O (fun e => e) api_branch_error _ _ seal_body id db s Ht st b). }
  destruct (live_cases id st b Hl Eo Hb (Hsep st tx Hl)) as [(sealed & Ec & _)|[Hn|(e & Ec & He & Es)]].
  - apply Hdone. eapply seal_ok; [done..|by apply Hsep|exact Ec].
  - by apply Hdone, seal_exhausted.
  - apply (refused_served _ e); [|done|by eapply meets_refused]. pose proof (meets_digest _ _ He) as He'.
    rewrite seal_request. unfold mbind, stres_mbind, st_map_err. rewrite (with_branch_same (fun e => e) id BranchState_seal db st tx (Err e) Hl); [cbn [map_err]; by rewrite digest_internal|].
    rewrite seal_result by (by rewrite Es). by rewrite Ec.
Qed.

(** A commit whose seal fails *)
Lemma commit_fails id st e : live db id st tx -> bs_sealed st = None -> compute tx (bs_overlay st) = Err e -> db_commit id db = (Err e, db).
Proof using.
  intros (Hid & Hr & Hh) Hs Hc. unfold db_commit, with_slot. rewrite Hid, Hr, Hh, bool_decide_true by done. cbn [negb].
  unfold mbind, stres_mbind, commit_seal. rewrite seal_result by (by rewrite Hs). rewrite Hc. cbn [mbind res_mbind]. by rewrite set_slot_same.
Qed.

Lemma commit_request id : api_step 0 (AskCommit id) db =
  (c ← map_err api_branch_error (db_commit id db).1; Ok (RepCommit c), (db_commit id db).2).
Proof using. cbn [api_step]. unfold Inner_commit, mbind, stres_mbind, st_map_err. by destruct (db_commit id db) as [[] ?]. Qed.

(** Commits that publish nothing *)
Lemma commit_missing id : db_branches db !! id = None -> ad_branches s !! id = None -> served (AskCommit id).
Proof using Ht.
  intros Hd Ha. apply served_by; [done|]. exists db. rewrite commit_request. cbn [ad_step]. unfold ad_commit, on_branch. rewrite Ha. split; [|done].
  unfold db_commit, with_slot. by rewrite Hd.
Qed.

Lemma commit_stale id st b : db_branches db !! id = Some (Some st) -> ad_branches s !! id = Some b -> bs_commit_id st = ab_origin b ->
  ab_origin b <> ad_head s -> served (AskCommit id).
Proof using Ht.
  intros Hd Ha Eo Hne. apply served_by; [done|]. exists (db_remove id db). rewrite commit_request. cbn [ad_step]. unfold ad_commit, on_branch.
  rewrite Ha, bool_decide_false by done. split; [|by apply remove_tracks]. unfold db_commit.
  rewrite (with_slot_stale (fun e => e) id Conflict _ db st tx (ad_head s)); [done|done|by eapply tracks_read|by eapply tracks_head|by rewrite Eo].
Qed.

Lemma commit_exhausted id st b : live db id st tx -> ad_branches s !! id = Some b -> ab_origin b = ad_head s -> branch_tracks config tx O st b ->
  ~ commit_number (ad_head s) < 2 ^ 64 - 1 -> served (AskCommit id).
Proof using Ht.
  intros Hl Ha Eo Hb Hn. destruct (seal_exhausted st b Hb Eo Hn) as [Es _]. apply served_by; [done|]. exists db. rewrite commit_request.
  rewrite (commit_fails id st CommitNumberExhausted Hl Es (compute_exhausted _ Hn)). cbn [ad_step]. unfold ad_commit, on_branch.
  rewrite Ha, bool_decide_true, Eo, next_exhausted by done. cbn -[set_branch]. by rewrite set_branch_same.
Qed.

(** The machine after a commit *)
Definition committed_ad (id : BranchId) (b : AbsBranch) : AbsDb :=
  {| ad_head := {| commit_number := commit_number (ad_head s) + 1 |}; ad_records := hs_now (ab_history b);
     ad_branches := ad_branches (set_branch id None s); ad_next := ad_next s |}.

Lemma ad_commit_ok id b : ad_branches s !! id = Some b -> ab_origin b = ad_head s -> commit_number (ad_head s) < 2 ^ 64 - 1 ->
  ad_commit id s = (Ok (RepCommit {| commit_number := commit_number (ad_head s) + 1 |}), committed_ad id b).
Proof using. intros Ha Eo Hn. unfold ad_commit, on_branch. by rewrite Ha, bool_decide_true, Eo, next_available by done. Qed.

(** Branches of the old head are stale now. *)
Lemma commit_slots id b (db' : Db MemoryStore) tx' O' : db_branches db' = delete id (db_branches db) -> forall i,
  slot_tracks config tx' O' (ad_head (committed_ad id b)) (db_branches db' !! i) (ad_branches (committed_ad id b) !! i).
Proof using Ht.
  intros Ed i. rewrite Ed. cbn [committed_ad ad_head ad_branches set_branch]. destruct (decide (i = id)) as [->|Hne].
  - by rewrite lookup_delete_eq, lookup_partial_alter_eq.
  - rewrite lookup_delete_ne, lookup_partial_alter_ne by done. pose proof (dt_slots _ _ _ _ _ _ _ _ Ht i) as Hi. unfold slot_tracks in *.
    destruct (db_branches db !! i) as [[st'|]|], (ad_branches s !! i) as [b'|]; try done. destruct Hi as (Eo & Hle & _). cbn [commit_number].
    split; [done|]. split; [lia|]. intros E. rewrite E in Hle. cbn in Hle. lia.
Qed.

Lemma commit_live id st b : live db id st tx -> ad_branches s !! id = Some b -> ab_origin b = ad_head s -> branch_tracks config tx O st b ->
  commit_number (ad_head s) < 2 ^ 64 - 1 -> separate tx (bs_overlay st) -> served (AskCommit id).
Proof using Ht RO HL.
  intros Hl Ha Eo Hb Hn (cr & ir & Hv & Hdg & Hcl)%separate_valid. destruct (tracks_now L O _ _ (bt_history _ _ _ _ _ Hb)) as [Hst Hs Hr Hu].
  pose proof (tracks_number _ _ _ _ _ _ db s Ht) as Hnum. pose proof (dt_head _ _ _ _ _ _ _ _ Ht) as Eh.
  assert (Hn' : 0 <= commit_number (hd_commit_id head) < 2 ^ 64 - 1) by (rewrite Eh; lia).
  assert (Hcached : forall sealed, bs_sealed st = Some sealed -> compute tx (bs_overlay st) = Ok sealed) by (intros sealed E; apply (bt_seal _ _ _ _ _ Hb _ E)).
  pose proof (commit_publishes db id st tx config head cr ir O _ _ _ (srv_idle _ _ _ _ _ _ _ _ (dt_serves _ _ _ _ _ _ _ _ Ht)) Hl Hcached Hv
    (conj Hst eq_refl) Hs (roots_kept _ _ (conj Hst eq_refl) Hr) Hdg Hn' Hcl) as Hc.
  pose proof (commit_request id) as Hreq. destruct (db_commit id db) as [[c|e| |] db']; cbn [fst snd map_err] in Hreq; [| |done..].
  - destruct Hc as (En & Ed & Enext & Hi & tx' & head' & cr' & ir' & O' & Hr' & Ehd & Hv' & Hs').
    assert (c = {| commit_number := commit_number (ad_head s) + 1 |}) as -> by (destruct c; cbn in En; rewrite En, Eh; done).
    exists (Ok (RepCommit {| commit_number := commit_number (ad_head s) + 1 |})), db', (committed_ad id b). split; [exists 0%nat; intros fuel _; exact Hreq|].
    split; [pose proof (allows_step L db s (EvAsk (AskCommit id))) as Hal; cbn [ev_step ad_step] in Hal; by rewrite (ad_commit_ok id b Ha Eo Hn) in Hal|].
    exists tx', head', cr', ir', O'. split; [by split|exact Ehd|exact Hu|by rewrite Enext, (dt_next _ _ _ _ _ _ _ _ Ht)|by apply commit_slots].
  - destruct Hc as (Hcf & Es & ->). pose proof (conflict_digest _ e _ Hcf) as He. apply (refused_served _ e); [by rewrite Hreq, digest_internal|done|].
    eapply meets_refused; [done..|]. exists head, cr, ir, O. split; [apply Hv|exact Hcf].
Qed.

Lemma commit_served id : separated (AskCommit id) db -> served (AskCommit id).
Proof using Ht RO HL.
  intros Hsep. destruct (slot_cases _ _ _ _ _ _ db s Ht id) as [Hd Ha|st b Hd Ha Eo Hne|st b Hl Ha Eo Hb]; [by apply commit_missing|by eapply commit_stale|].
  destruct (decide (commit_number (ad_head s) < 2 ^ 64 - 1)) as [Hn|]; [|by eapply commit_exhausted].
  eapply commit_live; [done..|]. destruct (bs_sealed st) as [sealed|] eqn:Es; [by apply (bt_seal _ _ _ _ _ Hb sealed Es)|by apply Hsep].
Qed.

Lemma request_served req : request_ok req -> separated req db -> served req.
Proof using Ht RO HL.
  destruct req; intros Hok Hsep; [apply head_served|apply begin_served|by apply get_served|by apply query_served|by apply count_served|by apply call_served|
    apply info_served|apply checkpoint_served|apply rollback_served|by apply seal_served|by apply commit_served|apply discard_served].
Qed.
End Requests.

(** * Locks *)

Section Locks.
Context `{Roaring} `{HashProvider}.
Implicit Types w : World MemoryStore.

(** A request runs as steps of the manager, between the commits under way. *)
Lemma no_steps w : exists ls, world_run w ls {| w_db := w_db w; w_open := w_open w |}.
Proof using. exists []. destruct w. constructor. Qed.
Lemma one_step w l db' : world_step w l {| w_db := db'; w_open := w_open w |} -> exists ls, world_run w ls {| w_db := db'; w_open := w_open w |}.
Proof using. intros Hs. eexists. eapply run_cons; [exact Hs|constructor]. Qed.
Lemma call_step w id db' : w_open w !! id = None -> branch_call id (w_db w) db' -> exists ls, world_run w ls {| w_db := db'; w_open := w_open w |}.
Proof using. intros Hno Hc. eapply one_step. by eapply w_call. Qed.

Lemma commit_steps w id : w_open w !! id = None -> exists ls, world_run w ls {| w_db := (db_commit id (w_db w)).2; w_open := w_open w |}.
Proof using.
  intros Hno. rewrite commit_is_open_then_close. destruct (commit_open id (w_db w)) as [r db1] eqn:Eo. pose proof (w_commit_open w id r db1 Hno Eo) as Hs.
  destruct r as [[c sl]|e| |]; [|by eapply one_step..]. destruct (commit_close id c sl db1) as [r2 db2] eqn:Ec. cbn [snd].
  eexists. eapply run_cons; [exact Hs|]. eapply run_cons; [eapply w_commit_close; [apply lookup_insert_eq|exact Ec]|]. cbn [w_open]. rewrite delete_insert_id by done. constructor.
Qed.

Lemma reply_state {E A} (conv : E -> ApiError) (f : A -> Reply) (c : stres (Db MemoryStore) E A) db : ((x ← st_map_err conv c; mret (f x)) db).2 = (c db).2.
Proof using. unfold mbind, stres_mbind, st_map_err. by destruct (c db) as [[] ?]. Qed.

Lemma rec_call_steps fuel id op w : w_open w !! id = None -> exists ls, world_run w ls {| w_db := (rec_call fuel id op (w_db w)).2; w_open := w_open w |}.
Proof using.
  intros Hno. assert (forall E A (p : CellProg MemoryTx E A), exists ls, world_run w ls {| w_db := (db_write id p (w_db w)).2; w_open := w_open w |}) as Hw
    by (intros E A p; eapply call_step; [done|apply call_write]).
  destruct op as [key names|key values|key changes|key]; cbn [rec_call]; unfold Records_get, Records_create, Records_patch, Records_delete.
  - assert (exists ls, world_run w ls {| w_db := (db_read id (fun o origin => (run_prog origin (read_branch_record fuel key names) o).1) (w_db w)).2; w_open := w_open w |}) as Hr
      by (eapply call_step; [done|apply call_read]). unfold mbind, stres_mbind, st_map_err. by destruct (db_read _ _ _) as [[] ?].
  - unfold mbind, stres_mbind, lift_res, st_map_err. destruct (reject_reserved key); try apply no_steps. specialize (Hw _ _ (create_prog key values)). by destruct (db_write _ _ _) as [[] ?].
  - unfold mbind, stres_mbind, lift_res, st_map_err. destruct (reject_reserved key); try apply no_steps. specialize (Hw _ _ (patch_prog key changes)). by destruct (db_write _ _ _) as [[] ?].
  - unfold mbind, stres_mbind, lift_res, st_map_err. destruct (reject_reserved key); try apply no_steps. specialize (Hw _ _ (delete_prog fuel key)). by destruct (db_write _ _ _) as [[] ?].
Qed.

Lemma api_step_steps fuel req w : (forall id, locks req = Some id -> w_open w !! id = None) ->
  exists ls, world_run w ls {| w_db := (api_step fuel req (w_db w)).2; w_open := w_open w |}.
Proof using.
  intros Hno. destruct req as [| |commit key names|commit op|commit op|id op|id|id|id|id|id|id]; cbn [api_step locks] in *; try specialize (Hno id eq_refl).
  - unfold Inner_head. rewrite reply_state. apply no_steps.
  - unfold Inner_begin. rewrite reply_state. eapply one_step, w_begin, surjective_pairing.
  - unfold Inner_get. rewrite reply_state. destruct commit; apply no_steps.
  - unfold Inner_query, mbind, stres_mbind, st_map_err, reading. destruct (Queries_query _ _ _ _); apply no_steps.
  - unfold Inner_count. rewrite reply_state. apply no_steps.
  - rewrite api_call_reply. by apply rec_call_steps.
  - unfold Inner_branch_info, mbind, stres_mbind, st_map_err.
    assert (exists ls, world_run w ls {| w_db := (db_branch_info id (w_db w)).2; w_open := w_open w |}) as Hi by (eapply call_step; [done|apply call_info]). by destruct (db_branch_info id (w_db w)) as [[] ?].
  - unfold Inner_checkpoint. rewrite reply_state. eapply call_step; [done|apply call_checkpoint].
  - unfold Inner_rollback. rewrite reply_state. eapply call_step; [done|apply call_rollback].
  - unfold Inner_seal, mbind, stres_mbind, st_map_err. assert (exists ls, world_run w ls {| w_db := (db_seal id (w_db w)).2; w_open := w_open w |}) as Hi by (eapply call_step; [done|apply call_seal]).
    by destruct (db_seal id (w_db w)) as [[] ?].
  - unfold Inner_commit. rewrite reply_state. by apply commit_steps.
  - unfold Inner_discard. rewrite reply_state. eapply call_step; [done|apply call_discard].
Qed.
End Locks.

(** * Events *)

Section Events.
Context `{Roaring} {RO : RoaringLaws} `{HashProvider} {HL : HashLaws}.
Context (config : GenesisConfig).
Abbreviation L := (cell_limits config).
Implicit Types w : World MemoryStore.

(** The machine follows the database, and the manager's invariant holds. *)
Definition simulates_world w (s : AbsDb) : Prop := simulates_db config (w_db w) s /\ world_ok w.

Definition event_served (ev : Event) w (s : AbsDb) : Prop := exists r w' s', served_as ev w r w' /\ ev_allows L (w_db w) s ev r s' /\ simulates_world w' s'.

Lemma ask_served req w s : simulates_world w s -> request_ok req -> enabled (EvAsk req) w -> separated req (w_db w) -> event_served (EvAsk req) w s.
Proof using RO HL.
  intros [(tx & head & cr & ir & O & Ht) Hw] Hok Hno Hsep.
  destruct (request_served config tx head cr ir O (w_db w) s Ht req Hok Hsep) as (r & db' & s' & (f0 & Ha) & Hal & Hsim).
  exists r, {| w_db := db'; w_open := w_open w |}, s'. split; [exists f0; intros fuel Hf; cbn [serve]; by rewrite Ha|]. split; [done|]. split; [done|].
  destruct (api_step_steps f0 req w Hno) as [ls Hrun]. rewrite Ha in Hrun by done. by eapply world_run_ok.
Qed.

(** *** The first part of a commit *)

Definition start_reply id (db : Db MemoryStore) : res ApiError Reply :=
  '(_, sealed) ← map_err api_branch_error (commit_open id db).1; Ok (RepCommit (sl_commit_id sealed)).

Lemma commit_open_live id (db : Db MemoryStore) st (tx : MemoryTx) : live db id st tx ->
  commit_open id db = (sealed ← (BranchState_seal tx st).1; Ok (bs_commit_id st, sealed), set_slot id (Some (BranchState_seal tx st).2) db).
Proof using.
  intros (Hid & Hr & Hh). unfold commit_open, with_slot. rewrite Hid, Hr, Hh, bool_decide_true by done. cbn [negb commit_seal]. by destruct (BranchState_seal tx st).
Qed.

Section Start.
Context (tx : MemoryTx) (head : Head) (cell_root index_root : RootRef) (O : CellMap) (db : Db MemoryStore) (s : AbsDb) (id : BranchId).
Hypothesis Ht : db_tracks config tx head cell_root index_root O db s.
Abbreviation started := (exists s', ev_allows L db s (EvStart id) (start_reply id db) s' /\ simulates_db config (commit_open id db).2 s').

Lemma start_by r' : start_reply id db = (on_branch A_Conflict id seal_body s).1 -> (commit_open id db).2 = r' ->
  db_tracks config tx head cell_root index_root O r' (on_branch A_Conflict id seal_body s).2 -> started.
Proof using. intros Er -> Ht'. exists (on_branch A_Conflict id seal_body s).2. rewrite Er. split; [apply (allows_step L db s (EvStart id))|]. by exists tx, head, cell_root, index_root, O. Qed.

Lemma start_live st b : live db id st tx -> ad_branches s !! id = Some b -> ab_origin b = ad_head s ->
  follows config tx O api_branch_error BranchState_seal (fun sealed => RepCommit (sl_commit_id sealed)) seal_body st b -> started.
Proof using Ht.
  intros Hl Ha Eo (b' & Eb & Eo' & Hb'). apply (start_by (set_slot id (Some (BranchState_seal tx st).2) db)).
  - unfold start_reply, on_branch. rewrite Ha, bool_decide_true, Eb, (commit_open_live id db st tx Hl) by done. by destruct (BranchState_seal tx st).1.
  - by rewrite (commit_open_live id db st tx Hl).
  - unfold on_branch. rewrite Ha, bool_decide_true, Eb by done. by eapply set_tracks.
Qed.

Lemma start_db : separated (AskCommit id) db -> started.
Proof using Ht RO HL.
  intros Hsep. destruct (slot_cases _ _ _ _ _ _ db s Ht id) as [Hd Ha|st b Hd Ha Eo Hne|st b Hl Ha Eo Hb].
  - apply (start_by db); unfold start_reply, on_branch, commit_open, with_slot; by rewrite ?Hd, ?Ha.
  - assert (commit_open id db = (Err Conflict, db_remove id db)) as E.
    { eapply with_slot_stale; [done|by eapply tracks_read|by eapply tracks_head|by rewrite Eo]. }
    apply (start_by (db_remove id db)); unfold start_reply, on_branch; rewrite ?E, ?Ha, ?bool_decide_false by done; [done..|]. by apply remove_tracks.
  - destruct (live_cases config tx head cell_root index_root O db s Ht id st b Hl Eo Hb (Hsep st tx Hl)) as [(sealed & Ec & _)|[Hn|(e & Ec & He & Es)]].
    + eapply start_live; [done..|]. eapply seal_ok; [done..|by apply Hsep|exact Ec].
    + eapply start_live; [done..|]. by eapply seal_exhausted.
    + exists s. assert (BranchState_seal tx st = (Err e, st)) as Eseal by (rewrite seal_result by (by rewrite Es); by rewrite Ec).
      unfold start_reply. rewrite (commit_open_live id db st tx Hl), Eseal. cbn [fst snd mbind res_mbind map_err]. rewrite digest_internal by (by eapply meets_digest).
      split; [|rewrite set_slot_same by apply Hl; by exists tx, head, cell_root, index_root, O]. apply allows_refusal. by eapply meets_refused.
Qed.
End Start.

Lemma start_served id w s : simulates_world w s -> enabled (EvStart id) w -> separated (AskCommit id) (w_db w) -> event_served (EvStart id) w s.
Proof using RO HL.
  intros [(tx & head & cr & ir & O & Ht) Hw] Hno Hsep. destruct (start_db tx head cr ir O (w_db w) s id Ht Hsep) as (s' & Hal & Hsim).
  unfold start_reply in Hal. destruct (commit_open id (w_db w)) as [r db'] eqn:E. pose proof (world_step_ok w None _ Hw (w_commit_open w id r db' Hno E)) as Hw'.
  eexists _, _, s'. split; [exists 0%nat; intros fuel _; cbn [serve]; rewrite E; reflexivity|]. split; [exact Hal|]. by split.
Qed.

(** *** The second part *)

(** A writer that finds another head publishes nothing. *)
Lemma stale_persist (s : MemoryStore) (tx : MemoryTx) head c sealed : idle s -> begin_read s = Ok tx -> read_head tx = Ok head -> head <> c ->
  persist tx c sealed (set_writer_locked true s) = (Err Conflict, s).
Proof using.
  intros (_ & Hl & _) _ Hh Hne. unfold persist, stage_commit. unfold mbind at 1, stres_mbind at 1, reading. rewrite Hh, bool_decide_false by done. cbn [negb].
  unfold mbind, stres_mbind, lift_res. unfold tx_abort, Memory_store, MemoryStore_abort, set_writer_locked. destruct s. cbn in *. by rewrite Hl.
Qed.

(** The end of a commit under way is the commit of its sealed branch. *)
Lemma close_is_commit (db : Db MemoryStore) tx id st head c sealed : idle (db_store db) -> begin_read (db_store db) = Ok tx -> read_head tx = Ok head ->
  db_branches db !! id = Some (Some st) -> bs_commit_id st = c -> bs_sealed st = Some sealed -> commit_close id c sealed db = db_commit id db.
Proof using.
  intros Hi Hr Hh Hid Hc Hs. destruct (decide (head = c)) as [->|Hne].
  - assert (live db id st tx) as Hl by (split; [done|]; split; [done|congruence]). rewrite commit_is_open_then_close, (commit_open_live id db st tx Hl).
    assert (BranchState_seal tx st = (Ok sealed, st)) as -> by (unfold BranchState_seal; by rewrite Hs). cbn [fst snd mbind res_mbind].
    by rewrite set_slot_same, Hc.
  - unfold db_commit. rewrite (with_slot_stale _ id Conflict _ db st tx head Hid Hr Hh) by congruence. unfold commit_close, commit_publish. rewrite Hid.
    change (default None (Some (Some st))) with (Some st). cbv iota zeta beta. rewrite (idle_begin (db_store db) tx Hi Hr), (stale_persist (db_store db) tx head) by done.
    unfold set_slot, db_remove, set_store. cbn. f_equal. f_equal. apply alter_delete_eq.
Qed.

Lemma finish_served id w s : simulates_world w s -> enabled (EvFinish id) w -> event_served (EvFinish id) w s.
Proof using RO HL.
  intros [(tx & head & cr & ir & O & Ht) Hw] [[c sealed] Hop]. destruct (ok_open _ Hw id c sealed Hop) as (st & Hid & Hc & Hs).
  pose proof (tracks_read _ _ _ _ _ _ _ s Ht) as Hr. pose proof (tracks_head _ _ _ _ _ _ _ s Ht) as Hh.
  pose proof (close_is_commit (w_db w) tx id st (ad_head s) c sealed (srv_idle _ _ _ _ _ _ _ _ (dt_serves _ _ _ _ _ _ _ _ Ht)) Hr Hh Hid Hc Hs) as Eclose.
  assert (Hsep : separated (AskCommit id) (w_db w)) by (intros st' tx' (Hid' & _) Hs'; congruence).
  destruct (commit_served config tx head cr ir O (w_db w) s Ht id Hsep) as (r & db' & s' & (f0 & Ha) & Hal & Hsim).
  specialize (Ha f0 (le_n f0)). change (api_step f0 (AskCommit id) (w_db w)) with (api_step 0 (AskCommit id) (w_db w)) in Ha. rewrite commit_request in Ha.
  destruct (db_commit id (w_db w)) as [r' db''] eqn:Ecommit. cbn [fst snd] in Ha. injection Ha as <- <-.
  pose proof (world_step_ok w _ _ Hw (w_commit_close w id c sealed r' db'' Hop Eclose)) as Hw'.
  eexists _, _, s'. split; [exists 0%nat; intros fuel _; cbn [serve]; rewrite Hop, Eclose; reflexivity|]. split; [|by split].
  inversion Hal as [E1 E2|e (_ & id' & st' & tx' & b & [= <-] & _ & _ & Hb & Eo & Hns) E1 E2]; [exact (allows_step L (w_db w) s (EvFinish id))|]. exfalso. pose proof (dt_slots _ _ _ _ _ _ _ _ Ht id) as Hsl.
  rewrite Hid, Hb in Hsl. destruct Hsl as (_ & _ & Hbt). specialize (Hbt ltac:(by subst)). rewrite (bt_sealed _ _ _ _ _ Hbt), Hs in Hns. by rewrite bool_decide_true in Hns by (by eexists).
Qed.

(** ** Runs *)

Definition event_ok (ev : Event) : Prop := match ev with EvAsk req => request_ok req | _ => True end.

Lemma event_is_served ev w s : simulates_world w s -> event_ok ev -> enabled ev w -> separated_event ev w -> event_served ev w s.
Proof using RO HL. destruct ev; [apply ask_served|intros ? _; by apply start_served|intros ? _ ? _; by apply finish_served]. Qed.

Lemma run_served evs w s : simulates_world w s -> Forall event_ok evs -> scheduled evs w ->
  exists f0 rs w' s', ev_run L w s evs rs w' s' /\ simulates_world w' s' /\ forall fuel, (f0 <= fuel)%nat -> run_calls (serve fuel) evs w = (rs, w').
Proof using RO HL.
  revert w s. induction evs as [|ev evs IH]; intros w s Hsim Hok Hsch.
  - exists 0%nat, [], w, s. split; [constructor|]. split; [done|]. intros fuel _. done.
  - apply Forall_cons in Hok as [Hev Hok]. destruct Hsch as (Hen & Hsep & Hrest).
    destruct (event_is_served ev w s Hsim Hev Hen Hsep) as (r & w1 & s1 & Ha & Hal & Hsim1).
    destruct (IH w1 s1 Hsim1 Hok (Hrest r w1 Ha)) as (f1 & rs & w' & s' & Hrun & Hsim' & Hf). pose proof Ha as (f0 & Hf0).
    exists (Nat.max f0 f1), (r :: rs), w', s'. split; [by econstructor|]. split; [done|]. intros fuel Hfuel. cbn [run_calls].
    rewrite Hf0 by lia. by rewrite Hf by lia.
Qed.

(** A served store without branches *)
Lemma fresh_tracks db tx head cr ir O ks : serves config (db_store db) tx head cr ir O ks -> user_keys ks -> db_branches db = ∅ -> 0 <= db_next_branch_id db ->
  simulates_world {| w_db := db; w_open := ∅ |} {| ad_head := hd_commit_id head; ad_records := ks; ad_branches := ∅; ad_next := db_next_branch_id db |}.
Proof using.
  intros Hs Hk Hb Hn. split.
  - exists tx, head, cr, ir, O. split; [done..|]. intros id. cbn [w_db ad_branches]. by rewrite Hb, !lookup_empty.
  - split; [|intros id c sl Hid; cbn in Hid; by rewrite lookup_empty in Hid]. split; cbn [w_db]; [..|done]; intros id slot Hid; by rewrite Hb, lookup_empty in Hid.
Qed.
End Events.
