(* ===== verification/ApiClaims.v ===== *)
(** The properties of the facade, with concrete instances. *)
From Stdlib Require Import ZArith Lia.
From S2P Require Import Prelude Ordered Groups Storage Scan CellTypes CellValue CellName MerkleNode MerkleTrie MerkleTree MerkleEdit MerkleSpec Samples.
From S2P Require Import BranchTypes CellScan Overlay Cells Buffer Term Bitmap BitmapSpec Index IndexSpec IndexReads IndexClaims Seal CellIndex SealSpec SealClaims.
From S2P Require Import Branches Records RecordsSpec CommittedSpec Query QuerySpec Genesis GenesisSpec OpenSpec Limits KeyedStore SampleStore SampleCommit CommitSpec Api ApiSpec.

#[local] Open Scope Z_scope.

(** C6. Record sessions through the facade refine a keyed store, and commits come
    through. On a handle over an idle memory store that is valid and shows a map
    from keys to records, [begin] returns a fresh branch, any sequence of
    create, get, patch and delete requests on it answers what the map machine
    answers, in the facade's errors, and [commit] returns. It returns the head's
    successor, retires the branch, and leaves an idle, valid store that shows the
    machine's map, so that reads at the head answer from it and the next session
    can start there. The one exception is reported as internal and leaves the
    store as it was: among the rows of the store and those of the seal, the digest
    of a branch or container of the tries that the commit makes (of its cells,
    of the index over them, or of a bitmap) is taken by another row. *)
Theorem sessions_refine_keyed_store `{Roaring} {RO : RoaringLaws} `{HashProvider} {HL : HashLaws}
    config (tx : MemoryTx) head cell_root index_root W ks (db : Db MemoryStore) ops :
  serves config (db_store db) tx head cell_root index_root W ks -> db_next_branch_id db < 2 ^ 64 - 1 ->
  0 <= commit_number (hd_commit_id head) < 2 ^ 64 - 1 -> Forall op_ok ops ->
  let '(answers, ks') := run_calls (ks_step (cell_limits config)) ops ks in
  exists f0, forall fuel, (f0 <= fuel)%nat ->
    exists id db1 db2, Inner_begin db = (Ok id, db1) /\ run_calls (api_call fuel id) ops db1 = (map_err api_record_error <$> answers, db2) /\
      (distinct_digests tx head cell_root index_root W db2 id ->
       match Inner_commit id db2 with
       | (Ok commit, db3) => commit_number commit = commit_number (hd_commit_id head) + 1 /\ db_branches db3 !! id = None /\
           exists tx' head' cell_root' index_root' W', hd_commit_id head' = commit /\ serves config (db_store db3) tx' head' cell_root' index_root' W' ks' /\
             forall fuel' key names, length key = 32%nat -> by_key key = None -> (size (view tx' CELL) < fuel')%nat ->
               Inner_get fuel' TargetHead {| record_key := key; operation := {| get_names := names |} |} db3 = (map_err api_record_error (ks_get ks' key names), db3)
       | (Err e, db3) => db_store db3 = db_store db /\ exists st e', live db2 id st tx /\ e = A_Internal (Dyn_Branch e') /\
           seal_conflict (sealed_cells head W (bs_overlay st)) e' (sealing cell_root index_root (seal_changes head (bs_overlay st)) (Buffered_new tx)).2
       | _ => False
       end).
Proof.
  intros Hsrv Hnext Hnum Hok. destruct (begin_serves config tx head cell_root index_root W ks db Hsrv Hnext) as (id & db1 & Eb & Est & Hb).
  destruct (calls_simulated (cell_limits config) id tx W ops W ks (srv_shows _ _ _ _ _ _ _ _ Hsrv) Hok) as (f0 & W' & Hs' & Hroots & Hrun).
  destruct (run_calls (ks_step (cell_limits config)) ops ks) as [answers ks']. cbn [fst snd] in *.
  exists f0. intros fuel Hf. destruct (Hrun fuel db1 Hf Hb) as (db2 & Ec & Hb2 & Est2). exists id, db1, db2.
  split; [done|]. split; [by rewrite api_calls_record, Ec|]. intros Hd. rewrite <- Est, <- Est2 in Hsrv.
  pose proof (commit_serves config tx head cell_root index_root W ks db2 id W' ks' Hsrv Hnum Hb2 Hroots Hs' Hd) as Hc.
  destruct (Inner_commit id db2) as [[commit|e| |] db3]; [|by rewrite <- Est, <- Est2|done..].
  destruct Hc as (Hn & Hgone & tx' & head' & cr & ir & W'' & Eh & Hsrv'). split; [done|]. split; [done|]. exists tx', head', cr, ir, W''.
  split; [done|]. split; [done|]. intros. by eapply get_serves.
Qed.

(** C20. Opening a fresh memory database writes commit zero: the handle has the
    given genesis, no branches, and an idle, valid store at commit zero without
    user records, hashed by the provider that the genesis names. It fails only
    when two branches of the trie of the cells of commit zero share a digest. *)
Theorem open_memory_serves_no_records `{Roaring} {RO : RoaringLaws} (Keccak256Hasher Blake3Hasher : list bytes -> Hash) genesis next :
  let chosen : HashProvider := hasher Keccak256Hasher Blake3Hasher (hash_function genesis) in
  @HashLaws chosen -> limits_ok (cell_limits genesis) -> max_cell_name_len (cell_limits genesis) <> 0 ->
  distinct_paths (∅ : CellMap) (initial_cells genesis) ->
  match Database_open_memory Keccak256Hasher Blake3Hasher genesis next with
  | Ok d => dbs_genesis d = genesis /\ oi_created (dbs_info d) = true /\ db_branches (dbs_inner d) = ∅ /\ db_next_branch_id (dbs_inner d) = next /\
      hd_commit_id (oi_head (dbs_info d)) = GENESIS /\
      exists tx cell_root, serves genesis (db_store (dbs_inner d)) tx (oi_head (dbs_info d)) cell_root REmpty (initial_cells genesis) no_records
  | Err (O_Cells (CE_Merkle ConflictingBranch)) => cell_clash (initial_cells genesis)
  | _ => False
  end.
Proof. intros chosen HL Hl Hn Hp. exact (open_memory_ok Keccak256Hasher Blake3Hasher genesis next Hl Hn Hp). Qed.

(** C33. A request's builder collects what its steps say. A chain of [insert],
    [attribute] and [field] calls on a creation, or [set], [attribute], [field]
    and [remove] calls on a patch, yields a request exactly with the key and the
    map of the named changes, each in the kind asked for, and then every name is
    a user name and none is repeated; otherwise it fails at the first step that
    is at fault, with an invalid-argument error located at that step, for an
    incompatible kind, an invalid name, or a repeated name. *)
Theorem builders_collect_changes key :
  (forall steps, builds (create_entry <$> steps) (op ← build_create key steps; Ok (create_values (operation op))) /\
     forall op, build_create key steps = Ok op -> record_key op = key) /\
  (forall steps, builds (patch_entry <$> steps) (op ← build_patch key steps; Ok (patch_changes (operation op))) /\
     forall op, build_patch key steps = Ok op -> record_key op = key).
Proof.
  split; intros steps; unfold build_create, build_patch; rewrite create_chain || rewrite patch_chain; unfold mbind, res_mbind;
    (match goal with |- context [builds ?l _] => pose proof (empty_builds l) as Hb end);
    (match type of Hb with ?P -> _ => assert P as Hends; [apply Forall_fmap, Forall_true; intros; apply create_entry_ends || apply patch_entry_ends|specialize (Hb Hends)] end);
    change (create_values (operation (RecordOp_create key))) with (∅ : RecordCells) in *; change (patch_changes (operation (RecordOp_patch key))) with (∅ : RecordPatch) in *;
    destruct (chain enter ∅ _) as [m|e| |]; (split; [done|]); intros op E; try done; by injection E as <-.
Qed.

(** C32. A full store is reported as such however deep the engine wrapped it: a
    record, branch or query error becomes [StoreFull] exactly when the store's
    capacity error is somewhere among the errors it wraps, and an error that is
    reported as internal never hides one. *)
Theorem api_reports_capacity :
  (forall e, (api_record_error e = A_StoreFull <-> exhausted (Dyn_Record e)) /\ forall source, api_record_error e = A_Internal source -> ~ exhausted source) /\
  (forall e, (api_branch_error e = A_StoreFull <-> exhausted (Dyn_Branch e)) /\ forall source, api_branch_error e = A_Internal source -> ~ exhausted source) /\
  (forall e, (api_query_error e = A_StoreFull <-> exists source, e = Q_Internal source /\ exhausted (boxed source)) /\
     forall source, api_query_error e = A_Internal source -> ~ exhausted source).
Proof. split_and!; intros e; [apply record_error_spec|apply branch_error_spec|apply query_error_spec]. Qed.

(** ** Concrete instances *)

Lemma sample_serves : exists h, serves sample_config sample_store sample_tx opened_head (RBranch h) REmpty sample_cells no_records /\
  read_digests sample_tx (RBranch h) REmpty sample_cells.
Proof.
  destruct sample_valid as (h & Hv & Hd). exists h. split; [|exact Hd].
  split; [exact (conj eq_refl (conj eq_refl eq_refl))|exact sample_read|exact Hv|exact sample_shows].
Qed.

(** The branch that created a record *)

Definition created_state : BranchState := {| bs_commit_id := GENESIS; bs_overlay := created_overlay; bs_sealed := None |}.
Definition created_db : Db MemoryStore :=
  {| db_store := sample_store; db_branches := {[ sample_branch := Some created_state ]}; db_next_branch_id := 1 |}.
Definition created_store : KeyedStore :=
  {| ks_next := FIRST_USER_RECORD_ID + 1; ks_records := {[ key_a := <[KEY := from_bytes32 key_a]> created_values ]} |}.

Lemma created_shows : shows sample_limits created_working created_store.
Proof.
  pose proof created_records as Hinv. rewrite (proj2 created_over) in Hinv. split; [exact Hinv|..].
  { intros key Hlen Hr. unfold created_working. rewrite (created_lookup_record sample_cells sample_limits FIRST_USER_RECORD_ID (sh_inv _ _ _ sample_shows) key_a created_values
    eq_refl eq_refl created_names key Hlen Hr). unfold created_store. cbn [ks_records]. case_bool_decide as E.
  - subst key. symmetry. apply lookup_singleton_eq.
  - rewrite lookup_singleton_ne by congruence. rewrite (sh_records _ _ _ sample_shows key Hlen Hr). apply lookup_empty. }
  apply fits_created; [exact (sh_fits _ _ _ sample_shows)|reflexivity|]. intros name v Hv.
    unfold created_values in Hv. apply lookup_singleton_Some in Hv as [<- <-]. apply validated_fits; vm_compute; reflexivity.
Qed.

Lemma created_commit_ends : is_ok (db_commit sample_branch created_db).1 = true.
Proof. vm_compute. reflexivity. Qed.

(** Begin, create a record, commit, read it at the head. *)
Definition idle_db : Db MemoryStore := {| db_store := sample_store; db_branches := ∅; db_next_branch_id := 0 |}.
Definition session_calls : list Call := [OpCreate key_a created_values].

Lemma session_head : read_head sample_tx = Ok GENESIS.
Proof. destruct sample_valid as (h & Hv & _). unfold read_head. rewrite (ss_head _ _ _ _ _ (sv_state _ _ _ _ _ _ _ Hv)). reflexivity. Qed.
Lemma session_live : live sample_db sample_branch sample_state sample_tx.
Proof. split; [apply lookup_singleton_eq|]. split; [exact sample_read|exact session_head]. Qed.

Lemma begin_at (s : MemoryStore) tx head : begin_read s = Ok tx -> read_head tx = Ok head ->
  Inner_begin {| db_store := s; db_branches := ∅; db_next_branch_id := 0 |} = (Ok sample_branch,
    {| db_store := s; db_branches := {[ sample_branch := Some {| bs_commit_id := head; bs_overlay := CellOverlay_new; bs_sealed := None |} ]}; db_next_branch_id := 1 |}).
Proof. intros Hr Hh. unfold Inner_begin, st_map_err, db_begin, db_head. cbn [db_store]. rewrite Hr. unfold mbind, res_mbind. cbn [map_err]. rewrite Hh. reflexivity. Qed.
Lemma session_begins : Inner_begin idle_db = (Ok sample_branch, sample_db).
Proof. exact (begin_at sample_store sample_tx GENESIS sample_read session_head). Qed.

Lemma session_created : run_prog sample_tx (create_prog key_a created_values) CellOverlay_new = (Ok key_a, created_overlay).
Proof.
  assert ((run_prog sample_tx (create_prog key_a created_values) CellOverlay_new).1 = Ok key_a) as E by (vm_compute; reflexivity).
  unfold created_overlay. destruct (run_prog _ _ _) as [r o]. cbn [fst snd] in *. rewrite E. reflexivity.
Qed.

(** A creation on an open branch, from what its program does. *)
Lemma create_call fuel (db : Db MemoryStore) id st tx key values r o : live db id st tx -> bs_sealed st = None -> by_key key = None ->
  run_prog tx (create_prog key values) (bs_overlay st) = (Ok r, o) ->
  run_calls (api_call fuel id) [OpCreate key values] db = ([Ok (AnsKey r)], set_slot id (Some (set_overlay o st)) db).
Proof.
  intros Hl Hs Hk Hp. rewrite api_calls_record. cbn [run_calls rec_call]. unfold Records_create. rewrite (reject_ok key Hk). unfold mbind, stres_mbind, lift_res, st_map_err, db_write.
  rewrite (with_branch_live _ id _ db st tx Hl). unfold require_open, CellOverlay_write. rewrite Hs, Hp. reflexivity.
Qed.

Lemma session_runs fuel : run_calls (api_call fuel sample_branch) session_calls sample_db = ([Ok (AnsKey key_a)], created_db).
Proof.
  unfold session_calls. rewrite (create_call fuel sample_db sample_branch sample_state sample_tx key_a created_values key_a created_overlay session_live eq_refl eq_refl session_created).
  f_equal.
Qed.
Lemma session_ok : Forall op_ok session_calls.
Proof. apply Forall_singleton. split; [reflexivity|]. intros name v Hv. unfold created_values in Hv. apply lookup_singleton_Some in Hv as [_ <-]. vm_compute. reflexivity. Qed.
Lemma session_map : run_calls (ks_step (cell_limits sample_config)) session_calls no_records = ([Ok (AnsKey key_a)], created_store).
Proof. vm_compute. reflexivity. Qed.

Lemma created_slot : db_branches created_db !! sample_branch = Some (Some created_state).
Proof. apply lookup_singleton_eq. Qed.
Lemma some_some_inj {A} (a b : A) : Some (Some a) = Some (Some b) -> b = a.
Proof. congruence. Qed.

Lemma sessions_refine_keyed_store_witness : exists db3 tx' head' cell_root' index_root' W',
  Inner_commit sample_branch created_db = (Ok {| commit_number := 1 |}, db3) /\
  serves sample_config (db_store db3) tx' head' cell_root' index_root' W' created_store /\
  forall fuel, (size (view tx' CELL) < fuel)%nat ->
    Inner_get fuel TargetHead (RecordOp_get key_a) db3 = (Ok {| rec_key := key_a; rec_cells := <[KEY := from_bytes32 key_a]> created_values |}, db3).
Proof.
  destruct sample_serves as (h & Hsrv & Hd). pose proof (sample_root_is h (sv_state _ _ _ _ _ _ _ (srv_valid _ _ _ _ _ _ _ _ Hsrv))) as Eh.
  assert (Hnum : 0 <= commit_number (hd_commit_id opened_head) < 2 ^ 64 - 1) by (cbn; lia).
  assert (Hcl : ~ clash (sealing_buffer h)) by (rewrite Eh; exact (clash_free_ok _ sealing_clear)).
  pose proof (sessions_refine_keyed_store sample_config sample_tx opened_head (RBranch h) REmpty sample_cells no_records idle_db session_calls
    Hsrv eq_refl Hnum session_ok) as Hs. rewrite session_map in Hs. destruct Hs as (f0 & Hs).
  destruct (Hs f0 (le_n f0)) as (id & db1 & db2 & Eb & Er & Hc). rewrite session_begins in Eb. injection Eb as <- <-.
  rewrite session_runs in Er. injection Er as <-.
  assert (Hdig : distinct_digests sample_tx opened_head (RBranch h) REmpty sample_cells created_db sample_branch).
  { intros st (Hst & _). rewrite created_slot in Hst. apply some_some_inj in Hst. subst st. split; [exact (created_digests h Hd)|exact Hcl]. }
  specialize (Hc Hdig). pose proof created_commit_ends as Hok.
  unfold Inner_commit, st_map_err in *. destruct (db_commit sample_branch created_db) as [[commit|e| |] db3]; [|discriminate Hok..]. cbn [map_err] in *.
  destruct Hc as (Enum & _ & tx' & head' & cr & ir & W' & _ & Hsrv' & Hget). exists db3, tx', head', cr, ir, W'.
  split; [destruct commit as [n]; cbn [commit_number] in Enum; rewrite Enum; reflexivity|]. split; [exact Hsrv'|].
  intros fuel Hf. exact (Hget fuel key_a None eq_refl eq_refl Hf).
Defined.

Lemma memory_opens : is_ok (Database_open_memory poly_hash poly_hash sample_config 0) = true.
Proof. vm_compute. reflexivity. Qed.

Lemma open_memory_serves_no_records_witness : exists d tx cell_root,
  Database_open_memory poly_hash poly_hash sample_config 0 = Ok d /\
  serves sample_config (db_store (dbs_inner d)) tx (oi_head (dbs_info d)) cell_root REmpty sample_cells no_records.
Proof.
  pose proof (open_memory_serves_no_records poly_hash poly_hash sample_config 0 poly_hash_laws sample_limits_ok ltac:(discriminate) sample_paths) as Ho.
  pose proof memory_opens as Hok. destruct (Database_open_memory poly_hash poly_hash sample_config 0) as [d|e| |]; [|discriminate Hok..].
  destruct Ho as (_ & _ & _ & _ & _ & tx & cell_root & Hs). exists d, tx, cell_root. split; [reflexivity|exact Hs].
Defined.
