(* ===== verification/DatabaseClaims.v ===== *)
(** The property of the whole database, with a concrete run. *)
From Stdlib Require Import ZArith Lia.
From S2P Require Import Prelude Ordered Groups Storage Scan CellTypes CellValue CellName MerkleNode MerkleTrie MerkleTree MerkleEdit MerkleSpec Samples.
From S2P Require Import BranchTypes CellScan Overlay Cells Buffer Term Bitmap BitmapSpec Index IndexSpec IndexReads IndexClaims Seal CellIndex SealSpec SealClaims.
From S2P Require Import Branches Records RecordsSpec CommittedSpec Query QuerySpec Genesis GenesisSpec OpenSpec Limits KeyedStore History Selection SampleStore SampleCommit CommitSpec Api ApiSpec ApiClaims.
From S2P Require Import DatabaseSpec DatabaseSim.

#[local] Open Scope Z_scope.

(** C1. The database is a head over a map of records, with branches that edit
    copies of it. From a memory store that serves a keyed store and has no open
    branches, run any schedule of requests: head reads, queries and counts, and on
    any number of interleaved branches begin, record calls, info, checkpoint,
    rollback, seal, commit and discard, also with other branches running (and
    committing) between the seal of a commit and its publication. As long as the
    contents that are sealed or queried have distinct digests, enough fuel ends
    the run, every reply (errors included) is the abstract machine's, and the
    store left serves the records of the machine's head. The one reply the machine
    leaves open is an internal digest error of a seal, which changes nothing, and
    then the digest of a branch or container of the tries that the seal makes is
    taken by another row. *)
Theorem database_refines_branched_records `{Roaring} {RO : RoaringLaws} `{HashProvider} {HL : HashLaws}
    config (db : Db MemoryStore) tx head cell_root index_root W ks events :
  serves config (db_store db) tx head cell_root index_root W ks -> user_keys ks -> db_branches db = ∅ -> 0 <= db_next_branch_id db ->
  Forall event_ok events -> scheduled events {| w_db := db; w_open := ∅ |} ->
  exists f0 replies w' s',
    ev_run (cell_limits config) {| w_db := db; w_open := ∅ |}
      {| ad_head := hd_commit_id head; ad_records := ks; ad_branches := ∅; ad_next := db_next_branch_id db |} events replies w' s' /\
    (forall fuel, (f0 <= fuel)%nat -> run_calls (serve fuel) events {| w_db := db; w_open := ∅ |} = (replies, w')) /\
    exists tx' head' cell_root' index_root' W', hd_commit_id head' = ad_head s' /\
      serves config (db_store (w_db w')) tx' head' cell_root' index_root' W' (ad_records s').
Proof.
  intros Hs Hk Hb Hn Hok Hsch.
  destruct (run_served config events _ _ (fresh_tracks config db tx head cell_root index_root W ks Hs Hk Hb Hn) Hok Hsch) as (f0 & rs & w' & s' & Hrun & Hsim & Hf).
  exists f0, rs, w', s'. split; [done|]. split; [done|]. destruct Hsim as [(tx' & head' & cr & ir & O & Ht) _]. exists tx', head', cr, ir, O.
  split; apply Ht.
Qed.

(** ** A concrete run: a branch commits while another is open, which is stale then *)

Definition other_branch : BranchId := {| branch_number := 1 |}.
Definition sample_events : list Event :=
  [EvAsk AskBegin; EvAsk (AskCall sample_branch (OpCreate key_a created_values)); EvAsk AskBegin; EvStart sample_branch;
   EvAsk (AskCheckpoint other_branch); EvFinish sample_branch; EvAsk (AskGet None key_a None); EvAsk (AskRollback other_branch)].
Definition two_branches : Db MemoryStore :=
  {| db_store := sample_store; db_next_branch_id := 2;
     db_branches := <[other_branch := Some sample_state]> {[ sample_branch := Some created_state ]} |}.
Definition idle_world (db : Db MemoryStore) : World MemoryStore := {| w_db := db; w_open := ∅ |}.

Lemma served_is `{Roaring, HashProvider} ev w r w' r0 w0 : served_as ev w r w' -> (forall fuel, serve fuel ev w = (r0, w0)) -> w' = w0.
Proof. intros (f0 & Ha) Hf. specialize (Ha f0 (le_n f0)). rewrite Hf in Ha. congruence. Qed.

Lemma first_begins fuel : serve fuel (EvAsk AskBegin) (idle_world idle_db) = (Ok (RepBranch sample_branch), idle_world sample_db).
Proof. cbn [serve api_step idle_world w_db]. unfold mbind, stres_mbind. rewrite session_begins. reflexivity. Qed.

Lemma create_replies fuel : serve fuel (EvAsk (AskCall sample_branch (OpCreate key_a created_values))) (idle_world sample_db) =
  (Ok (RepAnswer (AnsKey key_a)), idle_world created_db).
Proof.
  cbn [serve api_step idle_world w_db]. pose proof (session_runs fuel) as Hr. unfold session_calls in Hr. cbn [run_calls] in Hr. unfold mbind, stres_mbind.
  destruct (api_call fuel sample_branch _ sample_db) as [r d]. injection Hr as -> ->. reflexivity.
Qed.

Lemma second_begins fuel : serve fuel (EvAsk AskBegin) (idle_world created_db) = (Ok (RepBranch other_branch), idle_world two_branches).
Proof.
  cbn [serve api_step idle_world w_db]. unfold Inner_begin, mbind, stres_mbind, st_map_err, db_begin, db_head. change (db_store created_db) with sample_store.
  rewrite sample_read. unfold mbind, res_mbind. cbn [map_err]. rewrite session_head. reflexivity.
Qed.

Lemma ok_inj {E A} (a b : A) : (Ok a : res E A) = Ok b -> b = a.
Proof. congruence. Qed.

Lemma two_branches_live st tx : live two_branches sample_branch st tx -> st = created_state /\ tx = sample_tx.
Proof.
  intros (Hid & Hr & _). unfold two_branches in *. cbn [db_branches db_store] in *. rewrite lookup_insert_ne in Hid by discriminate.
  rewrite lookup_singleton_eq in Hid. apply some_some_inj in Hid. rewrite sample_read in Hr. split; [exact Hid|exact (ok_inj _ _ Hr)].
Qed.

Lemma created_separate : separate sample_tx created_overlay.
Proof.
  destruct sample_serves as (h & Hsrv & Hd). pose proof (sv_state _ _ _ _ _ _ _ (srv_valid _ _ _ _ _ _ _ _ Hsrv)) as Hst.
  exists opened_head, (RBranch h), REmpty, sample_cells. split; [exact Hst|]. split; [exact (created_digests h Hd)|].
  rewrite (sample_root_is h Hst). exact (clash_free_ok _ sealing_clear).
Qed.

(** Sealing the created record gets a result. *)
Lemma two_branches_open : is_ok (commit_open sample_branch two_branches).1 = true.
Proof. vm_compute. reflexivity. Qed.

Lemma start_opens fuel r w' : serve fuel (EvStart sample_branch) (idle_world two_branches) = (r, w') ->
  is_ok r = true /\ is_Some (w_open w' !! sample_branch) /\ w_open w' !! other_branch = None.
Proof.
  cbn [serve idle_world w_db w_open]. pose proof two_branches_open as Hok. destruct (commit_open sample_branch two_branches) as [[[c sl]| | |] d]; [|discriminate Hok..].
  clear Hok. intros [= <- <-]. cbn [w_open]. split; [reflexivity|]. rewrite lookup_insert_eq, lookup_insert_ne by discriminate. split; [by eexists|apply lookup_empty].
Qed.

(** An event keeps the commits under way of other branches. *)
Lemma ask_open fuel req w r (w' : World MemoryStore) : serve fuel (EvAsk req) w = (r, w') -> w_open w' = w_open w.
Proof. cbn [serve]. destruct (api_step fuel req (w_db w)). intros [= _ <-]. reflexivity. Qed.
Lemma finish_open fuel id w r (w' : World MemoryStore) i : serve fuel (EvFinish id) w = (r, w') -> w_open w !! i = None -> w_open w' !! i = None.
Proof.
  cbn [serve]. destruct (w_open w !! id) as [[c sl]|]; [|by intros [= _ <-]]. destruct (commit_close id c sl (w_db w)). intros [= _ <-] Hi. cbn [w_open].
  destruct (decide (i = id)) as [->|Hne]; [apply lookup_delete_eq|by rewrite lookup_delete_ne].
Qed.

Lemma sample_scheduled : scheduled sample_events (idle_world idle_db).
Proof.
  unfold sample_events. split; [intros id E; discriminate E|]. split; [exact I|]. intros r1 w1 A1. rewrite (served_is _ _ _ _ _ _ A1 first_begins). clear A1 r1 w1.
  split; [intros id _; apply lookup_empty|]. split; [exact I|]. intros r2 w2 A2. rewrite (served_is _ _ _ _ _ _ A2 create_replies). clear A2 r2 w2.
  split; [intros id E; discriminate E|]. split; [exact I|]. intros r3 w3 A3. rewrite (served_is _ _ _ _ _ _ A3 second_begins). clear A3 r3 w3.
  split; [apply lookup_empty|]. split; [intros st tx Hl _; destruct (two_branches_live st tx Hl) as [-> ->]; exact created_separate|]. intros r4 w4 (f4 & A4).
  specialize (A4 f4 (le_n f4)). apply start_opens in A4 as (_ & Hopen & Hother).
  split; [intros id E; injection E as <-; exact Hother|]. split; [exact I|]. intros r5 w5 (f5 & A5). specialize (A5 f5 (le_n f5)). apply ask_open in A5.
  split; [cbn [enabled]; rewrite A5; exact Hopen|]. split; [exact I|]. intros r6 w6 (f6 & A6). specialize (A6 f6 (le_n f6)).
  apply (finish_open _ _ _ _ _ other_branch) in A6; [|rewrite A5; exact Hother].
  split; [intros id E; discriminate E|]. split; [exact I|]. intros r7 w7 (f7 & A7). specialize (A7 f7 (le_n f7)). apply ask_open in A7.
  split; [intros id E; injection E as <-; rewrite A7; exact A6|]. split; [exact I|]. intros; exact I.
Qed.

Lemma sample_events_ok : Forall event_ok sample_events.
Proof.
  unfold sample_events. repeat (apply Forall_cons; split); try exact I; [|split; reflexivity|apply Forall_nil; exact I].
  split; [reflexivity|]. intros name v Hv. unfold created_values in Hv. apply lookup_singleton_Some in Hv as [_ <-]. vm_compute. reflexivity.
Qed.

(** A run whose seals are not refused is the machine's own. *)
Definition unrefused (ev : Event) (r : res ApiError Reply) : Prop :=
  match ev with EvAsk (AskSeal _) | EvAsk (AskCommit _) | EvStart _ => is_ok r = true | _ => True end.

Lemma ev_run_unrefused `{Roaring, HashProvider} L w s evs rs w' s' : ev_run L w s evs rs w' s' -> Forall2 unrefused evs rs -> run_calls (ev_step L) evs s = (rs, s').
Proof.
  induction 1 as [w s|w s ev r w1 s1 evs rs w2 s2 _ Ha _ IH]; intros Hu; [reflexivity|]. apply Forall2_cons in Hu as [Hr Hu]. cbn [run_calls].
  assert (ev_step L ev s = (r, s1)) as ->; [|by rewrite (IH Hu)]. destruct Ha as [|e (_ & id & st & tx & b & Hev & _)]; [by destruct (ev_step L ev s)|]. by destruct ev as [[]| |].
Qed.

Lemma sample_unrefused fuel w' rs : run_calls (serve fuel) sample_events (idle_world idle_db) = (rs, w') -> Forall2 unrefused sample_events rs.
Proof.
  unfold sample_events. cbn [run_calls]. rewrite first_begins, create_replies, second_begins.
  destruct (serve fuel (EvStart sample_branch) (idle_world two_branches)) as [r4 w4] eqn:E4. apply start_opens in E4 as [Hok _].
  destruct (serve fuel _ w4) as [r5 w5]. destruct (serve fuel _ w5) as [r6 w6]. destruct (serve fuel _ w6) as [r7 w7]. destruct (serve fuel _ w7) as [r8 w8].
  intros E. assert (rs = [Ok (RepBranch sample_branch); Ok (RepAnswer (AnsKey key_a)); Ok (RepBranch other_branch); r4; r5; r6; r7; r8]) as -> by (clear -E; congruence).
  repeat (apply Forall2_cons; split); try exact I; [exact Hok|apply Forall2_nil_2].
Qed.

Definition sample_start : AbsDb := {| ad_head := GENESIS; ad_records := no_records; ad_branches := ∅; ad_next := 0 |}.
Definition sample_replies : list (res ApiError Reply) :=
  [Ok (RepBranch sample_branch); Ok (RepAnswer (AnsKey key_a)); Ok (RepBranch other_branch); Ok (RepCommit {| commit_number := 1 |}); Ok RepUnit;
   Ok (RepCommit {| commit_number := 1 |}); Ok (RepAnswer (AnsRecord {| rec_key := key_a; rec_cells := <[KEY := from_bytes32 key_a]> created_values |}));
   Err A_HandleInvalid].
Definition sample_end : AbsDb := {| ad_head := {| commit_number := 1 |}; ad_records := created_store; ad_branches := ∅; ad_next := 2 |}.

Lemma sample_machine : run_calls (ev_step sample_limits) sample_events sample_start = (sample_replies, sample_end).
Proof. vm_compute. reflexivity. Qed.

Lemma database_refines_branched_records_witness : exists f0 w' tx' head' cell_root' index_root' W',
  (forall fuel, (f0 <= fuel)%nat -> run_calls (serve fuel) sample_events (idle_world idle_db) = (sample_replies, w')) /\
  hd_commit_id head' = {| commit_number := 1 |} /\ serves sample_config (db_store (w_db w')) tx' head' cell_root' index_root' W' created_store.
Proof.
  destruct sample_serves as (h & Hsrv & _).
  destruct (database_refines_branched_records sample_config idle_db sample_tx opened_head (RBranch h) REmpty sample_cells no_records sample_events
    Hsrv no_records_keys eq_refl (Z.le_refl 0) sample_events_ok sample_scheduled) as (f0 & rs & w' & s' & Hrun & Hf & tx' & head' & cr & ir & W' & Ehead & Hs').
  pose proof (ev_run_unrefused _ _ _ _ _ _ _ Hrun (sample_unrefused f0 w' rs (Hf f0 (le_n f0)))) as Hm.
  change (run_calls (ev_step sample_limits) sample_events sample_start = (rs, s')) in Hm. rewrite sample_machine in Hm.
  assert (rs = sample_replies) as -> by (clear -Hm; congruence). assert (s' = sample_end) as -> by (clear -Hm; congruence).
  exists f0, w', tx', head', cr, ir, W'. split; [exact Hf|]. split; [exact Ehead|exact Hs'].
Defined.
